(* ===== verification/_CoqProject ===== *)
-Q . S2P
Prelude.v
GoStrconv.v
GoPath.v
RespWriter.v
Bufio.v
BufWriter.v
RespReader.v
GoTime.v
Shard.v
Locks.v
Store.v
StoreInv.v
Expire.v
Evict.v
Keyspace.v
StoreSpec.v
Settings.v
AofLog.v
AofInv.v
Replay.v
Commands.v
Journalling.v
Recovery.v
Sections.v
Linearize.v
Restart.v
Journals.v
LinearRecovery.v
Concurrency.v
CommandsSpec.v
Writers.v
Connection.v
Socket.v
Disconnect.v
Serve.v
Durability.v
Timers.v
Rewrite.v
Process.v
Shutdown.v
ServerSpec.v
Clients.v
Net.v
