(* ===== verification/Prelude.v ===== *)
(** * redisclone: a verification library

    redisclone is an in-memory key-value server that speaks RESP2 and can keep an
    append-only file (AOF) of its mutations.  This library is a model of its Go code
    and the theorems that make it correct.

    ** The program

    - [internal/resp]: [Reader] parses commands from a connection or from the log,
      [Writer] encodes replies and log records.
    - [internal/store]: the keyspace, 32 shards with a lock each.  Every mutation is
      handed to a [Journal] as a command that repeats its effect.  A background
      sampler collects expired keys ([expire.go]); before every write command keys are
      evicted until the memory estimate fits the limit ([evict.go]).
    - [internal/aof]: [Log] is the journal: it buffers records, writes and syncs them
      under one of three policies and can be rewritten from a snapshot; [Replay] reads
      it back at start-up and truncates a torn tail.
    - [internal/server]: a goroutine per connection reads a command, [dispatch]es it
      through a table of handlers to the store, replies, and under the [always] policy
      syncs the log before the reply leaves.  [applyLogged] runs the same handlers on
      the records [Replay] reads.

    - [cmd/redisclone]: [main] replays the log, opens it, starts the two background loops,
      serves, and on a signal drains the clients and closes the log.

    ** The files

    Standard library of Go, as far as the program uses it:
    - Prelude: bytes, [int64] and [uint64] with their wrap-around, errors, and the monad
      [GoM] of computations that thread a state, may fail and may panic.
    - GoStrconv: [strconv.ParseInt], [strconv.AppendInt] and ASCII case mapping.
    - GoPath: [path.Match] and UTF-8 decoding.  GoTime: [time.Time], [time.Duration].
    - Bufio: [bufio.Reader] over any [IOReader], the class [BufReader] with that instance and
      a flat one, and the simulation between them on a stream in arbitrary fragments.
    - BufWriter: [bufio.Writer] over any [Sink], and what it keeps under the sink's laws.

    The program:
    - RespWriter (resp/writer.go), RespReader (resp/reader.go).
    - Shard (store/shard.go, shard_locks.go), Store (store/store.go), Expire
      (store/expire.go), Evict (store/evict.go).  Each operation has its Go name; [Set] is
      [Set_], a keyword here.  [StoreInv] holds the representation invariant [store_wf],
      [Keyspace] the union of the shards, [Settings] what no operation changes.
    - AofLog (aof/aof.go) with the operating system it needs, AofInv its crash
      invariant; Replay (aof/replay.go).
    - Commands (server/commands.go; [applyLogged] and [safeName] of server/server.go, and
      the loop of [HandleConn] on separate ends).  [exists] is [exists_].
    - Socket: [HandleConn] on a client's socket, with both buffers and the flush hook;
      Disconnect: the same when writes to the socket fail.
    - Serve: [Serve], the goroutines of the connections, and [Drain].
    - Timers: [RunSyncLoop] and [RunActiveExpiration].
    - Rewrite: BGREWRITEAOF and its goroutine among clients and syncs.
    - Process: cmd/redisclone/main.go, from the flags to the open log; Shutdown: from
      [StartBackgroundTasks] to the end of the process, all its goroutines beside one another
      ([pstep]).
    - Locks: what every operation locks, in its order, and nothing else.  Sections: every
      operation of the store, the sampler and evictions as sequences of critical sections,
      and any number of clients that run them beside one another ([kstep]).

    Specifications and their proofs:
    - StoreSpec: the store as an expiring map; Journalling: what an operation journals;
      Recovery: what replaying a journal does to the map; Restart: the same for the
      concrete server; CommandsSpec, Connection, Writers, Durability: handlers,
      connections and acknowledged writes; ServerSpec: the command catalogue as operations
      of the map, and whole sessions.
    - Linearize: concurrent clients of the expiring map ([astep]) and the simulation of Sections
      by it; LinearRecovery: what the journal of such a run recovers; Concurrency: three
      schedules that mark the limits; Journals: a run does not depend on what its journal does
      with the records; Clients: commands as requests of Sections, and what [dispatch] may
      refuse; Net: connections beside one another over a store with the log ([nstep]).

    Interfaces are classes: [IOWriter] (Go's [io.Writer]; instances [bytes.Buffer], the log's
    and a connection's [bufio.Writer]), [IOReader] ([io.Reader]; a stream, and the socket
    behind the flush hook), [BufReader], [Sink] with its laws (the files of the log, the
    socket), and [Journal] (the log, and lists of records).  The store's theorems hold for
    every [Journal], the parser's for both readers, the handlers' for any two writers that agree
    (Writers), those of [bufio.Writer] for every [Sink].

    ** The theorems

    - Sessions: what a client is sent for a pipeline of keyspace commands is what the expiring
      map answers, from socket to socket; [dispatch] implements its catalogue, evictions and
      refusals included; replies have the kind that the catalogue says (ServerSpec).
      Whenever the server waits for a client, the client has all its replies (Socket); a client
      that goes away has been sent a prefix of them, and its socket is closed (Disconnect).
    - Store: every reply of every sequence of operations is the one of an expiring map,
      whatever lazy and active collection do in between (StoreSpec); the invariant holds
      in every reachable state; counters are exact (Keyspace); the window between the two
      locks of [Get] is safe.
    - Life of a process: after a crash at any moment, rewrites included, the next process
      comes up on the records of one moment not before the last sync, and so on through any
      number of crashes; a process that comes up has replayed its log without an error, and a
      start that fails leaves the log alone (Process, Rewrite).  A signal ends the process
      whatever its clients do, and once it has ended without an error the whole log is
      on stable storage (Shutdown).
    - Durability: [dstep] (AofInv) follows a run of the log and what the log promises in it:
      all records at a sync that succeeds, the records of the new file at the installation
      of a rewrite.  The file at the log's path is always a prefix of what it should hold, and
      a crash leaves all that was promised; rewriting is atomic, keeps concurrent writes, and
      when it fails leaves the old file with all its records.  Replay after a crash applies
      the complete records that are left, or stops at the first one that its callback refuses
      (Replay).  A write that [dispatch] has acknowledged under [always], with the log still
      healthy, is on stable storage (Durability); a tick of the timer is a promise, unless it
      fails, and then the log refuses every further record (Timers).
    - Two conditions go with every theorem about what a restarted server shows ([shows],
      [showsMap]).  The records must be readable: [sendable], the protocol's limits,
      and [recordable], deadlines that [applyLogged] reads back; a client's PX can violate the
      latter ([px_near_max_unreadable]).  And a key that has been given, since it was last
      written or deleted, a deadline that has passed at the restart may be missing, even if a
      later deadline had replaced that one ([deadlines], [extended_deadline_lost]).
    - Protocol: what the encoder writes the parser reads back; the parser is safe on
      every input and depends only on the bytes, not on their fragmentation (RespReader);
      every connection ends and is only ever sent whole values (Connection).
    - Background work: active expiration and eviction are safe, terminate and do their
      job (Expire, Evict), and clients cannot see the former (Timers).
    - Concurrency: no interleaving of the locks deadlocks, writers exclude each other, and
      every run ends (Locks).  Every interleaving of the store's critical sections is a run of
      the specification, whose journal, with a journal attached, is its log in its order; every
      request is answered (Linearize).  A command alone is its sections, evictions and
      refusals included (Clients), and connections that run commands at the same time, with
      system calls of the log failing and commands refused, are told what the specification
      answers, one value for each command; after a crash the restarted server shows one moment
      of the run they were told of, with all that was journalled before the last good sync
      (Net).  The accept loop accounts for every connection and [Drain] returns (Serve).
    - Some theorems state that the code does not do what it or its documentation
      means to: a deadline extended by EXPIRE is forgotten by a restart, EXISTS can count half of
      an MSET, an unjournalled increment can be lost, a large PX makes the log unreadable, a failed sync is
      acknowledged, an error of [Serve] skips the closing of the log, damage can pass for
      a torn tail, the samplers favour low shards, memory sizes overflow.

    ** Conventions, fuel and bounds

    - [time.Now()] is an argument, one for each reading in the order they are taken.
    - The order in which Go ranges over a map is an argument; theorems quantify over it.
    - A system call or a write to a socket consults a script of faults, so theorems quantify
      over failures.
    - Fuel is given where recursion is not structural, and it is always enough:
      the eviction loop has one unit per key and removes one each time
      ([EnforceMemoryLimit_correct]); replay and the connection loop have one per byte of
      the stream ([Replay_total], [connection_replies]); the loops of [bufio] have the size
      of the buffer or the length of what they fill, [path.Match] that of what it consumes;
      [formatDigits] has 20 units, the digits of a [uint64].
    - Integers are [Z]; wrap-around is written where Go's arithmetic can overflow.
      A [Time] is not bounded.
    - In Sections a step is what happens under one acquisition of shard locks, or one atomic
      access or journal record outside of them; the shards of a multi-key operation are held
      together and are one section; the work of MSET, DEL and EXPIREAT includes their record,
      which they journal with the locks held.  The victims of an eviction and the order of a
      sample are any.  In Rewrite, a mutation and its record are one step.
    - A completed [os.Rename] is durable.  The code never syncs the directory, so this is an
      assumption about the file system (a finding).

    ** Not modelled

    - Flag parsing, logging, pprof and the delivery of signals in [main]: I/O without logic of
      its own.
    - In Net, INFO, CONFIG and BGREWRITEAOF; with a memory limit its commands may evict any keys
      and be refused after that or not, since the estimate is compared while others change
      it.  [EnforceMemoryLimit_correct] says what happens to a command alone.
    - The rewrite of the log is interleaved with whole operations (Rewrite), shard by shard, and
      not with the single sections of them.  That a snapshot and its tail recover the keyspace
      rests on clock readings in order; an EXPIRE that read its clock before the snapshot and
      takes effect after it needs another argument, like the one of LinearRecovery.
    - In Shutdown what a handler does to the store is any operation, eviction or sync, each in
      one step; Socket, Connection and Net say which commands do what.
    - Data races: a step of Sections reads an entry's deadline atomically (a finding).
    - Memory: slices are values.  The store never changes a stored value in place, so
      aliasing is not observable.
    - Log lines, and Unicode case mapping and white space of text that is not ASCII
      (parameters). *)

From stdpp Require Import base gmap sets list strings.
From Stdlib Require Import ZArith Lia.
From Stdlib Require Import Strings.Byte.

#[local] Open Scope Z_scope.

(** ** Bytes and Go strings *)

Abbreviation bytes := (list byte).

#[export] Instance byte_eq_dec : EqDecision byte := Byte.byte_eq_dec.

#[export] Instance byte_countable : Countable byte :=
  inj_countable Byte.to_N Byte.of_N Byte.of_to_N.

#[export] Instance byte_inhabited : Inhabited byte := populate Byte.x00.

(** A Go string or byte-slice literal. *)
Definition bs (s : string) : bytes := String.list_byte_of_string s.

(** [byteZ c] is Go's [uint64(c)] / [int(c)] of a byte. *)
Definition byteZ (c : byte) : Z := Z.of_N (Byte.to_N c).

(** [lenZ l] is Go's [len]. *)
Definition lenZ {A} (l : list A) : Z := Z.of_nat (length l).

(** ** Machine integers *)

Definition maxInt64 : Z := 2 ^ 63 - 1.
Definition minInt64 : Z := - 2 ^ 63.
Definition maxUint64 : Z := 2 ^ 64 - 1.

(** Two's-complement wrap-around of [int64] and wrap-around of [uint64]. *)
Definition wrap64 (z : Z) : Z := (z + 2 ^ 63) mod 2 ^ 64 - 2 ^ 63.
Definition wrapU64 (z : Z) : Z := z mod 2 ^ 64.

Definition is_int64 (z : Z) : Prop := minInt64 <= z <= maxInt64.

#[export] Instance is_int64_dec z : Decision (is_int64 z).
Proof. unfold is_int64; apply _. Defined.

(** ** Errors and control flow of Go *)

(** The [error] values the packages distinguish. A [ProtocolError] carries its
    message (reader.go), an [OSError] the number of the failing system call;
    [ErrorString] is [fmt.Errorf] without and [Wrapped] with a [%w] cause. *)
Inductive error : Type :=
| EOF
| ErrUnexpectedEOF
| ErrBufferFull
| ErrShortWrite
| ErrNoProgress
| ProtocolError (msg : bytes)
| OSError (code : Z)
| ErrorString (msg : bytes)
| Wrapped (msg : bytes) (cause : error).

#[export] Instance error_eq_dec : EqDecision error.
Proof. solve_decision. Defined.

(** What a Go call does: return, return a non-nil error, or panic. *)
Inductive outcome (A : Type) : Type :=
| Ret (a : A)
| Fail (e : error)
| Panics (why : bytes).
Arguments Ret {A} a.
Arguments Fail {A} e.
Arguments Panics {A} why.

(** Computations that thread a state, may return an error and may panic. An
    error or a panic skips the rest, as [if err != nil { return err }] does. *)
Definition GoM (S A : Type) : Type := S -> S * outcome A.

#[export] Instance GoM_ret {S} : MRet (GoM S) := fun A a s => (s, Ret a).

#[export] Instance GoM_bind {S} : MBind (GoM S) := fun A B f m s =>
  match m s with
  | (s', Ret a) => f a s'
  | (s', Fail e) => (s', Fail e)
  | (s', Panics w) => (s', Panics w)
  end.

Definition throw {S A} (e : error) : GoM S A := fun s => (s, Fail e).
Definition panic {S A} (w : bytes) : GoM S A := fun s => (s, Panics w).

Lemma GoM_bind_ret {S A B} (a : A) (f : A -> GoM S B) s :
  (mret a ≫= f) s = f a s.
Proof. reflexivity. Qed.

Lemma GoM_bind_step {S A B} (m : GoM S A) (f : A -> GoM S B) s s' a :
  m s = (s', Ret a) -> (m ≫= f) s = f a s'.
Proof. intros H. unfold mbind, GoM_bind. by rewrite H. Qed.

Lemma GoM_bind_fail {S A B} (m : GoM S A) (f : A -> GoM S B) s s' e :
  m s = (s', Fail e) -> (m ≫= f) s = (s', Fail e).
Proof. intros H. unfold mbind, GoM_bind. by rewrite H. Qed.

(** ** Automation *)

(** [lia] with quotients and remainders turned into equations first. *)
Ltac zlia := Z.to_euclidean_division_equations; lia.

(** Case analysis on the [Z] comparisons of the goal, then [lia]. *)
Ltac case_Z :=
  repeat match goal with
    | |- context [Z.leb ?a ?b] => destruct (Z.leb_spec a b)
    | |- context [Z.ltb ?a ?b] => destruct (Z.ltb_spec a b)
    | |- context [Z.eqb ?a ?b] => destruct (Z.eqb_spec a b)
    end.

(** ** Sums over lists *)

Definition sumZ {A} (f : A -> Z) (l : list A) : Z := foldr (fun x n => f x + n) 0 l.

Lemma foldl_sumZ {A} (f : A -> Z) (a : Z) (l : list A) :
  foldl (fun n x => n + f x) a l = a + sumZ f l.
Proof. revert a. induction l as [|x l IH]; intros a; simpl; [lia|]. rewrite IH. lia. Qed.

Lemma sumZ_app {A} (f : A -> Z) (l k : list A) : sumZ f (l ++ k) = sumZ f l + sumZ f k.
Proof. induction l as [|x l IH]; simpl; [lia|]. rewrite IH. lia. Qed.

Lemma sumZ_insert {A} (f : A -> Z) (l : list A) (i : nat) (x y : A) :
  l !! i = Some x -> sumZ f (<[i := y]> l) = sumZ f l - f x + f y.
Proof.
  revert i. induction l as [|z l IH]; intros [|i] H; simpl in *; simplify_eq; [lia|].
  rewrite (IH _ H). lia.
Qed.

Lemma sumZ_delete {A} (f : A -> Z) (l : list A) (i : nat) (x : A) :
  l !! i = Some x -> sumZ f (delete i l) = sumZ f l - f x.
Proof.
  revert i. induction l as [|y l IH]; intros [|i] H; simplify_eq/=; [lia|].
  rewrite (IH i H). lia.
Qed.

Lemma sumZ_nonneg {A} (f : A -> Z) (l : list A) : (forall x, 0 <= f x) -> 0 <= sumZ f l.
Proof. intros H. induction l as [|x l IH]; simpl; [lia|]. specialize (H x). lia. Qed.

(** A list of which one member at a time gets smaller. *)
Definition one_smaller {A} (R : A -> A -> Prop) (l' l : list A) : Prop :=
  exists i x x', l !! i = Some x /\ R x' x /\ l' = <[i := x']> l.

Lemma one_smaller_wf {A} (R : A -> A -> Prop) : well_founded R -> well_founded (one_smaller R).
Proof.
  intros HR l. induction l as [|x l IH].
  { constructor. intros l' (i & x & x' & Hi & _). by rewrite lookup_nil in Hi. }
  revert l IH. induction (HR x) as [x _ IHx]. intros l Hl.
  induction Hl as [l Hl IHl]. constructor. intros l' ([|i] & y & y' & Hi & Hy & ->); simpl in *.
  - injection Hi as <-. apply IHx; [done|]. by constructor.
  - apply IHl. by exists i, y, y'.
Qed.

Lemma lenZ_app {A} (l k : list A) : lenZ (l ++ k) = lenZ l + lenZ k.
Proof. unfold lenZ. rewrite length_app. lia. Qed.

(** What is in a list after an update was there, or is new. *)
Lemma elem_of_updated {A} (l : list A) (i : nat) (x y : A) : y ∈ <[i := x]> l -> y = x \/ y ∈ l.
Proof.
  intros (j & Hj)%list_elem_of_lookup. destruct (decide (i = j)) as [<-|Hne].
  - apply lookup_lt_Some in Hj as Hlt. rewrite length_insert in Hlt.
    rewrite list_lookup_insert_eq in Hj by done. left. congruence.
  - rewrite list_lookup_insert_ne in Hj by done. right. by eapply list_elem_of_lookup_2.
Qed.

(** ** Filtering a singleton *)

Lemma filter_singleton_in (P : bytes -> Prop) `{!forall x, Decision (P x)} (k : bytes) :
  P k -> filter P ({[k]} : gset bytes) = {[k]}.
Proof. intros Hk. apply set_eq. intros x. rewrite elem_of_filter. set_solver. Qed.

Lemma filter_singleton_out (P : bytes -> Prop) `{!forall x, Decision (P x)} (k : bytes) :
  ~ P k -> filter P ({[k]} : gset bytes) = ∅.
Proof. intros Hk. apply set_eq. intros x. rewrite elem_of_filter. set_solver. Qed.
