(* ===== verification/GoStrconv.v ===== *)
(** * The parts of Go's [strconv] and [strings] the program calls

    [strconv.ParseInt(s, 10, 64)], [strconv.AppendInt(nil, n, 10)] (which
    [strconv.FormatInt] and [strconv.Itoa] share) and the ASCII paths of
    [strings.ToUpper] and [strings.ToLower].  The parser keeps the machine
    widths of the original: the accumulator is a [uint64] whose overflow checks
    are the ones of the Go source, and the specification is the unbounded value
    of a decimal numeral. *)

From stdpp Require Import base list strings.
From Stdlib Require Import ZArith Lia.
From Stdlib Require Import Strings.Byte.
From S2P Require Import Prelude.

#[local] Open Scope Z_scope.

(** ** Decimal digits *)

Definition is_digit (c : byte) : bool := (48 <=? byteZ c) && (byteZ c <=? 57).
Definition digit_val (c : byte) : Z := byteZ c - 48.
Definition digit_byte (d : Z) : byte :=
  default Byte.x30 (Byte.of_N (Z.to_N (48 + d))).

Definition minus : byte := Byte.x2d.
Definition plus : byte := Byte.x2b.

(** ** [strconv.ParseInt] *)

Inductive NumError : Type := ErrSyntax | ErrRange.

(** [cutoff = maxUint64/10 + 1], the least accumulator that overflows when it is
    multiplied by the base. *)
Definition cutoff10 : Z := maxUint64 / 10 + 1.

Fixpoint ParseUint_loop (s : bytes) (n : Z) : Z + NumError :=
  match s with
  | [] => inl n
  | c :: s' =>
      if is_digit c then
        if cutoff10 <=? n then inr ErrRange
        else
          let n10 := wrapU64 (n * 10) in
          let n1 := wrapU64 (n10 + digit_val c) in
          if (n1 <? n10) || (maxUint64 <? n1) then inr ErrRange
          else ParseUint_loop s' n1
      else inr ErrSyntax
  end.

Definition ParseUint (s : bytes) : Z + NumError :=
  match s with
  | [] => inr ErrSyntax
  | _ => ParseUint_loop s 0
  end.

Definition ParseInt (s : bytes) : Z + NumError :=
  match s with
  | [] => inr ErrSyntax
  | c :: s' =>
      let neg := bool_decide (c = minus) in
      let body := if neg || bool_decide (c = plus) then s' else s in
      match ParseUint body with
      | inr e => inr e
      | inl un =>
          if negb neg && (2 ^ 63 <=? un) then inr ErrRange
          else if neg && (2 ^ 63 <? un) then inr ErrRange
          else inl (if neg then - un else un)
      end
  end.

(** ** [strconv.AppendInt] *)

(** The digits of [u], least significant last, prepended to [acc]; twenty
    digits are enough for any [uint64]. *)
Fixpoint formatDigits (fuel : nat) (u : Z) (acc : bytes) : bytes :=
  match fuel with
  | O => acc
  | S f =>
      let acc' := digit_byte (u mod 10) :: acc in
      if u <? 10 then acc' else formatDigits f (u / 10) acc'
  end.

Definition FormatInt (n : Z) : bytes :=
  if n <? 0 then minus :: formatDigits 20 (- n) [] else formatDigits 20 n [].

(** ** ASCII case mapping *)

Definition upper_byte (c : byte) : byte :=
  if (97 <=? byteZ c) && (byteZ c <=? 122)
  then default c (Byte.of_N (Byte.to_N c - 32)) else c.
Definition lower_byte (c : byte) : byte :=
  if (65 <=? byteZ c) && (byteZ c <=? 90)
  then default c (Byte.of_N (Byte.to_N c + 32)) else c.

Definition is_ascii (s : bytes) : bool := forallb (fun c => byteZ c <? 128) s.

(** ** Specification: the value of a numeral *)

Definition dec_from (n : Z) (s : bytes) : Z :=
  foldl (fun n c => 10 * n + digit_val c) n s.

Definition all_digits (s : bytes) : bool := forallb is_digit s.

(** A numeral: an optional sign and at least one digit. *)
Definition numeral (s : bytes) : option Z :=
  match s with
  | [] => None
  | c :: s' =>
      let neg := bool_decide (c = minus) in
      let body := if neg || bool_decide (c = plus) then s' else s in
      if negb (bool_decide (body = [])) && all_digits body
      then Some (if neg then - dec_from 0 body else dec_from 0 body)
      else None
  end.

(** ** Lemmas on digits *)

Lemma is_digit_range c : is_digit c = true -> 0 <= digit_val c <= 9.
Proof. unfold is_digit, digit_val. lia. Qed.

Lemma digit_byte_spec d :
  0 <= d <= 9 -> is_digit (digit_byte d) = true /\ digit_val (digit_byte d) = d.
Proof.
  intros H.
  assert (d = 0 \/ d = 1 \/ d = 2 \/ d = 3 \/ d = 4 \/ d = 5 \/ d = 6 \/ d = 7
          \/ d = 8 \/ d = 9) as Hd by lia.
  repeat destruct Hd as [->|Hd]; subst; by vm_compute.
Qed.

Lemma dec_from_cons n c s : dec_from n (c :: s) = dec_from (10 * n + digit_val c) s.
Proof. reflexivity. Qed.

Lemma dec_from_mono n s :
  0 <= n -> all_digits s = true -> n <= dec_from n s.
Proof.
  revert n. induction s as [|c s IH]; intros n Hn Hs; [simpl; lia|].
  rewrite dec_from_cons. simpl in Hs. apply andb_prop in Hs as [Hc Hs].
  apply is_digit_range in Hc. etrans; [|apply IH; [lia|done]]. lia.
Qed.

(** ** The parser computes the value of the numeral *)

Lemma ParseUint_loop_ok s n :
  0 <= n <= maxUint64 -> all_digits s = true ->
  ParseUint_loop s n =
    if dec_from n s <=? maxUint64 then inl (dec_from n s) else inr ErrRange.
Proof.
  revert n. induction s as [|c s IH]; intros n Hn Hs.
  { simpl. destruct (Z.leb_spec n maxUint64); [done|lia]. }
  simpl in Hs. apply andb_prop in Hs as [Hc Hs]. pose proof (is_digit_range _ Hc).
  cbn [ParseUint_loop]. rewrite Hc, dec_from_cons.
  assert (0 <= 10 * n + digit_val c) as Hnn by lia.
  pose proof (dec_from_mono _ s Hnn Hs) as Hmono.
  unfold wrapU64, maxUint64 in *.
  change cutoff10 with 1844674407370955162.
  destruct (Z.leb_spec 1844674407370955162 n).
  { destruct (Z.leb_spec (dec_from (10 * n + digit_val c) s) (2 ^ 64 - 1)); [lia|done]. }
  rewrite (Z.mod_small (n * 10)) by lia.
  destruct (Z.le_gt_cases (10 * n + digit_val c) (2 ^ 64 - 1)).
  - rewrite Z.mod_small by lia.
    replace (n * 10 + digit_val c) with (10 * n + digit_val c) by lia.
    replace ((10 * n + digit_val c <? n * 10) || (2 ^ 64 - 1 <? 10 * n + digit_val c))
      with false by lia.
    rewrite IH by (done || lia). done.
  - replace ((n * 10 + digit_val c) mod 2 ^ 64)
      with (n * 10 + digit_val c - 2 ^ 64)
      by (apply Z.mod_unique with 1; lia).
    replace ((n * 10 + digit_val c - 2 ^ 64 <? n * 10)
             || (2 ^ 64 - 1 <? n * 10 + digit_val c - 2 ^ 64)) with true by lia.
    destruct (Z.leb_spec (dec_from (10 * n + digit_val c) s) (2 ^ 64 - 1)); [lia|done].
Qed.

Lemma ParseUint_loop_bad s n :
  all_digits s = false -> exists e, ParseUint_loop s n = inr e.
Proof.
  revert n. induction s as [|c s IH]; intros n Hs; [done|].
  cbn [ParseUint_loop]. simpl in Hs. destruct (is_digit c); [|by eexists].
  simpl in Hs. repeat case_match; eauto.
Qed.

(** [ParseInt] succeeds exactly on the numerals whose value is an [int64], and
    returns that value. *)
Lemma ParseInt_spec s z :
  ParseInt s = inl z <-> numeral s = Some z /\ is_int64 z.
Proof.
  unfold ParseInt, numeral, is_int64, minInt64, maxInt64.
  destruct s as [|c s']; [by split; [|intros []]|].
  set (neg := bool_decide (c = minus)).
  set (body := if neg || bool_decide (c = plus) then s' else c :: s').
  unfold ParseUint. destruct body as [|d body'] eqn:Hb; [by split; [|intros []]|].
  rewrite bool_decide_false by done. cbn [negb andb].
  destruct (all_digits (d :: body')) eqn:Hd.
  - rewrite ParseUint_loop_ok by (done || (unfold maxUint64; lia)).
    pose proof (dec_from_mono 0 (d :: body') ltac:(lia) Hd) as Hnn.
    set (v := dec_from 0 (d :: body')) in *. unfold maxUint64.
    destruct (Z.leb_spec v (2 ^ 64 - 1)), neg; cbn [negb andb];
      case_Z; split; intros; simplify_eq; destruct_and?; simplify_eq; auto with lia; lia.
  - destruct (ParseUint_loop_bad (d :: body') 0 Hd) as [e ->].
    by split; [|intros []].
Qed.

(** ** Formatting and the round trip *)

Lemma formatDigits_value fuel u acc :
  0 <= u < 10 ^ Z.of_nat fuel -> (0 < fuel)%nat ->
  dec_from 0 (formatDigits fuel u acc) = dec_from u acc.
Proof.
  revert u acc. induction fuel as [|f IH]; intros u acc Hu Hf; [lia|].
  cbn [formatDigits].
  destruct (digit_byte_spec (u mod 10)) as [_ Hv]; [zlia|].
  destruct (Z.ltb_spec u 10).
  - rewrite dec_from_cons, Hv, Z.mod_small by lia. f_equal; lia.
  - rewrite Nat2Z.inj_succ, Z.pow_succ_r in Hu by lia.
    destruct f as [|f]; [simpl in Hu; lia|].
    rewrite IH; [|split; [zlia|apply Z.div_lt_upper_bound; lia]|lia].
    rewrite dec_from_cons, Hv. f_equal. zlia.
Qed.

Lemma formatDigits_digits fuel u acc :
  0 <= u -> all_digits acc = true -> all_digits (formatDigits fuel u acc) = true.
Proof.
  revert u acc. induction fuel as [|f IH]; intros u acc Hu Ha; [done|].
  cbn [formatDigits].
  destruct (digit_byte_spec (u mod 10)) as [Hd _]; [zlia|].
  assert (all_digits (digit_byte (u mod 10) :: acc) = true) by (simpl; by rewrite Hd).
  destruct (u <? 10); [done|]. apply IH; [zlia|done].
Qed.

Lemma formatDigits_length fuel u acc :
  (length acc < length (formatDigits (S fuel) u acc) <= length acc + S fuel)%nat.
Proof.
  revert u acc. induction fuel as [|f IH]; intros u acc.
  { simpl. destruct (u <? 10); simpl; lia. }
  change (formatDigits (S (S f)) u acc) with
    (if u <? 10 then digit_byte (u mod 10) :: acc
     else formatDigits (S f) (u / 10) (digit_byte (u mod 10) :: acc)).
  destruct (u <? 10); [simpl; lia|].
  specialize (IH (u / 10) (digit_byte (u mod 10) :: acc)). simpl length in *. lia.
Qed.

Lemma is_digit_not_sign c : is_digit c = true -> c <> minus /\ c <> plus.
Proof. intros H; split; intros ->; by vm_compute in H. Qed.

Lemma FormatInt_numeral n : is_int64 n -> numeral (FormatInt n) = Some n.
Proof.
  unfold is_int64, minInt64, maxInt64, FormatInt. intros Hn.
  assert (forall u, 0 <= u <= 2 ^ 63 ->
    exists d ds, formatDigits 20 u [] = d :: ds /\ all_digits (d :: ds) = true
                 /\ dec_from 0 (d :: ds) = u) as Hf.
  { intros u Hu. pose proof (formatDigits_length 19 u []) as Hl.
    destruct (formatDigits 20 u []) as [|d ds] eqn:Hd; [simpl in Hl; lia|].
    exists d, ds. rewrite <- Hd. split; [done|].
    split; [apply formatDigits_digits; [lia|done]|].
    rewrite formatDigits_value; [done| |lia]. change (10 ^ Z.of_nat 20) with (10 ^ 20). lia. }
  destruct (Z.ltb_spec n 0).
  - destruct (Hf (- n)) as (d & ds & -> & Hd & Hv); [lia|].
    unfold numeral. rewrite (bool_decide_true (minus = minus)) by done. cbn [orb].
    rewrite (bool_decide_false (d :: ds = [])) by done. rewrite Hd. cbn [negb andb].
    rewrite Hv. f_equal; lia.
  - destruct (Hf n) as (d & ds & -> & Hd & Hv); [lia|].
    unfold numeral.
    destruct (is_digit_not_sign d) as [??]; [simpl in Hd; by apply andb_prop in Hd as [? _]|].
    rewrite (bool_decide_false (d = minus)), (bool_decide_false (d = plus)),
      (bool_decide_false (d :: ds = [])) by done.
    cbn [orb negb andb]. rewrite Hd, Hv. done.
Qed.

Lemma ParseInt_FormatInt n : is_int64 n -> ParseInt (FormatInt n) = inl n.
Proof. intros Hn. apply ParseInt_spec. split; [by apply FormatInt_numeral|done]. Qed.

(** Every byte of a formatted number is a digit or the minus sign. *)
Lemma FormatInt_bytes n : Forall (fun c => is_digit c = true \/ c = minus) (FormatInt n).
Proof.
  assert (forall u, 0 <= u ->
    Forall (fun c => is_digit c = true \/ c = minus) (formatDigits 20 u [])) as H.
  { intros u Hu. pose proof (formatDigits_digits 20 u [] Hu eq_refl) as Hd.
    apply Forall_forall. intros c Hc. left. unfold all_digits in Hd.
    rewrite forallb_forall in Hd. apply Hd. by apply list_elem_of_In. }
  unfold FormatInt. destruct (Z.ltb_spec n 0); [constructor; [by right|]|];
    apply H; lia.
Qed.

Lemma formatDigits_bound fuel k u acc :
  0 <= u < 10 ^ Z.of_nat (S k) ->
  (length (formatDigits fuel u acc) <= length acc + S k)%nat.
Proof.
  revert k u acc. induction fuel as [|f IH]; intros k u acc Hu; [simpl; lia|].
  cbn [formatDigits]. destruct (Z.ltb_spec u 10); [rewrite length_cons; lia|].
  rewrite Nat2Z.inj_succ, Z.pow_succ_r in Hu by lia.
  destruct k as [|k]; [simpl in Hu; lia|].
  etrans; [apply (IH k)|rewrite length_cons; lia].
  split; [zlia|apply Z.div_lt_upper_bound; lia].
Qed.

(** An [int64] takes at most twenty bytes, its sign included. *)
Lemma FormatInt_int64_length n : is_int64 n -> (length (FormatInt n) <= 20)%nat.
Proof.
  unfold is_int64, minInt64, maxInt64, FormatInt. intros Hn.
  assert (forall u, 0 <= u <= 2 ^ 63 -> (length (formatDigits 20 u []) <= 19)%nat) as H.
  { intros u Hu. apply (formatDigits_bound 20 18 u []).
    change (10 ^ Z.of_nat 19) with (10 ^ 19). lia. }
  destruct (Z.ltb_spec n 0); [rewrite length_cons|];
    [specialize (H (- n))|specialize (H n)]; lia.
Qed.
