(* ===== verification/GoPath.v ===== *)
(** * [path.Match] and the UTF-8 decoder it uses

    The glob matcher of Go's standard library, which CONFIG GET runs on a pattern of
    the client's.  [None] is [path.ErrBadPattern].  Each loop has the length of the
    text it consumes as its fuel. *)

From stdpp Require Import base list strings.
From Stdlib Require Import ZArith Lia.
From Stdlib Require Import Strings.Byte.
From S2P Require Import Prelude.
From S2P Require Import GoStrconv.

#[local] Open Scope Z_scope.

Definition RuneError : Z := 65533.

Definition in_range (lo hi : Z) (c : byte) : bool := (lo <=? byteZ c) && (byteZ c <=? hi).
Definition cont_bits (c : byte) : Z := Z.land (byteZ c) 63.

(** [utf8.DecodeRuneInString]: the rune and its width. *)
Definition DecodeRuneInString (s : bytes) : Z * nat :=
  match s with
  | [] => (RuneError, 0%nat)
  | b0 :: t =>
      if byteZ b0 <? 128 then (byteZ b0, 1%nat)
      else if in_range 194 223 b0 then
        match t with
        | b1 :: _ =>
            if in_range 128 191 b1
            then (Z.lor (Z.shiftl (Z.land (byteZ b0) 31) 6) (cont_bits b1), 2%nat)
            else (RuneError, 1%nat)
        | [] => (RuneError, 1%nat)
        end
      else if in_range 224 239 b0 then
        match t with
        | b1 :: b2 :: _ =>
            let lo := if byteZ b0 =? 224 then 160 else 128 in
            let hi := if byteZ b0 =? 237 then 159 else 191 in
            if in_range lo hi b1 && in_range 128 191 b2
            then (Z.lor (Z.shiftl (Z.land (byteZ b0) 15) 12)
                    (Z.lor (Z.shiftl (cont_bits b1) 6) (cont_bits b2)), 3%nat)
            else (RuneError, 1%nat)
        | _ => (RuneError, 1%nat)
        end
      else if in_range 240 244 b0 then
        match t with
        | b1 :: b2 :: b3 :: _ =>
            let lo := if byteZ b0 =? 240 then 144 else 128 in
            let hi := if byteZ b0 =? 244 then 143 else 191 in
            if in_range lo hi b1 && in_range 128 191 b2 && in_range 128 191 b3
            then (Z.lor (Z.shiftl (Z.land (byteZ b0) 7) 18)
                    (Z.lor (Z.shiftl (cont_bits b1) 12)
                       (Z.lor (Z.shiftl (cont_bits b2) 6) (cont_bits b3))), 4%nat)
            else (RuneError, 1%nat)
        | _ => (RuneError, 1%nat)
        end
      else (RuneError, 1%nat)
  end.

Definition is_byte (n : Z) (c : byte) : bool := byteZ c =? n.

(** [getEsc]: one possibly escaped character of a class. *)
Definition getEsc (chunk : bytes) : option (Z * bytes) :=
  match chunk with
  | [] => None
  | c :: t =>
      if is_byte 45 c || is_byte 93 c then None
      else
        let chunk1 := if is_byte 92 c then t else chunk in
        match chunk1 with
        | [] => None
        | _ =>
            let '(r, n) := DecodeRuneInString chunk1 in
            if (r =? RuneError) && (n =? 1)%nat then None
            else match drop n chunk1 with [] => None | rest => Some (r, rest) end
        end
  end.

(** The ranges of a class: what follows it and whether [r] is in it. *)
Fixpoint matchRanges (fuel : nat) (chunk : bytes) (r : Z) (matched : bool) (nrange : Z) :
    option (bytes * bool) :=
  match fuel with
  | O => None
  | S fu =>
      match chunk with
      | c :: t =>
          if is_byte 93 c && (0 <? nrange) then Some (t, matched)
          else
            '(lo, chunk1) ← getEsc chunk;
            '(hi, chunk2) ← match chunk1 with
                            | d :: t1 => if is_byte 45 d then getEsc t1 else Some (lo, chunk1)
                            | [] => Some (lo, chunk1)
                            end;
            matchRanges fu chunk2 r (matched || ((lo <=? r) && (r <=? hi))) (nrange + 1)
      | [] => None
      end
  end.

(** [matchChunk]: the rest of [s] and whether the chunk matched. *)
Fixpoint matchChunk (fuel : nat) (chunk s : bytes) (failed : bool) : option (bytes * bool) :=
  match fuel with
  | O => None
  | S fu =>
      match chunk with
      | [] => if failed then Some ([], false) else Some (s, true)
      | c :: t =>
          let failed := failed || bool_decide (s = []) in
          if is_byte 91 c then
            let '(r, s1) := if failed then (0, s)
                            else let '(r, n) := DecodeRuneInString s in (r, drop n s) in
            let '(negated, t1) := match t with
                                  | d :: t' => if is_byte 94 d then (true, t') else (false, t)
                                  | [] => (false, t)
                                  end in
            '(rest, matched) ← matchRanges (S (length t1)) t1 r false 0;
            matchChunk fu rest s1 (failed || Bool.eqb matched negated)
          else if is_byte 63 c then
            if failed then matchChunk fu t s failed
            else matchChunk fu t (drop (DecodeRuneInString s).2 s)
                   (match s with d :: _ => is_byte 47 d | [] => false end)
          else
            match (if is_byte 92 c then t else chunk) with
            | [] => None
            | x :: t1 =>
                if failed then matchChunk fu t1 s failed
                else match s with
                     | d :: s1 => matchChunk fu t1 s1 (negb (bool_decide (x = d)))
                     | [] => matchChunk fu t1 s true
                     end
            end
      end
  end.

Definition runChunk (chunk s : bytes) : option (bytes * bool) :=
  matchChunk (S (length chunk)) chunk s false.

(** The position at which [scanChunk] stops. *)
Fixpoint scanTo (pattern : bytes) (inrange : bool) : nat :=
  match pattern with
  | [] => 0
  | c :: t =>
      if is_byte 92 c then match t with _ :: t' => S (S (scanTo t' inrange)) | [] => 1 end
      else if is_byte 91 c then S (scanTo t true)
      else if is_byte 93 c then S (scanTo t false)
      else if is_byte 42 c && negb inrange then 0
      else S (scanTo t inrange)
  end.

Fixpoint skipStars (pattern : bytes) (star : bool) : bool * bytes :=
  match pattern with
  | c :: t => if is_byte 42 c then skipStars t true else (star, pattern)
  | [] => (star, pattern)
  end.

(** [scanChunk]: a leading star, the next chunk, the rest. *)
Definition scanChunk (pattern : bytes) : bool * bytes * bytes :=
  let '(star, p) := skipStars pattern false in
  (star, take (scanTo p false) p, drop (scanTo p false) p).

(** The search after a star: [None] for a bad pattern, [Some None] for no match. *)
Fixpoint starSearch (name chunk pattern : bytes) : option (option bytes) :=
  match name with
  | [] => Some None
  | c :: t =>
      if is_byte 47 c then Some None
      else
        '(rest, ok) ← runChunk chunk t;
        if ok : bool then
          if bool_decide (pattern = []) && negb (bool_decide (rest = []))
          then starSearch t chunk pattern else Some (Some rest)
        else starSearch t chunk pattern
  end.

(** The rest of a pattern that does not match is still checked. *)
Fixpoint checkRest (fuel : nat) (pattern : bytes) : option bool :=
  match fuel with
  | O => Some false
  | S fu =>
      match pattern with
      | [] => Some false
      | _ => let '(_, chunk, rest) := scanChunk pattern in
             _ ← runChunk chunk [];
             checkRest fu rest
      end
  end.

Fixpoint matchLoop (fuel : nat) (pattern name : bytes) : option bool :=
  match fuel with
  | O => Some false
  | S fu =>
      match pattern with
      | [] => Some (bool_decide (name = []))
      | _ =>
          let '(star, chunk, rest) := scanChunk pattern in
          if star && bool_decide (chunk = []) then Some (negb (existsb (is_byte 47) name))
          else
            '(t, ok) ← runChunk chunk name;
            if (ok : bool) && (bool_decide (t = []) || negb (bool_decide (rest = [])))
            then matchLoop fu rest t
            else
              found ← (if star : bool then starSearch name chunk rest else Some None);
              match found with
              | Some t' => matchLoop fu rest t'
              | None => checkRest (S (length rest)) rest
              end
      end
  end.

Definition Match (pattern name : bytes) : option bool :=
  matchLoop (S (length pattern)) pattern name.

Example Match_star : Match (bs "max*y") (bs "maxmemory") = Some true.
Proof. reflexivity. Qed.

Example Match_class : Match (bs "append[a-f]*") (bs "appendfsync") = Some true.
Proof. reflexivity. Qed.

Example Match_negated : Match (bs "append[^a-f]*") (bs "appendfsync") = Some false.
Proof. reflexivity. Qed.

Example Match_bad : Match (bs "dir[") (bs "dir") = None.
Proof. reflexivity. Qed.

Example Match_question : Match (bs "d?r") (bs "dir") = Some true.
Proof. reflexivity. Qed.

(** ** The fuel is enough: more of it changes nothing *)

Lemma skipStars_spec p b :
  (length (skipStars p b).2 <= length p)%nat /\
  (length (skipStars p b).2 = length p -> skipStars p b = (b, p)) /\
  match (skipStars p b).2 with c :: _ => is_byte 42 c = false | [] => True end.
Proof.
  revert b. induction p as [|c t IH]; intros b; simpl; [done|].
  destruct (is_byte 42 c) eqn:Hc; [|done]. destruct (IH true) as (H1 & H2 & H3).
  split_and!; [lia|lia|done].
Qed.

Lemma scanChunk_shrinks p : p <> [] -> (length (scanChunk p).2 < length p)%nat.
Proof.
  intros Hp. unfold scanChunk. pose proof (skipStars_spec p false) as (H1 & H2 & H3).
  destruct (skipStars p false) as [star q]. simpl in *. rewrite length_drop.
  destruct (decide (length q = length p)) as [He|]; [|lia].
  injection (H2 He) as -> ->. destruct p as [|c t]; [done|]. simpl.
  rewrite H3. simpl. repeat case_match; simpl; lia.
Qed.

Lemma getEsc_shrinks c r rest : getEsc c = Some (r, rest) -> (length rest < length c)%nat.
Proof.
  destruct c as [|x t]; [done|]. simpl. case_match; [done|].
  set (q := if is_byte 92 x then t else x :: t).
  assert (length q <= S (length t))%nat as Hq by (unfold q; case_match; simpl; lia).
  destruct q as [|y q'] eqn:Eq; [done|].
  destruct (DecodeRuneInString (y :: q')) as [z n] eqn:Hd.
  assert (1 <= n)%nat.
  { unfold DecodeRuneInString in Hd. repeat case_match; simplify_eq; lia. }
  destruct (_ && _); [done|]. destruct (drop n (y :: q')) eqn:Hdr; [done|].
  intros; simplify_eq. rewrite <- Hdr, length_drop. simpl in *. lia.
Qed.

Lemma matchRanges_fuel f1 f2 chunk r m k :
  (length chunk < f1)%nat -> (length chunk < f2)%nat ->
  matchRanges f1 chunk r m k = matchRanges f2 chunk r m k.
Proof.
  revert f2 chunk m k. induction f1 as [|f1 IH]; intros [|f2] chunk m k H1 H2; try lia.
  destruct chunk as [|c t]; [done|]. cbn [matchRanges].
  destruct (is_byte 93 c && (0 <? k)); [done|].
  destruct (getEsc (c :: t)) as [[lo c1]|] eqn:He; [|done]. apply getEsc_shrinks in He. simpl.
  destruct c1 as [|d t1]; simpl in *; [apply IH; simpl; lia|].
  destruct (is_byte 45 d); simpl; [|apply IH; simpl; lia].
  destruct (getEsc t1) as [[hi c2]|] eqn:He2; [|done]. apply getEsc_shrinks in He2. simpl.
  apply IH; lia.
Qed.

Lemma matchRanges_shrinks f chunk r m k rest b :
  matchRanges f chunk r m k = Some (rest, b) -> (length rest < length chunk)%nat.
Proof.
  revert chunk m k. induction f as [|f IH]; intros [|c t] m k; try done. cbn [matchRanges].
  destruct (is_byte 93 c && (0 <? k)); [intros; simplify_eq; simpl; lia|].
  destruct (getEsc (c :: t)) as [[lo c1]|] eqn:He; [|done]. apply getEsc_shrinks in He. simpl.
  destruct c1 as [|d t1]; simpl in *; [intros H%IH; simpl in H; lia|].
  destruct (is_byte 45 d); simpl; [|intros H%IH; simpl in H; lia].
  destruct (getEsc t1) as [[hi c2]|] eqn:He2; [|done]. apply getEsc_shrinks in He2. simpl.
  intros H%IH. lia.
Qed.

Lemma matchChunk_fuel f1 f2 chunk s b :
  (length chunk < f1)%nat -> (length chunk < f2)%nat ->
  matchChunk f1 chunk s b = matchChunk f2 chunk s b.
Proof.
  revert f2 chunk s b. induction f1 as [|f1 IH]; intros [|f2] chunk s b H1 H2; try lia.
  destruct chunk as [|c t]; [done|]. cbn [matchChunk]. simpl in H1, H2.
  destruct (is_byte 91 c).
  - destruct (if b || _ then _ else _) as [r s1].
    set (q := match t with d :: t' => if is_byte 94 d then (true, t') else (false, t)
              | [] => (false, t) end).
    assert (length q.2 <= length t)%nat as Hq
      by (unfold q; destruct t; [done|]; case_match; simpl; lia).
    destruct q as [neg t1]. simpl in Hq.
    destruct (matchRanges _ t1 r false 0) as [[rest mt]|] eqn:Hm; [|done].
    apply matchRanges_shrinks in Hm. simpl. apply IH; lia.
  - destruct (is_byte 63 c); [case_match; apply IH; lia|].
    destruct (is_byte 92 c).
    + destruct t as [|x t1]; [done|]. simpl in *. repeat case_match; apply IH; lia.
    + repeat case_match; apply IH; lia.
Qed.

Lemma checkRest_fuel f1 f2 p :
  (length p < f1)%nat -> (length p < f2)%nat -> checkRest f1 p = checkRest f2 p.
Proof.
  revert f2 p. induction f1 as [|f1 IH]; intros [|f2] p H1 H2; try lia.
  destruct p as [|c t]; [done|]. cbn [checkRest].
  pose proof (scanChunk_shrinks (c :: t) ltac:(done)) as Hs.
  destruct (scanChunk (c :: t)) as [[star chunk] rest]. simpl in Hs, H1, H2.
  destruct (runChunk chunk []); [|done]. simpl. apply IH; lia.
Qed.

Lemma matchLoop_fuel f1 f2 p name :
  (length p < f1)%nat -> (length p < f2)%nat -> matchLoop f1 p name = matchLoop f2 p name.
Proof.
  revert f2 p name. induction f1 as [|f1 IH]; intros [|f2] p name H1 H2; try lia.
  destruct p as [|c t]; [done|]. cbn [matchLoop].
  pose proof (scanChunk_shrinks (c :: t) ltac:(done)) as Hs.
  destruct (scanChunk (c :: t)) as [[star chunk] rest]. simpl in Hs, H1, H2.
  destruct (star && _); [done|]. destruct (runChunk chunk name) as [[u ok]|]; [|done]. simpl.
  destruct (ok && _); [apply IH; lia|].
  destruct (if star then _ else _) as [[t'|]|]; simpl; [apply IH; lia|done|done].
Qed.
