(* ===== verification/RespWriter.v ===== *)
(** * internal/resp/writer.go: the RESP2 encoder

    [resp.Writer] holds an [io.Writer] and does no buffering of its own, so each
    of its methods is a sequence of [Write] calls on the underlying writer.  The
    class [IOWriter] is Go's [io.Writer] interface: one operation that consumes
    a byte slice, changes the writer and may report an error.  A method that is
    cut short by an error leaves the earlier pieces written, as in the code.

    The values a client reads back are described by [resp_value] with its wire
    form [encode]; [decode] is a client-side decoder.  The theorems: each method
    writes exactly the wire form of its value, count lines fit the scratch
    array, and the wire form is self-delimiting. *)

From stdpp Require Import base list strings.
From Stdlib Require Import ZArith Lia.
From Stdlib Require Import Strings.Byte.
From S2P Require Import Prelude.
From S2P Require Import GoStrconv.

#[local] Open Scope Z_scope.

Definition CR : byte := Byte.x0d.
Definition LF : byte := Byte.x0a.

Definition crlf : bytes := [CR; LF].

(** [io.Writer]: [Write(p)]; the count it returns is never used by the code. *)
Class IOWriter (W : Type) : Type := io_write : bytes -> GoM W unit.

(** [*bytes.Buffer], which never fails. *)
#[export] Instance buffer_writer : IOWriter bytes := fun p w => (w ++ p, Ret tt).

(** Whether a line-framed payload would break the framing. *)
Definition has_crlf (s : bytes) : bool :=
  existsb (fun c => bool_decide (c = CR) || bool_decide (c = LF)) s.

Section Writer.
Context {W : Type} `{!IOWriter W}.

(** writer.go, [writeCountLine]: the line is formatted into the scratch array
    and written with one call. *)
Definition countLine (typ : byte) (n : Z) : bytes := [typ] ++ FormatInt n ++ crlf.

Definition writeCountLine (typ : byte) (n : Z) : GoM W unit :=
  io_write (countLine typ n).

Definition WriteSimpleString (s : bytes) : GoM W unit :=
  if has_crlf s then panic (bs "resp: CR or LF in simple string; use a bulk string")
  else io_write (bs "+");; io_write s;; io_write crlf.

Definition WriteError (msg : bytes) : GoM W unit :=
  if has_crlf msg then panic (bs "resp: CR or LF in error message")
  else io_write (bs "-");; io_write msg;; io_write crlf.

Definition WriteInteger (n : Z) : GoM W unit := writeCountLine Byte.x3a n.

Definition WriteBulkString (p : bytes) : GoM W unit :=
  writeCountLine Byte.x24 (lenZ p);; io_write p;; io_write crlf.

Definition WriteNullBulkString : GoM W unit := io_write (bs "$-1" ++ crlf).

Definition WriteArrayHeader (n : Z) : GoM W unit := writeCountLine Byte.x2a n.

Definition WriteNullArray : GoM W unit := io_write (bs "*-1" ++ crlf).

(** aof.go, [writeCommand]: one command as an array of bulk strings. *)
Fixpoint writeBulks (args : list bytes) : GoM W unit :=
  match args with
  | [] => mret tt
  | a :: rest => WriteBulkString a;; writeBulks rest
  end.

Definition writeCommand (args : list bytes) : GoM W unit :=
  WriteArrayHeader (lenZ args);; writeBulks args.

End Writer.

(** ** The wire form of a value *)

Inductive resp_value : Type :=
| VSimple (s : bytes)
| VError (s : bytes)
| VInteger (n : Z)
| VBulk (p : bytes)
| VNullBulk
| VBulks (ps : list (option bytes)).

Definition encode_bulk (p : bytes) : bytes := countLine Byte.x24 (lenZ p) ++ p ++ crlf.

Definition encode_item (o : option bytes) : bytes :=
  match o with Some p => encode_bulk p | None => bs "$-1" ++ crlf end.

Definition encode (v : resp_value) : bytes :=
  match v with
  | VSimple s => bs "+" ++ s ++ crlf
  | VError s => bs "-" ++ s ++ crlf
  | VInteger n => countLine Byte.x3a n
  | VBulk p => encode_bulk p
  | VNullBulk => bs "$-1" ++ crlf
  | VBulks ps => countLine Byte.x2a (lenZ ps) ++ concat (encode_item <$> ps)
  end.

(** The values whose wire form a Go program can produce: line-framed payloads
    hold no CR or LF, numbers and lengths are [int64]. *)
Definition encodable (v : resp_value) : Prop :=
  match v with
  | VSimple s | VError s => has_crlf s = false
  | VInteger n => is_int64 n
  | VBulk p => lenZ p <= maxInt64
  | VNullBulk => True
  | VBulks ps => lenZ ps <= maxInt64 /\
      Forall (fun o => match o with Some p => lenZ p <= maxInt64 | None => True end) ps
  end.

(** The wire form of a command: what [writeCommand] writes. *)
Definition encodeCommand (args : list bytes) : bytes :=
  countLine Byte.x2a (lenZ args) ++ concat (encode_bulk <$> args).

(** ** A client-side decoder, the specification of the framing *)

(** Split at the first CRLF. *)
Fixpoint split_line (s : bytes) : option (bytes * bytes) :=
  match s with
  | [] => None
  | c :: s' =>
      match s' with
      | d :: s'' =>
          if bool_decide (c = CR) && bool_decide (d = LF) then Some ([], s'')
          else match split_line s' with
               | Some (l, rest) => Some (c :: l, rest)
               | None => None
               end
      | [] => None
      end
  end.

Definition decode_int (s : bytes) : option Z :=
  match ParseInt s with inl z => Some z | inr _ => None end.

(** [decode_item s] reads one bulk string or null bulk string. *)
Definition decode_item (s : bytes) : option (option bytes * bytes) :=
  match split_line s with
  | Some (c :: l, rest) =>
      n ← decode_int l;
      if bool_decide (c = Byte.x24) then
        if n <? 0 then Some (None, rest)
        else let k := Z.to_nat n in
             Some (Some (take k rest), drop 2 (drop k rest))
      else None
  | _ => None
  end.

Fixpoint decode_items (k : nat) (s : bytes) : option (list (option bytes) * bytes) :=
  match k with
  | O => Some ([], s)
  | S k' =>
      '(o, rest) ← decode_item s;
      '(os, rest') ← decode_items k' rest;
      Some (o :: os, rest')
  end.

Definition decode (s : bytes) : option (resp_value * bytes) :=
  match split_line s with
  | Some (c :: l, rest) =>
      if bool_decide (c = Byte.x2b) then Some (VSimple l, rest)
      else if bool_decide (c = Byte.x2d) then Some (VError l, rest)
      else if bool_decide (c = Byte.x3a) then n ← decode_int l; Some (VInteger n, rest)
      else if bool_decide (c = Byte.x24) then
        '(o, rest') ← decode_item s;
        Some (match o with Some p => VBulk p | None => VNullBulk end, rest')
      else if bool_decide (c = Byte.x2a) then
        n ← decode_int l;
        '(os, rest') ← decode_items (Z.to_nat n) rest;
        Some (VBulks os, rest')
      else None
  | _ => None
  end.

#[global] Arguments countLine : simpl never.
#[global] Arguments encode_bulk : simpl never.
#[global] Arguments encode_item : simpl never.

(** ** What the methods write *)

(** [writes m out]: on a [bytes.Buffer] the method succeeds and appends [out]. *)
Definition writes (m : GoM bytes unit) (out : bytes) : Prop :=
  forall w, m w = (w ++ out, Ret tt).

Lemma writes_io p : writes (io_write p) p.
Proof. intros w. reflexivity. Qed.

Lemma writes_ret : writes (mret tt) [].
Proof. intros w. by rewrite app_nil_r. Qed.

Lemma writes_seq m1 m2 o1 o2 :
  writes m1 o1 -> writes m2 o2 -> writes (m1;; m2) (o1 ++ o2).
Proof.
  intros H1 H2 w. rewrite (GoM_bind_step _ _ _ _ _ (H1 w)), H2.
  by rewrite (assoc (++)).
Qed.

Create HintDb resp.
#[export] Hint Resolve writes_io writes_ret writes_seq : resp.

Lemma writes_simple s :
  has_crlf s = false -> writes (WriteSimpleString s) (encode (VSimple s)).
Proof. intros H. unfold WriteSimpleString. rewrite H. unfold encode. eauto with resp. Qed.

Lemma writes_error s :
  has_crlf s = false -> writes (WriteError s) (encode (VError s)).
Proof. intros H. unfold WriteError. rewrite H. unfold encode. eauto with resp. Qed.

Lemma writes_integer n : writes (WriteInteger n) (encode (VInteger n)).
Proof. unfold WriteInteger, writeCountLine. eauto with resp. Qed.

Lemma writes_bulk p : writes (WriteBulkString p) (encode (VBulk p)).
Proof. unfold WriteBulkString, writeCountLine. unfold encode, encode_bulk. eauto with resp. Qed.

Lemma writes_null_bulk : writes WriteNullBulkString (encode VNullBulk).
Proof. unfold WriteNullBulkString. eauto with resp. Qed.

Lemma writes_header n : writes (WriteArrayHeader n) (countLine Byte.x2a n).
Proof. unfold WriteArrayHeader, writeCountLine. eauto with resp. Qed.

#[export] Hint Resolve writes_simple writes_error writes_integer writes_bulk
  writes_null_bulk writes_header : resp.

Lemma writes_bulks args : writes (writeBulks args) (concat (encode_bulk <$> args)).
Proof.
  induction args as [|a args IH]; [apply writes_ret|].
  cbn [writeBulks]. rewrite fmap_cons. cbn [concat].
  apply writes_seq; [apply (writes_bulk a)|done].
Qed.

Lemma writes_command args : writes (writeCommand args) (encodeCommand args).
Proof. apply writes_seq; [apply writes_header|apply writes_bulks]. Qed.

(** ** The scratch array *)

(** The bytes of [w.scratch]. *)
Definition scratchSize : nat := 24.

(** Every count line of an [int64] fits the scratch array. *)
Lemma countLine_fits typ n :
  is_int64 n -> (length (countLine typ n) <= scratchSize)%nat.
Proof.
  intros Hn. apply FormatInt_int64_length in Hn.
  unfold countLine, scratchSize. rewrite !length_app. simpl. lia.
Qed.

(** ** The framing is self-delimiting *)

Lemma has_crlf_cons c s :
  has_crlf (c :: s) = false <-> (c <> CR /\ c <> LF) /\ has_crlf s = false.
Proof.
  unfold has_crlf. simpl. rewrite !orb_false_iff, !bool_decide_eq_false. done.
Qed.

Lemma split_line_app l rest :
  has_crlf l = false -> split_line (l ++ crlf ++ rest) = Some (l, rest).
Proof.
  induction l as [|c l IH]; intros Hl.
  { reflexivity. }
  apply has_crlf_cons in Hl as [[Hc _] Hl]. specialize (IH Hl).
  cbn [app]. destruct (l ++ crlf ++ rest) as [|d s] eqn:Hs; [by destruct l|].
  cbn [split_line]. rewrite (bool_decide_false (c = CR)) by done. cbn [andb].
  cbn [split_line] in IH. by rewrite IH.
Qed.

Lemma split_tagged c s rest :
  c <> CR -> c <> LF -> has_crlf s = false ->
  split_line ([c] ++ s ++ crlf ++ rest) = Some (c :: s, rest).
Proof. intros. apply (split_line_app (c :: s)). by apply has_crlf_cons. Qed.

Lemma FormatInt_no_crlf n : has_crlf (FormatInt n) = false.
Proof.
  pose proof (FormatInt_bytes n) as H. induction H as [|c s Hc _ IH]; [done|].
  apply has_crlf_cons. split; [|done].
  split; intros ->; destruct Hc as [Hc|Hc]; by vm_compute in Hc.
Qed.

Lemma split_countLine typ n rest :
  typ <> CR -> typ <> LF ->
  split_line (countLine typ n ++ rest) = Some (typ :: FormatInt n, rest).
Proof.
  intros H1 H2. unfold countLine. rewrite <- !(assoc (++)).
  apply split_tagged; [done..|apply FormatInt_no_crlf].
Qed.

Lemma lenZ_int64 {A} (l : list A) : lenZ l <= maxInt64 -> is_int64 (lenZ l).
Proof. unfold lenZ, is_int64, minInt64. lia. Qed.

Lemma decode_int_format n : is_int64 n -> decode_int (FormatInt n) = Some n.
Proof. intros H. unfold decode_int. by rewrite ParseInt_FormatInt. Qed.

Lemma take_drop_bulk (p rest : bytes) :
  (take (Z.to_nat (lenZ p)) (p ++ crlf ++ rest), drop 2 (drop (Z.to_nat (lenZ p)) (p ++ crlf ++ rest)))
  = (p, rest).
Proof. unfold lenZ. rewrite Nat2Z.id, take_app_length, drop_app_length. done. Qed.

Lemma decode_item_encode o rest :
  match o with Some p => lenZ p <= maxInt64 | None => True end ->
  decode_item (encode_item o ++ rest) = Some (o, rest).
Proof.
  intros Ho. destruct o as [p|]; [|reflexivity].
  unfold encode_item, encode_bulk, decode_item.
  rewrite <- !(assoc (++)), split_countLine by done.
  rewrite decode_int_format by (by apply lenZ_int64). simpl.
  destruct (Z.ltb_spec (lenZ p) 0); [unfold lenZ in *; lia|].
  pose proof (take_drop_bulk p rest) as [= -> ->]. done.
Qed.

Lemma decode_items_encode os rest :
  Forall (fun o => match o with Some p => lenZ p <= maxInt64 | None => True end) os ->
  decode_items (length os) (concat (encode_item <$> os) ++ rest) = Some (os, rest).
Proof.
  induction 1 as [|o os Ho _ IH]; [done|].
  rewrite fmap_cons. cbn [length decode_items concat]. rewrite <- (assoc (++)).
  rewrite decode_item_encode by done. simpl. by rewrite IH.
Qed.

(** A reader that decodes the wire form of a value gets that value and stands
    exactly at the byte after it. *)
Lemma decode_encode_value v rest :
  encodable v -> decode (encode v ++ rest) = Some (v, rest).
Proof.
  intros Hv. unfold decode. destruct v as [s|s|n|p| |ps]; unfold encode.
  - change (bs "+") with [Byte.x2b]. rewrite <- !(assoc (++)). by rewrite split_tagged.
  - change (bs "-") with [Byte.x2d]. rewrite <- !(assoc (++)). by rewrite split_tagged.
  - rewrite split_countLine by done. simpl. by rewrite decode_int_format.
  - change (encode_bulk p) with (encode_item (Some p)).
    rewrite (decode_item_encode (Some p) rest) by done.
    unfold encode_item, encode_bulk. by rewrite <- !(assoc (++)), split_countLine.
  - reflexivity.
  - destruct Hv as [Hl Hps]. rewrite <- !(assoc (++)), split_countLine by done. simpl.
    rewrite decode_int_format by (by apply lenZ_int64). simpl.
    unfold lenZ. rewrite Nat2Z.id. by rewrite decode_items_encode.
Qed.

(** ** The methods, by the value they are meant to send *)

(** The element writes of an array reply, as [mget] makes them. *)
Fixpoint writeItems {W} `{!IOWriter W} (os : list (option bytes)) : GoM W unit :=
  match os with
  | [] => mret tt
  | Some p :: rest => WriteBulkString p;; writeItems rest
  | None :: rest => WriteNullBulkString;; writeItems rest
  end.

Definition writeValue {W} `{!IOWriter W} (v : resp_value) : GoM W unit :=
  match v with
  | VSimple s => WriteSimpleString s
  | VError s => WriteError s
  | VInteger n => WriteInteger n
  | VBulk p => WriteBulkString p
  | VNullBulk => WriteNullBulkString
  | VBulks os => WriteArrayHeader (lenZ os);; writeItems os
  end.

Lemma writes_items os : writes (writeItems os) (concat (encode_item <$> os)).
Proof.
  induction os as [|[p|] os IH]; [apply writes_ret| |]; rewrite fmap_cons; cbn [concat];
    (apply writes_seq; [|done]); [apply (writes_bulk p)|apply writes_null_bulk].
Qed.

Lemma writes_value v : encodable v -> writes (writeValue v) (encode v).
Proof.
  destruct v; simpl writeValue; intros Hv; auto with resp.
  apply writes_seq; [apply writes_header|apply writes_items].
Qed.

(** C36. Replies are framed: whatever value a handler sends through the writer's
    methods, binary payloads included, the client's decoder recovers exactly
    that value from the stream and stands at the first byte after it; and the
    methods that have no length prefix panic, writing nothing, precisely when
    their text holds a CR or an LF. *)
Theorem writer_framing (v : resp_value) (w rest : bytes) :
  (encodable v ->
     exists out, writeValue v w = (w ++ out, Ret tt) /\ decode (out ++ rest) = Some (v, rest)) /\
  (forall s, has_crlf s = true ->
     exists why1 why2, WriteSimpleString s w = (w, Panics why1) /\ WriteError s w = (w, Panics why2)).
Proof.
  split.
  - intros Hv. exists (encode v). split; [by apply writes_value|by apply decode_encode_value].
  - intros s Hs. unfold WriteSimpleString, WriteError. rewrite Hs. by do 2 eexists.
Qed.

(** The scratch array never overflows: the count line of every [int64], with
    its type byte, sign and CRLF, is at most [len(w.scratch)] bytes. *)
Theorem writeCountLine_fits_scratch (typ : byte) (n : Z) :
  is_int64 n ->
  exists line, writes (writeCountLine typ n) line /\ (length line <= scratchSize)%nat.
Proof. intros Hn. exists (countLine typ n). split; [apply writes_io|by apply countLine_fits]. Qed.

Lemma writeCountLine_fits_scratch_witness :
  exists line, writes (writeCountLine Byte.x3a minInt64) line /\ (length line <= scratchSize)%nat.
Proof. apply (writeCountLine_fits_scratch Byte.x3a minInt64). by vm_compute. Defined.
