(* ===== verification/Bufio.v ===== *)
(** * Buffered reading: [bufio.Reader] over a fragmented byte stream

    The class [IOReader] is Go's [io.Reader].  [net.Conn.Read] and [os.File.Read] hand
    back arbitrary fragments of the stream; its instance [source] is such a stream: the
    fragments still to come and the error that ends it.  [bufioReader] is Go's
    [bufio.Reader] over any [IOReader], with the two operations the program uses,
    [ReadSlice] and (through [io.ReadFull]) [Read].

    The class [BufReader] is what the RESP parser needs of a reader.  It has two
    instances: [bufioReader] and [flat], the specification, in which the stream
    is one list of bytes.  [rel] relates the two and the simulation lemmas say
    that what the operations return depends on the bytes of the stream alone,
    never on how they were fragmented. *)

From stdpp Require Import base list.
From Stdlib Require Import ZArith Lia.
From Stdlib Require Import Strings.Byte.
From S2P Require Import Prelude.

(** ** The interface *)

Class BufReader (R : Type) : Type := {
  ReadSlice : byte -> R -> R * (bytes * option error);
  ReadFull : nat -> R -> R * (bytes + error)
}.

(** [bytes.IndexByte], [None] for -1. *)
Fixpoint index_byte (d : byte) (s : bytes) : option nat :=
  match s with
  | [] => None
  | c :: s' => if decide (c = d) then Some O else S <$> index_byte d s'
  end.

(** ** The byte stream, in fragments *)

Record source : Type := mkSource { chunks : list bytes; send : error }.

(** [src.Read(p)] with [len(p) = cap]. *)
Class IOReader (S : Type) : Type := io_read : nat -> S -> S * (bytes * option error).

Definition src_Read (cap : nat) (s : source) : source * (bytes * option error) :=
  match chunks s with
  | [] => (s, ([], Some (send s)))
  | c :: cs =>
      if decide (length c <= cap) then (mkSource cs (send s), (c, None))
      else (mkSource (drop cap c :: cs) (send s), (take cap c, None))
  end.

#[export] Instance source_reader : IOReader source := src_Read.

(** ** [bufio.Reader]: its state *)

(** [rbuf] is [b.buf[b.r:b.w]], [rerr] the pending [b.err]. *)
Record bufioReader (S : Type) : Type := mkBufio { rbuf : bytes; rerr : option error; rsrc : S }.
Arguments mkBufio {S} _ _ _.
Arguments rbuf {S} _.
Arguments rerr {S} _.
Arguments rsrc {S} _.

(** ** The byte stream, flat *)

Record flat : Type := mkFlat { fbytes : bytes; ferr : error }.

Section Sized.
Context (size : nat).

Definition flat_ReadSlice (d : byte) (f : flat) : flat * (bytes * option error) :=
  match index_byte d (take size (fbytes f)) with
  | Some i => (mkFlat (drop (S i) (fbytes f)) (ferr f), (take (S i) (fbytes f), None))
  | None =>
      if decide (size <= length (fbytes f)) then
        (mkFlat (drop size (fbytes f)) (ferr f), (take size (fbytes f), Some ErrBufferFull))
      else (mkFlat [] (ferr f), (fbytes f, Some (ferr f)))
  end.

(** How [io.ReadFull] reports a stream that ended after [got] bytes. *)
Definition short_read (got : bytes) (e : error) : error :=
  if decide (got = []) then e
  else if decide (e = EOF) then ErrUnexpectedEOF else e.

Definition flat_ReadFull (n : nat) (f : flat) : flat * (bytes + error) :=
  if decide (n <= length (fbytes f)) then
    (mkFlat (drop n (fbytes f)) (ferr f), inl (take n (fbytes f)))
  else (mkFlat [] (ferr f), inr (short_read (fbytes f) (ferr f))).

(** ** [bufio.Reader] *)

Section Reader.
Context {S : Type} `{!IOReader S}.
Implicit Types b : bufioReader S.

(** [b.fill()]: slide, then read once into the free space; an empty read is
    retried up to a hundred times. *)
Fixpoint fill_loop (tries : nat) b : bufioReader S :=
  match tries with
  | O => mkBufio (rbuf b) (Some ErrNoProgress) (rsrc b)
  | Datatypes.S t =>
      let '(src', (p, err)) := io_read (size - length (rbuf b)) (rsrc b) in
      let b' := mkBufio (rbuf b ++ p) (rerr b) src' in
      match err with
      | Some e => mkBufio (rbuf b ++ p) (Some e) src'
      | None => if decide (p = []) then fill_loop t b' else b'
      end
  end.

Definition fill b : bufioReader S := fill_loop 100 b.

Fixpoint ReadSlice_loop (fuel : nat) (d : byte) b : bufioReader S * (bytes * option error) :=
  match fuel with
  | O => (b, ([], Some ErrNoProgress))
  | Datatypes.S fu =>
      match index_byte d (rbuf b) with
      | Some i =>
          (mkBufio (drop (Datatypes.S i) (rbuf b)) (rerr b) (rsrc b),
           (take (Datatypes.S i) (rbuf b), None))
      | None =>
          match rerr b with
          | Some e => (mkBufio [] None (rsrc b), (rbuf b, Some e))
          | None =>
              if decide (size <= length (rbuf b)) then
                (mkBufio [] (rerr b) (rsrc b), (rbuf b, Some ErrBufferFull))
              else ReadSlice_loop fu d (fill b)
          end
      end
  end.

(** Every round but the last two brings at least one byte into the buffer, or the error
    that ends the stream. *)
Definition bufio_ReadSlice (d : byte) b : bufioReader S * (bytes * option error) :=
  ReadSlice_loop (size + 2) d b.

(** [b.Read(p)] with [len(p) = n > 0]. *)
Definition bufio_Read (n : nat) b : bufioReader S * (bytes * option error) :=
  match rbuf b with
  | [] =>
      match rerr b with
      | Some e => (mkBufio [] None (rsrc b), ([], Some e))
      | None =>
          if decide (size <= n) then
            let '(src', (p, err)) := io_read n (rsrc b) in
            (mkBufio [] None src', (p, err))
          else
            let '(src', (p, err)) := io_read size (rsrc b) in
            if decide (p = []) then (mkBufio [] None src', ([], err))
            else (mkBufio (drop n p) err src', (take n p, None))
      end
  | buf => (mkBufio (drop n buf) (rerr b) (rsrc b), (take n buf, None))
  end.

(** [io.ReadFull(b, buf)]: [got] is what was read so far. *)
Fixpoint ReadFull_loop (fuel : nat) (need : nat) (got : bytes) b : bufioReader S * (bytes + error) :=
  match need with
  | O => (b, inl got)
  | _ =>
      match fuel with
      | O => (b, inr ErrNoProgress)
      | Datatypes.S fu =>
          let '(b', (p, err)) := bufio_Read need b in
          let got' := got ++ p in
          if decide (need - length p = 0) then (b', inl got')
          else match err with
               | Some e => (b', inr (short_read got' e))
               | None => ReadFull_loop fu (need - length p) got' b'
               end
      end
  end.

(** Every read that does not end the loop brings at least one byte. *)
Definition bufio_ReadFull (n : nat) b : bufioReader S * (bytes + error) :=
  ReadFull_loop n n [] b.

Lemma bufio_ReadSlice_loop d b : bufio_ReadSlice d b = ReadSlice_loop (size + 2) d b.
Proof. reflexivity. Qed.

Lemma bufio_ReadFull_loop n b : bufio_ReadFull n b = ReadFull_loop n n [] b.
Proof. reflexivity. Qed.

(** The reader made by [bufio.NewReaderSize]. *)
Definition newBufio (src : S) : bufioReader S := mkBufio [] None src.
End Reader.

(** ** On a fragmented stream *)

Implicit Types b : bufioReader source.

(** ** The buffered reader implements the flat stream *)

(** The stream a buffered reader stands for. *)
Definition pending (b : bufioReader source) : bytes := rbuf b ++ concat (chunks (rsrc b)).

Record rel (b : bufioReader source) (f : flat) : Prop := {
  rel_bytes : fbytes f = pending b;
  rel_err : ferr f = send (rsrc b);
  rel_chunks : Forall (fun c => c <> []) (chunks (rsrc b));
  rel_pending : match rerr b with
                | None => True
                | Some e => e = send (rsrc b) /\ chunks (rsrc b) = [] /\
                            length (rbuf b) < size
                end;
  rel_size : length (rbuf b) <= size
}.

Lemma rel_new src :
  Forall (fun c => c <> []) (chunks src) ->
  rel (newBufio src) (mkFlat (concat (chunks src)) (send src)).
Proof. intros H. split; simpl; done || lia. Qed.

Lemma index_byte_lt d s i : index_byte d s = Some i -> i < length s.
Proof.
  revert i. induction s as [|c s IH]; intros i; simpl; [done|].
  case_decide; [intros [= <-]; lia|].
  destruct (index_byte d s) as [j|]; simpl; [|done].
  intros [= <-]. specialize (IH j eq_refl). lia.
Qed.

Lemma index_byte_app_Some d s t i :
  index_byte d s = Some i -> index_byte d (s ++ t) = Some i.
Proof.
  revert i. induction s as [|c s IH]; intros i; simpl; [done|].
  case_decide; [done|].
  destruct (index_byte d s) as [j|]; simpl; [|done].
  intros [= <-]. by rewrite (IH j eq_refl).
Qed.

Lemma index_byte_take d s i : index_byte d s = Some i -> index_byte d (take (S i) s) = Some i.
Proof.
  revert i. induction s as [|c s IH]; intros i; simpl; [done|].
  case_decide; [done|].
  destruct (index_byte d s) as [j|]; simpl; [|done].
  intros [= <-]. by rewrite (IH j eq_refl).
Qed.

(** What [fill] does when there is room: its first read already gets bytes or
    the error. *)
Lemma fill_loop_eq t b :
  Forall (fun c => c <> []) (chunks (rsrc b)) -> length (rbuf b) < size ->
  fill_loop (S t) b = match chunks (rsrc b) with
           | [] => mkBufio (rbuf b) (Some (send (rsrc b))) (rsrc b)
           | c :: cs =>
               let cap := size - length (rbuf b) in
               if decide (length c <= cap) then
                 mkBufio (rbuf b ++ c) (rerr b) (mkSource cs (send (rsrc b)))
               else mkBufio (rbuf b ++ take cap c) (rerr b)
                      (mkSource (drop cap c :: cs) (send (rsrc b)))
           end.
Proof.
  intros Hc Hs. cbn [fill_loop]. unfold io_read, source_reader, src_Read.
  destruct (chunks (rsrc b)) as [|c cs]; [by rewrite app_nil_r|].
  apply Forall_cons in Hc as [Hc _]. simpl. case_decide.
  - by rewrite decide_False.
  - rewrite decide_False; [done|].
    intros Ht%(f_equal length). rewrite length_take in Ht. simpl in Ht. lia.
Qed.

Lemma fill_rel b f :
  rel b f -> rerr b = None -> length (rbuf b) < size ->
  rel (fill b) f /\ (rerr (fill b) = None -> length (rbuf b) < length (rbuf (fill b))).
Proof.
  intros [Hb He Hc Hp Hs] Hn Hlt. unfold fill. rewrite fill_loop_eq by done.
  destruct b as [buf err [ch en]]; unfold pending in *; simpl in *; subst err.
  destruct ch as [|c cs]; simpl.
  - split; [by split|]. done.
  - apply Forall_cons in Hc as [Hc0 Hc].
    assert (0 < length c) by (destruct c; simpl; [done|lia]).
    case_decide; simpl.
    + split; [split; simpl; try done|].
      { rewrite Hb. unfold pending; simpl. by rewrite (assoc (++)). }
      { rewrite length_app. lia. }
      rewrite length_app. lia.
    + split; [split; simpl; try done|].
      { rewrite Hb. unfold pending; simpl.
        by rewrite <- (assoc (++)), (assoc (++) (take _ c)), take_drop. }
      { constructor; [|done]. intros Hd%(f_equal length).
        rewrite length_drop in Hd. simpl in Hd. lia. }
      { rewrite length_app, length_take. lia. }
      rewrite length_app, length_take. lia.
Qed.

Lemma ReadSlice_loop_sim fuel d b f :
  0 < size -> rel b f ->
  match rerr b with Some _ => 0 | None => S (size - length (rbuf b)) end < fuel ->
  (ReadSlice_loop fuel d b).2 = (flat_ReadSlice d f).2 /\
  rel (ReadSlice_loop fuel d b).1 (flat_ReadSlice d f).1.
Proof.
  intros Hsz. revert b. induction fuel as [|fu IH]; intros b Hr Hf; [lia|].
  cbn [ReadSlice_loop]. pose proof Hr as [Hb He Hc Hp Hs]. unfold pending in Hb.
  destruct (index_byte d (rbuf b)) as [i|] eqn:Hi.
  { pose proof (index_byte_lt _ _ _ Hi).
    unfold flat_ReadSlice. rewrite Hb.
    rewrite take_app, (take_ge (rbuf b) size) by done.
    rewrite (index_byte_app_Some _ _ _ _ Hi). simpl.
    rewrite take_app_le, drop_app_le by lia. split; [done|].
    split; simpl; rewrite ?length_drop; try done; [|lia].
    destruct (rerr b); [|done]. destruct Hp as (? & ? & ?). split_and!; [done..|lia]. }
  destruct (rerr b) as [e|] eqn:Hre.
  { destruct Hp as (-> & Hch & Hlt). rewrite Hch, app_nil_r in Hb.
    unfold flat_ReadSlice. rewrite Hb, (take_ge (rbuf b) size) by done. rewrite Hi.
    rewrite decide_False by lia. simpl. split; [by rewrite He|].
    split; simpl; try done; [|lia]. unfold pending. simpl. by rewrite Hch. }
  case_decide as Hd.
  { unfold flat_ReadSlice. rewrite Hb.
    rewrite take_app_le, take_ge, Hi by lia.
    rewrite decide_True by (rewrite length_app; lia). simpl.
    rewrite drop_app_ge, (proj2 (Nat.sub_0_le _ _)) by lia. split; [done|].
    split; simpl; rewrite ?Hre; done || lia. }
  destruct (fill_rel b f Hr Hre) as (Hr' & Hm); [lia|]. pose proof (rel_size _ _ Hr').
  apply IH; [done|]. destruct (rerr (fill b)); [lia|]. specialize (Hm eq_refl). lia.
Qed.

Lemma ReadSlice_sim d b f :
  0 < size -> rel b f ->
  (bufio_ReadSlice d b).2 = (flat_ReadSlice d f).2 /\
  rel (bufio_ReadSlice d b).1 (flat_ReadSlice d f).1.
Proof.
  intros. apply ReadSlice_loop_sim; [done..|]. destruct (rerr b); lia.
Qed.

(** One read of the source into a non-empty buffer. *)
Lemma src_Read_spec cap s :
  0 < cap -> Forall (fun c => c <> []) (chunks s) ->
  (chunks s = [] /\ src_Read cap s = (s, ([], Some (send s)))) \/
  (exists p s', src_Read cap s = (s', (p, None)) /\ 0 < length p <= cap /\
     concat (chunks s) = p ++ concat (chunks s') /\ send s' = send s /\
     Forall (fun c => c <> []) (chunks s')).
Proof.
  intros Hcap Hc. unfold src_Read. destruct s as [[|c cs] en]; simpl in *; [by left|].
  right. apply Forall_cons in Hc as [Hc0 Hc].
  assert (0 < length c) by (destruct c; simpl; [done|lia]).
  case_decide; eexists _, _; (split; [done|]); simpl.
  - split_and!; done || lia.
  - rewrite length_take, (assoc (++)), take_drop. split_and!; [lia..|done|done|].
    constructor; [|done]. intros Hd%(f_equal length). rewrite length_drop in Hd.
    simpl in Hd. lia.
Qed.

(** One [Read] of the buffered reader: it returns between one and [n] bytes of
    the stream, or the error that ends it. *)
Lemma bufio_Read_spec n b f :
  0 < size -> 0 < n -> rel b f ->
  (exists p b' rest, bufio_Read n b = (b', (p, None)) /\ 0 < length p <= n /\
     fbytes f = p ++ rest /\ rel b' (mkFlat rest (ferr f)))
  \/ (exists b', fbytes f = [] /\ bufio_Read n b = (b', ([], Some (ferr f))) /\
        rel b' (mkFlat [] (ferr f))).
Proof.
  intros Hsz Hn Hr. pose proof Hr as [Hb He Hc Hp Hs]. unfold pending in Hb.
  destruct b as [buf err src]; simpl in *. destruct buf as [|x buf]; simpl in *.
  2: { left. exists (take n (x :: buf)), (mkBufio (drop n (x :: buf)) err src).
       exists (drop n (x :: buf) ++ concat (chunks src)).
       split; [done|]. split; [rewrite length_take; simpl length; lia|].
       split; [by rewrite (assoc (++)), take_drop|].
       split; simpl; rewrite ?length_drop; simpl length; try done; [|lia].
       destruct err; [|done]. destruct Hp as (? & ? & ?). split_and!; [done..|lia]. }
  unfold bufio_Read, io_read, source_reader; simpl. destruct err as [e|].
  { destruct Hp as (-> & Hch & _). right. eexists. rewrite Hb, Hch, He.
    split_and!; [done..|]. split; simpl; unfold pending; simpl; rewrite ?Hch; done || lia. }
  set (cap := if decide (size <= n) then n else size).
  destruct (src_Read_spec cap src) as [[Hch Hrd]|(p & s' & Hrd & Hl & Hcat & Hse & Hc')];
    [unfold cap; case_decide; lia|done|right|left].
  - eexists. rewrite Hb, Hch, He. split; [done|].
    unfold cap in Hrd. case_decide; rewrite Hrd; simpl;
      (split; [done|]; split; simpl; unfold pending; simpl; rewrite ?Hch; done || lia).
  - rewrite Hb, Hcat. unfold cap in *. case_decide; rewrite Hrd.
    + eexists p, _, (concat (chunks s')). split_and!; [done|lia..|done|].
      split; simpl; rewrite ?Hse; done || lia.
    + rewrite decide_False by (intros ->; simpl in Hl; lia).
      eexists (take n p), _, (drop n p ++ concat (chunks s')). split; [done|].
      rewrite length_take. split; [lia|]. split; [by rewrite (assoc (++)), take_drop|].
      split; simpl; rewrite ?length_drop, ?Hse; done || lia.
Qed.

Lemma ReadFull_loop_sim fuel need got b f :
  0 < size -> need <= fuel -> rel b f ->
  let r := ReadFull_loop fuel need got b in
  if decide (need <= length (fbytes f)) then
    r.2 = inl (got ++ take need (fbytes f)) /\
    rel r.1 (mkFlat (drop need (fbytes f)) (ferr f))
  else
    r.2 = inr (short_read (got ++ fbytes f) (ferr f)) /\ rel r.1 (mkFlat [] (ferr f)).
Proof.
  intros Hsz. revert need got b f.
  induction fuel as [|fu IH]; intros need got b f Hfu Hr;
    cbn [ReadFull_loop]; cbv zeta.
  { assert (need = 0) as -> by lia. destruct f; simpl. by rewrite app_nil_r. }
  destruct need as [|need]; [destruct f; simpl; by rewrite app_nil_r|].
  destruct (bufio_Read_spec (S need) b f) as
    [(p & b' & rest & -> & Hl & Hfb & Hr')|(b' & Hfb & -> & Hr')]; [lia..|done| |].
  - rewrite Hfb. destruct (decide (S need - length p = 0)) as [Hz|Hz].
    + assert (length p = S need) as <- by lia.
      case_decide as Hd; [|rewrite length_app in Hd; lia].
      by rewrite take_app_length, drop_app_length.
    + specialize (IH (S need - length p) (got ++ p) b' _ ltac:(lia) Hr').
      cbn [fbytes ferr] in IH. cbv zeta in IH. rewrite <- !app_assoc in IH.
      destruct (decide (S need - length p <= length rest));
        case_decide as Hd; rewrite length_app in Hd; try lia; [|done].
      by rewrite take_app_ge, drop_app_ge by lia.
  - rewrite Hfb, app_nil_r. rewrite !decide_False by (simpl; lia). done.
Qed.

Lemma ReadFull_sim n b f :
  0 < size -> rel b f ->
  (bufio_ReadFull n b).2 = (flat_ReadFull n f).2 /\
  rel (bufio_ReadFull n b).1 (flat_ReadFull n f).1.
Proof.
  intros Hsz Hr. pose proof (ReadFull_loop_sim n n [] b f Hsz ltac:(done) Hr) as H.
  unfold flat_ReadFull. simpl in H. by case_decide.
Qed.
End Sized.
