(* ===== verification/BufWriter.v ===== *)
(** * Buffered writing: [bufio.Writer] over any [io.Writer]

    The class [Sink] is what a [bufio.Writer] needs of what it writes to: a state that
    holds open files or sockets by number, and their [Write].  It has two instances, the
    operating system of the log (AofLog) and the socket of a client (Socket).

    [SinkLaws] says what [Write] does: all of its argument is taken, or an error is
    returned and a part is.  From it follows, for every instance, that a [bufio.Writer]
    loses and reorders nothing until it fails, and that the loop in [Write] ends. *)

From stdpp Require Import base list.
From Stdlib Require Import ZArith Lia.
From S2P Require Import Prelude.
From S2P Require Import RespWriter.

(** ** The interface *)

(** [sink_Write fd p s]: how many bytes of [p] were written, and the error. *)
Class Sink (S : Type) : Type := sink_Write : nat -> bytes -> S -> S * (nat * option error).

Class SinkLaws (S : Type) `{!Sink S} : Type := {
  written : nat -> S -> bytes;           (* all that was written to [fd] *)
  isOpen : nat -> S -> Prop;
  onlyOn : nat -> S -> S -> Prop;        (* nothing else has changed *)
  onlyOn_refl fd s : onlyOn fd s s;
  onlyOn_trans fd s1 s2 s3 : onlyOn fd s1 s2 -> onlyOn fd s2 s3 -> onlyOn fd s1 s3;
  onlyOn_open fd s1 s2 : onlyOn fd s1 s2 -> isOpen fd s1 -> isOpen fd s2;
  sink_Write_spec fd p s : isOpen fd s ->
    let '(s', (n, err)) := sink_Write fd p s in
    onlyOn fd s s' /\
    written fd s' = written fd s ++ take n p /\
    (err = None -> n = length p) /\ n <= length p;
  sink_Write_rest fd p s :
    (sink_Write fd p s).2.2 <> None \/ drop (sink_Write fd p s).2.1 p = []
}.

#[export] Hint Resolve onlyOn_refl : core.

(** ** [bufio.Writer] *)

(** [wbuf] is [b.buf[:b.n]], [werr] the latched error, [wfd] the file below. *)
Record bufioWriter : Type := mkBufW { wbuf : bytes; werr : option error; wfd : nat }.

Definition NewWriterSize (fd : nat) : bufioWriter := mkBufW [] None fd.

Section Writer.
Context {S : Type} `{!Sink S}.

Abbreviation wstate := (S * bufioWriter)%type.

Definition bufw_Flush (st : wstate) : wstate * option error :=
  let '(o, b) := st in
  match werr b with
  | Some e => (st, Some e)
  | None =>
      if decide (wbuf b = []) then (st, None)
      else
        let '(o1, (n, err)) := sink_Write (wfd b) (wbuf b) o in
        let err := match err with
                   | None => if decide (n < length (wbuf b)) then Some ErrShortWrite else None
                   | Some e => Some e
                   end in
        match err with
        | Some e => ((o1, mkBufW (drop n (wbuf b)) (Some e) (wfd b)), Some e)
        | None => ((o1, mkBufW [] None (wfd b)), None)
        end
  end.

Context (size : nat).

Definition Available (b : bufioWriter) : nat := size - length (wbuf b).

(** The loop of [Write] while [p] does not fit: [rest] is what is left of it. *)
Fixpoint bufw_loop (fuel : nat) (p : bytes) (st : wstate) : wstate * bytes :=
  let '(o, b) := st in
  match fuel with
  | O => (st, p)
  | Datatypes.S fu =>
      if decide (Available b < length p /\ werr b = None) then
        if decide (wbuf b = []) then
          let '(o1, (n, err)) := sink_Write (wfd b) p o in
          bufw_loop fu (drop n p) (o1, mkBufW (wbuf b) err (wfd b))
        else
          let n := Available b in
          let st1 := (bufw_Flush (o, mkBufW (wbuf b ++ take n p) (werr b) (wfd b))).1 in
          bufw_loop fu (drop n p) st1
      else (st, p)
  end.

(** Filling and flushing the buffer, then one direct write: the loop body runs at
    most twice. *)
Definition bufw_Write (p : bytes) : GoM wstate unit := fun st =>
  let '((o, b), rest) := bufw_loop 3 p st in
  match werr b with
  | Some e => ((o, b), Fail e)
  | None => ((o, mkBufW (wbuf b ++ rest) None (wfd b)), Ret tt)
  end.
End Writer.

#[global] Arguments bufw_Flush : simpl never.

Section Laws.
Context {S : Type} `{!Sink S} `{!SinkLaws S} (size : nat).

Abbreviation wstate := (S * bufioWriter)%type.

(** What the writer has been given so far. *)
Definition stream (st : wstate) : bytes := written (wfd st.2) st.1 ++ wbuf st.2.

(** What a piece of output does to the writer: it is all accepted, or the writer is
    broken and the file holds a part of it. *)
Definition sent (st : wstate) (out : bytes) (st' : wstate) (r : outcome unit) : Prop :=
  wfd st'.2 = wfd st.2 /\ onlyOn (wfd st.2) st.1 st'.1 /\
  written (wfd st.2) st.1 `prefix_of` written (wfd st.2) st'.1 /\
  match r with
  | Ret _ => werr st'.2 = None /\ stream st' = stream st ++ out
  | Fail e => werr st'.2 = Some e /\ written (wfd st.2) st'.1 `prefix_of` stream st ++ out
  | Panics _ => False
  end.

Definition sends (m : GoM wstate unit) (out : bytes) : Prop :=
  forall st, isOpen (wfd st.2) st.1 -> werr st.2 = None -> sent st out (m st).1 (m st).2.

Lemma Flush_spec st :
  isOpen (wfd st.2) st.1 -> werr st.2 = None ->
  let '(st', e) := bufw_Flush st in
  wfd st'.2 = wfd st.2 /\ onlyOn (wfd st.2) st.1 st'.1 /\
  written (wfd st.2) st.1 `prefix_of` written (wfd st.2) st'.1 /\
  werr st'.2 = e /\
  match e with
  | None => written (wfd st.2) st'.1 = stream st /\ wbuf st'.2 = []
  | Some _ => written (wfd st.2) st'.1 `prefix_of` stream st
  end.
Proof.
  destruct st as [o b]. simpl. intros Hv He. unfold bufw_Flush, stream. rewrite He. simpl.
  case_decide as Hb.
  { split_and!; simpl; auto. by rewrite Hb, app_nil_r. }
  pose proof (sink_Write_spec (wfd b) (wbuf b) o Hv) as H.
  destruct (sink_Write (wfd b) (wbuf b) o) as [o1 [n err]].
  destruct H as (Hfr & Hc & Hn & Hle).
  destruct err as [e|]; [|rewrite (Hn eq_refl), decide_False by lia];
    simpl; (split; [done|split; [done|split; [rewrite Hc; by eexists|split; [done|]]]]).
  - rewrite Hc. apply prefix_app. apply prefix_take.
  - split; [|done]. rewrite Hc, (Hn eq_refl). by rewrite firstn_all.
Qed.

(** A broken writer takes nothing more. *)
Lemma loop_broken fuel p st : werr st.2 <> None -> bufw_loop size fuel p st = (st, p).
Proof.
  destruct st as [o b]. simpl. intros He. destruct fuel as [|fu]; [done|]. simpl.
  by rewrite decide_False by (by intros []).
Qed.

(** Whatever the number of rounds, the loop of [Write] loses nothing. *)
Lemma loop_spec fuel p st :
  isOpen (wfd st.2) st.1 -> werr st.2 = None ->
  let '(st', rest) := bufw_loop size fuel p st in
  wfd st'.2 = wfd st.2 /\ onlyOn (wfd st.2) st.1 st'.1 /\
  written (wfd st.2) st.1 `prefix_of` written (wfd st.2) st'.1 /\
  match werr st'.2 with
  | None => stream st' ++ rest = stream st ++ p
  | Some _ => written (wfd st.2) st'.1 `prefix_of` stream st ++ p
  end.
Proof.
  revert p st. induction fuel as [|fu IH]; intros p [o b]; simpl; intros Hv He.
  { rewrite He. auto. }
  case_decide as Hc; [|simpl; rewrite He; auto]. destruct Hc as [Hav _].
  case_decide as Hb.
  - pose proof (sink_Write_spec (wfd b) p o Hv) as H.
    destruct (sink_Write (wfd b) p o) as [o1 [n err]]. destruct H as (Hfr & Hct & Hn & Hle).
    assert (isOpen (wfd b) o1) as Hv1 by (by eapply onlyOn_open).
    destruct err as [e|].
    + rewrite loop_broken by done. simpl.
      split; [done|split; [done|split; [rewrite Hct; by eexists|]]].
      unfold stream. simpl. rewrite Hct, Hb, app_nil_r. apply prefix_app, prefix_take.
    + specialize (IH (drop n p) (o1, mkBufW (wbuf b) None (wfd b)) Hv1 eq_refl).
      destruct (bufw_loop size _ _ _) as [st' rest]. destruct IH as (Hw & Hf & Hp & Hm). simpl in *.
      split; [done|]. split; [by eapply onlyOn_trans|].
      split; [etrans; [|exact Hp]; rewrite Hct; by eexists|].
      assert (stream (o1, mkBufW (wbuf b) None (wfd b)) ++ drop n p = stream (o, b) ++ p) as Hs.
      { unfold stream. simpl. rewrite Hct, Hb, !app_nil_r, <- app_assoc. by rewrite take_drop. }
      rewrite Hs in Hm. done.
  - set (n := Available size b). set (st1 := (o, mkBufW (wbuf b ++ take n p) (werr b) (wfd b))).
    pose proof (Flush_spec st1 Hv He) as H. destruct (bufw_Flush st1) as [[o2 b2] e].
    destruct H as (Hw & Hfr & Hpre & Herr & Hm). simpl in *.
    assert (stream st1 ++ drop n p = stream (o, b) ++ p) as Hs.
    { unfold stream. simpl. rewrite <- !app_assoc. by rewrite take_drop. }
    destruct e as [e|].
    + rewrite loop_broken by (simpl; congruence). simpl.
      split; [done|split; [done|split; [done|]]]. rewrite Herr, <- Hs. by apply prefix_app_r.
    + destruct Hm as [Hct Hbuf].
      assert (isOpen (wfd b2) o2) as Hv2 by (rewrite Hw; by eapply onlyOn_open).
      specialize (IH (drop n p) (o2, b2) Hv2 Herr).
      destruct (bufw_loop size _ _ _) as [st' rest]. simpl in IH. rewrite Hw in IH.
      destruct IH as (Hw' & Hf' & Hp' & Hm').
      split; [done|]. split; [by eapply onlyOn_trans|]. split; [by etrans|].
      assert (stream (o2, b2) = stream st1) as Hs2.
      { unfold stream at 1. simpl. by rewrite Hw, Hct, Hbuf, app_nil_r. }
      rewrite Hs2, Hs in Hm'. done.
Qed.

Lemma Flush_empties st :
  werr st.2 = None -> wbuf (bufw_Flush st).1.2 = [] \/ werr (bufw_Flush st).1.2 <> None.
Proof.
  destruct st as [o b]. cbn [snd]. intros He. unfold bufw_Flush. rewrite He.
  case_decide as Hb; [by left|].
  destruct (sink_Write _ _ _) as [? [? [?|]]]; [by right|]. case_decide; [by right|by left].
Qed.

(** One round of the loop. *)
Lemma loop_S fu p o b :
  bufw_loop size (Datatypes.S fu) p (o, b) =
  if decide (Available size b < length p /\ werr b = None) then
    if decide (wbuf b = []) then
      bufw_loop size fu (drop (sink_Write (wfd b) p o).2.1 p)
        ((sink_Write (wfd b) p o).1, mkBufW (wbuf b) (sink_Write (wfd b) p o).2.2 (wfd b))
    else
      bufw_loop size fu (drop (Available size b) p)
        (bufw_Flush (o, mkBufW (wbuf b ++ take (Available size b) p) (werr b) (wfd b))).1
  else ((o, b), p).
Proof. simpl. by destruct (sink_Write (wfd b) p o) as [? [? ?]]. Qed.

(** The loop has come to its end. *)
Definition exited (r : wstate * bytes) : Prop :=
  werr r.1.2 = None -> length r.2 <= Available size r.1.2.

Lemma exited_now o b p : ~ (Available size b < length p /\ werr b = None) -> exited ((o, b), p).
Proof. unfold exited. cbn [fst snd]. intros H He. apply Nat.nlt_ge. tauto. Qed.

Lemma exited_broken fuel p st : werr st.2 <> None -> exited (bufw_loop size fuel p st).
Proof. intros He. rewrite loop_broken by done. unfold exited. cbn [fst snd]. tauto. Qed.

Lemma exited_nil fuel st : exited (bufw_loop size fuel [] st).
Proof.
  destruct st as [o b], fuel as [|fu]; [|rewrite loop_S].
  - apply exited_now. simpl. lia.
  - rewrite decide_False by (simpl; lia). apply exited_now. simpl. lia.
Qed.

(** With an empty buffer one round is enough. *)
Lemma exited_empty fu p o b : wbuf b = [] -> exited (bufw_loop size (Datatypes.S fu) p (o, b)).
Proof.
  intros Hb. rewrite loop_S. destruct (decide (_ /\ _)) as [Hc|Hc]; [|by apply exited_now].
  rewrite decide_True by done.
  destruct (sink_Write_rest (wfd b) p o) as [H| ->]; [by apply exited_broken|apply exited_nil].
Qed.

(** Three rounds are enough: the loop ends because the rest fits the buffer or the
    writer is broken, never because the fuel is used up. *)
Lemma loop_exits p st : exited (bufw_loop size 3 p st).
Proof.
  destruct st as [o b]. rewrite loop_S.
  destruct (decide (_ /\ _)) as [Hc|Hc]; [|by apply exited_now].
  destruct (decide (wbuf b = [])) as [Hb|Hb]; [by apply exited_empty|].
  set (st1 := (o, mkBufW (wbuf b ++ take (Available size b) p) (werr b) (wfd b))).
  destruct (Flush_empties st1 (proj2 Hc)) as [H|H]; [|by apply exited_broken].
  destruct (bufw_Flush st1) as [[o2 b2] e]. by apply exited_empty.
Qed.

Lemma sends_io p : sends (bufw_Write size p) p.
Proof.
  intros st Hv He. unfold bufw_Write.
  pose proof (loop_spec 3 p st Hv He) as H. destruct (bufw_loop size 3 p st) as [[o b] rest].
  destruct H as (Hw & Hf & Hp & Hm). simpl in *. destruct (werr b) as [e|] eqn:Hb; simpl.
  - done.
  - unfold sent. simpl. split_and!; try done. unfold stream in *. simpl in *.
    by rewrite app_assoc.
Qed.

Lemma sends_ret : sends (mret tt) [].
Proof.
  intros st Hv He. unfold sent. simpl. rewrite app_nil_r. auto.
Qed.

Lemma sends_seq m1 m2 o1 o2 : sends m1 o1 -> sends m2 o2 -> sends (m1;; m2) (o1 ++ o2).
Proof.
  intros H1 H2 st Hv He. specialize (H1 st Hv He). unfold mbind, GoM_bind.
  destruct (m1 st) as [st1 r1]. destruct H1 as (Hw & Hf & Hp & Hm). simpl in *.
  destruct r1 as [[]|e|w]; [|simpl|done].
  - destruct Hm as [He1 Hs1].
    assert (isOpen (wfd st1.2) st1.1) as Hv1 by (rewrite Hw; by eapply onlyOn_open).
    specialize (H2 st1 Hv1 He1). destruct (m2 st1) as [st2 r2].
    destruct H2 as (Hw2 & Hf2 & Hp2 & Hm2). simpl in *. rewrite Hw, Hs1, <- app_assoc in *.
    unfold sent. simpl. split_and!; [done|by eapply onlyOn_trans|by etrans|done].
  - destruct Hm as [He1 Hs1]. unfold sent. simpl. split_and!; try done.
    rewrite app_assoc. by apply prefix_app_r.
Qed.

(** Flushing is sending nothing. *)
Lemma Flush_sent st :
  isOpen (wfd st.2) st.1 -> werr st.2 = None ->
  sent st [] (bufw_Flush st).1
    match (bufw_Flush st).2 with None => Ret tt | Some e => Fail e end.
Proof.
  intros Hv He. pose proof (Flush_spec st Hv He) as H.
  destruct (bufw_Flush st) as [st' e]. destruct H as (Hw & Hf & Hp & Herr & Hm).
  unfold sent. rewrite app_nil_r. cbn [fst snd]. split_and!; [done..|].
  destruct e as [e|]; [done|]. destruct Hm as [Hc Hb]. split; [done|].
  unfold stream at 1. by rewrite Hw, Hb, app_nil_r.
Qed.

End Laws.
