(* ===== verification/RespReader.v ===== *)
(** * internal/resp/reader.go: the RESP2 command parser

    The parser is written once, over the class [BufReader] of Bufio.v, and runs
    on both of its instances: the fragmented [bufio.Reader] of the program and
    the flat byte stream of the specification.  Errors are the values of
    [Prelude.error]; indexing a slice out of range is a panic of the model.

    The theorems: the result depends on the bytes alone; the parser never
    panics; it accepts nothing beyond the protocol limits; it reads back what
    [writeCommand] wrote, command after command; and a command cut short is
    reported as [ErrUnexpectedEOF]. *)

From stdpp Require Import base list strings.
From Stdlib Require Import ZArith Lia.
From Stdlib Require Import Strings.Byte.
From S2P Require Import Prelude.
From S2P Require Import GoStrconv.
From S2P Require Import RespWriter.
From S2P Require Import Bufio.

#[local] Open Scope Z_scope.

(** ** Limits *)

Definition MaxBulkLength : Z := 512 * 1024 * 1024.
Definition MaxArrayLength : Z := 1024 * 1024.
Definition readerBufSize : nat := Z.to_nat (16 * 1024).

#[global] Arguments readerBufSize : simpl never.

#[export] Instance bufio_BufReader {S} `{!IOReader S} : BufReader (bufioReader S) := {|
  ReadSlice := bufio_ReadSlice readerBufSize;
  ReadFull := bufio_ReadFull readerBufSize
|}.

#[export] Instance flat_BufReader : BufReader flat := {|
  ReadSlice := flat_ReadSlice readerBufSize;
  ReadFull := flat_ReadFull
|}.

(** ** Error messages *)

Definition protoErr (msg : bytes) : error := ProtocolError msg.

Definition ProtocolError_Error (msg : bytes) : bytes := bs "Protocol error: " ++ msg.

Definition hex_digit (d : Z) : byte :=
  default Byte.x30 (Byte.of_N (Z.to_N (if d <? 10 then 48 + d else 87 + d))).

Definition printableByte (b : byte) : bytes :=
  if (32 <=? byteZ b) && (byteZ b <? 127) then [b]
  else bs "\x" ++ [hex_digit (byteZ b / 16); hex_digit (byteZ b mod 16)].

Definition got_message (want : bytes) (c : byte) : bytes :=
  bs "expected '" ++ want ++ bs "', got '" ++ printableByte c ++ bs "'".

(** ** The parser *)

Definition parseInt (b : bytes) : Z + NumError := ParseInt b.

Definition unexpectedEOF (e : error) : error :=
  if decide (e = EOF) then ErrUnexpectedEOF else e.

Section Parser.
Context {R : Type} `{!BufReader R}.

(** [readLine]: one CRLF-terminated header line, without the CRLF. *)
Definition readLine : GoM R bytes := fun r =>
  let '(r', (line, err)) := ReadSlice LF r in
  match err with
  | Some e =>
      if decide (e = ErrBufferFull) then (r', Fail (protoErr (bs "too big inline request")))
      else if decide (e = EOF) then
        (r', Fail (if 0 <? lenZ line then ErrUnexpectedEOF else e))
      else (r', Fail e)
  | None =>
      if (lenZ line <? 2) || negb (bool_decide (line !! (length line - 2)%nat = Some CR)) then
        (r', Fail (protoErr (bs "unbalanced newline")))
      else
        let line' := take (length line - 2) line in
        if lenZ line' =? 0 then (r', Fail (protoErr (bs "empty line")))
        else (r', Ret line')
  end.

(** A call whose error is passed through [unexpectedEOF]. *)
Definition promoting {A} (m : GoM R A) : GoM R A := fun r =>
  match m r with
  | (r', Fail e) => (r', Fail (unexpectedEOF e))
  | res => res
  end.

Definition readFull (n : Z) : GoM R bytes := fun r =>
  let '(r', res) := ReadFull (Z.to_nat n) r in
  match res with
  | inl buf => (r', Ret buf)
  | inr e => (r', Fail e)
  end.

(** [readBulkString]: one "$<n> CRLF <n bytes> CRLF" value. *)
Definition readBulkString : GoM R bytes :=
  line ← promoting readLine;
  match line with
  | [] => panic (bs "index out of range")
  | c :: rest =>
      if negb (bool_decide (c = Byte.x24)) then throw (protoErr (got_message (bs "$") c))
      else
        match parseInt rest with
        | inr _ => throw (protoErr (bs "invalid bulk length"))
        | inl n =>
            if (n <? 0) || (MaxBulkLength <? n) then
              throw (protoErr (bs "invalid bulk length"))
            else
              buf ← promoting (readFull (n + 2));
              match buf !! Z.to_nat n, buf !! Z.to_nat (n + 1) with
              | Some x, Some y =>
                  if bool_decide (x = CR) && bool_decide (y = LF)
                  then mret (take (Z.to_nat n) buf)
                  else throw (protoErr (bs "bulk string not terminated by CRLF"))
              | _, _ => panic (bs "index out of range")
              end
        end
  end.

Fixpoint readArgs (k : nat) : GoM R (list bytes) :=
  match k with
  | O => mret []
  | S k' => a ← readBulkString; rest ← readArgs k'; mret (a :: rest)
  end.

(** [ReadCommand]: one command, its name at index 0. *)
Definition ReadCommand : GoM R (list bytes) :=
  line ← readLine;
  match line with
  | [] => panic (bs "index out of range")
  | c :: rest =>
      if negb (bool_decide (c = Byte.x2a)) then throw (protoErr (got_message (bs "*") c))
      else
        match parseInt rest with
        | inr _ => throw (protoErr (bs "invalid multibulk length"))
        | inl n =>
            if n <? 0 then throw (protoErr (bs "invalid multibulk length"))
            else if MaxArrayLength <? n then throw (protoErr (bs "invalid multibulk length"))
            else if n =? 0 then mret []
            else readArgs (Z.to_nat n)
        end
  end.
End Parser.

Example ReadCommand_ping :
  ReadCommand (mkFlat (bs "*1" ++ crlf ++ bs "$4" ++ crlf ++ bs "PING" ++ crlf ++ bs "*") EOF)
  = (mkFlat (bs "*") EOF, Ret [bs "PING"]).
Proof. vm_compute. reflexivity. Qed.

Example ReadCommand_bad :
  ReadCommand (mkFlat (bs "PING" ++ crlf) EOF)
  = (mkFlat [] EOF, Fail (ProtocolError (bs "expected '*', got 'P'"))).
Proof. vm_compute. reflexivity. Qed.

(** ** Two readers that agree drive the parser alike

    The first of them may also fail where the second goes on; the parser has failed then, and
    left it [broken]. *)

Section Simulation.
Context {R1 R2 : Type} `{!BufReader R1} `{!BufReader R2}.
Context (rl : R1 -> R2 -> Prop) (broken : R1 -> Prop).

Definition sim {A} (m1 : GoM R1 A) (m2 : GoM R2 A) : Prop :=
  forall r1 r2, rl r1 r2 ->
  ((m1 r1).2 = (m2 r2).2 /\ rl (m1 r1).1 (m2 r2).1) \/
  ((exists e, (m1 r1).2 = Fail e) /\ broken (m1 r1).1).

Hypothesis ReadSlice_agree : forall d r1 r2, rl r1 r2 ->
  ((ReadSlice d r1).2 = (ReadSlice d r2).2 /\ rl (ReadSlice d r1).1 (ReadSlice d r2).1) \/
  (is_Some (ReadSlice d r1).2.2 /\ broken (ReadSlice d r1).1).
Hypothesis ReadFull_agree : forall n r1 r2, rl r1 r2 ->
  ((ReadFull n r1).2 = (ReadFull n r2).2 /\ rl (ReadFull n r1).1 (ReadFull n r2).1) \/
  ((exists e, (ReadFull n r1).2 = inr e) /\ broken (ReadFull n r1).1).

Lemma sim_ret {A} (a : A) : sim (mret a) (mret a).
Proof. intros r1 r2 H. by left. Qed.

Lemma sim_throw {A} e : sim (throw (A := A) e) (throw e).
Proof. intros r1 r2 H. by left. Qed.

Lemma sim_panic {A} w : sim (panic (A := A) w) (panic w).
Proof. intros r1 r2 H. by left. Qed.

Lemma sim_bind {A B} (m1 : GoM R1 A) (m2 : GoM R2 A) (f1 : A -> GoM R1 B) f2 :
  sim m1 m2 -> (forall a, sim (f1 a) (f2 a)) -> sim (m1 ≫= f1) (m2 ≫= f2).
Proof.
  intros Hm Hf r1 r2 Hr. unfold mbind, GoM_bind.
  destruct (Hm r1 r2 Hr) as [[Ho Hr']|[[e Ho] Hb]];
    destruct (m1 r1) as [r1' o1], (m2 r2) as [r2' o2]; simpl in *; subst o1.
  - destruct o2; [by apply Hf|by left..].
  - right. split; [by eexists|done].
Qed.

Lemma sim_promoting {A} (m1 : GoM R1 A) (m2 : GoM R2 A) :
  sim m1 m2 -> sim (promoting m1) (promoting m2).
Proof.
  intros Hm r1 r2 Hr. unfold promoting.
  destruct (Hm r1 r2 Hr) as [[Ho Hr']|[[e Ho] Hb]];
    destruct (m1 r1) as [r1' o1], (m2 r2) as [r2' o2]; simpl in *; subst o1.
  - left. by destruct o2.
  - right. split; [by eexists|done].
Qed.

Lemma sim_readLine : sim readLine readLine.
Proof.
  intros r1 r2 Hr. unfold readLine.
  destruct (ReadSlice_agree LF r1 r2 Hr) as [[Ho Hr']|[[e Ho] Hb]];
    destruct (ReadSlice LF r1) as [r1' [l1 e1]], (ReadSlice LF r2) as [r2' [l2 e2]]; simpl in *; simplify_eq.
  - left. by repeat case_match.
  - right. repeat case_decide; by split; [eexists|].
Qed.

Lemma sim_readFull n : sim (readFull n) (readFull n).
Proof.
  intros r1 r2 Hr. unfold readFull.
  destruct (ReadFull_agree (Z.to_nat n) r1 r2 Hr) as [[Ho Hr']|[[e Ho] Hb]];
    destruct (ReadFull _ r1) as [r1' o1], (ReadFull _ r2) as [r2' o2]; simpl in *; subst o1.
  - left. by destruct o2.
  - right. by split; [eexists|].
Qed.

Create HintDb sim.
#[local] Hint Resolve sim_ret sim_throw sim_panic sim_bind sim_promoting
  sim_readLine sim_readFull : sim.

Lemma sim_readBulkString : sim readBulkString readBulkString.
Proof.
  apply sim_bind; [auto with sim|]. intros line.
  repeat (case_match; auto with sim).
  apply sim_bind; [auto with sim|]. intros buf. repeat (case_match; auto with sim).
Qed.

Lemma sim_readArgs k : sim (readArgs k) (readArgs k).
Proof.
  induction k as [|k IH]; simpl; [auto with sim|].
  apply sim_bind; [apply sim_readBulkString|]. auto with sim.
Qed.

Lemma sim_ReadCommand : sim ReadCommand ReadCommand.
Proof.
  apply sim_bind; [auto with sim|]. intros line.
  repeat (case_match; auto using sim_readArgs with sim).
Qed.
End Simulation.

(** A reader that never fails alone. *)
Lemma sim_agree {R1 R2 A} (rl : R1 -> R2 -> Prop) (m1 : GoM R1 A) (m2 : GoM R2 A) r1 r2 :
  sim rl (fun _ => False) m1 m2 -> rl r1 r2 -> (m1 r1).2 = (m2 r2).2 /\ rl (m1 r1).1 (m2 r2).1.
Proof. intros Hm Hr. by destruct (Hm r1 r2 Hr) as [|[_ []]]. Qed.

(** ** No panic, and the limits *)

(** [post m Q]: [m] does not panic and what it returns satisfies [Q]. *)
Definition post {R A} (m : GoM R A) (Q : A -> Prop) : Prop :=
  forall r, match (m r).2 with Ret a => Q a | Fail _ => True | Panics _ => False end.

Lemma post_bind {R A B} (m : GoM R A) (f : A -> GoM R B) Q Q' :
  post m Q -> (forall a, Q a -> post (f a) Q') -> post (m ≫= f) Q'.
Proof.
  intros Hm Hf r. specialize (Hm r). unfold mbind, GoM_bind.
  destruct (m r) as [r' o]. simpl in Hm. destruct o; simpl; [by apply Hf|done|done].
Qed.

Lemma post_ret {R A} (a : A) (Q : A -> Prop) : Q a -> post (R := R) (mret a) Q.
Proof. by intros H r. Qed.

Lemma post_throw {R A} e (Q : A -> Prop) : post (R := R) (throw e) Q.
Proof. by intros r. Qed.

Lemma post_promoting {R A} (m : GoM R A) Q : post m Q -> post (promoting m) Q.
Proof.
  intros H r. specialize (H r). unfold promoting. destruct (m r) as [r' []]; done.
Qed.

Lemma post_readLine : post (R := flat) readLine (fun l => l <> []).
Proof.
  intros r. unfold readLine. destruct (ReadSlice LF r) as [r' [line [e|]]].
  { repeat case_decide; done. }
  destruct (_ || _); [done|]. cbv zeta. destruct (_ =? 0) eqn:H0; [done|].
  simpl. intros Hl. by rewrite Hl in H0.
Qed.

Lemma post_readFull n :
  0 <= n -> post (R := flat) (readFull n) (fun b => lenZ b = n).
Proof.
  intros Hn r. unfold readFull, ReadFull, flat_BufReader, flat_ReadFull, lenZ.
  case_decide; simpl; [|done]. rewrite length_take. lia.
Qed.

Definition bulk_ok (a : bytes) : Prop := lenZ a <= MaxBulkLength.

Lemma post_readBulkString : post (R := flat) readBulkString bulk_ok.
Proof.
  eapply post_bind; [apply post_promoting, post_readLine|].
  intros [|c rest] Hl; [done|]. destruct (negb _); [apply post_throw|].
  destruct (parseInt rest) as [z|]; [|apply post_throw].
  destruct (_ || _) eqn:Hb; [apply post_throw|].
  apply orb_false_iff in Hb as [Hb1 Hb2].
  eapply post_bind; [apply post_promoting, post_readFull; lia|].
  intros buf Hbuf. unfold lenZ in Hbuf.
  destruct (lookup_lt_is_Some_2 buf (Z.to_nat z)) as [x ->]; [lia|].
  destruct (lookup_lt_is_Some_2 buf (Z.to_nat (z + 1))) as [y ->]; [lia|].
  destruct (_ && _); [apply post_ret|apply post_throw].
  unfold bulk_ok, lenZ. rewrite length_take. lia.
Qed.

Lemma post_readArgs k :
  post (R := flat) (readArgs k) (fun args => length args = k /\ Forall bulk_ok args).
Proof.
  induction k as [|k IH]; simpl; [by apply post_ret|].
  eapply post_bind; [apply post_readBulkString|]. intros a Ha.
  eapply post_bind; [apply IH|]. intros args [Hl Hf]. apply post_ret.
  split; [simpl; lia|by constructor].
Qed.

Definition command_ok (args : list bytes) : Prop :=
  lenZ args <= MaxArrayLength /\ Forall bulk_ok args.

Lemma post_ReadCommand : post (R := flat) ReadCommand command_ok.
Proof.
  eapply post_bind; [apply post_readLine|].
  intros [|c rest] Hl; [done|]. destruct (negb _); [apply post_throw|].
  destruct (parseInt rest) as [z|]; [|apply post_throw].
  destruct (Z.ltb_spec z 0); [apply post_throw|].
  destruct (Z.ltb_spec MaxArrayLength z); [apply post_throw|].
  destruct (z =? 0); [by apply post_ret|].
  intros r. pose proof (post_readArgs (Z.to_nat z) r) as Hp.
  destruct (readArgs _ r).2; [|done..]. destruct Hp as [Hp ?].
  split; [unfold lenZ|done]. lia.
Qed.

(** ** Header lines *)

Lemma readerBufSize_val : Z.of_nat readerBufSize = 16384.
Proof. unfold readerBufSize. lia. Qed.

Lemma index_byte_notin d s : d ∉ s -> index_byte d s = None.
Proof.
  induction s as [|c s IH]; [done|]. rewrite not_elem_of_cons. intros [Hc Hs].
  simpl. rewrite decide_False by congruence. by rewrite IH.
Qed.

Lemma index_byte_at d s t : d ∉ s -> index_byte d (s ++ d :: t) = Some (length s).
Proof.
  induction s as [|c s IH]; simpl; [by rewrite decide_True|].
  rewrite not_elem_of_cons. intros [Hc Hs].
  rewrite decide_False by congruence. by rewrite IH.
Qed.

(** A line [l] that a header may consist of. *)
Definition header (l : bytes) : Prop :=
  (l <> []) /\ (LF ∉ l) /\ (length l + 2 <= readerBufSize)%nat.

Lemma readLine_header l rest e :
  header l -> readLine (mkFlat (l ++ crlf ++ rest) e) = (mkFlat rest e, Ret l).
Proof.
  intros (Hne & Hlf & Hlen).
  unfold readLine, ReadSlice, flat_BufReader, flat_ReadSlice. cbn [fbytes ferr].
  assert (index_byte LF (take readerBufSize (l ++ crlf ++ rest)) = Some (length l + 1)%nat)
    as ->.
  { replace (l ++ crlf ++ rest) with ((l ++ [CR]) ++ LF :: rest) by (by rewrite <- app_assoc).
    rewrite take_app_ge by (rewrite length_app; simpl; lia).
    destruct (readerBufSize - length (l ++ [CR]))%nat eqn:Hk;
      [rewrite length_app in Hk; simpl in Hk; lia|].
    cbn [take]. rewrite index_byte_at; [by rewrite length_app|].
    rewrite elem_of_app, list_elem_of_singleton. intros [?|?]; done. }
  replace (S (length l + 1)) with (length (l ++ crlf)) by (rewrite length_app; simpl; lia).
  rewrite app_assoc, take_app_length, drop_app_length.
  unfold lenZ. rewrite length_app. simpl length.
  replace (length l + 2 - 2)%nat with (length l) by lia.
  rewrite lookup_app_r, Nat.sub_diag, take_app_length by lia.
  rewrite (bool_decide_true (crlf !! 0%nat = Some CR)) by done.
  destruct (Z.ltb_spec (Z.of_nat (length l + 2)) 2); [lia|].
  destruct (Z.eqb_spec (Z.of_nat (length l)) 0); [|done].
  destruct l; simpl in *; [done|lia].
Qed.

(** How a stream that ends inside [l ++ crlf] is reported. *)
Definition cut_error (p : bytes) : error := if decide (p = []) then EOF else ErrUnexpectedEOF.

Lemma readLine_torn l k :
  header l -> (k < length (l ++ crlf))%nat ->
  readLine (mkFlat (take k (l ++ crlf)) EOF)
  = (mkFlat [] EOF, Fail (cut_error (take k (l ++ crlf)))).
Proof.
  intros (Hne & Hlf & Hlen) Hk. rewrite length_app in Hk. simpl in Hk.
  set (p := take k (l ++ crlf)).
  assert (LF ∉ p) as Hp.
  { unfold p. replace (l ++ crlf) with ((l ++ [CR]) ++ [LF]) by (by rewrite <- app_assoc).
    rewrite take_app_le by (rewrite length_app; simpl; lia).
    intros (i & Hin%list_elem_of_lookup_2 & _)%elem_of_take.
    rewrite elem_of_app, list_elem_of_singleton in Hin. by destruct Hin as [?|?]. }
  assert (length p < readerBufSize)%nat as Hpl.
  { unfold p. rewrite length_take, length_app. simpl. lia. }
  unfold readLine, ReadSlice, flat_BufReader, flat_ReadSlice. cbn [fbytes ferr].
  rewrite take_ge by lia. rewrite index_byte_notin by done.
  rewrite (decide_False (P := (readerBufSize <= length p)%nat)) by lia.
  rewrite (decide_False (P := EOF = ErrBufferFull)) by done.
  rewrite (decide_True (P := EOF = EOF)) by done. unfold cut_error, lenZ.
  destruct p; [done|]. by rewrite decide_False.
Qed.

Lemma header_countLine typ n :
  typ <> LF -> is_int64 n -> header (typ :: FormatInt n).
Proof.
  intros Ht Hn. pose proof (FormatInt_int64_length n Hn).
  pose proof readerBufSize_val. split; [done|]. split.
  - rewrite not_elem_of_cons. split; [congruence|]. intros Hin.
    pose proof (FormatInt_bytes n) as Hf. rewrite Forall_forall in Hf.
    destruct (Hf _ Hin) as [Hd|Hd]; by vm_compute in Hd.
  - simpl. lia.
Qed.

Lemma countLine_line typ n : countLine typ n = (typ :: FormatInt n) ++ crlf.
Proof. reflexivity. Qed.

Lemma readLine_countLine typ n rest e :
  typ <> LF -> is_int64 n ->
  readLine (mkFlat (countLine typ n ++ rest) e) = (mkFlat rest e, Ret (typ :: FormatInt n)).
Proof.
  intros. rewrite countLine_line, <- app_assoc. apply readLine_header.
  by apply header_countLine.
Qed.

(** ** Reading back what [writeCommand] wrote *)

Lemma bulk_ok_int64 a : bulk_ok a -> is_int64 (lenZ a).
Proof.
  unfold bulk_ok, is_int64, lenZ, MaxBulkLength, minInt64, maxInt64. lia.
Qed.

(** The part of [readBulkString] after its header line. *)
Lemma readBulkString_payload a rest e :
  bulk_ok a ->
  readBulkString (mkFlat (countLine Byte.x24 (lenZ a) ++ rest) e) =
  (buf ← promoting (readFull (lenZ a + 2));
   match buf !! Z.to_nat (lenZ a), buf !! Z.to_nat (lenZ a + 1) with
   | Some x, Some y =>
       if bool_decide (x = CR) && bool_decide (y = LF)
       then mret (take (Z.to_nat (lenZ a)) buf)
       else throw (protoErr (bs "bulk string not terminated by CRLF"))
   | _, _ => panic (bs "index out of range")
   end) (mkFlat rest e).
Proof.
  intros Ha. pose proof (bulk_ok_int64 _ Ha) as Hi.
  unfold readBulkString. erewrite GoM_bind_step.
  2: { unfold promoting. by rewrite readLine_countLine. }
  cbv beta iota. rewrite (bool_decide_true (Byte.x24 = Byte.x24)) by done. cbn [negb].
  unfold parseInt. rewrite ParseInt_FormatInt by done.
  unfold bulk_ok, lenZ in Ha |- *.
  destruct (Z.ltb_spec (Z.of_nat (length a)) 0); [lia|].
  destruct (Z.ltb_spec MaxBulkLength (Z.of_nat (length a))); [lia|]. done.
Qed.

Lemma readBulkString_encode a rest e :
  bulk_ok a ->
  readBulkString (mkFlat (encode_bulk a ++ rest) e) = (mkFlat rest e, Ret a).
Proof.
  intros Ha. unfold encode_bulk. rewrite <- app_assoc, readBulkString_payload by done.
  assert (Z.to_nat (lenZ a + 2) = length (a ++ crlf)) as Hn.
  { unfold lenZ. rewrite length_app. simpl. lia. }
  erewrite GoM_bind_step.
  2: { unfold promoting, readFull, ReadFull, flat_BufReader, flat_ReadFull.
       rewrite Hn. cbn [fbytes ferr]. rewrite decide_True by (rewrite !length_app; lia).
       by rewrite take_app_length, drop_app_length. }
  cbv beta. unfold lenZ.
  rewrite Nat2Z.id, (lookup_app_r a crlf (length a)), Nat.sub_diag by done.
  rewrite (lookup_app_r a crlf) by lia.
  replace (Z.to_nat (Z.of_nat (length a) + 1) - length a)%nat with 1%nat by lia.
  simpl. by rewrite take_app_length.
Qed.

Lemma readBulkString_torn a k :
  bulk_ok a -> (k < length (encode_bulk a))%nat ->
  readBulkString (mkFlat (take k (encode_bulk a)) EOF) = (mkFlat [] EOF, Fail ErrUnexpectedEOF).
Proof.
  intros Ha Hk. pose proof (bulk_ok_int64 _ Ha) as Hi. unfold encode_bulk in *.
  destruct (decide (k < length (countLine Byte.x24 (lenZ a)))%nat) as [Hlt|Hge].
  - rewrite take_app_le by lia. unfold readBulkString. apply GoM_bind_fail.
    unfold promoting. rewrite countLine_line in *.
    rewrite readLine_torn by (done || by apply header_countLine).
    unfold unexpectedEOF, cut_error. by repeat case_decide.
  - rewrite take_app_ge by lia. rewrite readBulkString_payload by done.
    apply GoM_bind_fail. rewrite length_app in Hk.
    unfold promoting, readFull, ReadFull, flat_BufReader, flat_ReadFull. cbn [fbytes ferr].
    rewrite decide_False.
    + unfold short_read, unexpectedEOF. by repeat case_decide.
    + rewrite length_take. unfold lenZ in *. rewrite !length_app in *. simpl in *. lia.
Qed.

Lemma readArgs_encode args rest e :
  Forall bulk_ok args ->
  readArgs (length args) (mkFlat (concat (encode_bulk <$> args) ++ rest) e)
  = (mkFlat rest e, Ret args).
Proof.
  induction 1 as [|a args Ha _ IH]; [done|].
  rewrite fmap_cons. cbn [length readArgs concat]. rewrite <- app_assoc.
  erewrite GoM_bind_step by (by apply readBulkString_encode).
  by erewrite GoM_bind_step by (by apply IH).
Qed.

Lemma readArgs_torn args k :
  Forall bulk_ok args -> (k < length (concat (encode_bulk <$> args)))%nat ->
  readArgs (length args) (mkFlat (take k (concat (encode_bulk <$> args))) EOF)
  = (mkFlat [] EOF, Fail ErrUnexpectedEOF).
Proof.
  intros Hf. revert k. induction Hf as [|a args Ha _ IH]; intros k Hk; [simpl in Hk; lia|].
  rewrite fmap_cons in *. cbn [length readArgs concat] in *. rewrite length_app in Hk.
  destruct (decide (k < length (encode_bulk a))%nat).
  - rewrite take_app_le by lia. apply GoM_bind_fail. by apply readBulkString_torn.
  - rewrite take_app_ge by lia.
    erewrite GoM_bind_step by (by apply readBulkString_encode).
    apply GoM_bind_fail. apply IH. lia.
Qed.

(** What the log and a client may send: at least one argument, within the limits. *)
Definition sendable (args : list bytes) : Prop := args <> [] /\ command_ok args.

Lemma sendable_len args : sendable args -> is_int64 (lenZ args) /\ 0 < lenZ args.
Proof.
  intros [Hne [Hl _]]. unfold is_int64, MaxArrayLength, minInt64, maxInt64, lenZ in *.
  destruct args; [done|]. simpl in *. lia.
Qed.

(** The part of [ReadCommand] after its header line. *)
Lemma ReadCommand_args args rest e :
  sendable args ->
  ReadCommand (mkFlat (countLine Byte.x2a (lenZ args) ++ rest) e) =
  readArgs (length args) (mkFlat rest e).
Proof.
  intros Hs. pose proof (sendable_len _ Hs) as [Hi Hpos]. destruct Hs as [_ [Hl _]].
  unfold ReadCommand. erewrite GoM_bind_step by (by apply readLine_countLine).
  cbv beta iota. rewrite (bool_decide_true (Byte.x2a = Byte.x2a)) by done. cbn [negb].
  unfold parseInt. rewrite ParseInt_FormatInt by done.
  destruct (Z.ltb_spec (lenZ args) 0); [lia|].
  destruct (Z.ltb_spec MaxArrayLength (lenZ args)); [lia|].
  destruct (Z.eqb_spec (lenZ args) 0); [lia|].
  unfold lenZ. by rewrite Nat2Z.id.
Qed.

Lemma ReadCommand_encode args rest e :
  sendable args ->
  ReadCommand (mkFlat (encodeCommand args ++ rest) e) = (mkFlat rest e, Ret args).
Proof.
  intros Hs. unfold encodeCommand. rewrite <- app_assoc, ReadCommand_args by done.
  destruct Hs as [_ [_ Hf]]. by apply readArgs_encode.
Qed.

Lemma ReadCommand_cut args k :
  sendable args -> (k < length (encodeCommand args))%nat ->
  ReadCommand (mkFlat (take k (encodeCommand args)) EOF)
  = (mkFlat [] EOF, Fail (cut_error (take k (encodeCommand args)))).
Proof.
  intros Hs Hk. pose proof (sendable_len _ Hs) as [Hi _]. unfold encodeCommand in *.
  destruct (decide (k < length (countLine Byte.x2a (lenZ args)))%nat) as [Hlt|Hge].
  - rewrite take_app_le by lia. unfold ReadCommand. apply GoM_bind_fail.
    rewrite countLine_line in *. by apply readLine_torn; [apply header_countLine|].
  - rewrite take_app_ge by lia. rewrite ReadCommand_args by done.
    rewrite length_app in Hk.
    rewrite readArgs_torn; [|apply Hs|lia]. unfold cut_error.
    by rewrite decide_False by (by rewrite countLine_line).
Qed.

(** ** The buffered reader of the program *)

(** Reading [k] commands one after the other. *)
Fixpoint readCommands {R} `{!BufReader R} (k : nat) : GoM R (list (list bytes)) :=
  match k with
  | O => mret []
  | S k' => c ← ReadCommand; rest ← readCommands k'; mret (c :: rest)
  end.

(** Writing commands one after the other. *)
Fixpoint writeCommands {W} `{!IOWriter W} (cmds : list (list bytes)) : GoM W unit :=
  match cmds with
  | [] => mret tt
  | c :: rest => writeCommand c;; writeCommands rest
  end.

Lemma writes_commands cmds :
  writes (writeCommands cmds) (concat (encodeCommand <$> cmds)).
Proof.
  induction cmds as [|c cmds IH]; [apply writes_ret|].
  rewrite fmap_cons. cbn [concat]. apply writes_seq; [apply writes_command|done].
Qed.

Lemma readCommands_encode cmds rest e :
  Forall sendable cmds ->
  readCommands (length cmds) (mkFlat (concat (encodeCommand <$> cmds) ++ rest) e)
  = (mkFlat rest e, Ret cmds).
Proof.
  induction 1 as [|c cmds Hc _ IH]; [done|].
  rewrite fmap_cons. cbn [length readCommands concat]. rewrite <- app_assoc.
  erewrite GoM_bind_step by (by apply ReadCommand_encode).
  by erewrite GoM_bind_step by (by apply IH).
Qed.

Lemma readerBufSize_pos : (0 < readerBufSize)%nat.
Proof. pose proof readerBufSize_val. lia. Qed.

Lemma bufio_sims_ReadCommand :
  sim (rel readerBufSize) (fun _ => False) (A := list bytes) ReadCommand ReadCommand.
Proof.
  apply sim_ReadCommand; intros; left;
    [apply ReadSlice_sim|apply ReadFull_sim]; auto using readerBufSize_pos.
Qed.

Lemma bufio_sim_ReadCommand b f :
  rel readerBufSize b f ->
  (ReadCommand b).2 = (ReadCommand f).2 /\ rel readerBufSize (ReadCommand b).1 (ReadCommand f).1.
Proof. apply sim_agree, bufio_sims_ReadCommand. Qed.

Lemma bufio_sim_readCommands k :
  sim (rel readerBufSize) (fun _ => False) (A := list (list bytes)) (readCommands k) (readCommands k).
Proof.
  induction k as [|k IH]; simpl; [apply sim_ret|].
  apply sim_bind; [apply bufio_sims_ReadCommand|]. intros c.
  apply sim_bind; [apply IH|]. intros rest. apply sim_ret.
Qed.

(** C23. What the encoder wrote, the parser reads back: for every pipeline of
    commands within the protocol limits, whatever follows it on the stream and
    however the bytes are fragmented by the network, [ReadCommand] on a
    [bufio.Reader] returns exactly those commands, in order, and leaves exactly
    the bytes that follow. *)
Theorem resp_pipeline_roundtrip (cmds : list (list bytes)) (rest : bytes) (src : source) :
  Forall sendable cmds ->
  Forall (fun c => c <> []) (chunks src) ->
  concat (chunks src) = (writeCommands cmds []).1 ++ rest ->
  exists b, readCommands (length cmds) (newBufio src) = (b, Ret cmds) /\ pending b = rest.
Proof.
  intros Hs Hc Heq. rewrite (writes_commands cmds []) in Heq. simpl in Heq.
  destruct (sim_agree _ _ _ _ _ (bufio_sim_readCommands (length cmds)) (rel_new readerBufSize _ Hc)) as [Ho Hr].
  rewrite Heq, readCommands_encode in Ho, Hr by done. simpl in Ho, Hr.
  exists (readCommands (length cmds) (newBufio src)).1. split; [|by destruct Hr].
  rewrite <- Ho. by destruct (readCommands _ _).
Qed.

(** A pipeline of two commands delivered in three fragments. *)
Definition pipeline_example : source :=
  mkSource [bs "*1" ++ [CR]; [LF] ++ bs "$4" ++ crlf ++ bs "PI";
            bs "NG" ++ crlf ++ bs "*2" ++ crlf ++ bs "$3" ++ crlf ++ bs "GET" ++ crlf
            ++ bs "$1" ++ crlf ++ bs "k" ++ crlf ++ bs "*"] EOF.

Lemma resp_pipeline_roundtrip_witness :
  exists b, readCommands 2 (newBufio pipeline_example)
            = (b, Ret [[bs "PING"]; [bs "GET"; bs "k"]]) /\ pending b = bs "*".
Proof.
  apply (resp_pipeline_roundtrip [[bs "PING"]; [bs "GET"; bs "k"]] (bs "*") pipeline_example).
  - repeat constructor; done.
  - repeat constructor; done.
  - vm_compute. reflexivity.
Defined.

(** C28. The parser is safe on any input: in any state a connection's reader can
    be in, [ReadCommand] returns a command of at most [MaxArrayLength] arguments
    of at most [MaxBulkLength] bytes each, or an error, and never panics; and
    what it returns is a function of the bytes of the stream alone. *)
Theorem ReadCommand_safe (b : bufioReader source) (f : flat) :
  rel readerBufSize b f ->
  (ReadCommand b).2 = (ReadCommand f).2 /\
  rel readerBufSize (ReadCommand b).1 (ReadCommand f).1 /\
  match (ReadCommand b).2 with
  | Ret args => lenZ args <= MaxArrayLength /\ Forall (fun a => lenZ a <= MaxBulkLength) args
  | Fail _ => True
  | Panics _ => False
  end.
Proof.
  intros Hr. destruct (bufio_sim_ReadCommand b f Hr) as [Ho Hr'].
  split; [done|]. split; [done|]. rewrite Ho. apply (post_ReadCommand f).
Qed.

Lemma ReadCommand_safe_witness :
  match (ReadCommand (newBufio (mkSource [bs "*1" ++ crlf ++ bs "$9"; bs "9" ++ crlf] EOF))).2 with
  | Ret args => lenZ args <= MaxArrayLength /\ Forall (fun a => lenZ a <= MaxBulkLength) args
  | Fail _ => True
  | Panics _ => False
  end.
Proof.
  apply (ReadCommand_safe _ (mkFlat (bs "*1" ++ crlf ++ bs "$99" ++ crlf) EOF)).
  apply (rel_new readerBufSize (mkSource [bs "*1" ++ crlf ++ bs "$9"; bs "9" ++ crlf] EOF)).
  repeat constructor; done.
Defined.

(** C29. A stream that ends inside a command is reported as [ErrUnexpectedEOF], at
    whichever byte it ends, and an empty stream as a clean [EOF]: the distinction the
    server and the log replay rely on.  It is stated for a fresh reader and for commands in
    the encoding that the server's own writer and the log use. *)
Theorem ReadCommand_torn (args : list bytes) (k : nat) (src : source) :
  sendable args ->
  Forall (fun c => c <> []) (chunks src) -> send src = EOF ->
  (k < length (encodeCommand args))%nat ->
  concat (chunks src) = take k (encodeCommand args) ->
  (ReadCommand (newBufio src)).2
  = Fail (if bool_decide (k = 0%nat) then EOF else ErrUnexpectedEOF).
Proof.
  intros Hs Hc He Hk Heq.
  destruct (bufio_sim_ReadCommand _ _ (rel_new readerBufSize src Hc)) as [-> _].
  rewrite Heq, He, ReadCommand_cut by done. simpl. f_equal. unfold cut_error.
  destruct k as [|k]; [reflexivity|]. rewrite (bool_decide_false (S k = 0%nat)) by done.
  rewrite decide_False; [done|].
  destruct (encodeCommand args); [simpl in Hk; lia|done].
Qed.

Lemma ReadCommand_torn_witness :
  (ReadCommand (newBufio (mkSource [bs "*1" ++ crlf; bs "$4" ++ crlf ++ bs "PIN"] EOF))).2
  = Fail ErrUnexpectedEOF.
Proof.
  apply (ReadCommand_torn [bs "PING"] 11).
  - repeat constructor; done.
  - repeat constructor; done.
  - reflexivity.
  - apply Nat.ltb_lt. vm_compute. reflexivity.
  - vm_compute. reflexivity.
Defined.

(** [parseInt] accepts exactly the decimal numerals of [int64] values, and an
    explicit plus sign is part of them: a length written with a leading [+] is
    accepted, contrary to the comment on [parseInt]. *)
Theorem parseInt_accepts (b : bytes) (z : Z) :
  (parseInt b = inl z <-> numeral b = Some z /\ is_int64 z) /\
  (0 <= z <= maxInt64 -> parseInt (plus :: FormatInt z) = inl z).
Proof.
  split; [apply ParseInt_spec|]. intros Hz.
  assert (is_int64 z) as Hi by (unfold is_int64, minInt64; lia).
  apply ParseInt_spec. split; [|done]. pose proof (FormatInt_numeral z Hi) as Hn.
  unfold FormatInt in *. destruct (Z.ltb_spec z 0); [lia|].
  destruct (formatDigits 20 z []) as [|d ds] eqn:Hd; [done|].
  assert (all_digits (d :: ds) = true) as Hall
    by (rewrite <- Hd; apply formatDigits_digits; [lia|done]).
  assert (is_digit d = true) as [Hm Hp]%is_digit_not_sign
    by (simpl in Hall; by apply andb_prop in Hall as [? _]).
  unfold numeral in *.
  rewrite (bool_decide_false (d = minus)), (bool_decide_false (d = plus)) in Hn by done.
  exact Hn.
Qed.
