(* ===== verification/GoTime.v ===== *)
(** * [time.Time] and [time.Duration]

    A [Time] is its number of nanoseconds since the Unix epoch; the zero [Time]
    (January 1 of year 1) is the value Go's [IsZero] tests for.  The wall and the
    monotonic reading of [time.Now()] are one clock here.  A [Duration] is an
    [int64] count of nanoseconds; [Sub] saturates, [UnixMilli] rounds down. *)

From stdpp Require Import base.
From Stdlib Require Import ZArith Lia.
From S2P Require Import Prelude.

#[local] Open Scope Z_scope.

Abbreviation Time := Z.
Abbreviation Duration := Z.

Definition Millisecond : Duration := 1000000.
Definition Second : Duration := 1000000000.

(** [time.Time{}]. *)
Definition zeroTime : Time := -62135596800 * Second.

Definition IsZero (t : Time) : bool := t =? zeroTime.
Definition Before (t u : Time) : bool := t <? u.
Definition After (t u : Time) : bool := u <? t.
Definition Time_Add (t : Time) (d : Duration) : Time := t + d.
Definition Time_Sub (t u : Time) : Duration :=
  if t - u <? minInt64 then minInt64 else if maxInt64 <? t - u then maxInt64 else t - u.
Definition UnixMilli (t : Time) : Z := t / Millisecond.

(** [time.UnixMilli(ms)]. *)
Definition ofUnixMilli (ms : Z) : Time := ms * Millisecond.

(** Writing a deadline down in milliseconds moves it less than a millisecond
    towards the past. *)
Lemma ofUnixMilli_UnixMilli t :
  t - Millisecond < ofUnixMilli (UnixMilli t) <= t.
Proof. unfold UnixMilli, ofUnixMilli, Millisecond. zlia. Qed.
