(* ===== verification/Shard.v ===== *)
(** * internal/store/shard.go and shard_locks.go: routing and shard locks

    [shardIndex] is FNV-1a over [uint64] with wrap-around, masked to the shard
    count.  [lockWriteShards] returns the shard ids of a multi-key command in
    the order in which their locks are taken; the theorem says that the order is
    strictly increasing and that the ids are exactly those of the keys. *)

From stdpp Require Import base gmap list sorting strings.
From Stdlib Require Import ZArith Lia.
From Stdlib Require Import Strings.Byte.
From S2P Require Import Prelude.
From S2P Require Import GoStrconv.

#[local] Open Scope Z_scope.

Definition shardCount : Z := 32.

Definition offset64 : Z := 14695981039346656037.
Definition prime64 : Z := 1099511628211.

Definition fnv_step (h : Z) (c : byte) : Z := wrapU64 (Z.lxor h (byteZ c) * prime64).

Definition shardIndex (key : bytes) : Z :=
  Z.land (foldl fnv_step offset64 key) (shardCount - 1) mod 2 ^ 8.

(** The loop of [lockWriteShards] that collects the ids, first occurrences only. *)
Fixpoint collectIds (keys : list bytes) (seen : gset Z) (ids : list Z) : list Z :=
  match keys with
  | [] => ids
  | key :: keys' =>
      let id := shardIndex key in
      if decide (id ∈ seen) then collectIds keys' seen ids
      else collectIds keys' ({[id]} ∪ seen) (ids ++ [id])
  end.

(** The ids in the order in which [lockWriteShards] takes their locks. *)
Definition lockWriteShards (keys : list bytes) : list Z :=
  merge_sort Z.le (collectIds keys ∅ []).

(** The ids in the order in which [unlockWriteShards] releases them. *)
Definition unlockWriteShards (ids : list Z) : list Z := reverse ids.

(** ** Routing *)

Lemma land_31_range z : 0 <= Z.land z 31 < 32.
Proof. change 31 with (Z.ones 5). rewrite Z.land_ones by lia. apply Z.mod_pos_bound. lia. Qed.

Lemma shardIndex_range key : 0 <= shardIndex key < shardCount.
Proof.
  unfold shardIndex, shardCount.
  pose proof (land_31_range (foldl fnv_step offset64 key)).
  rewrite Z.mod_small; [done|]. change (32 - 1) with 31. change (2 ^ 8) with 256. lia.
Qed.

(** ** Lock order *)

Lemma collectIds_elem keys seen ids id :
  (forall x, x ∈ seen <-> x ∈ ids) ->
  id ∈ collectIds keys seen ids <-> id ∈ ids \/ id ∈ shardIndex <$> keys.
Proof.
  revert seen ids. induction keys as [|k keys IH]; intros seen ids Hs; simpl.
  { split; [by left|]. intros [?|H]; [done|]. by apply elem_of_nil in H. }
  rewrite elem_of_cons. case_decide as Hd.
  - rewrite IH by done. apply Hs in Hd. split; [tauto|]. intros [?|[->|?]]; tauto.
  - rewrite IH by set_solver. rewrite elem_of_app, list_elem_of_singleton. tauto.
Qed.

Lemma collectIds_NoDup keys seen ids :
  (forall x, x ∈ seen <-> x ∈ ids) -> NoDup ids -> NoDup (collectIds keys seen ids).
Proof.
  revert seen ids. induction keys as [|k keys IH]; intros seen ids Hs Hn; simpl; [done|].
  case_decide as Hd; [by apply IH|]. apply IH; [set_solver|].
  apply NoDup_app. split; [done|]. split; [|apply NoDup_singleton].
  intros x Hx ->%list_elem_of_singleton. by apply Hd, Hs.
Qed.

Lemma StronglySorted_strict l :
  StronglySorted Z.le l -> NoDup l -> StronglySorted Z.lt l.
Proof.
  induction 1 as [|x l Hl IH Hx]; intros Hnd; [constructor|].
  apply NoDup_cons in Hnd as [Hnx Hnd]. constructor; [by apply IH|].
  rewrite Forall_forall in Hx |- *. intros y Hy.
  specialize (Hx y Hy). assert (x <> y) by (intros ->; done). lia.
Qed.

Lemma collected_permutation keys : lockWriteShards keys ≡ₚ collectIds keys ∅ [].
Proof. apply merge_sort_Permutation. Qed.

Lemma lockWriteShards_sorted keys : StronglySorted Z.lt (lockWriteShards keys).
Proof.
  apply StronglySorted_strict; [apply StronglySorted_merge_sort; apply _|].
  rewrite collected_permutation. apply collectIds_NoDup; [set_solver|constructor].
Qed.

Lemma lockWriteShards_elem keys id :
  id ∈ lockWriteShards keys <-> exists key, key ∈ keys /\ shardIndex key = id.
Proof.
  rewrite collected_permutation, collectIds_elem by set_solver.
  rewrite list_elem_of_fmap. set_solver.
Qed.

Lemma lockWriteShards_range keys :
  Forall (fun id => 0 <= id < shardCount) (lockWriteShards keys).
Proof.
  apply Forall_forall. intros id [key [_ <-]]%lockWriteShards_elem. apply shardIndex_range.
Qed.

(** Deadlock prevention: for any batch of keys, in any order and with any
    duplicates, [lockWriteShards] takes each lock it needs once, in strictly
    increasing shard order, takes exactly the shards that own the keys, and only
    shards that exist. *)
Theorem lockWriteShards_ordered (keys : list bytes) :
  StronglySorted Z.lt (lockWriteShards keys) /\
  (forall id, id ∈ lockWriteShards keys <-> exists key, key ∈ keys /\ shardIndex key = id) /\
  Forall (fun id => 0 <= id < shardCount) (lockWriteShards keys).
Proof.
  split; [apply lockWriteShards_sorted|]. split; [apply lockWriteShards_elem|].
  apply lockWriteShards_range.
Qed.

Example shardIndex_examples :
  shardIndex (bs "") = 5 /\ lockWriteShards [bs "a"; bs "b"; bs "a"] = [5; 12].
Proof. vm_compute. done. Qed.
