(* ===== verification/Locks.v ===== *)
(** * The locks of the store and of the log

    Three kinds of lock: the durable-commit gate [commitMu], taken only when a journal is
    attached; an [RWMutex] for each shard; and the mutex of the log.  [locksOf] is what each
    operation of store.go, evict.go, expire.go and aof.go locks and unlocks, in its
    order; what it does while it holds a lock is modelled elsewhere.

    [lockstep] interleaves any number of goroutines that call them.  A reader waits for the
    writers that are waiting, as Go's [RWMutex] makes it.  No interleaving deadlocks, because
    every operation takes its locks in increasing [rank]. *)

From stdpp Require Import base gmap list sorting relations strings.
From Stdlib Require Import ZArith Lia.
From S2P Require Import Prelude.
From S2P Require Import Shard.

#[local] Open Scope Z_scope.

Inductive lock : Type := Gate | ShardLock (i : Z) | LogLock.

#[export] Instance lock_eq_dec : EqDecision lock.
Proof. solve_decision. Defined.

(** [w] says whether the lock is taken for writing; mutexes always are. *)
Inductive action : Type := Acq (l : lock) (w : bool) | Rel (l : lock) (w : bool).

(** ** What the operations lock *)

Definition reading (i : Z) : list action := [Acq (ShardLock i) false; Rel (ShardLock i) false].
Definition writing (i : Z) : list action := [Acq (ShardLock i) true; Rel (ShardLock i) true].
Definition logging : list action := [Acq LogLock true; Rel LogLock true].

(** The shards from 0 on. *)
Definition shardsUpTo (n : nat) : list Z := Z.of_nat <$> seq 0 (Nat.min n (Z.to_nat shardCount)).
Definition allShards : list Z := shardsUpTo (Z.to_nat shardCount).

(** A call of an operation, with what decides how far it goes. *)
Inductive call : Type :=
| CallGet (key : bytes) (expired : bool)
| CallSet (key : bytes)
| CallBatch (keys : list bytes) (changed : bool)          (* MSet, Del *)
| CallUpdate (key : bytes) (expired stored : bool)        (* Increment, Append *)
| CallExpireAt (key : bytes) (changed : bool)
| CallTTL (key : bytes)
| CallExists (keys : list bytes)
| CallScan                                                (* Len, DBSize, Used *)
| CallSnapshot                                            (* AOFSnapshot, which calls Len *)
| CallEnforce (over : bool) (victims : list (nat * bytes)) (* shards sampled, key *)
    (stuck : bool)                                        (* the last pick finds nothing *)
| CallSample (visited : nat)                              (* expireSample *)
| CallLog.                                                (* the methods of Log *)

Section Programs.
Context (durable : bool).

Definition lockDurableMutation : list action := if durable then [Acq Gate true] else [].
Definition unlockDurableMutation : list action := if durable then [Rel Gate true] else [].
Definition guarded (p : list action) : list action :=
  lockDurableMutation ++ p ++ unlockDurableMutation.

Definition propagating : list action := if durable then logging else [].

Definition scanning : list action := concat (reading <$> allShards).

(** One round of the loop of [EnforceMemoryLimit]. *)
Definition evicting (v : nat * bytes) : list action :=
  scanning ++ concat (reading <$> shardsUpTo v.1) ++ writing (shardIndex v.2) ++ propagating.

Definition GetLocks (key : bytes) (expired : bool) : list action :=
  reading (shardIndex key) ++ (if expired then writing (shardIndex key) else []).

Definition setLocks (key : bytes) : list action :=
  guarded (writing (shardIndex key) ++ propagating).

(** [MSet] and [Del] release the gate before the shards. *)
Definition batchLocks (keys : list bytes) (changed : bool) : list action :=
  let ids := lockWriteShards keys in
  lockDurableMutation ++ ((fun i => Acq (ShardLock i) true) <$> ids)
  ++ (if changed then propagating else [])
  ++ unlockDurableMutation ++ ((fun i => Rel (ShardLock i) true) <$> unlockWriteShards ids).

(** [Increment] and [Append]; [Increment] may refuse to store. *)
Definition updateLocks (key : bytes) (expired stored : bool) : list action :=
  guarded (reading (shardIndex key)
    ++ (if expired then writing (shardIndex key) else [])
    ++ (if stored then writing (shardIndex key) ++ propagating else [])).

Definition ExpireAtLocks (key : bytes) (changed : bool) : list action :=
  guarded ([Acq (ShardLock (shardIndex key)) true]
    ++ (if changed then propagating else [])
    ++ [Rel (ShardLock (shardIndex key)) true]).

Definition TTLLocks (key : bytes) : list action := reading (shardIndex key).

Definition ExistsLocks (keys : list bytes) : list action :=
  concat ((fun k => reading (shardIndex k)) <$> keys).

(** The last pick finds no victim when [stuck]; it has looked at every shard. *)
Definition EnforceLocks (over : bool) (victims : list (nat * bytes)) (stuck : bool) : list action :=
  guarded (scanning
    ++ (if over then concat (evicting <$> victims) ++ scanning
                     ++ (if stuck then scanning else []) else [])).

Definition sampleLocks (visited : nat) : list action := concat (writing <$> shardsUpTo visited).

Definition locksOf (c : call) : list action :=
  match c with
  | CallGet key expired => GetLocks key expired
  | CallSet key => setLocks key
  | CallBatch keys changed => batchLocks keys changed
  | CallUpdate key expired stored => updateLocks key expired stored
  | CallExpireAt key changed => ExpireAtLocks key changed
  | CallTTL key => TTLLocks key
  | CallExists keys => ExistsLocks keys
  | CallScan => scanning
  | CallSnapshot => scanning ++ scanning
  | CallEnforce over victims stuck => EnforceLocks over victims stuck
  | CallSample visited => sampleLocks visited
  | CallLog => logging
  end.
End Programs.

(** ** Goroutines *)

(** What a goroutine holds, and what it has still to do. *)
Record thread : Type := mkThread { held : list (lock * bool); todo : list action }.

(** Another goroutine excludes [l]: it holds it, unless both read; or, when [polite], it is
    about to take it for writing and we want to read. *)
Definition excludes (polite : bool) (l : lock) (w : bool) (t : thread) : bool :=
  bool_decide ((l, true) ∈ held t) ||
  (w && bool_decide ((l, false) ∈ held t)) ||
  (polite && negb w && match todo t with Acq l' true :: _ => bool_decide (l' = l) | _ => false end).

(** A goroutine takes its next lock when nobody excludes it, itself included, or releases it.
    When a reader waits for a writer depends on the moment at which the writer called
    [Lock]: [lockstep true] has only the steps that are possible whatever that moment was,
    [lockstep false] has those that are possible for some. *)
Inductive lockstep (polite : bool) : list thread -> list thread -> Prop :=
| L_acq ts i h l w rest :
    ts !! i = Some (mkThread h (Acq l w :: rest)) ->
    (forall j t, ts !! j = Some t -> j <> i -> excludes polite l w t = false) ->
    (l, true) ∉ h -> (l, false) ∉ h ->
    lockstep polite ts (<[i := mkThread ((l, w) :: h) rest]> ts)
| L_rel ts i h l w rest :
    ts !! i = Some (mkThread h (Rel l w :: rest)) ->
    lockstep polite ts (<[i := mkThread (filter (fun x => x <> (l, w)) h) rest]> ts).

(** A goroutine that is going to make some calls. *)
Definition calling (durable : bool) (cs : list call) : thread :=
  mkThread [] (concat (locksOf durable <$> cs)).

(** ** The order *)

Definition rank (l : lock) : Z :=
  match l with Gate => 0 | ShardLock i => 1 + i | LogLock => 1 + shardCount end.

Definition below (h : list (lock * bool)) (l : lock) : Prop := Forall (fun x => rank x.1 < rank l) h.

(** The goroutine takes locks in increasing rank, releases what it holds, and in the end
    holds nothing. *)
Fixpoint ordered (h : list (lock * bool)) (p : list action) : Prop :=
  match p with
  | [] => h = []
  | Acq l w :: p' => below h l /\ ordered ((l, w) :: h) p'
  | Rel l w :: p' => (l, w) ∈ h /\ ordered (filter (fun x => x <> (l, w)) h) p'
  end.

(** [p] can be done while holding [h], and leaves [h]. *)
Definition neutral (h : list (lock * bool)) (p : list action) : Prop :=
  forall q, ordered h q -> ordered h (p ++ q).

Lemma neutral_nil h : neutral h [].
Proof. by intros q Hq. Qed.

Lemma neutral_app h p q : neutral h p -> neutral h q -> neutral h (p ++ q).
Proof. intros Hp Hq r Hr. rewrite <- app_assoc. by apply Hp, Hq. Qed.

Lemma neutral_concat {A} h (f : A -> list action) xs :
  (forall x, x ∈ xs -> neutral h (f x)) -> neutral h (concat (f <$> xs)).
Proof.
  induction xs as [|x xs IH]; intros H; [apply neutral_nil|]. rewrite fmap_cons. cbn [concat].
  apply neutral_app; [apply H; by left|]. apply IH. intros y Hy. apply H. by right.
Qed.

Lemma filter_others (x : lock * bool) (h : list (lock * bool)) : x ∉ h -> filter (fun y => y <> x) h = h.
Proof.
  induction h as [|y h IH]; intros Hx; [done|]. apply not_elem_of_cons in Hx as [Hxy Hx].
  by rewrite filter_cons, decide_True, IH by congruence.
Qed.

Lemma below_not_in h l w : below h l -> (l, w) ∉ h.
Proof. unfold below. rewrite Forall_forall. intros Hb Hin. specialize (Hb _ Hin). simpl in Hb. lia. Qed.

Lemma filter_drop (x : lock * bool) (h : list (lock * bool)) : x ∉ h -> filter (fun y => y <> x) (x :: h) = h.
Proof.
  intros Hx. rewrite filter_cons, decide_False by (intros Hn; by apply Hn). by apply filter_others.
Qed.

Lemma filter_top h l w : below h l -> filter (fun x => x <> (l, w)) ((l, w) :: h) = h.
Proof. intros Hb. by apply filter_drop, below_not_in. Qed.

Lemma neutral_pair h l w : below h l -> neutral h [Acq l w; Rel l w].
Proof.
  intros Hb q Hq. simpl. split; [done|]. split; [by left|]. by rewrite filter_top.
Qed.

Lemma neutral_under h l w p :
  below h l -> neutral ((l, w) :: h) p -> neutral h ([Acq l w] ++ p ++ [Rel l w]).
Proof.
  intros Hb Hp q Hq. rewrite <- !app_assoc. simpl. split; [done|]. apply Hp. simpl. split; [by left|].
  by rewrite filter_top.
Qed.

Lemma below_nil l : below [] l.
Proof. constructor. Qed.

Lemma below_cons l' w h l : rank l' < rank l -> below h l -> below ((l', w) :: h) l.
Proof. by constructor. Qed.

Lemma rank_shard key : 0 < rank (ShardLock (shardIndex key)) < 1 + shardCount.
Proof. pose proof (shardIndex_range key). simpl. lia. Qed.

Lemma shardsUpTo_range n i : i ∈ shardsUpTo n -> 0 <= i < shardCount.
Proof.
  unfold shardsUpTo. rewrite list_elem_of_fmap. intros (j & -> & Hj%elem_of_seq).
  unfold shardCount in *. lia.
Qed.

(** ** Every operation is neutral *)

Lemma below_gate l : 0 < rank l -> below [(Gate, true)] l.
Proof. intros Hl. apply below_cons; [done|apply below_nil]. Qed.

Lemma neutral_reading h i : below h (ShardLock i) -> neutral h (reading i).
Proof. apply neutral_pair. Qed.

Lemma neutral_writing h i : below h (ShardLock i) -> neutral h (writing i).
Proof. apply neutral_pair. Qed.

Lemma neutral_if h (b : bool) p : neutral h p -> neutral h (if b then p else []).
Proof. destruct b; [done|intros _; apply neutral_nil]. Qed.

Lemma neutral_propagating h durable : below h LogLock -> neutral h (propagating durable).
Proof. intros Hb. by apply neutral_if, neutral_pair. Qed.

(** What is held under the gate: nothing, or the gate. *)
Definition gated (durable : bool) : list (lock * bool) := if durable then [(Gate, true)] else [].

Lemma gated_below durable l : 0 < rank l -> below (gated durable) l.
Proof. destruct durable; [apply below_gate|intros _; apply below_nil]. Qed.

Lemma neutral_gated durable p :
  neutral (gated durable) p ->
  neutral [] (guarded durable p).
Proof.
  destruct durable; cbn; [|by rewrite app_nil_r].
  intros Hp. apply (neutral_under [] Gate true p (below_nil _) Hp).
Qed.

Lemma gated_shard durable key : below (gated durable) (ShardLock (shardIndex key)).
Proof. apply gated_below. apply rank_shard. Qed.

Lemma gated_log durable : below (gated durable) LogLock.
Proof. by apply gated_below. Qed.

Lemma neutral_shards h n (f : Z -> list action) :
  (forall i, 0 <= i < shardCount -> neutral h (f i)) -> neutral h (concat (f <$> shardsUpTo n)).
Proof. intros Hf. apply neutral_concat. intros i Hi%shardsUpTo_range. by apply Hf. Qed.

Lemma neutral_scanning durable : neutral (gated durable) scanning.
Proof.
  apply neutral_shards. intros i Hi. apply neutral_reading, gated_below. simpl. lia.
Qed.

(** The locks of [MSet] and [Del] are not nested: the gate is released first. *)

Definition holding (ids : list Z) : list (lock * bool) := (fun i => (ShardLock i, true)) <$> ids.

Lemma ordered_acquire h ids q :
  StronglySorted Z.lt ids -> Forall (fun i => below h (ShardLock i)) ids ->
  ordered (holding (reverse ids) ++ h) q ->
  ordered h (((fun i => Acq (ShardLock i) true) <$> ids) ++ q).
Proof.
  intros Hs. revert h. induction Hs as [|i ids Hs IH Hi]; intros h Hb Hq; [done|].
  apply Forall_cons in Hb as [Hb Hbs]. cbn. split; [done|]. apply IH.
  - rewrite Forall_forall in Hi, Hbs |- *. intros j Hj. apply below_cons; [simpl|by apply Hbs].
    specialize (Hi j Hj). lia.
  - unfold holding in *. by rewrite reverse_cons, fmap_app, <- app_assoc in Hq.
Qed.

Lemma holding_not_in ids i : i ∉ ids -> (ShardLock i, true) ∉ holding ids.
Proof. intros Hi (j & [= ->] & Hj)%list_elem_of_fmap. done. Qed.

Lemma ordered_release ids q :
  NoDup ids -> ordered [] q ->
  ordered (holding ids) (((fun i => Rel (ShardLock i) true) <$> ids) ++ q).
Proof.
  intros Hn Hq. induction Hn as [|i ids Hi Hn IH]; [done|].
  change (holding (i :: ids)) with ((ShardLock i, true) :: holding ids).
  split; [by left|]. by rewrite filter_drop by (by apply holding_not_in).
Qed.

Lemma holding_below ids h :
  Forall (fun i => 0 <= i < shardCount) ids -> below h LogLock -> below (holding ids ++ h) LogLock.
Proof.
  intros Hids Hh. apply Forall_app. split; [|done]. apply Forall_fmap.
  eapply Forall_impl; [exact Hids|]. simpl. unfold shardCount. lia.
Qed.

Lemma release_gate durable ids q :
  ordered (holding ids) q ->
  ordered (holding ids ++ gated durable) (unlockDurableMutation durable ++ q).
Proof.
  destruct durable; cbn [gated unlockDurableMutation app]; [|by rewrite app_nil_r].
  intros Hq. split; [set_solver|]. rewrite filter_app, filter_others, filter_drop, app_nil_r; [done|..].
  - by intros ?%elem_of_nil.
  - by intros (j & [=] & _)%list_elem_of_fmap.
Qed.

Lemma neutral_batch durable keys changed : neutral [] (locksOf durable (CallBatch keys changed)).
Proof.
  intros q Hq. cbn [locksOf]. unfold batchLocks. set (ids := lockWriteShards keys).
  assert (Forall (fun i => 0 <= i < shardCount) ids) as Hr by apply lockWriteShards_range.
  assert (StronglySorted Z.lt ids) as Hs by apply lockWriteShards_sorted.
  assert (ordered (gated durable)
    (((fun i => Acq (ShardLock i) true) <$> ids) ++ (if changed then propagating durable else [])
     ++ unlockDurableMutation durable
     ++ ((fun i => Rel (ShardLock i) true) <$> unlockWriteShards ids) ++ q)) as Ho.
  { apply ordered_acquire; [done| |].
    - eapply Forall_impl; [exact Hr|]. intros i Hi. apply gated_below. simpl in *. lia.
    - apply neutral_if.
      + apply neutral_propagating, holding_below; [by apply Forall_reverse|apply gated_log].
      + apply release_gate, ordered_release; [|done]. unfold unlockWriteShards. rewrite reverse_Permutation.
        unfold ids. rewrite collected_permutation. apply collectIds_NoDup; [set_solver|constructor]. }
  rewrite <- !app_assoc.
  destruct durable; [split; [apply below_nil|exact Ho]|exact Ho].
Qed.

Lemma neutral_evicting durable v : neutral (gated durable) (evicting durable v).
Proof.
  apply neutral_app; [apply neutral_scanning|]. apply neutral_app; [|apply neutral_app].
  - apply neutral_shards. intros i Hi. apply neutral_reading, gated_below. simpl. lia.
  - apply neutral_writing, gated_shard.
  - apply neutral_propagating, gated_log.
Qed.

Lemma neutral_update durable key expired stored :
  neutral [] (locksOf durable (CallUpdate key expired stored)).
Proof.
  apply neutral_gated. apply neutral_app; [apply neutral_reading, gated_shard|].
  apply neutral_app; apply neutral_if; [apply neutral_writing, gated_shard|].
  apply neutral_app; [apply neutral_writing, gated_shard|apply neutral_propagating, gated_log].
Qed.

Lemma neutral_enforce durable over vs stuck :
  neutral [] (locksOf durable (CallEnforce over vs stuck)).
Proof.
  apply neutral_gated. apply neutral_app; [apply neutral_scanning|]. apply neutral_if.
  apply neutral_app; [apply neutral_concat; intros v _; apply neutral_evicting|].
  apply neutral_app; [apply neutral_scanning|apply neutral_if, neutral_scanning].
Qed.

Lemma neutral_locksOf durable c : neutral [] (locksOf durable c).
Proof.
  assert (neutral [] scanning) as Hscan by apply (neutral_scanning false).
  destruct c as [key expired|key|keys changed|key expired stored|key changed|key|keys| | |over vs stuck|n| ].
  - apply neutral_app; [apply neutral_reading, below_nil|]. apply neutral_if, neutral_writing, below_nil.
  - apply neutral_gated, neutral_app; [apply neutral_writing, gated_shard|].
    apply neutral_propagating, gated_log.
  - apply neutral_batch.
  - apply neutral_update.
  - apply neutral_gated, neutral_under; [apply gated_shard|]. apply neutral_if, neutral_propagating.
    apply below_cons; [apply rank_shard|apply gated_log].
  - apply neutral_reading, below_nil.
  - apply neutral_concat. intros k _. apply neutral_reading, below_nil.
  - done.
  - by apply neutral_app.
  - apply neutral_enforce.
  - apply neutral_shards. intros i Hi. apply neutral_writing, below_nil.
  - apply neutral_pair, below_nil.
Qed.

Lemma ordered_calling durable cs : ordered [] (todo (calling durable cs)).
Proof.
  rewrite <- (app_nil_r (todo _)). apply neutral_concat; [|done]. intros c _. apply neutral_locksOf.
Qed.

(** ** What every interleaving keeps *)

(** Two goroutines hold the same lock only if both read. *)
Definition exclusive (ts : list thread) : Prop :=
  forall i j t u l w, ts !! i = Some t -> ts !! j = Some u -> i <> j ->
  (l, true) ∈ held t -> (l, w) ∉ held u.

Definition remaining (ts : list thread) : nat := sum_list (length ∘ todo <$> ts).

Definition disciplined (ts : list thread) : Prop :=
  Forall (fun t => ordered (held t) (todo t)) ts /\ exclusive ts.

Lemma not_excludes polite l w t :
  excludes polite l w t = false -> (l, true) ∉ held t /\ (w = true -> (l, false) ∉ held t).
Proof.
  unfold excludes. intros H. apply orb_false_iff in H as [[H1 H2]%orb_false_iff _].
  apply bool_decide_eq_false in H1. split; [done|]. intros ->. by apply bool_decide_eq_false in H2.
Qed.

Lemma remaining_insert ts i t t' :
  ts !! i = Some t ->
  (remaining (<[i := t']> ts) + length (todo t) = remaining ts + length (todo t'))%nat.
Proof.
  unfold remaining. revert i. induction ts as [|u ts IH]; intros [|i] Hi; simplify_eq/=; [lia|].
  specialize (IH i Hi). lia.
Qed.

Lemma exclusive_insert ts i t h rest :
  exclusive ts -> ts !! i = Some t ->
  (forall l w j u, (l, w) ∈ h -> ts !! j = Some u -> j <> i ->
     (l, w) ∈ held t \/ ((l, true) ∉ held u /\ (w = true -> (l, false) ∉ held u))) ->
  exclusive (<[i := mkThread h rest]> ts).
Proof.
  intros Hx Hi Hh j k u v l w Hu Hv Hjk Hl Hw.
  assert (i < length ts)%nat as Hlt by by eapply lookup_lt_Some.
  destruct (decide (j = i)) as [->|Hj]; [|destruct (decide (k = i)) as [->|Hk]].
  - rewrite list_lookup_insert_eq in Hu by done. rewrite list_lookup_insert_ne in Hv by done.
    simplify_eq/=. destruct (Hh l true k v) as [?|[? Hf]]; [done..| |]; [by eapply (Hx i k)|].
    destruct w; [done|]. by apply Hf.
  - rewrite list_lookup_insert_eq in Hv by done. rewrite list_lookup_insert_ne in Hu by done.
    simplify_eq/=. destruct (Hh l w j u) as [?|[? _]]; [done..| |done]. by eapply (Hx j i).
  - rewrite list_lookup_insert_ne in Hu, Hv by done. by eapply (Hx j k).
Qed.

Lemma lockstep_keeps polite ts ts' :
  lockstep polite ts ts' -> disciplined ts ->
  disciplined ts' /\ S (remaining ts') = remaining ts.
Proof.
  intros Hstep [Ho Hx]. destruct Hstep as [ts i h l w rest Hi Hno _ _|ts i h l w rest Hi].
  - pose proof (Forall_lookup_1 _ _ _ _ Ho Hi) as [Hb Hr]. repeat split.
    + by apply Forall_insert.
    + eapply exclusive_insert; [done..|]. intros l' w' j u Hin Hu Hji.
      apply elem_of_cons in Hin as [[= -> ->]|Hin]; [|by left]. right.
      by eapply not_excludes, Hno.
    + pose proof (remaining_insert _ _ _ (mkThread ((l, w) :: h) rest) Hi) as Hn. simpl in Hn. lia.
  - pose proof (Forall_lookup_1 _ _ _ _ Ho Hi) as [Hb Hr]. repeat split.
    + by apply Forall_insert.
    + eapply exclusive_insert; [done..|]. intros l' w' j u Hin Hu Hji. left.
      by apply list_elem_of_filter in Hin as [_ Hin].
    + pose proof (remaining_insert _ _ _ (mkThread (filter (fun x => x <> (l, w)) h) rest) Hi) as Hn.
      simpl in Hn. lia.
Qed.

(** ** Progress *)

(** The lock that a goroutine is waiting for. *)
Definition wants (t : thread) : option (lock * bool) :=
  match todo t with Acq l w :: _ => Some (l, w) | _ => None end.

Definition releases (t : thread) : bool := match todo t with Rel _ _ :: _ => true | _ => false end.

Lemma highest_wanted (ts : list thread) :
  (exists t, t ∈ ts /\ wants t <> None) ->
  exists i t l w, ts !! i = Some t /\ wants t = Some (l, w) /\
    (forall u l' w', u ∈ ts -> wants u = Some (l', w') -> rank l' <= rank l).
Proof.
  induction ts as [|t ts IH]; intros (u & Hu & Hw); [by apply elem_of_nil in Hu|].
  assert ((exists u, u ∈ ts /\ wants u <> None) \/ (forall u, u ∈ ts -> wants u = None)) as [Hts|Hts].
  { destruct (decide (Exists (fun u => wants u <> None) ts)) as [He|He]; [left; by apply Exists_exists|].
    right. intros v Hv. destruct (wants v) eqn:E; [|done].
    exfalso. apply He, Exists_exists. exists v. by rewrite E. }
  - destruct (IH Hts) as (i & v & l & w & Hi & Hv & Hmax).
    destruct (wants t) as [[lt wt]|] eqn:Et; [destruct (decide (rank l <= rank lt)) as [Hle|Hle]|].
    + exists O, t, lt, wt. split_and!; [done..|]. intros x l' w' [->|Hx]%elem_of_cons Hwx.
      * rewrite Et in Hwx. by simplify_eq.
      * specialize (Hmax x l' w' Hx Hwx). lia.
    + exists (S i), v, l, w. split_and!; [done..|]. intros x l' w' [->|Hx]%elem_of_cons Hwx.
      * rewrite Et in Hwx. simplify_eq. lia.
      * by eapply Hmax.
    + exists (S i), v, l, w. split_and!; [done..|]. intros x l' w' [->|Hx]%elem_of_cons Hwx.
      * congruence.
      * by eapply Hmax.
  - apply elem_of_cons in Hu as [->|Hu]; [|by rewrite Hts in Hw].
    destruct (wants t) as [[lt wt]|] eqn:Et; [|done].
    exists O, t, lt, wt. split_and!; [done..|]. intros x l' w' [->|Hx]%elem_of_cons Hwx.
    + rewrite Et in Hwx. by simplify_eq.
    + by rewrite Hts in Hwx.
Qed.

Lemma rank_inj_below h l l' w : below h l' -> rank l' <= rank l -> (l, w) ∉ h.
Proof.
  unfold below. rewrite Forall_forall. intros Hb Hl Hin. specialize (Hb _ Hin). simpl in Hb. lia.
Qed.

(** A goroutine that is blocked on a lock holds only lower ones; one that is done, none. *)
Lemma waiting_holds t l w :
  ordered (held t) (todo t) ->
  (forall l' w', wants t = Some (l', w') -> rank l' <= rank l) ->
  (forall l' w' rest, todo t <> Rel l' w' :: rest) -> (l, w) ∉ held t.
Proof.
  unfold wants. intros Ho Hw Hr. destruct (todo t) as [|[l' w'|l' w'] rest] eqn:E.
  - rewrite Ho. by intros ?%elem_of_nil.
  - destruct Ho as [Hb _]. eapply rank_inj_below; [done|]. by eapply Hw.
  - by destruct (Hr l' w' rest).
Qed.

Lemma wants_todo t l w : wants t = Some (l, w) -> exists rest, t = mkThread (held t) (Acq l w :: rest).
Proof.
  unfold wants. destruct t as [h [|[l' w'|l' w'] rest]]; intros; simplify_eq/=. by exists rest.
Qed.

(** Nobody holds the highest lock that is wanted, so a writer that wants it can take it. *)
Lemma writer_steps (ts : list thread) i t l :
  (forall u w, u ∈ ts -> (l, w) ∉ held u) ->
  ts !! i = Some t -> wants t = Some (l, true) -> exists ts', lockstep true ts ts'.
Proof.
  intros Hfree Hi Hw. destruct (wants_todo _ _ _ Hw) as [rest Ht]. eexists.
  assert (t ∈ ts) as Hin by by eapply list_elem_of_lookup_2.
  eapply (L_acq true ts i (held t) l true rest); [by rewrite <- Ht| |by apply Hfree..].
  intros j u Hj _. apply list_elem_of_lookup_2 in Hj. unfold excludes.
  rewrite !bool_decide_eq_false_2 by (by apply Hfree). done.
Qed.

Lemma disciplined_progress ts :
  disciplined ts -> Forall (fun t => todo t = []) ts \/ exists ts', lockstep true ts ts'.
Proof.
  intros [Ho _]. destruct (decide (Forall (fun t => todo t = []) ts)) as [?|Hn]; [by left|]. right.
  destruct (decide (Exists (fun t => releases t = true) ts))
    as [(t & [i Hi]%list_elem_of_lookup & Ht)%Exists_exists|Hnr].
  { destruct t as [h [|[l w|l w] rest]]; [discriminate..|]. eexists. by eapply L_rel. }
  assert (forall t l w rest, t ∈ ts -> todo t <> Rel l w :: rest) as Hacq.
  { intros t l w rest Ht E. apply Hnr, Exists_exists. exists t. unfold releases. by rewrite E. }
  destruct (highest_wanted ts) as (i & t & l & w & Hi & Ht & Hmax).
  { apply not_Forall_Exists in Hn; [|apply _]. apply Exists_exists in Hn as (t & Ht & Hne).
    exists t. split; [done|]. unfold wants. destruct (todo t) as [|[]] eqn:E; [done..|].
    by destruct (Hacq t l w l0 Ht). }
  assert (forall u w, u ∈ ts -> (l, w) ∉ held u) as Hfree.
  { intros u w' Hu. rewrite Forall_forall in Ho. apply waiting_holds; [by apply Ho| |].
    - intros l' w''. by apply Hmax.
    - intros l' w'' rest. by apply Hacq. }
  destruct w; [by eapply writer_steps|].
  destruct (decide (Exists (fun u => wants u = Some (l, true)) ts))
    as [(u & [j Hj]%list_elem_of_lookup & Hu)%Exists_exists|Hnw]; [by eapply writer_steps|].
  destruct (wants_todo _ _ _ Ht) as [rest Et]. eexists.
  eapply (L_acq true ts i (held t) l false rest); [by rewrite <- Et| |..].
  - intros j u Hj _. apply list_elem_of_lookup_2 in Hj. unfold excludes.
    rewrite bool_decide_eq_false_2 by (by apply Hfree). cbn.
    destruct (todo u) as [|[l' []|]] eqn:E; [done| |done..]. apply bool_decide_eq_false_2. intros ->.
    apply Hnw, Exists_exists. exists u. unfold wants. by rewrite E.
  - by eapply Hfree, list_elem_of_lookup_2.
  - by eapply Hfree, list_elem_of_lookup_2.
Qed.

(** ** The theorem *)

Lemma disciplined_start durable css : disciplined (calling durable <$> css).
Proof.
  split.
  - apply Forall_fmap, Forall_true. intros cs. apply ordered_calling.
  - intros i j t u l w Ht Hu _ Hl. apply list_lookup_fmap_Some in Ht as (cs & -> & _).
    by apply elem_of_nil in Hl.
Qed.

Lemma run_keeps polite n ts ts' :
  nsteps (lockstep polite) n ts ts' -> disciplined ts ->
  disciplined ts' /\ (n + remaining ts' = remaining ts)%nat.
Proof.
  induction 1 as [|n ts ts1 ts2 Hstep _ IH]; intros Hd; [done|].
  destruct (lockstep_keeps _ _ _ Hstep Hd) as [Hd1 Hr]. destruct (IH Hd1). split; [done|]. lia.
Qed.

(** C17. No deadlock, and mutual exclusion. Any number of goroutines make any calls of the
    store and of the log, with or without a journal, and their locks and unlocks interleave
    in any way, readers waiting for pending writers or not. Then after [n] steps exactly [n] of the
    locks and unlocks to do are done, so that every interleaving ends; two goroutines hold
    the same lock only if both read; and either every call is complete or some goroutine can take
    the next step whatever its writers are waiting for. *)
Theorem no_deadlock (durable : bool) (css : list (list call)) (n : nat) (ts : list thread)
    (Hrun : nsteps (lockstep false) n (calling durable <$> css) ts) :
  (n + remaining ts = remaining (calling durable <$> css))%nat /\
  exclusive ts /\
  (Forall (fun t => todo t = [] /\ held t = []) ts \/ exists ts', lockstep true ts ts').
Proof.
  destruct (run_keeps _ _ _ _ Hrun (disciplined_start durable css)) as [Hd Hn].
  pose proof Hd as [Ho Hx]. split_and!; [done..|].
  destruct (disciplined_progress ts Hd) as [Hdone|?]; [left|by right].
  rewrite Forall_forall in Ho, Hdone |- *. intros t Ht. specialize (Ho t Ht). rewrite Hdone in * by done.
  done.
Qed.

(** Two clients with the same keys in opposite orders, a reader and the sampler: the first
    takes the gate. *)
Definition clients : list (list call) :=
  [[CallBatch [bs "a"; bs "b"] true]; [CallBatch [bs "b"; bs "a"] true];
   [CallGet (bs "a") true]; [CallSample 2; CallLog]].

Definition gate_taken : list thread :=
  let ts := calling true <$> clients in
  match ts with t :: ts' => mkThread [(Gate, true)] (tail (todo t)) :: ts' | [] => [] end.

Lemma no_deadlock_witness :
  nsteps (lockstep false) 1 (calling true <$> clients) gate_taken /\
  (1 + remaining gate_taken = remaining (calling true <$> clients))%nat /\ exclusive gate_taken.
Proof.
  assert (nsteps (lockstep false) 1 (calling true <$> clients) gate_taken) as Hrun.
  { apply nsteps_once.
    refine (L_acq false (calling true <$> clients) 0 [] Gate true (tail (todo (calling true (hd [] clients))))
      _ _ _ _); [reflexivity| |by intros ?%elem_of_nil..].
    intros [|[|[|[|j]]]] t Hj Hne; simplify_eq/=; reflexivity. }
  split; [exact Hrun|]. destruct (no_deadlock true clients 1 gate_taken Hrun) as (Hn & Hx & _).
  split; [exact Hn|exact Hx].
Defined.
