(* ===== verification/Store.v ===== *)
(** * internal/store/store.go: the keyspace

    The state of [store.Store] and one definition per operation.  The store is
    an array of [shardCount] shards, each with its map, its index of volatile
    keys and its memory subtotal; the counters keep the width of Go's atomics.

    - [time.Now()] readings are arguments: an operation that reads the clock
      twice has two, in the order of the calls.
    - Ranging over a Go map visits its keys in an unspecified order; an
      operation that does has an argument [range], the order for each shard.
    - The journal is an interface in Go and the class [Journal] here; the store
      drops the error it returns, as [propagate] does.
    - Locks do not appear in these definitions, which give each operation's
      effect when it runs alone. *)

From stdpp Require Import base gmap list strings.
From Stdlib Require Import ZArith Lia.
From Stdlib Require Import Strings.Byte.
From S2P Require Import Prelude.
From S2P Require Import GoStrconv.
From S2P Require Import GoTime.
From S2P Require Import Shard.

#[local] Open Scope Z_scope.

(** ** Data *)

(** [store.Journal]. *)
Class Journal (J : Type) : Type := Journal_Append : list bytes -> J -> J * option error.

Record entry : Type := mkEntry {
  val : bytes;
  atime : Z;
  expiresAt : Time
}.

Definition expired (e : entry) (now : Time) : bool :=
  negb (IsZero (expiresAt e)) && negb (Before now (expiresAt e)).

Inductive TTLState : Type := KeyMissing | KeyPersistent | KeyVolatile.

Record readShard : Type := mkShard {
  data : gmap bytes entry;
  expiring : gset bytes;
  used : Z
}.

Record Stats : Type := mkStats {
  KeyspaceHits : Z;
  KeyspaceMisses : Z;
  EvictedKeys : Z;
  ExpiredKeys : Z
}.

Record Store (J : Type) : Type := mkStore {
  readShards : list readShard;
  journal : option J;
  maxMemory : Z;
  policy : bytes;
  clock : Z;
  stats : Stats
}.
Arguments mkStore {J}.
Arguments readShards {J}.
Arguments journal {J}.
Arguments maxMemory {J}.
Arguments policy {J}.
Arguments clock {J}.
Arguments stats {J}.

#[export] Instance readShard_inhabited : Inhabited readShard := populate (mkShard ∅ ∅ 0).

(** Commands as they appear in the journal. *)
Definition cmdSET : bytes := bs "SET".
Definition cmdMSET : bytes := bs "MSET".
Definition cmdDEL : bytes := bs "DEL".
Definition cmdPXAT : bytes := bs "PXAT".
Definition cmdPEXPIREAT : bytes := bs "PEXPIREAT".

Definition unixMillis (t : Time) : bytes := FormatInt (UnixMilli t).

(** evict.go: the size estimate of an entry. *)
Definition entryOverhead : Z := 128.
Definition entrySize (key v : bytes) : Z := lenZ key + lenZ v + entryOverhead.

Record Pair : Type := mkPair { Key : bytes; Value : bytes }.

(** [ErrNotInteger]. *)
Inductive IncrError : Type := ErrNotInteger.

Section Store.
Context {J : Type} `{!Journal J}.
Implicit Types s : Store J.

Definition New : Store J :=
  mkStore (replicate (Z.to_nat shardCount) (mkShard ∅ ∅ 0)) None 0 [] 0 (mkStats 0 0 0 0).

(** ** Field updates *)

Definition shardNo (key : bytes) : nat := Z.to_nat (shardIndex key).

(** [s.readShard(key)]. *)
Definition shardOf s (key : bytes) : readShard := readShards s !!! shardNo key.

(** Writing through the pointer [s.readShard(key)]. *)
Definition setShard (key : bytes) (sh : readShard) s : Store J :=
  mkStore (<[shardNo key := sh]> (readShards s)) (journal s) (maxMemory s) (policy s)
    (clock s) (stats s).

Definition setStats (st : Stats) s : Store J :=
  mkStore (readShards s) (journal s) (maxMemory s) (policy s) (clock s) st.

Definition SetJournal (j : J) s : Store J :=
  mkStore (readShards s) (Some j) (maxMemory s) (policy s) (clock s) (stats s).

Definition addHit s : Store J :=
  let st := stats s in
  setStats (mkStats (wrapU64 (KeyspaceHits st + 1)) (KeyspaceMisses st)
              (EvictedKeys st) (ExpiredKeys st)) s.
Definition addMiss s : Store J :=
  let st := stats s in
  setStats (mkStats (KeyspaceHits st) (wrapU64 (KeyspaceMisses st + 1))
              (EvictedKeys st) (ExpiredKeys st)) s.

(** ** Journalling *)

Definition propagate (args : list bytes) s : Store J :=
  match journal s with
  | None => s
  | Some j => SetJournal (Journal_Append args j).1 s
  end.

(** ** Writing and removing one key *)

Definition setLockedInWriteLockedShard (key v : bytes) (at_ : Time) s : Store J :=
  let sh := shardOf s key in
  let used1 := match data sh !! key with
               | Some old => wrap64 (used sh - entrySize key (val old))
               | None => used sh
               end in
  setShard key
    (mkShard (<[key := mkEntry v (clock s) at_]> (data sh))
             (if IsZero at_ then expiring sh ∖ {[key]} else {[key]} ∪ expiring sh)
             (wrap64 (used1 + entrySize key v))) s.

Definition deleteLockedInWriteLockedShard (key : bytes) s : Store J :=
  let sh := shardOf s key in
  let used1 := match data sh !! key with
               | Some e => wrap64 (used sh - entrySize key (val e))
               | None => used sh
               end in
  setShard key (mkShard (delete key (data sh)) (expiring sh ∖ {[key]}) used1) s.

(** The same under the shard's own lock. *)
Definition deleteLocked (key : bytes) s : Store J := deleteLockedInWriteLockedShard key s.

Definition propagateSetLocked (key v : bytes) (at_ : Time) s : Store J :=
  if IsZero at_ then propagate [cmdSET; key; v] s
  else propagate [cmdSET; key; v; cmdPXAT; unixMillis at_] s.

Definition setLocked (key v : bytes) (at_ : Time) s : Store J :=
  propagateSetLocked key v at_ (setLockedInWriteLockedShard key v at_ s).

Definition set (key v : bytes) (at_ : Time) s : Store J := setLocked key v at_ s.

(** ** Reads *)

(** The store of an atomic access time through the entry pointer. *)
Definition touch (key : bytes) (e : entry) s : Store J :=
  let sh := shardOf s key in
  setShard key
    (mkShard (<[key := mkEntry (val e) (clock s) (expiresAt e)]> (data sh))
             (expiring sh) (used sh)) s.

(** [Get]: [window] is what other clients do between the release of the read
    lock and the acquisition of the write lock, the point where the source calls
    [testHookExpiredWindow]. *)
Definition Get_with (window : Store J -> Store J) (now now' : Time) (key : bytes) s :
    Store J * option bytes :=
  match data (shardOf s key) !! key with
  | None => (addMiss s, None)
  | Some e =>
      if negb (expired e now) then (addHit (touch key e s), Some (val e))
      else
        let s1 := window s in
        match data (shardOf s1 key) !! key with
        | Some e' =>
            if expired e' now' then (deleteLockedInWriteLockedShard key s1, None)
            else (s1, None)
        | None => (s1, None)
        end
  end.

Definition Get : Time -> Time -> bytes -> Store J -> Store J * option bytes :=
  Get_with (fun s => s).

Definition TTL (now : Time) (key : bytes) s : Duration * TTLState :=
  match data (shardOf s key) !! key with
  | None => (0, KeyMissing)
  | Some e =>
      if negb (IsZero (expiresAt e)) && negb (Before now (expiresAt e)) then (0, KeyMissing)
      else if IsZero (expiresAt e) then (0, KeyPersistent)
      else (Time_Sub (expiresAt e) now, KeyVolatile)
  end.

Definition existsKey (now : Time) s (key : bytes) : bool :=
  match data (shardOf s key) !! key with
  | Some e => negb (expired e now)
  | None => false
  end.

Definition Exists (now : Time) (keys : list bytes) s : Z :=
  foldl (fun n k => if existsKey now s k then n + 1 else n) 0 keys.

Definition Len s : Z :=
  foldl (fun n sh => n + Z.of_nat (size (data sh))) 0 (readShards s).

Definition DBSize (now : Time) s : Z :=
  foldl (fun n sh =>
      map_fold (fun _ e m => if negb (expired e now) then m + 1 else m) n (data sh))
    0 (readShards s).

(** ** Deleting *)

(** The loop of [Del]: the keys removed so far, in order, and the count. *)
Fixpoint Del_loop (now : Time) (keys : list bytes) (removed : list bytes) (n : Z) s :
    Store J * list bytes * Z :=
  match keys with
  | [] => (s, removed, n)
  | k :: keys' =>
      match data (shardOf s k) !! k with
      | None => Del_loop now keys' removed n s
      | Some e =>
          Del_loop now keys' (removed ++ [k]) (if negb (expired e now) then n + 1 else n)
            (deleteLockedInWriteLockedShard k s)
      end
  end.

Definition Del (now : Time) (keys : list bytes) s : Store J * Z :=
  let '(s', removed, n) := Del_loop now keys [] 0 s in
  (if 1 <? lenZ (cmdDEL :: removed) then propagate (cmdDEL :: removed) s' else s', n).

(** ** Writes *)

Definition Set_ (key v : bytes) s : Store J := set key v zeroTime s.

Definition SetWithTTL (now : Time) (key v : bytes) (ttl : Duration) s : Store J :=
  if ttl <=? 0 then (Del now [key] s).1 else set key v (Time_Add now ttl) s.

Definition SetWithDeadline (now now' : Time) (key v : bytes) (at_ : Time) s : Store J :=
  if negb (After at_ now) then (Del now' [key] s).1 else set key v at_ s.

Definition MSet (pairs : list Pair) s : Store J :=
  let s' := foldl (fun s p => setLockedInWriteLockedShard (Key p) (Value p) zeroTime s) s pairs in
  propagate (cmdMSET :: concat ((fun p => [Key p; Value p]) <$> pairs)) s'.

(** [Increment]: the entry found, unless it has expired, in which case it is
    deleted first. *)
Definition liveEntry (now : Time) (key : bytes) s : Store J * option entry :=
  match data (shardOf s key) !! key with
  | Some e => if expired e now then (deleteLocked key s, None) else (s, Some e)
  | None => (s, None)
  end.

Definition Increment (now : Time) (key : bytes) (delta : Z) s : Store J * (Z + IncrError) :=
  let '(s1, found) := liveEntry now key s in
  let parsed := match found with
                | Some e => match ParseInt (val e) with inl n => Some n | inr _ => None end
                | None => Some 0
                end in
  match parsed with
  | None => (s1, inr ErrNotInteger)
  | Some n =>
      if ((0 <? delta) && (wrap64 (maxInt64 - delta) <? n))
         || ((delta <? 0) && (n <? wrap64 (- maxInt64 - 1 - delta)))
      then (s1, inr ErrNotInteger)
      else
        let n' := wrap64 (n + delta) in
        let at_ := match found with Some e => expiresAt e | None => zeroTime end in
        (setLocked key (FormatInt n') at_ s1, inl n')
  end.

Definition Append (now : Time) (key suffix : bytes) s : Store J * Z :=
  let '(s1, found) := liveEntry now key s in
  let old := match found with Some e => val e | None => [] end in
  let at_ := match found with Some e => expiresAt e | None => zeroTime end in
  let v := old ++ suffix in
  (setLocked key v at_ s1, lenZ v).

(** ** Deadlines *)

(** The entry's deadline is assigned in place; the subtotal does not change. *)
Definition setDeadline (key : bytes) (e : entry) (at_ : Time) s : Store J :=
  let sh := shardOf s key in
  setShard key
    (mkShard (<[key := mkEntry (val e) (atime e) at_]> (data sh))
             ({[key]} ∪ expiring sh) (used sh)) s.

Definition ExpireAt (now : Time) (key : bytes) (at_ : Time) s : Store J * bool :=
  match data (shardOf s key) !! key with
  | None => (s, false)
  | Some e =>
      if expired e now then
        (propagate [cmdDEL; key] (deleteLockedInWriteLockedShard key s), false)
      else if negb (After at_ now) then
        (propagate [cmdDEL; key] (deleteLockedInWriteLockedShard key s), true)
      else
        (propagate [cmdPEXPIREAT; key; unixMillis at_] (setDeadline key e at_ s), true)
  end.

Definition Expire (now now' : Time) (key : bytes) (ttl : Duration) s : Store J * bool :=
  ExpireAt now' key (Time_Add now ttl) s.

(** ** Snapshot and clock *)

Definition snapshotRecord (key : bytes) (e : entry) : list bytes :=
  [cmdSET; key; val e]
  ++ (if negb (IsZero (expiresAt e)) then [cmdPXAT; unixMillis (expiresAt e)] else []).

(** One shard of [AOFSnapshot], its keys visited in the order [keys]. *)
Definition snapshotShard (now : Time) (keys : list bytes) (sh : readShard) : list (list bytes) :=
  concat ((fun key =>
     match data sh !! key with
     | Some e => if expired e now then [] else [snapshotRecord key e]
     | None => []
     end) <$> keys).

Definition AOFSnapshot (now : Time) (range : nat -> list bytes) s : list (list bytes) :=
  concat (imap (fun i sh => snapshotShard now (range i) sh) (readShards s)).

Definition tick s : Store J :=
  mkStore (readShards s) (journal s) (maxMemory s) (policy s) (wrapU64 (clock s + 1)) (stats s).

End Store.

(** The keys of a map in some order, for running the definitions. *)
Definition keysOf {A} (m : gmap bytes A) : list bytes := (map_to_list m).*1.

(** The journal of the tests: it remembers every record. *)
#[export] Instance recording_journal : Journal (list (list bytes)) :=
  fun args j => (j ++ [args], None).
