(* ===== verification/StoreInv.v ===== *)
(** * The store's representation invariant

    [store_wf] states what a shard owes its readers: it holds only the keys
    routed to it, its [expiring] index is exactly the set of its keys with a
    deadline, and its memory subtotal is the sum of its entries' estimated sizes
    (at [int64] width, so the statement needs no assumption on the amount of
    data).  [entry_at] is the one-key view of the store.  For the two primitive
    mutations the file gives their effect on [entry_at]; every operation of
    Store.v is a composition of them, and preserves the invariant. *)

From stdpp Require Import base gmap list strings.
From Stdlib Require Import ZArith Lia.
From Stdlib Require Import Strings.Byte.
From S2P Require Import Prelude.
From S2P Require Import GoStrconv.
From S2P Require Import GoTime.
From S2P Require Import Shard.
From S2P Require Import Store.

#[local] Open Scope Z_scope.

(** ** Modular sums *)

(** The estimated size of a shard's entries. *)
Definition data_size (m : gmap bytes entry) : Z :=
  map_fold (fun k e n => entrySize k (val e) + n) 0 m.

Lemma data_size_empty : data_size ∅ = 0.
Proof. apply map_fold_empty. Qed.

Lemma data_size_insert m k e :
  m !! k = None -> data_size (<[k := e]> m) = entrySize k (val e) + data_size m.
Proof. intros H. unfold data_size. rewrite map_fold_insert_L; [done| |done]. intros; lia. Qed.

Lemma data_size_delete m k e :
  m !! k = Some e -> data_size (delete k m) = data_size m - entrySize k (val e).
Proof.
  intros H. rewrite <- (insert_delete_id m k e H) at 2.
  rewrite data_size_insert by apply lookup_delete_eq. lia.
Qed.

Lemma data_size_insert_over m k e old :
  m !! k = Some old ->
  data_size (<[k := e]> m) = data_size m - entrySize k (val old) + entrySize k (val e).
Proof.
  intros H. rewrite <- insert_delete_eq, data_size_insert by apply lookup_delete_eq.
  rewrite (data_size_delete _ _ _ H). lia.
Qed.

(** Congruence modulo 2^64 is what [wrap64] forgets. *)
Lemma wrap64_eq a b : (a - b) mod 2 ^ 64 = 0 -> wrap64 a = wrap64 b.
Proof.
  unfold wrap64. intros H. f_equal. apply Z.mod_divide in H as [q Hq]; [|lia].
  replace (a + 2 ^ 63) with (b + 2 ^ 63 + q * 2 ^ 64) by lia. apply Z.mod_add. lia.
Qed.

Lemma wrap64_mod z : exists q, wrap64 z = z + q * 2 ^ 64.
Proof.
  unfold wrap64. exists (- ((z + 2 ^ 63) / 2 ^ 64)).
  pose proof (Z.div_mod (z + 2 ^ 63) (2 ^ 64)). lia.
Qed.

Lemma wrap64_add z y : wrap64 (wrap64 z + y) = wrap64 (z + y).
Proof.
  destruct (wrap64_mod z) as [q ->]. apply wrap64_eq.
  replace (z + q * 2 ^ 64 + y - (z + y)) with (q * 2 ^ 64) by lia. apply Z.mod_mul. lia.
Qed.

Lemma wrap64_sub z y : wrap64 (wrap64 z - y) = wrap64 (z - y).
Proof. apply (wrap64_add z (- y)). Qed.

Lemma wrap64_small z : is_int64 z -> wrap64 z = z.
Proof.
  unfold is_int64, minInt64, maxInt64, wrap64. intros H. rewrite Z.mod_small by lia. lia.
Qed.

Create Rewrite HintDb wrap.
#[export] Hint Rewrite wrap64_add wrap64_sub : wrap.

(** ** The invariant *)

Record shard_wf (i : nat) (sh : readShard) : Prop := {
  wf_routed : forall k e, data sh !! k = Some e -> shardNo k = i;
  wf_index : forall k, k ∈ expiring sh <->
               exists e, data sh !! k = Some e /\ IsZero (expiresAt e) = false;
  wf_used : used sh = wrap64 (data_size (data sh))
}.

Record store_wf {J} (s : Store J) : Prop := {
  wf_length : length (readShards s) = Z.to_nat shardCount;
  wf_shards : forall i sh, readShards s !! i = Some sh -> shard_wf i sh
}.

Lemma shardNo_lt k : (shardNo k < Z.to_nat shardCount)%nat.
Proof. unfold shardNo. pose proof (shardIndex_range k). lia. Qed.

Section Inv.
Context {J : Type} `{!Journal J}.
Implicit Types s : Store J.

(** The one-key view. *)
Definition entry_at s (k : bytes) : option entry := data (shardOf s k) !! k.

Lemma shardOf_wf s k : store_wf s -> shard_wf (shardNo k) (shardOf s k).
Proof.
  intros [Hl Hs]. apply Hs. unfold shardOf. apply list_lookup_lookup_total_lt.
  rewrite Hl. apply shardNo_lt.
Qed.

Lemma shardOf_setShard s k k' sh :
  store_wf s ->
  shardOf (setShard k sh s) k' = if decide (shardNo k = shardNo k') then sh else shardOf s k'.
Proof.
  intros [Hl _]. unfold shardOf, setShard. simpl. pose proof (shardNo_lt k).
  case_decide as Hd.
  - rewrite <- Hd. apply list_lookup_total_insert_eq. lia.
  - by apply list_lookup_total_insert_ne.
Qed.

Lemma setShard_wf s k sh :
  store_wf s -> shard_wf (shardNo k) sh -> store_wf (setShard k sh s).
Proof.
  intros [Hl Hs] Hsh. split; simpl; [by rewrite length_insert|].
  intros i sh' [(<- & <- & _)|[_ Hi]]%list_lookup_insert_Some; [done|by apply Hs].
Qed.

(** Operations that leave the shards alone leave the invariant alone. *)
Lemma store_wf_ext s s' :
  readShards s' = readShards s -> store_wf s -> store_wf s'.
Proof. intros H [Hl Hs]. split; rewrite H; done. Qed.

Lemma readShards_propagate args s : readShards (propagate args s) = readShards s.
Proof. unfold propagate. by case_match. Qed.

Lemma readShards_propagateSet k v t s : readShards (propagateSetLocked k v t s) = readShards s.
Proof. unfold propagateSetLocked. case_match; apply readShards_propagate. Qed.

Lemma entry_at_ext s s' k : readShards s' = readShards s -> entry_at s' k = entry_at s k.
Proof. intros H. unfold entry_at, shardOf. by rewrite H. Qed.

Lemma entry_at_propagate args s k : entry_at (propagate args s) k = entry_at s k.
Proof. apply entry_at_ext, readShards_propagate. Qed.

Lemma entry_at_propagateSet k' v t s k :
  entry_at (propagateSetLocked k' v t s) k = entry_at s k.
Proof. apply entry_at_ext, readShards_propagateSet. Qed.

(** Updating one key of its owning shard. *)
Lemma entry_at_setShard s k m ix u k' :
  store_wf s -> (forall k2, k2 <> k -> m !! k2 = data (shardOf s k) !! k2) ->
  entry_at (setShard k (mkShard m ix u) s) k' =
    if decide (k = k') then m !! k else entry_at s k'.
Proof.
  intros Hwf Hm. unfold entry_at. rewrite shardOf_setShard by done.
  destruct (decide (k = k')) as [<-|Hne]; [by rewrite decide_True|].
  case_decide as Hd; [|done]. simpl. rewrite Hm by congruence.
  unfold shardOf. by rewrite Hd.
Qed.

(** ** The primitive mutations *)

Lemma setLIWLS_entry s k v t k' :
  store_wf s ->
  entry_at (setLockedInWriteLockedShard k v t s) k' =
    if decide (k = k') then Some (mkEntry v (clock s) t) else entry_at s k'.
Proof.
  intros Hwf. unfold setLockedInWriteLockedShard. rewrite entry_at_setShard by
    (done || (intros; by rewrite lookup_insert_ne)).
  by rewrite lookup_insert_eq.
Qed.

Lemma deleteLIWLS_entry s k k' :
  store_wf s ->
  entry_at (deleteLockedInWriteLockedShard k s) k' =
    if decide (k = k') then None else entry_at s k'.
Proof.
  intros Hwf. unfold deleteLockedInWriteLockedShard. rewrite entry_at_setShard by
    (done || (intros; by rewrite lookup_delete_ne)).
  by rewrite lookup_delete_eq.
Qed.

Lemma setLIWLS_wf s k v t :
  store_wf s -> store_wf (setLockedInWriteLockedShard k v t s).
Proof.
  intros Hwf. pose proof (shardOf_wf s k Hwf) as [Hr Hi Hu].
  apply setShard_wf; [done|]. split; simpl.
  - intros k' e [[-> _]|[_ He]]%lookup_insert_Some; [done|by eapply Hr].
  - intros k'. destruct (decide (k' = k)) as [->|Hne].
    + rewrite lookup_insert_eq. destruct (IsZero t) eqn:Ht.
      * split; [set_solver|]. intros (e & [= <-] & He). simpl in He. congruence.
      * split; [|set_solver]. intros _. eexists; split; [done|done].
    + rewrite lookup_insert_ne by done. rewrite <- Hi. destruct (IsZero t); set_solver.
  - rewrite Hu. destruct (data (shardOf s k) !! k) as [old|] eqn:Hk; autorewrite with wrap.
    + by rewrite (data_size_insert_over _ _ _ _ Hk).
    + rewrite (data_size_insert _ _ _ Hk). f_equal. simpl. lia.
Qed.

Lemma deleteLIWLS_wf s k :
  store_wf s -> store_wf (deleteLockedInWriteLockedShard k s).
Proof.
  intros Hwf. pose proof (shardOf_wf s k Hwf) as [Hr Hi Hu].
  apply setShard_wf; [done|]. split; simpl.
  - intros k' e [_ He]%lookup_delete_Some. by eapply Hr.
  - intros k'. destruct (decide (k' = k)) as [->|Hne].
    + rewrite lookup_delete_eq. split; [set_solver|]. by intros (e & ? & _).
    + rewrite lookup_delete_ne by done. rewrite <- Hi. set_solver.
  - rewrite Hu. destruct (data (shardOf s k) !! k) as [old|] eqn:Hk; autorewrite with wrap.
    + by rewrite (data_size_delete _ _ _ Hk).
    + by rewrite delete_id.
Qed.

(** Replacing an entry by one with the same value and a deadline that keeps the
    index right. *)
Lemma replace_wf s k e e' ix :
  store_wf s -> entry_at s k = Some e -> val e' = val e ->
  (forall k', k' ∈ ix <-> if decide (k' = k) then IsZero (expiresAt e') = false
                          else k' ∈ expiring (shardOf s k)) ->
  store_wf (setShard k (mkShard (<[k := e']> (data (shardOf s k))) ix (used (shardOf s k))) s).
Proof.
  intros Hwf Hk Hv Hix. unfold entry_at in Hk. pose proof (shardOf_wf s k Hwf) as [Hr Hi Hu].
  apply setShard_wf; [done|]. split; simpl.
  - intros k' e0 [[-> _]|[_ He]]%lookup_insert_Some; [done|by eapply Hr].
  - intros k'. rewrite Hix. case_decide as Hd; [subst k'|].
    + rewrite lookup_insert_eq. split; [eauto|]. by intros (? & [= <-] & ?).
    + by rewrite lookup_insert_ne, Hi.
  - rewrite Hu, (data_size_insert_over _ _ _ _ Hk), Hv. f_equal. lia.
Qed.

Lemma touch_wf s k e : store_wf s -> entry_at s k = Some e -> store_wf (touch k e s).
Proof.
  intros Hwf Hk. apply replace_wf with e; [done..|]. intros k'.
  pose proof (shardOf_wf s k Hwf) as [_ Hi _]. case_decide as Hd; [subst|done].
  rewrite Hi. unfold entry_at in Hk. rewrite Hk. split; [|by eauto].
  by intros (? & [= <-] & ?).
Qed.

Lemma touch_entry s k e k' :
  store_wf s ->
  entry_at (touch k e s) k' =
    if decide (k = k') then Some (mkEntry (val e) (clock s) (expiresAt e)) else entry_at s k'.
Proof.
  intros Hwf. unfold touch. rewrite entry_at_setShard by
    (done || (intros; by rewrite lookup_insert_ne)).
  by rewrite lookup_insert_eq.
Qed.

Lemma setDeadline_wf s k e t :
  store_wf s -> entry_at s k = Some e -> IsZero t = false -> store_wf (setDeadline k e t s).
Proof.
  intros Hwf Hk Ht. apply replace_wf with e; [done..|]. intros k'. simpl.
  case_decide; set_solver.
Qed.

Lemma setDeadline_entry s k e t k' :
  store_wf s ->
  entry_at (setDeadline k e t s) k' =
    if decide (k = k') then Some (mkEntry (val e) (atime e) t) else entry_at s k'.
Proof.
  intros Hwf. unfold setDeadline. rewrite entry_at_setShard by
    (done || (intros; by rewrite lookup_insert_ne)).
  by rewrite lookup_insert_eq.
Qed.

Lemma propagate_wf args s : store_wf s -> store_wf (propagate args s).
Proof. apply store_wf_ext, readShards_propagate. Qed.

Lemma tick_wf s : store_wf s -> store_wf (tick s).
Proof. by apply store_wf_ext. Qed.

Lemma SetJournal_wf j s : store_wf s -> store_wf (SetJournal j s).
Proof. by apply store_wf_ext. Qed.

Lemma setStats_wf st s : store_wf s -> store_wf (setStats st s).
Proof. by apply store_wf_ext. Qed.

Lemma setLocked_wf k v t s : store_wf s -> store_wf (setLocked k v t s).
Proof.
  intros H. eapply store_wf_ext; [apply readShards_propagateSet|by apply setLIWLS_wf].
Qed.

Lemma set_wf k v t s : store_wf s -> store_wf (set k v t s).
Proof. apply setLocked_wf. Qed.

Lemma Set_wf k v s : store_wf s -> store_wf (Set_ k v s).
Proof. apply setLocked_wf. Qed.

Lemma setLocked_entry k v t s k' :
  store_wf s ->
  entry_at (setLocked k v t s) k' =
    if decide (k = k') then Some (mkEntry v (clock s) t) else entry_at s k'.
Proof. intros H. unfold setLocked. by rewrite entry_at_propagateSet, setLIWLS_entry. Qed.

(** ** Counting keys *)

Lemma Len_sumZ s : Len s = sumZ (fun sh => Z.of_nat (size (data sh))) (readShards s).
Proof. unfold Len. by rewrite foldl_sumZ. Qed.

Lemma Len_nonneg s : 0 <= Len s.
Proof. rewrite Len_sumZ. apply sumZ_nonneg. intros; lia. Qed.

Lemma shardOf_lookup s k :
  store_wf s -> readShards s !! shardNo k = Some (shardOf s k).
Proof.
  intros [Hl _]. unfold shardOf. apply list_lookup_lookup_total_lt.
  rewrite Hl. apply shardNo_lt.
Qed.

Lemma Len_delete s k :
  store_wf s -> is_Some (entry_at s k) ->
  Len (deleteLockedInWriteLockedShard k s) = Len s - 1.
Proof.
  intros Hwf [e He]. rewrite !Len_sumZ. unfold deleteLockedInWriteLockedShard, setShard.
  cbn [readShards]. rewrite (sumZ_insert _ _ _ _ _ (shardOf_lookup s k Hwf)). simpl.
  unfold entry_at in He. rewrite map_size_delete_Some by eauto.
  assert (size (data (shardOf s k)) <> 0%nat).
  { intros Hz%map_size_empty_inv. by rewrite Hz, lookup_empty in He. }
  lia.
Qed.

Lemma New_wf : store_wf (New (J := J)).
Proof.
  split; [reflexivity|]. unfold New. cbn [readShards].
  intros i sh [-> _]%lookup_replicate.
  split; simpl.
  - intros k e H. by rewrite lookup_empty in H.
  - intros k. split; [set_solver|]. intros (e & He & _). by rewrite lookup_empty in He.
  - by rewrite data_size_empty.
Qed.
End Inv.

Create HintDb store.
Create Rewrite HintDb store.
#[export] Hint Resolve setLIWLS_wf deleteLIWLS_wf touch_wf setDeadline_wf propagate_wf
  setLocked_wf set_wf Set_wf New_wf tick_wf SetJournal_wf setStats_wf : store.
#[export] Hint Rewrite @entry_at_propagate @entry_at_propagateSet : store.
#[export] Hint Rewrite @setLIWLS_entry @deleteLIWLS_entry @touch_entry @setDeadline_entry
  @setLocked_entry using (by eauto with store) : store.
