(* ===== verification/Expire.v ===== *)
(** * internal/store/expire.go: active expiration

    [expireSample] visits the volatile keys of the shards, shard 0 first, until
    it has looked at [n] of them; the order within a shard, that of a range over
    the shard's [expiring] map, is the argument [range].  [activeExpireCycle]
    repeats it while at least a quarter of the sample had expired.

    The theorems: a round deletes only keys whose deadline has passed, keeps the
    store's invariant, never changes what a client can see, and looks at no more
    than its quota; a cycle is bounded; and a round whose quota is used up by the
    live volatile keys of low-numbered shards never reaches the others. *)

From stdpp Require Import base gmap list strings.
From Stdlib Require Import ZArith Lia.
From Stdlib Require Import Strings.Byte.
From S2P Require Import Prelude.
From S2P Require Import GoStrconv.
From S2P Require Import GoTime.
From S2P Require Import Shard.
From S2P Require Import Store.
From S2P Require Import StoreInv.

#[local] Open Scope Z_scope.

Definition activeExpireSampleSize : Z := 20.
Definition activeExpireMaxRounds : nat := 16.

(** The inner loop of [expireSample], over the keys of one shard. *)
Fixpoint expireShard (n : Z) (now : Time) (keys : list bytes) (sh : readShard)
    (scanned gone : Z) : readShard * Z * Z :=
  match keys with
  | [] => (sh, scanned, gone)
  | key :: keys' =>
      if scanned =? n then (sh, scanned, gone)
      else
        match data sh !! key with
        | None =>
            expireShard n now keys' (mkShard (data sh) (expiring sh ∖ {[key]}) (used sh))
              (scanned + 1) gone
        | Some e =>
            if expired e now then
              expireShard n now keys'
                (mkShard (delete key (data sh)) (expiring sh ∖ {[key]})
                   (wrap64 (used sh - entrySize key (val e))))
                (scanned + 1) (gone + 1)
            else expireShard n now keys' sh (scanned + 1) gone
        end
  end.

(** The outer loop, over the shards from the [i]-th on. *)
Fixpoint expireShards (n : Z) (now : Time) (range : nat -> list bytes) (i : nat)
    (shards : list readShard) (scanned gone : Z) : list readShard * Z * Z :=
  match shards with
  | [] => ([], scanned, gone)
  | sh :: rest =>
      if scanned =? n then (sh :: rest, scanned, gone)
      else
        let '(sh', sc, go) := expireShard n now (range i) sh scanned gone in
        let '(rest', sc', go') := expireShards n now range (S i) rest sc go in
        (sh' :: rest', sc', go')
  end.

Section Expire.
Context {J : Type} `{!Journal J}.
Implicit Types s : Store J.

Definition expireSample (n : Z) (now : Time) (range : nat -> list bytes) s : Store J * Z * Z :=
  let s1 := tick s in
  let '(shards, scanned, gone) := expireShards n now range 0 (readShards s1) 0 0 in
  let st := stats s1 in
  (mkStore shards (journal s1) (maxMemory s1) (policy s1) (clock s1)
     (mkStats (KeyspaceHits st) (KeyspaceMisses st) (EvictedKeys st)
        (wrapU64 (ExpiredKeys st + gone))),
   scanned, gone).

(** The rounds of [activeExpireCycle]: the clock reading and the map orders of a
    round are given by the number of rounds left.  [float64(gone)/float64(n) <
    0.25] is exact on these counts, so it is [4 * gone < n]. *)
Fixpoint expireRounds (rounds : nat) (now : nat -> Time)
    (range : nat -> Store J -> nat -> list bytes) s (scanned gone : Z) : Store J * Z * Z :=
  match rounds with
  | O => (s, scanned, gone)
  | S r =>
      let '(s', n, g) := expireSample activeExpireSampleSize (now r) (range r s) s in
      if (n =? 0) || (4 * g <? n) then (s', scanned + n, gone + g)
      else expireRounds r now range s' (scanned + n) (gone + g)
  end.

Definition activeExpireCycle (now : nat -> Time) (range : nat -> Store J -> nat -> list bytes)
    s : Store J * Z * Z :=
  expireRounds activeExpireMaxRounds now range s 0 0.
End Expire.

(** ** One shard *)

(** What a pass over a shard may have done to it: keys that had expired are gone,
    everything else is as before. *)
Record swept (now : Time) (sh sh' : readShard) : Prop := {
  swept_some : forall k e, data sh' !! k = Some e -> data sh !! k = Some e;
  swept_none : forall k e, data sh !! k = Some e -> data sh' !! k = None -> expired e now = true
}.

Lemma swept_refl now sh : swept now sh sh.
Proof. split; [done|congruence]. Qed.

Lemma swept_trans now a b c : swept now a b -> swept now b c -> swept now a c.
Proof.
  intros [H1 H2] [H3 H4]. split; [eauto|].
  intros k e Ha Hc. destruct (data b !! k) as [e'|] eqn:Hb; [|by eauto].
  assert (e' = e) as -> by (apply H1 in Hb; congruence). by eauto.
Qed.

Lemma delete_swept now sh key e ix u :
  data sh !! key = Some e -> expired e now = true ->
  swept now sh (mkShard (delete key (data sh)) ix u).
Proof.
  intros Hk He. split; simpl.
  - intros k e' [_ H]%lookup_delete_Some. done.
  - intros k e' Hk' [<-|Hn]%lookup_delete_None; congruence.
Qed.

Lemma expireShard_spec n now keys sh scanned gone i :
  shard_wf i sh ->
  let '(sh', sc, go) := expireShard n now keys sh scanned gone in
  shard_wf i sh' /\ swept now sh sh' /\
  go - gone = Z.of_nat (size (data sh)) - Z.of_nat (size (data sh')).
Proof.
  revert sh scanned gone. induction keys as [|key keys IH]; intros sh scanned gone Hwf; simpl.
  { split_and!; [done|apply swept_refl|lia]. }
  destruct (scanned =? n); [split_and!; [done|apply swept_refl|lia]|].
  pose proof Hwf as [Hr Hi Hu].
  destruct (data sh !! key) as [e|] eqn:Hk.
  - destruct (expired e now) eqn:He; [|by apply IH].
    set (sh1 := mkShard _ _ _).
    assert (shard_wf i sh1) as Hwf1.
    { split; simpl.
      - intros k e' [_ H]%lookup_delete_Some. by eapply Hr.
      - intros k. destruct (decide (k = key)) as [->|Hne].
        + rewrite lookup_delete_eq. split; [set_solver|by intros (? & ? & _)].
        + rewrite lookup_delete_ne by done. rewrite <- Hi. set_solver.
      - rewrite Hu, (data_size_delete _ _ _ Hk). autorewrite with wrap. done. }
    specialize (IH sh1 (scanned + 1) (gone + 1) Hwf1).
    destruct (expireShard n now keys sh1 (scanned + 1) (gone + 1)) as [[sh' sc] go].
    destruct IH as (Hw & Hs & Hg). split_and!; [done| |].
    + eapply swept_trans; [by eapply delete_swept|done].
    + simpl in Hg. rewrite map_size_delete_Some in Hg by eauto.
      assert (0 < size (data sh))%nat
        by (destruct (size (data sh)) eqn:Hz; [|lia];
            apply map_size_empty_inv in Hz; rewrite Hz, lookup_empty in Hk; done).
      lia.
  - assert (key ∉ expiring sh) as Hne by (rewrite Hi; intros (? & ? & _); congruence).
    replace (expiring sh ∖ {[key]}) with (expiring sh) by set_solver.
    replace (mkShard (data sh) (expiring sh) (used sh)) with sh by (by destruct sh).
    by apply IH.
Qed.

(** The quota, and what is left alone once it is used up. *)
Lemma expireShard_scanned n now keys sh scanned gone :
  0 <= scanned <= n ->
  let '(sh', sc, go) := expireShard n now keys sh scanned gone in
  scanned <= sc <= n /\ 0 <= go - gone <= sc - scanned /\
  sc <= scanned + lenZ keys /\ (sc < n -> sc = scanned + lenZ keys).
Proof.
  unfold lenZ. revert sh scanned gone.
  induction keys as [|key keys IH]; intros sh scanned gone Hs; cbn [expireShard length].
  { lia. }
  destruct (Z.eqb_spec scanned n) as [->|Hne]; [lia|].
  destruct (data sh !! key) as [e|]; [destruct (expired e now)|];
    match goal with |- context [expireShard n now keys ?a ?b ?c] =>
      specialize (IH a b c ltac:(lia)); destruct (expireShard n now keys a b c) as [[? ?] ?]
    end; lia.
Qed.

(** The pass only removes entries. *)
Lemma expireShard_sub n now keys sh scanned gone k e :
  data (expireShard n now keys sh scanned gone).1.1 !! k = Some e -> data sh !! k = Some e.
Proof.
  revert sh scanned gone. induction keys as [|key keys IH]; intros sh scanned gone; simpl; [done|].
  destruct (scanned =? n); [done|].
  destruct (data sh !! key) as [e'|]; [destruct (expired e' now)|]; intros H%IH; [|done..].
  simpl in H. by apply lookup_delete_Some in H as [_ ?].
Qed.

(** A key the pass has visited does not stay if it has expired. *)
Lemma expireShard_clears n now keys sh scanned gone k e :
  let r := expireShard n now keys sh scanned gone in
  r.1.2 < n -> scanned <= n -> k ∈ keys -> data r.1.1 !! k = Some e -> expired e now = false.
Proof.
  revert sh scanned gone. induction keys as [|key keys IH]; intros sh scanned gone; simpl.
  { intros _ _ H. by apply elem_of_nil in H. }
  destruct (Z.eqb_spec scanned n); [simpl; lia|].
  destruct (data sh !! key) as [e'|] eqn:Hk; [destruct (expired e' now) eqn:He|];
    intros Hsc Hle [->|Hin]%elem_of_cons Hd;
    try (eapply IH; [exact Hsc|lia|done|exact Hd]);
    apply expireShard_sub in Hd; simpl in Hd; try congruence.
  by rewrite lookup_delete_eq in Hd.
Qed.

(** ** All shards *)

Lemma expireShards_spec n now range i shards scanned gone :
  0 <= scanned <= n ->
  (forall j sh, shards !! j = Some sh -> shard_wf (i + j) sh) ->
  let '(shards', sc, go) := expireShards n now range i shards scanned gone in
  length shards' = length shards /\ scanned <= sc <= n /\ 0 <= go - gone <= sc - scanned /\
  (forall j sh sh', shards !! j = Some sh -> shards' !! j = Some sh' ->
     shard_wf (i + j) sh' /\ swept now sh sh') /\
  go - gone = sumZ (fun sh => Z.of_nat (size (data sh))) shards
              - sumZ (fun sh => Z.of_nat (size (data sh))) shards'.
Proof.
  revert i scanned gone. induction shards as [|sh shards IH]; intros i scanned gone Hsc Hwf; simpl.
  { split_and!; [done|lia..| |lia]. intros j ? ? H. by rewrite lookup_nil in H. }
  destruct (Z.eqb_spec scanned n).
  { split_and!; [done|lia..| |simpl; lia]. intros j ? ? Hj Hj'. simplify_eq.
    split; [by apply Hwf|apply swept_refl]. }
  pose proof (Hwf 0%nat sh eq_refl) as Hwf0. rewrite Nat.add_0_r in Hwf0.
  pose proof (expireShard_spec n now (range i) sh scanned gone i Hwf0) as H1.
  pose proof (expireShard_scanned n now (range i) sh scanned gone Hsc) as H2.
  destruct (expireShard n now (range i) sh scanned gone) as [[sh' sc] go].
  destruct H1 as (Hw' & Hs' & Hg'). destruct H2 as (Hsc' & Hgo' & _).
  specialize (IH (S i) sc go ltac:(lia)).
  destruct (expireShards n now range (S i) shards sc go) as [[rest' sc'] go'].
  destruct IH as (Hlen & Hsc'' & Hgo'' & Hall & Hsum).
  { intros j shj Hj. specialize (Hwf (S j) shj Hj). by rewrite Nat.add_succ_r in Hwf. }
  split_and!; [simpl; lia|lia..| |simpl; lia].
  intros [|j] shj shj' Hj Hj'; simpl in Hj, Hj'; simplify_eq.
  - rewrite Nat.add_0_r. done.
  - rewrite Nat.add_succ_r. by eapply Hall.
Qed.

Section ExpireTheorems.
Context {J : Type} `{!Journal J}.
Implicit Types s : Store J.

(** What a round does, used by every theorem on rounds. *)
Lemma expireSample_spec (n : Z) (now : Time) (range : nat -> list bytes) s :
  store_wf s -> 0 <= n ->
  let '(s', scanned, gone) := expireSample n now range s in
  store_wf s' /\ journal s' = journal s /\
  (forall k, entry_at s' k = entry_at s k \/
     entry_at s' k = None /\ exists e, entry_at s k = Some e /\ expired e now = true) /\
  gone = Len s - Len s' /\ 0 <= gone <= scanned /\ scanned <= n.
Proof.
  intros [Hl Hs] Hn. unfold expireSample.
  pose proof (expireShards_spec n now range 0 (readShards (tick s)) 0 0 ltac:(lia) Hs) as H.
  destruct (expireShards n now range 0 (readShards (tick s)) 0 0) as [[shs sc] go].
  destruct H as (Hlen & Hsc & Hgo & Hall & Hsum). simpl in Hlen, Hall.
  split_and!; try lia; [split; simpl; [lia|]|done| |unfold Len; rewrite !foldl_sumZ; simpl in *; lia].
  - intros i sh' Hi. destruct (lookup_lt_is_Some_2 (readShards s) i) as [sh Hsh].
    { apply lookup_lt_Some in Hi. lia. }
    by destruct (Hall i sh sh' Hsh Hi).
  - intros k. unfold entry_at, shardOf. simpl. pose proof (shardNo_lt k) as Hk.
    destruct (lookup_lt_is_Some_2 (readShards s) (shardNo k)) as [sh Hsh]; [lia|].
    destruct (lookup_lt_is_Some_2 shs (shardNo k)) as [sh' Hsh']; [lia|].
    rewrite (list_lookup_total_correct _ _ _ Hsh), (list_lookup_total_correct _ _ _ Hsh').
    destruct (Hall _ _ _ Hsh Hsh') as [_ [H1 H2]].
    destruct (data sh' !! k) as [e|] eqn:He; [left; symmetry; by apply H1|].
    destruct (data sh !! k) as [e|] eqn:He'; [right|by left].
    split; [done|]. exists e. split; [done|by eapply H2].
Qed.

(** A round of active expiration is safe: it keeps the store's invariant,
    removes only keys whose deadline has passed, leaves every other entry
    untouched and the journal unwritten, reports what it removed, and looks at no
    more than its quota of keys, whatever the order of the map ranges. *)
Theorem expireSample_safe (n : Z) (now : Time) (range : nat -> list bytes) s :
  store_wf s -> 0 <= n ->
  let '(s', scanned, gone) := expireSample n now range s in
  store_wf s' /\ journal s' = journal s /\
  (forall k, entry_at s' k = entry_at s k \/
     entry_at s' k = None /\ exists e, entry_at s k = Some e /\ expired e now = true) /\
  gone = Len s - Len s' /\ 0 <= gone <= scanned /\ scanned <= n.
Proof. apply expireSample_spec. Qed.

(** A legal order in which Go may range over the shards' [expiring] maps. *)
Definition valid_range (range : nat -> list bytes) s : Prop :=
  forall i sh, readShards s !! i = Some sh -> range i ≡ₚ elements (expiring sh).
End ExpireTheorems.

Lemma expireShards_mono n now range i shards scanned gone :
  0 <= scanned <= n -> scanned <= (expireShards n now range i shards scanned gone).1.2.
Proof.
  revert i scanned gone. induction shards as [|b shards IH]; intros i sc go Hsc; simpl; [lia|].
  destruct (Z.eqb_spec sc n); [simpl; lia|].
  pose proof (expireShard_scanned n now (range i) b sc go Hsc) as H2.
  destruct (expireShard n now (range i) b sc go) as [[b' sc'] go'].
  specialize (IH (S i) sc' go' ltac:(lia)).
  destruct (expireShards n now range (S i) shards sc' go') as [[? ?] ?]. simpl in *. lia.
Qed.

Lemma expireShards_clears n now range i shards scanned gone j sh sh' k e :
  0 <= scanned <= n ->
  (expireShards n now range i shards scanned gone).1.2 < n ->
  shards !! j = Some sh ->
  (expireShards n now range i shards scanned gone).1.1 !! j = Some sh' ->
  k ∈ range (i + j)%nat -> data sh' !! k = Some e -> expired e now = false.
Proof.
  revert i j scanned gone. induction shards as [|a shards IH]; intros i j scanned gone Hs; simpl.
  { intros _ H. by rewrite lookup_nil in H. }
  destruct (Z.eqb_spec scanned n); [simpl; lia|].
  pose proof (expireShard_scanned n now (range i) a scanned gone Hs) as H2.
  pose proof (expireShard_clears n now (range i) a scanned gone k e) as H3.
  destruct (expireShard n now (range i) a scanned gone) as [[a' sc] go].
  destruct H2 as (Hsc & _ & _ & _). specialize (IH (S i)). simpl in H3.
  pose proof (fun j' => IH j' sc go ltac:(lia)) as IH'.
  pose proof (expireShards_mono n now range (S i) shards sc go ltac:(lia)) as Hmono.
  destruct (expireShards n now range (S i) shards sc go) as [[rest' sc'] go'].
  simpl in *. intros Hlt Hj Hj' Hk He. destruct j as [|j]; simpl in *; simplify_eq.
  - rewrite Nat.add_0_r in Hk. apply H3; [lia|lia|done|done].
  - rewrite Nat.add_succ_r in Hk. by eapply IH'.
Qed.

(** A pass over live keys changes nothing. *)
Lemma expireShard_live n now keys sh scanned gone :
  (forall k, k ∈ keys -> exists e, data sh !! k = Some e /\ expired e now = false) ->
  (expireShard n now keys sh scanned gone).1.1 = sh /\
  (expireShard n now keys sh scanned gone).2 = gone.
Proof.
  revert scanned. induction keys as [|key keys IH]; intros scanned Hk; simpl; [done|].
  destruct (scanned =? n); [done|].
  destruct (Hk key) as (e & -> & ->); [set_solver|]. apply IH. set_solver.
Qed.

Section Cycle.
Context {J : Type} `{!Journal J}.
Implicit Types s : Store J.

(** A round that stops short of its quota has cleaned the whole keyspace: for
    every legal order of the map ranges, no expired key is left in any shard. *)
Theorem expireSample_complete (n : Z) (now : Time) (range : nat -> list bytes) s :
  store_wf s -> valid_range range s -> 0 <= n ->
  (expireSample n now range s).1.2 < n ->
  forall k e, entry_at (expireSample n now range s).1.1 k = Some e -> expired e now = false.
Proof.
  intros [Hl Hs] Hr Hn. unfold expireSample.
  pose proof (expireShards_spec n now range 0 (readShards (tick s)) 0 0 ltac:(lia) Hs) as H.
  pose proof (expireShards_clears n now range 0 (readShards (tick s)) 0 0 ) as Hc.
  destruct (expireShards n now range 0 (readShards (tick s)) 0 0) as [[shs sc] go].
  destruct H as (Hlen & _ & _ & Hall & _). simpl in *. intros Hlt k e He.
  unfold entry_at, shardOf in He. simpl in He. pose proof (shardNo_lt k) as Hk.
  destruct (lookup_lt_is_Some_2 (readShards s) (shardNo k)) as [sh Hsh]; [lia|].
  destruct (lookup_lt_is_Some_2 shs (shardNo k)) as [sh' Hsh']; [lia|].
  rewrite (list_lookup_total_correct _ _ _ Hsh') in He.
  destruct (expired e now) eqn:Hexp; [|done].
  rewrite <- Hexp. eapply (Hc (shardNo k)); [lia|done|done|done| |done].
  destruct (Hall _ _ _ Hsh Hsh') as [_ [Hsub _]]. specialize (Hsub k e He).
  rewrite (Hr _ _ Hsh). apply elem_of_elements. apply (wf_index _ _ (Hs _ _ Hsh)).
  exists e. split; [done|]. unfold expired in Hexp.
  by destruct (IsZero (expiresAt e)).
Qed.

Lemma expireRounds_bounded rounds now range s scanned gone :
  store_wf s ->
  let '(s', sc, go) := expireRounds rounds now range s scanned gone in
  store_wf s' /\ journal s' = journal s /\
  0 <= go - gone <= sc - scanned /\ sc - scanned <= Z.of_nat rounds * activeExpireSampleSize /\
  (forall k, entry_at s' k = entry_at s k \/
     entry_at s' k = None /\
     exists e r, entry_at s k = Some e /\ (r < rounds)%nat /\ expired e (now r) = true).
Proof.
  revert s scanned gone. unfold activeExpireSampleSize.
  induction rounds as [|r IH]; intros s scanned gone Hwf; cbn [expireRounds].
  { split_and!; [done|done|lia..|by left]. }
  unfold activeExpireSampleSize.
  pose proof (expireSample_spec 20 (now r) (range r s) s Hwf ltac:(lia)) as H.
  destruct (expireSample 20 (now r) (range r s) s) as [[s1 n] g].
  destruct H as (Hwf1 & Hj1 & He1 & _ & Hg & Hn).
  destruct ((n =? 0) || (4 * g <? n)).
  { split_and!; [done|done|lia..|]. intros k. destruct (He1 k) as [?|(? & e & ? & ?)]; [by left|].
    right. split; [done|]. exists e, r. auto. }
  specialize (IH s1 (scanned + n) (gone + g) Hwf1).
  destruct (expireRounds r now range s1 (scanned + n) (gone + g)) as [[s' sc] go].
  destruct IH as (Hwf' & Hj' & Hgo & Hsc & He).
  split_and!; [done|congruence|lia..|]. intros k.
  destruct (He1 k) as [Hk|(Hk & e & Hk' & Hx)], (He k) as [Hk2|(Hk2 & e2 & r2 & Hk3 & Hr & Hx2)].
  - left; congruence.
  - right. split; [done|]. exists e2, r2. split_and!; [congruence|lia|done].
  - right. split; [congruence|]. exists e, r. auto.
  - congruence.
Qed.

(** A cycle is bounded and safe: at most [activeExpireMaxRounds] rounds of
    [activeExpireSampleSize] keys are looked at, the invariant and the journal
    are kept, and a key is removed only if its deadline had passed at the clock
    reading of one of the rounds. *)
Theorem activeExpireCycle_bounded (now : nat -> Time)
    (range : nat -> Store J -> nat -> list bytes) s :
  store_wf s ->
  let '(s', scanned, gone) := activeExpireCycle now range s in
  store_wf s' /\ journal s' = journal s /\ 0 <= gone <= scanned /\ scanned <= 320 /\
  (forall k, entry_at s' k = entry_at s k \/
     entry_at s' k = None /\
     exists e r, entry_at s k = Some e /\ (r < 16)%nat /\ expired e (now r) = true).
Proof.
  intros Hwf. unfold activeExpireCycle.
  pose proof (expireRounds_bounded activeExpireMaxRounds now range s 0 0 Hwf) as H.
  destruct (expireRounds activeExpireMaxRounds now range s 0 0) as [[s' sc] go].
  destruct H as (H1 & H2 & H3 & H4 & H5). rewrite !Z.sub_0_r in *.
  change (Z.of_nat activeExpireMaxRounds * activeExpireSampleSize) with 320 in H4. done.
Qed.

(** Starvation: while shard 0 holds at least [activeExpireSampleSize] volatile
    keys that are all alive, a whole cycle of active expiration looks at shard 0
    only and removes nothing, however many expired keys the other shards hold.
    The sampler's promise that keys nobody asks for are eventually collected
    fails for such a keyspace. *)
Theorem activeExpireCycle_starves (now : nat -> Time)
    (range : nat -> Store J -> nat -> list bytes) (sh0 : readShard) s :
  store_wf s ->
  (forall r, valid_range (range r s) s) ->
  readShards s !! 0%nat = Some sh0 ->
  activeExpireSampleSize <= Z.of_nat (size (expiring sh0)) ->
  (forall k e, data sh0 !! k = Some e -> expired e (now 15%nat) = false) ->
  let '(s', scanned, gone) := activeExpireCycle now range s in
  readShards s' = readShards s /\ scanned = activeExpireSampleSize /\ gone = 0.
Proof.
  intros [Hl Hs] Hr H0 Hsz Hlive. unfold activeExpireCycle, activeExpireMaxRounds.
  cbn [expireRounds]. unfold expireSample.
  destruct s as [[|sh shards] jo mm po cl st]; simpl in *; [done|].
  simplify_eq. specialize (Hr 15%nat 0%nat sh0 eq_refl).
  set (ks := range 15%nat _ 0%nat) in *.
  set (rg := range 15%nat _).
  assert (activeExpireSampleSize <= lenZ ks) as Hks.
  { unfold lenZ. rewrite Hr. unfold size, set_size in Hsz. done. }
  assert (forall k, k ∈ ks -> exists e, data sh0 !! k = Some e /\ expired e (now 15%nat) = false) as Hk.
  { intros k. rewrite Hr, elem_of_elements.
    intros (e & He & _)%(wf_index _ _ (Hs 0%nat sh0 eq_refl)). eauto. }
  pose proof (expireShard_live activeExpireSampleSize (now 15%nat) ks sh0 0 0 Hk) as [Ha Hg].
  pose proof (expireShard_scanned activeExpireSampleSize (now 15%nat) ks sh0 0 0
                ltac:(unfold activeExpireSampleSize; lia)) as Hsc.
  change (rg 0%nat) with ks.
  destruct (expireShard activeExpireSampleSize (now 15%nat) ks sh0 0 0) as [[a sc] go].
  simpl in Ha, Hg. subst a go. destruct Hsc as (Hsc1 & _ & _ & Hsc2).
  assert (sc = activeExpireSampleSize) as -> by lia.
  assert (expireShards activeExpireSampleSize (now 15%nat) rg 1 shards activeExpireSampleSize 0
          = (shards, activeExpireSampleSize, 0)) as -> by (by destruct shards).
  done.
Qed.
End Cycle.

(** Twenty live volatile keys of shard 0 and an expired one elsewhere: the store
    of a server that has been up for a minute. *)
Definition starving_keys : list bytes :=
  bs <$> ["e"; "al"; "be"; "cr"; "c2"; "ds"; "d3"; "fy"; "f9"; "gf"; "hw"; "h7"; "id";
          "kj"; "lk"; "mx"; "m8"; "nq"; "n1"; "po"].

Definition starving_store : Store (list (list bytes)) :=
  foldl (fun s k => set k (bs "v") (100 * Second) s)
    (set (bs "k") (bs "v") (10 * Second) New) starving_keys.

Definition starving_range (r : nat) (s : Store (list (list bytes))) (i : nat) : list bytes :=
  elements (expiring (readShards s !!! i)).

Lemma starving_range_valid r s : valid_range (starving_range r s) s.
Proof. intros i sh H. unfold starving_range. by rewrite (list_lookup_total_correct _ _ _ H). Qed.

Lemma starving_store_wf : store_wf starving_store.
Proof.
  unfold starving_store. assert (store_wf (set (bs "k") (bs "v") (10 * Second)
                                   (New (J := list (list bytes))))) as H
    by (apply setLocked_wf, New_wf).
  revert H. generalize (set (bs "k") (bs "v") (10 * Second) (New (J := list (list bytes)))).
  induction starving_keys as [|k ks IH]; intros s H; [done|]. apply IH. by apply setLocked_wf.
Qed.

Definition minute (r : nat) : Time := 60 * Second.

Lemma starving_shard0 :
  readShards starving_store !! 0%nat = Some (readShards starving_store !!! 0%nat).
Proof. apply list_lookup_lookup_total_lt. rewrite (wf_length _ starving_store_wf).
  apply (shardNo_lt (bs "e")). Qed.

Lemma activeExpireCycle_starves_witness :
  existsKey (60 * Second) starving_store (bs "k") = false /\
  is_Some (entry_at starving_store (bs "k")) /\
  let '(s', scanned, gone) := activeExpireCycle minute starving_range starving_store in
  readShards s' = readShards starving_store /\ scanned = activeExpireSampleSize /\ gone = 0.
Proof.
  split; [vm_compute; reflexivity|]. split; [eexists; vm_compute; reflexivity|].
  apply (activeExpireCycle_starves minute starving_range
           (readShards starving_store !!! 0%nat) starving_store).
  - apply starving_store_wf.
  - intros r. apply starving_range_valid.
  - apply starving_shard0.
  - apply Z.leb_le. vm_compute. reflexivity.
  - assert (map_Forall (fun _ e => expired e (60 * Second) = false)
              (data (readShards starving_store !!! 0%nat))) as H
      by (apply (bool_decide_unpack _); vm_compute; exact I).
    exact H.
Defined.

Lemma expireSample_safe_witness :
  let '(s', scanned, gone) := expireSample 3 (60 * Second) (starving_range 0 starving_store) starving_store in
  store_wf s' /\ journal s' = journal starving_store /\
  (forall k, entry_at s' k = entry_at starving_store k \/
     entry_at s' k = None /\
     exists e, entry_at starving_store k = Some e /\ expired e (60 * Second) = true) /\
  gone = Len starving_store - Len s' /\ 0 <= gone <= scanned /\ scanned <= 3.
Proof. apply (expireSample_safe 3); [apply starving_store_wf|lia]. Defined.

Lemma expireSample_complete_witness :
  (expireSample 25 (60 * Second) (starving_range 0 starving_store) starving_store).1.2 < 25 /\
  forall k e,
    entry_at (expireSample 25 (60 * Second) (starving_range 0 starving_store) starving_store).1.1 k
    = Some e -> expired e (60 * Second) = false.
Proof.
  assert (H : (expireSample 25 (60 * Second) (starving_range 0 starving_store) starving_store).1.2 < 25)
    by (apply Z.ltb_lt; vm_compute; reflexivity).
  split; [exact H|].
  apply (expireSample_complete 25 (60 * Second) (starving_range 0 starving_store) starving_store).
  - apply starving_store_wf.
  - apply starving_range_valid.
  - lia.
  - exact H.
Defined.

Lemma activeExpireCycle_bounded_witness :
  let '(s', scanned, gone) := activeExpireCycle minute starving_range starving_store in
  store_wf s' /\ journal s' = journal starving_store /\ 0 <= gone <= scanned /\ scanned <= 320 /\
  (forall k, entry_at s' k = entry_at starving_store k \/
     entry_at s' k = None /\
     exists e r, entry_at starving_store k = Some e /\ (r < 16)%nat /\ expired e (minute r) = true).
Proof. apply (activeExpireCycle_bounded minute starving_range starving_store), starving_store_wf. Defined.
