(* ===== verification/Evict.v ===== *)
(** * internal/store/evict.go: memory accounting and eviction

    [Used] adds the shards' subtotals; [pickVictim] samples up to
    [evictSampleSize] keys, shard 0 first, and keeps the least recently used;
    [EnforceMemoryLimit] evicts until the estimate fits the budget.  The order of
    a range over a shard's map is the argument [range], a function of the state
    the range runs in.  The eviction loop has fuel, one unit per key: every
    iteration removes a key that is there, so the fuel is never used up.

    [strings.ToLower] and [strings.TrimSpace] are given on ASCII text; on other
    text they follow Unicode's tables, which are parameters here. *)

From stdpp Require Import base gmap list strings.
From Stdlib Require Import ZArith Lia.
From Stdlib Require Import Strings.Byte.
From S2P Require Import Prelude.
From S2P Require Import GoStrconv.
From S2P Require Import GoTime.
From S2P Require Import Shard.
From S2P Require Import Store.
From S2P Require Import StoreInv.

#[local] Open Scope Z_scope.

(** ** Policies *)

Definition PolicyNoEviction : bytes := bs "noeviction".
Definition PolicyAllKeysLRU : bytes := bs "allkeys-lru".
Definition PolicyAllKeysRandom : bytes := bs "allkeys-random".
Definition PolicyVolatileLRU : bytes := bs "volatile-lru".

Section Text.
(** The Unicode paths of [strings.ToLower] and [strings.TrimSpace]. *)
Context (unicodeToLower unicodeTrimSpace : bytes -> bytes).

Definition ToLower (s : bytes) : bytes :=
  if is_ascii s then lower_byte <$> s else unicodeToLower s.

Definition is_space (c : byte) : bool :=
  (byteZ c =? 32) || ((9 <=? byteZ c) && (byteZ c <=? 13)).

Fixpoint trimLeft (s : bytes) : bytes :=
  match s with
  | c :: s' => if is_space c then trimLeft s' else s
  | [] => []
  end.

Definition TrimSpace (s : bytes) : bytes :=
  if is_ascii s then reverse (trimLeft (reverse (trimLeft s))) else unicodeTrimSpace s.

Definition HasSuffix (s suffix : bytes) : bool :=
  bool_decide (drop (length s - length suffix) s = suffix).

Definition TrimSuffix (s suffix : bytes) : bytes :=
  if HasSuffix s suffix then take (length s - length suffix) s else s.

(** [ParseEvictionPolicy]; [None] for the error. *)
Definition ParseEvictionPolicy (s : bytes) : option bytes :=
  let p := ToLower s in
  if bool_decide (p ∈ [PolicyNoEviction; PolicyAllKeysLRU; PolicyAllKeysRandom;
                       PolicyVolatileLRU])
  then Some p else None.

Definition memorySuffixes : list (bytes * Z) :=
  [(bs "kb", Z.shiftl 1 10); (bs "mb", Z.shiftl 1 20); (bs "gb", Z.shiftl 1 30);
   (bs "k", Z.shiftl 1 10); (bs "m", Z.shiftl 1 20); (bs "g", Z.shiftl 1 30); (bs "b", 1)].

(** The suffix loop of [ParseMemory]. *)
Fixpoint splitSuffix (t : bytes) (suffixes : list (bytes * Z)) : bytes * Z :=
  match suffixes with
  | [] => (t, 1)
  | (sfx, m) :: rest =>
      if HasSuffix t sfx then (TrimSpace (TrimSuffix t sfx), m) else splitSuffix t rest
  end.

Inductive MemoryError : Type := InvalidMemorySize | NegativeMemorySize.

Definition ParseMemory (s : bytes) : Z + MemoryError :=
  let '(t, mult) := splitSuffix (ToLower (TrimSpace s)) memorySuffixes in
  match ParseInt t with
  | inr _ => inr InvalidMemorySize
  | inl n => if n <? 0 then inr NegativeMemorySize else inl (wrap64 (n * mult))
  end.
End Text.

(** ** Eviction *)

Definition evictSampleSize : Z := 5.

(** The variables of [pickVictim]. *)
Record sampler : Type := mkSampler {
  best : bytes; bestAtime : Z; found : bool; scanned : Z
}.

Section Evict.
Context {J : Type} `{!Journal J}.
Implicit Types s : Store J.

Definition SetMemoryLimit (limit : Z) (p : bytes) s : Store J :=
  mkStore (readShards s) (journal s) limit p (clock s) (stats s).

Definition Used s : Z := foldl (fun u sh => wrap64 (u + used sh)) 0 (readShards s).

Definition MaxMemory s : Z := maxMemory s.

Definition Policy s : bytes := if bool_decide (policy s = []) then PolicyNoEviction else policy s.

(** The closure [sample]: the new sample and whether to go on. *)
Definition sample s (key : bytes) (st : sampler) : sampler * bool :=
  match data (shardOf s key) !! key with
  | None => (st, true)
  | Some e =>
      let sc := scanned st + 1 in
      let st' := if negb (found st) || (atime e <? bestAtime st)
                 then mkSampler key (atime e) true sc
                 else mkSampler (best st) (bestAtime st) (found st) sc in
      (st', sc <? evictSampleSize)
  end.

Fixpoint sampleKeys s (keys : list bytes) (st : sampler) : sampler :=
  match keys with
  | [] => st
  | key :: keys' =>
      let '(st', go) := sample s key st in
      if go then sampleKeys s keys' st' else st'
  end.

(** The loop of [pickVictim] over the shards from the [i]-th on. *)
Fixpoint pickShards s (range : nat -> list bytes) (i : nat) (shards : list readShard)
    (st : sampler) : option bytes :=
  match shards with
  | [] => if found st then Some (best st) else None
  | sh :: rest =>
      if bool_decide (Policy s = PolicyVolatileLRU)
         || negb (bool_decide (Policy s = PolicyAllKeysRandom)) then
        let st' := sampleKeys s (range i) st in
        if evictSampleSize <=? scanned st'
        then (if found st' then Some (best st') else None)
        else pickShards s range (S i) rest st'
      else
        match range i with
        | key :: _ => Some key
        | [] => if evictSampleSize <=? scanned st
                then (if found st then Some (best st) else None)
                else pickShards s range (S i) rest st
        end
  end.

Definition pickVictim (range : nat -> list bytes) s : option bytes :=
  pickShards s range 0 (readShards s) (mkSampler [] 0 false 0).

Definition addEvicted s : Store J :=
  let st := stats s in
  setStats (mkStats (KeyspaceHits st) (KeyspaceMisses st)
              (wrapU64 (EvictedKeys st + 1)) (ExpiredKeys st)) s.

(** One iteration's effect on the store. *)
Definition evict (key : bytes) s : Store J :=
  propagate [cmdDEL; key] (addEvicted (deleteLocked key s)).

(** The loop of [EnforceMemoryLimit]; [None] when the fuel is used up. *)
Fixpoint evictLoop (fuel : nat) (range : Store J -> nat -> list bytes) (evicted : Z) s :
    option (Store J * Z * bool) :=
  match fuel with
  | O => None
  | S f =>
      if maxMemory s <? Used s then
        match pickVictim (range s) s with
        | None => Some (s, evicted, false)
        | Some key => evictLoop f range (evicted + 1) (evict key s)
        end
      else Some (s, evicted, true)
  end.

Definition EnforceMemoryLimit (range : Store J -> nat -> list bytes) s :
    option (Store J * Z * bool) :=
  if maxMemory s <=? 0 then Some (s, 0, true)
  else if Used s <=? maxMemory s then Some (s, 0, true)
  else if bool_decide (Policy s = PolicyNoEviction) then Some (s, 0, false)
  else evictLoop (S (Z.to_nat (Len s))) range 0 s.
End Evict.

(** ** The victim, by a reference definition *)

(** One candidate against the best so far. *)
Definition consider {J} (s : Store J) (o : option (bytes * Z)) (key : bytes) : option (bytes * Z) :=
  match entry_at s key with
  | None => o
  | Some e =>
      match o with
      | None => Some (key, atime e)
      | Some (_, a) => if atime e <? a then Some (key, atime e) else o
      end
  end.

(** The least recently used of [keys], the first of them on a tie. *)
Definition oldest {J} (s : Store J) (keys : list bytes) : option bytes :=
  fst <$> foldl (consider s) None keys.

Section Victim.
Context {J : Type} `{!Journal J}.
Implicit Types s : Store J.

(** The best so far of a sampler. *)
Definition bestOf (st : sampler) : option (bytes * Z) :=
  if found st then Some (best st, bestAtime st) else None.

Lemma sample_present s key st :
  is_Some (entry_at s key) ->
  bestOf (sample s key st).1 = consider s (bestOf st) key /\
  scanned (sample s key st).1 = scanned st + 1 /\
  (sample s key st).2 = (scanned st + 1 <? evictSampleSize).
Proof.
  intros [e He]. unfold sample, consider, bestOf. unfold entry_at in *. rewrite He.
  destruct (found st); simpl; [|done].
  destruct (atime e <? bestAtime st); simpl; done.
Qed.

Lemma sampleKeys_spec s keys st :
  Forall (fun k => is_Some (entry_at s k)) keys -> scanned st < evictSampleSize ->
  let seen := take (Z.to_nat (evictSampleSize - scanned st)) keys in
  bestOf (sampleKeys s keys st) = foldl (consider s) (bestOf st) seen /\
  scanned (sampleKeys s keys st) = scanned st + lenZ seen.
Proof.
  intros Hp. revert st. induction Hp as [|key keys Hk _ IH]; intros st Hsc; cbn [sampleKeys].
  { rewrite take_nil. simpl. unfold lenZ; simpl. split; [done|lia]. }
  destruct (sample_present s key st Hk) as (Hb & Hs & Hgo).
  destruct (sample s key st) as [st' go]. simpl in Hb, Hs, Hgo.
  destruct (Z.to_nat (evictSampleSize - scanned st)) as [|m] eqn:Hm; [lia|].
  cbn [take foldl]. rewrite <- Hb. subst go.
  destruct (Z.ltb_spec (scanned st + 1) evictSampleSize).
  - destruct (IH st') as [IH1 IH2]; [lia|].
    replace (Z.to_nat (evictSampleSize - scanned st')) with m in * by lia.
    split; [done|]. rewrite IH2. unfold lenZ. cbn [length]. lia.
  - replace m with 0%nat by lia. cbn [take foldl]. split; [done|]. by rewrite Hs.
Qed.

(** The keys an LRU policy may consider, in the order of the scan. *)
Definition candidates (range : nat -> list bytes) (i n : nat) : list bytes :=
  concat (range <$> seq i n).

Lemma candidates_S range i n : candidates range i (S n) = range i ++ candidates range (S i) n.
Proof. reflexivity. Qed.

Definition uses_lru s : bool :=
  bool_decide (Policy s = PolicyVolatileLRU) || negb (bool_decide (Policy s = PolicyAllKeysRandom)).

Lemma pickShards_lru s range i shards st :
  uses_lru s = true ->
  Forall (fun k => is_Some (entry_at s k)) (candidates range i (length shards)) ->
  scanned st < evictSampleSize ->
  pickShards s range i shards st =
  fst <$> foldl (consider s) (bestOf st)
    (take (Z.to_nat (evictSampleSize - scanned st)) (candidates range i (length shards))).
Proof.
  intros Hu. revert i st. induction shards as [|sh shards IH]; intros i st Hp Hsc.
  { simpl. unfold candidates. simpl. rewrite take_nil. unfold bestOf. simpl. by destruct (found st). }
  cbn [pickShards length]. unfold uses_lru in Hu. rewrite Hu.
  cbn [length] in Hp. rewrite candidates_S in *. apply Forall_app in Hp as [Hp1 Hp2].
  destruct (sampleKeys_spec s (range i) st Hp1 Hsc) as [Hb Hs].
  set (st' := sampleKeys s (range i) st) in *.
  rewrite take_app, foldl_app, <- Hb.
  unfold lenZ in Hs. rewrite length_take in Hs.
  destruct (Z.leb_spec evictSampleSize (scanned st')).
  - replace (Z.to_nat (evictSampleSize - scanned st) - length (range i))%nat with 0%nat by lia.
    unfold bestOf. simpl. by destruct (found st').
  - rewrite IH by done. do 3 f_equal. lia.
Qed.

(** Under the LRU policies the victim is the least recently used of the first
    [evictSampleSize] candidates of the scan. *)
Lemma pickVictim_lru range s :
  uses_lru s = true ->
  Forall (fun k => is_Some (entry_at s k)) (candidates range 0 (length (readShards s))) ->
  pickVictim range s =
  oldest s (take (Z.to_nat evictSampleSize) (candidates range 0 (length (readShards s)))).
Proof. intros Hu Hp. unfold pickVictim. by rewrite pickShards_lru. Qed.

(** Under allkeys-random it is the first key of the scan. *)
Lemma pickVictim_random range s :
  uses_lru s = false ->
  pickVictim range s = head (candidates range 0 (length (readShards s))).
Proof.
  intros Hu. unfold pickVictim. generalize 0%nat as i.
  induction (readShards s) as [|sh shards IH]; intros i; [done|].
  cbn [pickShards length]. unfold uses_lru in Hu. rewrite Hu, candidates_S.
  destruct (range i) as [|k ks]; [|done]. simpl. apply IH.
Qed.

(** ** Minimality *)

Lemma foldl_consider s keys o :
  Forall (fun k => is_Some (entry_at s k)) keys ->
  match foldl (consider s) o keys with
  | None => o = None /\ keys = []
  | Some (k, a) =>
      (o = Some (k, a) \/ (k ∈ keys /\ atime <$> entry_at s k = Some a)) /\
      (forall k' a', o = Some (k', a') -> a <= a') /\
      (forall k' e', k' ∈ keys -> entry_at s k' = Some e' -> a <= atime e')
  end.
Proof.
  intros Hp. revert o. induction Hp as [|key keys [e He] _ IH]; intros o.
  { simpl. destruct o as [[k a]|]; [|done]. split; [by left|].
    split; [by intros ?? [= -> ->]|]. intros ?? H. by apply elem_of_nil in H. }
  cbn [foldl]. specialize (IH (consider s o key)).
  destruct (foldl (consider s) (consider s o key) keys) as [[k a]|].
  2: { destruct IH as [IH _]. exfalso. revert IH. unfold consider. rewrite He.
       destruct o as [[? ?]|]; [case_match|]; done. }
  destruct IH as (Ho & Hold & Hmin).
  assert (a <= atime e /\ (forall k' a', o = Some (k', a') -> a <= a')) as [Hae Hao].
  { unfold consider in Hold. rewrite He in Hold. destruct o as [[k0 a0]|].
    - destruct (Z.ltb_spec (atime e) a0); specialize (Hold _ _ eq_refl);
        split; try lia; intros ?? [= <- <-]; lia.
    - split; [by eapply Hold|done]. }
  split_and!; [|done|].
  - unfold consider in Ho. rewrite He in Ho.
    destruct Ho as [Ho|[? ?]]; [|right; split; [by right|done]].
    destruct o as [[k0 a0]|]; [destruct (atime e <? a0)|]; simplify_eq; auto;
      right; (split; [by left|by rewrite He]).
  - intros k' e' [->|Hk]%elem_of_cons Hk'; [by simplify_eq|by eapply Hmin].
Qed.

Lemma oldest_spec s keys :
  Forall (fun k => is_Some (entry_at s k)) keys ->
  match oldest s keys with
  | None => keys = []
  | Some k => k ∈ keys /\ exists e, entry_at s k = Some e /\
      forall k' e', k' ∈ keys -> entry_at s k' = Some e' -> atime e <= atime e'
  end.
Proof.
  intros Hp. pose proof (foldl_consider s keys None Hp) as H. unfold oldest.
  destruct (foldl (consider s) None keys) as [[k a]|]; simpl; [|by destruct H].
  destruct H as ([H|[Hk Ha]] & _ & Hmin); [done|]. split; [done|].
  destruct (entry_at s k) as [e|]; simplify_eq/=. exists e. split; [done|]. apply Hmin.
Qed.
End Victim.

(** ** Which keys the scan reaches *)

Section Enforce.
Context {J : Type} `{!Journal J}.
Implicit Types s : Store J.

(** The keys of a shard the policy may evict. *)
Definition pool s (sh : readShard) : gset bytes :=
  if bool_decide (Policy s = PolicyVolatileLRU) then expiring sh else dom (data sh).

(** A legal order in which Go may range over the shards' maps. *)
Definition valid_pools (range : nat -> list bytes) s : Prop :=
  forall i sh, readShards s !! i = Some sh -> range i ≡ₚ elements (pool s sh).

(** A key the policy may evict. *)
Definition evictable s (k : bytes) : Prop :=
  exists e, entry_at s k = Some e /\
            (Policy s = PolicyVolatileLRU -> IsZero (expiresAt e) = false).

Lemma pool_elem s i sh k :
  store_wf s -> readShards s !! i = Some sh ->
  k ∈ pool s sh <-> shardNo k = i /\ evictable s k.
Proof.
  intros Hwf Hi. pose proof (wf_shards _ Hwf _ _ Hi) as [Hr Hx _].
  assert (forall k e, data sh !! k = Some e -> entry_at s k = Some e) as He.
  { intros k' e H. unfold entry_at, shardOf. rewrite (Hr _ _ H).
    by rewrite (list_lookup_total_correct _ _ _ Hi). }
  assert (shardNo k = i -> entry_at s k = data sh !! k) as He'.
  { intros <-. unfold entry_at, shardOf. by rewrite (list_lookup_total_correct _ _ _ Hi). }
  unfold pool, evictable. case_bool_decide as Hp.
  - rewrite Hx. split.
    + intros (e & Hk & Hz). eauto 6.
    + intros (Hk & e & Hk' & Hz). rewrite He' in Hk' by done. eauto.
  - rewrite elem_of_dom. split.
    + intros [e Hk]. split; [by eapply Hr|]. exists e. split; [by apply He|done].
    + intros (Hk & e & Hk' & _). rewrite He' in Hk' by done. by exists e.
Qed.

Lemma candidates_elem range s k :
  store_wf s -> valid_pools range s ->
  k ∈ candidates range 0 (length (readShards s)) <-> evictable s k.
Proof.
  intros Hwf Hv. unfold candidates. rewrite list_elem_of_In, in_concat.
  split.
  - intros (l & Hl & Hk). apply list_elem_of_In, list_elem_of_fmap in Hl as (i & -> & Hi).
    apply elem_of_seq in Hi. destruct (lookup_lt_is_Some_2 (readShards s) i) as [sh Hsh]; [lia|].
    apply list_elem_of_In in Hk. rewrite (Hv _ _ Hsh), elem_of_elements in Hk.
    by apply (pool_elem _ _ _ _ Hwf Hsh).
  - intros Hk. exists (range (shardNo k)). pose proof (shardNo_lt k).
    pose proof (wf_length _ Hwf). split.
    + apply list_elem_of_In, list_elem_of_fmap. eexists. split; [done|].
      apply elem_of_seq. lia.
    + apply list_elem_of_In. rewrite (Hv _ _ (shardOf_lookup s k Hwf)), elem_of_elements.
      apply (pool_elem _ _ _ _ Hwf (shardOf_lookup s k Hwf)). done.
Qed.

Lemma pickVictim_spec range s :
  store_wf s -> valid_pools range s ->
  match pickVictim range s with
  | Some k => evictable s k
  | None => forall k, ~ evictable s k
  end.
Proof.
  intros Hwf Hv. pose proof (fun k => candidates_elem range s k Hwf Hv) as Hc.
  set (cs := candidates range 0 (length (readShards s))) in *.
  assert (Forall (fun k => is_Some (entry_at s k)) cs) as Hp.
  { apply Forall_forall. intros k (e & He & _)%Hc. by exists e. }
  assert (cs = [] -> forall k, ~ evictable s k) as Hnil.
  { intros H k Hk%Hc. rewrite H in Hk. by apply elem_of_nil in Hk. }
  destruct (uses_lru s) eqn:Hu.
  - rewrite pickVictim_lru by done. fold cs.
    pose proof (oldest_spec s (take (Z.to_nat evictSampleSize) cs)) as Ho.
    destruct (oldest s _) as [k|].
    + destruct Ho as [Hk _]; [by apply Forall_take|]. apply Hc.
      apply elem_of_take in Hk as (i & Hi & _). by eapply list_elem_of_lookup_2.
    + apply Hnil. specialize (Ho ltac:(by apply Forall_take)). by destruct cs.
  - rewrite pickVictim_random by done. fold cs. destruct cs as [|k cs'] eqn:Hcs; simpl; [by apply Hnil|].
    apply Hc. by left.
Qed.

(** ** One eviction *)

Lemma evict_entry s k k' :
  store_wf s -> entry_at (evict k s) k' = if decide (k = k') then None else entry_at s k'.
Proof.
  intros Hwf. unfold evict. rewrite entry_at_propagate. by apply deleteLIWLS_entry.
Qed.

Lemma evict_wf s k : store_wf s -> store_wf (evict k s).
Proof.
  intros Hwf. apply propagate_wf. eapply store_wf_ext; [|by apply deleteLIWLS_wf]. done.
Qed.

Lemma evictLoop_wf fuel range evicted s s' n ok :
  store_wf s -> evictLoop fuel range evicted s = Some (s', n, ok) -> store_wf s'.
Proof.
  revert evicted s. induction fuel as [|fuel IH]; intros evicted s Hwf; simpl; [done|].
  repeat case_match; intros; simplify_eq; eauto using evict_wf.
Qed.

Lemma EnforceMemoryLimit_wf range s s' n ok :
  store_wf s -> EnforceMemoryLimit range s = Some (s', n, ok) -> store_wf s'.
Proof.
  intros Hwf. unfold EnforceMemoryLimit.
  repeat case_match; intros; simplify_eq; eauto using evictLoop_wf.
Qed.

Lemma evict_Len s k : store_wf s -> is_Some (entry_at s k) -> Len (evict k s) = Len s - 1.
Proof.
  intros Hwf Hk. rewrite <- (Len_delete s k) by done.
  rewrite !Len_sumZ. unfold evict. by rewrite readShards_propagate.
Qed.

Lemma evict_config s k :
  maxMemory (evict k s) = maxMemory s /\ Policy (evict k s) = Policy s.
Proof. unfold evict, propagate, Policy. by case_match. Qed.

(** Evicting [keys], one after the other. *)
Definition evictAll (keys : list bytes) s : Store J := foldl (fun s k => evict k s) s keys.

Lemma evictLoop_spec fuel range evicted s :
  store_wf s -> (forall s', store_wf s' -> valid_pools (range s') s') -> Len s < Z.of_nat fuel ->
  exists victims ok, evictLoop fuel range evicted s = Some (evictAll victims s, evicted + lenZ victims, ok)
  /\ store_wf (evictAll victims s) /\ Len (evictAll victims s) = Len s - lenZ victims
  /\ NoDup victims /\ Forall (evictable s) victims
  /\ (forall k, entry_at (evictAll victims s) k = if bool_decide (k ∈ victims) then None else entry_at s k)
  /\ (if ok then Used (evictAll victims s) <= maxMemory s
      else maxMemory s < Used (evictAll victims s) /\ forall k, ~ evictable (evictAll victims s) k).
Proof.
  intros Hwf Hv. revert evicted s Hwf. induction fuel as [|f IH]; intros evicted s Hwf Hf.
  { pose proof (Len_nonneg s). lia. }
  cbn [evictLoop]. destruct (Z.ltb_spec (maxMemory s) (Used s)).
  2: { exists [], true. simpl. unfold lenZ. simpl. rewrite Z.add_0_r, Z.sub_0_r.
       split_and!; try done. constructor. }
  pose proof (pickVictim_spec (range s) s Hwf (Hv s Hwf)) as Hpick.
  destruct (pickVictim (range s) s) as [key|].
  2: { exists [], false. simpl. unfold lenZ. simpl. rewrite Z.add_0_r, Z.sub_0_r.
       split_and!; try done. constructor. }
  destruct Hpick as (e & He & Hz).
  pose proof (evict_Len s key Hwf ltac:(by exists e)) as Hlen.
  destruct (evict_config s key) as [Hmm Hpol].
  destruct (IH (evicted + 1) (evict key s)) as (vs & ok & -> & Hw & Hl & Hnd & Hall & Hent & Hok);
    [by apply evict_wf|lia|].
  exists (key :: vs), ok. rewrite Hmm in Hok. unfold lenZ in *. cbn [length evictAll foldl].
  fold (evictAll vs (evict key s)).
  assert (forall k, evictable (evict key s) k -> k <> key /\ evictable s k) as Hev.
  { intros k (e' & Hk & Hz'). rewrite evict_entry in Hk by done. case_decide; [done|].
    split; [done|]. exists e'. rewrite Hpol in Hz'. done. }
  split_and!; [do 3 f_equal; lia|done|lia| | | |done].
  - constructor; [|done]. intros Hin. rewrite Forall_forall in Hall.
    by destruct (Hev key (Hall _ Hin)).
  - constructor; [by exists e|]. eapply Forall_impl; [exact Hall|]. intros k Hk. by destruct (Hev k Hk).
  - intros k. rewrite Hent, evict_entry by done. do 2 case_bool_decide; try case_decide; set_solver.
Qed.

(** The loop's fuel is enough. *)
Lemma EnforceMemoryLimit_total range s :
  store_wf s -> (forall s', store_wf s' -> valid_pools (range s') s') ->
  exists s' n ok, EnforceMemoryLimit range s = Some (s', n, ok) /\ store_wf s'.
Proof.
  intros Hwf Hv. unfold EnforceMemoryLimit.
  destruct (maxMemory s <=? 0); [by eexists _, _, _|].
  destruct (Used s <=? maxMemory s); [by eexists _, _, _|].
  case_bool_decide; [by eexists _, _, _|].
  destruct (evictLoop_spec (S (Z.to_nat (Len s))) range 0 s Hwf Hv) as (vs & ok & -> & Hw & _);
    [pose proof (Len_nonneg s); lia|]. by eexists _, _, _.
Qed.
End Enforce.

Section EvictTheorems.
Context {J : Type} `{!Journal J}.
Implicit Types s : Store J.

(** C26. [EnforceMemoryLimit] terminates and does its job: it evicts a list of
    distinct keys, each one present and evictable under the policy (volatile keys
    only, under volatile-lru), leaves every other entry as it was, journals each
    eviction, reports how many there were, and answers true only when the estimate
    fits the budget; it answers false only when it does not, and then either the
    policy is noeviction and nothing was touched, or nothing evictable is left. *)
Theorem EnforceMemoryLimit_correct (range : Store J -> nat -> list bytes) s :
  store_wf s -> (forall s', store_wf s' -> valid_pools (range s') s') ->
  exists victims ok,
    EnforceMemoryLimit range s = Some (evictAll victims s, lenZ victims, ok) /\
    store_wf (evictAll victims s) /\ NoDup victims /\ Forall (evictable s) victims /\
    (forall k, entry_at (evictAll victims s) k
               = if bool_decide (k ∈ victims) then None else entry_at s k) /\
    (ok = true -> 0 < maxMemory s -> Used (evictAll victims s) <= maxMemory s) /\
    (ok = false -> maxMemory s < Used (evictAll victims s) /\
       (Policy s = PolicyNoEviction /\ victims = [] \/
        Policy s <> PolicyNoEviction /\ forall k, ~ evictable (evictAll victims s) k)).
Proof.
  intros Hwf Hv. unfold EnforceMemoryLimit.
  destruct (Z.leb_spec (maxMemory s) 0).
  { exists [], true. split_and!; try done; [constructor|lia]. }
  destruct (Z.leb_spec (Used s) (maxMemory s)).
  { exists [], true. split_and!; try done. constructor. }
  case_bool_decide as Hp.
  { exists [], false. split_and!; try done; [constructor|]. intros _. split; [done|by left]. }
  destruct (evictLoop_spec (S (Z.to_nat (Len s))) range 0 s Hwf Hv) as
    (vs & ok & -> & Hw & _ & Hnd & Hall & Hent & Hok); [pose proof (Len_nonneg s); lia|].
  exists vs, ok. split_and!; [done..| |].
  - by intros ->.
  - intros ->. destruct Hok. auto.
Qed.

(** C34. Approximated LRU is LRU on its sample: under the LRU policies the victim is
    present and its access time is at most that of every key in the sample, which
    is the first [evictSampleSize] evictable keys in scan order; there is no victim
    only if no key is evictable. *)
Theorem pickVictim_oldest (range : nat -> list bytes) s :
  store_wf s -> valid_pools range s -> Policy s <> PolicyAllKeysRandom ->
  match pickVictim range s with
  | Some k =>
      let smp := take 5 (candidates range 0 (length (readShards s))) in
      k ∈ smp /\ evictable s k /\ exists e, entry_at s k = Some e /\
      forall k' e', k' ∈ smp -> entry_at s k' = Some e' -> atime e <= atime e'
  | None => forall k, ~ evictable s k
  end.
Proof.
  intros Hwf Hv Hp. pose proof (pickVictim_spec range s Hwf Hv) as Hs.
  assert (Forall (fun k => is_Some (entry_at s k)) (candidates range 0 (length (readShards s))))
    as Hc.
  { apply Forall_forall. intros k (e & He & _)%candidates_elem; [by exists e|done|done]. }
  assert (uses_lru s = true) as Hu.
  { unfold uses_lru. rewrite (bool_decide_false (Policy s = PolicyAllKeysRandom)) by done.
    apply orb_true_r. }
  rewrite pickVictim_lru in * by done. change (Z.to_nat evictSampleSize) with 5%nat in *.
  pose proof (oldest_spec s (take 5 (candidates range 0 (length (readShards s))))) as Ho.
  destruct (oldest s _) as [k|]; [|done].
  destruct Ho as [Hk He]; [by apply Forall_take|]. done.
Qed.

(** The part of the scan a victim can come from. *)
Lemma pickVictim_head range s k :
  Forall (fun k => is_Some (entry_at s k)) (candidates range 0 (length (readShards s))) ->
  pickVictim range s = Some k ->
  k ∈ take (if bool_decide (Policy s = PolicyAllKeysRandom) then 1 else 5)
        (candidates range 0 (length (readShards s))).
Proof.
  intros Hc Hk. destruct (uses_lru s) eqn:Hu.
  - rewrite pickVictim_lru in Hk by done. change (Z.to_nat evictSampleSize) with 5%nat in Hk.
    assert (Policy s <> PolicyAllKeysRandom) as Hp.
    { intros Hp. unfold uses_lru in Hu. rewrite Hp in Hu. done. }
    rewrite bool_decide_false by done.
    pose proof (oldest_spec s (take 5 (candidates range 0 (length (readShards s))))) as Ho.
    rewrite Hk in Ho. destruct Ho as [Ho _]; [by apply Forall_take|done].
  - rewrite pickVictim_random in Hk by done.
    assert (Policy s = PolicyAllKeysRandom) as Hp.
    { unfold uses_lru in Hu. apply orb_false_iff in Hu as [_ Hu]. apply negb_false_iff in Hu.
      by apply bool_decide_eq_true in Hu. }
    rewrite bool_decide_true by done.
    destruct (candidates _ _ _) as [|c cs]; simplify_eq/=. by left.
Qed.

(** Eviction is biased to low-numbered shards: the sample is not drawn from the
    whole keyspace.  If shard [i] alone holds five evictable keys (one is enough
    under allkeys-random), no key of a later shard is ever chosen, however long it
    has been idle. *)
Theorem pickVictim_low_shards (range : nat -> list bytes) (i : nat) (sh : readShard) s k :
  store_wf s -> valid_pools range s ->
  readShards s !! i = Some sh ->
  (if bool_decide (Policy s = PolicyAllKeysRandom) then 1 else 5) <= Z.of_nat (size (pool s sh)) ->
  pickVictim range s = Some k ->
  (shardNo k <= i)%nat.
Proof.
  intros Hwf Hv Hi Hsz Hk.
  assert (forall k, k ∈ candidates range 0 (length (readShards s)) <-> evictable s k) as Hc
    by (intros; by apply candidates_elem).
  apply pickVictim_head in Hk.
  2: { apply Forall_forall. intros k' (e & He & _)%Hc. by exists e. }
  set (m := if bool_decide (Policy s = PolicyAllKeysRandom) then 1%nat else 5%nat) in *.
  assert (m <= length (candidates range 0 (S i)))%nat as Hm.
  { unfold candidates. rewrite seq_S, fmap_app, concat_app, length_app. cbn [fmap list_fmap concat].
    rewrite app_nil_r, (Hv _ _ Hi). unfold size, set_size in Hsz. unfold m.
    simpl in Hsz. case_bool_decide; lia. }
  pose proof (lookup_lt_Some _ _ _ Hi) as Hlt.
  assert (candidates range 0 (length (readShards s))
          = candidates range 0 (S i) ++ candidates range (S i) (length (readShards s) - S i)) as Hsplit.
  { unfold candidates. rewrite <- concat_app, <- fmap_app.
    replace (seq 0 (S i) ++ seq (S i) (length (readShards s) - S i))
      with (seq 0 (length (readShards s))); [done|].
    rewrite <- (seq_app (S i) _ 0). f_equal. lia. }
  rewrite Hsplit, take_app_le in Hk by done.
  apply elem_of_take in Hk as (j & Hj & _). apply list_elem_of_lookup_2 in Hj.
  unfold candidates in Hj. rewrite list_elem_of_In, in_concat in Hj.
  destruct Hj as (l & Hl & Hkl).
  apply list_elem_of_In, list_elem_of_fmap in Hl as (i' & -> & Hi').
  apply elem_of_seq in Hi'. destruct (lookup_lt_is_Some_2 (readShards s) i') as [sh' Hsh']; [lia|].
  apply list_elem_of_In in Hkl. rewrite (Hv _ _ Hsh'), elem_of_elements in Hkl.
  apply (pool_elem _ _ _ _ Hwf Hsh') in Hkl as [Hn _]. lia.
Qed.
End EvictTheorems.

(** ** A store over its budget *)

Definition pool_range {J} (s : Store J) (i : nat) : list bytes :=
  elements (pool s (readShards s !!! i)).

Lemma pool_range_valid {J} (s : Store J) : valid_pools (pool_range s) s.
Proof. intros i sh H. unfold pool_range. by rewrite (list_lookup_total_correct _ _ _ H). Qed.

Definition full_store (p : bytes) : Store (list (list bytes)) :=
  SetJournal [] (SetMemoryLimit 300 p
    (set (bs "e") (bs "1") (90 * Second)
       (tick (Set_ (bs "k") (bs "2") (tick (Set_ (bs "b") (bs "3") New)))))).

Lemma SetMemoryLimit_wf {J} limit p (s : Store J) : store_wf s -> store_wf (SetMemoryLimit limit p s).
Proof. by apply store_wf_ext. Qed.

Lemma full_store_wf p : store_wf (full_store p).
Proof. unfold full_store. auto 10 using SetMemoryLimit_wf with store. Qed.

Lemma EnforceMemoryLimit_correct_witness :
  EnforceMemoryLimit pool_range (full_store PolicyAllKeysLRU)
    = Some (evict (bs "b") (full_store PolicyAllKeysLRU), 1, true) /\
  journal (evict (bs "b") (full_store PolicyAllKeysLRU)) = Some [[bs "DEL"; bs "b"]] /\
  exists victims ok,
    EnforceMemoryLimit pool_range (full_store PolicyAllKeysLRU)
      = Some (evictAll victims (full_store PolicyAllKeysLRU), lenZ victims, ok) /\
    NoDup victims.
Proof.
  split; [vm_compute; reflexivity|]. split; [vm_compute; reflexivity|].
  destruct (EnforceMemoryLimit_correct pool_range (full_store PolicyAllKeysLRU)
              (full_store_wf _)) as (vs & ok & H1 & _ & H2 & _).
  - intros s' _. apply pool_range_valid.
  - exists vs, ok. split; [exact H1|exact H2].
Defined.

Lemma pickVictim_oldest_witness :
  pickVictim (pool_range (full_store PolicyAllKeysLRU)) (full_store PolicyAllKeysLRU) = Some (bs "b") /\
  match pickVictim (pool_range (full_store PolicyAllKeysLRU)) (full_store PolicyAllKeysLRU) with
  | Some k => k ∈ take 5 (candidates (pool_range (full_store PolicyAllKeysLRU)) 0
                            (length (readShards (full_store PolicyAllKeysLRU))))
  | None => forall k, ~ evictable (full_store PolicyAllKeysLRU) k
  end.
Proof.
  split; [vm_compute; reflexivity|].
  pose proof (pickVictim_oldest (pool_range (full_store PolicyAllKeysLRU))
                (full_store PolicyAllKeysLRU) (full_store_wf _) (pool_range_valid _)
                ltac:(by vm_compute)) as H.
  destruct (pickVictim _ _); [exact (proj1 H)|exact H].
Defined.

Lemma pickVictim_low_shards_witness : (shardNo (bs "e") <= 0)%nat.
Proof.
  apply (pickVictim_low_shards (pool_range (full_store PolicyAllKeysRandom)) 0
           (readShards (full_store PolicyAllKeysRandom) !!! 0%nat)
           (full_store PolicyAllKeysRandom)).
  - apply full_store_wf.
  - apply pool_range_valid.
  - vm_compute. reflexivity.
  - apply Z.leb_le. vm_compute. reflexivity.
  - vm_compute. reflexivity.
Defined.

(** ** Memory sizes *)

Lemma FormatInt_last n : 0 <= n -> exists ds d, FormatInt n = ds ++ [d] /\ all_digits (ds ++ [d]) = true.
Proof.
  intros Hn. unfold FormatInt. destruct (Z.ltb_spec n 0); [lia|].
  pose proof (formatDigits_digits 20 n [] Hn eq_refl) as Hd.
  pose proof (formatDigits_length 19 n []) as Hl.
  destruct (formatDigits 20 n []) as [|x l] eqn:Hf using rev_ind; [simpl in Hl; lia|].
  eauto.
Qed.

Lemma all_digits_ascii ds : all_digits ds = true -> is_ascii ds = true.
Proof.
  unfold all_digits, is_ascii. rewrite !forallb_forall. intros H c Hc.
  specialize (H c Hc). unfold is_digit in H. lia.
Qed.

Lemma digits_lower ds : all_digits ds = true -> lower_byte <$> ds = ds.
Proof.
  induction ds as [|c ds IH]; [done|]. simpl all_digits. intros [Hc Hd]%andb_prop.
  rewrite fmap_cons, IH by done. f_equal. unfold lower_byte, is_digit in *. by replace ((65 <=? byteZ c) && (byteZ c <=? 90)) with false by lia.
Qed.

Lemma digit_not_space c : is_digit c = true -> is_space c = false.
Proof. unfold is_digit, is_space. lia. Qed.

Lemma HasSuffix_app (x y sfx : bytes) :
  (length sfx <= length y)%nat ->
  HasSuffix (x ++ y) sfx = bool_decide (drop (length y - length sfx) y = sfx).
Proof.
  intros H. unfold HasSuffix. rewrite length_app.
  replace (length x + length y - length sfx)%nat
    with (length x + (length y - length sfx))%nat by lia.
  by rewrite drop_app_add.
Qed.

Lemma trimLeft_id s c : head s = Some c -> is_space c = false -> trimLeft s = s.
Proof. destruct s; simpl; intros; simplify_eq. by case_match. Qed.

Lemma TrimSpace_id ut s c d :
  is_ascii s = true -> head s = Some c -> is_space c = false ->
  last s = Some d -> is_space d = false -> TrimSpace ut s = s.
Proof.
  intros Ha Hc Hc' Hd Hd'. unfold TrimSpace. rewrite Ha, (trimLeft_id s c), (trimLeft_id _ d),
    reverse_involutive; [done| |done..]. by rewrite head_reverse.
Qed.

Lemma is_ascii_app x y : is_ascii (x ++ y) = is_ascii x && is_ascii y.
Proof. unfold is_ascii. apply forallb_app. Qed.

(** The suffix loop on a formatted number with a known suffix. *)
Lemma splitSuffix_number ut ds d sfx m :
  all_digits (ds ++ [d]) = true -> (sfx, m) ∈ memorySuffixes ->
  TrimSpace ut (ds ++ [d]) = ds ++ [d] ->
  splitSuffix ut ((ds ++ [d]) ++ sfx) memorySuffixes = (ds ++ [d], m).
Proof.
  intros Hd Hin Ht.
  assert (is_digit d = true) as Hdd.
  { unfold all_digits in Hd. rewrite forallb_app in Hd. simpl in Hd.
    by destruct (is_digit d), (forallb is_digit ds). }
  assert (forall y, TrimSuffix ((ds ++ [d]) ++ y) y = ds ++ [d]) as Hts.
  { intros y. unfold TrimSuffix. rewrite HasSuffix_app, Nat.sub_diag by done.
    rewrite bool_decide_true by done. rewrite length_app.
    replace (length (ds ++ [d]) + length y - length y)%nat with (length (ds ++ [d])) by lia.
    apply take_app_length. }
  assert (forall y z, (length z <= S (length y))%nat ->
    HasSuffix ((ds ++ [d]) ++ y) z = bool_decide (drop (S (length y) - length z) (d :: y) = z)) as Hhs.
  { intros y z Hl. rewrite <- app_assoc. change ([d] ++ y) with (d :: y).
    by rewrite HasSuffix_app. }
  repeat (apply elem_of_cons in Hin as [[= -> ->]|Hin]); [..|by apply elem_of_nil in Hin];
    unfold memorySuffixes; cbn [splitSuffix];
    rewrite !Hhs by (vm_compute; lia); rewrite Hts, Ht; clear - Hdd;
    destruct d; first [discriminate Hdd|reflexivity].
Qed.

Lemma HasSuffix_last s z c : HasSuffix s z = true -> last z = Some c -> last s = Some c.
Proof.
  unfold HasSuffix. intros H%bool_decide_eq_true Hz.
  rewrite <- (take_drop (length s - length z) s), H, last_app. by rewrite Hz.
Qed.

Lemma splitSuffix_plain ut ds d :
  is_digit d = true -> splitSuffix ut (ds ++ [d]) memorySuffixes = (ds ++ [d], 1).
Proof.
  intros Hd.
  assert (forall z c, last z = Some c -> is_digit c = false -> HasSuffix (ds ++ [d]) z = false) as H.
  { intros z c Hz Hc. destruct (HasSuffix (ds ++ [d]) z) eqn:Hs; [|done].
    pose proof (HasSuffix_last _ _ _ Hs Hz) as Hl. rewrite last_snoc in Hl. congruence. }
  unfold memorySuffixes. cbn [splitSuffix].
  rewrite (H (bs "kb") Byte.x62), (H (bs "mb") Byte.x62), (H (bs "gb") Byte.x62),
    (H (bs "k") Byte.x6b), (H (bs "m") Byte.x6d), (H (bs "g") Byte.x67), (H (bs "b") Byte.x62)
    by done.
  done.
Qed.

(** [ParseMemory] reads a byte budget the way redis.conf writes one: a
    non-negative [int64] followed by nothing or by one of the seven unit suffixes
    denotes the number times the unit, at the width of [int64]; when the product
    fits, that is the product itself. *)
Theorem ParseMemory_units (ul ut : bytes -> bytes) (n m : Z) (sfx : bytes) :
  0 <= n <= maxInt64 -> (sfx, m) ∈ ([], 1) :: memorySuffixes ->
  ParseMemory ul ut (FormatInt n ++ sfx) = inl (wrap64 (n * m)) /\
  (n * m <= maxInt64 -> wrap64 (n * m) = n * m).
Proof.
  intros Hn Hin. assert (0 <= m) as Hm.
  { repeat (apply elem_of_cons in Hin as [[= -> ->]|Hin]); [by vm_compute..|].
    by apply elem_of_nil in Hin. }
  split; [|intros; apply wrap64_small; unfold is_int64, minInt64; nia].
  destruct (FormatInt_last n) as (ds & d & Hf & Hd); [lia|].
  assert (is_digit d = true) as Hdd.
  { unfold all_digits in Hd. rewrite forallb_app in Hd. simpl in Hd.
    by destruct (is_digit d), (forallb is_digit ds). }
  assert (exists c, head (ds ++ [d]) = Some c /\ is_digit c = true) as (c & Hc & Hcd).
  { destruct ds as [|c ds]; [by exists d|]. exists c. split; [done|].
    simpl in Hd. by apply andb_prop in Hd as [? _]. }
  assert (TrimSpace ut (ds ++ [d]) = ds ++ [d]) as Ht.
  { eapply TrimSpace_id; [by apply all_digits_ascii|done|by apply digit_not_space| |].
    - by rewrite last_snoc.
    - by apply digit_not_space. }
  assert (splitSuffix ut (ToLower ul (TrimSpace ut ((ds ++ [d]) ++ sfx))) memorySuffixes
          = (ds ++ [d], m)) as Hs.
  { apply elem_of_cons in Hin as [[= -> ->]|Hin].
    - rewrite app_nil_r, Ht. unfold ToLower.
      rewrite all_digits_ascii, digits_lower by done. by apply splitSuffix_plain.
    - rewrite <- (splitSuffix_number ut ds d sfx m Hd Hin Ht). f_equal.
      assert (is_ascii sfx = true /\ lower_byte <$> sfx = sfx /\
              exists e, last sfx = Some e /\ is_space e = false) as (Ha & Hl & e & He & He').
      { clear - Hin. repeat (apply elem_of_cons in Hin as [[= -> ->]|Hin]);
          [..|by apply elem_of_nil in Hin]; (split_and!; [done..|by eexists]). }
      assert (is_ascii ((ds ++ [d]) ++ sfx) = true) as Ha'
        by (rewrite is_ascii_app, Ha, all_digits_ascii; done).
      rewrite (TrimSpace_id ut _ c e); [|done| |by apply digit_not_space| |done].
      + unfold ToLower. by rewrite Ha', fmap_app, digits_lower, Hl.
      + destruct ds; simpl in *; done.
      + by rewrite last_app, He. }
  unfold ParseMemory. rewrite Hf, Hs, <- Hf.
  rewrite ParseInt_FormatInt by (unfold is_int64, minInt64; lia).
  destruct (Z.ltb_spec n 0); [lia|done].
Qed.

Lemma ParseMemory_units_witness :
  ParseMemory id id (FormatInt 64 ++ bs "mb") = inl (wrap64 (64 * 1048576)) /\
  (64 * 1048576 <= maxInt64 -> wrap64 (64 * 1048576) = 64 * 1048576).
Proof.
  apply (ParseMemory_units id id 64 1048576 (bs "mb")).
  - split; [lia|by vm_compute].
  - apply (bool_decide_unpack _). vm_compute. exact I.
Defined.

(** The product of [ParseMemory] is not checked for overflow: a budget of
    2^34 gigabytes is accepted as 0 and one of 2^33 gigabytes as a negative number,
    and either one switches the memory limit off instead of being refused. *)
Theorem ParseMemory_overflow {J} `{!Journal J} (ul ut : bytes -> bytes)
    (range : Store J -> nat -> list bytes) (p : bytes) (s : Store J) :
  ParseMemory ul ut (bs "17179869184gb") = inl 0 /\
  ParseMemory ul ut (bs "8589934592gb") = inl minInt64 /\
  EnforceMemoryLimit range (SetMemoryLimit 0 p s) = Some (SetMemoryLimit 0 p s, 0, true) /\
  EnforceMemoryLimit range (SetMemoryLimit minInt64 p s) = Some (SetMemoryLimit minInt64 p s, 0, true).
Proof. split_and!; reflexivity. Qed.

(** [ParseEvictionPolicy] accepts the four policy names, in any ASCII case, and
    nothing else. *)
Lemma ParseEvictionPolicy_names (ul : bytes -> bytes) (t p : bytes) :
  is_ascii t = true ->
  (ParseEvictionPolicy ul t = Some p <->
   lower_byte <$> t = p /\ p ∈ [PolicyNoEviction; PolicyAllKeysLRU; PolicyAllKeysRandom; PolicyVolatileLRU]).
Proof.
  intros Ha. unfold ParseEvictionPolicy, ToLower. rewrite Ha.
  cbv zeta. case_bool_decide; split; [intros [= <-]; done|by intros [<- _]|done|by intros [<- ?]].
Qed.

Lemma ParseEvictionPolicy_names_witness :
  ParseEvictionPolicy id (bs "AllKeys-LRU") = Some PolicyAllKeysLRU.
Proof.
  apply (ParseEvictionPolicy_names id (bs "AllKeys-LRU") PolicyAllKeysLRU); [by vm_compute|].
  split; [by vm_compute|]. apply (bool_decide_unpack _). vm_compute. exact I.
Defined.
