(* ===== verification/Keyspace.v ===== *)
(** * The keyspace as one map

    [keyspace] is the union of the shards' maps.  Under the store's invariant the
    shards are disjoint, so what the store counts shard by shard ([Len], [DBSize],
    [Used]) is a count over this one map. *)

From stdpp Require Import base gmap list strings.
From Stdlib Require Import ZArith Lia.
From S2P Require Import Prelude.
From S2P Require Import GoTime.
From S2P Require Import Shard.
From S2P Require Import Store.
From S2P Require Import StoreInv.
From S2P Require Import Evict.

#[local] Open Scope Z_scope.

Definition shards_map (shards : list readShard) : gmap bytes entry := ⋃ (data <$> shards).

Definition keyspace {J} (s : Store J) : gmap bytes entry := shards_map (readShards s).

(** Shards numbered from [i] on hold only their own keys. *)
Definition routed (i : nat) (shards : list readShard) : Prop :=
  forall j sh k e, shards !! j = Some sh -> data sh !! k = Some e -> shardNo k = (i + j)%nat.

Lemma routed_tail i sh shards : routed i (sh :: shards) -> routed (S i) shards.
Proof.
  intros H j sh' k e Hj Hk. rewrite (H (S j) sh' k e Hj Hk). lia.
Qed.

Lemma shards_map_lookup i shards k :
  routed i shards ->
  shards_map shards !! k =
    if decide (i <= shardNo k)%nat then (sh ← shards !! (shardNo k - i)%nat; data sh !! k) else None.
Proof.
  revert i. induction shards as [|a shards IH]; intros i Hr.
  { unfold shards_map. simpl. rewrite lookup_empty. by case_decide. }
  unfold shards_map in *. rewrite fmap_cons. simpl. rewrite lookup_union.
  rewrite (IH (S i)) by (by eapply routed_tail).
  destruct (data a !! k) as [e|] eqn:Ha.
  - pose proof (Hr 0%nat a k e eq_refl Ha) as Hk.
    destruct (decide (S i <= shardNo k)%nat); [lia|].
    destruct (decide (i <= shardNo k)%nat); [|lia].
    replace (shardNo k - i)%nat with 0%nat by lia. simpl. by rewrite Ha.
  - rewrite (left_id_L None (∪)). destruct (decide (S i <= shardNo k)%nat).
    + destruct (decide (i <= shardNo k)%nat); [|lia].
      by replace (shardNo k - i)%nat with (S (shardNo k - S i)) by lia.
    + case_decide; [|done]. replace (shardNo k - i)%nat with 0%nat by lia. simpl. by rewrite Ha.
Qed.

(** A count that adds up over disjoint maps adds up over the shards. *)
Lemma shards_map_sum (g : gmap bytes entry -> Z) i shards :
  g ∅ = 0 -> (forall m1 m2, m1 ##ₘ m2 -> g (m1 ∪ m2) = g m1 + g m2) -> routed i shards ->
  g (shards_map shards) = sumZ (fun sh => g (data sh)) shards.
Proof.
  intros H0 Hadd. revert i. induction shards as [|a shards IH]; intros i Hr; [done|].
  unfold shards_map in *. rewrite fmap_cons. simpl. rewrite Hadd.
  - by rewrite (IH (S i)) by (by eapply routed_tail).
  - apply map_disjoint_spec. intros k x y Hx Hy.
    fold (shards_map shards) in Hy.
    rewrite (shards_map_lookup (S i)) in Hy by (by eapply routed_tail).
    pose proof (Hr 0%nat a k x eq_refl Hx) as Hk.
    by rewrite decide_False in Hy by lia.
Qed.

Lemma data_size_union m1 m2 : m1 ##ₘ m2 -> data_size (m1 ∪ m2) = data_size m1 + data_size m2.
Proof.
  induction m1 as [|k e m1 Hk IH] using map_ind; intros Hd.
  { by rewrite (left_id_L ∅ (∪)), data_size_empty. }
  apply map_disjoint_insert_l in Hd as [Hk2 Hd].
  rewrite <- insert_union_l, !data_size_insert, IH by (done || by apply lookup_union_None).
  lia.
Qed.

(** The entries not expired at [now]. *)
Definition live_entries (now : Time) (m : gmap bytes entry) : gmap bytes entry :=
  filter (fun '(_, e) => expired e now = false) m.

Lemma map_fold_live (now : Time) (n : Z) (m : gmap bytes entry) :
  map_fold (fun _ e c => if negb (expired e now) then c + 1 else c) n m
  = n + Z.of_nat (size (live_entries now m)).
Proof.
  unfold live_entries. induction m as [|k e m Hk IH] using map_ind.
  { rewrite map_fold_empty, map_filter_empty, map_size_empty. lia. }
  rewrite map_fold_insert_L, IH; [| |done].
  - destruct (expired e now) eqn:He; simpl.
    + rewrite map_filter_insert_False by (by rewrite He). by rewrite delete_id.
    + rewrite map_filter_insert_True by (by rewrite He).
      rewrite map_size_insert_None by (by apply map_lookup_filter_None; left). lia.
  - intros. repeat case_match; lia.
Qed.

Section Keyspace.
Context {J : Type} `{!Journal J}.
Implicit Types s : Store J.

Lemma store_routed s : store_wf s -> routed 0 (readShards s).
Proof. intros Hwf j sh k e Hj Hk. by apply (wf_routed _ _ (wf_shards _ Hwf _ _ Hj)) with e. Qed.

Lemma keyspace_lookup s k : store_wf s -> keyspace s !! k = entry_at s k.
Proof.
  intros Hwf. unfold keyspace. rewrite (shards_map_lookup 0) by (by apply store_routed).
  rewrite decide_True by lia. rewrite Nat.sub_0_r, (shardOf_lookup s k Hwf). done.
Qed.

Lemma DBSize_sum now s :
  DBSize now s = sumZ (fun sh => Z.of_nat (size (live_entries now (data sh)))) (readShards s).
Proof.
  unfold DBSize. rewrite <- (Z.add_0_l (sumZ _ _)). generalize 0.
  induction (readShards s) as [|sh l IH]; intros n; simpl; [lia|].
  rewrite IH, map_fold_live. lia.
Qed.

Lemma Used_sum s : Used s = wrap64 (sumZ used (readShards s)).
Proof.
  unfold Used. change 0 with (wrap64 0). rewrite <- (Z.add_0_l (sumZ _ _)).
  generalize 0. induction (readShards s) as [|sh l IH]; intros n; simpl; [f_equal; lia|].
  rewrite wrap64_add, IH. f_equal. lia.
Qed.

Lemma wrap64_sumZ (f g : readShard -> Z) l :
  (forall sh, sh ∈ l -> f sh = wrap64 (g sh)) -> wrap64 (sumZ f l) = wrap64 (sumZ g l).
Proof.
  induction l as [|a l IH]; intros H; [done|]. simpl.
  rewrite (H a) by (by left). rewrite wrap64_add, (Z.add_comm (g a)), <- wrap64_add.
  rewrite IH by (intros; apply H; by right). rewrite wrap64_add. f_equal. lia.
Qed.

(** C30. The store's counters are exact: in every well-formed state [Len] is the
    number of keys physically present, [DBSize] the number of keys a client can see
    at the clock reading it takes, and [Used], the figure the memory limit is
    enforced on, the sum of the estimated sizes of all entries at [int64] width. *)
Theorem store_counters_exact (now : Time) s :
  store_wf s ->
  Len s = Z.of_nat (size (keyspace s)) /\
  DBSize now s = Z.of_nat (size (live_entries now (keyspace s))) /\
  Used s = wrap64 (data_size (keyspace s)).
Proof.
  intros Hwf. pose proof (store_routed s Hwf) as Hr. unfold keyspace. split_and!.
  - rewrite Len_sumZ. symmetry.
    apply (shards_map_sum (fun m => Z.of_nat (size m)) 0); [done| |done].
    intros m1 m2 Hd. rewrite map_size_disj_union by done. lia.
  - rewrite DBSize_sum. symmetry.
    apply (shards_map_sum (fun m => Z.of_nat (size (live_entries now m))) 0); [| |done].
    + unfold live_entries. by rewrite map_filter_empty, map_size_empty.
    + intros m1 m2 Hd. unfold live_entries. rewrite map_filter_union by done.
      rewrite map_size_disj_union; [lia|]. by apply map_disjoint_filter.
  - rewrite Used_sum. rewrite (shards_map_sum data_size 0); [|done|apply data_size_union|done].
    apply wrap64_sumZ. intros sh Hsh. apply list_elem_of_lookup_1 in Hsh as [i Hi].
    apply (wf_used _ _ (wf_shards _ Hwf _ _ Hi)).
Qed.
End Keyspace.

Lemma store_counters_exact_witness :
  Len (full_store []) = 3 /\ DBSize (95 * Second) (full_store []) = 2 /\
  Used (full_store []) = wrap64 (data_size (keyspace (full_store []))).
Proof.
  destruct (store_counters_exact (95 * Second) (full_store []) (full_store_wf _)) as (H1 & H2 & H3).
  split_and!; [rewrite H1; vm_compute; reflexivity|rewrite H2; vm_compute; reflexivity|exact H3].
Defined.
