(* ===== verification/StoreSpec.v ===== *)
(** * What the store promises: an expiring map

    The abstract keyspace [kv] is one finite map from keys to a value and a
    deadline: no shards, no volatile-key index, no memory subtotals, no access
    times, no collection of expired keys.  A key whose deadline has been reached
    is simply not visible.  [spec] gives every operation's effect and reply on it,
    [run] calls the operations of Store.v and Expire.v.

    The refinement theorem: started in related states, any sequence of operations
    whose clock readings do not go backwards gives the same replies, and the states
    stay related, whatever the lazy and active collection of expired keys does in
    between. *)

From stdpp Require Import base gmap list strings sorting.
From Stdlib Require Import ZArith Lia.
From Stdlib Require Import Strings.Byte.
From S2P Require Import Prelude.
From S2P Require Import GoStrconv.
From S2P Require Import GoTime.
From S2P Require Import Shard.
From S2P Require Import Store.
From S2P Require Import StoreInv.
From S2P Require Import Expire.
From S2P Require Import Evict.
From S2P Require Import Keyspace.

#[local] Open Scope Z_scope.

(** ** The abstract keyspace *)

Abbreviation kv := (gmap bytes (bytes * Time)).

(** A deadline that has not been reached at [now]; no deadline never is. *)
Definition live (now : Time) (d : Time) : bool := IsZero d || (now <? d).

(** The visible binding of a key. *)
Definition vis (now : Time) (m : kv) (k : bytes) : option (bytes * Time) :=
  match m !! k with
  | Some (v, d) => if live now d then Some (v, d) else None
  | None => None
  end.

(** ** Operations *)

Inductive op : Type :=
| OpGet (now now' : Time) (key : bytes)
| OpTTL (now : Time) (key : bytes)
| OpExists (now : Time) (keys : list bytes)
| OpDBSize (now : Time)
| OpSet (key v : bytes)
| OpSetWithTTL (now : Time) (key v : bytes) (ttl : Duration)
| OpSetWithDeadline (now now' : Time) (key v : bytes) (at_ : Time)
| OpMSet (pairs : list Pair)
| OpIncrement (now : Time) (key : bytes) (delta : Z)
| OpAppend (now : Time) (key suffix : bytes)
| OpExpire (now now' : Time) (key : bytes) (ttl : Duration)
| OpExpireAt (now : Time) (key : bytes) (at_ : Time)
| OpDel (now : Time) (keys : list bytes)
| OpExpireSample (n : Z) (now : Time) (range : nat -> list bytes).

Inductive reply : Type :=
| RUnit
| RBytes (o : option bytes)
| RTTL (d : Duration) (st : TTLState)
| RInt (n : Z)
| RBool (b : bool)
| RIncr (r : Z + IncrError).

Section Run.
Context {J : Type} `{!Journal J}.
Implicit Types s : Store J.

Definition run (o : op) s : Store J * reply :=
  match o with
  | OpGet now now' key => let '(s', r) := Get now now' key s in (s', RBytes r)
  | OpTTL now key => let '(d, st) := TTL now key s in (s, RTTL d st)
  | OpExists now keys => (s, RInt (Exists now keys s))
  | OpDBSize now => (s, RInt (DBSize now s))
  | OpSet key v => (Set_ key v s, RUnit)
  | OpSetWithTTL now key v ttl => (SetWithTTL now key v ttl s, RUnit)
  | OpSetWithDeadline now now' key v at_ => (SetWithDeadline now now' key v at_ s, RUnit)
  | OpMSet pairs => (MSet pairs s, RUnit)
  | OpIncrement now key delta => let '(s', r) := Increment now key delta s in (s', RIncr r)
  | OpAppend now key suffix => let '(s', n) := Append now key suffix s in (s', RInt n)
  | OpExpire now now' key ttl => let '(s', b) := Expire now now' key ttl s in (s', RBool b)
  | OpExpireAt now key at_ => let '(s', b) := ExpireAt now key at_ s in (s', RBool b)
  | OpDel now keys => let '(s', n) := Del now keys s in (s', RInt n)
  | OpExpireSample n now range => let '(s', _, _) := expireSample n now range s in (s', RUnit)
  end.

Fixpoint runs (os : list op) s : Store J * list reply :=
  match os with
  | [] => (s, [])
  | o :: os' => let '(s1, r) := run o s in let '(s2, rs) := runs os' s1 in (s2, r :: rs)
  end.
End Run.

(** ** Their specification *)

(** The [int64] a value denotes, if it is the numeral of one. *)
Definition integer_of (v : bytes) : option Z :=
  match numeral v with
  | Some z => if decide (is_int64 z) then Some z else None
  | None => None
  end.

Definition spec_incr (now : Time) (key : bytes) (delta : Z) (m : kv) : kv * (Z + IncrError) :=
  let '(cur, d) := match vis now m key with
                   | Some (v, d) => (integer_of v, d)
                   | None => (Some 0, zeroTime)
                   end in
  match cur with
  | None => (m, inr ErrNotInteger)
  | Some n =>
      if decide (is_int64 (n + delta))
      then (<[key := (FormatInt (n + delta), d)]> m, inl (n + delta))
      else (m, inr ErrNotInteger)
  end.

Definition spec_expireAt (now : Time) (key : bytes) (at_ : Time) (m : kv) : kv * bool :=
  match vis now m key with
  | None => (m, false)
  | Some (v, _) => if at_ <=? now then (delete key m, true) else (<[key := (v, at_)]> m, true)
  end.

Definition spec_del (keys : list bytes) (m : kv) : kv := foldl (fun m k => delete k m) m keys.

Definition spec (o : op) (m : kv) : kv * reply :=
  match o with
  | OpGet now _ key => (m, RBytes (fst <$> vis now m key))
  | OpTTL now key =>
      (m, match vis now m key with
          | None => RTTL 0 KeyMissing
          | Some (_, d) => if IsZero d then RTTL 0 KeyPersistent
                           else RTTL (Time_Sub d now) KeyVolatile
          end)
  | OpExists now keys => (m, RInt (lenZ (filter (fun k => is_Some (vis now m k)) keys)))
  | OpDBSize now => (m, RInt (Z.of_nat (size (filter (fun '(_, (_, d)) => live now d = true) m))))
  | OpSet key v => (<[key := (v, zeroTime)]> m, RUnit)
  | OpSetWithTTL now key v ttl =>
      ((if ttl <=? 0 then delete key m else <[key := (v, now + ttl)]> m), RUnit)
  | OpSetWithDeadline now _ key v at_ =>
      ((if at_ <=? now then delete key m else <[key := (v, at_)]> m), RUnit)
  | OpMSet pairs =>
      (foldl (fun m p => <[Key p := (Value p, zeroTime)]> m) m pairs, RUnit)
  | OpIncrement now key delta => let '(m', r) := spec_incr now key delta m in (m', RIncr r)
  | OpAppend now key suffix =>
      let '(v, d) := default ([], zeroTime) (vis now m key) in
      (<[key := (v ++ suffix, d)]> m, RInt (lenZ (v ++ suffix)))
  | OpExpire now now' key ttl =>
      let '(m', b) := spec_expireAt now' key (now + ttl) m in (m', RBool b)
  | OpExpireAt now key at_ => let '(m', b) := spec_expireAt now key at_ m in (m', RBool b)
  | OpDel now keys =>
      (spec_del keys m,
       RInt (Z.of_nat (size (filter (fun k => is_Some (vis now m k)) (list_to_set keys : gset bytes)))))
  | OpExpireSample _ _ _ => (m, RUnit)
  end.

Fixpoint specs (os : list op) (m : kv) : kv * list reply :=
  match os with
  | [] => (m, [])
  | o :: os' => let '(m1, r) := spec o m in let '(m2, rs) := specs os' m1 in (m2, r :: rs)
  end.

(** ** Clock readings *)

(** The readings of an operation, in order. *)
Definition readings (o : op) : list Time :=
  match o with
  | OpGet now now' _ | OpExpire now now' _ _ | OpSetWithDeadline now now' _ _ _ => [now; now']
  | OpTTL now _ | OpExists now _ | OpDBSize now | OpSetWithTTL now _ _ _
  | OpIncrement now _ _ | OpAppend now _ _ | OpExpireAt now _ _ | OpDel now _
  | OpExpireSample _ now _ => [now]
  | OpSet _ _ | OpMSet _ => []
  end.

(** The last reading, [t] if there is none. *)
Definition lastReading (t : Time) (o : op) : Time := default t (last (readings o)).

(** Increments are [int64] and sample sizes are not negative. *)
Definition op_ok (o : op) : Prop :=
  match o with
  | OpIncrement _ _ delta => is_int64 delta
  | OpExpireSample n _ _ => 0 <= n
  | _ => True
  end.

(** The clock does not go backwards, from [t] on. *)
Fixpoint clocked (t : Time) (os : list op) : Prop :=
  match os with
  | [] => True
  | o :: os' =>
      StronglySorted Z.le (t :: readings o) /\ op_ok o /\ clocked (lastReading t o) os'
  end.

(** ** The relation *)

Lemma expired_live e now : expired e now = negb (live now (expiresAt e)).
Proof. unfold expired, live, Before. by rewrite negb_orb. Qed.

Lemma live_mono t t' d : t <= t' -> live t' d = true -> live t d = true.
Proof. unfold live. destruct (IsZero d); [done|]. simpl. lia. Qed.

Lemma live_later now d : now < d -> live now d = true.
Proof. unfold live. intros H. rewrite (proj2 (Z.ltb_lt now d)) by done. apply orb_true_r. Qed.

Section Refine.
Context {J : Type} `{!Journal J}.
Implicit Types s : Store J.

(** The visible binding of a key of the store. *)
Definition see (now : Time) s (k : bytes) : option (bytes * Time) :=
  match entry_at s k with
  | Some e => if live now (expiresAt e) then Some (val e, expiresAt e) else None
  | None => None
  end.

Record refines (t : Time) s (m : kv) : Prop := {
  ref_wf : store_wf s;
  ref_see : forall k, see t s k = vis t m k
}.

Lemma see_later t t' s k :
  t <= t' -> see t' s k = (p ← see t s k; if live t' p.2 then Some p else None).
Proof.
  intros Ht. unfold see. destruct (entry_at s k) as [e|]; [|done].
  destruct (live t' (expiresAt e)) eqn:Hl.
  - rewrite (live_mono _ _ _ Ht Hl). simpl. by rewrite Hl.
  - destruct (live t (expiresAt e)); simpl; [by rewrite Hl|done].
Qed.

Lemma vis_later t t' m k :
  t <= t' -> vis t' m k = (p ← vis t m k; if live t' p.2 then Some p else None).
Proof.
  intros Ht. unfold vis. destruct (m !! k) as [[v d]|]; [|done].
  destruct (live t' d) eqn:Hl.
  - rewrite (live_mono _ _ _ Ht Hl). simpl. by rewrite Hl.
  - destruct (live t d); simpl; [by rewrite Hl|done].
Qed.

Lemma refines_later t t' s m : t <= t' -> refines t s m -> refines t' s m.
Proof.
  intros Ht [Hwf Hs]. split; [done|]. intros k.
  by rewrite (see_later t t'), (vis_later t t'), Hs.
Qed.

Lemma refines_ext t s s' m : readShards s' = readShards s -> refines t s m -> refines t s' m.
Proof.
  intros H [Hwf Hs]. split; [by eapply store_wf_ext|]. intros k. rewrite <- Hs.
  unfold see. by rewrite (entry_at_ext _ _ _ H).
Qed.

(** A change of one key on both sides. *)
Lemma refines_update t s s' m m' k :
  refines t s m -> store_wf s' ->
  (forall k', k' <> k -> entry_at s' k' = entry_at s k' /\ m' !! k' = m !! k') ->
  see t s' k = vis t m' k -> refines t s' m'.
Proof.
  intros [Hwf Hs] Hwf' Hne Hk. split; [done|]. intros k'.
  destruct (decide (k' = k)) as [->|Hd]; [done|]. specialize (Hs k').
  destruct (Hne k' Hd) as [He Hm]. unfold see, vis in *. by rewrite He, Hm.
Qed.

Lemma refines_setLIWLS t s m k v d :
  refines t s m -> refines t (setLockedInWriteLockedShard k v d s) (<[k := (v, d)]> m).
Proof.
  intros Hr. pose proof (ref_wf _ _ _ Hr) as Hwf.
  apply (refines_update t s _ m _ k); [done|by apply setLIWLS_wf| |].
  - intros k' Hk. rewrite setLIWLS_entry by done. rewrite decide_False by done.
    by rewrite lookup_insert_ne.
  - unfold see, vis. rewrite setLIWLS_entry, decide_True by done. by rewrite lookup_insert_eq.
Qed.

Lemma refines_setLocked t s m k v d :
  refines t s m -> refines t (setLocked k v d s) (<[k := (v, d)]> m).
Proof.
  intros Hr. eapply refines_ext; [apply readShards_propagateSet|by apply refines_setLIWLS].
Qed.

Lemma refines_delete t s m k :
  refines t s m -> refines t (deleteLockedInWriteLockedShard k s) (delete k m).
Proof.
  intros Hr. pose proof (ref_wf _ _ _ Hr) as Hwf.
  apply (refines_update t s _ m _ k); [done|by apply deleteLIWLS_wf| |].
  - intros k' Hk. rewrite deleteLIWLS_entry by done. rewrite decide_False by done.
    by rewrite lookup_delete_ne.
  - unfold see, vis. rewrite deleteLIWLS_entry, decide_True by done. by rewrite lookup_delete_eq.
Qed.

(** Removing a key nobody can see. *)
Lemma refines_collect t s m k :
  refines t s m -> see t s k = None -> refines t (deleteLockedInWriteLockedShard k s) m.
Proof.
  intros Hr Hk. pose proof (ref_wf _ _ _ Hr) as Hwf.
  apply (refines_update t s _ m _ k); [done|by apply deleteLIWLS_wf| |].
  - intros k' Hne. rewrite deleteLIWLS_entry by done. by rewrite decide_False.
  - rewrite <- (ref_see _ _ _ Hr), Hk. unfold see. by rewrite deleteLIWLS_entry, decide_True.
Qed.

Lemma refines_propagate t s m args : refines t s m -> refines t (propagate args s) m.
Proof. apply refines_ext, readShards_propagate. Qed.

Lemma refines_setDeadline t s m k e d :
  refines t s m -> entry_at s k = Some e -> IsZero d = false ->
  refines t (setDeadline k e d s) (<[k := (val e, d)]> m).
Proof.
  intros Hr He Hd. pose proof (ref_wf _ _ _ Hr) as Hwf.
  apply (refines_update t s _ m _ k); [done|by apply setDeadline_wf| |].
  - intros k' Hne. rewrite setDeadline_entry by done. rewrite decide_False by done.
    by rewrite lookup_insert_ne.
  - unfold see, vis. rewrite setDeadline_entry, decide_True by done. by rewrite lookup_insert_eq.
Qed.

Lemma refines_touch t s m k e :
  refines t s m -> entry_at s k = Some e -> refines t (touch k e s) m.
Proof.
  intros Hr He. pose proof (ref_wf _ _ _ Hr) as Hwf.
  apply (refines_update t s _ m _ k); [done|by apply touch_wf| |].
  - intros k' Hne. rewrite touch_entry by done. by rewrite decide_False.
  - rewrite <- (ref_see _ _ _ Hr). unfold see. rewrite touch_entry, decide_True by done.
    by rewrite He.
Qed.
End Refine.

#[export] Hint Resolve refines_setLIWLS refines_setLocked refines_delete refines_collect
  refines_propagate refines_setDeadline refines_touch ref_wf : store.

Section Steps.
Context {J : Type} `{!Journal J}.
Implicit Types s : Store J.

(** One operation in related states: the same reply, related states. *)
Definition step_ok (t' : Time) (c : Store J * reply) (a : kv * reply) : Prop :=
  c.2 = a.2 /\ refines t' c.1 a.1.

(** What the lookup of a key tells about its visible binding. *)
Lemma vis_of_entry t s m k :
  refines t s m ->
  vis t m k = match entry_at s k with
              | Some e => if expired e t then None else Some (val e, expiresAt e)
              | None => None
              end.
Proof.
  intros Hr. rewrite <- (ref_see _ _ _ Hr). unfold see.
  destruct (entry_at s k); [|done]. rewrite expired_live. by destruct (live _ _).
Qed.

Lemma Get_step t now now' key s m :
  t <= now <= now' -> refines t s m ->
  step_ok now' (run (OpGet now now' key) s) (spec (OpGet now now' key) m).
Proof.
  intros Ht Hr. apply (refines_later t now) in Hr; [|lia].
  pose proof (vis_of_entry now s m key Hr) as Hv. unfold step_ok. simpl. rewrite Hv.
  assert (refines now' s m) as Hr' by (eapply refines_later; [|done]; lia).
  unfold Get, Get_with. fold (entry_at s key).
  destruct (entry_at s key) as [e|] eqn:He;
    [|split; [done|by eapply refines_ext; [|exact Hr']]].
  destruct (expired e now) eqn:Hx; simpl.
  - assert (expired e now' = true) as Hx'.
    { rewrite expired_live in *. apply negb_true_iff in Hx. apply negb_true_iff.
      destruct (live now' (expiresAt e)) eqn:Hl; [|done].
      apply (live_mono now) in Hl; [congruence|lia]. }
    rewrite Hx'. split; [done|]. apply refines_collect; [done|].
    unfold see. rewrite He. rewrite expired_live in Hx'. by destruct (live now' _).
  - split; [done|]. eapply refines_ext; [|by apply refines_touch]. done.
Qed.

Lemma TTL_step t now key s m :
  t <= now -> refines t s m -> step_ok now (run (OpTTL now key) s) (spec (OpTTL now key) m).
Proof.
  intros Ht Hr. apply (refines_later t now) in Hr; [|lia].
  pose proof (vis_of_entry now s m key Hr) as Hv. unfold step_ok. simpl. rewrite Hv.
  unfold TTL. fold (entry_at s key). destruct (entry_at s key) as [e|]; [|by split].
  fold (expired e now). destruct (expired e now); [by split|].
  by destruct (IsZero (expiresAt e)).
Qed.

Lemma existsKey_vis now s m k :
  refines now s m -> existsKey now s k = bool_decide (is_Some (vis now m k)).
Proof.
  intros Hr. rewrite (vis_of_entry _ _ _ _ Hr). unfold existsKey. fold (entry_at s k).
  by destruct (entry_at s k) as [e|]; [destruct (expired e now)|].
Qed.

Lemma Exists_step t now keys s m :
  t <= now -> refines t s m -> step_ok now (run (OpExists now keys) s) (spec (OpExists now keys) m).
Proof.
  intros Ht Hr. apply (refines_later t now) in Hr; [|lia]. unfold step_ok. simpl.
  split; [|done]. f_equal. unfold Exists. rewrite <- (Z.add_0_l (lenZ _)). generalize 0.
  unfold lenZ. induction keys as [|k keys IH]; intros n; simpl; [lia|].
  rewrite (existsKey_vis _ _ _ _ Hr), IH, filter_cons.
  case_bool_decide; case_decide; try done; simpl; lia.
Qed.

Lemma DBSize_step t now s m :
  t <= now -> refines t s m -> step_ok now (run (OpDBSize now) s) (spec (OpDBSize now) m).
Proof.
  intros Ht Hr. apply (refines_later t now) in Hr; [|lia]. unfold step_ok. simpl.
  split; [|done]. f_equal. pose proof (ref_wf _ _ _ Hr) as Hwf.
  rewrite DBSize_sum, <- (shards_map_sum (fun m => Z.of_nat (size (live_entries now m))) 0).
  - f_equal. rewrite <- (map_size_fmap (fun e => (val e, expiresAt e))). f_equal.
    apply map_eq. intros k. rewrite lookup_fmap.
    pose proof (ref_see _ _ _ Hr k) as Hk. unfold see, vis in Hk.
    fold (keyspace s). unfold live_entries. rewrite !map_lookup_filter, keyspace_lookup by done.
    destruct (entry_at s k) as [e|], (m !! k) as [[v d]|]; simpl; rewrite ?expired_live.
    + repeat case_guard; simpl; destruct (live now (expiresAt e)), (live now d); done || congruence.
    + case_guard; simpl; destruct (live now (expiresAt e)); done.
    + case_guard; simpl; destruct (live now d); done.
    + done.
  - unfold live_entries. by rewrite map_filter_empty, map_size_empty.
  - intros m1 m2 Hd. unfold live_entries. rewrite map_filter_union by done.
    rewrite map_size_disj_union; [lia|]. by apply map_disjoint_filter.
  - by apply store_routed.
Qed.

(** ** Writes *)

(** Under related states [liveEntry] finds the visible binding. *)
Lemma liveEntry_refines now key s m :
  refines now s m ->
  let '(s1, found) := liveEntry now key s in
  refines now s1 m /\ vis now m key = (fun e => (val e, expiresAt e)) <$> found.
Proof.
  intros Hr. rewrite (vis_of_entry now s m key Hr). unfold liveEntry. fold (entry_at s key).
  destruct (entry_at s key) as [e|] eqn:He; [|done].
  destruct (expired e now) eqn:Hx; [|done]. split; [|done].
  apply refines_collect; [done|]. unfold see. rewrite He, expired_live in *.
  by destruct (live now (expiresAt e)).
Qed.

Lemma integer_of_ParseInt v :
  integer_of v = match ParseInt v with inl n => Some n | inr _ => None end.
Proof.
  unfold integer_of. destruct (ParseInt v) as [n|e] eqn:Hp.
  - apply ParseInt_spec in Hp as [-> Hn]. by case_decide.
  - destruct (numeral v) as [z|] eqn:Hz; [|done]. case_decide; [|done].
    assert (ParseInt v = inl z) by (by apply ParseInt_spec). congruence.
Qed.

Lemma integer_of_int64 v n : integer_of v = Some n -> is_int64 n.
Proof. unfold integer_of. repeat case_match; naive_solver. Qed.

(** The overflow test of [Increment] is exact. *)
Lemma overflow_guard n delta :
  is_int64 n -> is_int64 delta ->
  ((0 <? delta) && (wrap64 (maxInt64 - delta) <? n))
    || ((delta <? 0) && (n <? wrap64 (- maxInt64 - 1 - delta)))
  = negb (bool_decide (is_int64 (n + delta))).
Proof.
  intros Hn Hd. unfold is_int64, minInt64, maxInt64 in *.
  destruct (Z.ltb_spec 0 delta); destruct (Z.ltb_spec delta 0); try lia; simpl.
  - rewrite wrap64_small by (unfold is_int64, minInt64, maxInt64; lia). rewrite orb_false_r.
    destruct (Z.ltb_spec (2 ^ 63 - 1 - delta) n); case_bool_decide; done || lia.
  - rewrite wrap64_small by (unfold is_int64, minInt64, maxInt64; lia).
    destruct (Z.ltb_spec n (- (2 ^ 63 - 1) - 1 - delta)); case_bool_decide; done || lia.
  - case_bool_decide; done || lia.
Qed.

Lemma Increment_step t now key delta s m :
  t <= now -> is_int64 delta -> refines t s m ->
  step_ok now (run (OpIncrement now key delta) s) (spec (OpIncrement now key delta) m).
Proof.
  intros Ht Hd Hr. apply (refines_later t now) in Hr; [|lia].
  pose proof (liveEntry_refines now key s m Hr) as Hl. unfold step_ok. simpl.
  unfold Increment, spec_incr. destruct (liveEntry now key s) as [s1 found].
  destruct Hl as [Hr1 ->].
  assert (exists cur d, match (fun e => (val e, expiresAt e)) <$> found with
     | Some (v, d0) => (integer_of v, d0) | None => (Some 0, zeroTime) end = (cur, d) /\
     match found with
     | Some e => match ParseInt (val e) with inl n => Some n | inr _ => None end
     | None => Some 0 end = cur /\
     match found with Some e => expiresAt e | None => zeroTime end = d /\
     (forall n, cur = Some n -> is_int64 n)) as (cur & d & -> & -> & -> & Hcur).
  { destruct found as [e|]; simpl; eexists _, _; split_and!; try reflexivity.
    - by rewrite integer_of_ParseInt.
    - apply integer_of_int64.
    - intros n [= <-]. done. }
  destruct cur as [n|]; [|done]. specialize (Hcur n eq_refl).
  rewrite overflow_guard by done. case_decide as Hi.
  - rewrite bool_decide_true by done. simpl. rewrite wrap64_small by done.
    split; [done|by apply refines_setLocked].
  - by rewrite bool_decide_false.
Qed.

Lemma Append_step t now key suffix s m :
  t <= now -> refines t s m ->
  step_ok now (run (OpAppend now key suffix) s) (spec (OpAppend now key suffix) m).
Proof.
  intros Ht Hr. apply (refines_later t now) in Hr; [|lia].
  pose proof (liveEntry_refines now key s m Hr) as Hl. unfold step_ok. simpl.
  unfold Append. destruct (liveEntry now key s) as [s1 found]. destruct Hl as [Hr1 ->].
  destruct found as [e|]; simpl; (split; [done|by apply refines_setLocked]).
Qed.

Lemma MSet_step t pairs s m :
  refines t s m -> step_ok t (run (OpMSet pairs) s) (spec (OpMSet pairs) m).
Proof.
  intros Hr. split; [done|]. simpl. unfold MSet. apply refines_propagate.
  revert s m Hr. induction pairs as [|p pairs IH]; intros s m Hr; simpl; [done|].
  by apply IH, refines_setLIWLS.
Qed.

Lemma ExpireAt_refines now key at_ s m :
  zeroTime <= now -> refines now s m ->
  (ExpireAt now key at_ s).2 = (spec_expireAt now key at_ m).2 /\
  refines now (ExpireAt now key at_ s).1 (spec_expireAt now key at_ m).1.
Proof.
  intros Hz Hr. unfold ExpireAt, spec_expireAt. fold (entry_at s key).
  rewrite (vis_of_entry now s m key Hr).
  destruct (entry_at s key) as [e|] eqn:He; [|done].
  destruct (expired e now) eqn:Hx.
  - split; [done|]. apply refines_propagate, refines_collect; [done|].
    unfold see. rewrite He. rewrite expired_live in Hx. by destruct (live now _).
  - unfold After. rewrite Z.leb_antisym. destruct (now <? at_) eqn:Ha; simpl.
    + split; [done|]. apply refines_propagate, refines_setDeadline; [done..|].
      unfold IsZero. lia.
    + split; [done|]. by apply refines_propagate, refines_delete.
Qed.

Lemma ExpireAt_step t now key at_ s m :
  zeroTime <= t <= now -> refines t s m ->
  step_ok now (run (OpExpireAt now key at_) s) (spec (OpExpireAt now key at_) m).
Proof.
  intros Ht Hr. apply (refines_later t now) in Hr; [|lia].
  destruct (ExpireAt_refines now key at_ s m ltac:(lia) Hr) as [H1 H2].
  unfold step_ok. simpl. destruct (ExpireAt now key at_ s), (spec_expireAt now key at_ m).
  simpl in *. by rewrite H1.
Qed.

Lemma Expire_step t now now' key ttl s m :
  zeroTime <= t -> t <= now <= now' -> refines t s m ->
  step_ok now' (run (OpExpire now now' key ttl) s) (spec (OpExpire now now' key ttl) m).
Proof.
  intros Hz Ht Hr. apply (refines_later t now') in Hr; [|lia].
  destruct (ExpireAt_refines now' key (now + ttl) s m ltac:(lia) Hr) as [H1 H2].
  unfold step_ok. simpl. unfold Expire, Time_Add.
  destruct (ExpireAt now' key (now + ttl) s), (spec_expireAt now' key (now + ttl) m).
  simpl in *. by rewrite H1.
Qed.

Lemma ExpireSample_step t n now range s m :
  t <= now -> 0 <= n -> refines t s m ->
  step_ok now (run (OpExpireSample n now range) s) (spec (OpExpireSample n now range) m).
Proof.
  intros Ht Hn Hr. apply (refines_later t now) in Hr; [|lia]. unfold step_ok. simpl.
  pose proof (expireSample_spec n now range s (ref_wf _ _ _ Hr) Hn) as H.
  destruct (expireSample n now range s) as [[s' sc] go].
  destruct H as (Hwf & _ & Hk & _). split; [done|]. split; [done|]. intros k.
  rewrite <- (ref_see _ _ _ Hr k). unfold see. cbn [fst].
  destruct (Hk k) as [->|(-> & e & -> & Hx)]; [done|].
  rewrite expired_live in Hx. by destruct (live now (expiresAt e)).
Qed.

(** ** Deleting *)

(** The loop of [Del] counts each visible key once, the first time it meets it. *)
Lemma Del_loop_refines now keys removed n s m :
  refines now s m ->
  let '(s', _, n') := Del_loop now keys removed n s in
  refines now s' (spec_del keys m) /\
  n' = n + Z.of_nat (size (filter (fun k => is_Some (vis now m k)) (list_to_set keys : gset bytes))).
Proof.
  revert removed n s m. induction keys as [|k keys IH]; intros removed n s m Hr.
  { cbn [Del_loop spec_del foldl]. split; [done|].
    replace (filter _ (list_to_set [] : gset bytes)) with (∅ : gset bytes) by set_solver.
    rewrite size_empty. lia. }
  cbn [Del_loop spec_del foldl list_to_set]. fold (entry_at s k).
  assert (forall m', m' = delete k m ->
    filter (fun k => is_Some (vis now m k)) ({[k]} ∪ list_to_set keys : gset bytes)
    = filter (fun k => is_Some (vis now m k)) {[k]} ∪
      filter (fun k => is_Some (vis now m' k)) (list_to_set keys) /\
    filter (fun k => is_Some (vis now m k)) ({[k]} : gset bytes) ##
      filter (fun k => is_Some (vis now m' k)) (list_to_set keys)) as Hsplit.
  { intros m' ->. split.
    - apply set_eq. intros x. rewrite elem_of_union, !elem_of_filter, elem_of_union.
      rewrite elem_of_singleton. pose proof (@is_Some_None (bytes * Time)).
      destruct (decide (x = k)) as [->|Hne].
      + assert (vis now (delete k m) k = None) as -> by
          (unfold vis; by rewrite lookup_delete_eq). tauto.
      + assert (vis now (delete k m) x = vis now m x) as -> by
          (unfold vis; by rewrite lookup_delete_ne). tauto.
    - intros x [_ ->%elem_of_singleton]%elem_of_filter [[? Hx] _]%elem_of_filter.
      unfold vis in Hx. by rewrite lookup_delete_eq in Hx. }
  destruct (Hsplit _ eq_refl) as [-> Hdisj]. rewrite size_union by done.
  pose proof (vis_of_entry now s m k Hr) as Hv.
  destruct (entry_at s k) as [e|] eqn:He.
  - assert (refines now (deleteLockedInWriteLockedShard k s) (delete k m)) as Hr'
      by (by apply refines_delete).
    specialize (IH (removed ++ [k]) (if negb (expired e now) then n + 1 else n) _ _ Hr').
    destruct (Del_loop _ _ _ _ _) as [[s' rm'] n']. destruct IH as [Hs' ->].
    split; [done|]. destruct (expired e now); simpl.
    + rewrite filter_singleton_out by (rewrite Hv; by intros []). rewrite size_empty. lia.
    + rewrite filter_singleton_in by (by rewrite Hv). rewrite size_singleton. lia.
  - assert (refines now s (delete k m)) as Hr'.
    { apply (refines_update now s _ m _ k); [done|by apply ref_wf in Hr| |].
      - intros k' Hne. by rewrite lookup_delete_ne.
      - unfold see, vis. by rewrite He, lookup_delete_eq. }
    specialize (IH removed n s _ Hr').
    destruct (Del_loop _ _ _ _ _) as [[s' rm'] n']. destruct IH as [Hs' ->].
    split; [done|]. rewrite filter_singleton_out by (rewrite Hv; by intros []).
    rewrite size_empty. lia.
Qed.

Lemma Del_refines now keys s m :
  refines now s m ->
  refines now (Del now keys s).1 (spec_del keys m) /\
  (Del now keys s).2 =
    Z.of_nat (size (filter (fun k => is_Some (vis now m k)) (list_to_set keys : gset bytes))).
Proof.
  intros Hr. unfold Del. pose proof (Del_loop_refines now keys [] 0 s m Hr) as H.
  destruct (Del_loop now keys [] 0 s) as [[s' rm] n]. destruct H as [Hs ->].
  split; [|done]. simpl. case_match; [by apply refines_propagate|done].
Qed.

Lemma Del_step t now keys s m :
  t <= now -> refines t s m ->
  step_ok now (run (OpDel now keys) s) (spec (OpDel now keys) m).
Proof.
  intros Ht Hr. apply (refines_later t now) in Hr; [|lia].
  destruct (Del_refines now keys s m Hr) as [H1 H2]. unfold step_ok. simpl.
  destruct (Del now keys s). simpl in *. by rewrite H2.
Qed.

(** A deadline in the past deletes the key. *)
Lemma set_or_del t now key v at_ (past : bool) s m :
  t <= now -> refines t s m ->
  refines now (if past then (Del now [key] s).1 else set key v at_ s)
    (if past then delete key m else <[key := (v, at_)]> m).
Proof.
  intros Ht Hr. apply (refines_later t now) in Hr; [|lia].
  destruct past; [by apply (Del_refines now [key])|by apply refines_setLocked].
Qed.

Lemma run_step t o s m :
  zeroTime <= t -> StronglySorted Z.le (t :: readings o) -> op_ok o -> refines t s m ->
  step_ok (lastReading t o) (run o s) (spec o m).
Proof.
  intros Hz Hs Hok Hr. inversion_clear Hs as [|? ? Hs' Hall].
  destruct o; simpl in Hs', Hall, Hok; unfold lastReading; simpl;
    repeat match goal with
      | H : Forall _ (_ :: _) |- _ => inversion_clear H
      | H : StronglySorted _ (_ :: _) |- _ => inversion_clear H
      end.
  - by apply (Get_step t).
  - by apply (TTL_step t).
  - by apply (Exists_step t).
  - by apply (DBSize_step t).
  - split; [done|by apply refines_setLocked].
  - split; [done|]. by apply (set_or_del t now key v (now + ttl) (ttl <=? 0)).
  - split; [done|]. unfold SetWithDeadline, After. rewrite Z.leb_antisym.
    apply (set_or_del t now' key v at_ (negb (now <? at_))); [lia|done].
  - by apply MSet_step.
  - by apply (Increment_step t).
  - by apply (Append_step t).
  - by apply (Expire_step t).
  - by apply (ExpireAt_step t).
  - by apply (Del_step t).
  - by apply (ExpireSample_step t).
Qed.
End Steps.

(** ** Sequences of operations *)

(** The clock after a sequence. *)
Definition endReading (t : Time) (os : list op) : Time := foldl lastReading t os.

Lemma lastReading_le t o : StronglySorted Z.le (t :: readings o) -> t <= lastReading t o.
Proof.
  intros H. inversion_clear H as [|? ? _ Hall]. unfold lastReading.
  destruct (last (readings o)) as [x|] eqn:Hx; simpl; [|lia].
  rewrite Forall_forall in Hall. apply Hall. by apply last_Some_elem_of.
Qed.

Section Theorems.
Context {J : Type} `{!Journal J}.
Implicit Types s : Store J.

(** Sequences of operations keep the relation. *)
Lemma runs_refine (t : Time) (os : list op) s (m : kv) :
  zeroTime <= t -> clocked t os -> refines t s m ->
  (runs os s).2 = (specs os m).2 /\
  refines (endReading t os) (runs os s).1 (specs os m).1.
Proof.
  revert t s m. induction os as [|o os IH]; intros t s m Hz Hc Hr; [done|].
  destruct Hc as (Hs & Hok & Hc).
  destruct (run_step t o s m Hz Hs Hok Hr) as [Hrep Hr'].
  apply lastReading_le in Hs. cbn [runs specs].
  destruct (run o s) as [s1 r], (spec o m) as [m1 r']. simpl in Hrep, Hr'. subst r'.
  specialize (IH (lastReading t o) s1 m1 ltac:(lia) Hc Hr').
  destruct (runs os s1), (specs os m1). simpl in *. destruct IH as [-> IH]. done.
Qed.

(** C2. The sharded store implements the expiring map: whatever sequence of reads,
    writes, deadline changes and collections clients and the background sampler
    run, as long as the clock does not go backwards, every reply is the one the
    abstract map gives, and the store's visible keys, values and deadlines are the
    map's at the end. *)
Theorem store_refines_expiring_map (t : Time) (os : list op) s (m : kv) :
  zeroTime <= t -> clocked t os -> refines t s m ->
  (runs os s).2 = (specs os m).2 /\
  refines (endReading t os) (runs os s).1 (specs os m).1.
Proof. apply runs_refine. Qed.

(** Every well-formed store implements some map. *)
Lemma wf_refines t s :
  store_wf s -> refines t s ((fun e => (val e, expiresAt e)) <$> keyspace s).
Proof.
  intros Hwf. split; [done|]. intros k. unfold see, vis.
  rewrite lookup_fmap, keyspace_lookup by done. by destruct (entry_at s k).
Qed.

Lemma run_wf o s :
  StronglySorted Z.le (zeroTime :: readings o) -> op_ok o -> store_wf s -> store_wf (run o s).1.
Proof.
  intros Hs Hok Hwf.
  destruct (run_step zeroTime o s _ (Z.le_refl _) Hs Hok (wf_refines _ _ Hwf)) as [_ Hr].
  by apply ref_wf in Hr.
Qed.

Lemma Get_with_wf window now now' key s :
  store_wf s -> store_wf (window s) -> store_wf (Get_with window now now' key s).1.
Proof.
  intros Hwf Hw. unfold Get_with, addMiss, addHit.
  repeat case_match; simpl; auto with store.
Qed.

(** ** Reachable states *)

(** Everything the program does to a store after creating it: client operations,
    an expired read interleaved with other clients at its lock window, the two
    background maintenance routines, and configuration. *)
Inductive reach (s : Store J) : Store J -> Prop :=
| reach_refl : reach s s
| reach_op o s1 :
    reach s s1 -> StronglySorted Z.le (zeroTime :: readings o) -> op_ok o ->
    reach s (run o s1).1
| reach_get now now' key s1 s2 :
    reach s s1 -> reach s s2 -> reach s (Get_with (fun _ => s2) now now' key s1).1
| reach_tick s1 : reach s s1 -> reach s (tick s1)
| reach_cycle now range s1 : reach s s1 -> reach s (activeExpireCycle now range s1).1.1
| reach_evict range s1 s2 n ok :
    reach s s1 -> EnforceMemoryLimit range s1 = Some (s2, n, ok) -> reach s s2
| reach_limit limit p s1 : reach s s1 -> reach s (SetMemoryLimit limit p s1)
| reach_journal j s1 : reach s s1 -> reach s (SetJournal j s1).

(** C27. The representation invariant is maintained: in every state reachable from
    the empty store each shard holds only keys that hash to it, its index of
    volatile keys is exact and its memory subtotal is the size of what it holds. *)
Theorem reachable_store_wf s : reach New s -> store_wf s.
Proof.
  induction 1; auto using Get_with_wf, SetMemoryLimit_wf, run_wf with store.
  - unfold activeExpireCycle.
    pose proof (expireRounds_bounded activeExpireMaxRounds now range s1 0 0 IHreach) as Hb.
    by destruct (expireRounds _ _ _ _ _ _) as [[? ?] ?]; destruct Hb.
  - by eapply EnforceMemoryLimit_wf.
Qed.

(** The lock window of an expired read is safe: [Get] that found its key expired
    answers nil, and after re-acquiring the lock it removes the key only if what is
    there {e now} has expired; a key another client has written in the window
    survives, and so does every other key. *)
Theorem Get_window_safe (window : Store J -> Store J) (now now' : Time) (key : bytes) (e : entry) s :
  entry_at s key = Some e -> expired e now = true -> store_wf (window s) ->
  let s1 := window s in
  let '(s', r) := Get_with window now now' key s in
  r = None /\ journal s' = journal s1 /\
  forall k, entry_at s' k =
    if bool_decide (k = key) then e1 ← entry_at s1 k; if expired e1 now' then None else Some e1
    else entry_at s1 k.
Proof.
  intros He Hx Hwf. unfold Get_with. fold (entry_at s key). rewrite He, Hx. simpl.
  fold (entry_at (window s) key).
  destruct (entry_at (window s) key) as [e1|] eqn:H1; [destruct (expired e1 now') eqn:Hx1|];
    (split_and!; [done|done|]; intros k; case_bool_decide as Hk;
     [subst k; rewrite ?deleteLIWLS_entry, ?H1 by done; simpl; rewrite ?Hx1; by rewrite ?decide_True
     |rewrite ?deleteLIWLS_entry by done; by rewrite ?decide_False]).
Qed.
End Theorems.

(** ** Runs *)

Lemma entry_at_New {J} k : entry_at (New (J := J)) k = None.
Proof.
  unfold entry_at, shardOf, New. cbn [readShards].
  rewrite lookup_total_replicate_2 by apply shardNo_lt. apply lookup_empty.
Qed.

(** The empty store implements the empty map. *)
Lemma New_refines {J} `{!Journal J} t : refines t (New (J := J)) ∅.
Proof. split; [apply New_wf|]. intros k. unfold see, vis. by rewrite entry_at_New, lookup_empty. Qed.

(** A session: a counter with a deadline that runs out between two reads. *)
Definition session : list op :=
  [OpSetWithTTL 10 (bs "n") (bs "41") 5;
   OpIncrement 11 (bs "n") 1;
   OpMSet [mkPair (bs "a") (bs "x"); mkPair (bs "b") (bs "y"); mkPair (bs "a") (bs "z")];
   OpAppend 12 (bs "a") (bs "!");
   OpGet 13 13 (bs "n");
   OpExpire 13 14 (bs "b") 100;
   OpGet 15 15 (bs "n");
   OpIncrement 16 (bs "a") 1;
   OpTTL 17 (bs "b");
   OpDBSize 17;
   OpDel 18 [bs "a"; bs "a"; bs "n"];
   OpExists 19 [bs "b"; bs "b"]].

(** Discharges [clocked] on a concrete list. *)
Ltac check_clock :=
  simpl;
  repeat match goal with
    | |- _ /\ _ => split
    | |- True => exact I
    | |- StronglySorted _ [] => constructor
    | |- StronglySorted _ (_ :: _) => constructor
    | |- Forall _ [] => constructor
    | |- Forall _ (_ :: _) => constructor
    | |- _ => unfold is_int64, minInt64, maxInt64, lastReading, zeroTime, Second; simpl; lia
    end.

Lemma store_refines_expiring_map_witness :
  clocked 0 session /\
  (runs session (New (J := list (list bytes)))).2 =
    [RUnit; RIncr (inl 42); RUnit; RInt 2; RBytes (Some (bs "42")); RBool true; RBytes None;
     RIncr (inr ErrNotInteger); RTTL 96 KeyVolatile; RInt 2; RInt 1; RInt 2].
Proof.
  assert (clocked 0 session) as Hc by (unfold session; check_clock).
  split; [exact Hc|].
  destruct (store_refines_expiring_map (J := list (list bytes)) 0 session New ∅) as [H _];
    [unfold zeroTime, Second; lia|exact Hc|apply New_refines|].
  rewrite H. vm_compute. reflexivity.
Defined.

(** Two clients: one reads an expired key, the other writes it in the window. *)
Definition stale : Store (list (list bytes)) := SetWithTTL 0 (bs "k") (bs "old") 5 New.
Definition rewritten : Store (list (list bytes)) := Set_ (bs "k") (bs "new") stale.

Lemma stale_wf : store_wf stale.
Proof. apply (run_wf (OpSetWithTTL 0 (bs "k") (bs "old") 5) New); [check_clock|done|apply New_wf]. Qed.

Lemma rewritten_wf : store_wf rewritten.
Proof. apply Set_wf, stale_wf. Qed.

Lemma reachable_store_wf_witness :
  store_wf (Get_with (fun _ => rewritten) 6 7 (bs "k") stale).1.
Proof.
  apply reachable_store_wf.
  assert (reach New stale) as Hs.
  { apply (reach_op _ (OpSetWithTTL 0 (bs "k") (bs "old") 5) New); [apply reach_refl| |done].
    check_clock. }
  apply reach_get; [exact Hs|].
  apply (reach_op _ (OpSet (bs "k") (bs "new")) stale); [exact Hs| |done].
  check_clock.
Defined.

Lemma Get_window_safe_witness :
  let '(s', r) := Get_with (fun _ => rewritten) 6 7 (bs "k") stale in
  r = None /\ val <$> entry_at s' (bs "k") = Some (bs "new").
Proof.
  pose proof (Get_window_safe (fun _ => rewritten) 6 7 (bs "k")
                (mkEntry (bs "old") 0 5) stale) as H.
  specialize (H ltac:(vm_compute; reflexivity) ltac:(reflexivity) rewritten_wf).
  destruct (Get_with _ _ _ _ _) as [s' r]. destruct H as (Hr & _ & Hk).
  split; [exact Hr|]. rewrite (Hk (bs "k")). vm_compute. reflexivity.
Defined.
