(* ===== verification/Settings.v ===== *)
(** * What operations never change

    No operation on the store changes the memory limit, the eviction policy or whether
    there is a journal. *)

From stdpp Require Import base gmap list strings sorting relations.
From Stdlib Require Import ZArith Lia.
From Stdlib Require Import Strings.Byte.
From S2P Require Import Prelude.
From S2P Require Import GoStrconv.
From S2P Require Import GoTime.
From S2P Require Import Store.
From S2P Require Import Expire.
From S2P Require Import Evict.
From S2P Require Import StoreSpec.

#[local] Open Scope Z_scope.

Section Settings.
Context {J : Type} `{!Journal J}.
Implicit Types s : Store J.

(** The memory limit, the policy and the absence of a journal stay as they are. *)
Definition configured s s' : Prop :=
  maxMemory s' = maxMemory s /\ policy s' = policy s /\ (journal s = None -> journal s' = None).

Lemma configured_refl s : configured s s.
Proof. done. Qed.

Lemma configured_trans s1 s2 s3 : configured s1 s2 -> configured s2 s3 -> configured s1 s3.
Proof. intros (H1 & H2 & H3) (K1 & K2 & K3). split_and!; [congruence..|auto]. Qed.

Lemma configured_propagate args s s' : configured s s' -> configured s (propagate args s').
Proof.
  intros (H1 & H2 & H3). unfold propagate. destruct (journal s') as [j|] eqn:Hj; [|by split_and!].
  split_and!; [done|done|]. intros Hn. apply H3 in Hn. congruence.
Qed.

Lemma configured_setShard k sh s s' : configured s s' -> configured s (setShard k sh s').
Proof. done. Qed.

Lemma configured_setStats st s s' : configured s s' -> configured s (setStats st s').
Proof. done. Qed.

Create HintDb settings.
#[local] Hint Resolve configured_refl configured_propagate configured_setShard configured_setStats : settings.

Lemma configured_setLIWLS k v a s s' :
  configured s s' -> configured s (setLockedInWriteLockedShard k v a s').
Proof. done. Qed.

Lemma configured_deleteLIWLS k s s' :
  configured s s' -> configured s (deleteLockedInWriteLockedShard k s').
Proof. done. Qed.
#[local] Hint Resolve configured_setLIWLS configured_deleteLIWLS : settings.

Lemma configured_setLocked k v a s s' : configured s s' -> configured s (setLocked k v a s').
Proof. intros H. unfold setLocked, propagateSetLocked. case_match; auto with settings. Qed.
#[local] Hint Resolve configured_setLocked : settings.

Lemma configured_Del_loop now ks removed n s s' :
  configured s s' -> configured s (Del_loop now ks removed n s').1.1.
Proof.
  revert removed n s'. induction ks as [|k ks IH]; intros removed n s' H; [done|]. cbn [Del_loop].
  case_match; auto with settings.
Qed.

Lemma configured_liveEntry now k s s' : configured s s' -> configured s (liveEntry now k s').1.
Proof. intros H. unfold liveEntry, deleteLocked. repeat case_match; simpl; auto with settings. Qed.

Lemma configured_Del now ks s s' : configured s s' -> configured s (Del now ks s').1.
Proof.
  intros H. unfold Del. pose proof (configured_Del_loop now ks [] 0 s s' H) as Hd.
  destruct (Del_loop now ks [] 0 s') as [[s1 removed] n]. simpl in *. case_match; auto with settings.
Qed.
#[local] Hint Resolve configured_Del : settings.

Lemma configured_MSet pairs s : configured s (MSet pairs s).
Proof.
  unfold MSet. apply configured_propagate.
  assert (forall s', configured s s' ->
    configured s (foldl (fun s p => setLockedInWriteLockedShard (Key p) (Value p) zeroTime s) s' pairs))
    as H; [|by apply H].
  induction pairs as [|p pairs IH]; intros s' Hs; [done|]. cbn [foldl]. apply IH. auto with settings.
Qed.

Lemma configured_ExpireAt now k a s : configured s (ExpireAt now k a s).1.
Proof. unfold ExpireAt, setDeadline. repeat case_match; simpl; auto with settings. Qed.

Lemma configured_Get_with window now now' k s :
  (forall s', configured s' (window s')) -> configured s (Get_with window now now' k s).1.
Proof.
  intros Hw. unfold Get_with, addHit, addMiss, touch.
  repeat case_match; simpl; auto with settings.
Qed.

Lemma configured_run o s : configured s (run o s).1.
Proof.
  destruct o; cbn [run].
  - pose proof (configured_Get_with (fun s => s) now now' key s configured_refl) as H.
    unfold Get. by destruct (Get_with _ _ _ _ _).
  - by destruct (TTL _ _ _).
  - done.
  - done.
  - unfold Set_, set. simpl. auto with settings.
  - unfold SetWithTTL, set. simpl. case_match; auto with settings.
  - unfold SetWithDeadline, set. simpl. case_match; auto with settings.
  - apply configured_MSet.
  - unfold Increment. pose proof (configured_liveEntry now key s s (configured_refl s)) as H.
    destruct (liveEntry now key s) as [s1 found]. repeat case_match; simplify_eq; simpl; auto with settings.
  - unfold Append. pose proof (configured_liveEntry now key s s (configured_refl s)) as H.
    destruct (liveEntry now key s) as [s1 found]. simpl. auto with settings.
  - unfold Expire. pose proof (configured_ExpireAt now' key (Time_Add now ttl) s) as H.
    by destruct (ExpireAt _ _ _ _).
  - pose proof (configured_ExpireAt now key at_ s) as H. by destruct (ExpireAt _ _ _ _).
  - pose proof (configured_Del now keys s s (configured_refl s)) as H. by destruct (Del _ _ _).
  - unfold expireSample. by destruct (expireShards _ _ _ _ _ _ _) as [[? ?] ?].
Qed.

Lemma configured_runs os s : configured s (runs os s).1.
Proof.
  revert s. induction os as [|o os IH]; intros s; [done|]. cbn [runs].
  pose proof (configured_run o s) as Ho. destruct (run o s) as [s1 r]. specialize (IH s1).
  destruct (runs os s1) as [s2 rs]. by eapply configured_trans.
Qed.

Lemma configured_evictLoop fuel range n s s' m ok :
  evictLoop fuel range n s = Some (s', m, ok) -> configured s s'.
Proof.
  revert n s. induction fuel as [|fuel IH]; intros n s; simpl; [done|].
  repeat case_match; intros; simplify_eq; [|done..].
  eapply configured_trans; [|by eapply IH]. unfold evict, addEvicted, deleteLocked. auto with settings.
Qed.

Lemma configured_EnforceMemoryLimit range s s' n ok :
  EnforceMemoryLimit range s = Some (s', n, ok) -> configured s s'.
Proof.
  unfold EnforceMemoryLimit. repeat case_match; intros; simplify_eq; try done.
  by eapply configured_evictLoop.
Qed.
End Settings.
