(* ===== verification/AofLog.v ===== *)
(** * internal/aof/aof.go: the append-only file

    The state of an open [aof.Log] together with the part of the operating system
    it uses.  Files are inodes in a list; the log's path names one of them and the
    log's descriptor another (the same one, except after a rewrite whose reopen
    failed).  Every system call consults a script of faults, so a theorem that
    quantifies over scripts covers every pattern of full disks and failing
    [fsync]s.  The buffer is the [bufio.Writer] of BufWriter.

    What a crash leaves on the disk is a prefix of the file's bytes that is at
    least as long as its synced part. *)

From stdpp Require Import base list strings.
From Stdlib Require Import ZArith Lia.
From Stdlib Require Import Strings.Byte.
From S2P Require Import Prelude.
From S2P Require Import RespWriter.
From S2P Require Import RespReader.
From S2P Require Import Store.
From S2P Require Import BufWriter.

(** ** Files and system calls *)

(** [synced] bytes of the content are on stable storage. *)
Record File : Type := mkFile { content : bytes; synced : nat }.

#[export] Instance File_inhabited : Inhabited File := populate (mkFile [] 0).

(** The outcome of the next system call: success, or an error after [n] bytes. *)
Abbreviation fault := (option (nat * error)).

Record OS : Type := mkOS { inodes : list File; linked : nat; faults : list fault }.

Definition nextFault (o : OS) : OS * fault :=
  match faults o with
  | [] => (o, None)
  | x :: rest => (mkOS (inodes o) (linked o) rest, x)
  end.

Definition fileAt (fd : nat) (o : OS) : File := inodes o !!! fd.

Definition setFile (fd : nat) (f : File) (o : OS) : OS :=
  mkOS (<[fd := f]> (inodes o)) (linked o) (faults o).

(** [f.Write(p)] on a file opened for appending: all of [p], or an error and the
    number of bytes that were written before it. *)
Definition file_Write (fd : nat) (p : bytes) (o : OS) : OS * (nat * option error) :=
  let '(o1, x) := nextFault o in
  let f := fileAt fd o1 in
  match x with
  | None => (setFile fd (mkFile (content f ++ p) (synced f)) o1, (length p, None))
  | Some (n, e) =>
      (setFile fd (mkFile (content f ++ take n p) (synced f)) o1,
       (Nat.min n (length p), Some e))
  end.

(** [f.Sync()]. *)
Definition file_Sync (fd : nat) (o : OS) : OS * option error :=
  let '(o1, x) := nextFault o in
  match x with
  | None => let f := fileAt fd o1 in
            (setFile fd (mkFile (content f) (length (content f))) o1, None)
  | Some (_, e) => (o1, Some e)
  end.

(** A call with no effect on the files: [Close], opening an existing file. *)
Definition sys_call (o : OS) : OS * option error :=
  let '(o1, x) := nextFault o in (o1, snd <$> x).

(** [os.CreateTemp]: a new empty file. *)
Definition createTemp (o : OS) : OS * (nat + error) :=
  let '(o1, x) := nextFault o in
  match x with
  | Some (_, e) => (o1, inr e)
  | None => (mkOS (inodes o1 ++ [mkFile [] 0]) (linked o1) (faults o1), inl (length (inodes o1)))
  end.

(** [os.Rename(tmpName, l.path)]: the path names the other file from now on. *)
Definition rename (fd : nat) (o : OS) : OS * option error :=
  let '(o1, x) := nextFault o in
  match x with
  | Some (_, e) => (o1, Some e)
  | None => (mkOS (inodes o1) fd (faults o1), None)
  end.

#[export] Instance OS_sink : Sink OS := file_Write.

#[global] Arguments file_Write : simpl never.

Definition writerBufSize : nat := Z.to_nat (64 * 1024).

#[global] Arguments writerBufSize : simpl never.

Abbreviation wstate := (OS * bufioWriter)%type.

#[export] Instance bufw_writer : IOWriter wstate := bufw_Write writerBufSize.

(** ** [Log] *)

Inductive Policy : Type := PolicyAlways | PolicyEverysec | PolicyNo.

#[export] Instance Policy_eq_dec : EqDecision Policy.
Proof. solve_decision. Defined.

Definition ParsePolicy (s : bytes) : Policy + error :=
  if bool_decide (s = bs "always") then inl PolicyAlways
  else if bool_decide (s = bs "everysec") then inl PolicyEverysec
  else if bool_decide (s = bs "no") then inl PolicyNo
  else inr (ErrorString (bs "unknown fsync policy")).

Record Log : Type := mkLog {
  file : nat;
  bw : bufioWriter;
  logPolicy : Policy;
  rewriting : bool;
  rewriteTail : bytes;
  logErr : option error
}.

(** A log and the files it works on. *)
Abbreviation logState := (OS * Log)%type.

(** [Open] of an existing or new file with the given inode. *)
Definition Open (p : Policy) (o : OS) : OS * (Log + error) :=
  let '(o1, e) := sys_call o in
  match e with
  | Some e => (o1, inr (Wrapped (bs "open aof") e))
  | None => (o1, inl (mkLog (linked o1) (NewWriterSize (linked o1)) p false [] None))
  end.

Definition setBw (b : bufioWriter) (l : Log) : Log :=
  mkLog (file l) b (logPolicy l) (rewriting l) (rewriteTail l) (logErr l).

Definition setRewrite (r : bool) (t : bytes) (l : Log) : Log :=
  mkLog (file l) (bw l) (logPolicy l) r t (logErr l).

(** [fail] latches the first error and returns the latched one. *)
Definition fail (e : error) (l : Log) : Log * error :=
  match logErr l with
  | None => (mkLog (file l) (bw l) (logPolicy l) (rewriting l) (rewriteTail l) (Some e), e)
  | Some e0 => (l, e0)
  end.

Definition Append (args : list bytes) (st : logState) : logState * option error :=
  let '(o, l) := st in
  match logErr l with
  | Some e => (st, Some e)
  | None =>
      match writeCommand args (o, bw l) with
      | ((o1, b1), Ret _) =>
          let l1 := setBw b1 l in
          if rewriting l1 then
            match writeCommand args (rewriteTail l1) with
            | (tail, Ret _) => ((o1, setRewrite true tail l1), None)
            | (tail, Fail e) =>
                let '(l2, e') := fail e (setRewrite true tail l1) in ((o1, l2), Some e')
            | (tail, Panics _) => ((o1, setRewrite true tail l1), None)
            end
          else ((o1, l1), None)
      | ((o1, b1), Fail e) => let '(l2, e') := fail e (setBw b1 l) in ((o1, l2), Some e')
      | ((o1, b1), Panics _) => ((o1, setBw b1 l), None)
      end
  end.

#[export] Instance aof_journal : Journal logState := Append.

(** ** Rewriting *)

Definition BeginRewrite (st : logState) : logState * option error :=
  let '(o, l) := st in
  match logErr l with
  | Some e => (st, Some e)
  | None =>
      if rewriting l then (st, Some (ErrorString (bs "AOF rewrite already in progress")))
      else ((o, setRewrite true [] l), None)
  end.

Definition abortRewrite (l : Log) : Log := setRewrite false [] l.

(** The part of [FinishRewrite] that runs without the lock: the snapshot goes to
    a temporary file of its own.  (The deferred removal of the temporary name has
    no effect on the log's path.) *)
Definition writeSnapshot (snapshot : list (list bytes)) (o : OS) : OS * (nat + error) :=
  let '(o1, c) := createTemp o in
  match c with
  | inr e => (o1, inr (Wrapped (bs "create rewrite AOF") e))
  | inl tmp =>
      match writeCommands snapshot (o1, NewWriterSize tmp) with
      | ((o2, b), Ret _) =>
          let '((o3, b3), e) := bufw_Flush (o2, b) in
          match e with
          | Some e => ((sys_call o3).1, inr (Wrapped (bs "flush rewrite snapshot") e))
          | None => (o3, inl tmp)
          end
      | ((o2, b), Fail e) => ((sys_call o2).1, inr (Wrapped (bs "write rewrite snapshot") e))
      | ((o2, b), Panics _) => ((sys_call o2).1, inr (ErrorString (bs "panic")))
      end
  end.

(** The part under the lock. *)
Definition installRewrite (tmp : nat) (st : logState) : logState * option error :=
  let '(o, l) := st in
  if negb (rewriting l) then
    (((sys_call o).1, l), Some (ErrorString (bs "AOF rewrite is not in progress")))
  else
  match logErr l with
  | Some e => (((sys_call o).1, abortRewrite l), Some e)
  | None =>
  let '(o1, (_, e1)) := file_Write tmp (rewriteTail l) o in
  match e1 with
  | Some e => (((sys_call o1).1, abortRewrite l), Some (Wrapped (bs "write rewrite tail") e))
  | None =>
  let '(o2, e2) := file_Sync tmp o1 in
  match e2 with
  | Some e => (((sys_call o2).1, abortRewrite l), Some (Wrapped (bs "sync rewrite AOF") e))
  | None =>
  let '(o3, e3) := sys_call o2 in
  match e3 with
  | Some e => ((o3, abortRewrite l), Some (Wrapped (bs "close rewrite AOF") e))
  | None =>
  let '(o4, e4) := rename tmp o3 in
  match e4 with
  | Some e => ((o4, abortRewrite l), Some (Wrapped (bs "install rewrite AOF") e))
  | None =>
  let '(o5, e5) := sys_call o4 in
  match e5 with
  | Some e =>
      let '(l', e') := fail (Wrapped (bs "reopen rewritten AOF") e) (abortRewrite l) in
      ((o5, l'), Some e')
  | None =>
      (((sys_call o5).1,
        mkLog (linked o5) (NewWriterSize (linked o5)) (logPolicy l) false [] (logErr l)), None)
  end end end end end end.

(** [FinishRewrite]; [window] is what other goroutines do to the log while the
    snapshot is written. *)
Definition FinishRewrite (window : logState -> logState) (snapshot : list (list bytes))
    (st : logState) : logState * option error :=
  let '(o1, r) := writeSnapshot snapshot st.1 in
  match r with
  | inr e => let '(o2, l2) := window (o1, st.2) in ((o2, abortRewrite l2), Some e)
  | inl tmp => installRewrite tmp (window (o1, st.2))
  end.

(** ** Syncing *)

Definition syncLocked (fsync : bool) (st : logState) : logState * option error :=
  let '(o, l) := st in
  match logErr l with
  | Some e => (st, Some e)
  | None =>
      let '((o1, b1), e1) := bufw_Flush (o, bw l) in
      let l1 := setBw b1 l in
      match e1 with
      | Some e => let '(l2, e') := fail e l1 in ((o1, l2), Some e')
      | None =>
          if fsync then
            let '(o2, e2) := file_Sync (file l1) o1 in
            match e2 with
            | Some e => let '(l2, e') := fail e l1 in ((o2, l2), Some e')
            | None => ((o2, l1), None)
            end
          else ((o1, l1), None)
      end
  end.

Definition Sync (st : logState) : logState * option error :=
  syncLocked (negb (bool_decide (logPolicy st.2 = PolicyNo))) st.

Definition Flush (st : logState) : logState * option error := syncLocked false st.

Definition SyncIfAlways (st : logState) : logState * option error :=
  if bool_decide (logPolicy st.2 = PolicyAlways) then Sync st else (st, None).

(** One tick of [RunSyncLoop]. *)
Definition syncTick (st : logState) : logState :=
  (syncLocked (bool_decide (logPolicy st.2 = PolicyEverysec)) st).1.

Definition Err (st : logState) : option error := logErr st.2.

Definition Close (st : logState) : logState * option error :=
  let '((o1, l1), syncErr) := syncLocked true st in
  let '(o2, closeErr) := sys_call o1 in
  ((o2, l1), match syncErr with Some e => Some e | None => closeErr end).
