(* ===== verification/AofInv.v ===== *)
(** * The append-only file is crash-consistent

    At every moment, whatever system calls have failed, the file at the log's path
    holds a prefix of the wire form of the records handed to the log: [log_ok], kept
    by every step of [lstep], the interleavings of appends, syncs and the phases of
    a rewrite.  [dstep] adds to a run what the log has promised to keep: the records of a
    successful sync and those of an installed rewrite; a crash, of the process or of the
    machine, leaves them all. *)

From stdpp Require Import base list strings relations.
From Stdlib Require Import ZArith Lia.
From Stdlib Require Import Strings.Byte.
From S2P Require Import Prelude.
From S2P Require Import RespWriter.
From S2P Require Import RespReader.
From S2P Require Import Store.
From S2P Require Import BufWriter.
From S2P Require Import AofLog.

(** ** Files *)

Definition valid (fd : nat) (o : OS) : Prop := fd < length (inodes o).

(** A call on [fd] leaves the other files and the directory alone. *)
Record frame (fd : nat) (o o' : OS) : Prop := {
  fr_len : length (inodes o') = length (inodes o);
  fr_link : linked o' = linked o;
  fr_other : forall i, i <> fd -> fileAt i o' = fileAt i o;
  fr_synced : synced (fileAt fd o') = synced (fileAt fd o)
}.

Lemma frame_refl fd o : frame fd o o.
Proof. by split. Qed.

Lemma frame_trans fd o1 o2 o3 : frame fd o1 o2 -> frame fd o2 o3 -> frame fd o1 o3.
Proof.
  intros [H1 H2 H3 H4] [K1 K2 K3 K4]. split; try congruence.
  intros i Hi. rewrite K3, H3; done.
Qed.

Lemma nextFault_files o : inodes (nextFault o).1 = inodes o /\ linked (nextFault o).1 = linked o.
Proof. unfold nextFault. by destruct (faults o). Qed.

Lemma fileAt_setFile fd fl o i :
  valid fd o -> fileAt i (setFile fd fl o) = if decide (i = fd) then fl else fileAt i o.
Proof.
  intros Hv. unfold fileAt, setFile. cbn [inodes]. case_decide as Hd.
  - subst. by apply list_lookup_total_insert_eq.
  - by apply list_lookup_total_insert_ne.
Qed.

(** Appending to a file: everything, or a part and an error. *)
Lemma file_Write_spec fd p o :
  valid fd o ->
  let '(o', (n, err)) := file_Write fd p o in
  frame fd o o' /\
  content (fileAt fd o') = content (fileAt fd o) ++ take n p /\
  (err = None -> n = length p) /\ n <= length p.
Proof.
  intros Hv. unfold file_Write. pose proof (nextFault_files o) as [Hi Hl].
  destruct (nextFault o) as [o1 x]. simpl in Hi, Hl.
  assert (valid fd o1) as Hv1 by (unfold valid in *; by rewrite Hi).
  assert (forall i, fileAt i o1 = fileAt i o) as Hf by (intros; unfold fileAt; by rewrite Hi).
  assert (forall q, frame fd o (setFile fd (mkFile (content (fileAt fd o1) ++ q)
                                              (synced (fileAt fd o1))) o1)) as Hfr.
  { intros q. split; [unfold setFile; simpl; by rewrite length_insert, Hi|done| |].
    - intros i Hne. rewrite fileAt_setFile by done. by rewrite decide_False, Hf.
    - rewrite fileAt_setFile by done. by rewrite decide_True, Hf. }
  destruct x as [[n e]|]; (split; [apply Hfr|]); rewrite fileAt_setFile by done;
    rewrite decide_True by done; simpl; rewrite Hf.
  - split_and!; [|done|lia]. f_equal. by rewrite <- (firstn_all p) at 1; rewrite take_take.
  - split_and!; [|done|lia]. by rewrite firstn_all.
Qed.

Lemma file_Write_rest fd p o :
  (file_Write fd p o).2.2 <> None \/ drop (file_Write fd p o).2.1 p = [].
Proof.
  unfold file_Write. destruct (nextFault o) as [o1 [[n e]|]]; [by left|right]. apply drop_all.
Qed.

Lemma frame_valid fd o1 o2 : frame fd o1 o2 -> valid fd o1 -> valid fd o2.
Proof. intros [Hl _ _ _]. unfold valid. by rewrite Hl. Qed.

#[export] Instance OS_laws : SinkLaws OS := {|
  written fd o := content (fileAt fd o);
  isOpen := valid;
  onlyOn := frame;
  onlyOn_refl := frame_refl;
  onlyOn_trans := frame_trans;
  onlyOn_open := frame_valid;
  sink_Write_spec := file_Write_spec;
  sink_Write_rest := file_Write_rest
|}.

(** The laws' notions, for files. *)
Ltac on_files := cbn [written isOpen onlyOn OS_laws] in *.

Lemma sends_write p : sends (io_write p) p.
Proof. apply sends_io. Qed.

#[export] Hint Resolve sends_write sends_ret sends_seq : resp.

Lemma sends_bulks args : sends (writeBulks args) (concat (encode_bulk <$> args)).
Proof.
  induction args as [|a args IH]; [apply sends_ret|]. cbn [writeBulks].
  rewrite fmap_cons. cbn [concat]. apply sends_seq; [|done].
  unfold WriteBulkString, writeCountLine, encode_bulk. auto with resp.
Qed.

Lemma sends_command args : sends (writeCommand args) (encodeCommand args).
Proof.
  apply sends_seq; [|apply sends_bulks]. unfold WriteArrayHeader, writeCountLine. auto with resp.
Qed.

(** The wire form of a list of records. *)
Definition enc (recs : list (list bytes)) : bytes := concat (encodeCommand <$> recs).

Lemma enc_app a b : enc (a ++ b) = enc a ++ enc b.
Proof. unfold enc. by rewrite fmap_app, concat_app. Qed.

Lemma enc_one args : enc [args] = encodeCommand args.
Proof. apply app_nil_r. Qed.

Lemma sends_commands recs : sends (writeCommands recs) (enc recs).
Proof.
  induction recs as [|r recs IH]; [apply sends_ret|]. cbn [writeCommands]. unfold enc in *.
  rewrite fmap_cons. cbn [concat]. apply sends_seq; [apply sends_command|done].
Qed.

(** ** The invariant of an open log *)

(** What the log is meant to hold: the records of the file at its path, the records
    appended since a rewrite began, and the temporary file of that rewrite with
    the snapshot in it. *)
Record ghost : Type := mkGhost {
  recs : list (list bytes);
  since : list (list bytes);
  pending_tmp : option (nat * list (list bytes))
}.

(** The file a restart would read. *)
Definition disk (o : OS) : File := fileAt (linked o) o.

Record log_ok (st : logState) (g : ghost) : Prop := {
  ok_link : valid (linked st.1) st.1;
  ok_synced : synced (disk st.1) <= length (content (disk st.1));
  ok_prefix : content (disk st.1) `prefix_of` enc (recs g);
  ok_good : logErr st.2 = None ->
    file st.2 = linked st.1 /\ wfd (bw st.2) = linked st.1 /\ werr (bw st.2) = None /\
    content (disk st.1) ++ wbuf (bw st.2) = enc (recs g);
  ok_tail : rewriting st.2 = true -> logErr st.2 = None -> rewriteTail st.2 = enc (since g);
  ok_pending : forall fd snap, pending_tmp g = Some (fd, snap) ->
    valid fd st.1 /\ linked st.1 < fd /\ content (fileAt fd st.1) = enc snap
}.

(** Calls that create files or touch none. *)
Lemma log_ok_grow o o' l g :
  linked o' = linked o -> length (inodes o) <= length (inodes o') ->
  (forall i, valid i o -> fileAt i o' = fileAt i o) ->
  log_ok (o, l) g -> log_ok (o', l) g.
Proof.
  intros Hl Hn Hf [H1 H2 H3 H4 H5 H6].
  assert (disk o' = disk o) as Hd by (unfold disk; rewrite Hl; by apply Hf).
  split; cbn [fst snd] in *; rewrite ?Hd, ?Hl in *; try done.
  - unfold valid in *. lia.
  - intros fd snap Hp. destruct (H6 fd snap Hp) as (Hv & Hne & Hc).
    rewrite Hf by done. split_and!; try done. unfold valid in *. lia.
Qed.

Lemma sys_call_files o :
  inodes (sys_call o).1 = inodes o /\ linked (sys_call o).1 = linked o.
Proof.
  unfold sys_call. pose proof (nextFault_files o). by destruct (nextFault o).
Qed.

(** Fields of the log the invariant does not mention. *)
Lemma log_ok_abort o l g : log_ok (o, l) g -> log_ok (o, abortRewrite l) g.
Proof. intros [H1 H2 H3 H4 H5 H6]. split; done. Qed.

Lemma log_ok_fail o l g e :
  log_ok (o, l) g -> log_ok (o, (fail e l).1) g.
Proof.
  intros [H1 H2 H3 H4 H5 H6]. unfold fail.
  destruct (logErr l) eqn:He; split; cbn [fst snd] in *; rewrite ?He in *; done.
Qed.

(** Output through the log's own writer. *)
Lemma log_ok_sent o l g out st' r g' :
  log_ok (o, l) g -> logErr l = None -> sent (o, bw l) out st' r ->
  enc (recs g') = enc (recs g) ++ out -> pending_tmp g' = pending_tmp g ->
  match r with
  | Ret _ => forall t', (rewriting l = true -> t' = enc (since g')) ->
               log_ok (st'.1, setRewrite (rewriting l) t' (setBw st'.2 l)) g'
  | Fail e => log_ok (st'.1, (fail e (setBw st'.2 l)).1) g'
  | Panics _ => False
  end.
Proof.
  intros [H1 H2 H3 H4 H5 H6] He (Hw & Hf & Hp & Hm) Hrec Hpend. on_files. cbn [fst snd] in *.
  destruct (H4 He) as (Hfile & Hwf & Hwe & Hstr). rewrite Hwf in *.
  destruct st' as [o' b']. cbn [fst snd] in *. unfold stream in Hm. on_files. cbn [fst snd] in Hm.
  rewrite Hwf in Hm. fold (disk o) in Hm, Hp. rewrite Hstr in Hm. rewrite <- Hrec in Hm.
  pose proof (fr_link _ _ _ Hf) as Hl. pose proof (fr_synced _ _ _ Hf) as Hs.
  rewrite <- Hl in Hp, Hm, Hs. fold (disk o') in Hp, Hm, Hs. rewrite Hl in Hs. fold (disk o) in Hs.
  assert (valid (linked o') o') as Hv by (unfold valid; by rewrite Hl, (fr_len _ _ _ Hf)).
  assert (synced (disk o') <= length (content (disk o'))) as Hs'.
  { rewrite Hs. apply prefix_length in Hp. lia. }
  assert (forall fd snap, pending_tmp g' = Some (fd, snap) ->
    valid fd o' /\ linked o' < fd /\ content (fileAt fd o') = enc snap) as Hpe.
  { intros fd snap Hx. rewrite Hpend in Hx. destruct (H6 _ _ Hx) as (K1 & K2 & K3).
    rewrite (fr_other _ _ _ Hf), Hl by lia. split_and!; try done.
    unfold valid. by rewrite (fr_len _ _ _ Hf). }
  destruct r as [[]|e|]; [|unfold fail, setBw; simpl; rewrite He|done].
  - destruct Hm as [Hm1 Hm2]. rewrite Hw, <- Hl in Hm2. fold (disk o') in Hm2. intros t' Ht.
    split; cbn; try done; [by rewrite <- Hm2; eexists| |by auto].
    intros _. rewrite Hw, Hl. split_and!; done.
  - destruct Hm as [Hm1 Hm2]. split; cbn; done.
Qed.

(** ** Steps *)

(** What a step does to the records: an append adds to both lists unless the log
    has failed, an installed rewrite replaces the file's records. *)
Definition appended (args : list bytes) (l : Log) (g : ghost) : ghost :=
  match logErr l with
  | None => mkGhost (recs g ++ [args]) (since g ++ [args]) (pending_tmp g)
  | Some _ => g
  end.

Definition installed (st st' : logState) (snap : list (list bytes)) (g : ghost) : ghost :=
  mkGhost (if decide (linked st'.1 = linked st.1) then recs g else snap ++ since g)
    (since g) None.

(** The interleavings of the goroutines that share a log: commands append and sync,
    the timer flushes and syncs, a rewrite begins, writes its snapshot to a
    temporary file and installs it. *)
Inductive lstep : logState * ghost -> logState * ghost -> Prop :=
| L_append args st g st' r :
    Append args st = (st', r) -> lstep (st, g) (st', appended args st.2 g)
| L_sync fsync st g st' r :
    syncLocked fsync st = (st', r) -> lstep (st, g) (st', g)
| L_begin st g st' :
    BeginRewrite st = (st', None) -> lstep (st, g) (st', mkGhost (recs g) [] None)
| L_snapshot snap o l g o' fd :
    writeSnapshot snap o = (o', inl fd) ->
    lstep ((o, l), g) ((o', l), mkGhost (recs g) (since g) (Some (fd, snap)))
| L_abort snap o l g o' e :
    writeSnapshot snap o = (o', inr e) -> lstep ((o, l), g) ((o', abortRewrite l), g)
| L_install fd snap st g st' r :
    pending_tmp g = Some (fd, snap) -> installRewrite fd st = (st', r) ->
    lstep (st, g) (st', installed st st' snap g).

Lemma Append_ok args st g :
  log_ok st g -> log_ok (Append args st).1 (appended args st.2 g).
Proof.
  destruct st as [o l]. intros Hok. unfold Append, appended. cbn [snd].
  destruct (logErr l) eqn:He; [done|].
  pose proof (ok_good _ _ Hok He) as (_ & Hwf & Hwe & _). cbn [snd] in Hwf, Hwe.
  assert (valid (wfd (bw l)) o) as Hv by (rewrite Hwf; apply (ok_link _ _ Hok)).
  pose proof (sends_command args (o, bw l) Hv Hwe) as Hsent.
  destruct (writeCommand args (o, bw l)) as [[o1 b1] r].
  set (g' := mkGhost _ _ _).
  pose proof (log_ok_sent o l g _ _ _ g' Hok He Hsent) as H.
  simpl in H. rewrite enc_app, enc_one in H. specialize (H eq_refl eq_refl).
  destruct r as [[]|e|]; [|by destruct (fail e (setBw b1 l))|done].
  unfold setBw at 1. cbn [rewriting]. destruct (rewriting l) eqn:Hr.
  - rewrite (writes_command args). cbn [fst]. apply H. intros _.
    rewrite enc_app, enc_one, <- (ok_tail _ _ Hok Hr He). done.
  - specialize (H (rewriteTail l) ltac:(done)). unfold setRewrite, setBw in *. simpl in *.
    by rewrite Hr.
Qed.

Lemma log_ok_bw o l g st' :
  log_ok (o, l) g -> logErr l = None ->
  sent (o, bw l) [] st' (Ret tt) -> log_ok (st'.1, setBw st'.2 l) g.
Proof.
  intros Hok He Hsent. pose proof (log_ok_sent o l g _ _ _ g Hok He Hsent) as H.
  simpl in H. rewrite app_nil_r in H. specialize (H eq_refl eq_refl (rewriteTail l)).
  apply H. intros Hr. by apply (ok_tail _ _ Hok).
Qed.

(** Forcing the file at the path to the disk. *)
Lemma file_Sync_ok o l g :
  log_ok (o, l) g ->
  log_ok ((file_Sync (linked o) o).1, l) g /\
  ((file_Sync (linked o) o).2 = None ->
   disk (file_Sync (linked o) o).1 = mkFile (content (disk o)) (length (content (disk o)))).
Proof.
  intros Hok. unfold file_Sync. destruct (nextFault_files o) as [Hi Hl].
  destruct (nextFault o) as [o1 x]. cbn [fst] in Hi, Hl.
  assert (log_ok (o1, l) g) as Hok1.
  { apply (log_ok_grow o); [done|by rewrite Hi| |done]. intros. unfold fileAt. by rewrite Hi. }
  destruct x as [[n e]|]; [done|]. destruct Hok1 as [H1 H2 H3 H4 H5 H6]. cbn [fst snd] in *.
  rewrite <- Hl. fold (disk o1).
  assert (disk (setFile (linked o1) (mkFile (content (disk o1)) (length (content (disk o1)))) o1)
    = mkFile (content (disk o1)) (length (content (disk o1)))) as Hd.
  { unfold disk at 1. rewrite fileAt_setFile by done. by rewrite decide_True. }
  assert (disk o1 = disk o) as Hdo by (unfold disk, fileAt; by rewrite Hi, Hl).
  split; [|intros _; by rewrite Hd, Hdo].
  split; cbn [fst snd]; rewrite ?Hd; try done.
  - unfold valid in *. simpl. by rewrite length_insert.
  - intros fd snap Hp. destruct (H6 fd snap Hp) as (K1 & K2 & K3).
    rewrite fileAt_setFile by done. rewrite decide_False by lia.
    unfold valid in *. simpl. rewrite length_insert. done.
Qed.

Lemma syncLocked_ok fsync st g :
  log_ok st g -> log_ok (syncLocked fsync st).1 g.
Proof.
  destruct st as [o l]. intros Hok. unfold syncLocked.
  destruct (logErr l) eqn:He; [done|].
  pose proof (ok_good _ _ Hok He) as (Hfi & Hwf & Hwe & _). cbn [fst snd] in Hfi, Hwf, Hwe.
  assert (valid (wfd (bw l)) o) as Hv by (rewrite Hwf; apply (ok_link _ _ Hok)).
  pose proof (Flush_sent (o, bw l) Hv Hwe) as Hsent.
  pose proof (fr_link _ _ _ (proj1 (proj2 Hsent))) as Hl. cbn [fst] in Hl.
  destruct (bufw_Flush (o, bw l)) as [[o1 b1] [e|]]; cbn [fst snd] in *.
  - pose proof (log_ok_sent o l g _ _ _ g Hok He Hsent) as H. simpl in H.
    rewrite app_nil_r in H. specialize (H eq_refl eq_refl).
    by destruct (fail e (setBw b1 l)).
  - pose proof (log_ok_bw o l g _ Hok He Hsent) as Hok1. cbn [fst snd] in Hok1.
    destruct fsync; [|done]. cbn [setBw file]. rewrite Hfi, <- Hl.
    pose proof (file_Sync_ok _ _ _ Hok1) as [Hok2 _].
    destruct (file_Sync (linked o1) o1) as [o2 [e|]]; [|done].
    pose proof (log_ok_fail _ _ _ e Hok2) as Hok3. by destruct (fail e (setBw b1 l)).
Qed.

(** What is on stable storage only grows, whatever fails. *)
Lemma Append_file args st g :
  log_ok st g ->
  linked (Append args st).1.1 = linked st.1 /\
  synced (disk (Append args st).1.1) = synced (disk st.1) /\
  content (disk st.1) `prefix_of` content (disk (Append args st).1.1).
Proof.
  destruct st as [o l]. intros Hok. unfold Append. destruct (logErr l) eqn:He; [done|].
  pose proof (ok_good _ _ Hok He) as (_ & Hwf & Hwe & _). cbn [snd fst] in Hwf, Hwe.
  assert (valid (wfd (bw l)) o) as Hv by (rewrite Hwf; apply (ok_link _ _ Hok)).
  pose proof (sends_command args (o, bw l) Hv Hwe) as (_ & Hf & Hp & _).
  destruct (writeCommand args (o, bw l)) as [[o1 b1] r]. cbn [fst snd] in *. rewrite Hwf in Hf, Hp.
  assert (linked o1 = linked o /\ synced (disk o1) = synced (disk o) /\
    content (disk o) `prefix_of` content (disk o1)) as Hs.
  { unfold disk. rewrite (fr_link _ _ _ Hf), (fr_synced _ _ _ Hf). split_and!; [done..|]. exact Hp. }
  destruct r as [[]|e|]; [|destruct (fail e (setBw b1 l)); exact Hs|exact Hs].
  destruct (rewriting (setBw b1 l)); [|exact Hs].
  rewrite (writes_command args). exact Hs.
Qed.

Lemma Append_grows args st g :
  log_ok st g ->
  synced (disk (Append args st).1.1) = synced (disk st.1) /\
  content (disk st.1) `prefix_of` content (disk (Append args st).1.1).
Proof. intros Hok. by apply (Append_file args st g). Qed.

Lemma Append_synced args st g :
  log_ok st g -> synced (disk (Append args st).1.1) = synced (disk st.1).
Proof. intros Hok. by apply (Append_grows args st g). Qed.

Lemma file_Sync_same fd o :
  valid fd o ->
  linked (file_Sync fd o).1 = linked o /\ content (fileAt fd (file_Sync fd o).1) = content (fileAt fd o).
Proof.
  intros Hv. unfold file_Sync. destruct (nextFault_files o) as [Hi Hl].
  destruct (nextFault o) as [o1 [[n e]|]]; cbn [fst] in *; (split; [done|]); [unfold fileAt; by rewrite Hi|].
  rewrite fileAt_setFile, decide_True by (unfold valid in *; by rewrite ?Hi || done). unfold fileAt. by rewrite Hi.
Qed.

Lemma file_Sync_grows o l g :
  log_ok (o, l) g -> (synced (disk o) <= synced (disk (file_Sync (linked o) o).1))%nat.
Proof.
  intros Hok. pose proof (file_Sync_ok o l g Hok) as [_ Hd].
  pose proof (ok_synced _ _ Hok) as Hs. cbn [fst] in Hs.
  destruct (file_Sync (linked o) o) as [o' [e|]] eqn:Hf; cbn [fst snd] in *; [|by rewrite Hd].
  unfold file_Sync in Hf. destruct (nextFault_files o) as [Hi Hl].
  destruct (nextFault o) as [o1 [[n e']|]]; [|done]. cbn [fst] in Hi, Hl. injection Hf as <- _.
  unfold disk, fileAt. by rewrite Hi, Hl.
Qed.

(** The flush that precedes a sync. *)
Lemma Flush_log_ok o l g :
  log_ok (o, l) g -> logErr l = None ->
  let '((o1, b1), e) := bufw_Flush (o, bw l) in
  (linked o1 = linked o /\ content (disk o) `prefix_of` content (disk o1)) /\
  synced (disk o1) = synced (disk o) /\
  (e = None -> log_ok (o1, setBw b1 l) g /\ content (disk o1) = enc (recs g)).
Proof.
  intros Hok He. pose proof (ok_good _ _ Hok He) as (_ & Hwf & Hwe & Hstr). cbn [fst snd] in *.
  assert (valid (wfd (bw l)) o) as Hv by (rewrite Hwf; apply (ok_link _ _ Hok)).
  pose proof (Flush_sent (o, bw l) Hv Hwe) as Hsent.
  pose proof (Flush_spec (o, bw l) Hv Hwe) as Hfl.
  destruct (bufw_Flush (o, bw l)) as [[o1 b1] e]. destruct Hfl as (_ & Hf & Hp & _ & Hm).
  cbn [fst snd] in *. on_files. rewrite Hwf in Hf, Hm, Hp. pose proof (fr_link _ _ _ Hf) as Hl.
  split_and!; [done|unfold disk; by rewrite Hl|unfold disk; by rewrite Hl, (fr_synced _ _ _ Hf)|]. intros ->.
  split; [by apply (log_ok_bw o l g (o1, b1))|]. destruct Hm as [Hc _].
  unfold stream in Hc. on_files. cbn [fst snd] in Hc. rewrite Hwf in Hc. fold (disk o) in Hc.
  rewrite Hstr, <- Hl in Hc. exact Hc.
Qed.

Lemma syncLocked_grows fsync st g :
  log_ok st g -> (synced (disk st.1) <= synced (disk (syncLocked fsync st).1.1))%nat.
Proof.
  destruct st as [o l]. intros Hok. unfold syncLocked. destruct (logErr l) eqn:He; [done|].
  pose proof (Flush_log_ok o l g Hok He) as Hfl.
  destruct (bufw_Flush (o, bw l)) as [[o1 b1] [e|]]; destruct Hfl as ([Hl Hpre] & Hs & Hn).
  { destruct (fail e (setBw b1 l)). cbn [fst]. lia. }
  destruct (Hn eq_refl) as [Hok1 _]. destruct fsync; [|cbn [fst]; lia].
  pose proof (ok_good _ _ Hok He) as (Hfi & _). cbn [fst snd] in Hfi.
  cbn [setBw file]. rewrite Hfi, <- Hl. pose proof (file_Sync_grows _ _ _ Hok1).
  destruct (file_Sync (linked o1) o1) as [o2 [e|]]; [destruct (fail e (setBw b1 l))|];
    cbn [fst] in *; lia.
Qed.

Lemma syncLocked_file fsync st g :
  log_ok st g -> linked (syncLocked fsync st).1.1 = linked st.1 /\
    content (disk st.1) `prefix_of` content (disk (syncLocked fsync st).1.1).
Proof.
  destruct st as [o l]. intros Hok. unfold syncLocked. destruct (logErr l) eqn:He; [done|].
  pose proof (Flush_log_ok o l g Hok He) as Hfl.
  destruct (bufw_Flush (o, bw l)) as [[o1 b1] [e|]]; destruct Hfl as ([Hl Hpre] & Hs & Hn).
  { by destruct (fail e (setBw b1 l)). }
  destruct (Hn eq_refl) as [Hok1 _]. destruct fsync; [|done].
  pose proof (ok_good _ _ Hok He) as (Hfi & _). cbn [fst snd] in Hfi.
  cbn [setBw file]. rewrite Hfi, <- Hl. destruct (file_Sync_same (linked o1) o1 (ok_link _ _ Hok1)) as [Hl2 Hc2].
  destruct (file_Sync (linked o1) o1) as [o2 [e|]]; [destruct (fail e (setBw b1 l))|];
    cbn [fst] in *; unfold disk at 2; rewrite Hl2; (split; [done|]); rewrite Hc2; exact Hpre.
Qed.

Lemma syncLocked_rewriting fsync st : rewriting (syncLocked fsync st).1.2 = rewriting st.2.
Proof.
  destruct st as [o l]. unfold syncLocked. destruct (logErr l) eqn:He; [done|].
  destruct (bufw_Flush (o, bw l)) as [[o1 b1] [e|]].
  - unfold fail, setBw. simpl. by rewrite He.
  - destruct fsync; [|done]. destruct (file_Sync _ o1) as [o2 [e|]]; [|done].
    unfold fail, setBw. simpl. by rewrite He.
Qed.

(** A flush that succeeds leaves nothing in the buffer. *)
Lemma syncLocked_flushes fsync st st' g :
  log_ok st g -> syncLocked fsync st = (st', None) -> content (disk st'.1) = enc (recs g).
Proof.
  destruct st as [o l]. intros Hok. unfold syncLocked. destruct (logErr l) eqn:He; [done|].
  pose proof (Flush_log_ok o l g Hok He) as Hfl.
  destruct (bufw_Flush (o, bw l)) as [[o1 b1] [e|]]; destruct Hfl as ([Hl Hpre] & Hs & Hn);
    [by destruct (fail e (setBw b1 l))|].
  destruct (Hn eq_refl) as [Hok1 Hc]. destruct fsync; [|by intros [= <-]].
  pose proof (ok_good _ _ Hok He) as (Hfi & _). cbn [fst snd] in Hfi.
  cbn [setBw file]. rewrite Hfi, <- Hl. pose proof (file_Sync_ok _ _ _ Hok1) as [_ Hd].
  destruct (file_Sync (linked o1) o1) as [o2 [e|]]; [by destruct (fail e (setBw b1 l))|].
  intros [= <-]. cbn [fst snd] in *. by rewrite (Hd eq_refl), Hc.
Qed.

(** What a successful fsync leaves behind. *)
Lemma syncLocked_forces st st' g :
  log_ok st g -> syncLocked true st = (st', None) ->
  disk st'.1 = mkFile (enc (recs g)) (length (enc (recs g))).
Proof.
  destruct st as [o l]. intros Hok. unfold syncLocked. destruct (logErr l) eqn:He; [done|].
  pose proof (Flush_log_ok o l g Hok He) as Hfl.
  destruct (bufw_Flush (o, bw l)) as [[o1 b1] [e|]]; destruct Hfl as ([Hl Hpre] & Hs & Hn);
    [by destruct (fail e (setBw b1 l))|].
  destruct (Hn eq_refl) as [Hok1 Hc].
  pose proof (ok_good _ _ Hok He) as (Hfi & _). cbn [fst snd] in Hfi.
  cbn [setBw file]. rewrite Hfi, <- Hl. pose proof (file_Sync_ok _ _ _ Hok1) as [_ Hd].
  destruct (file_Sync (linked o1) o1) as [o2 [e|]]; [by destruct (fail e (setBw b1 l))|].
  intros [= <-]. cbn [fst snd] in *. by rewrite (Hd eq_refl), Hc.
Qed.

(** ** Rewrites *)

(** A call that may change file [fd] and no other. *)
Definition only (fd : nat) (o o' : OS) : Prop :=
  length (inodes o') = length (inodes o) /\ linked o' = linked o /\
  forall i, i <> fd -> fileAt i o' = fileAt i o.

Lemma frame_only fd o o' : frame fd o o' -> only fd o o'.
Proof. by intros [H1 H2 H3 _]. Qed.

Lemma only_trans fd o1 o2 o3 : only fd o1 o2 -> only fd o2 o3 -> only fd o1 o3.
Proof.
  intros (H1 & H2 & H3) (K1 & K2 & K3). split_and!; try congruence.
  intros i Hi. by rewrite K3, H3.
Qed.

Lemma only_sys fd o : only fd o (sys_call o).1.
Proof.
  destruct (sys_call_files o) as [Hi Hl]. split_and!; [by rewrite Hi|done|].
  intros i _. unfold fileAt. by rewrite Hi.
Qed.

Lemma fileAt_sys i o : fileAt i (sys_call o).1 = fileAt i o.
Proof. unfold fileAt. by rewrite (proj1 (sys_call_files o)). Qed.

Lemma only_Sync fd o :
  valid fd o ->
  only fd o (file_Sync fd o).1 /\
  content (fileAt fd (file_Sync fd o).1) = content (fileAt fd o) /\
  ((file_Sync fd o).2 = None ->
   synced (fileAt fd (file_Sync fd o).1) = length (content (fileAt fd o))).
Proof.
  intros Hv. unfold file_Sync. destruct (nextFault_files o) as [Hi Hl].
  destruct (nextFault o) as [o1 x]. cbn [fst] in Hi, Hl.
  assert (forall i, fileAt i o1 = fileAt i o) as Hf by (intros; unfold fileAt; by rewrite Hi).
  assert (valid fd o1) as Hv1 by (unfold valid; by rewrite Hi).
  destruct x as [[n e]|]; cbn [fst snd].
  - split_and!; [|by rewrite Hf|done]. split_and!; [by rewrite Hi|done|auto].
  - rewrite fileAt_setFile by done. rewrite decide_True by done. simpl. rewrite Hf.
    split_and!; try done. split_and!; [simpl; by rewrite length_insert, Hi|done|].
    intros i Hne. rewrite fileAt_setFile by done. by rewrite decide_False, Hf.
Qed.

Lemma log_ok_only fd o o' l g :
  log_ok (o, l) g -> fd <> linked o -> only fd o o' ->
  log_ok (o', l) (mkGhost (recs g) (since g) None).
Proof.
  intros [H1 H2 H3 H4 H5 H6] Hne (Hn & Hl & Hf).
  assert (disk o' = disk o) as Hd by (unfold disk; rewrite Hl; apply Hf; congruence).
  split; cbn [fst snd recs since pending_tmp] in *; rewrite ?Hd, ?Hl; try done.
  unfold valid in *. by rewrite Hn.
Qed.

(** A new file beside those that are there, which nothing done to it alone changes. *)
Definition besides (o o' : OS) : Prop :=
  linked o' = linked o /\ length (inodes o) <= length (inodes o') /\
  (forall i, valid i o -> fileAt i o' = fileAt i o).

Lemma createTemp_spec o :
  match createTemp o with
  | (o2, inr _) => besides o o2
  | (o2, inl tmp) =>
      tmp = length (inodes o) /\ valid tmp o2 /\ fileAt tmp o2 = mkFile [] 0 /\
      forall o', only tmp o2 o' -> besides o o'
  end.
Proof.
  unfold createTemp. destruct (nextFault_files o) as [Hi Hl].
  destruct (nextFault o) as [o1 [[n e]|]]; cbn [fst] in Hi, Hl.
  { split_and!; [done|by rewrite Hi|]. intros i _. unfold fileAt. by rewrite Hi. }
  rewrite Hi. split_and!; [done|unfold valid; simpl; rewrite length_app; simpl; lia| |].
  - unfold fileAt. simpl. rewrite lookup_total_app_r by lia. by rewrite Nat.sub_diag.
  - intros o' (Hn & Hl' & Hf). simpl in *. split_and!; [by rewrite Hl'|rewrite Hn, length_app; lia|].
    intros i Hv. unfold valid in Hv. rewrite Hf by lia. unfold fileAt. simpl. by rewrite lookup_total_app_l.
Qed.

Lemma writeSnapshot_spec snap o :
  let '(o', r) := writeSnapshot snap o in
  besides o o' /\
  forall fd, r = inl fd ->
    fd = length (inodes o) /\ valid fd o' /\ content (fileAt fd o') = enc snap.
Proof.
  unfold writeSnapshot. pose proof (createTemp_spec o) as H.
  destruct (createTemp o) as [o2 [tmp|e]]; [|by split]. destruct H as (Ht & Hv & Hnew & Hgrow).
  pose proof (sends_commands snap (o2, NewWriterSize tmp) Hv eq_refl) as Hsent.
  destruct (writeCommands snap (o2, NewWriterSize tmp)) as [[o3 b3] r].
  destruct Hsent as (Hw & Hf & _ & Hm). on_files. cbn [fst snd NewWriterSize wfd] in *.
  apply frame_only in Hf as Ho3.
  destruct r as [[]|e|]; [|split; [apply Hgrow; by eapply only_trans; [|apply only_sys]|done]|done].
  destruct Hm as [He3 Hs3]. unfold stream, NewWriterSize in Hs3. on_files. cbn [fst snd wfd wbuf] in Hs3.
  rewrite Hw, Hnew in Hs3. cbn [content app] in Hs3.
  assert (valid (wfd b3) o3) as Hv3 by (unfold valid in *; by rewrite Hw, (fr_len _ _ _ Hf)).
  pose proof (Flush_spec (o3, b3) Hv3 He3) as H.
  destruct (bufw_Flush (o3, b3)) as [[o4 b4] e]. destruct H as (_ & Hf4 & _ & _ & Hm4).
  cbn [fst snd] in *. on_files. rewrite Hw in *. apply frame_only in Hf4 as Ho4.
  pose proof (only_trans _ _ _ _ Ho3 Ho4) as Ho. destruct e as [e|].
  - split; [|done]. apply Hgrow. eapply only_trans; [exact Ho|apply only_sys].
  - split; [by apply Hgrow|]. intros fd [= <-]. split_and!; [done| |].
    + unfold valid in *. by rewrite (proj1 Ho).
    + rewrite (proj1 Hm4). unfold stream. on_files. cbn [fst snd]. by rewrite Hw.
Qed.

(** A rewrite that gives up: the path still names the old file, untouched. *)
Lemma install_undone fd o l g o' l' snap :
  log_ok (o, l) g -> fd <> linked o -> only fd o o' -> l' = l \/ l' = abortRewrite l ->
  log_ok (o', l') (installed (o, l) (o', l') snap g) /\
  linked o' = linked o /\ disk o' = disk o.
Proof.
  intros Hok Hne Ho Hl'. pose proof Ho as (_ & Hl & Hf). unfold installed. cbn [fst].
  rewrite decide_True by done. split_and!; [|done|unfold disk; rewrite Hl; apply Hf; congruence].
  destruct Hl' as [->| ->]; [|apply log_ok_abort]; by eapply log_ok_only.
Qed.

(** The log writes to a file, and has written all. *)
Definition on_file (fd : nat) (l : Log) : Prop :=
  file l = fd /\ wfd (bw l) = fd /\ werr (bw l) = None /\ wbuf (bw l) = [].

(** A rewrite whose temporary file has reached the path. *)
Lemma install_done o o' l' g fd snap fl l0 :
  fd <> linked o -> linked o' = fd -> valid fd o' ->
  fileAt fd o' = mkFile fl (length fl) -> fl = enc (snap ++ since g) ->
  (logErr l' = None -> on_file fd l') -> rewriting l' = false ->
  log_ok (o', l') (installed (o, l0) (o', l') snap g).
Proof.
  intros Hne Hl Hv Hf Hfl Hgood Hr. unfold installed. cbn [fst].
  rewrite decide_False by congruence. subst fd.
  split; cbn [fst snd recs since pending_tmp]; unfold disk; rewrite ?Hf; cbn [content synced];
    try done; [by rewrite Hfl| |congruence].
  intros He. destruct (Hgood He) as (H1 & H2 & H3 & H4). rewrite H4, app_nil_r, Hfl. done.
Qed.

(** The temporary file while the tail is written, synced and closed: nothing else
    changes, and when all three succeed it is the complete new log, synced. *)
Lemma tail_prepared fd snap o l g :
  log_ok (o, l) g -> pending_tmp g = Some (fd, snap) -> rewriting l = true -> logErr l = None ->
  let '(o1, (_, e1)) := file_Write fd (rewriteTail l) o in
  let '(o2, e2) := file_Sync fd o1 in
  let '(o3, _) := sys_call o2 in
  only fd o o1 /\ only fd o o2 /\ only fd o o3 /\ valid fd o3 /\
  (e1 = None -> e2 = None ->
   fileAt fd o3 = mkFile (enc (snap ++ since g)) (length (enc (snap ++ since g)))).
Proof.
  intros Hok Hp Hr He. destruct (ok_pending _ _ Hok fd snap Hp) as (Hv & _ & Hc). cbn [fst] in Hv, Hc.
  pose proof (ok_tail _ _ Hok Hr He) as Ht. cbn [snd] in Ht.
  pose proof (file_Write_spec fd (rewriteTail l) o Hv) as Hwr.
  destruct (file_Write fd (rewriteTail l) o) as [o1 [n e1]].
  destruct Hwr as (Hf1 & Hc1 & Hn1 & _). apply frame_only in Hf1.
  assert (valid fd o1) as Hv1 by (unfold valid in *; by rewrite (proj1 Hf1)).
  pose proof (only_Sync fd o1 Hv1) as (Hf2 & Hc2 & Hs2).
  destruct (file_Sync fd o1) as [o2 e2]; cbn [fst snd] in *.
  pose proof (only_sys fd o2) as Hf3. pose proof (fileAt_sys fd o2) as Hc3.
  destruct (sys_call o2) as [o3 e3]; cbn [fst] in *.
  assert (only fd o o2) as Ho2 by (by eapply only_trans).
  assert (only fd o o3) as Ho3 by (by eapply only_trans).
  split_and!; [done..|unfold valid in *; by rewrite (proj1 Ho3)|].
  intros -> ->. rewrite (Hn1 eq_refl), firstn_all, Hc, Ht, <- enc_app in Hc1.
  rewrite Hc3, <- Hc1, <- (Hs2 eq_refl), <- Hc2. by destruct (fileAt fd o2).
Qed.

(** After the rename of the complete new log. *)
Lemma install_after fd snap o l g o3 o' l' :
  let new := enc (snap ++ since g) in
  fd <> linked o -> valid fd o3 -> fileAt fd o3 = mkFile new (length new) ->
  inodes o' = inodes o3 -> linked o' = fd -> rewriting l' = false -> (logErr l' = None -> on_file fd l') ->
  log_ok (o', l') (installed (o, l) (o', l') snap g) /\ disk o' = mkFile new (length new).
Proof.
  intros new Hne Hv Hf Hi Hl Hr Hgood. rewrite <- Hf. unfold disk, fileAt. rewrite Hi, Hl. split; [|done].
  apply (install_done o o' l' g fd snap new); try done.
  - unfold valid in *. by rewrite Hi.
  - unfold fileAt in *. by rewrite Hi.
Qed.

Lemma installRewrite_spec fd snap st g :
  log_ok st g -> pending_tmp g = Some (fd, snap) ->
  let '(st', r) := installRewrite fd st in
  log_ok st' (installed st st' snap g) /\
  (linked st'.1 = linked st.1 /\ disk st'.1 = disk st.1 /\ r <> None /\ logErr st'.2 = logErr st.2 \/
   linked st'.1 = fd /\ disk st'.1 = mkFile (enc (snap ++ since g)) (length (enc (snap ++ since g)))
   /\ logErr st.2 = None /\ logErr st'.2 = r).
Proof.
  destruct st as [o l]. intros Hok Hp.
  destruct (ok_pending _ _ Hok fd snap Hp) as (_ & Hlt & _). cbn [fst] in Hlt.
  assert (fd <> linked o) as Hne by lia.
  assert (forall o' l' e P, only fd o o' -> l' = l \/ l' = abortRewrite l ->
    log_ok (o', l') (installed (o, l) (o', l') snap g) /\
    (linked o' = linked o /\ disk o' = disk o /\ Some e <> None (A := error) /\ logErr l' = logErr l \/ P)) as Hundone.
  { intros o' l' e P Ho Hl'. destruct (install_undone fd o l g o' l' snap Hok Hne Ho Hl') as (? & ? & ?).
    split; [done|]. left. split_and!; [done..|]. by destruct Hl' as [->| ->]. }
  unfold installRewrite. destruct (rewriting l) eqn:Hr; cbn [negb];
    [|apply Hundone; [apply only_sys|by left]].
  cbn [fst snd]. destruct (logErr l) as [e|] eqn:He; [apply Hundone; [apply only_sys|by right]|].
  pose proof (tail_prepared fd snap o l g Hok Hp Hr He) as Hprep.
  destruct (file_Write fd (rewriteTail l) o) as [o1 [n e1]].
  pose proof (only_sys fd o1) as Hs1.
  destruct (file_Sync fd o1) as [o2 e2].
  destruct (sys_call o2) as [o3 e3]. destruct Hprep as (Ho1 & Ho2 & Ho3 & Hv3 & Hdone).
  destruct e1 as [e|]; [apply Hundone; [exact (only_trans _ _ _ _ Ho1 Hs1)|by right]|].
  destruct e2 as [e|]; [by apply Hundone; [|right]|].
  destruct e3 as [e|]; [by apply Hundone; [|right]|]. specialize (Hdone eq_refl eq_refl).
  unfold rename. destruct (nextFault_files o3) as [Hi4 Hl4].
  destruct (nextFault o3) as [o4 [[k e]|]]; cbn [fst] in *.
  { apply Hundone; [|by right]. eapply only_trans; [exact Ho3|].
    split_and!; [by rewrite Hi4|done|]. intros. unfold fileAt. by rewrite Hi4. }
  set (o4' := mkOS (inodes o4) fd (faults o4)).
  assert (forall o' l', inodes o' = inodes o3 -> linked o' = fd -> rewriting l' = false ->
    (logErr l' = None -> on_file fd l') ->
    log_ok (o', l') (installed (o, l) (o', l') snap g) /\
    disk o' = mkFile (enc (snap ++ since g)) (length (enc (snap ++ since g)))) as Hinst.
  { intros o' l'. by apply (install_after fd snap o l g o3). }
  destruct (sys_call_files o4') as [Hi5 Hl5]. destruct (sys_call o4') as [o5 e5]. cbn [fst] in *.
  destruct e5 as [e|].
  - unfold fail, abortRewrite. cbn [setRewrite logErr]. rewrite He.
    edestruct (Hinst o5) as [H1 H2]; [by rewrite Hi5|done| | |split; [exact H1|by right]]; done.
  - destruct (sys_call_files o5) as [Hi6 Hl6]. cbn [fst].
    edestruct (Hinst (sys_call o5).1) as [H1 H2]; [by rewrite Hi6, Hi5|by rewrite Hl6, Hl5| | |
      split; [exact H1|right; split_and!; [by rewrite Hl6, Hl5|done..]]]; [done|].
    unfold on_file. cbn [file bw wfd werr wbuf NewWriterSize]. by rewrite Hl5.
Qed.

(** Installing ends the rewrite, and clears no error. *)
Lemma installRewrite_ends fd st :
  rewriting (installRewrite fd st).1.2 = false /\
  forall e, logErr st.2 = Some e -> logErr (installRewrite fd st).1.2 = Some e.
Proof.
  destruct st as [o l]. unfold installRewrite. destruct (rewriting l) eqn:Hr; cbn [negb]; [|done].
  cbn [snd]. destruct (logErr l) eqn:He; [simpl; by rewrite He|].
  destruct (file_Write fd (rewriteTail l) o) as [o1 [n [e1|]]]; [done|].
  destruct (file_Sync fd o1) as [o2 [e2|]]; [done|].
  destruct (sys_call o2) as [o3 [e3|]]; [done|].
  destruct (rename fd o3) as [o4 [e4|]]; [done|].
  destruct (sys_call o4) as [o5 [e5|]]; [|done].
  unfold fail. by destruct (logErr (abortRewrite l)).
Qed.

Lemma BeginRewrite_ok st g st' :
  log_ok st g -> BeginRewrite st = (st', None) -> log_ok st' (mkGhost (recs g) [] None).
Proof.
  destruct st as [o l]. intros [H1 H2 H3 H4 H5 H6]. unfold BeginRewrite.
  destruct (logErr l) eqn:He; [done|]. destruct (rewriting l); [done|].
  intros [= <-]. split; cbn; done.
Qed.

Lemma lstep_ok st g st' g' : log_ok st g -> lstep (st, g) (st', g') -> log_ok st' g'.
Proof.
  intros Hok Hstep. inversion Hstep; subst.
  - match goal with H : Append ?a _ = _ |- _ =>
      pose proof (Append_ok a st g Hok) as K; by rewrite H in K end.
  - match goal with H : syncLocked ?b _ = _ |- _ =>
      pose proof (syncLocked_ok b st g' Hok) as K; by rewrite H in K end.
  - by eapply BeginRewrite_ok.
  - match goal with H : writeSnapshot _ _ = _ |- _ =>
      pose proof (writeSnapshot_spec snap o) as K; rewrite H in K end.
    destruct K as ((K1 & K2 & K3) & K4). destruct (K4 fd eq_refl) as (Hfd & Hv & Hc).
    pose proof (ok_link _ _ Hok) as Hlk.
    pose proof (log_ok_grow o o' l g K1 K2 K3 Hok) as [G1 G2 G3 G4 G5 _].
    split; try done. cbn [fst pending_tmp]. intros fd' snap' [= <- <-].
    split_and!; try done. rewrite K1. unfold valid in Hlk. cbn [fst] in Hlk. lia.
  - match goal with H : writeSnapshot _ _ = _ |- _ =>
      pose proof (writeSnapshot_spec snap o) as K; rewrite H in K end.
    destruct K as ((K1 & K2 & K3) & _). apply log_ok_abort. by eapply log_ok_grow.
  - match goal with H : installRewrite _ _ = _ |- _ =>
      pose proof (installRewrite_spec fd snap st g Hok ltac:(done)) as K; rewrite H in K end.
    by destruct K.
Qed.

Lemma lsteps_ok x y : rtc lstep x y -> log_ok x.1 x.2 -> log_ok y.1 y.2.
Proof.
  induction 1 as [|[st g] [st1 g1] z Hs _ IH]; [done|]. intros Hok. apply IH. by eapply lstep_ok.
Qed.

(** A file that holds complete records, and nothing that is not synced counted as
    synced. *)
Definition clean (o : OS) (base : list (list bytes)) : Prop :=
  valid (linked o) o /\ content (disk o) = enc base /\ synced (disk o) <= length (content (disk o)).

Lemma Open_ok p o o' l base :
  clean o base -> Open p o = (o', inl l) -> log_ok (o', l) (mkGhost base [] None).
Proof.
  intros (Hv & Hc & Hs). unfold Open. destruct (sys_call_files o) as [Hi Hl].
  destruct (sys_call o) as [o1 [e|]]; [done|]. cbn [fst] in Hi, Hl. intros [= <- <-].
  assert (disk o1 = disk o) as Hd by (unfold disk, fileAt; by rewrite Hi, Hl).
  split; cbn [fst snd]; rewrite ?Hd, ?Hc; cbn; try done.
  - unfold valid in *. by rewrite Hi, Hl.
  - by rewrite <- Hc.
  - intros _. by rewrite app_nil_r.
Qed.

(** ** What the log has promised

    A crash of the machine keeps what is synced, a crash of the process what is written. *)

Definition reach (machine : bool) (o : OS) : nat :=
  if machine then synced (disk o) else length (content (disk o)).

(** Runs of the log with what it has promised to keep so far: every record, whenever a
    sync succeeds, and every record of the new file, whenever a rewrite puts it at the
    path.  Nothing else changes the promise.  If it is a promise for crashes of the
    machine, only a sync that fsyncs counts. *)
Inductive dstep (machine : bool) :
    logState * ghost * list (list bytes) -> logState * ghost * list (list bytes) -> Prop :=
| D_sync fsync st g p st' :
    syncLocked fsync st = (st', None) -> (machine = true -> fsync = true) ->
    dstep machine (st, g, p) (st', g, recs g)
| D_install fd snap st g p st' r :
    pending_tmp g = Some (fd, snap) -> installRewrite fd st = (st', r) -> linked st'.1 <> linked st.1 ->
    dstep machine (st, g, p) (st', installed st st' snap g, recs (installed st st' snap g))
| D_step st g p st' g' :
    lstep (st, g) (st', g') -> linked st'.1 = linked st.1 -> dstep machine (st, g, p) (st', g', p).

Lemma dstep_lstep machine x y : dstep machine x y -> lstep x.1 y.1.
Proof.
  intros [fsync st g p st' Hs _|fd snap st g p st' r Hp Hi _|st g p st' g' Hs _]; cbn [fst].
  - by eapply L_sync.
  - by eapply L_install.
  - done.
Qed.

(** The path names newer and newer files. *)
Lemma lstep_linked st g st' g' : log_ok st g -> lstep (st, g) (st', g') -> linked st.1 <= linked st'.1.
Proof.
  intros Hok Hs. inversion Hs; subst; cbn [fst].
  - match goal with H : Append ?a _ = _ |- _ => destruct (Append_file a st g Hok) as [K _]; rewrite H in K end.
    cbn [fst] in K. lia.
  - match goal with H : syncLocked ?b _ = _ |- _ => destruct (syncLocked_file b st g' Hok) as [K _]; rewrite H in K end.
    cbn [fst] in K. lia.
  - destruct st as [o l]. unfold BeginRewrite in *. by repeat case_match; simplify_eq.
  - match goal with H : writeSnapshot _ _ = _ |- _ => pose proof (writeSnapshot_spec snap o) as K; rewrite H in K end.
    destruct K as [[-> _] _]. done.
  - match goal with H : writeSnapshot _ _ = _ |- _ => pose proof (writeSnapshot_spec snap o) as K; rewrite H in K end.
    destruct K as [[-> _] _]. done.
  - match goal with H : installRewrite _ _ = _ |- _ =>
      pose proof (installRewrite_spec fd snap st g Hok ltac:(done)) as K; rewrite H in K end.
    destruct K as [_ [(-> & _)|(-> & _)]]; [done|].
    match goal with H : pending_tmp g = _ |- _ => destruct (ok_pending _ _ Hok _ _ H) as (_ & K & _) end. lia.
Qed.

(** While the path names the same file, nothing is taken away from it. *)
Lemma lstep_keeps st g st' g' :
  log_ok st g -> lstep (st, g) (st', g') -> linked st'.1 = linked st.1 ->
  recs g `prefix_of` recs g' /\ forall machine, reach machine st.1 <= reach machine st'.1.
Proof.
  intros Hok Hs Hl.
  assert (content (disk st.1) `prefix_of` content (disk st'.1) /\ synced (disk st.1) <= synced (disk st'.1) /\
    recs g `prefix_of` recs g') as (Hc & Hy & Hr); [|split; [done|]; intros []; simpl; [done|by apply prefix_length]].
  inversion Hs; subst; cbn [fst] in *.
  - match goal with H : Append ?a _ = _ |- _ => destruct (Append_file a st g Hok) as (_ & K1 & K2); rewrite H in K1, K2 end.
    cbn [fst] in *. split_and!; [done|lia|]. unfold appended. case_match; [done|]. by eexists.
  - match goal with H : syncLocked ?b _ = _ |- _ =>
      destruct (syncLocked_file b st g' Hok) as [_ K1]; pose proof (syncLocked_grows b st g' Hok) as K2;
      rewrite H in K1, K2 end. done.
  - destruct st as [o l]. unfold BeginRewrite in *. by repeat case_match; simplify_eq.
  - match goal with H : writeSnapshot _ _ = _ |- _ => pose proof (writeSnapshot_spec snap o) as K; rewrite H in K end.
    destruct K as ((K1 & _ & K3) & _). unfold disk. rewrite K1, K3 by apply (ok_link _ _ Hok). done.
  - match goal with H : writeSnapshot _ _ = _ |- _ => pose proof (writeSnapshot_spec snap o) as K; rewrite H in K end.
    destruct K as ((K1 & _ & K3) & _). unfold disk. rewrite K1, K3 by apply (ok_link _ _ Hok). done.
  - match goal with H : installRewrite _ _ = _ |- _ =>
      pose proof (installRewrite_spec fd snap st g Hok ltac:(done)) as K; rewrite H in K end.
    match goal with H : pending_tmp g = _ |- _ => destruct (ok_pending _ _ Hok _ _ H) as (_ & Kf & _) end.
    destruct K as [_ [(_ & -> & _)|(K & _)]]; [|lia]. unfold installed. by rewrite decide_True.
Qed.

(** What has been promised is a part of the records, and out of the crash's reach. *)
Definition promised (machine : bool) (st : logState) (g : ghost) (p : list (list bytes)) : Prop :=
  p `prefix_of` recs g /\ length (enc p) <= reach machine st.1.

Lemma dstep_promised machine st g p st' g' p' :
  log_ok st g -> promised machine st g p -> dstep machine (st, g, p) (st', g', p') ->
  log_ok st' g' /\ promised machine st' g' p'.
Proof.
  intros Hok [Hp Hr] Hs. split; [by apply (lstep_ok _ _ _ _ Hok), (dstep_lstep _ _ _ Hs)|].
  inversion Hs as [fsync st0 g0 p0 st0' Hy Hf|fd snap st0 g0 p0 st0' r Hpe Hi Hl|st0 g0 p0 st0' g0' Hl Hsame]; subst.
  - split; [done|]. destruct machine; cbn [reach].
    + rewrite (Hf eq_refl) in Hy. by rewrite (syncLocked_forces _ _ _ Hok Hy).
    + by rewrite (syncLocked_flushes _ _ _ _ Hok Hy).
  - pose proof (installRewrite_spec fd snap st g Hok Hpe) as K. rewrite Hi in K.
    destruct K as [_ [(K & _)|(_ & K & _)]]; [done|]. split; [done|].
    unfold installed. rewrite decide_False by done. unfold reach. rewrite K. by destruct machine.
  - destruct (lstep_keeps _ _ _ _ Hok Hl Hsame) as [Hpre Hre]. split; [by etrans|]. specialize (Hre machine). lia.
Qed.

Lemma dsteps_promised machine x y :
  rtc (dstep machine) x y -> log_ok x.1.1 x.1.2 -> promised machine x.1.1 x.1.2 x.2 ->
  log_ok y.1.1 y.1.2 /\ promised machine y.1.1 y.1.2 y.2.
Proof.
  induction 1 as [|[[st g] p] [[st1 g1] p1] z Hs _ IH]; [done|]. intros Hok Hp. cbn [fst snd] in *.
  destruct (dstep_promised _ _ _ _ _ _ _ Hok Hp Hs). by apply IH.
Qed.

(** As long as the path names the same file, promises are only added to. *)
Lemma dsteps_more machine x y :
  rtc (dstep machine) x y -> log_ok x.1.1 x.1.2 -> promised machine x.1.1 x.1.2 x.2 ->
  linked x.1.1.1 <= linked y.1.1.1 /\ (linked y.1.1.1 = linked x.1.1.1 -> x.2 `prefix_of` y.2).
Proof.
  induction 1 as [|[[st g] p] [[st1 g1] p1] z Hs _ IH]; [done|]. intros Hok Hp. cbn [fst snd] in *.
  destruct (dstep_promised _ _ _ _ _ _ _ Hok Hp Hs) as [Hok1 Hp1]. destruct (IH Hok1 Hp1) as [Hl Hm].
  pose proof (lstep_linked _ _ _ _ Hok (dstep_lstep _ _ _ Hs)) as Hl1. split; [lia|]. intros Heq.
  etrans; [|apply Hm; lia].
  inversion Hs; subst; [by destruct Hp|lia|done].
Qed.

(** What a crash leaves of a file is at least what was out of its reach. *)
Lemma promised_left st g p cut :
  log_ok st g -> promised true st g p -> synced (disk st.1) <= cut ->
  enc p `prefix_of` take cut (content (disk st.1)).
Proof.
  intros Hok [[w Hw] Hp] Hcut. destruct (ok_prefix _ _ Hok) as [rest Hc].
  pose proof (ok_synced _ _ Hok) as Hs. cbn [reach] in Hp. rewrite Hw, enc_app in Hc.
  exists (drop (length (enc p)) (take cut (content (disk st.1)))).
  rewrite <- (take_drop (length (enc p)) (take cut _)) at 1. f_equal.
  rewrite take_take. replace (length (enc p) `min` cut) with (length (enc p)) by lia.
  rewrite <- (take_app_le (content (disk st.1)) rest) by lia. rewrite <- Hc. by rewrite take_app_length.
Qed.

(** What is known to be stable when a log is opened may be promised. *)
Lemma Open_promised pol o0 o l base stable :
  stable `prefix_of` base -> length (enc stable) <= synced (disk o0) -> Open pol o0 = (o, inl l) ->
  promised true (o, l) (mkGhost base [] None) stable.
Proof.
  intros Hb Hs Ho. split; [done|]. unfold Open in Ho. destruct (sys_call_files o0) as [Hi Hl].
  destruct (sys_call o0) as [o1 [e|]]; [done|]. injection Ho as -> _.
  cbn [fst] in *. unfold reach, disk, fileAt. by rewrite Hi, Hl.
Qed.

(** C24. Crash consistency: from opening a log on a file of complete records, some of them
    known to be on stable storage, after any interleaving of appends, flushes, syncs and
    rewrites, and whatever system calls have failed, what a crash leaves at the log's
    path is a prefix of the wire form of the records the log should hold.  It contains
    everything the log has promised: what was stable when it was opened, then all records
    that were in the log at the last fsync that succeeded, or, if a rewrite has been
    installed since, all records of the new file, which no later fsync is needed for.
    Until the next rewrite is installed a promise is only added to. *)
Theorem aof_crash_consistent (pol : Policy) (o0 o : OS) (l : Log) (base stable : list (list bytes))
    (st1 st : logState) (g1 g : ghost) (p1 p : list (list bytes)) (cut : nat) :
  clean o0 base -> stable `prefix_of` base -> length (enc stable) <= synced (disk o0) ->
  Open pol o0 = (o, inl l) ->
  rtc (dstep true) ((o, l), mkGhost base [] None, stable) (st1, g1, p1) ->
  rtc (dstep true) (st1, g1, p1) (st, g, p) -> synced (disk st.1) <= cut ->
  take cut (content (disk st.1)) `prefix_of` enc (recs g) /\
  enc p `prefix_of` take cut (content (disk st.1)) /\
  (linked st.1 = linked st1.1 -> p1 `prefix_of` p).
Proof.
  intros Hc Hb Hs Ho Hr1 Hr Hcut.
  destruct (dsteps_promised true _ _ Hr1) as [Hok1 Hp1]; [by eapply Open_ok|by eapply Open_promised|].
  destruct (dsteps_promised true _ _ Hr Hok1 Hp1) as [Hok Hp]. split_and!.
  - etrans; [apply prefix_take|apply (ok_prefix _ _ Hok)].
  - by eapply promised_left.
  - by apply (dsteps_more true _ _ Hr Hok1 Hp1).
Qed.

(** What a successful [Sync] leaves behind. *)
Lemma Sync_forces (st st' : logState) (g : ghost) :
  log_ok st g -> logPolicy st.2 <> PolicyNo -> Sync st = (st', None) ->
  disk st'.1 = mkFile (enc (recs g)) (length (enc (recs g))) /\ log_ok st' g.
Proof.
  intros Hok Hp. unfold Sync. rewrite bool_decide_false by done. cbn [negb]. intros Hs. split.
  - by eapply syncLocked_forces.
  - pose proof (syncLocked_ok true _ _ Hok) as Hok'. by rewrite Hs in Hok'.
Qed.

(** A successful sync makes everything durable: when [Sync] returns nil under a
    policy that syncs, the file at the path is exactly the wire form of all records,
    and all of it is on stable storage. *)
Theorem Sync_durable (st st' : logState) (g : ghost) :
  log_ok st g -> logPolicy st.2 <> PolicyNo -> Sync st = (st', None) ->
  disk st'.1 = mkFile (enc (recs g)) (length (enc (recs g))) /\ log_ok st' g.
Proof. apply Sync_forces. Qed.

(** A sync that returns an error has latched one, and only then. *)
Lemma syncLocked_latched fsync st :
  let '(st', r) := syncLocked fsync st in logErr st'.2 = r /\ logPolicy st'.2 = logPolicy st.2.
Proof.
  destruct st as [o l]. unfold syncLocked. destruct (logErr l) eqn:He; [done|].
  destruct (bufw_Flush (o, bw l)) as [[o1 b1] [e|]].
  - unfold fail, setBw. cbn [logErr snd]. by rewrite He.
  - destruct fsync; [|done]. destruct (file_Sync _ o1) as [o2 [e|]]; [|done].
    unfold fail, setBw. cbn [logErr snd]. by rewrite He.
Qed.

Lemma Append_policy args st : logPolicy (Append args st).1.2 = logPolicy st.2.
Proof.
  destruct st as [o l]. unfold Append. destruct (logErr l); [done|].
  destruct (writeCommand args (o, bw l)) as [[o1 b1] [[]|e|]]; [| |done].
  - unfold setBw at 1. cbn [rewriting]. destruct (rewriting l) eqn:Hr; [|done].
    by rewrite (writes_command args).
  - unfold fail. by destruct (logErr (setBw b1 l)).
Qed.

(** The policy is the one the log was opened with. *)
Lemma installRewrite_policy fd st : logPolicy (installRewrite fd st).1.2 = logPolicy st.2.
Proof.
  destruct st as [o l]. unfold installRewrite. destruct (rewriting l); cbn [negb]; [|done].
  cbn [snd]. destruct (logErr l); [done|].
  destruct (file_Write fd (rewriteTail l) o) as [o1 [n [e1|]]]; [done|].
  destruct (file_Sync fd o1) as [o2 [e2|]]; [done|].
  destruct (sys_call o2) as [o3 [e3|]]; [done|].
  destruct (rename fd o3) as [o4 [e4|]]; [done|].
  destruct (sys_call o4) as [o5 [e5|]]; [|done].
  unfold fail. by destruct (logErr (abortRewrite l)).
Qed.

Lemma lstep_policy x y : lstep x y -> logPolicy y.1.2 = logPolicy x.1.2.
Proof.
  intros [args st g st' r H|fsync st g st' r H|st g st' H|snap o l g o' fd H|snap o l g o' e H|fd snap st g st' r _ H];
    cbn [fst snd]; try done.
  - pose proof (Append_policy args st) as K. by rewrite H in K.
  - pose proof (syncLocked_latched fsync st) as K. rewrite H in K. apply K.
  - destruct st as [o l]. unfold BeginRewrite in H. by repeat case_match; simplify_eq.
  - pose proof (installRewrite_policy fd st) as K. by rewrite H in K.
Qed.

Lemma lsteps_policy x y : rtc lstep x y -> logPolicy y.1.2 = logPolicy x.1.2.
Proof. induction 1 as [|x y z H _ IH]; [done|]. by rewrite IH, (lstep_policy x y H). Qed.

Lemma Open_policy pol o0 o l : Open pol o0 = (o, inl l) -> logPolicy l = pol.
Proof. unfold Open. destruct (sys_call o0) as [o1 [e|]]; [done|]. by intros [= _ <-]. Qed.

(** Commands that arrive while a snapshot is written. *)
Definition arrivals (during : list (list bytes)) (st : logState) : logState :=
  foldl (fun st args => (Append args st).1) st during.

Lemma Append_rewriting args st : rewriting (Append args st).1.2 = rewriting st.2.
Proof.
  destruct st as [o l]. unfold Append. destruct (logErr l); [done|].
  destruct (writeCommand args (o, bw l)) as [[o1 b1] [[]|e|]]; [| |done].
  - unfold setBw at 1. cbn [rewriting]. destruct (rewriting l) eqn:Hr; [|done].
    by rewrite (writes_command args).
  - unfold fail. by destruct (logErr (setBw b1 l)).
Qed.

Lemma arrivals_failed during st : logErr st.2 <> None -> arrivals during st = st.
Proof.
  destruct st as [o l]. cbn [snd]. intros He. induction during as [|a during IH]; [done|].
  simpl. destruct (logErr l); [done|by destruct He].
Qed.

Lemma arrivals_ok during st g :
  log_ok st g ->
  exists took, took `prefix_of` during /\
    log_ok (arrivals during st) (mkGhost (recs g ++ took) (since g ++ took) (pending_tmp g)) /\
    (logErr (arrivals during st).2 = None -> took = during) /\
    rewriting (arrivals during st).2 = rewriting st.2.
Proof.
  revert st g. induction during as [|a during IH]; intros st g Hok.
  { exists []. rewrite !app_nil_r. destruct g. done. }
  destruct (logErr st.2) as [e|] eqn:He.
  { rewrite arrivals_failed by congruence. exists []. rewrite !app_nil_r. destruct g.
    split_and!; [apply prefix_nil|done|congruence|done]. }
  pose proof (Append_ok a st g Hok) as Hok1. unfold appended in Hok1. rewrite He in Hok1.
  pose proof (Append_rewriting a st) as Hr.
  destruct (IH _ _ Hok1) as (took & Hp & Hok2 & Hall & Hrw). cbn [recs since pending_tmp] in Hok2.
  exists (a :: took). split_and!.
  - by apply prefix_cons.
  - by rewrite <- !app_assoc in Hok2.
  - intros H. by rewrite (Hall H).
  - cbn [arrivals foldl]. fold (arrivals during (Append a st).1). by rewrite Hrw.
Qed.

Lemma arrivals_grow during st g :
  log_ok st g ->
  linked (arrivals during st).1 = linked st.1 /\
  synced (disk (arrivals during st).1) = synced (disk st.1) /\
  content (disk st.1) `prefix_of` content (disk (arrivals during st).1).
Proof.
  revert st g. induction during as [|a during IH]; intros st g Hok; [done|].
  cbn [arrivals foldl]. fold (arrivals during (AofLog.Append a st).1).
  destruct (IH _ _ (Append_ok a st g Hok)) as (Hl & Hs & Hp).
  destruct (Append_file a st g Hok) as (Hl' & Hs' & Hp'). split_and!; [congruence..|by etrans].
Qed.

(** ** Records that stay in the buffer *)

(** Output that the buffer has room for makes no system call. *)
Definition buffered (m : GoM wstate unit) (out : bytes) : Prop :=
  forall o b, werr b = None -> length (wbuf b) + length out <= writerBufSize ->
    m (o, b) = ((o, mkBufW (wbuf b ++ out) None (wfd b)), Ret tt).

Lemma buffered_write p : buffered (io_write p) p.
Proof.
  intros o b He Hl. unfold io_write, bufw_writer, bufw_Write. cbn [bufw_loop].
  rewrite decide_False by (unfold Available; lia). by rewrite He.
Qed.

Lemma buffered_ret : buffered (mret tt) [].
Proof. intros o [b e f] He _. cbn [werr] in He. subst. by rewrite app_nil_r. Qed.

Lemma buffered_seq m1 m2 out1 out2 :
  buffered m1 out1 -> buffered m2 out2 -> buffered (m1;; m2) (out1 ++ out2).
Proof.
  intros H1 H2 o b He Hl. rewrite length_app in Hl. unfold mbind, GoM_bind.
  rewrite H1 by (done || lia). rewrite H2; [by rewrite app_assoc|done|].
  cbn [wbuf]. rewrite length_app. lia.
Qed.

#[local] Hint Resolve buffered_write buffered_ret buffered_seq : resp.

Lemma buffered_bulks args : buffered (writeBulks args) (concat (encode_bulk <$> args)).
Proof.
  induction args as [|a args IH]; [apply buffered_ret|]. cbn [writeBulks].
  rewrite fmap_cons. cbn [concat]. apply buffered_seq; [|done].
  unfold WriteBulkString, writeCountLine, encode_bulk. auto with resp.
Qed.

Lemma buffered_command args : buffered (writeCommand args) (encodeCommand args).
Proof.
  apply buffered_seq; [|apply buffered_bulks]. unfold WriteArrayHeader, writeCountLine. auto with resp.
Qed.

Lemma arrivals_buffered during st g :
  log_ok st g -> logErr st.2 = None -> length (wbuf (bw st.2)) + length (enc during) <= writerBufSize ->
  (arrivals during st).1 = st.1 /\ logErr (arrivals during st).2 = None.
Proof.
  revert st g. induction during as [|a during IH]; intros [o l] g Hok He Hl; [done|]. cbn [fst snd] in *.
  pose proof (ok_good _ _ Hok He) as (_ & _ & Hwe & _). cbn [snd] in Hwe.
  pose proof (Append_ok a (o, l) g Hok) as Hok1. change (enc (a :: during)) with (enc ([a] ++ during)) in Hl.
  rewrite enc_app, enc_one, length_app in Hl.
  pose proof (buffered_command a o (bw l) Hwe ltac:(lia)) as Hw.
  cbn [arrivals foldl]. fold (arrivals during (AofLog.Append a (o, l)).1).
  assert (exists l1, (AofLog.Append a (o, l)).1 = (o, l1) /\ logErr l1 = None /\
    wbuf (bw l1) = wbuf (bw l) ++ encodeCommand a) as (l1 & Ha & He1 & Hb).
  { unfold AofLog.Append. rewrite He, Hw. unfold setBw. cbn [rewriting].
    destruct (rewriting l); [rewrite (writes_command a)|]; by eexists. }
  rewrite Ha in Hok1 |- *. apply (IH (o, l1) _ Hok1 He1). cbn [snd]. rewrite Hb, length_app. lia.
Qed.

(** The log when a rewrite has been given up: the path names the old file, nothing has been
    taken from it, and file and buffer together hold the old records and the new ones. *)
Definition untouched (st st' : logState) (rs : list (list bytes)) : Prop :=
  linked st'.1 = linked st.1 /\
  content (disk st.1) `prefix_of` content (disk st'.1) /\ synced (disk st'.1) = synced (disk st.1) /\
  content (disk st'.1) `prefix_of` enc rs /\
  (logErr st'.2 = None -> content (disk st'.1) ++ wbuf (bw st'.2) = enc rs).

(** The commands of the window, and then any state with the same file. *)
Lemma given_up during st st1 st' g :
  log_ok st g -> log_ok st1 g -> linked st1.1 = linked st.1 -> disk st1.1 = disk st.1 ->
  let st2 := arrivals during st1 in
  linked st'.1 = linked st2.1 -> disk st'.1 = disk st2.1 -> logErr st'.2 = logErr st2.2 ->
  (exists g', log_ok st' g' /\ recs g' `prefix_of` recs g ++ during /\ (logErr st2.2 = None -> recs g' = recs g ++ during)) ->
  untouched st st' (recs g ++ during).
Proof.
  intros Hok Hok1 Hl1 Hd1 st2 Hl Hd He (g' & Hok' & [w Hw] & Hall).
  destruct (arrivals_grow during st1 g Hok1) as (K1 & K2 & K3). fold st2 in K1, K2, K3.
  rewrite Hd1 in K2, K3. unfold untouched. split_and!; [congruence|by rewrite Hd|by rewrite Hd| |].
  - etrans; [apply (ok_prefix _ _ Hok')|]. rewrite Hw, enc_app. by eexists.
  - intros Hn. rewrite <- Hall by congruence. destruct (ok_good _ _ Hok' Hn) as (_ & _ & _ & Hx). exact Hx.
Qed.

(** C25. A rewrite is atomic and loses no concurrent write: when [FinishRewrite]
    succeeds, the file at the path is the snapshot followed by everything appended
    since the rewrite began, the commands that arrived while the snapshot was being
    written included, all of it synced, and the log goes on writing to it.  When it fails,
    whichever system call failed, the path still names the old file: nothing that was in it
    or synced has been taken away, with the buffer it holds all the old records and the
    commands that arrived, and the log is as healthy as those commands left it; or the
    complete new file is already at the path and could not be opened again, and the log
    has that error.  In any case the rewrite is over. *)
Theorem FinishRewrite_atomic (during snap : list (list bytes)) (st : logState) (g : ghost) :
  log_ok st g -> rewriting st.2 = true ->
  let new := mkFile (enc (snap ++ since g ++ during)) (length (enc (snap ++ since g ++ during))) in
  let arrived := arrivals during ((writeSnapshot snap st.1).1, st.2) in
  let '(st', r) := FinishRewrite (arrivals during) snap st in
  rewriting st'.2 = false /\
  (r = None -> disk st'.1 = new /\ logErr st'.2 = None /\ on_file (linked st'.1) st'.2) /\
  (r <> None ->
     untouched st st' (recs g ++ during) /\ logErr st'.2 = logErr arrived.2 \/
     disk st'.1 = new /\ logErr st'.2 = r).
Proof.
  intros Hok Hr new. unfold FinishRewrite. destruct st as [o l]. cbn [fst snd].
  pose proof (writeSnapshot_spec snap o) as Hw.
  destruct (writeSnapshot snap o) as [o1 r0] eqn:Hws; destruct Hw as ((K1 & K2 & K3) & K4). cbn [fst].
  assert (disk o1 = disk o) as Hd1 by (unfold disk; rewrite K1; apply K3, (ok_link _ _ Hok)).
  pose proof (log_ok_grow o o1 l g K1 K2 K3 Hok) as Hok1.
  destruct (arrivals_ok during (o1, l) g Hok1) as (took & Ht & Hoka & Halla & _).
  destruct r0 as [fd|e].
  - pose proof (lstep_ok _ _ _ _ Hok (L_snapshot snap o l g o1 fd Hws)) as Hok2.
    destruct (arrivals_ok during _ _ Hok2) as (took2 & Hp & Hok3 & Hall & Hrw).
    pose proof (installRewrite_spec fd snap _ _ Hok3 eq_refl) as Hin.
    pose proof (installRewrite_ends fd (arrivals during (o1, l))) as [Hend _].
    destruct (installRewrite fd (arrivals during (o1, l))) as [st3 r]. cbn [fst snd recs since pending_tmp] in *.
    destruct Hin as [Hok' [(Hl & Hd & Hne & He)|(Hl & Hd & He & He')]].
    + split_and!; [done|done|]. intros _. left. split; [|done].
      apply (given_up during (o, l) (o1, l) st3 g); try done.
      eexists. split; [exact Hok'|]. unfold installed. rewrite decide_True by done. cbn [recs].
      split; [by apply prefix_app|]. intros Hn. by rewrite (Hall Hn).
    + rewrite (Hall He) in Hd. split_and!; [done| |by right]. intros Hr0. rewrite Hr0 in He'.
      split_and!; [done..|]. destruct (ok_good _ _ Hok' He') as (G1 & G2 & G3 & G4). rewrite Hl in *. split_and!; try done.
      unfold installed in G4. rewrite decide_False in G4.
      2: { intros Heq. destruct (ok_pending _ _ Hok3 fd snap eq_refl) as (_ & Hlt & _). lia. }
      cbn [recs] in G4. rewrite Hd, (Hall He) in G4. cbn [content] in G4.
      apply (app_inv_head (enc (snap ++ since g ++ during))). by rewrite app_nil_r.
  - destruct (arrivals during (o1, l)) as [o2 l2] eqn:Harr. cbn [fst snd] in *.
    split_and!; [done|done|]. intros _. left. split; [|done].
    apply (given_up during (o, l) (o1, l) (o2, abortRewrite l2) g); try done; rewrite Harr; try done.
    eexists. split; [by apply log_ok_abort|]. cbn [recs]. split; [by apply prefix_app|].
    intros Hn. by rewrite (Halla Hn).
Qed.

(** ** A log on a disk that fills up *)

(** The first [write] after opening takes five bytes and fails with ENOSPC. *)
Definition fresh_log (p : Policy) : Log := mkLog 0 (NewWriterSize 0) p false [] None.
Definition opened : logState := (mkOS [mkFile [] 0] 0 [Some (5, OSError 28)], fresh_log PolicyAlways).

Definition rec_a : list bytes := [cmdSET; bs "a"; bs "1"].
Definition rec_b : list bytes := [cmdDEL; bs "b"].

Definition full1 : logState := (Append rec_a opened).1.
Definition full2 : logState := (syncLocked true full1).1.

Lemma opened_ok os : log_ok (mkOS [mkFile [] 0] 0 os, fresh_log PolicyAlways) (mkGhost [] [] None).
Proof. split; cbn; try done; unfold valid; simpl; lia. Qed.

Definition healthy : logState := (mkOS [mkFile [] 0] 0 [], fresh_log PolicyAlways).

(** A record is synced, a second one only appended; then a rewrite is installed. *)
Definition synced_a : logState := (syncLocked true (Append rec_a healthy).1).1.
Definition begun_b : logState := (BeginRewrite (Append rec_b synced_a).1).1.
Definition snapped_b : logState := ((writeSnapshot [rec_a] begun_b.1).1, begun_b.2).
Definition installed_b : logState := (installRewrite 1 snapped_b).1.

Lemma synced_a_run :
  rtc (dstep true) (healthy, mkGhost [] [] None, []) (synced_a, mkGhost [rec_a] [rec_a] None, [rec_a]).
Proof.
  eapply rtc_l.
  - apply (D_step true healthy _ [] (Append rec_a healthy).1 (mkGhost [rec_a] [rec_a] None)); [|vm_compute; reflexivity].
    apply (L_append rec_a healthy (mkGhost [] [] None) _ (Append rec_a healthy).2), surjective_pairing.
  - apply rtc_once, (D_sync true true _ (mkGhost [rec_a] [rec_a] None)); [vm_compute; reflexivity|done].
Qed.

Lemma installed_b_run :
  rtc (dstep true) (synced_a, mkGhost [rec_a] [rec_a] None, [rec_a])
    (installed_b, mkGhost [rec_a] [] None, [rec_a]).
Proof.
  eapply rtc_l.
  { apply (D_step true synced_a _ [rec_a] (Append rec_b synced_a).1 (mkGhost [rec_a; rec_b] [rec_a; rec_b] None)); [|vm_compute; reflexivity].
    apply (L_append rec_b synced_a (mkGhost [rec_a] [rec_a] None) _ (Append rec_b synced_a).2), surjective_pairing. }
  eapply rtc_l.
  { apply (D_step true _ (mkGhost [rec_a; rec_b] [rec_a; rec_b] None) [rec_a] begun_b (mkGhost [rec_a; rec_b] [] None)); [|vm_compute; reflexivity].
    apply L_begin. vm_compute. reflexivity. }
  eapply rtc_l.
  { apply (D_step true begun_b (mkGhost [rec_a; rec_b] [] None) [rec_a] snapped_b (mkGhost [rec_a; rec_b] [] (Some (1, [rec_a])))); [|vm_compute; reflexivity].
    apply (L_snapshot [rec_a] begun_b.1 begun_b.2 (mkGhost [rec_a; rec_b] [] None)). vm_compute. reflexivity. }
  apply rtc_once.
  apply (D_install true 1 [rec_a] snapped_b (mkGhost [rec_a; rec_b] [] (Some (1, [rec_a]))) [rec_a] installed_b None);
    vm_compute; done.
Qed.

Lemma aof_crash_consistent_witness :
  take 27 (content (disk installed_b.1)) `prefix_of` enc [rec_a] /\
  enc [rec_a] `prefix_of` take 27 (content (disk installed_b.1)).
Proof.
  destruct (aof_crash_consistent PolicyAlways healthy.1 healthy.1 healthy.2 [] [] synced_a installed_b
    (mkGhost [rec_a] [rec_a] None) (mkGhost [rec_a] [] None) [rec_a] [rec_a] 27) as (H1 & H2 & _).
  - split_and!; vm_compute; first [lia|reflexivity].
  - reflexivity.
  - vm_compute. lia.
  - reflexivity.
  - exact synced_a_run.
  - exact installed_b_run.
  - apply Nat.leb_le. vm_compute. reflexivity.
  - exact (conj H1 H2).
Defined.

Lemma Sync_durable_witness :
  (Sync (Append rec_a healthy).1).2 = None /\
  disk (Sync (Append rec_a healthy).1).1.1 = mkFile (enc [rec_a]) (length (enc [rec_a])).
Proof.
  assert ((Sync (Append rec_a healthy).1).2 = None) as Hs by (vm_compute; reflexivity).
  split; [exact Hs|].
  apply (Sync_durable (Append rec_a healthy).1 _ (mkGhost [rec_a] [rec_a] None)).
  - apply (Append_ok rec_a healthy (mkGhost [] [] None)). apply opened_ok.
  - vm_compute. discriminate.
  - rewrite <- Hs. apply surjective_pairing.
Defined.

(** A rewrite with one command arriving in its window. *)
Definition rewriting_log : logState := (BeginRewrite (Append rec_a healthy).1).1.

Lemma FinishRewrite_atomic_witness :
  let '(st', r) := FinishRewrite (arrivals [rec_b]) [rec_a] rewriting_log in
  r = None /\ content (disk st'.1) = enc [rec_a; rec_b].
Proof.
  assert (log_ok rewriting_log (mkGhost [rec_a] [] None)) as Hok.
  { apply (BeginRewrite_ok (Append rec_a healthy).1 (mkGhost [rec_a] [rec_a] None)).
    - apply (Append_ok rec_a healthy (mkGhost [] [] None)). apply opened_ok.
    - vm_compute. reflexivity. }
  pose proof (FinishRewrite_atomic [rec_b] [rec_a] rewriting_log _ Hok ltac:(vm_compute; reflexivity)) as H.
  destruct (FinishRewrite (arrivals [rec_b]) [rec_a] rewriting_log) as [st' r] eqn:Hf.
  assert (r = None) as Hr by (change r with (st', r).2; rewrite <- Hf; vm_compute; reflexivity).
  split; [exact Hr|]. destruct H as (_ & H & _). destruct (H Hr) as [-> _]. reflexivity.
Defined.
