(* ===== verification/Replay.v ===== *)
(** * internal/aof/replay.go: reading the log back

    [Replay] reads commands until the stream ends and hands each to the callback
    [apply], which works on a state of the caller's.  It is generic in the reader:
    the program uses [bufio.Reader] on the file, whose reads return fragments of
    any size.

    The theorems: a log cut anywhere is recovered up to its last complete record
    and truncated there, whatever the fragmentation; together with the invariant
    of the log, a crash at any moment loses no record the log has promised to keep, and
    [Replay] applies all complete ones unless its callback refuses one; and replay
    terminates on every file. *)

From stdpp Require Import base list strings relations.
From Stdlib Require Import ZArith Lia.
From Stdlib Require Import Strings.Byte.
From S2P Require Import Prelude.
From S2P Require Import GoStrconv.
From S2P Require Import RespWriter.
From S2P Require Import Bufio.
From S2P Require Import RespReader.
From S2P Require Import Store.
From S2P Require Import AofLog.
From S2P Require Import AofInv.

#[local] Open Scope Z_scope.

(** [fmt.Errorf("%w: ...", ErrCorrupt, ...)]. *)
Definition ErrCorrupt (cause : error) : error := Wrapped (bs "aof: corrupt") cause.

(** [os.ErrNotExist]. *)
Definition ErrNotExist : error := OSError 2.

Record Result : Type := mkResult { Commands : Z; Bytes : Z; Truncated : Z }.

(** [EncodedLen]: the lengths of the pieces, added up. *)
Definition EncodedLen (args : list bytes) : Z :=
  foldl (fun n a => n + (lenZ (bs "$") + lenZ (FormatInt (lenZ a)) + lenZ crlf + lenZ a + lenZ crlf))
    (lenZ (bs "*") + lenZ (FormatInt (lenZ args)) + lenZ crlf) args.

(** How the loop ends. *)
Inductive replayEnd : Type :=
| EndOfLog
| TornTail
| Refused (e : error)
| Panicked
| OutOfFuel.

Section Replay.
Context {R S : Type} `{!BufReader R}.
Context (apply : list bytes -> S -> S * option error).

(** The loop of [Replay]. *)
Fixpoint replayLoop (fuel : nat) (r : R) (res : Result) (s : S) : S * Result * replayEnd :=
  match fuel with
  | O => (s, res, OutOfFuel)
  | Datatypes.S fu =>
      match ReadCommand r with
      | (_, Fail EOF) => (s, res, EndOfLog)
      | (_, Fail ErrUnexpectedEOF) => (s, res, TornTail)
      | (_, Fail e) => (s, res, Refused (ErrCorrupt e))
      | (_, Panics _) => (s, res, Panicked)
      | (r', Ret args) =>
          if lenZ args =? 0 then replayLoop fu r' res s
          else
            let '(s', err) := apply args s in
            match err with
            | Some e => (s', res, Refused (ErrCorrupt e))
            | None =>
                replayLoop fu r'
                  (mkResult (Commands res + 1) (Bytes res + EncodedLen args) (Truncated res)) s'
            end
      end
  end.
End Replay.

(** [os.Truncate(path, n)]. *)
Definition truncate (n : Z) (o : OS) : OS * option error :=
  let '(o1, x) := nextFault o in
  match x with
  | Some (_, e) => (o1, Some e)
  | None =>
      let fl := disk o1 in
      let c := take (Z.to_nat n) (content fl) in
      (setFile (linked o1) (mkFile c (Nat.min (synced fl) (length c))) o1, None)
  end.

(** [Replay]: [src] is how the reads of the file are going to be fragmented. *)
Definition Replay {S} (apply : list bytes -> S -> S * option error) (src : source) (o : OS) (s : S) :
    OS * S * Result * option error :=
  let res := mkResult 0 0 0 in
  let '(o1, e) := sys_call o in
  match e with
  | Some e =>
      if decide (e = ErrNotExist) then (o1, s, res, None)
      else (o1, s, res, Some (Wrapped (bs "open aof") e))
  | None =>
      let fuel := Datatypes.S (length (concat (chunks src))) in
      let '(s', res', ending) := replayLoop apply fuel (newBufio src) res s in
      match ending with
      | EndOfLog => ((sys_call o1).1, s', res', None)
      | TornTail =>
          let '(o2, e2) := sys_call o1 in
          match e2 with
          | Some e => ((sys_call o2).1, s', res', Some (Wrapped (bs "stat aof") e))
          | None =>
              let res'' := mkResult (Commands res') (Bytes res')
                             (lenZ (content (disk o2)) - Bytes res') in
              let '(o3, e3) := sys_call o2 in
              match e3 with
              | Some e => ((sys_call o3).1, s', res'', Some e)
              | None =>
                  let '(o4, e4) := truncate (Bytes res'') o3 in
                  ((sys_call o4).1, s', res'',
                   (fun e => Wrapped (bs "truncate torn aof") e) <$> e4)
              end
          end
      | Refused e => ((sys_call o1).1, s', res', Some e)
      | Panicked => (o1, s', res', Some (ErrorString (bs "panic")))
      | OutOfFuel => (o1, s', res', Some (ErrorString (bs "out of fuel")))
      end
  end.

(** ** Encoded lengths *)

Lemma EncodedLen_exact args : EncodedLen args = lenZ (encodeCommand args).
Proof.
  unfold EncodedLen. rewrite foldl_sumZ. unfold encodeCommand, countLine.
  rewrite !lenZ_app. rewrite <- !Z.add_assoc. f_equal. f_equal. f_equal.
  induction args as [|a args IH]; [done|]. rewrite fmap_cons. cbn [sumZ foldr concat].
  fold (sumZ (fun a => lenZ (bs "$") + lenZ (FormatInt (lenZ a)) + lenZ crlf + lenZ a + lenZ crlf) args).
  rewrite IH. unfold encode_bulk, countLine. rewrite !lenZ_app.
  change (lenZ [Byte.x24]) with (lenZ (bs "$")). lia.
Qed.

(** ** The loop does not depend on the fragmentation *)

Lemma replayLoop_flat {S} (apply : list bytes -> S -> S * option error) fuel b f res s :
  rel readerBufSize b f ->
  replayLoop apply fuel b res s = replayLoop apply fuel f res s.
Proof.
  revert b f res s. induction fuel as [|fu IH]; intros b f res s Hr; [done|].
  simpl. destruct (bufio_sim_ReadCommand b f Hr) as [Ho Hr'].
  destruct (ReadCommand b) as [b' o1], (ReadCommand f) as [f' o2]. simpl in Ho, Hr'. subst o1.
  destruct o2 as [args|e|w]; [|done|done].
  destruct (lenZ args =? 0); [by apply IH|]. destruct (apply args s) as [s' [e|]]; [done|].
  by apply IH.
Qed.

(** ** Complete records *)

(** How many of [recs] fit into [k] bytes of their wire form. *)
Fixpoint complete (recs : list (list bytes)) (k : nat) : nat :=
  match recs with
  | [] => 0
  | r :: rest =>
      if decide (length (encodeCommand r) <= k)%nat
      then Datatypes.S (complete rest (k - length (encodeCommand r))) else 0
  end.

Lemma encodeCommand_nonempty args : (0 < length (encodeCommand args))%nat.
Proof. unfold encodeCommand, countLine. rewrite !length_app. simpl. lia. Qed.

Lemma enc_cons r recs : enc (r :: recs) = encodeCommand r ++ enc recs.
Proof. reflexivity. Qed.

Lemma complete_fits recs k : (length (enc (take (complete recs k) recs)) <= k)%nat.
Proof.
  revert k. induction recs as [|r recs IH]; intros k; [simpl; lia|].
  cbn [complete]. case_decide; [|simpl; lia]. cbn [take]. rewrite enc_cons, length_app.
  specialize (IH (k - length (encodeCommand r))%nat). lia.
Qed.

(** Every record that fits is counted. *)
Lemma complete_max recs k n :
  (length (enc (take n recs)) <= k)%nat -> (n <= length recs)%nat -> (n <= complete recs k)%nat.
Proof.
  revert k n. induction recs as [|r recs IH]; intros k n Hk Hn; [simpl in *; lia|].
  destruct n as [|n]; [lia|]. cbn [take] in Hk. rewrite enc_cons, length_app in Hk.
  cbn [complete]. rewrite decide_True by lia.
  apply le_n_S, IH; [lia|simpl in Hn; lia].
Qed.

Lemma complete_all recs : complete recs (length (enc recs)) = length recs.
Proof.
  induction recs as [|r recs IH]; [done|]. rewrite enc_cons, length_app. cbn [complete length].
  rewrite decide_True by lia. f_equal. rewrite <- IH. f_equal. lia.
Qed.

Lemma complete_le recs k k' : (k <= k')%nat -> (complete recs k <= complete recs k')%nat.
Proof.
  intros Hk. revert k k' Hk. induction recs as [|r recs IH]; intros k k' Hk; [done|].
  cbn [complete]. repeat case_decide; try lia. apply le_n_S, IH. lia.
Qed.

Lemma complete_app_le recs more k : (complete recs k <= complete (recs ++ more) k)%nat.
Proof.
  revert k. induction recs as [|r recs IH]; intros k; [simpl; lia|].
  cbn [app complete]. case_decide; [|lia]. apply le_n_S, IH.
Qed.

Lemma take_enc_complete recs k :
  take k (enc recs) = enc (take (complete recs k) recs)
    ++ take (k - length (enc (take (complete recs k) recs))) (enc (drop (complete recs k) recs)).
Proof.
  rewrite <- (take_drop (complete recs k) recs) at 1. rewrite enc_app, take_app.
  f_equal. apply take_ge, complete_fits.
Qed.

Section Recover.
Context {S : Type} (apply : list bytes -> S -> S * option error).

(** Applying records that are all accepted. *)
Fixpoint applyAll (recs : list (list bytes)) (s : S) : option S :=
  match recs with
  | [] => Some s
  | r :: rest => let '(s', e) := apply r s in
                 match e with None => applyAll rest s' | Some _ => None end
  end.

(** The loop on a log cut after [k] bytes. *)
Lemma replayLoop_cut fuel recs k res s s' :
  Forall sendable recs -> (k <= length (enc recs))%nat -> (k < fuel)%nat ->
  applyAll (take (complete recs k) recs) s = Some s' ->
  replayLoop apply fuel (mkFlat (take k (enc recs)) EOF) res s =
  (s', mkResult (Commands res + Z.of_nat (complete recs k))
         (Bytes res + lenZ (enc (take (complete recs k) recs))) (Truncated res),
   if decide (k = length (enc (take (complete recs k) recs))) then EndOfLog else TornTail).
Proof.
  revert fuel k res s. induction recs as [|r recs IH]; intros fuel k res s Hs Hk Hf Ha.
  { simpl in *. assert (k = 0%nat) as -> by lia. destruct fuel as [|fu]; [lia|]. simplify_eq.
    simpl. rewrite !Z.add_0_r. by destruct res. }
  apply Forall_cons in Hs as [Hr Hs]. destruct fuel as [|fu]; [lia|].
  pose proof (encodeCommand_nonempty r) as Hne. rewrite enc_cons, length_app in Hk.
  rewrite enc_cons. cbn [complete] in *.
  case_decide as Hfit.
  - cbn [take] in *. rewrite enc_cons, length_app. rewrite take_app_ge by lia.
    cbn [replayLoop]. rewrite ReadCommand_encode by done.
    pose proof (sendable_len r Hr) as [_ Hpos]. rewrite (proj2 (Z.eqb_neq _ _)) by lia.
    cbn [applyAll] in Ha. destruct (apply r s) as [s1 [e|]]; [done|].
    rewrite (IH fu (k - length (encodeCommand r))%nat _ s1); [|done|lia|lia|done].
    f_equal; [|do 2 case_decide; lia || done].
    f_equal. cbn [Commands Bytes Truncated]. rewrite EncodedLen_exact, lenZ_app. f_equal; lia.
  - simpl in Ha. simplify_eq. cbn [replayLoop]. rewrite take_app_le by lia.
    rewrite ReadCommand_cut by (done || lia). unfold cut_error.
    change (enc (take 0 (r :: recs))) with (@nil byte).
    change (lenZ (@nil byte)) with 0. change (Z.of_nat 0) with 0. rewrite !Z.add_0_r.
    replace (mkResult (Commands res) (Bytes res) (Truncated res)) with res by (by destruct res).
    destruct k as [|k]; [reflexivity|].
    rewrite decide_False; [by rewrite decide_False|].
    destruct (encodeCommand r); [simpl in Hne; lia|done].
Qed.

(** The loop when the callback refuses one of them: it stops there. *)
Lemma replayLoop_refused fuel recs k res s :
  Forall sendable recs -> (k <= length (enc recs))%nat -> (k < fuel)%nat ->
  applyAll (take (complete recs k) recs) s = None ->
  exists i r s1 s2 res' err,
    (i < complete recs k)%nat /\ recs !! i = Some r /\ applyAll (take i recs) s = Some s1 /\
    apply r s1 = (s2, Some err) /\ Commands res' = Commands res + Z.of_nat i /\
    replayLoop apply fuel (mkFlat (take k (enc recs)) EOF) res s = (s2, res', Refused (ErrCorrupt err)).
Proof.
  revert fuel k res s. induction recs as [|r recs IH]; intros fuel k res s Hs Hk Hf Ha; [done|].
  apply Forall_cons in Hs as [Hr Hs]. destruct fuel as [|fu]; [lia|].
  rewrite enc_cons, length_app in Hk. rewrite enc_cons. cbn [complete] in *.
  case_decide as Hfit; [|done]. cbn [take applyAll] in Ha. rewrite take_app_ge by lia.
  cbn [replayLoop]. rewrite ReadCommand_encode by done.
  pose proof (sendable_len r Hr) as [_ Hpos]. rewrite (proj2 (Z.eqb_neq _ _)) by lia.
  destruct (apply r s) as [s1 [e|]] eqn:Hap.
  { exists 0%nat, r, s, s1, res, e. split_and!; [lia|done|done|done|lia|done]. }
  destruct (IH fu (k - length (encodeCommand r))%nat
    (mkResult (Commands res + 1) (Bytes res + EncodedLen r) (Truncated res)) s1)
    as (i & r' & s2 & s3 & res' & err & Hi & Hl & Hal & Har & Hc & Hloop); [done|lia| |done|].
  { pose proof (encodeCommand_nonempty r). lia. }
  exists (Datatypes.S i), r', s2, s3, res', err. cbn [take applyAll]. rewrite Hap.
  split_and!; try done; [lia|]. rewrite Hc. cbn [Commands]. lia.
Qed.
End Recover.

(** ** Every command takes bytes off the stream *)

Definition shrinks {A} (m : GoM flat A) : Prop :=
  forall r, (length (fbytes (m r).1) <= length (fbytes r))%nat.

Lemma shrinks_bind {A B} (m : GoM flat A) (f : A -> GoM flat B) :
  shrinks m -> (forall a, shrinks (f a)) -> shrinks (m ≫= f).
Proof.
  intros Hm Hf r. specialize (Hm r). unfold mbind, GoM_bind.
  destruct (m r) as [r' [a|e|w]]; simpl in *; [|lia|lia]. specialize (Hf a r'). lia.
Qed.

Lemma shrinks_ret {A} (a : A) : shrinks (mret a).
Proof. by intros r. Qed.

Lemma shrinks_throw {A} e : shrinks (throw (A := A) e).
Proof. by intros r. Qed.

Lemma shrinks_panic {A} w : shrinks (panic (A := A) w).
Proof. by intros r. Qed.

Lemma shrinks_promoting {A} (m : GoM flat A) : shrinks m -> shrinks (promoting m).
Proof.
  intros Hm r. specialize (Hm r). unfold promoting. by destruct (m r) as [r' []].
Qed.

(** A line that is found is taken off. *)
Lemma readLine_shrinks r :
  (length (fbytes (readLine r).1) <= length (fbytes r))%nat /\
  forall l, (readLine r).2 = Ret l -> (length (fbytes (readLine r).1) < length (fbytes r))%nat.
Proof.
  unfold readLine, ReadSlice, flat_BufReader, flat_ReadSlice.
  destruct (index_byte LF (take readerBufSize (fbytes r))) as [i|] eqn:Hi.
  - assert (length (fbytes r) <> 0)%nat as Hne.
    { intros Hz. apply nil_length_inv in Hz. rewrite Hz in Hi. by rewrite take_nil in Hi. }
    repeat (case_match; simplify_eq; simpl); rewrite ?length_drop; split; try done; lia.
  - repeat (case_decide; simpl; simplify_eq); rewrite ?length_drop; split; done || lia.
Qed.

Lemma shrinks_readLine : shrinks readLine.
Proof. intros r. apply readLine_shrinks. Qed.

Lemma shrinks_readFull n : shrinks (readFull n).
Proof.
  intros r. unfold readFull, ReadFull, flat_BufReader, flat_ReadFull.
  case_decide; simpl; rewrite ?length_drop; lia.
Qed.

Create HintDb shrink.
#[local] Hint Resolve shrinks_bind shrinks_ret shrinks_throw shrinks_panic shrinks_promoting
  shrinks_readLine shrinks_readFull : shrink.

Lemma shrinks_readBulkString : shrinks readBulkString.
Proof.
  apply shrinks_bind; [auto with shrink|]. intros line. repeat (case_match; auto with shrink).
  apply shrinks_bind; [auto with shrink|]. intros buf. repeat (case_match; auto with shrink).
Qed.

Lemma shrinks_readArgs k : shrinks (readArgs k).
Proof.
  induction k as [|k IH]; cbn [readArgs]; [auto with shrink|].
  apply shrinks_bind; [apply shrinks_readBulkString|]. auto with shrink.
Qed.

Lemma ReadCommand_shrinks r args :
  (ReadCommand r).2 = Ret args -> (length (fbytes (ReadCommand r).1) < length (fbytes r))%nat.
Proof.
  unfold ReadCommand, mbind, GoM_bind. pose proof (readLine_shrinks r) as [_ Hl].
  destruct (readLine r) as [r' [line|e|w]]; [|done|done]. specialize (Hl line eq_refl).
  simpl in Hl. destruct line as [|c rest]; [done|].
  repeat case_match; intros; simplify_eq; simpl; try done.
  match goal with |- context [readArgs ?k r'] => pose proof (shrinks_readArgs k r') end. lia.
Qed.

(** The loop ends by itself on every stream. *)
Lemma replayLoop_total {S} (apply : list bytes -> S -> S * option error) fuel f res s :
  (length (fbytes f) < fuel)%nat ->
  (replayLoop apply fuel f res s).2 <> OutOfFuel /\ (replayLoop apply fuel f res s).2 <> Panicked.
Proof.
  revert f res s. induction fuel as [|fu IH]; intros f res s Hf; [lia|].
  cbn [replayLoop]. pose proof (ReadCommand_shrinks f) as Hsh. pose proof (post_ReadCommand f) as Hp.
  destruct (ReadCommand f) as [f' [args|e|w]]; simpl in Hsh, Hp; [|by destruct e|done].
  specialize (Hsh args eq_refl).
  destruct (lenZ args =? 0); [apply IH; lia|].
  destruct (apply args s) as [s' [e|]]; [done|]. apply IH. lia.
Qed.

(** ** Recovery *)

(** A disk whose calls all succeed. *)
Definition calm (o : OS) : Prop := faults o = [].

Lemma sys_call_calm o : calm o -> sys_call o = (o, None).
Proof. unfold calm, sys_call, nextFault. by intros ->. Qed.

Lemma truncate_calm n o :
  calm o -> valid (linked o) o ->
  content (disk (truncate n o).1) = take (Z.to_nat n) (content (disk o)) /\
  (truncate n o).2 = None /\ calm (truncate n o).1 /\
  valid (linked (truncate n o).1) (truncate n o).1 /\
  (synced (disk (truncate n o).1) <= length (content (disk (truncate n o).1)))%nat.
Proof.
  intros Hc Hv. unfold truncate, nextFault. rewrite Hc. cbn [fst snd].
  set (fl := mkFile _ _).
  assert (disk (setFile (linked o) fl o) = fl) as ->.
  { unfold disk. cbn [setFile linked]. rewrite fileAt_setFile by done. by rewrite decide_True. }
  split_and!; try done.
  - unfold valid, setFile in *. simpl. by rewrite length_insert.
  - unfold fl. cbn [content synced]. lia.
Qed.

(** How a healthy disk is read: all its bytes, in fragments. *)
Definition reads (src : source) (o : OS) : Prop :=
  Forall (fun c => c <> []) (chunks src) /\ send src = EOF /\
  concat (chunks src) = content (disk o).

Section Theorems.
Context {S : Type} (apply : list bytes -> S -> S * option error).

Lemma Replay_cut recs k src o s s' :
  Forall sendable recs -> (k <= length (enc recs))%nat ->
  calm o -> valid (linked o) o -> (synced (disk o) <= length (content (disk o)))%nat ->
  content (disk o) = take k (enc recs) -> reads src o ->
  let n := complete recs k in
  applyAll apply (take n recs) s = Some s' ->
  exists o',
    Replay apply src o s =
      (o', s', mkResult (Z.of_nat n) (lenZ (enc (take n recs)))
                 (Z.of_nat k - lenZ (enc (take n recs))), None) /\
    clean o' (take n recs) /\ calm o'.
Proof.
  intros Hs Hk Hcalm Hv Hsy Hc (Hne & Hend & Hall) n Ha.
  assert (length (content (disk o)) = k) as Hlen by (rewrite Hc, length_take; lia).
  unfold Replay. rewrite sys_call_calm by done.
  rewrite (replayLoop_flat _ _ _ _ _ _ (rel_new readerBufSize src Hne)).
  rewrite Hend, Hall, Hc.
  rewrite (replayLoop_cut apply _ recs k _ s s') by (done || (rewrite length_take; lia)).
  cbn [Commands Bytes Truncated]. rewrite !Z.add_0_l. fold n.
  pose proof (take_enc_complete recs k) as Hcut. fold n in Hcut.
  case_decide as Hd.
  - rewrite sys_call_calm by done. cbn [fst]. exists o. split_and!; try done.
    + do 2 f_equal. unfold lenZ. f_equal. lia.
    + split_and!; try done. rewrite Hc, Hcut, <- Hd, Nat.sub_diag. by rewrite app_nil_r.
  - rewrite !sys_call_calm by done.
    destruct (truncate_calm (lenZ (enc (take n recs))) o Hcalm Hv) as (T1 & T2 & T3 & T4 & T5).
    destruct (truncate _ o) as [o4 e4]. cbn [fst snd] in *. subst e4.
    rewrite sys_call_calm by done. exists o4. cbn [fst fmap option_fmap option_map].
    split_and!; try done.
    + do 3 f_equal. unfold lenZ at 1. by rewrite Hlen.
    + split_and!; try done. rewrite T1, Hc, Hcut. unfold lenZ. rewrite Nat2Z.id.
      by rewrite take_app_length.
Qed.

(** A log with a record that the callback refuses. *)
Lemma Replay_refused recs k src o s :
  Forall sendable recs -> (k <= length (enc recs))%nat -> calm o ->
  content (disk o) = take k (enc recs) -> reads src o ->
  let n := complete recs k in
  applyAll apply (take n recs) s = None ->
  exists i r s1 s2 o' res err,
    (i < n)%nat /\ recs !! i = Some r /\ applyAll apply (take i recs) s = Some s1 /\
    apply r s1 = (s2, Some err) /\ Commands res = Z.of_nat i /\
    Replay apply src o s = (o', s2, res, Some (ErrCorrupt err)) /\ disk o' = disk o.
Proof.
  intros Hs Hk Hcalm Hc (Hne & Hend & Hall) n Ha.
  assert (length (content (disk o)) = k) as Hlen by (rewrite Hc, length_take; lia).
  unfold Replay. rewrite sys_call_calm by done.
  rewrite (replayLoop_flat _ _ _ _ _ _ (rel_new readerBufSize src Hne)). rewrite Hend, Hall, Hc.
  destruct (replayLoop_refused apply (Datatypes.S (length (take k (enc recs)))) recs k (mkResult 0 0 0) s Hs Hk)
    as (i & r & s1 & s2 & res & err & H1 & H2 & H3 & H4 & H5 & ->); [rewrite length_take; lia|done|].
  rewrite sys_call_calm by done. by exists i, r, s1, s2, o, res, err.
Qed.

(** A torn log is recovered up to its last complete record: for a log cut after
    any number of bytes, however the reads are fragmented, [Replay] applies exactly
    the records that are complete, in order, reports their number and size and the
    bytes it dropped, and truncates the file to a whole number of records, so that
    the next record is appended at a record boundary. *)
Theorem Replay_recovers_prefix (recs : list (list bytes)) (k : nat) (src : source) (o : OS) (s s' : S) :
  Forall sendable recs -> (k <= length (enc recs))%nat ->
  calm o -> valid (linked o) o -> (synced (disk o) <= length (content (disk o)))%nat ->
  content (disk o) = take k (enc recs) -> reads src o ->
  let n := complete recs k in
  applyAll apply (take n recs) s = Some s' ->
  exists o',
    Replay apply src o s =
      (o', s', mkResult (Z.of_nat n) (lenZ (enc (take n recs)))
                 (Z.of_nat k - lenZ (enc (take n recs))), None) /\
    clean o' (take n recs) /\ calm o'.
Proof. apply Replay_cut. Qed.

(** The disk after a crash that kept [cut] bytes of the log, all of them on stable
    storage when the machine is up again. *)
Definition crashed (cut : nat) (o : OS) : OS :=
  mkOS [mkFile (take cut (content (disk o))) (length (take cut (content (disk o))))] 0 [].

(** It is a prefix of what the log should hold, with all that was synced. *)
Lemma crashed_prefix st g cut :
  log_ok st g -> (synced (disk st.1) <= cut)%nat ->
  exists k, (synced (disk st.1) <= k <= length (enc (recs g)))%nat /\
    content (disk (crashed cut st.1)) = take k (enc (recs g)).
Proof.
  intros Hok Hcut. pose proof (ok_synced _ _ Hok) as Hs. destruct (ok_prefix _ _ Hok) as [rest Hp].
  exists (Nat.min cut (length (content (disk st.1)))).
  rewrite Hp, length_app. split; [lia|].
  change (content (disk (crashed cut st.1))) with (take cut (content (disk st.1))).
  rewrite take_app_le by lia. destruct (Nat.min_spec cut (length (content (disk st.1)))) as [[? ->]|[? ->]];
    [done|]. by rewrite firstn_all, take_ge.
Qed.

(** C9. Durability: open a log, let clients, the flush timer and rewrites do anything,
    let any system calls fail, and crash at any moment, keeping any amount of what
    was not synced.  Suppose that all records the log should hold are within the limits of
    the parser.  Then [Replay] reads exactly the records that are left complete, a prefix of
    those the log should hold with everything in it that the log has promised (what the
    last successful fsync or the last installed rewrite had, see C24).  If the callback
    accepts them all, they have been applied in order, [Replay] succeeds, and the log is
    left ready to be opened again; if it refuses one, [Replay] stops there with that error
    and leaves the file as it was. *)
Theorem crash_recovery (pol : Policy) (o0 o : OS) (l : Log) (base stable : list (list bytes))
    (st : logState) (g : ghost) (p : list (list bytes)) (cut : nat) (src : source) (s : S) :
  clean o0 base -> stable `prefix_of` base -> (length (enc stable) <= synced (disk o0))%nat ->
  Open pol o0 = (o, inl l) ->
  rtc (dstep true) ((o, l), mkGhost base [] None, stable) (st, g, p) ->
  Forall sendable (recs g) -> (synced (disk st.1) <= cut)%nat -> reads src (crashed cut st.1) ->
  let n := complete (recs g) (length (content (disk (crashed cut st.1)))) in
  p `prefix_of` take n (recs g) /\
  match applyAll apply (take n (recs g)) s with
  | Some s' => exists o' dropped,
      Replay apply src (crashed cut st.1) s =
        (o', s', mkResult (Z.of_nat n) (lenZ (enc (take n (recs g)))) dropped, None) /\
      clean o' (take n (recs g))
  | None => exists i r s1 s2 o' res err,
      (i < n)%nat /\ recs g !! i = Some r /\ applyAll apply (take i (recs g)) s = Some s1 /\
      apply r s1 = (s2, Some err) /\ Commands res = Z.of_nat i /\
      Replay apply src (crashed cut st.1) s = (o', s2, res, Some (ErrCorrupt err)) /\
      disk o' = disk (crashed cut st.1)
  end.
Proof.
  intros Hcl Hst Hstl Ho Hr Hs Hcut Hrd n.
  destruct (dsteps_promised true _ _ Hr) as [Hok Hp]; [by eapply Open_ok|by eapply Open_promised|].
  destruct (crashed_prefix st g cut Hok Hcut) as (k & Hk & Hc). cbn [fst snd] in *.
  assert (length (content (disk (crashed cut st.1))) = k) as Hlen by (rewrite Hc, length_take; lia).
  unfold n in *. clear n. rewrite Hlen. destruct Hp as [[w Hw] Hpl]. cbn [reach fst snd] in *. split.
  - assert (length p <= complete (recs g) k)%nat as Hn.
    { apply complete_max; rewrite Hw; [rewrite take_app_length|rewrite length_app]; lia. }
    rewrite Hw at 2. rewrite take_app_ge by done. by eexists.
  - destruct (applyAll apply (take (complete (recs g) k) (recs g)) s) as [s'|] eqn:Ha.
    + destruct (Replay_cut (recs g) k src (crashed cut st.1) s s') as (o' & Hrep & Hclean & _);
        try done; [lia|apply Nat.lt_0_1|]. by eexists _, _.
    + apply (Replay_refused (recs g) k); try done. lia.
Qed.

(** Replay terminates on every file: whatever the bytes, whatever the fragmentation
    and whatever the callback does, the loop reaches the end of the log, a torn tail
    or a refusal within one round per byte, and never panics. *)
Theorem Replay_total (src : source) (res : Result) (s : S) :
  Forall (fun c => c <> []) (chunks src) ->
  let fuel := Datatypes.S (length (concat (chunks src))) in
  match (replayLoop apply fuel (newBufio src) res s).2 with
  | EndOfLog | TornTail | Refused _ => True
  | Panicked | OutOfFuel => False
  end.
Proof.
  intros Hne fuel. rewrite (replayLoop_flat _ _ _ _ _ _ (rel_new readerBufSize src Hne)).
  destruct (replayLoop_total apply fuel (mkFlat (concat (chunks src)) (send src)) res s) as [H1 H2].
  - unfold fuel. simpl. lia.
  - by destruct (replayLoop _ _ _ _ _).2.
Qed.
End Theorems.

(** ** Recoveries *)

(** A callback that remembers what it was given. *)
Definition remember (args : list bytes) (s : list (list bytes)) : list (list bytes) * option error :=
  (s ++ [args], None).

Lemma remember_all recs s : applyAll remember recs s = Some (s ++ recs).
Proof.
  revert s. induction recs as [|r recs IH]; intros s; simpl; [by rewrite app_nil_r|].
  rewrite IH. by rewrite <- app_assoc.
Qed.

(** A file with the given bytes, read in one piece. *)
Definition disk_with (c : bytes) : OS := mkOS [mkFile c (length c)] 0 [].
Definition whole (c : bytes) : source := mkSource [c] EOF.

(** *** Reading back *)

(** What can be read back was written only one way. *)
Lemma enc_inj recs recs' :
  Forall sendable recs -> Forall sendable recs' -> enc recs = enc recs' -> recs = recs'.
Proof.
  intros H1 H2 He. set (c := enc recs) in *.
  set (src := mkSource (match c with [] => [] | _ => [c] end) EOF).
  assert (forall rs, Forall sendable rs -> c = enc rs -> exists o' res,
    Replay remember src (disk_with c) [] = (o', rs, res, None)) as Hread.
  { intros rs Hrs Hc.
    destruct (Replay_cut remember rs (length (enc rs)) src (disk_with c) [] rs) as (o' & H & _); try done.
    - apply Nat.lt_0_1.
    - by rewrite Hc, take_ge.
    - unfold reads, src. destruct c eqn:E; [split_and!; [constructor|done..]|].
      split_and!; [by repeat constructor|done|]. cbn. by rewrite app_nil_r.
    - by rewrite complete_all, firstn_all, remember_all.
    - by eexists _, _. }
  destruct (Hread recs H1 eq_refl) as (o1 & r1 & R1). destruct (Hread recs' H2 He) as (o2 & r2 & R2).
  rewrite R1 in R2. by injection R2.
Qed.

Lemma encode_bulks_length args :
  (length args <= length (concat (encode_bulk <$> args)))%nat /\
  Forall (fun a => length a <= length (concat (encode_bulk <$> args)))%nat args.
Proof.
  induction args as [|a args [H1 H2]]; [by split; [|constructor]|].
  assert (length (concat (encode_bulk <$> a :: args)) =
    length (encode_bulk a) + length (concat (encode_bulk <$> args)))%nat as -> by (by rewrite <- length_app).
  assert (1 + length a <= length (encode_bulk a))%nat as Ha.
  { unfold encode_bulk, countLine. rewrite !length_app. cbn [length]. lia. }
  cbn [length]. split; [lia|]. constructor; [lia|]. eapply Forall_impl; [exact H2|]. intros b Hb.
  cbn beta in *. lia.
Qed.

(** What fits in a small file is within the limits of the reader. *)
Lemma small_sendable recs :
  Forall (fun r => r <> []) recs -> lenZ (enc recs) <= MaxArrayLength -> Forall sendable recs.
Proof.
  intros Hne. induction Hne as [|r recs Hr _ IH]; [constructor|]. rewrite enc_cons. unfold lenZ in *.
  rewrite length_app. intros Hl. constructor; [|apply IH; lia]. split; [done|].
  destruct (encode_bulks_length r) as [H1 H2]. unfold encodeCommand in Hl. rewrite length_app in Hl.
  split; [unfold lenZ; lia|]. eapply Forall_impl; [exact H2|]. intros a Ha.
  unfold bulk_ok, lenZ, MaxBulkLength, MaxArrayLength in *. lia.
Qed.

Lemma Replay_recovers_prefix_witness :
  exists o',
    Replay remember (whole (enc [rec_a] ++ bs "*2")) (disk_with (enc [rec_a] ++ bs "*2")) [] =
      (o', [rec_a], mkResult 1 27 2, None) /\ content (disk o') = enc [rec_a].
Proof.
  destruct (Replay_recovers_prefix remember [rec_a; rec_b] 29 (whole (enc [rec_a] ++ bs "*2"))
              (disk_with (enc [rec_a] ++ bs "*2")) [] [rec_a]) as (o' & H & Hc & _).
  - repeat constructor; done.
  - apply Nat.leb_le. vm_compute. reflexivity.
  - reflexivity.
  - apply Nat.lt_0_1.
  - apply Nat.leb_le. vm_compute. reflexivity.
  - vm_compute. reflexivity.
  - split; [repeat constructor; done|done].
  - vm_compute. reflexivity.
  - exists o'. split; [exact H|apply Hc].
Defined.

(** The log on a full disk of AofInv.v, after a crash. *)
(** A record is on stable storage and another one in the buffer. *)
Lemma crash_recovery_witness :
  exists o' dropped,
    Replay remember (whole (enc [rec_a])) (crashed 27 (AofLog.Append rec_b synced_a).1.1) [] =
      (o', [rec_a], mkResult 1 (lenZ (enc [rec_a])) dropped, None).
Proof.
  destruct (crash_recovery remember PolicyAlways healthy.1 healthy.1 healthy.2 [] []
    (AofLog.Append rec_b synced_a).1 (mkGhost [rec_a; rec_b] [rec_a; rec_b] None) [rec_a] 27
    (whole (enc [rec_a])) []) as [_ H].
  - split_and!; vm_compute; first [lia|reflexivity].
  - reflexivity.
  - apply Nat.leb_le. vm_compute. reflexivity.
  - reflexivity.
  - eapply rtc_r; [exact synced_a_run|].
    apply (D_step true synced_a (mkGhost [rec_a] [rec_a] None)); [|vm_compute; reflexivity].
    apply (L_append rec_b synced_a (mkGhost [rec_a] [rec_a] None) _ (AofLog.Append rec_b synced_a).2), surjective_pairing.
  - repeat constructor; done.
  - apply Nat.leb_le. vm_compute. reflexivity.
  - split; [repeat constructor; done|]. split; [done|]. vm_compute. reflexivity.
  - cbn [recs] in H. rewrite remember_all in H.
    assert (complete [rec_a; rec_b] (length (content (disk (crashed 27 (AofLog.Append rec_b synced_a).1.1)))) = 1%nat)
      as Hn by (vm_compute; reflexivity).
    rewrite Hn in H. destruct H as (o' & d & H & _). exists o', d. exact H.
Defined.

Lemma Replay_total_witness :
  match (replayLoop remember 6 (newBufio (mkSource [bs "*x"; crlf; bs "$"] EOF))
           (mkResult 0 0 0) []).2 with
  | EndOfLog | TornTail | Refused _ => True
  | Panicked | OutOfFuel => False
  end.
Proof.
  apply (Replay_total remember (mkSource [bs "*x"; crlf; bs "$"] EOF)).
  repeat constructor; done.
Defined.

(** ** What replay takes for a torn tail *)

(** Two records in the middle of a log, the length of the first one damaged from 1
    to 91. *)
Definition damaged_length : bytes :=
  enc [rec_a] ++ bs "*2" ++ crlf ++ bs "$3" ++ crlf ++ bs "DEL" ++ crlf
  ++ bs "$91" ++ crlf ++ bs "b" ++ crlf ++ enc [rec_a; rec_a].

(** Damage in the middle of the log can pass for a torn tail: a bulk length
    that was changed to reach beyond the end of the file makes [Replay] report
    success, drop the record and every intact record after it, and truncate the file
    there; the documented answer to corruption before the end is [ErrCorrupt]. *)
Theorem Replay_swallows_damage :
  let '(o', s', res, err) := Replay remember (whole damaged_length) (disk_with damaged_length) [] in
  err = None /\ s' = [rec_a] /\ content (disk o') = enc [rec_a] /\
  Truncated res = lenZ damaged_length - lenZ (enc [rec_a]).
Proof. vm_compute. split_and!; reflexivity. Qed.

(** A log that starts with an empty command and ends in the middle of one. *)
Definition empty_command : bytes := bs "*0" ++ crlf ++ enc [rec_a] ++ bs "*2" ++ crlf.

(** An empty command shifts the truncation point: [*0] is accepted and skipped but
    its four bytes are not counted, so on a log that contains one the torn tail is
    cut four bytes early, inside the last complete record, which the next replay
    loses. *)
Theorem Replay_truncates_early :
  let '(o', s', res, err) := Replay remember (whole empty_command) (disk_with empty_command) [] in
  err = None /\ s' = [rec_a] /\
  let '(_, s2, _, err2) := Replay remember (whole (content (disk o'))) o' [] in
  err2 = None /\ s2 = [].
Proof. vm_compute. split_and!; reflexivity. Qed.
