(* ===== verification/Commands.v ===== *)
(** * internal/server: commands.go and the command loop of server.go

    A handler works on the server's state and the connection's writer; it is a
    computation of the monad [GoM] over the pair, so an error of the writer or a
    panic stops it where it stops the Go code.  The writer is any [io.Writer]:
    clients have a [bufio.Writer] on a socket, [applyLogged] uses a
    [bytes.Buffer].

    - [env] holds what a command reads from the outside: the readings of the clock,
      numbered in the order they are taken, and the order of the map ranges of
      eviction.
    - The server's [aof] field and the store's journal are the same log; it is kept
      once, in the store.
    - The goroutine that BGREWRITEAOF starts is the subject of Rewrite.  Loggers are left
      out. *)

From stdpp Require Import base gmap list strings.
From Stdlib Require Import ZArith Lia.
From Stdlib Require Import Strings.Byte.
From S2P Require Import Prelude.
From S2P Require Import GoStrconv.
From S2P Require Import GoPath.
From S2P Require Import RespWriter.
From S2P Require Import Bufio.
From S2P Require Import RespReader.
From S2P Require Import GoTime.
From S2P Require Import Shard.
From S2P Require Import Store.
From S2P Require Import Evict.
From S2P Require Import AofLog.

#[local] Open Scope Z_scope.

(** ** State *)

Record Config : Type := mkConfig {
  AppendOnly : bool;
  AppendFsync : bytes;
  AppendFilename : bytes;
  Dir : bytes
}.

Record Server : Type := mkServer {
  store : Store logState;
  config : Config;
  connections : Z;
  commandCalls : Z
}.

(** [server.New] *)
Definition NewServer : Server := mkServer New (mkConfig false [] [] []) 0 0.

Definition setStore (st : Store logState) (s : Server) : Server :=
  mkServer st (config s) (connections s) (commandCalls s).

Definition Configure (c : Config) (s : Server) : Server :=
  mkServer (store s) c (connections s) (commandCalls s).

Definition aof (s : Server) : option logState := journal (store s).

Definition AttachAOF (l : logState) (s : Server) : Server := setStore (SetJournal l (store s)) s.

Record Env : Type := mkEnv {
  Now : nat -> Time;
  poolRange : Store logState -> nat -> list bytes
}.

(** The parts of the standard library that are left open: Unicode case mapping of
    strings that are not ASCII and white space in them, and the text of an error. *)
Record Lib : Type := mkLib {
  unicodeToUpper : bytes -> bytes;
  unicodeToLower : bytes -> bytes;
  unicodeEqualFold : bytes -> bytes -> bool;
  unicodeTrimSpace : bytes -> bytes;
  errorText : error -> bytes
}.

Section Text.
Context (lib : Lib).

Definition ToUpper (s : bytes) : bytes :=
  if is_ascii s then upper_byte <$> s else unicodeToUpper lib s.

(** [strings.EqualFold] *)
Definition EqualFold (s t : bytes) : bool :=
  if is_ascii s && is_ascii t then bool_decide ((lower_byte <$> s) = (lower_byte <$> t))
  else unicodeEqualFold lib s t.
End Text.

(** server.go, [safeName] *)
Definition safeNameMax : nat := 128.

Definition safeByte (c : byte) : byte :=
  if (32 <=? byteZ c) && (byteZ c <? 127) && negb (byteZ c =? 39) then c else Byte.x2e.

Definition safeName (name : bytes) : bytes :=
  if decide (safeNameMax < length name)%nat
  then (safeByte <$> take safeNameMax name) ++ bs "..."
  else safeByte <$> name.

(** ** Options and durations *)

Record expiryOption : Type := mkOption { unit_ : Duration; absolute : bool }.

Definition expiryOptions : list (bytes * expiryOption) :=
  [(bs "EX", mkOption Second false); (bs "PX", mkOption Millisecond false);
   (bs "EXAT", mkOption Second true); (bs "PXAT", mkOption Millisecond true)].

(** A Go map with constant keys. *)
Definition assoc {A} (k : bytes) (l : list (bytes * A)) : option A :=
  snd <$> List.find (fun p => bool_decide (p.1 = k)) l.

(** [parseTTL]; Go's division truncates. *)
Definition parseTTL (arg : bytes) (unit : Duration) : option Duration :=
  match ParseInt arg with
  | inr _ => None
  | inl n =>
      if (Z.quot maxInt64 unit <? n) || (n <? Z.quot minInt64 unit) then None
      else Some (wrap64 (n * unit))
  end.

Definition epochPlus (d : Duration) : Time := Time_Add (ofUnixMilli 0) d.

Definition errSyntax : bytes := bs "ERR syntax error".
Definition errNotInteger : bytes := bs "ERR value is not an integer or out of range".

(** [keys] *)
Definition keys (args : list bytes) : list bytes := args.

(** The pairs of MSET, for an even number of arguments. *)
Fixpoint pairsOf (args : list bytes) : list Pair :=
  match args with
  | k :: v :: rest => mkPair k v :: pairsOf rest
  | _ => []
  end.

(** ** Handlers *)

Section Handlers.
Context {W : Type} `{!IOWriter W} (lib : Lib) (env : Env).

Abbreviation handler := (GoM (Server * W) unit).

(** Writing to the connection. *)
Definition reply (m : GoM W unit) : handler := fun '(s, w) =>
  let '(w', r) := m w in ((s, w'), r).

(** Calling the store. *)
Definition stored {A} (f : Store logState -> Store logState * A) : GoM (Server * W) A := fun '(s, w) =>
  let '(st, a) := f (store s) in ((setStore st s, w), Ret a).

Definition observe {A} (f : Server -> A) : GoM (Server * W) A := fun '(s, w) => ((s, w), Ret (f s)).

(** [args[i]]; out of range it panics. *)
Definition arg (i : nat) (args : list bytes) : GoM (Server * W) bytes :=
  match args !! i with
  | Some a => mret a
  | None => panic (bs "index out of range")
  end.

Definition wrongArity (name : bytes) : handler :=
  reply (WriteError (bs "ERR wrong number of arguments for '"
                     ++ ToLower (unicodeToLower lib) (safeName name) ++ bs "' command")).

Definition ping (args : list bytes) : handler :=
  if lenZ args =? 1 then a ← arg 0 args; reply (WriteBulkString a)
  else reply (WriteSimpleString (bs "PONG")).

Definition echo (args : list bytes) : handler := a ← arg 0 args; reply (WriteBulkString a).

Definition set (args : list bytes) : handler :=
  key ← arg 0 args;
  v ← arg 1 args;
  if lenZ args =? 2 then
    _ ← stored (fun st => (Set_ key v st, tt));
    reply (WriteSimpleString (bs "OK"))
  else if lenZ args =? 4 then
    o ← arg 2 args;
    match assoc (ToUpper lib o) expiryOptions with
    | None => reply (WriteError errSyntax)
    | Some opt =>
        a ← arg 3 args;
        match parseTTL a (unit_ opt) with
        | None => reply (WriteError errNotInteger)
        | Some n =>
            if n <=? 0 then reply (WriteError (bs "ERR invalid expire time in 'set' command"))
            else
              _ ← stored (fun st =>
                    if absolute opt
                    then (SetWithDeadline (Now env 0) (Now env 1) key v (epochPlus n) st, tt)
                    else (SetWithTTL (Now env 0) key v n st, tt));
              reply (WriteSimpleString (bs "OK"))
        end
    end
  else reply (WriteError errSyntax).

Definition get (args : list bytes) : handler :=
  key ← arg 0 args;
  r ← stored (Get (Now env 0) (Now env 1) key);
  match r with
  | None => reply WriteNullBulkString
  | Some v => reply (WriteBulkString v)
  end.

(** The loop of MGET; the clock readings go on from [i]. *)
Fixpoint mgetKeys (i : nat) (args : list bytes) : handler :=
  match args with
  | [] => mret tt
  | key :: rest =>
      r ← stored (Get (Now env i) (Now env (S i)) key);
      match r with
      | None => reply WriteNullBulkString
      | Some v => reply (WriteBulkString v)
      end;;
      mgetKeys (S (S i)) rest
  end.

Definition mget (args : list bytes) : handler :=
  reply (WriteArrayHeader (lenZ args));; mgetKeys 0 args.

Definition mset (args : list bytes) : handler :=
  if negb (lenZ args mod 2 =? 0) then wrongArity (bs "MSET")
  else
    _ ← stored (fun st => (MSet (pairsOf args) st, tt));
    reply (WriteSimpleString (bs "OK")).

Definition increment (key : bytes) (delta : Z) : handler :=
  r ← stored (Increment (Now env 0) key delta);
  match r with
  | inr _ => reply (WriteError errNotInteger)
  | inl n => reply (WriteInteger n)
  end.

Definition incr (args : list bytes) : handler := key ← arg 0 args; increment key 1.
Definition decr (args : list bytes) : handler := key ← arg 0 args; increment key (-1).

Definition append (args : list bytes) : handler :=
  key ← arg 0 args;
  v ← arg 1 args;
  n ← stored (Store.Append (Now env 0) key v);
  reply (WriteInteger n).

Definition strlen (args : list bytes) : handler :=
  key ← arg 0 args;
  r ← stored (Get (Now env 0) (Now env 1) key);
  match r with
  | None => reply (WriteInteger 0)
  | Some v => reply (WriteInteger (lenZ v))
  end.

Definition del (args : list bytes) : handler :=
  n ← stored (Del (Now env 0) (keys args));
  reply (WriteInteger n).

Definition exists_ (args : list bytes) : handler :=
  n ← observe (fun s => Exists (Now env 0) (keys args) (store s));
  reply (WriteInteger n).

Definition dbsize (args : list bytes) : handler :=
  n ← observe (fun s => DBSize (Now env 0) (store s));
  reply (WriteInteger n).

Definition line (name : bytes) (v : bytes) : bytes := name ++ bs ":" ++ v ++ crlf.

(** The sections of INFO, in the order they are written. *)
Definition infoSections (s : Server) : list (bytes * bytes) :=
  let st := stats (store s) in
  [(bs "memory", bs "# Memory" ++ crlf ++ line (bs "used_memory") (FormatInt (Used (store s)))
      ++ line (bs "maxmemory") (FormatInt (MaxMemory (store s)))
      ++ line (bs "maxmemory_policy") (Evict.Policy (store s)));
   (bs "stats", bs "# Stats" ++ crlf ++ line (bs "keyspace_hits") (FormatInt (KeyspaceHits st))
      ++ line (bs "keyspace_misses") (FormatInt (KeyspaceMisses st))
      ++ line (bs "evicted_keys") (FormatInt (EvictedKeys st))
      ++ line (bs "expired_keys") (FormatInt (ExpiredKeys st)));
   (bs "clients", bs "# Clients" ++ crlf ++ line (bs "connected_clients") (FormatInt (connections s)));
   (bs "stats", line (bs "total_commands_processed") (FormatInt (commandCalls s)));
   (bs "persistence", bs "# Persistence" ++ crlf
      ++ line (bs "aof_enabled") (FormatInt (match aof s with Some _ => 1 | None => 0 end)));
   (bs "keyspace", bs "# Keyspace" ++ crlf ++ bs "db0:keys=" ++ FormatInt (DBSize (Now env 0) (store s))
      ++ crlf)].

Definition info (args : list bytes) : handler :=
  sec ← (if lenZ args =? 1 then a ← arg 0 args; mret (ToLower (unicodeToLower lib) a)
         else mret (bs "all"));
  out ← observe (fun s => concat ((fun p =>
           if bool_decide (sec = bs "all") || bool_decide (sec = p.1) then p.2 else [])
           <$> infoSections s));
  reply (WriteBulkString out).

(** The settings of CONFIG GET. *)
Definition settings (s : Server) : list (bytes * bytes) :=
  [(bs "maxmemory", FormatInt (MaxMemory (store s)));
   (bs "maxmemory-policy", Evict.Policy (store s));
   (bs "appendonly", if AppendOnly (config s) then bs "yes" else bs "no");
   (bs "appendfsync", AppendFsync (config s));
   (bs "appendfilename", AppendFilename (config s));
   (bs "dir", Dir (config s))].

(** The settings that match, [None] for a bad pattern. *)
Fixpoint matchSettings (pattern : bytes) (l : list (bytes * bytes)) : option (list (bytes * bytes)) :=
  match l with
  | [] => Some []
  | p :: rest =>
      ok ← Match pattern p.1;
      matched ← matchSettings pattern rest;
      Some (if ok : bool then p :: matched else matched)
  end.

Fixpoint writeSettings (l : list (bytes * bytes)) : handler :=
  match l with
  | [] => mret tt
  | p :: rest => reply (WriteBulkString p.1);; reply (WriteBulkString p.2);; writeSettings rest
  end.

Definition configGet (args : list bytes) : handler :=
  sub ← arg 0 args;
  if negb (EqualFold lib sub (bs "GET")) then reply (WriteError (bs "ERR unsupported CONFIG subcommand"))
  else if negb (lenZ args =? 2) then wrongArity (bs "CONFIG")
  else
    pattern ← arg 1 args;
    l ← observe settings;
    match matchSettings pattern l with
    | None => reply (WriteError (bs "ERR invalid CONFIG pattern"))
    | Some matched =>
        reply (WriteArrayHeader (lenZ matched * 2));; writeSettings matched
    end.

Definition bgrewriteaof (args : list bytes) : handler :=
  l ← observe aof;
  match l with
  | None => reply (WriteError (bs "ERR BGREWRITEAOF called without appendonly enabled"))
  | Some log =>
      r ← stored (fun st => let '(log', e) := BeginRewrite log in (SetJournal log' st, e));
      match r with
      | Some e => reply (WriteError (bs "ERR " ++ errorText lib e))
      | None => reply (WriteSimpleString (bs "Background append only file rewriting started"))
      end
  end.

Definition integerOf (b : bool) : Z := if b then 1 else 0.

Definition expireAtIn (args : list bytes) (unit : Duration) : handler :=
  a ← arg 1 args;
  match parseTTL a unit with
  | None => reply (WriteError errNotInteger)
  | Some n =>
      key ← arg 0 args;
      ok ← stored (ExpireAt (Now env 0) key (epochPlus n));
      reply (WriteInteger (integerOf ok))
  end.

Definition expireIn (args : list bytes) (unit : Duration) : handler :=
  a ← arg 1 args;
  match parseTTL a unit with
  | None => reply (WriteError errNotInteger)
  | Some ttl =>
      key ← arg 0 args;
      ok ← stored (Expire (Now env 0) (Now env 1) key ttl);
      reply (WriteInteger (integerOf ok))
  end.

Definition expire (args : list bytes) : handler := expireIn args Second.
Definition pexpire (args : list bytes) : handler := expireIn args Millisecond.
Definition expireat (args : list bytes) : handler := expireAtIn args Second.
Definition pexpireat (args : list bytes) : handler := expireAtIn args Millisecond.

(** The number TTL and PTTL reply with: [int64] arithmetic on the duration. *)
Definition roundTTL (d : Duration) (unit : Duration) : Z :=
  let n := Z.quot (wrap64 (d + Z.quot unit 2)) unit in
  if n <? 1 then 1 else n.

Definition ttlIn (args : list bytes) (unit : Duration) : handler :=
  key ← arg 0 args;
  r ← observe (fun s => TTL (Now env 0) key (store s));
  match r.2 with
  | KeyMissing => reply (WriteInteger (-2))
  | KeyPersistent => reply (WriteInteger (-1))
  | KeyVolatile => reply (WriteInteger (roundTTL r.1 unit))
  end.

Definition ttl (args : list bytes) : handler := ttlIn args Second.
Definition pttl (args : list bytes) : handler := ttlIn args Millisecond.

(** ** The table *)

Record command : Type := mkCommand {
  minArgs : Z;
  maxArgs : Z;
  isWrite : bool;
  fn : list bytes -> handler
}.

Definition commands : list (bytes * command) :=
  [(bs "PING", mkCommand 0 1 false ping);
   (bs "ECHO", mkCommand 1 1 false echo);
   (bs "SET", mkCommand 2 4 true set);
   (bs "MSET", mkCommand 2 (-1) true mset);
   (bs "GET", mkCommand 1 1 false get);
   (bs "MGET", mkCommand 1 (-1) false mget);
   (bs "INCR", mkCommand 1 1 true incr);
   (bs "DECR", mkCommand 1 1 true decr);
   (bs "APPEND", mkCommand 2 2 true append);
   (bs "STRLEN", mkCommand 1 1 false strlen);
   (bs "DEL", mkCommand 1 (-1) true del);
   (bs "EXISTS", mkCommand 1 (-1) false exists_);
   (bs "EXPIRE", mkCommand 2 2 true expire);
   (bs "PEXPIRE", mkCommand 2 2 true pexpire);
   (bs "EXPIREAT", mkCommand 2 2 true expireat);
   (bs "PEXPIREAT", mkCommand 2 2 true pexpireat);
   (bs "TTL", mkCommand 1 1 false ttl);
   (bs "PTTL", mkCommand 1 1 false pttl);
   (bs "DBSIZE", mkCommand 0 0 false dbsize);
   (bs "INFO", mkCommand 0 1 false info);
   (bs "CONFIG", mkCommand 2 (-1) false configGet);
   (bs "BGREWRITEAOF", mkCommand 0 0 false bgrewriteaof)].

Definition arityOk (c : command) (rest : list bytes) : bool :=
  negb ((lenZ rest <? minArgs c) || ((0 <=? maxArgs c) && (maxArgs c <? lenZ rest))).

(** [s.aof.Err()], for a server with a log. *)
Definition aofErr (s : Server) : option error :=
  match aof s with Some l => Err l | None => None end.

(** [s.aof.SyncIfAlways()]; its error is only logged. *)
Definition syncAof (s : Server) : Server :=
  match aof s with
  | Some l => setStore (SetJournal (SyncIfAlways l).1 (store s)) s
  | None => s
  end.

Definition countCommand : handler := fun '(s, w) =>
  ((mkServer (store s) (config s) (connections s) (wrapU64 (commandCalls s + 1)), w), Ret tt).

(** [EnforceMemoryLimit]: the answer; the loop's fuel is enough (Evict.v). *)
Definition enforce : GoM (Server * W) bool := fun '(s, w) =>
  match EnforceMemoryLimit (poolRange env) (store s) with
  | Some (st, _, ok) => ((setStore st s, w), Ret ok)
  | None => ((s, w), Panics (bs "out of fuel"))
  end.

Definition syncAlways : handler := fun '(s, w) => ((syncAof s, w), Ret tt).

(** A write command once its arity is right. *)
Definition runWrite (c : command) (rest : list bytes) : handler :=
  e ← observe aofErr;
  match e with
  | Some _ => reply (WriteError (bs "MISCONF Errors writing to the AOF file"))
  | None =>
      ok ← enforce;
      if negb ok then
        reply (WriteError (bs "OOM command not allowed when used memory > 'maxmemory'."))
      else
        fn c rest;; syncAlways
  end.

Definition dispatch (args : list bytes) : handler :=
  countCommand;;
  a0 ← arg 0 args;
  let name := ToUpper lib a0 in
  match assoc name commands with
  | None => reply (WriteError (bs "ERR unknown command '" ++ safeName name ++ bs "'"))
  | Some c =>
      let rest := drop 1 args in
      if negb (arityOk c rest) then wrongArity name
      else if isWrite c then runWrite c rest
      else fn c rest
  end.
End Handlers.

(** ** Replay *)

(** The [%q] verb on the text [safeName] leaves: printable ASCII, so only the quote and
    the backslash are escaped. *)
Definition quoted (s : bytes) : bytes :=
  let escape c := if bool_decide (c = Byte.x22 \/ c = Byte.x5c) then [Byte.x5c; c] else [c] in
  [Byte.x22] ++ concat (escape <$> s) ++ [Byte.x22].

(** [applyLogged]: the handlers of write commands, on a reply buffer.  A panic of a
    handler, which would end the process, is an error here. *)
Definition applyLogged (lib : Lib) (env : Env) (args : list bytes) (s : Server) :
    Server * option error :=
  match args with
  | [] => (s, Some (ErrorString (bs "panic: index out of range")))
  | a0 :: rest =>
      let name := ToUpper lib a0 in
      match assoc name (commands lib env) with
      | None => (s, Some (ErrorString (bs "unknown command " ++ quoted (safeName name))))
      | Some c =>
          if negb (isWrite c) then
            (s, Some (ErrorString (safeName name ++ bs " is not a write command")))
          else if negb (arityOk c rest) then
            (s, Some (ErrorString (safeName name ++ bs ": wrong number of arguments ("
               ++ FormatInt (lenZ rest) ++ bs ")")))
          else
            let '((s', out), r) := fn c rest (s, @nil byte) in
            match r with
            | Fail e => (s', Some e)
            | Panics why => (s', Some (ErrorString (bs "panic: " ++ why)))
            | Ret _ =>
                match out with
                | b :: msg =>
                    if bool_decide (b = Byte.x2d) then
                      (s', Some (ErrorString (safeName name ++ bs ": "
                         ++ TrimSpace (unicodeTrimSpace lib) msg)))
                    else (s', None)
                | [] => (s', None)
                end
            end
      end
  end.

(** ** Connections *)

Section Conn.
Context {R W : Type} `{!BufReader R} `{!IOWriter W} (lib : Lib).

(** [reportReadError]: what is written before hanging up. *)
Definition reportReadError (e : error) : GoM (Server * W) unit :=
  match e with
  | ProtocolError msg => reply (WriteError (bs "ERR " ++ ProtocolError_Error msg))
  | _ => mret tt
  end.

(** The loop of [HandleConn] and whether it has ended, with a reader and a writer that have
    nothing to do with each other ([Socket] has the ones that do); the environment of each
    command is a function of the number of rounds left.  A panic or an I/O error ends the
    connection. *)
Fixpoint handleLoop (fuel : nat) (envs : nat -> Env) (r : R) (st : Server * W) :
    Server * W * bool :=
  match fuel with
  | O => (st, false)
  | S fu =>
      match ReadCommand r with
      | (_, Fail e) => ((reportReadError e st).1, true)
      | (_, Panics _) => (st, true)
      | (r', Ret args) =>
          if lenZ args =? 0 then handleLoop fu envs r' st
          else match dispatch lib (envs fu) args st with
               | (st', Ret _) => handleLoop fu envs r' st'
               | (st', _) => (st', true)
               end
      end
  end.
End Conn.

(** For running the definitions: a library without Unicode, and a clock that stands
    still. *)
Definition ascii_lib : Lib := mkLib (fun s => s) (fun s => s) (fun _ _ => false) (fun s => s) (fun _ => bs "error").

Definition steady (t : Time) : Env := mkEnv (fun _ => t) pool_range.
