(* ===== verification/Journalling.v ===== *)
(** * What the store writes to its journal

    Every operation journals at most one record, and the record says what the
    operation did to the visible keyspace: [effect], a relation between the map
    before, the records and the map after.  The journal is any instance of
    [Journal]; [journalAll] is what it becomes when the records are appended. *)

From stdpp Require Import base gmap list strings sorting.
From Stdlib Require Import ZArith Lia.
From Stdlib Require Import Strings.Byte.
From S2P Require Import Prelude.
From S2P Require Import GoStrconv.
From S2P Require Import GoTime.
From S2P Require Import Shard.
From S2P Require Import Store.
From S2P Require Import StoreInv.
From S2P Require Import Expire.
From S2P Require Import Evict.
From S2P Require Import StoreSpec.

#[local] Open Scope Z_scope.

Abbreviation record := (list bytes).

(** The record of a binding, with its deadline in milliseconds. *)
Definition setRecord (k v : bytes) (d : Time) : record :=
  if IsZero d then [cmdSET; k; v] else [cmdSET; k; v; cmdPXAT; unixMillis d].

Definition msetRecord (pairs : list Pair) : record :=
  cmdMSET :: concat ((fun p => [Key p; Value p]) <$> pairs).

Definition setPairs (pairs : list Pair) (m : kv) : kv :=
  foldl (fun m p => <[Key p := (Value p, zeroTime)]> m) m pairs.

(** The changes a record can express, and their records. *)
Inductive change : Type :=
| ChSet (k v : bytes) (d : Time)
| ChMSet (pairs : list Pair)
| ChDel (ks : list bytes)
| ChDeadline (k : bytes) (d : Time).

#[export] Instance Pair_eq_dec : EqDecision Pair.
Proof. solve_decision. Defined.

#[export] Instance change_eq_dec : EqDecision change.
Proof. solve_decision. Defined.

Definition wire (c : change) : record :=
  match c with
  | ChSet k v d => setRecord k v d
  | ChMSet pairs => msetRecord pairs
  | ChDel ks => cmdDEL :: ks
  | ChDeadline k d => [cmdPEXPIREAT; k; unixMillis d]
  end.

(** [effect t m cs m']: at time [t] the visible keyspace [m] became [m'], and the changes
    [cs] were journalled. *)
Inductive effect (t : Time) (m : kv) : list change -> kv -> Prop :=
| effect_silent m' :
    (forall k, vis t m' k = vis t m k) -> effect t m [] m'
| effect_set k v d :
    IsZero d = true \/ Millisecond <= d -> effect t m [ChSet k v d] (<[k := (v, d)]> m)
| effect_mset pairs : effect t m [ChMSet pairs] (setPairs pairs m)
| effect_del ks m' :
    (forall k, vis t m' k = if bool_decide (k ∈ ks) then None else vis t m k) ->
    effect t m [ChDel ks] m'
| effect_deadline k v d0 d :
    vis t m k = Some (v, d0) -> t < d -> Millisecond <= d ->
    effect t m [ChDeadline k d] (<[k := (v, d)]> m).

Section Journalling.
Context {J : Type} `{!Journal J}.
Implicit Types s : Store J.

Definition journalAll (rs : list record) (j : J) : J :=
  foldl (fun j r => (Journal_Append r j).1) j rs.

(** From [s] to [s'] the records [rs] were journalled. *)
Definition wrote (rs : list record) s s' : Prop := journal s' = journalAll rs <$> journal s.

Lemma wrote_nil s s' : journal s' = journal s -> wrote [] s s'.
Proof. unfold wrote. intros ->. by destruct (journal s). Qed.

Lemma wrote_propagate args s s' :
  journal s' = journal s -> wrote [args] s (propagate args s').
Proof.
  intros H. unfold wrote, propagate. rewrite H.
  by destruct (journal s) as [j|] eqn:Hj; rewrite ?H.
Qed.

Lemma wrote_trans rs1 rs2 s1 s2 s3 :
  wrote rs1 s1 s2 -> wrote rs2 s2 s3 -> wrote (rs1 ++ rs2) s1 s3.
Proof.
  unfold wrote. intros H1 H2. rewrite H2, H1. destruct (journal s1); [|done]. simpl.
  unfold journalAll. by rewrite foldl_app.
Qed.

Lemma wrote_setLocked k v d s s' :
  journal s' = journal s -> wrote [setRecord k v d] s (setLocked k v d s').
Proof.
  intros H. unfold setLocked, propagateSetLocked, setRecord.
  by case_match; apply wrote_propagate.
Qed.

Lemma journal_liveEntry now k s : journal (liveEntry now k s).1 = journal s.
Proof. unfold liveEntry. by repeat case_match. Qed.

Lemma journal_Del_loop now ks removed n s : journal (Del_loop now ks removed n s).1.1 = journal s.
Proof.
  revert removed n s. induction ks as [|k ks IH]; intros removed n s; simpl; [done|].
  case_match; by rewrite IH.
Qed.

(** The keys that [Del] removes: those that are there. *)
Lemma Del_loop_removed now ks removed n s m :
  refines now s m ->
  let '(s', removed', _) := Del_loop now ks removed n s in
  exists gone, removed' = removed ++ gone /\
    forall k, vis now (spec_del ks m) k = if bool_decide (k ∈ gone) then None else vis now m k.
Proof.
  revert removed n s m. induction ks as [|a ks IH]; intros removed n s m Hr; simpl.
  { exists []. split; [by rewrite app_nil_r|]. intros k. by rewrite bool_decide_false by set_solver. }
  fold (entry_at s a). pose proof (vis_of_entry now s m a Hr) as Hv.
  destruct (entry_at s a) as [e|] eqn:He.
  - specialize (IH (removed ++ [a]) (if negb (expired e now) then n + 1 else n) _ (delete a m)
                  (refines_delete _ _ _ _ Hr)).
    destruct (Del_loop _ _ _ _ _) as [[s' r'] n']. destruct IH as (gone & -> & Hg).
    exists (a :: gone). split; [by rewrite <- app_assoc|]. intros k. rewrite (Hg k).
    unfold vis. destruct (decide (k = a)) as [->|Hne].
    + rewrite lookup_delete_eq. rewrite (bool_decide_true (a ∈ a :: gone)) by set_solver.
      by case_bool_decide.
    + rewrite lookup_delete_ne by done. do 2 case_bool_decide; set_solver.
  - assert (refines now s (delete a m)) as Hr'.
    { apply (refines_update now s _ m _ a); [done|by apply ref_wf in Hr| |].
      - intros k' Hne. by rewrite lookup_delete_ne.
      - unfold see, vis. by rewrite He, lookup_delete_eq. }
    specialize (IH removed n s _ Hr').
    destruct (Del_loop _ _ _ _ _) as [[s' r'] n']. destruct IH as (gone & -> & Hg).
    exists gone. split; [done|]. intros k. rewrite (Hg k). case_bool_decide; [done|].
    destruct (decide (k = a)) as [->|Hne].
    + rewrite Hv. unfold vis. by rewrite lookup_delete_eq.
    + unfold vis. by rewrite lookup_delete_ne.
Qed.

Lemma Del_effect now ks s m :
  refines now s m -> exists cs, wrote (wire <$> cs) s (Del now ks s).1 /\ effect now m cs (spec_del ks m).
Proof.
  intros Hr. unfold Del. pose proof (Del_loop_removed now ks [] 0 s m Hr) as H.
  pose proof (journal_Del_loop now ks [] 0 s) as Hj.
  destruct (Del_loop now ks [] 0 s) as [[s' rm] n]. destruct H as (gone & -> & Hg). simpl in *.
  destruct gone as [|a gone].
  - exists []. split; [by apply wrote_nil|]. apply effect_silent. intros k.
    rewrite (Hg k). by rewrite bool_decide_false by set_solver.
  - rewrite (proj2 (Z.ltb_lt _ _)) by (unfold lenZ; simpl; lia).
    exists [ChDel (a :: gone)]. split; [by apply wrote_propagate|by apply effect_del].
Qed.

Lemma ExpireAt_effect now key at_ s m :
  Millisecond <= now -> refines now s m ->
  exists cs, wrote (wire <$> cs) s (ExpireAt now key at_ s).1 /\ effect now m cs (spec_expireAt now key at_ m).1.
Proof.
  intros Hz Hr. unfold ExpireAt, spec_expireAt. fold (entry_at s key).
  pose proof (vis_of_entry now s m key Hr) as Hv. rewrite Hv.
  destruct (entry_at s key) as [e|] eqn:He.
  2:{ exists []. split; [by apply wrote_nil|by apply effect_silent]. }
  destruct (expired e now) eqn:Hx.
  - exists [ChDel [key]]. split; [by apply wrote_propagate|]. apply effect_del. intros k. simpl.
    case_bool_decide as Hk; [|done]. apply list_elem_of_singleton in Hk as ->. by rewrite Hv.
  - unfold After. rewrite Z.leb_antisym. destruct (Z.ltb_spec now at_) as [Ha|Ha]; simpl.
    + exists [ChDeadline key at_]. split; [by apply wrote_propagate|].
      eapply effect_deadline; [done|done|lia].
    + exists [ChDel [key]]. split; [by apply wrote_propagate|]. apply effect_del. intros k. simpl.
      unfold vis. case_bool_decide as Hk.
      * apply list_elem_of_singleton in Hk as ->. by rewrite lookup_delete_eq.
      * rewrite lookup_delete_ne; [done|]. intros <-. by apply Hk, list_elem_of_singleton.
Qed.

Lemma silent_effect t s s' m :
  journal s' = journal s -> exists cs, wrote (wire <$> cs) s s' /\ effect t m cs m.
Proof. intros H. exists []. split; [by apply wrote_nil|by apply effect_silent]. Qed.

(** A deadline somebody can see is no earlier than the clock. *)
Lemma vis_deadline t m k v d :
  Millisecond <= t -> vis t m k = Some (v, d) -> IsZero d = true \/ Millisecond <= d.
Proof.
  intros Ht. unfold vis. destruct (m !! k) as [[v' d']|]; [|done].
  destruct (live t d') eqn:Hl; [|done]. intros [= -> ->]. unfold live in Hl.
  destruct (IsZero d); [by left|]. simpl in Hl. right. lia.
Qed.

(** A write whose deadline may have passed. *)
Lemma set_or_del_effect now key v at_ (past : bool) s m :
  refines now s m -> (past = false -> Millisecond <= at_) ->
  exists cs, wrote (wire <$> cs) s (if past then (Del now [key] s).1 else set key v at_ s) /\
    effect now m cs (if past then delete key m else <[key := (v, at_)]> m).
Proof.
  intros Hr Hp. destruct past; [by apply (Del_effect now [key])|].
  exists [ChSet key v at_]. split; [by apply wrote_setLocked|apply effect_set; auto].
Qed.

Lemma Increment_effect now key delta s m :
  Millisecond <= now -> is_int64 delta -> refines now s m ->
  exists cs, wrote (wire <$> cs) s (Increment now key delta s).1 /\ effect now m cs (spec_incr now key delta m).1.
Proof.
  intros Ht Hd Hr. pose proof (liveEntry_refines now key s m Hr) as Hl.
  pose proof (journal_liveEntry now key s) as Hj.
  unfold Increment, spec_incr. destruct (liveEntry now key s) as [s1 found].
  simpl in Hj. destruct Hl as [_ Hv]. pose proof (fun v d => vis_deadline now m key v d Ht) as Hvd.
  rewrite Hv in *.
  destruct found as [e|]; simpl; rewrite ?integer_of_ParseInt.
  - destruct (ParseInt (val e)) as [n|] eqn:Hp; [|by apply silent_effect].
    rewrite overflow_guard by (done || by apply ParseInt_spec in Hp as [_ ?]).
    case_decide as Hi; [|rewrite bool_decide_false by done; by apply silent_effect].
    rewrite bool_decide_true by done. simpl. rewrite wrap64_small by done.
    exists [ChSet key (FormatInt (n + delta)) (expiresAt e)].
    split; [by apply wrote_setLocked|apply effect_set; by eapply Hvd].
  - rewrite overflow_guard by done.
    case_decide as Hi; [|rewrite bool_decide_false by done; by apply silent_effect].
    rewrite bool_decide_true by done. simpl. rewrite wrap64_small by done.
    exists [ChSet key (FormatInt delta) zeroTime].
    split; [by apply wrote_setLocked|apply (effect_set _ _ key (FormatInt delta) zeroTime); by left].
Qed.

Lemma Append_effect now key suffix s m :
  Millisecond <= now -> refines now s m ->
  exists cs, wrote (wire <$> cs) s (Append now key suffix s).1 /\
    effect now m cs (spec (OpAppend now key suffix) m).1.
Proof.
  intros Ht Hr. pose proof (liveEntry_refines now key s m Hr) as Hl.
  pose proof (journal_liveEntry now key s) as Hj. simpl.
  unfold Append. destruct (liveEntry now key s) as [s1 found]. simpl in Hj. destruct Hl as [_ Hv].
  pose proof (fun v d => vis_deadline now m key v d Ht) as Hvd. rewrite Hv in *.
  destruct found as [e|]; simpl;
    [exists [ChSet key (val e ++ suffix) (expiresAt e)]|exists [ChSet key suffix zeroTime]];
    (split; [by apply (wrote_setLocked key)|apply (effect_set _ _ key); first [by left|by eapply Hvd]]).
Qed.

Lemma MSet_effect t pairs s m :
  exists cs, wrote (wire <$> cs) s (MSet pairs s) /\ effect t m cs (setPairs pairs m).
Proof.
  exists [ChMSet pairs]. split; [|apply effect_mset]. unfold MSet.
  apply wrote_propagate. generalize s. induction pairs as [|p pairs IH]; intros s0; [done|].
  cbn [foldl]. by rewrite IH.
Qed.

Lemma Get_effect now now' key s m t :
  exists cs, wrote (wire <$> cs) s (Get now now' key s).1 /\ effect t m cs m.
Proof. apply silent_effect. unfold Get, Get_with. by repeat case_match. Qed.

(** One operation: its journal record is its effect. *)
Lemma run_effect t o s m :
  Millisecond <= t -> StronglySorted Z.le (t :: readings o) -> op_ok o -> refines t s m ->
  exists cs, wrote (wire <$> cs) s (run o s).1 /\ effect (lastReading t o) m cs (spec o m).1.
Proof.
  intros Hz Hs Hok Hr. inversion_clear Hs as [|? ? Hs' Hall].
  destruct o; simpl in Hs', Hall, Hok; unfold lastReading; simpl;
    repeat match goal with
      | H : Forall _ (_ :: _) |- _ => inversion_clear H
      | H : StronglySorted _ (_ :: _) |- _ => inversion_clear H
      end.
  - pose proof (Get_effect now now' key s m now') as He. by destruct (Get now now' key s).
  - by destruct (TTL now key s); apply silent_effect.
  - by apply silent_effect.
  - by apply silent_effect.
  - exists [ChSet key v zeroTime]. split; [by apply wrote_setLocked|apply effect_set; by left].
  - apply (set_or_del_effect now key v (now + ttl) (ttl <=? 0)); [by eapply refines_later|lia].
  - unfold SetWithDeadline, After. rewrite Z.leb_antisym.
    destruct (negb (now <? at_)) eqn:Hp.
    + apply (set_or_del_effect now' key v at_ true); [|done]. eapply refines_later; [|done]. lia.
    + apply (set_or_del_effect now' key v at_ false); [eapply refines_later; [|done]; lia|lia].
  - apply MSet_effect.
  - assert (refines now s m) as Hr' by (by eapply refines_later).
    pose proof (Increment_effect now key delta s m ltac:(lia) Hok Hr') as He.
    by destruct (Increment now key delta s), (spec_incr now key delta m).
  - assert (refines now s m) as Hr' by (by eapply refines_later).
    pose proof (Append_effect now key suffix0 s m ltac:(lia) Hr') as He. simpl in He.
    by destruct (Append now key suffix0 s).
  - assert (refines now' s m) as Hr' by (eapply refines_later; [|done]; lia).
    pose proof (ExpireAt_effect now' key (now + ttl) s m ltac:(lia) Hr') as He.
    unfold Expire, Time_Add.
    by destruct (ExpireAt now' key (now + ttl) s), (spec_expireAt now' key (now + ttl) m).
  - assert (refines now s m) as Hr' by (by eapply refines_later).
    pose proof (ExpireAt_effect now key at_ s m ltac:(lia) Hr') as He.
    by destruct (ExpireAt now key at_ s), (spec_expireAt now key at_ m).
  - assert (refines now s m) as Hr' by (by eapply refines_later).
    pose proof (Del_effect now keys s m Hr') as He. by destruct (Del now keys s).
  - assert (refines now s m) as Hr' by (by eapply refines_later).
    pose proof (expireSample_spec n now range s (ref_wf _ _ _ Hr') Hok) as He.
    destruct (expireSample n now range s) as [[s' sc] go]. apply silent_effect. by destruct He as (_ & ? & _).
Qed.
End Journalling.

(** A journal that remembers its records has them all. *)
Lemma journalAll_list (rs l : list record) : journalAll rs l = l ++ rs.
Proof.
  unfold journalAll. revert l. induction rs as [|r rs IH]; intros l; simpl; [by rewrite app_nil_r|].
  rewrite IH. by rewrite <- app_assoc.
Qed.

Lemma wire_nonempty cs : Forall (fun r => r <> []) (wire <$> cs).
Proof.
  apply Forall_fmap, Forall_forall. intros c _. destruct c; cbn; try done. unfold setRecord. by case_match.
Qed.

(** A journal with one plain SET. *)
Lemma wire_plain_set (cs : list change) k v :
  wire <$> cs = [[cmdSET; k; v]] -> exists d, cs = [ChSet k v d] /\ IsZero d = true.
Proof.
  destruct cs as [|c [|c2 cs]]; [done| |done]. intros [= H].
  destruct c as [k' v' d|pairs|ks|k' d]; cbn [wire] in H; [|done..]. unfold setRecord in H.
  destruct (IsZero d) eqn:Hd; [|done]. injection H as -> ->. by exists d.
Qed.
