(* ===== verification/Recovery.v ===== *)
(** * Replaying the journal rebuilds the keyspace

    [redo] is what replaying one journalled change does to the abstract keyspace at
    the time of the replay: the handlers of SET, MSET, DEL and PEXPIREAT run again,
    with the clock of the restart.  [recovers] relates the keyspace the journal was
    written from to every keyspace that replaying it can give; it is kept by every
    effect of Journalling.v.

    A deadline is journalled in milliseconds, so it comes back up to a millisecond
    earlier ([settled]). *)

From stdpp Require Import base gmap list strings sorting.
From Stdlib Require Import ZArith Lia.
From Stdlib Require Import Strings.Byte.
From S2P Require Import Prelude.
From S2P Require Import GoStrconv.
From S2P Require Import GoTime.
From S2P Require Import Store.
From S2P Require Import StoreInv.
From S2P Require Import StoreSpec.
From S2P Require Import Journalling.

#[local] Open Scope Z_scope.

(** ** Changes, replayed *)

Definition trunc (d : Time) : Time := ofUnixMilli (UnixMilli d).

(** A deadline after a round trip through the journal. *)
Definition settled (d : Time) : Time := if IsZero d then d else trunc d.

Definition redo (T : Time) (c : change) (m : kv) : kv :=
  match c with
  | ChSet k v d =>
      if IsZero d then <[k := (v, zeroTime)]> m
      else if trunc d <=? T then delete k m else <[k := (v, trunc d)]> m
  | ChMSet pairs => setPairs pairs m
  | ChDel ks => spec_del ks m
  | ChDeadline k d => (spec_expireAt T k (trunc d) m).1
  end.

(** [redone t T cs m]: replaying [cs] from the empty keyspace, at clock readings that
    do not go backwards between [t] and [T], gives [m]. *)
Inductive redone (t : Time) : Time -> list change -> kv -> Prop :=
| redone_start T : t <= T -> redone t T [] ∅
| redone_step T0 T1 T cs c m :
    redone t T0 cs m -> T0 <= T1 -> T1 <= T -> redone t T (cs ++ [c]) (redo T1 c m).

(** The deadlines the journal gave a key since it was last written or deleted. *)
Definition deadlines_step (k : bytes) (ds : list Time) (c : change) : list Time :=
  match c with
  | ChSet k' _ d => if decide (k' = k) then (if IsZero d then [] else [d]) else ds
  | ChMSet pairs => if decide (k ∈ Key <$> pairs) then [] else ds
  | ChDel ks => if decide (k ∈ ks) then [] else ds
  | ChDeadline k' d => if decide (k' = k) then ds ++ [d] else ds
  end.

Definition deadlines (k : bytes) (cs : list change) : list Time := foldl (deadlines_step k) [] cs.

(** Replaying [cs] gives, under the key [k], what [m] holds at time [t]. *)
Record recovers_at (k : bytes) (t : Time) (m : kv) (cs : list change) : Prop := {
  rec_sound : forall T r v d,
    redone t T cs r -> vis T r k = Some (v, d) ->
    exists d', vis T m k = Some (v, d') /\ d = settled d';
  rec_complete : forall T r v d,
    redone t T cs r -> vis T m k = Some (v, d) ->
    (forall x, x ∈ deadlines k cs -> T < trunc x) ->
    vis T r k = Some (v, settled d);
  rec_deadlines : forall v d,
    vis t m k = Some (v, d) -> IsZero d = true \/ d ∈ deadlines k cs
}.

Definition recovers (t : Time) (m : kv) (cs : list change) : Prop := forall k, recovers_at k t m cs.

(** ** Lemmas *)

Lemma trunc_le d : trunc d <= d.
Proof. unfold trunc. pose proof (ofUnixMilli_UnixMilli d). lia. Qed.

Lemma trunc_positive d : Millisecond <= d -> Millisecond <= trunc d.
Proof. unfold trunc, ofUnixMilli, UnixMilli, Millisecond. intros. zlia. Qed.

Lemma positive_not_zero d : Millisecond <= d -> IsZero d = false.
Proof. unfold IsZero, zeroTime, Millisecond, Second. lia. Qed.

Lemma redone_later t T T' cs m : redone t T cs m -> T <= T' -> redone t T' cs m.
Proof. intros H Hle. inversion H; subst; econstructor; eauto; lia. Qed.

Lemma redone_lower t T cs m : redone t T cs m -> t <= T.
Proof. induction 1; lia. Qed.

Lemma redone_from t t' T cs m : t <= t' -> redone t' T cs m -> redone t T cs m.
Proof.
  intros Ht. induction 1; [constructor; lia|]. by econstructor.
Qed.

Lemma redone_nil t T r : redone t T [] r -> r = ∅.
Proof.
  remember [] as l eqn:Hl. destruct 1 as [|? ? ? cs]; [done|by destruct cs].
Qed.

Lemma redone_snoc t T cs c r :
  redone t T (cs ++ [c]) r ->
  exists T1 m, redone t T1 cs m /\ t <= T1 <= T /\ r = redo T1 c m.
Proof.
  remember (cs ++ [c]) as l eqn:Hl.
  intros H. destruct H as [T H|T0 T1 T cs' c' m Hr H1 H2]; [by destruct cs|].
  apply app_inj_tail in Hl as [-> ->]. exists T1, m.
  pose proof (redone_lower _ _ _ _ Hr).
  split_and!; [by eapply redone_later|lia|lia|done].
Qed.

Lemma deadlines_snoc k cs c : deadlines k (cs ++ [c]) = deadlines_step k (deadlines k cs) c.
Proof. unfold deadlines. by rewrite foldl_app. Qed.

Lemma vis_lookup_ext T m m' k : m !! k = m' !! k -> vis T m k = vis T m' k.
Proof. unfold vis. by intros ->. Qed.

Lemma vis_insert T m k v d k' :
  vis T (<[k := (v, d)]> m) k' =
    if decide (k' = k) then if live T d then Some (v, d) else None else vis T m k'.
Proof.
  unfold vis. case_decide as Hd; [by rewrite Hd, lookup_insert_eq|by rewrite lookup_insert_ne].
Qed.

Lemma vis_delete T m k k' : vis T (delete k m) k' = if decide (k' = k) then None else vis T m k'.
Proof.
  unfold vis. case_decide as Hd; [by rewrite Hd, lookup_delete_eq|by rewrite lookup_delete_ne].
Qed.

Lemma spec_del_lookup ks m k : spec_del ks m !! k = if bool_decide (k ∈ ks) then None else m !! k.
Proof.
  revert m. induction ks as [|a ks IH]; intros m; simpl; [done|].
  fold (spec_del ks (delete a m)). rewrite IH.
  destruct (decide (k = a)) as [->|Hne].
  - rewrite lookup_delete_eq. rewrite (bool_decide_true (a ∈ a :: ks)) by set_solver.
    by case_bool_decide.
  - rewrite lookup_delete_ne by done. do 2 case_bool_decide; set_solver.
Qed.

(** MSET gives its keys a value that does not depend on the map, and leaves the others
    alone. *)
Lemma setPairs_lookup pairs k :
  (k ∈ Key <$> pairs /\ exists v, forall m, setPairs pairs m !! k = Some (v, zeroTime)) \/
  (k ∉ Key <$> pairs /\ forall m, setPairs pairs m !! k = m !! k).
Proof.
  induction pairs as [|p pairs IH] using rev_ind; [right; split; [set_solver|done]|].
  assert (forall m, setPairs (pairs ++ [p]) m = <[Key p := (Value p, zeroTime)]> (setPairs pairs m))
    as Hs by (intros m; unfold setPairs; by rewrite foldl_app).
  rewrite fmap_app. destruct (decide (k = Key p)) as [->|Hne].
  - left. split; [set_solver|]. exists (Value p). intros m. by rewrite Hs, lookup_insert_eq.
  - destruct IH as [[Hin [v Hv]]|[Hin Hn]]; [left|right]; (split; [set_solver|]); [exists v|];
      intros m; by rewrite Hs, lookup_insert_ne.
Qed.

(** What is visible later is visible now, with the same binding. *)
Lemma vis_earlier t T m k v d : t <= T -> vis T m k = Some (v, d) -> vis t m k = Some (v, d).
Proof.
  intros Ht. rewrite (vis_later t T) by done.
  destruct (vis t m k) as [[v' d']|]; [|done]. simpl. by case_match; intros [= -> ->].
Qed.

Lemma vis_until t T m k v d :
  t <= T -> vis t m k = Some (v, d) -> IsZero d = true \/ T < d -> vis T m k = Some (v, d).
Proof.
  intros Ht Hv Hd. rewrite (vis_later t T), Hv by done. simpl. unfold live.
  destruct Hd as [-> | Hd]; [done|]. rewrite (proj2 (Z.ltb_lt T d)) by done. by rewrite orb_true_r.
Qed.

(** ** The empty keyspace, and the passing of time *)

Lemma recovers_empty t : recovers t ∅ [].
Proof.
  intros k. split.
  - intros T r v d ->%redone_nil Hv. unfold vis in Hv. by rewrite lookup_empty in Hv.
  - intros T r v d _ Hv. unfold vis in Hv. by rewrite lookup_empty in Hv.
  - intros v d Hv. unfold vis in Hv. by rewrite lookup_empty in Hv.
Qed.

Lemma recovers_at_later k t t' m cs : t <= t' -> recovers_at k t m cs -> recovers_at k t' m cs.
Proof.
  intros Ht [A B C]. split.
  - intros T r v d Hr. apply A. by eapply redone_from.
  - intros T r v d Hr. apply B. by eapply redone_from.
  - intros v d Hv. apply (C v). by eapply vis_earlier.
Qed.

Lemma recovers_later t t' m cs : t <= t' -> recovers t m cs -> recovers t' m cs.
Proof. intros Ht H k. by eapply recovers_at_later. Qed.

Lemma settled_zero d : IsZero d = true -> settled d = zeroTime /\ d = zeroTime.
Proof. unfold settled. intros Hz. rewrite Hz. unfold IsZero in Hz. split; lia. Qed.

Lemma settled_trunc d : Millisecond <= d -> settled d = trunc d.
Proof. intros Hd. unfold settled. by rewrite (positive_not_zero d Hd). Qed.

Lemma live_trunc T d : Millisecond <= d -> live T (trunc d) = true -> T < trunc d /\ live T d = true.
Proof.
  intros Hd Hl. unfold live in Hl. rewrite (positive_not_zero _ (trunc_positive d Hd)) in Hl.
  simpl in Hl. pose proof (trunc_le d). split; [lia|]. apply live_later. lia.
Qed.

(** ** Each kind of change, at one key *)

Section Changes.
Context (k : bytes) (t : Time) (m : kv) (cs : list change).

(** What a change has to keep, whenever it is replayed. *)
Lemma recovers_change c m' :
  (forall T1 r, redone t T1 cs r -> forall T v d, T1 <= T ->
     vis T m' k = Some (v, d) ->
     (forall x, x ∈ deadlines_step k (deadlines k cs) c -> T < trunc x) ->
     vis T (redo T1 c r) k = Some (v, settled d)) ->
  (forall v d, vis t m' k = Some (v, d) ->
     IsZero d = true \/ d ∈ deadlines_step k (deadlines k cs) c) ->
  (forall T1 T r v d, T1 <= T -> redone t T1 cs r ->
     vis T (redo T1 c r) k = Some (v, d) ->
     (exists d', vis T m' k = Some (v, d') /\ d = settled d')) ->
  recovers_at k t m' (cs ++ [c]).
Proof.
  intros HB HC HA. split.
  - intros T r v d (T1 & r1 & Hr1 & HT & ->)%redone_snoc Hv. by eapply (HA T1 T r1); [lia|..].
  - intros T r v d (T1 & r1 & Hr1 & HT & ->)%redone_snoc Hv Hd. rewrite deadlines_snoc in Hd.
    by eapply (HB T1 r1 Hr1); [lia|..].
  - intros v d Hv. rewrite deadlines_snoc. by eapply HC.
Qed.

(** A change that fixes the binding of the key, whatever was there. *)
Lemma recovers_set_key v0 d0 m' :
  IsZero d0 = true \/ Millisecond <= d0 -> m' !! k = Some (v0, d0) ->
  recovers_at k t m' (cs ++ [ChSet k v0 d0]).
Proof.
  intros Hd0 Hm'. assert (forall T, vis T m' k = if live T d0 then Some (v0, d0) else None) as Hv'.
  { intros T. unfold vis. by rewrite Hm'. }
  apply recovers_change; cbn [redo deadlines_step]; rewrite ?decide_True by done;
    setoid_rewrite Hv'; destruct Hd0 as [Hz|Hms].
  - intros T1 r Hr T v d HT Hv Hdl. destruct (settled_zero d0 Hz) as [Hs ->]. simpl in *.
    rewrite vis_insert, decide_True by done. by simplify_eq.
  - rewrite (positive_not_zero d0 Hms). intros T1 r Hr T v d HT Hv Hdl.
    assert (T < trunc d0) as HTd by (apply Hdl; set_solver).
    rewrite (proj2 (Z.leb_gt (trunc d0) T1)) by lia. rewrite vis_insert, decide_True by done.
    rewrite live_later by done. case_match; simplify_eq. by rewrite settled_trunc.
  - intros v d Hv. case_match; simplify_eq. by left.
  - intros v d Hv. case_match; simplify_eq. right.
    rewrite (positive_not_zero d Hms). set_solver.
  - intros T1 T r v d HT Hr. destruct (settled_zero d0 Hz) as [Hs ->]. simpl.
    rewrite vis_insert, decide_True by done. simpl. intros [= <- <-]. by eexists.
  - rewrite (positive_not_zero d0 Hms). intros T1 T r v d HT Hr. destruct (trunc d0 <=? T1).
    { by rewrite vis_delete, decide_True. }
    rewrite vis_insert, decide_True by done. destruct (live T (trunc d0)) eqn:Hl; [|done].
    intros [= <- <-]. exists d0. destruct (live_trunc _ _ Hms Hl) as [_ ->].
    by rewrite settled_trunc.
Qed.

Lemma recovers_mset_key pairs m0 :
  k ∈ Key <$> pairs -> recovers_at k t (setPairs pairs m0) (cs ++ [ChMSet pairs]).
Proof.
  intros Hk. destruct (setPairs_lookup pairs k) as [[_ [x Hx]]|[]]; [|done].
  assert (forall T m, vis T (setPairs pairs m) k = Some (x, zeroTime)) as Hv.
  { intros T m1. unfold vis. by rewrite Hx. }
  apply recovers_change; cbn [redo]; setoid_rewrite Hv.
  - by intros T1 r _ T v d _ [= <- <-] _.
  - intros v d [= <- <-]. by left.
  - intros T1 T r v d _ _ [= <- <-]. by eexists.
Qed.

Lemma recovers_del_key ks m' :
  k ∈ ks -> vis t m' k = None -> recovers_at k t m' (cs ++ [ChDel ks]).
Proof.
  intros Hk Hm'.
  assert (forall T r, vis T (spec_del ks r) k = None) as Hr'.
  { intros T r. unfold vis. rewrite spec_del_lookup. by rewrite bool_decide_true. }
  apply recovers_change; cbn [redo deadlines_step].
  - intros T1 r Hr T v d HT Hv. pose proof (redone_lower _ _ _ _ Hr).
    rewrite (vis_later t T), Hm' in Hv by lia. done.
  - intros v d. by rewrite Hm'.
  - intros T1 T r v d HT Hr Hv. by rewrite Hr' in Hv.
Qed.

(** The changes that need to know that the key was recovered before. *)
Context (Hrec : recovers_at k t m cs).

Lemma recovers_silent m' : vis t m' k = vis t m k -> recovers_at k t m' cs.
Proof.
  intros Hv. destruct Hrec as [A B C].
  assert (forall T, t <= T -> vis T m' k = vis T m k) as HvT.
  { intros T HT. by rewrite (vis_later t T), (vis_later t T m), Hv. }
  split.
  - intros T r v d Hr H. rewrite HvT by (by eapply redone_lower). by eapply A.
  - intros T r v d Hr H. rewrite HvT in H by (by eapply redone_lower). by eapply B.
  - intros v d H. rewrite Hv in H. by eapply C.
Qed.

(** A change of other keys. *)
Lemma recovers_other c m' :
  vis t m' k = vis t m k -> (forall T r, redo T c r !! k = r !! k) ->
  (forall ds, deadlines_step k ds c = ds) -> recovers_at k t m' (cs ++ [c]).
Proof.
  intros Hm' Hr' Hds. apply recovers_silent in Hm' as [A B C]. apply recovers_change; rewrite ?Hds.
  - intros T1 r Hr T v d HT Hv Hdl. rewrite (vis_lookup_ext _ _ _ _ (Hr' T1 r)).
    eapply B; [by eapply redone_later|done..].
  - done.
  - intros T1 T r v d HT Hr. rewrite (vis_lookup_ext _ _ _ _ (Hr' T1 r)).
    eapply A. by eapply redone_later.
Qed.

Lemma recovers_deadline_key v0 d0 d1 m' :
  vis t m k = Some (v0, d0) -> m' !! k = Some (v0, d1) -> Millisecond <= d1 ->
  recovers_at k t m' (cs ++ [ChDeadline k d1]).
Proof.
  intros Hk Hm' Hms. assert (forall T, vis T m' k = if live T d1 then Some (v0, d1) else None) as Hv'.
  { intros T. unfold vis. by rewrite Hm'. }
  apply recovers_change; cbn [redo deadlines_step]; unfold spec_expireAt;
    rewrite ?decide_True by done; setoid_rewrite Hv'.
  - intros T1 r Hr T v d HT Hv Hdl. pose proof (redone_lower _ _ _ _ Hr).
    assert (T < trunc d1) as HTd by (apply Hdl; set_solver).
    assert (forall x, x ∈ deadlines k cs -> T < trunc x) as Hold by (intros x Hx; apply Hdl; set_solver).
    assert (vis T1 m k = Some (v0, d0)) as Hm1.
    { apply (vis_until t T1); [lia|done|].
      destruct (rec_deadlines _ _ _ _ Hrec _ _ Hk) as [|Hin]; [by left|].
      right. pose proof (trunc_le d0). specialize (Hold d0 Hin). lia. }
    rewrite (rec_complete _ _ _ _ Hrec T1 r v0 d0 Hr Hm1) by
      (intros x Hx; specialize (Hold x Hx); lia).
    rewrite (proj2 (Z.leb_gt (trunc d1) T1)) by lia. simpl. rewrite vis_insert, decide_True by done.
    rewrite (live_later T (trunc d1)) by done. case_match; simplify_eq. by rewrite settled_trunc.
  - intros v d Hv. case_match; simplify_eq. right. set_solver.
  - intros T1 T r v d HT Hr. pose proof (redone_lower _ _ _ _ Hr).
    destruct (vis T1 r k) as [[v1 d2]|] eqn:Hv1; simpl.
    + destruct (rec_sound _ _ _ _ Hrec _ _ _ _ Hr Hv1) as (d3 & Hm3 & ->).
      apply (vis_earlier t) in Hm3; [|lia]. rewrite Hk in Hm3. simplify_eq.
      destruct (trunc d1 <=? T1); simpl; [by rewrite vis_delete, decide_True|].
      rewrite vis_insert, decide_True by done. destruct (live T (trunc d1)) eqn:Hl; [|done].
      intros [= <- <-]. exists d1. destruct (live_trunc _ _ Hms Hl) as [_ ->].
      by rewrite settled_trunc.
    + intros Hv. apply (vis_earlier T1) in Hv; [congruence|done].
Qed.
End Changes.

(** Whether a change touches a key, and whether it fixes the key's binding. *)
Definition touches (k : bytes) (c : change) : Prop :=
  match c with
  | ChSet k' _ _ | ChDeadline k' _ => k' = k
  | ChMSet pairs => k ∈ Key <$> pairs
  | ChDel ks => k ∈ ks
  end.

#[export] Instance touches_dec k c : Decision (touches k c).
Proof. destruct c; simpl; apply _. Defined.

Definition resets (c : change) : Prop :=
  match c with ChDeadline _ _ => False | _ => True end.

Lemma redo_untouched k T c r : ~ touches k c -> redo T c r !! k = r !! k.
Proof.
  destruct c as [k' v d|pairs|ks|k' d]; simpl; intros Hk.
  - repeat case_match; by rewrite ?lookup_insert_ne, ?lookup_delete_ne.
  - by destruct (setPairs_lookup pairs k) as [[]|[_ Hn]].
  - by rewrite spec_del_lookup, bool_decide_false.
  - unfold spec_expireAt. repeat case_match; simpl; by rewrite ?lookup_insert_ne, ?lookup_delete_ne.
Qed.

Lemma deadlines_untouched k ds c : ~ touches k c -> deadlines_step k ds c = ds.
Proof. destruct c; simpl; intros; by rewrite decide_False. Qed.

(** ** Effects *)

Lemma effect_untouched t m c m' k : effect t m [c] m' -> ~ touches k c -> vis t m' k = vis t m k.
Proof.
  inversion_clear 1 as [|? ? ? Hd|pairs|ks ? Hks|]; simpl; intros Hk.
  - by rewrite vis_insert, decide_False.
  - apply vis_lookup_ext. by destruct (setPairs_lookup pairs k) as [[]|[_ Hn]].
  - by rewrite Hks, bool_decide_false.
  - by rewrite vis_insert, decide_False.
Qed.

(** A change that fixes a binding recovers its keys, even if they were not recovered before. *)
Lemma recovers_reset k t m c m' cs :
  effect t m [c] m' -> touches k c -> resets c -> recovers_at k t m' (cs ++ [c]).
Proof.
  inversion_clear 1 as [|? ? ? Hd|pairs|ks ? Hks|]; simpl; intros Hk; try done; intros _.
  - subst. apply recovers_set_key; [done|by rewrite lookup_insert_eq].
  - by apply recovers_mset_key.
  - apply recovers_del_key; [done|]. by rewrite Hks, bool_decide_true.
Qed.

Lemma recovers_effect_at k t m cs cs' m' :
  recovers_at k t m cs -> effect t m cs' m' -> recovers_at k t m' (cs ++ cs').
Proof.
  intros Hrec He. destruct cs' as [|c [|c2 cs']]; [|..|by inversion He].
  - inversion_clear He. rewrite app_nil_r. by eapply recovers_silent.
  - destruct (decide (touches k c)) as [Hk|Hk].
    + destruct c as [| | |k' d]; try by eapply recovers_reset.
      inversion_clear He. simpl in Hk. subst.
      eapply recovers_deadline_key; [done|done|by rewrite lookup_insert_eq|done].
    + eapply recovers_other; [done|by eapply effect_untouched| |].
      * intros. by apply redo_untouched.
      * intros. by apply deadlines_untouched.
Qed.

Lemma recovers_effect t m cs cs' m' : recovers t m cs -> effect t m cs' m' -> recovers t m' (cs ++ cs').
Proof. intros Hrec He k. by eapply recovers_effect_at. Qed.

(** ** A keyspace that was itself replayed *)

(** A change as it comes back from the journal; its record is the same. *)
Definition settle (c : change) : change :=
  match c with
  | ChSet k v d => ChSet k v (settled d)
  | ChDeadline k d => ChDeadline k (trunc d)
  | c => c
  end.

Lemma UnixMilli_trunc d : UnixMilli (trunc d) = UnixMilli d.
Proof. unfold trunc, ofUnixMilli, UnixMilli, Millisecond. zlia. Qed.

Lemma trunc_trunc d : trunc (trunc d) = trunc d.
Proof. unfold trunc at 1. by rewrite UnixMilli_trunc. Qed.

(** The changes of a server's journal have deadlines after the epoch. *)
Definition dated (c : change) : Prop :=
  match c with ChSet _ _ d => IsZero d = true \/ Millisecond <= d | _ => True end.

Lemma wire_settle c : dated c -> wire (settle c) = wire c.
Proof.
  destruct c as [k v d|pairs|ks|k d]; simpl; [|done..|].
  - intros [Hz|Hms].
    + by destruct (settled_zero d Hz) as [-> ->].
    + rewrite settled_trunc by done. unfold setRecord, unixMillis. rewrite UnixMilli_trunc.
      by rewrite !positive_not_zero by (by try apply trunc_positive).
  - intros _. unfold unixMillis. by rewrite UnixMilli_trunc.
Qed.

Lemma settled_dated d : IsZero d = true \/ Millisecond <= d -> IsZero (settled d) = true \/ Millisecond <= settled d.
Proof.
  intros [Hz|Hms]; [left; by destruct (settled_zero d Hz) as [-> ->]|right].
  rewrite settled_trunc by done. by apply trunc_positive.
Qed.

(** A deadline that came too late, or whose key was gone. *)
Lemma recovers_deadline_gone k t m cs d m' :
  recovers_at k t m cs -> vis t m k = None \/ trunc d <= t -> vis t m' k = None ->
  recovers_at k t m' (cs ++ [ChDeadline k d]).
Proof.
  intros Hrec Hgone Hm'.
  assert (forall T, t <= T -> vis T m' k = None) as HvT.
  { intros T HT. by rewrite (vis_later t T), Hm'. }
  apply recovers_change; cbn [redo]; unfold spec_expireAt.
  - intros T1 r Hr T v d' HT. rewrite HvT; [done|]. pose proof (redone_lower _ _ _ _ Hr). lia.
  - intros v d'. by rewrite Hm'.
  - intros T1 T r v d' HT Hr Hv. exfalso. pose proof (redone_lower _ _ _ _ Hr) as Hle.
    destruct (vis T1 r k) as [[v1 d1]|] eqn:Hv1; simpl in Hv.
    + destruct Hgone as [Hg|Hg].
      * destruct (rec_sound _ _ _ _ Hrec _ _ _ _ Hr Hv1) as (d2 & Hm2 & _).
        apply (vis_earlier t) in Hm2; [congruence|done].
      * rewrite (proj2 (Z.leb_le _ _)) in Hv by lia. simpl in Hv.
        by rewrite vis_delete, decide_True in Hv.
    + apply (vis_earlier T1) in Hv; [congruence|done].
Qed.

(** What a replay makes of a keyspace, a later replay makes again. *)
Lemma recovers_redo t m cs c :
  Millisecond <= t -> dated c -> recovers t m cs -> recovers t (redo t c m) (cs ++ [settle c]).
Proof.
  intros Ht Hc Hrec. destruct c as [k0 v d|pairs|ks|k0 d]; cbn [redo settle dated] in *.
  - intros k. apply recovers_silent with (m := <[k0 := (v, settled d)]> m).
    + refine (recovers_effect t m cs [ChSet k0 v (settled d)] _ Hrec _ k).
      apply effect_set. by apply settled_dated.
    + unfold settled. destruct (IsZero d) eqn:Hz.
      { unfold IsZero in Hz. by replace d with zeroTime by lia. }
      destruct (Z.leb_spec (trunc d) t); [|done]. rewrite vis_delete, vis_insert.
      case_decide; [|done]. destruct Hc as [|Hms]; [done|].
      destruct (live t (trunc d)) eqn:Hl; [|done]. apply live_trunc in Hl; [lia|done].
  - eapply recovers_effect; [done|apply effect_mset].
  - eapply recovers_effect; [done|apply effect_del]. intros k. unfold vis.
    rewrite spec_del_lookup. by case_bool_decide.
  - unfold spec_expireAt. destruct (vis t m k0) as [[v1 d1]|] eqn:Hv; simpl.
    + destruct (Z.leb_spec (trunc d) t); simpl.
      * intros k. destruct (decide (k = k0)) as [->|Hne].
        -- eapply recovers_deadline_gone; [done|right; by rewrite trunc_trunc|].
           by rewrite vis_delete, decide_True.
        -- eapply recovers_other; [done|by rewrite vis_delete, decide_False| |].
           ++ intros T r. apply redo_untouched. simpl. congruence.
           ++ intros ds. apply deadlines_untouched. simpl. congruence.
      * eapply recovers_effect; [done|]. eapply effect_deadline; [done|done|lia].
    + intros k. destruct (decide (k = k0)) as [->|Hne].
      * eapply recovers_deadline_gone; [done|by left|done].
      * eapply recovers_other; [done|done| |].
        -- intros T r. apply redo_untouched. simpl. congruence.
        -- intros ds. apply deadlines_untouched. simpl. congruence.
Qed.

Lemma redone_recovers t T cs r :
  Millisecond <= t -> Forall dated cs -> redone t T cs r -> recovers T r (settle <$> cs).
Proof.
  intros Ht Hcs Hre. induction Hre as [T HT|T0 T1 T cs c m Hre IH H01 H1].
  { apply recovers_empty. }
  apply Forall_app in Hcs as [Hcs Hc]. inversion_clear Hc as [|? ? Hd _].
  pose proof (redone_lower _ _ _ _ Hre). rewrite fmap_app.
  eapply recovers_later; [exact H1|]. apply recovers_redo; [lia|done|].
  eapply recovers_later; [exact H01|]. by apply IH.
Qed.

(** ** Deadlines that have passed *)

(** A key is lost in every replay that starts after one of the deadlines it was given since
    it was last written or deleted, whatever deadline replaced it. *)
Lemma redone_passed k x t T cs r :
  redone t T cs r -> x ∈ deadlines k cs -> trunc x <= t -> vis T r k = None.
Proof.
  intros Hre. induction Hre as [T HT|T0 T1 T cs c r Hre IH H01 H1]; intros Hx Hle; [by apply elem_of_nil in Hx|].
  rewrite deadlines_snoc in Hx. pose proof (redone_lower _ _ _ _ Hre) as Hlow.
  assert (vis T1 (redo T1 c r) k = None) as Hn; [|by rewrite (vis_later T1 T), Hn].
  assert (x ∈ deadlines k cs -> vis T1 r k = None) as Hold.
  { intros Hin. by rewrite (vis_later T0 T1), (IH Hin Hle). }
  destruct (decide (touches k c)) as [Hk|Hk].
  2:{ rewrite deadlines_untouched in Hx by done.
      by rewrite (vis_lookup_ext _ _ _ _ (redo_untouched _ _ _ _ Hk)), Hold. }
  destruct c as [k' v d|pairs|ks|k' d]; cbn [touches deadlines_step redo] in *;
    rewrite decide_True in Hx by done; try by apply elem_of_nil in Hx.
  - subst k'. destruct (IsZero d); [by apply elem_of_nil in Hx|apply list_elem_of_singleton in Hx as ->].
    rewrite (proj2 (Z.leb_le _ _)) by lia. by rewrite vis_delete, decide_True.
  - subst k'. unfold spec_expireAt. destruct (vis T1 r k) as [[v1 d1]|] eqn:Hv; [|exact Hv].
    apply elem_of_app in Hx as [Hx|Hx]; [by specialize (Hold Hx)|]. apply list_elem_of_singleton in Hx as ->.
    rewrite (proj2 (Z.leb_le _ _)) by lia. simpl. by rewrite vis_delete, decide_True.
Qed.
