(* ===== verification/Sections.v ===== *)
(** * Operations as sequences of critical sections

    Clients run beside one another, so an operation of store.go is not one step: it reads
    the clock, waits for the commit gate, and enters its shards' locks once or several
    times.  [prog] is such a sequence and [program] gives the one of each operation.  A
    [Step] is what happens under one acquisition of locks (all the shards of a multi-key
    operation are held together), or one atomic access outside of them; between two steps
    of one client any other client can run.

    [alone_run]: an operation whose sections are not interrupted is the operation that
    Store.v and Expire.v define.

    [kstep] interleaves any number of clients, each with a list of requests. *)

From stdpp Require Import base gmap list strings relations.
From Stdlib Require Import ZArith Lia.
From Stdlib Require Import Strings.Byte.
From S2P Require Import Prelude.
From S2P Require Import GoStrconv.
From S2P Require Import GoTime.
From S2P Require Import Shard.
From S2P Require Import Store.
From S2P Require Import StoreInv.
From S2P Require Import Expire.
From S2P Require Import Evict.
From S2P Require Import StoreSpec.

#[local] Open Scope Z_scope.

(** ** Requests

    The operations of StoreSpec without their clock readings, and the evictions of
    [EnforceMemoryLimit], whichever keys [pickVictim] chooses. *)
Inductive req : Type :=
| QGet (key : bytes)
| QTTL (key : bytes)
| QExists (keys : list bytes)
| QDBSize
| QSet (key v : bytes)
| QSetWithTTL (key v : bytes) (ttl : Duration)
| QSetWithDeadline (key v : bytes) (at_ : Time)
| QMSet (pairs : list Pair)
| QIncrement (key : bytes) (delta : Z)
| QAppend (key suffix : bytes)
| QExpire (key : bytes) (ttl : Duration)
| QExpireAt (key : bytes) (at_ : Time)
| QDel (keys : list bytes)
| QSample (n : Z) (range : nat -> list bytes)
| QEvict (victims : list bytes).

(** [f] is what a section does to the store at the time it runs, [k] what follows, which
    may depend on the time and on the store that the section found. *)
Inductive prog (J : Type) : Type :=
| Return (r : reply)
| Step (f : Time -> Store J -> Store J) (k : Time -> Store J -> prog J)
| Choose (k : bool -> prog J)
| Lock (p : prog J)
| Unlock (p : prog J).
Arguments Return {J}.
Arguments Step {J}.
Arguments Choose {J}.
Arguments Lock {J}.
Arguments Unlock {J}.

Section Programs.
Context {J : Type} `{!Journal J}.
Implicit Types (s : Store J) (p : prog J).

(** [time.Now()]. *)
Definition Clock (k : Time -> prog J) : prog J := Step (fun _ s => s) (fun t _ => k t).

(** A section that only reads. *)
Definition Look (k : Store J -> prog J) : prog J := Step (fun _ s => s) (fun _ s => k s).

(** A section whose result is not used. *)
Definition Act (f : Store J -> Store J) (p : prog J) : prog J := Step (fun _ => f) (fun _ _ => p).

(** ** Reads *)

(** [e.atime.Store] through the pointer, if that entry is still the key's. *)
Definition touchKey (key : bytes) s : Store J :=
  match data (shardOf s key) !! key with
  | Some e => touch key e s
  | None => s
  end.

(** The re-check of [Get] under the write lock. *)
Definition recheck (key : bytes) (now' : Time) s : Store J :=
  match data (shardOf s key) !! key with
  | Some e => if expired e now' then deleteLockedInWriteLockedShard key s else s
  | None => s
  end.

(** [Get].  The access time is written after the read lock is released; another client may
    have replaced the entry by then, and the write goes to the old one: [same] is whether
    it is still in the map. *)
Definition getP (key : bytes) : prog J :=
  Clock (fun now =>
    Look (fun s =>
      match data (shardOf s key) !! key with
      | None => Act addMiss (Return (RBytes None))
      | Some e =>
          if negb (expired e now) then
            Choose (fun same =>
              Act (if same : bool then touchKey key else id)
                (Act addHit (Return (RBytes (Some (val e))))))
          else Step (recheck key) (fun _ _ => Return (RBytes None))
      end)).

Definition ttlP (key : bytes) : prog J :=
  Clock (fun now => Look (fun s => let '(d, st) := TTL now key s in Return (RTTL d st))).

(** [Exists]: one section for each key. *)
Fixpoint existsP (now : Time) (keys : list bytes) (n : Z) : prog J :=
  match keys with
  | [] => Return (RInt n)
  | k :: keys' => Look (fun s => existsP now keys' (if existsKey now s k then n + 1 else n))
  end.

(** One shard of [DBSize], from the count [n] on. *)
Definition countShard (now : Time) (n : Z) (sh : readShard) : Z :=
  map_fold (fun _ e m => if negb (expired e now) then m + 1 else m) n (data sh).

(** [DBSize]: one section for each shard. *)
Fixpoint dbsizeP (now : Time) (shards : list nat) (n : Z) : prog J :=
  match shards with
  | [] => Return (RInt n)
  | i :: shards' => Look (fun s => dbsizeP now shards' (countShard now n (readShards s !!! i)))
  end.

Definition allShards : list nat := seq 0 (Z.to_nat shardCount).

(** ** Writes *)

(** [setLocked], the gate being held: the shard's lock is released before the record is
    journalled. *)
Definition setLockedP (key v : bytes) (at_ : Time) (p : prog J) : prog J :=
  Act (setLockedInWriteLockedShard key v at_) (Act (propagateSetLocked key v at_) p).

Definition setP (key v : bytes) (at_ : Time) : prog J :=
  Lock (setLockedP key v at_ (Unlock (Return RUnit))).

(** [Del]; [k] is what the caller does with the count. *)
Definition delP (keys : list bytes) (k : Z -> prog J) : prog J :=
  Clock (fun now =>
    Lock (Step (fun _ s => (Del now keys s).1) (fun _ s => Unlock (k (Del now keys s).2)))).

(** [Increment] and [Append] look the key up in one section, delete an expired entry in
    another; [k] is what they do with a live entry or none. *)
Definition liveEntryP (now : Time) (key : bytes) (k : option entry -> prog J) : prog J :=
  Look (fun s =>
    match data (shardOf s key) !! key with
    | Some e => if expired e now then Act (deleteLocked key) (k None) else k (Some e)
    | None => k None
    end).

Definition incrementP (key : bytes) (delta : Z) : prog J :=
  Clock (fun now => Lock (liveEntryP now key (fun found =>
    let parsed := match found with
                  | Some e => match ParseInt (val e) with inl n => Some n | inr _ => None end
                  | None => Some 0
                  end in
    match parsed with
    | None => Unlock (Return (RIncr (inr ErrNotInteger)))
    | Some n =>
        if ((0 <? delta) && (wrap64 (maxInt64 - delta) <? n))
           || ((delta <? 0) && (n <? wrap64 (- maxInt64 - 1 - delta)))
        then Unlock (Return (RIncr (inr ErrNotInteger)))
        else
          let n' := wrap64 (n + delta) in
          let at_ := match found with Some e => expiresAt e | None => zeroTime end in
          setLockedP key (FormatInt n') at_ (Unlock (Return (RIncr (inl n'))))
    end))).

Definition appendP (key suffix : bytes) : prog J :=
  Clock (fun now => Lock (liveEntryP now key (fun found =>
    let old := match found with Some e => val e | None => [] end in
    let at_ := match found with Some e => expiresAt e | None => zeroTime end in
    let v := old ++ suffix in
    setLockedP key v at_ (Unlock (Return (RInt (lenZ v))))))).

Definition expireAtP (key : bytes) (at_ : Time) : prog J :=
  Clock (fun now =>
    Lock (Step (fun _ s => (ExpireAt now key at_ s).1)
            (fun _ s => Unlock (Return (RBool (ExpireAt now key at_ s).2))))).

(** ** Background work *)

(** One shard of [expireSample]: the store afterwards and the keys looked at so far. *)
Definition sweepShard (n : Z) (now : Time) (keys : list bytes) (i : nat) (scanned : Z) s :
    Store J * Z :=
  let '(sh', sc, gone) := expireShard n now keys (readShards s !!! i) scanned 0 in
  let st := stats s in
  (mkStore (<[i := sh']> (readShards s)) (journal s) (maxMemory s) (policy s) (clock s)
     (mkStats (KeyspaceHits st) (KeyspaceMisses st) (EvictedKeys st)
        (wrapU64 (ExpiredKeys st + gone))), sc).

Fixpoint sampleP (n : Z) (now : Time) (range : nat -> list bytes) (shards : list nat)
    (scanned : Z) : prog J :=
  match shards with
  | [] => Return RUnit
  | i :: shards' =>
      if scanned =? n then Return RUnit
      else Step (fun _ s => (sweepShard n now (range i) i scanned s).1)
             (fun _ s => sampleP n now range shards' (sweepShard n now (range i) i scanned s).2)
  end.

(** The loop of [EnforceMemoryLimit], the gate being held. *)
Fixpoint evictP (victims : list bytes) (p : prog J) : prog J :=
  match victims with
  | [] => p
  | k :: victims' =>
      Act (deleteLocked k) (Act addEvicted (Act (propagate [cmdDEL; k]) (evictP victims' p)))
  end.

(** ** All of them *)

Definition program (q : req) : prog J :=
  match q with
  | QGet key => getP key
  | QTTL key => ttlP key
  | QExists keys => Clock (fun now => existsP now keys 0)
  | QDBSize => Clock (fun now => dbsizeP now allShards 0)
  | QSet key v => setP key v zeroTime
  | QSetWithTTL key v ttl =>
      if ttl <=? 0 then delP [key] (fun _ => Return RUnit)
      else Clock (fun now => setP key v (Time_Add now ttl))
  | QSetWithDeadline key v at_ =>
      Clock (fun now => if negb (After at_ now) then delP [key] (fun _ => Return RUnit)
                        else setP key v at_)
  | QMSet pairs => Lock (Act (MSet pairs) (Unlock (Return RUnit)))
  | QIncrement key delta => incrementP key delta
  | QAppend key suffix => appendP key suffix
  | QExpire key ttl => Clock (fun now => expireAtP key (Time_Add now ttl))
  | QExpireAt key at_ => expireAtP key at_
  | QDel keys => delP keys (fun n => Return (RInt n))
  | QSample n range => Clock (fun now => Act tick (sampleP n now range allShards 0))
  | QEvict victims => Lock (evictP victims (Unlock (Return RUnit)))
  end.

(** ** Interleaving *)

Inductive action : Type :=
| Invoke (i : nat) (q : req)
| Respond (i : nat) (r : reply).

Record client : Type := mkClient { todo : list req; running : option (prog J) }.

Record conf : Type := mkConf {
  time : Time;
  shared : Store J;
  gate : option nat;
  clients : list client;
  trace : list action
}.

(** [lockDurableMutation] waits for nothing when there is no journal. *)
Definition canLock (c : conf) : Prop :=
  match journal (shared c) with None => True | Some _ => gate c = None end.

#[export] Instance canLock_dec c : Decision (canLock c).
Proof. unfold canLock. destruct (journal (shared c)); apply _. Defined.

Definition lockGate (i : nat) (c : conf) : option nat :=
  match journal (shared c) with None => gate c | Some _ => Some i end.

Definition unlockGate (c : conf) : option nat :=
  match journal (shared c) with None => gate c | Some _ => None end.

Definition resume (i : nat) (l : list req) (p : option (prog J)) (c : conf) : list client :=
  <[i := mkClient l p]> (clients c).

(** Client [i] goes on. *)
Inductive cstep (i : nat) (c : conf) : conf -> Prop :=
| k_invoke q l :
    clients c !! i = Some (mkClient (q :: l) None) ->
    cstep i c (mkConf (time c) (shared c) (gate c) (resume i l (Some (program q)) c)
                 (trace c ++ [Invoke i q]))
| k_step f k l :
    clients c !! i = Some (mkClient l (Some (Step f k))) ->
    cstep i c (mkConf (time c) (f (time c) (shared c)) (gate c)
                 (resume i l (Some (k (time c) (shared c))) c) (trace c))
| k_choose k b l :
    clients c !! i = Some (mkClient l (Some (Choose k))) ->
    cstep i c (mkConf (time c) (shared c) (gate c) (resume i l (Some (k b)) c) (trace c))
| k_lock p l :
    clients c !! i = Some (mkClient l (Some (Lock p))) -> canLock c ->
    cstep i c (mkConf (time c) (shared c) (lockGate i c) (resume i l (Some p) c) (trace c))
| k_unlock p l :
    clients c !! i = Some (mkClient l (Some (Unlock p))) ->
    cstep i c (mkConf (time c) (shared c) (unlockGate c) (resume i l (Some p) c) (trace c))
| k_return r l :
    clients c !! i = Some (mkClient l (Some (Return r))) ->
    cstep i c (mkConf (time c) (shared c) (gate c) (resume i l None c)
                 (trace c ++ [Respond i r])).

(** A client goes on, or time passes. *)
Inductive kstep (c : conf) : conf -> Prop :=
| k_client i c' : cstep i c c' -> kstep c c'
| k_clock t :
    time c <= t -> kstep c (mkConf t (shared c) (gate c) (clients c) (trace c)).

(** Every client is about to send its first request. *)
Definition begin (t : Time) s (reqs : list (list req)) : conf :=
  mkConf t s None ((fun l => mkClient l None) <$> reqs) [].

Definition finished (c : conf) : Prop := Forall (fun x => x = mkClient [] None) (clients c).

(** ** Running a schedule *)

(** The next step of client [i], if it can go on; an entry that [Get] has found is still in
    the map. *)
Definition next (i : nat) (c : conf) : option conf :=
  x ← clients c !! i;
  match running x with
  | None =>
      match todo x with
      | [] => None
      | q :: l => Some (mkConf (time c) (shared c) (gate c) (resume i l (Some (program q)) c)
                          (trace c ++ [Invoke i q]))
      end
  | Some (Step f k) =>
      Some (mkConf (time c) (f (time c) (shared c)) (gate c)
              (resume i (todo x) (Some (k (time c) (shared c))) c) (trace c))
  | Some (Choose k) =>
      Some (mkConf (time c) (shared c) (gate c) (resume i (todo x) (Some (k true)) c) (trace c))
  | Some (Lock p) =>
      if decide (canLock c)
      then Some (mkConf (time c) (shared c) (lockGate i c) (resume i (todo x) (Some p) c) (trace c))
      else None
  | Some (Unlock p) =>
      Some (mkConf (time c) (shared c) (unlockGate c) (resume i (todo x) (Some p) c) (trace c))
  | Some (Return r) =>
      Some (mkConf (time c) (shared c) (gate c) (resume i (todo x) None c) (trace c ++ [Respond i r]))
  end.

(** Which client goes on, one step at a time; [None] lets a unit of time pass. *)
Fixpoint schedule (who : list (option nat)) (c : conf) : option conf :=
  match who with
  | [] => Some c
  | Some i :: who' => c' ← next i c; schedule who' c'
  | None :: who' => schedule who' (mkConf (time c + 1) (shared c) (gate c) (clients c) (trace c))
  end.

Lemma next_step i c c' : next i c = Some c' -> cstep i c c'.
Proof.
  unfold next. destruct (clients c !! i) as [[l [p|]]|] eqn:Hi; simpl; [| |done].
  - destruct p as [r|f k|k|p|p]; [| | |case_decide as Hc; [|done]|]; intros H; injection H as <-.
    + by apply k_return.
    + by apply k_step.
    + by eapply k_choose.
    + by apply k_lock.
    + by apply k_unlock.
  - destruct l as [|q l]; [done|]. intros H. injection H as <-. by apply k_invoke.
Qed.

Lemma schedule_steps who c c' : schedule who c = Some c' -> rtc kstep c c'.
Proof.
  revert c. induction who as [|[i|] who IH]; intros c; simpl.
  - intros [= <-]. apply rtc_refl.
  - destruct (next i c) as [c1|] eqn:Hn; [|done]. intros Hs. eapply rtc_l; [|by apply IH].
    eapply k_client. by apply next_step.
  - intros Hs. eapply rtc_l; [|by apply IH]. apply k_clock. lia.
Qed.

(** A client that cannot go on has nothing to do, or waits for the gate. *)
Lemma next_None i c x :
  clients c !! i = Some x -> next i c = None ->
  x = mkClient [] None \/ exists l p, x = mkClient l (Some (Lock p)) /\ ~ canLock c.
Proof.
  intros Hi. unfold next. rewrite Hi. destruct x as [l [p|]]; simpl.
  - destruct p as [r|f k|k|p|p]; try done. case_decide; [done|]. intros _. right. by exists l, p.
  - destruct l; [by left|done].
Qed.

(** ** Runs end

    A client's work is finite, whatever the others do. *)
Inductive after : prog J -> prog J -> Prop :=
| af_step f k t s : after (k t s) (Step f k)
| af_choose k b : after (k b) (Choose k)
| af_lock p : after p (Lock p)
| af_unlock p : after p (Unlock p).

Lemma after_wf : well_founded after.
Proof.
  intros p. induction p as [r|f k IH|k IH|p IH|p IH]; constructor; intros p' Hp; inversion Hp; subst; auto.
Qed.

(** A client's next state. *)
Inductive smaller : client -> client -> Prop :=
| sm_invoke q l : smaller (mkClient l (Some (program q))) (mkClient (q :: l) None)
| sm_return l r : smaller (mkClient l None) (mkClient l (Some (Return r)))
| sm_after l p p' : after p' p -> smaller (mkClient l (Some p')) (mkClient l (Some p)).

Lemma smaller_wf : well_founded smaller.
Proof.
  assert (forall l, Acc smaller (mkClient l None)) as Hidle.
  { induction l as [|q l IH]; constructor; intros x Hx; inversion Hx; subst.
    generalize (program q). intros p. induction (after_wf p) as [p _ IHp]. constructor.
    intros y Hy. inversion Hy; subst; auto. }
  intros [l [p|]]; [|apply Hidle]. induction (after_wf p) as [p _ IH]. constructor.
  intros x Hx. inversion Hx; subst; auto.
Qed.

Lemma cstep_smaller i c c' :
  cstep i c c' -> exists x x', clients c !! i = Some x /\ smaller x' x /\ clients c' = <[i := x']> (clients c).
Proof.
  intros H. destruct H; eexists _, _; (split; [done|]); (split; [|reflexivity]);
    first [apply sm_invoke|apply sm_return|apply sm_after; constructor].
Qed.
End Programs.
Arguments prog : clear implicits.
Arguments client : clear implicits.
Arguments conf : clear implicits.

(** ** An operation alone *)

Section Alone.
Context {J : Type} `{!Journal J}.
Implicit Types (s : Store J) (p : prog J).

(** The sections of one client, nothing in between; the entry that [Get] found is still in
    the map then. *)
Fixpoint exec (t : Time) p s : Store J * reply :=
  match p with
  | Return r => (s, r)
  | Step f k => exec t (k t s) (f t s)
  | Choose k => exec t (k true) s
  | Lock p' | Unlock p' => exec t p' s
  end.

(** The modelled operation, every clock reading being [t]. *)
Definition sequential (t : Time) (q : req) s : Store J * reply :=
  match q with
  | QGet key => run (OpGet t t key) s
  | QTTL key => run (OpTTL t key) s
  | QExists keys => run (OpExists t keys) s
  | QDBSize => run (OpDBSize t) s
  | QSet key v => run (OpSet key v) s
  | QSetWithTTL key v ttl => run (OpSetWithTTL t key v ttl) s
  | QSetWithDeadline key v at_ => run (OpSetWithDeadline t t key v at_) s
  | QMSet pairs => run (OpMSet pairs) s
  | QIncrement key delta => run (OpIncrement t key delta) s
  | QAppend key suffix => run (OpAppend t key suffix) s
  | QExpire key ttl => run (OpExpire t t key ttl) s
  | QExpireAt key at_ => run (OpExpireAt t key at_) s
  | QDel keys => run (OpDel t keys) s
  | QSample n range => run (OpExpireSample n t range) s
  | QEvict victims => (evictAll victims s, RUnit)
  end.

Lemma exec_get t key s : exec t (getP key) s = sequential t (QGet key) s.
Proof.
  unfold getP, sequential. cbn. unfold Get, Get_with.
  destruct (data (shardOf s key) !! key) as [e|] eqn:He; [|done].
  destruct (negb (expired e t)) eqn:Hx; cbn; unfold touchKey, recheck; rewrite He; [done|].
  apply negb_false_iff in Hx. by rewrite Hx.
Qed.

Lemma exec_exists t keys n s :
  exec t (existsP t keys n) s =
    (s, RInt (foldl (fun n k => if existsKey t s k then n + 1 else n) n keys)).
Proof. revert n. induction keys as [|k keys IH]; intros n; [done|]. cbn. by rewrite IH. Qed.

Lemma exec_dbsize t ids n s :
  exec t (dbsizeP t ids n) s =
    (s, RInt (foldl (fun n i => countShard t n (readShards s !!! i)) n ids)).
Proof. revert n. induction ids as [|i ids IH]; intros n; [done|]. cbn. by rewrite IH. Qed.

(** Going over the positions of a list is going over the list. *)
Lemma foldl_positions {A B} `{!Inhabited B} (f : A -> B -> A) (l1 l2 : list B) (a : A) :
  foldl (fun a i => f a ((l1 ++ l2) !!! i)) a (seq (length l1) (length l2)) = foldl f a l2.
Proof.
  revert l1 a. induction l2 as [|x l2 IH]; intros l1 a; [done|]. cbn [length seq foldl].
  assert ((l1 ++ x :: l2) !!! length l1 = x) as -> by (by apply list_lookup_total_middle).
  rewrite <- (IH (l1 ++ [x]) (f a x)). rewrite length_app, Nat.add_1_r, <- app_assoc. done.
Qed.

Lemma store_shards s : store_wf s -> length (readShards s) = Z.to_nat shardCount.
Proof. intros H. apply H. Qed.

Lemma exec_set t key v at_ s : exec t (setP key v at_) s = (set key v at_ s, RUnit).
Proof. done. Qed.

Lemma exec_del t keys k s :
  exec t (delP keys k) s = exec t (k (Del t keys s).2) (Del t keys s).1.
Proof. done. Qed.

Lemma exec_liveEntry t key k s :
  exec t (liveEntryP t key k) s = let '(s1, found) := liveEntry t key s in exec t (k found) s1.
Proof. unfold liveEntry. cbn. repeat case_match; done. Qed.

Lemma exec_increment t key delta s : exec t (incrementP key delta) s = sequential t (QIncrement key delta) s.
Proof.
  unfold incrementP, sequential. cbn [exec Clock]. rewrite exec_liveEntry. cbn [run]. unfold Increment.
  destruct (liveEntry t key s) as [s1 found]. cbn zeta.
  destruct (match found with Some _ => _ | None => Some 0 end) as [n|]; [|done].
  by case_match.
Qed.

Lemma exec_append t key suffix s : exec t (appendP key suffix) s = sequential t (QAppend key suffix) s.
Proof.
  unfold appendP, sequential. cbn [exec Clock]. rewrite exec_liveEntry. cbn [run]. unfold Append.
  by destruct (liveEntry t key s) as [s1 found].
Qed.

Lemma exec_expireAt t key at_ s : exec t (expireAtP key at_) s = sequential t (QExpireAt key at_) s.
Proof. unfold expireAtP, sequential. cbn. by destruct (ExpireAt t key at_ s). Qed.

Lemma exec_evict t victims p s : exec t (evictP victims p) s = exec t p (evictAll victims s).
Proof.
  revert s. induction victims as [|k victims IH]; intros s; [done|]. cbn [evictP exec Act].
  by rewrite IH.
Qed.

(** ** The sampler *)

(** The count of removed keys is an accumulator. *)
Lemma expireShard_gone n now keys sh scanned gone :
  expireShard n now keys sh scanned gone =
    let '(sh', sc, g) := expireShard n now keys sh scanned 0 in (sh', sc, gone + g).
Proof.
  revert sh scanned gone. induction keys as [|k keys IH]; intros sh scanned gone; cbn [expireShard].
  { by rewrite Z.add_0_r. }
  case_match; [by rewrite Z.add_0_r|]. destruct (data sh !! k) as [e|]; [|apply IH].
  case_match; [|apply IH]. rewrite IH, (IH _ _ (0 + 1)).
  destruct (expireShard _ _ _ _ _ _) as [[? ?] ?]. f_equal. lia.
Qed.

Lemma wrapU64_add a b : wrapU64 (wrapU64 a + b) = wrapU64 (a + b).
Proof. unfold wrapU64. by rewrite Z.add_mod_idemp_l by lia. Qed.

Definition addExpired (g : Z) (st : Stats) : Stats :=
  mkStats (KeyspaceHits st) (KeyspaceMisses st) (EvictedKeys st) (wrapU64 (ExpiredKeys st + g)).

Definition withShards (shards : list readShard) (st : Stats) s : Store J :=
  mkStore shards (journal s) (maxMemory s) (policy s) (clock s) st.

Lemma addExpired_add a b st : addExpired b (addExpired a st) = addExpired (a + b) st.
Proof. unfold addExpired. cbn [KeyspaceHits KeyspaceMisses EvictedKeys ExpiredKeys].
  by rewrite wrapU64_add, Z.add_assoc. Qed.

(** From some section on, the shards before it done. *)
Lemma exec_sample t n now range (done_ rest : list readShard) scanned g s st :
  exec t (sampleP n now range (seq (length done_) (length rest)) scanned)
      (withShards (done_ ++ rest) (addExpired g st) s) =
    let '(rest', _, g') := expireShards n now range (length done_) rest scanned g in
    (withShards (done_ ++ rest') (addExpired g' st) s, RUnit).
Proof.
  revert done_ scanned g. induction rest as [|sh rest IH]; intros done_ scanned g; [done|].
  cbn [length seq sampleP expireShards]. destruct (scanned =? n); [done|].
  cbn [exec]. unfold sweepShard. cbn [readShards withShards stats journal maxMemory policy clock].
  rewrite list_lookup_total_middle by done. rewrite (expireShard_gone n now (range (length done_)) sh scanned g).
  destruct (expireShard n now (range (length done_)) sh scanned 0) as [[sh' sc] g1] eqn:Hsh.
  cbn [fst snd]. rewrite (insert_app_r_alt _ _ (length done_)), Nat.sub_diag by lia. cbn [insert list_insert].
  fold (addExpired g1 (addExpired g st)). rewrite addExpired_add.
  specialize (IH (done_ ++ [sh']) sc (g + g1)).
  rewrite <- app_assoc, length_app, Nat.add_1_r in IH. cbn [app] in IH.
  unfold withShards at 1 in IH. rewrite IH.
  destruct (expireShards n now range (S (length done_)) rest sc (g + g1)) as [[rest' sc'] g2].
  by rewrite <- app_assoc.
Qed.

Lemma exec_QSample t n range s :
  store_wf s -> wrapU64 (ExpiredKeys (stats s)) = ExpiredKeys (stats s) ->
  exec t (program (QSample n range)) s = sequential t (QSample n range) s.
Proof.
  intros Hwf Hc. cbn [program exec Clock Act sequential run]. unfold expireSample, allShards.
  pose proof (exec_sample t n t range [] (readShards (tick s)) 0 0 (tick s) (stats (tick s))) as H.
  assert (addExpired 0 (stats (tick s)) = stats (tick s)) as Hst.
  { unfold addExpired, tick. cbn [stats]. rewrite Z.add_0_r, Hc. by destruct (stats s). }
  rewrite Hst in H. cbn [app length] in H.
  assert (length (readShards (tick s)) = Z.to_nat shardCount) as Hl by (by apply store_shards, tick_wf).
  rewrite Hl in H. assert (withShards (readShards (tick s)) (stats (tick s)) (tick s) = tick s) as Hs by done.
  rewrite Hs in H. rewrite H.
  by destruct (expireShards n t range 0 (readShards (tick s)) 0 0) as [[sh sc] g].
Qed.

Lemma DBSize_positions now s :
  store_wf s -> foldl (fun n i => countShard now n (readShards s !!! i)) 0 allShards = DBSize now s.
Proof.
  intros Hwf. unfold allShards. rewrite <- (store_shards s Hwf).
  exact (foldl_positions (countShard now) [] (readShards s) 0).
Qed.

Lemma exec_ttl t key s : exec t (ttlP key) s = sequential t (QTTL key) s.
Proof. unfold ttlP, sequential. cbn [exec Clock Look run]. by destruct (TTL t key s). Qed.

Lemma exec_QSetWithTTL t key v ttl s :
  exec t (program (QSetWithTTL key v ttl)) s = sequential t (QSetWithTTL key v ttl) s.
Proof.
  cbn [program sequential run]. unfold SetWithTTL. destruct (ttl <=? 0); [by rewrite exec_del|].
  cbn [exec Clock]. by rewrite exec_set.
Qed.

Lemma exec_QSetWithDeadline t key v at_ s :
  exec t (program (QSetWithDeadline key v at_)) s = sequential t (QSetWithDeadline key v at_) s.
Proof.
  cbn [program sequential run exec Clock]. unfold SetWithDeadline.
  destruct (negb (After at_ t)); [by rewrite exec_del|by rewrite exec_set].
Qed.

Lemma exec_QExpire t key ttl s :
  exec t (program (QExpire key ttl)) s = sequential t (QExpire key ttl) s.
Proof.
  cbn [program exec Clock]. rewrite exec_expireAt. cbn [sequential run]. unfold Expire.
  by destruct (ExpireAt t key (Time_Add t ttl) s).
Qed.

Lemma exec_QDel t keys s : exec t (program (QDel keys)) s = sequential t (QDel keys) s.
Proof. cbn [program]. rewrite exec_del. cbn [sequential run exec]. by destruct (Del t keys s). Qed.

Lemma exec_Clock t k s : exec t (Clock k) s = exec t (k t) s.
Proof. reflexivity. Qed.

Lemma exec_QDBSize t s : store_wf s -> exec t (program QDBSize) s = sequential t QDBSize s.
Proof.
  intros Hwf. cbn [program]. rewrite exec_Clock, exec_dbsize, DBSize_positions by done. reflexivity.
Qed.

(** Every operation but the sampler's, which has a counter. *)
Lemma exec_client t q s :
  (forall n range, q <> QSample n range) -> store_wf s -> exec t (program q) s = sequential t q s.
Proof.
  intros Hq Hwf. destruct q.
  - apply exec_get.
  - apply exec_ttl.
  - apply exec_exists.
  - by apply exec_QDBSize.
  - apply exec_set.
  - apply exec_QSetWithTTL.
  - apply exec_QSetWithDeadline.
  - reflexivity.
  - apply exec_increment.
  - apply exec_append.
  - apply exec_QExpire.
  - apply exec_expireAt.
  - apply exec_QDel.
  - by destruct (Hq n range).
  - cbn [program exec]. by rewrite exec_evict.
Qed.

Lemma exec_program t q s :
  store_wf s -> wrapU64 (ExpiredKeys (stats s)) = ExpiredKeys (stats s) ->
  exec t (program q) s = sequential t q s.
Proof.
  intros Hwf Hc. destruct q as [| | | | | | | | | | | | |n range|];
    first [by apply exec_QSample|by apply exec_client].
Qed.

(** The sections are the operations: run one after the other with nobody in between, the
    sections of an operation leave the store and give the reply of the operation as
    Store.v, Expire.v and Evict.v define it. *)
Theorem alone_run (t : Time) (q : req) s :
  store_wf s -> wrapU64 (ExpiredKeys (stats s)) = ExpiredKeys (stats s) ->
  exec t (program q) s = sequential t q s.
Proof. apply exec_program. Qed.
End Alone.

(** A sampler that finds one key to collect. *)
Lemma alone_run_witness :
  let s := SetWithTTL 0 (bs "k") (bs "v") 5 (New (J := list (list bytes))) in
  Len (exec 6 (program (QSample 20 (fun _ => [bs "k"]))) s).1 = 0 /\ Len s = 1.
Proof.
  intros s. rewrite (alone_run 6 (QSample 20 (fun _ => [bs "k"])) s).
  - split; vm_compute; reflexivity.
  - apply (run_wf (OpSetWithTTL 0 (bs "k") (bs "v") 5) New); [check_clock|done|apply New_wf].
  - reflexivity.
Defined.
