(* ===== verification/Linearize.v ===== *)
(** * The concurrent store is linearizable

    [astep] is the specification: clients beside one another on one expiring map.  Between
    its invocation and its response a request reads the clock, as the code does, and then
    acts on the map at one instant, by [spec] of StoreSpec; EXISTS and DBSIZE, which the
    code serves key by key and shard by shard, and an eviction, are several such
    instants.  The one liberty is [hides]: an instant may overlook bindings whose
    deadline has passed by then.  What an instant changes is appended to a log.

    The theorem: every interleaving of the critical sections of Sections.v, whatever the
    requests, has the trace of a run of the specification, and with a journal the
    journal is the log of that run, in its order, as soon as the commit gate is free.
    Without a journal this holds as long as nobody sends INCR or APPEND.

    The proof is a simulation: [fits] relates what a client has still to do in the code
    to what it has to do in the specification, and is proved once for each operation. *)

From stdpp Require Import base gmap list strings relations.
From Stdlib Require Import ZArith Lia.
From Stdlib Require Import Strings.Byte.
From S2P Require Import Prelude.
From S2P Require Import GoStrconv.
From S2P Require Import GoTime.
From S2P Require Import Shard.
From S2P Require Import Store.
From S2P Require Import StoreInv.
From S2P Require Import Expire.
From S2P Require Import Evict.
From S2P Require Import Keyspace.
From S2P Require Import StoreSpec.
From S2P Require Import Journalling.
From S2P Require Import Recovery.
From S2P Require Import Sections.

#[local] Open Scope Z_scope.

(** ** What an operation changes *)

(** The keys of [ks] that are there, each once, in the order in which they are met. *)
Fixpoint present (ks : list bytes) (m : kv) : list bytes :=
  match ks with
  | [] => []
  | k :: ks' => if m !! k is Some _ then k :: present ks' (delete k m) else present ks' m
  end.

Definition deletions (ks : list bytes) (m : kv) : list change :=
  match present ks m with [] => [] | gone => [ChDel gone] end.

(** The binding of [k] in the map [m'], as it is journalled when it was written. *)
Definition written (k : bytes) (m' : kv) : list change :=
  match m' !! k with Some (v, d) => [ChSet k v d] | None => [] end.

Definition expireAtChanges (now : Time) (k : bytes) (at_ : Time) (m : kv) : list change :=
  match m !! k with
  | None => []
  | Some (_, d) => if live now d && (now <? at_) then [ChDeadline k at_] else [ChDel [k]]
  end.

(** What an operation journals when it runs on the map [m]. *)
Definition changes (o : op) (m : kv) : list change :=
  match o with
  | OpSet key v => [ChSet key v zeroTime]
  | OpSetWithTTL now key v ttl =>
      if ttl <=? 0 then deletions [key] m else [ChSet key v (now + ttl)]
  | OpSetWithDeadline now _ key v at_ =>
      if at_ <=? now then deletions [key] m else [ChSet key v at_]
  | OpMSet pairs => [ChMSet pairs]
  | OpIncrement now key delta =>
      match spec_incr now key delta m with
      | (m', inl _) => written key m'
      | (_, inr _) => []
      end
  | OpAppend _ key _ => written key (spec o m).1
  | OpExpire now now' key ttl => expireAtChanges now' key (now + ttl) m
  | OpExpireAt now key at_ => expireAtChanges now key at_ m
  | OpDel _ keys => deletions keys m
  | OpGet _ _ _ | OpTTL _ _ | OpExists _ _ | OpDBSize _ | OpExpireSample _ _ _ => []
  end.

(** ** The specification *)

(** What is left of a request: clock readings and instants. *)
Inductive aprog : Type :=
| AReturn (r : reply)
| AClock (k : Time -> aprog)
| ARead (k : kv -> aprog)
| AWrite (f : kv -> kv * list change) (k : kv -> aprog).

(** What is journalled as deleted is gone, also if it could not be seen any more. *)
Definition dropped (cs : list change) (m : kv) : kv :=
  foldl (fun m c => match c with ChDel ks => spec_del ks m | _ => m end) m cs.

(** [o] at one instant. *)
Definition instant (o : op) (m : kv) : kv * list change :=
  (dropped (changes o m) (spec o m).1, changes o m).

Definition atomically (o : op) : aprog := AWrite (instant o) (fun m => AReturn (spec o m).2).

Definition observe (o : op) : aprog := ARead (fun m => AReturn (spec o m).2).

Fixpoint aexists (now : Time) (keys : list bytes) (n : Z) : aprog :=
  match keys with
  | [] => AReturn (RInt n)
  | k :: keys' =>
      ARead (fun m => aexists now keys' (if bool_decide (is_Some (vis now m k)) then n + 1 else n))
  end.

(** The visible keys of one shard. *)
Definition shardSize (now : Time) (i : nat) (m : kv) : Z :=
  Z.of_nat (size (filter (fun '(k, (_, d)) => shardNo k = i /\ live now d = true) m)).

Fixpoint adbsize (now : Time) (shards : list nat) (n : Z) : aprog :=
  match shards with
  | [] => AReturn (RInt n)
  | i :: shards' => ARead (fun m => adbsize now shards' (n + shardSize now i m))
  end.

Fixpoint aevict (victims : list bytes) : aprog :=
  match victims with
  | [] => AReturn RUnit
  | k :: victims' => AWrite (fun m => (delete k m, [ChDel [k]])) (fun _ => aevict victims')
  end.

Definition promise (q : req) : aprog :=
  match q with
  | QGet key => AClock (fun now => observe (OpGet now now key))
  | QTTL key => AClock (fun now => observe (OpTTL now key))
  | QExists keys => AClock (fun now => aexists now keys 0)
  | QDBSize => AClock (fun now => adbsize now allShards 0)
  | QSet key v => atomically (OpSet key v)
  | QSetWithTTL key v ttl => AClock (fun now => atomically (OpSetWithTTL now key v ttl))
  | QSetWithDeadline key v at_ =>
      AClock (fun now => atomically (OpSetWithDeadline now now key v at_))
  | QMSet pairs => atomically (OpMSet pairs)
  | QIncrement key delta => AClock (fun now => atomically (OpIncrement now key delta))
  | QAppend key suffix => AClock (fun now => atomically (OpAppend now key suffix))
  | QExpire key ttl =>
      AClock (fun now => AClock (fun now' => atomically (OpExpire now now' key ttl)))
  | QExpireAt key at_ => AClock (fun now => atomically (OpExpireAt now key at_))
  | QDel keys => AClock (fun now => atomically (OpDel now keys))
  | QSample _ _ => AReturn RUnit
  | QEvict victims => aevict victims
  end.

(** [m'] is [m] without some bindings whose deadline has passed at [t]. *)
Definition hides (t : Time) (m m' : kv) : Prop :=
  forall k, m' !! k = m !! k \/
    (m' !! k = None /\ exists v d, m !! k = Some (v, d) /\ live t d = false).

Record aclient : Type := mkAClient { atodo : list req; arunning : option aprog }.

Record aconf : Type := mkAConf {
  atime : Time;
  amap : kv;
  alog : list change;
  aclients : list aclient;
  atrace : list action
}.

Definition aresume (i : nat) (l : list req) (p : option aprog) (a : aconf) : list aclient :=
  <[i := mkAClient l p]> (aclients a).

Inductive astep (a : aconf) : aconf -> Prop :=
| a_time t :
    atime a <= t -> astep a (mkAConf t (amap a) (alog a) (aclients a) (atrace a))
| a_invoke i q l :
    aclients a !! i = Some (mkAClient (q :: l) None) ->
    astep a (mkAConf (atime a) (amap a) (alog a) (aresume i l (Some (promise q)) a)
               (atrace a ++ [Invoke i q]))
| a_clock i k l :
    aclients a !! i = Some (mkAClient l (Some (AClock k))) ->
    astep a (mkAConf (atime a) (amap a) (alog a) (aresume i l (Some (k (atime a))) a) (atrace a))
| a_read i k l m' :
    aclients a !! i = Some (mkAClient l (Some (ARead k))) -> hides (atime a) (amap a) m' ->
    astep a (mkAConf (atime a) (amap a) (alog a) (aresume i l (Some (k m')) a) (atrace a))
| a_write i f k l m' :
    aclients a !! i = Some (mkAClient l (Some (AWrite f k))) -> hides (atime a) (amap a) m' ->
    astep a (mkAConf (atime a) (f m').1 (alog a ++ (f m').2) (aresume i l (Some (k m')) a)
               (atrace a))
| a_return i r l :
    aclients a !! i = Some (mkAClient l (Some (AReturn r))) ->
    astep a (mkAConf (atime a) (amap a) (alog a) (aresume i l None a)
               (atrace a ++ [Respond i r])).

Definition abegin (t : Time) (m : kv) (reqs : list (list req)) : aconf :=
  mkAConf t m [] ((fun l => mkAClient l None) <$> reqs) [].

(** Clients' instants, as steps of one client. *)
Inductive instants (t : Time) : kv -> aprog -> list change -> kv -> aprog -> Prop :=
| i_none m a : instants t m a [] m a
| i_clock m k cs m1 a1 : instants t m (k t) cs m1 a1 -> instants t m (AClock k) cs m1 a1
| i_read m k m' cs m1 a1 :
    hides t m m' -> instants t m (k m') cs m1 a1 -> instants t m (ARead k) cs m1 a1
| i_write m f k m' cs m1 a1 :
    hides t m m' -> instants t (f m').1 (k m') cs m1 a1 ->
    instants t m (AWrite f k) ((f m').2 ++ cs) m1 a1.

Lemma instants_steps a i l p cs m1 p1 :
  instants (atime a) (amap a) p cs m1 p1 -> aclients a !! i = Some (mkAClient l (Some p)) ->
  rtc astep a (mkAConf (atime a) m1 (alog a ++ cs) (aresume i l (Some p1) a) (atrace a)).
Proof.
  intros H. remember (amap a) as m eqn:Hm. remember (atime a) as t eqn:Ht.
  revert a Hm Ht. induction H as [m p|m k cs m1 p1 H IH|m k m' cs m1 p1 Hh H IH|m f k m' cs m1 p1 Hh H IH];
    intros a -> -> Hi.
  { unfold aresume. rewrite app_nil_r, list_insert_id by done. by destruct a. }
  all: pose proof (lookup_lt_Some _ _ _ Hi) as Hlt;
    (eapply rtc_l; [first [by eapply a_clock|by eapply a_read|by eapply a_write]|]);
    match goal with |- rtc _ ?b _ =>
      specialize (IH b); unfold aresume in IH; cbn [aclients amap atime alog atrace] in IH end;
    rewrite list_insert_insert_eq, ?list_lookup_insert_eq in IH by done;
    specialize (IH eq_refl eq_refl eq_refl); rewrite <- ?app_assoc in IH; exact IH.
Qed.

(** ** Hiding *)

Lemma hides_refl t m : hides t m m.
Proof. intros k. by left. Qed.

Lemma hides_delete t m k :
  (forall v d, m !! k = Some (v, d) -> live t d = false) -> hides t m (delete k m).
Proof.
  intros Hk k'. destruct (decide (k' = k)) as [->|Hne]; [|left; by rewrite lookup_delete_ne].
  rewrite lookup_delete_eq. destruct (m !! k) as [[v d]|]; [|by left].
  right. split; [done|]. exists v, d. split; [done|]. by apply (Hk v).
Qed.

(** Nothing is hidden from a reading that is not older than the deadlines that have passed. *)
Lemma hides_vis t now m m' k :
  hides t m m' ->
  (forall v d, m !! k = Some (v, d) -> live t d = false -> live now d = false) ->
  vis now m' k = vis now m k.
Proof.
  intros Hh Hk. unfold vis. destruct (Hh k) as [->|(-> & v & d & Hm & Hl)]; [done|].
  rewrite Hm. by rewrite (Hk v d Hm Hl).
Qed.

(** ** The store and the map *)

Section Tracks.
Context {J : Type} `{!Journal J}.
Implicit Types (s : Store J) (p : prog J) (m : kv).

Definition binding (e : entry) : bytes * Time := (val e, expiresAt e).

(** What the store physically holds. *)
Definition bindings s : kv := binding <$> keyspace s.

(** The map has the store's bindings, and perhaps some whose deadline has passed at [t]. *)
Record tracks (t : Time) s m : Prop := {
  tr_wf : store_wf s;
  tr_hides : hides t m (bindings s)
}.

Lemma bindings_lookup s k : store_wf s -> bindings s !! k = binding <$> entry_at s k.
Proof. intros Hwf. unfold bindings. by rewrite lookup_fmap, keyspace_lookup. Qed.

Lemma bindings_refines t s : store_wf s -> refines t s (bindings s).
Proof. apply wf_refines. Qed.

Lemma tracks_bindings t s : store_wf s -> tracks t s (bindings s).
Proof. intros Hwf. split; [done|apply hides_refl]. Qed.

(** The one-key view. *)
Definition tracks_at (t : Time) (o : option entry) (b : option (bytes * Time)) : Prop :=
  match o with
  | Some e => b = Some (binding e)
  | None => forall v d, b = Some (v, d) -> live t d = false
  end.

Lemma tracks_keys t s m :
  tracks t s m <-> store_wf s /\ forall k, tracks_at t (entry_at s k) (m !! k).
Proof.
  split.
  - intros [Hwf Hh]. split; [done|]. intros k. specialize (Hh k). rewrite bindings_lookup in Hh by done.
    unfold tracks_at. destruct (entry_at s k) as [e|]; simpl in Hh; [by destruct Hh as [|[? _]]|].
    intros v d Hm. destruct Hh as [Hh|(_ & v' & d' & Hm' & Hl)]; congruence.
  - intros [Hwf Hk]. split; [done|]. intros k. specialize (Hk k). rewrite bindings_lookup by done.
    unfold tracks_at in Hk. destruct (entry_at s k) as [e|]; simpl; [by left|].
    destruct (m !! k) as [[v d]|]; [|by left]. right. split; [done|]. exists v, d. eauto.
Qed.

Lemma tracks_later t t' s m : t <= t' -> tracks t s m -> tracks t' s m.
Proof.
  intros Ht [Hwf Hh]. split; [done|]. intros k. destruct (Hh k) as [|(? & v & d & ? & Hl)]; [by left|].
  right. split; [done|]. exists v, d. split; [done|].
  destruct (live t' d) eqn:Hl'; [|done]. apply (live_mono t) in Hl'; [congruence|done].
Qed.

Lemma tracks_ext t s s' m : readShards s' = readShards s -> tracks t s m -> tracks t s' m.
Proof.
  intros H [Hwf Hh]%tracks_keys. apply tracks_keys. split; [by eapply store_wf_ext|].
  intros k. by rewrite (entry_at_ext _ _ _ H).
Qed.

(** A change of one key on both sides. *)
Lemma tracks_update t s s' m m' k :
  tracks t s m -> store_wf s' ->
  (forall k', k' <> k -> entry_at s' k' = entry_at s k' /\ m' !! k' = m !! k') ->
  tracks_at t (entry_at s' k) (m' !! k) -> tracks t s' m'.
Proof.
  intros [_ Hk]%tracks_keys Hwf' Hne Hat. apply tracks_keys. split; [done|]. intros k'.
  destruct (decide (k' = k)) as [->|Hd]; [done|]. destruct (Hne k' Hd) as [-> ->]. apply Hk.
Qed.

Lemma tracks_setLIWLS t s m k v d :
  tracks t s m -> tracks t (setLockedInWriteLockedShard k v d s) (<[k := (v, d)]> m).
Proof.
  intros Hr. pose proof (tr_wf _ _ _ Hr). eapply (tracks_update _ _ _ _ _ k Hr); [by apply setLIWLS_wf| |].
  - intros k' Hk. rewrite setLIWLS_entry, decide_False by done. by rewrite lookup_insert_ne.
  - rewrite setLIWLS_entry, decide_True by done. by rewrite lookup_insert_eq.
Qed.

Lemma tracks_delete t s m k :
  tracks t s m -> tracks t (deleteLockedInWriteLockedShard k s) (delete k m).
Proof.
  intros Hr. pose proof (tr_wf _ _ _ Hr). eapply (tracks_update _ _ _ _ _ k Hr); [by apply deleteLIWLS_wf| |].
  - intros k' Hk. rewrite deleteLIWLS_entry, decide_False by done. by rewrite lookup_delete_ne.
  - rewrite deleteLIWLS_entry, decide_True by done. by rewrite lookup_delete_eq.
Qed.

(** A key that is not there need not be in the map. *)
Lemma tracks_drop t s m k : tracks t s m -> entry_at s k = None -> tracks t s (delete k m).
Proof.
  intros Hr Hk. eapply (tracks_update _ _ _ _ _ k Hr); [by apply Hr| |].
  - intros k' Hne. by rewrite lookup_delete_ne.
  - by rewrite Hk, lookup_delete_eq.
Qed.

(** An expired entry can be collected without a change of the map. *)
Lemma tracks_collect t now s m k e :
  tracks t s m -> entry_at s k = Some e -> expired e now = true -> now <= t ->
  tracks t (deleteLockedInWriteLockedShard k s) m.
Proof.
  intros Hr He Hx Ht. pose proof Hr as [Hwf Hk]%tracks_keys.
  eapply (tracks_update _ _ _ _ _ k Hr); [by apply deleteLIWLS_wf| |].
  - intros k' Hne. by rewrite deleteLIWLS_entry, decide_False.
  - rewrite deleteLIWLS_entry, decide_True by done. specialize (Hk k). rewrite He in Hk. simpl in Hk.
    intros v d Hm. rewrite Hk in Hm. injection Hm as <- <-. rewrite expired_live in Hx.
    destruct (live t (expiresAt e)) eqn:Hl; [|done]. apply (live_mono now) in Hl; [|done].
    by rewrite Hl in Hx.
Qed.

Lemma tracks_setDeadline t s m k e d :
  tracks t s m -> entry_at s k = Some e -> IsZero d = false ->
  tracks t (setDeadline k e d s) (<[k := (val e, d)]> m).
Proof.
  intros Hr He Hd. pose proof (tr_wf _ _ _ Hr).
  eapply (tracks_update _ _ _ _ _ k Hr); [by apply setDeadline_wf| |].
  - intros k' Hne. rewrite setDeadline_entry, decide_False by done. by rewrite lookup_insert_ne.
  - rewrite setDeadline_entry, decide_True by done. by rewrite lookup_insert_eq.
Qed.

Lemma tracks_touch t s m k e : tracks t s m -> entry_at s k = Some e -> tracks t (touch k e s) m.
Proof.
  intros Hr He. pose proof Hr as [Hwf Hk]%tracks_keys.
  eapply (tracks_update _ _ _ _ _ k Hr); [by apply touch_wf| |].
  - intros k' Hne. by rewrite touch_entry, decide_False.
  - rewrite touch_entry, decide_True by done. specialize (Hk k). by rewrite He in Hk.
Qed.

Lemma tracks_propagate t s m args : tracks t s m -> tracks t (propagate args s) m.
Proof. apply tracks_ext, readShards_propagate. Qed.

Lemma tracks_propagateSet t s m k v d : tracks t s m -> tracks t (propagateSetLocked k v d s) m.
Proof. apply tracks_ext, readShards_propagateSet. Qed.
End Tracks.

#[export] Hint Resolve tracks_setLIWLS tracks_delete tracks_drop tracks_setDeadline tracks_touch
  tracks_propagate tracks_propagateSet tr_wf : store.

(** An operation at one instant, nothing hidden. *)
Lemma instants_atomically t m o cs r :
  changes o m = cs -> (instant o m).1 = m -> (spec o m).2 = r ->
  instants t m (atomically o) cs m (AReturn r).
Proof.
  intros Hc Hm Hs. pose proof (i_write t m (instant o) (fun m => AReturn (spec o m).2) m [] m
    (AReturn (spec o m).2) (hides_refl t m)) as H.
  rewrite Hm, app_nil_r in H. cbn [instant snd] in H. rewrite Hc, Hs in H. apply H, i_none.
Qed.

(** ** What a client has still to do *)

Section Fits.
Context {J : Type} `{!Journal J}.
(** Whether there is a journal. *)
Context (durable : bool).
Implicit Types (s : Store J) (p : prog J) (m : kv).

(** A client that holds the gate knows the map, which nobody else changes meanwhile, and
    the changes it has made but not journalled yet. *)
Definition held : Type := option (kv * list change).

Definition hold m (pend : list change) : held := if durable then Some (m, pend) else None.

Definition knows (h : held) m : Prop := match h with Some (m0, _) => m = m0 | None => True end.

(** A section has made the changes [new] and journalled [out]; without the gate it has
    changed nothing. *)
Definition moved (h : held) (new out : list change) m m1 (h1 : held) : Prop :=
  match h with
  | Some (_, pend) => exists pend', pend ++ new = out ++ pend' /\ h1 = Some (m1, pend')
  | None => h1 = None /\ (durable = true -> m1 = m /\ new = [] /\ out = [])
  end.

(** The section from [s] to [s'] is matched by instants of [a], after which [rest] holds. *)
Definition goes (h : held) (t : Time) s m s' (a : aprog) (rest : held -> aprog -> Prop) : Prop :=
  exists m1 a1 new out h1,
    instants t m a new m1 a1 /\ wrote (wire <$> out) s s' /\ tracks t s' m1 /\
    moved h new out m m1 h1 /\ rest h1 a1.

(** [fits t0 h p a]: from [t0] on, what the sections of [p] do is what the specification [a]
    allows. *)
Fixpoint fits (t0 : Time) (h : held) p (a : aprog) : Prop :=
  match p with
  | Return r => h = None /\ a = AReturn r
  | Step f k =>
      forall t s m, t0 <= t -> tracks t s m -> knows h m ->
        goes h t s m (f t s) a (fun h1 a1 => fits t h1 (k t s) a1)
  | Choose k => forall b, fits t0 h (k b) a
  | Lock p' => h = None /\ forall m, fits t0 (hold m []) p' a
  | Unlock p' => (durable = true -> exists m, h = Some (m, [])) /\ fits t0 None p' a
  end.

Lemma fits_later t0 t1 h p a : t0 <= t1 -> fits t0 h p a -> fits t1 h p a.
Proof.
  revert t0 h a. induction p as [r|f k IH|k IH|p IH|p IH]; intros t0 h a Ht; simpl.
  - done.
  - intros H t s m Hle. apply H. lia.
  - intros H b. by eapply IH.
  - intros [? H]. split; [done|]. intros m. by eapply IH.
  - intros [? H]. split; [done|]. by eapply IH.
Qed.

(** ** Rules *)

(** A section that leaves map and journal alone, and instants that do. *)
Lemma goes_instants h t s m s' a a1 (rest : held -> aprog -> Prop) :
  instants t m a [] m a1 -> tracks t s' m -> journal s' = journal s -> knows h m -> rest h a1 ->
  goes h t s m s' a rest.
Proof.
  intros Hi Hr Hj Hk Hrest. exists m, a1, [], [], h. split_and!; [done|by apply wrote_nil|done| |done].
  unfold moved. destruct h as [[m0 pend]|]; [|done].
  simpl in Hk. subst m0. exists pend. by rewrite app_nil_r.
Qed.

Lemma goes_silent h t s m s' a (rest : held -> aprog -> Prop) :
  tracks t s' m -> journal s' = journal s -> knows h m -> rest h a -> goes h t s m s' a rest.
Proof. apply goes_instants, i_none. Qed.

(** A section at which the specification reads what the store holds. *)
Lemma goes_read h t s m k (rest : held -> aprog -> Prop) :
  tracks t s m -> knows h m -> rest h (k (bindings s)) -> goes h t s m s (ARead k) rest.
Proof. intros Hr. apply goes_instants; [|done..]. eapply i_read; [apply Hr|constructor]. Qed.

Lemma goes_clock h t s m k (rest : held -> aprog -> Prop) :
  tracks t s m -> knows h m -> rest h (k t) -> goes h t s m s (AClock k) rest.
Proof. intros Hr. apply goes_instants; [|done..]. apply i_clock, i_none. Qed.

(** The section at which an operation takes effect, the gate being held; it journals [out]
    of its changes. *)
Lemma goes_write t s m s' m0 g k m' out pend (rest : held -> aprog -> Prop) :
  hides t m m' -> (g m').2 = out ++ pend -> wrote (wire <$> out) s s' -> tracks t s' (g m').1 ->
  rest (hold (g m').1 pend) (k m') -> goes (hold m0 []) t s m s' (AWrite g k) rest.
Proof.
  intros Hh Hg Hw Hr Hrest. exists (g m').1, (k m'), ((g m').2 ++ []), out, (hold (g m').1 pend).
  split_and!; [eapply i_write; [done|constructor]|done|done| |done].
  unfold hold, moved. destruct durable; [|done]. exists pend. by rewrite app_nil_r, Hg.
Qed.

(** The section that journals what is still to be journalled. *)
Lemma goes_flush t s m s' m0 a pend (rest : held -> aprog -> Prop) :
  knows (hold m0 pend) m -> wrote (wire <$> pend) s s' -> tracks t s' m ->
  rest (hold m []) a -> goes (hold m0 pend) t s m s' a rest.
Proof.
  intros Hk Hw Hr Hrest. exists m, a, [], pend, (hold m []).
  split_and!; [constructor|done|done| |done].
  unfold hold, moved in *. destruct durable; [|done]. exists []. by rewrite !app_nil_r.
Qed.

Lemma fits_Clock t0 h k k' :
  (forall t, t0 <= t -> fits t h (k t) (k' t)) -> fits t0 h (Clock k) (AClock k').
Proof. intros H t s m Ht Hr Hk. apply goes_clock; auto. Qed.

Lemma fits_Clock_silent t0 h k a :
  (forall t, t0 <= t -> fits t h (k t) a) -> fits t0 h (Clock k) a.
Proof. intros H t s m Ht Hr Hk. apply goes_silent; auto. Qed.

Lemma fits_Act t0 h f p a :
  (forall t s m, t0 <= t -> tracks t s m -> knows h m -> tracks t (f s) m /\ journal (f s) = journal s) ->
  fits t0 h p a -> fits t0 h (Act f p) a.
Proof.
  intros Hf Hp t s m Ht Hr Hk. destruct (Hf t s m Ht Hr Hk). apply goes_silent; [done..|].
  by eapply fits_later.
Qed.

Lemma fits_Look t0 h k k' :
  (forall t s m, t0 <= t -> tracks t s m -> knows h m -> fits t h (k s) (k' (bindings s))) ->
  fits t0 h (Look k) (ARead k').
Proof. intros H t s m Ht Hr Hk. apply goes_read; [done..|]. by eapply H. Qed.

Lemma fits_Lock t0 p a : (forall m, fits t0 (hold m []) p a) -> fits t0 None (Lock p) a.
Proof. intros H. by split. Qed.

Lemma fits_Unlock t0 m p a : fits t0 None p a -> fits t0 (hold m []) (Unlock p) a.
Proof. intros H. split; [|done]. unfold hold. intros ->. by exists m. Qed.

Lemma fits_Return t0 r : fits t0 None (Return r) (AReturn r).
Proof. done. Qed.

Lemma wrote_propagateSet k v d s : wrote [setRecord k v d] s (propagateSetLocked k v d s).
Proof. unfold propagateSetLocked, setRecord. by case_match; apply wrote_propagate. Qed.

(** A write of one key: it takes effect in the first section and is journalled in the
    second. *)
Lemma fits_setLocked t0 m0 key v d p g k :
  (forall t s m, t0 <= t -> tracks t s m -> knows (hold m0 []) m ->
     exists m', hides t m m' /\ g m' = (<[key := (v, d)]> m', [ChSet key v d]) /\
       <[key := (v, d)]> m' = <[key := (v, d)]> m /\
       forall t1 m1, t <= t1 -> fits t1 (hold m1 []) p (k m')) ->
  fits t0 (hold m0 []) (setLockedP key v d p) (AWrite g k).
Proof.
  intros H t s m Ht Hr Hk. destruct (H t s m Ht Hr Hk) as (m' & Hh & Hg & He & Hp).
  apply (goes_write _ _ _ _ _ _ _ m' [] [ChSet key v d]); rewrite ?Hg;
    [done|done|by apply wrote_nil|rewrite He; by apply tracks_setLIWLS|].
  cbn [fst]. intros t2 s2 m2 Ht2 Hr2 Hk2.
  apply goes_flush; [done|apply wrote_propagateSet|by apply tracks_propagateSet|by apply Hp].
Qed.

(** ** Reads *)

Lemma addHit_tracks t s m : tracks t s m -> tracks t (addHit s) m /\ journal (addHit s) = journal s.
Proof. intros Hr. split; [by apply (tracks_ext t s)|done]. Qed.

Lemma addMiss_tracks t s m : tracks t s m -> tracks t (addMiss s) m /\ journal (addMiss s) = journal s.
Proof. intros Hr. split; [by apply (tracks_ext t s)|done]. Qed.

Lemma touchKey_tracks t s m key :
  tracks t s m -> tracks t (touchKey key s) m /\ journal (touchKey key s) = journal s.
Proof.
  intros Hr. unfold touchKey. fold (entry_at s key).
  destruct (entry_at s key) as [e|] eqn:He; [|done]. split; [by apply tracks_touch|done].
Qed.

Lemma recheck_tracks t s m key :
  tracks t s m -> tracks t (recheck key t s) m /\ journal (recheck key t s) = journal s.
Proof.
  intros Hr. unfold recheck. fold (entry_at s key).
  destruct (entry_at s key) as [e|] eqn:He; [|done]. destruct (expired e t) eqn:Hx; [|done].
  split; [by eapply tracks_collect|done].
Qed.

Lemma get_fits t0 key : fits t0 None (getP key) (promise (QGet key)).
Proof.
  apply fits_Clock. intros now _. apply fits_Look. intros t s m Ht Hr _.
  pose proof (vis_of_entry now s _ key (bindings_refines now s (tr_wf _ _ _ Hr))) as Hv.
  cbn [spec snd]. fold (entry_at s key). rewrite Hv. destruct (entry_at s key) as [e|].
  - destruct (expired e now); simpl negb; cbn iota.
    + intros t1 s1 m1 _ Hr1 _. destruct (recheck_tracks _ _ _ key Hr1). by apply goes_silent.
    + intros same. apply fits_Act; [|apply fits_Act; [|apply fits_Return]].
      * intros t1 s1 m1 _ Hr1 _. destruct same; [by apply touchKey_tracks|done].
      * intros t1 s1 m1 _ Hr1 _. by apply addHit_tracks.
  - apply fits_Act; [|apply fits_Return]. intros t1 s1 m1 _ Hr1 _. by apply addMiss_tracks.
Qed.

Lemma ttl_fits t0 key : fits t0 None (ttlP key) (promise (QTTL key)).
Proof.
  apply fits_Clock. intros now _. apply fits_Look. intros t s m Ht Hr _.
  destruct (TTL_step now now key s _ (Z.le_refl _) (bindings_refines now s (tr_wf _ _ _ Hr))) as [H _].
  cbn [run snd] in H. destruct (TTL now key s) as [d st]. cbn [snd] in H. rewrite <- H. apply fits_Return.
Qed.

Lemma exists_fits t0 now keys n : fits t0 None (existsP now keys n) (aexists now keys n).
Proof.
  revert t0 n. induction keys as [|k keys IH]; intros t0 n; [apply fits_Return|].
  apply fits_Look. intros t s m Ht Hr _.
  rewrite (existsKey_vis now s _ k (bindings_refines now s (tr_wf _ _ _ Hr))).
  case_bool_decide; apply IH.
Qed.

(** A shard's live entries are the visible bindings of its keys. *)
Lemma countShard_size now n s i :
  store_wf s -> (i < Z.to_nat shardCount)%nat ->
  countShard now n (readShards s !!! i) = n + shardSize now i (bindings s).
Proof.
  intros Hwf Hi. unfold countShard, shardSize. rewrite map_fold_live. do 2 f_equal.
  rewrite <- (map_size_fmap binding). f_equal. apply map_eq. intros k.
  assert (readShards s !! i = Some (readShards s !!! i)) as Hsh.
  { apply list_lookup_lookup_total_lt. by rewrite (wf_length _ Hwf). }
  rewrite lookup_fmap. unfold live_entries. rewrite !map_lookup_filter, bindings_lookup by done.
  unfold entry_at, shardOf. destruct (decide (shardNo k = i)) as [<-|Hne].
  - destruct (data _ !! k) as [e|]; simpl; [|done]. rewrite expired_live.
    repeat case_guard; simpl; try done; destruct (live now (expiresAt e)); naive_solver.
  - destruct (data (readShards s !!! i) !! k) as [e|] eqn:He.
    { by apply (wf_routed _ _ (wf_shards _ Hwf _ _ Hsh)) in He. }
    simpl. destruct (data (readShards s !!! shardNo k) !! k) as [e|]; simpl; [|done]. case_guard; [naive_solver|done].
Qed.

Lemma dbsize_fits t0 now ids n :
  Forall (fun i => (i < Z.to_nat shardCount)%nat) ids ->
  fits t0 None (dbsizeP now ids n) (adbsize now ids n).
Proof.
  intros Hids. revert t0 n. induction Hids as [|i ids Hi _ IH]; intros t0 n; [apply fits_Return|].
  apply fits_Look. intros t s m Ht Hr _. rewrite countShard_size by eauto with store. apply IH.
Qed.

Lemma allShards_lt : Forall (fun i => (i < Z.to_nat shardCount)%nat) allShards.
Proof. apply Forall_forall. intros i [_ Hi]%elem_of_seq. done. Qed.

(** ** The sampler *)

(** Collecting entries whose deadline has passed. *)
Lemma tracks_swept t now s s' m :
  tracks t s m -> now <= t -> store_wf s' ->
  (forall k, entry_at s' k = entry_at s k \/
     entry_at s' k = None /\ exists e, entry_at s k = Some e /\ expired e now = true) ->
  tracks t s' m.
Proof.
  intros [_ Hk]%tracks_keys Ht Hwf' Hs. apply tracks_keys. split; [done|]. intros k.
  specialize (Hk k). destruct (Hs k) as [->|(-> & e & He & Hx)]; [done|].
  rewrite He in Hk. simpl in *. intros v d Hm. rewrite Hm in Hk. injection Hk as -> ->.
  rewrite expired_live in Hx. destruct (live t (expiresAt e)) eqn:Hl; [|done].
  apply (live_mono now) in Hl; [|done]. by rewrite Hl in Hx.
Qed.

Lemma sweepShard_tracks n now t keys i scanned s m :
  tracks t s m -> now <= t -> (i < Z.to_nat shardCount)%nat ->
  tracks t (sweepShard n now keys i scanned s).1 m /\
  journal (sweepShard n now keys i scanned s).1 = journal s.
Proof.
  intros Hr Ht Hi. pose proof (tr_wf _ _ _ Hr) as Hwf. pose proof Hwf as [Hlen Hs]. unfold sweepShard.
  assert (readShards s !! i = Some (readShards s !!! i)) as Hsh
    by (apply list_lookup_lookup_total_lt; lia).
  pose proof (expireShard_spec n now keys _ scanned 0 i (Hs _ _ Hsh)) as H.
  destruct (expireShard n now keys (readShards s !!! i) scanned 0) as [[sh' sc] go].
  destruct H as (Hwf' & [H1 H2] & _). cbn [fst]. split; [|done]. apply (tracks_swept _ now s); [done..| |].
  - split; cbn [readShards]; [by rewrite length_insert|].
    intros j shj [(<- & <- & _)|[_ Hj]]%list_lookup_insert_Some; [done|by apply Hs].
  - intros k. unfold entry_at, shardOf. cbn [readShards]. destruct (decide (i = shardNo k)) as [->|Hne].
    + rewrite list_lookup_total_insert_eq by lia.
      destruct (data sh' !! k) as [e|] eqn:He; [left; symmetry; by apply H1|].
      destruct (data (readShards s !!! shardNo k) !! k) as [e|] eqn:He'; [right|by left].
      split; [done|]. exists e. split; [done|by eapply H2].
    + left. by rewrite list_lookup_total_insert_ne.
Qed.

Lemma sample_fits t0 n now range ids scanned :
  now <= t0 -> Forall (fun i => (i < Z.to_nat shardCount)%nat) ids ->
  fits t0 None (sampleP n now range ids scanned) (AReturn RUnit).
Proof.
  intros Ht0 Hids. revert t0 Ht0 scanned. induction Hids as [|i ids Hi _ IH]; intros t0 Ht0 scanned;
    cbn [sampleP]; [apply fits_Return|]. case_match; [apply fits_Return|].
  intros t s m Ht Hr _. destruct (sweepShard_tracks n now t (range i) i scanned s m) as [? ?]; [done|lia|done|].
  apply goes_silent; [done..|]. apply IH. lia.
Qed.

Lemma tick_tracks t s m : tracks t s m -> tracks t (tick s) m /\ journal (tick s) = journal s.
Proof. intros Hr. split; [by apply (tracks_ext t s)|done]. Qed.

Lemma qsample_fits t0 n range : fits t0 None (program (QSample n range)) (promise (QSample n range)).
Proof.
  apply fits_Clock_silent. intros now _. apply fits_Act; [|apply sample_fits; [done|apply allShards_lt]].
  intros t s m _ Hr _. by apply tick_tracks.
Qed.

(** ** Writes of one section *)

(** The whole effect under one acquisition of the locks: [f] is what the operation does to the
    store, [out] what it journals. *)
Lemma fits_atomic t0 m0 f k g k' :
  (forall t s m, t0 <= t -> tracks t s m -> knows (hold m0 []) m ->
     exists m', hides t m m' /\ wrote (wire <$> (g m').2) s (f s) /\ tracks t (f s) (g m').1 /\
       forall m1, fits t (hold m1 []) (k s) (k' m')) ->
  fits t0 (hold m0 []) (Step (fun _ s => f s) (fun _ s => k s)) (AWrite g k').
Proof.
  intros H t s m Ht Hr Hk. destruct (H t s m Ht Hr Hk) as (m' & Hh & Hw & Hr' & Hf).
  apply (goes_write _ _ _ _ _ _ _ m' (g m').2 []); [done|by rewrite app_nil_r|done|done|by apply Hf].
Qed.

(** [Del] removes what is there and journals it. *)
Lemma Del_loop_tracks t now ks removed n s m :
  tracks t s m -> (forall k, m !! k = binding <$> entry_at s k) ->
  let '(s', removed', _) := Del_loop now ks removed n s in
  tracks t s' (spec_del ks m) /\ removed' = removed ++ present ks m.
Proof.
  revert removed n s m. induction ks as [|k ks IH]; intros removed n s m Hr Hm; simpl.
  { by rewrite app_nil_r. }
  fold (entry_at s k). pose proof (Hm k) as Hmk. destruct (entry_at s k) as [e|] eqn:He; simpl in Hmk.
  - specialize (IH (removed ++ [k]) (if negb (expired e now) then n + 1 else n) _ _ (tracks_delete _ _ _ k Hr)).
    destruct (Del_loop _ _ _ _ _) as [[s' r'] n']. destruct IH as [Hr' ->].
    + intros k'. rewrite deleteLIWLS_entry by eauto with store. case_decide as Hd.
      * subst. by rewrite lookup_delete_eq.
      * by rewrite lookup_delete_ne.
    + split; [done|]. rewrite Hmk. by rewrite <- app_assoc.
  - assert (delete k m = m) as Hdel by (by apply delete_id). rewrite Hmk, Hdel. by apply IH.
Qed.

Lemma Del_tracks t now ks s :
  store_wf s ->
  tracks t (Del now ks s).1 (spec_del ks (bindings s)) /\
  wrote (wire <$> deletions ks (bindings s)) s (Del now ks s).1.
Proof.
  intros Hwf. unfold Del, deletions.
  pose proof (Del_loop_tracks t now ks [] 0 s (bindings s) (tracks_bindings t s Hwf)
    (fun k => bindings_lookup s k Hwf)) as H. pose proof (journal_Del_loop now ks [] 0 s) as Hj.
  destruct (Del_loop now ks [] 0 s) as [[s' rm] n]. destruct H as [Hr ->]. cbn [fst app] in *.
  destruct (present ks (bindings s)) as [|k gone].
  - by split; [|apply wrote_nil].
  - rewrite (proj2 (Z.ltb_lt _ _)) by (unfold lenZ; simpl; lia). cbn [fst].
    split; [by apply tracks_propagate|by apply wrote_propagate].
Qed.

Lemma present_elem ks m k : k ∈ present ks m -> k ∈ ks.
Proof.
  revert m. induction ks as [|k' ks IH]; intros m; simpl; [done|]. destruct (m !! k').
  - intros [->|Hk%IH]%elem_of_cons; set_solver.
  - intros Hk%IH. set_solver.
Qed.

(** What is deleted twice is deleted. *)
Lemma dropped_deletions ks m : dropped (deletions ks m) (spec_del ks m) = spec_del ks m.
Proof.
  unfold deletions. pose proof (present_elem ks m) as Hp. destruct (present ks m) as [|k gone]; [done|].
  unfold dropped. cbn [foldl]. apply map_eq. intros k'. rewrite !spec_del_lookup.
  case_bool_decide as Hk'; [|done]. apply Hp in Hk'. by rewrite bool_decide_true.
Qed.

(** [Del] under the gate as one instant of [o]. *)
Lemma Del_fits t0 now keys k o :
  (forall m, changes o m = deletions keys m /\ (spec o m).1 = spec_del keys m) ->
  (forall t s, store_wf s -> fits t None (k (Del now keys s).2) (AReturn (spec o (bindings s)).2)) ->
  fits t0 None (Lock (Step (fun _ s => (Del now keys s).1) (fun _ s => Unlock (k (Del now keys s).2))))
    (atomically o).
Proof.
  intros Ho Hk. apply fits_Lock. intros m0. apply fits_atomic.
  intros t s m Ht Hr _. pose proof (tr_wf _ _ _ Hr) as Hwf. destruct (Ho (bindings s)) as [Hc Hs].
  destruct (Del_tracks t now keys s Hwf) as [Hr' Hw]. exists (bindings s). unfold instant.
  cbn [fst snd]. rewrite Hc, Hs, dropped_deletions.
  split_and!; [apply Hr|done|done|]. intros m1. apply fits_Unlock. by apply Hk.
Qed.

Lemma del_fits t0 keys : fits t0 None (program (QDel keys)) (promise (QDel keys)).
Proof.
  apply fits_Clock. intros now _.
  apply (Del_fits _ now keys (fun n => Return (RInt n)) (OpDel now keys)); [done|].
  intros t s Hwf. cbn [spec snd].
  destruct (Del_refines now keys s _ (bindings_refines now s Hwf)) as [_ ->]. apply fits_Return.
Qed.

Lemma wrote_MSet pairs s : wrote [msetRecord pairs] s (MSet pairs s).
Proof.
  unfold MSet. apply wrote_propagate. generalize s. induction pairs as [|p pairs IH]; intros s0; [done|].
  cbn [foldl]. by rewrite IH.
Qed.

Lemma mset_fits t0 pairs : fits t0 None (program (QMSet pairs)) (promise (QMSet pairs)).
Proof.
  apply fits_Lock. intros m0. apply (fits_atomic _ _ (MSet pairs) (fun _ => Unlock (Return RUnit))).
  intros t s m Ht Hr _. exists m. split_and!; [apply hides_refl|apply wrote_MSet| |].
  - cbn [instant changes dropped spec foldl fst]. unfold MSet. apply tracks_propagate. clear Ht. revert s m Hr.
    induction pairs as [|p pairs IH]; intros s m Hr; [done|]. cbn [foldl]. by apply IH, tracks_setLIWLS.
  - intros m1. apply fits_Unlock, fits_Return.
Qed.

Lemma ExpireAt_tracks t now key at_ s :
  zeroTime <= now <= t -> store_wf s ->
  tracks t (ExpireAt now key at_ s).1
    (dropped (expireAtChanges now key at_ (bindings s)) (spec_expireAt now key at_ (bindings s)).1) /\
  wrote (wire <$> expireAtChanges now key at_ (bindings s)) s (ExpireAt now key at_ s).1 /\
  (ExpireAt now key at_ s).2 = (spec_expireAt now key at_ (bindings s)).2.
Proof.
  intros Hz Hwf. pose proof (tracks_bindings t s Hwf) as Hr.
  destruct (ExpireAt_refines now key at_ s _ ltac:(lia) (bindings_refines now s Hwf)) as [Hb _].
  match goal with |- ?A /\ ?B /\ _ => cut (A /\ B); [by intros [? ?]|] end. clear Hb. unfold ExpireAt, spec_expireAt, expireAtChanges.
  fold (entry_at s key). rewrite (vis_of_entry now s _ key (bindings_refines now s Hwf)), bindings_lookup by done.
  destruct (entry_at s key) as [e|] eqn:He; [|by split; [|apply wrote_nil]]. simpl. rewrite expired_live.
  destruct (live now (expiresAt e)) eqn:Hl; simpl.
  - unfold After. rewrite Z.leb_antisym. destruct (Z.ltb_spec now at_) as [Ha|Ha]; simpl.
    + split; [|by apply wrote_propagate]. apply tracks_propagate, tracks_setDeadline; [done..|].
      unfold IsZero. lia.
    + split; [|by apply wrote_propagate]. rewrite delete_delete_eq.
      by apply tracks_propagate, tracks_delete.
  - split; [|by apply wrote_propagate]. by apply tracks_propagate, tracks_delete.
Qed.

Lemma expireAt_fits t0 now key at_ o :
  zeroTime <= now <= t0 ->
  (forall m, changes o m = expireAtChanges now key at_ m /\
     spec o m = ((spec_expireAt now key at_ m).1, RBool (spec_expireAt now key at_ m).2)) ->
  fits t0 None (Lock (Step (fun _ s => (ExpireAt now key at_ s).1)
     (fun _ s => Unlock (Return (RBool (ExpireAt now key at_ s).2))))) (atomically o).
Proof.
  intros Hz Ho. apply fits_Lock. intros m0.
  apply (fits_atomic _ _ _ (fun s => Unlock (Return (RBool (ExpireAt now key at_ s).2)))).
  intros t s m Ht Hr _. pose proof (tr_wf _ _ _ Hr) as Hwf. destruct (Ho (bindings s)) as [Hc Hs].
  destruct (ExpireAt_tracks t now key at_ s ltac:(lia) Hwf) as (Hr' & Hw & Hb). exists (bindings s).
  unfold instant. cbn [fst snd]. rewrite Hc, Hs. split_and!; [apply Hr|done|done|]. intros m1. apply fits_Unlock.
  cbn [fst snd]. rewrite Hb. apply fits_Return.
Qed.

Lemma spec_OpExpireAt now key at_ m :
  spec (OpExpireAt now key at_) m =
    ((spec_expireAt now key at_ m).1, RBool (spec_expireAt now key at_ m).2).
Proof. simpl. by destruct (spec_expireAt now key at_ m). Qed.

Lemma spec_OpExpire now now' key ttl m :
  spec (OpExpire now now' key ttl) m =
    ((spec_expireAt now' key (now + ttl) m).1, RBool (spec_expireAt now' key (now + ttl) m).2).
Proof. simpl. by destruct (spec_expireAt now' key (now + ttl) m). Qed.

Lemma qexpireAt_fits t0 key at_ :
  zeroTime <= t0 -> fits t0 None (program (QExpireAt key at_)) (promise (QExpireAt key at_)).
Proof.
  intros Hz. apply fits_Clock. intros now Hn. apply (expireAt_fits _ now key at_); [lia|].
  intros m. by rewrite spec_OpExpireAt.
Qed.

Lemma qexpire_fits t0 key ttl :
  zeroTime <= t0 -> fits t0 None (program (QExpire key ttl)) (promise (QExpire key ttl)).
Proof.
  intros Hz. apply fits_Clock. intros now Hn. apply fits_Clock. intros now' Hn'.
  apply (expireAt_fits _ now' key (now + ttl)); [lia|]. intros m. by rewrite spec_OpExpire.
Qed.

(** ** Writes of one key *)

Lemma setP_fits t0 key v d o :
  (forall m, changes o m = [ChSet key v d] /\ spec o m = (<[key := (v, d)]> m, RUnit)) ->
  fits t0 None (setP key v d) (atomically o).
Proof.
  intros Ho. apply fits_Lock. intros m0. apply fits_setLocked. intros t s m _ Hr _. exists m.
  destruct (Ho m) as [Hc Hs]. unfold instant. rewrite Hc, Hs. split_and!; [apply hides_refl|done|done|].
  intros t1 m1 _. apply fits_Unlock, fits_Return.
Qed.

Lemma setWithTTL_fits t0 key v ttl :
  fits t0 None (program (QSetWithTTL key v ttl)) (promise (QSetWithTTL key v ttl)).
Proof.
  cbn [program promise]. destruct (ttl <=? 0) eqn:Hp; apply fits_Clock; intros now _.
  - apply (Del_fits _ now [key] (fun _ => Return RUnit)); [|intros t s Hwf; cbn [spec snd]; apply fits_Return].
    intros m. cbn [changes spec]. by rewrite Hp.
  - apply setP_fits. intros m. cbn [changes spec]. by rewrite Hp.
Qed.

Lemma setWithDeadline_fits t0 key v at_ :
  fits t0 None (program (QSetWithDeadline key v at_)) (promise (QSetWithDeadline key v at_)).
Proof.
  apply fits_Clock. intros now _. unfold After.
  destruct (Z.ltb_spec now at_) as [Ha|Ha]; simpl negb; cbn iota.
  - apply setP_fits. intros m. cbn [changes spec]. by rewrite (proj2 (Z.leb_gt _ _)).
  - apply fits_Clock_silent. intros now' _.
    apply (Del_fits _ now' [key] (fun _ => Return RUnit)); [|intros t s Hwf; cbn [spec snd]; apply fits_Return].
    intros m. cbn [changes spec]. by rewrite (proj2 (Z.leb_le _ _)).
Qed.

(** ** Evictions *)

Lemma addEvicted_tracks t s m :
  tracks t s m -> tracks t (addEvicted s) m /\ journal (addEvicted s) = journal s.
Proof. intros Hr. split; [by apply (tracks_ext t s)|done]. Qed.

Lemma evict_fits t0 m0 victims :
  fits t0 (hold m0 []) (evictP victims (Unlock (Return RUnit))) (aevict victims).
Proof.
  revert t0 m0. induction victims as [|k victims IH]; intros t0 m0; [apply fits_Unlock, fits_Return|].
  intros t s m Ht Hr Hk. apply (goes_write _ _ _ _ _ _ _ m [] [ChDel [k]]);
    [apply hides_refl|done|by apply wrote_nil|by apply tracks_delete|]. cbn [fst].
  apply fits_Act; [intros t1 s1 m1 _ Hr1 _; by apply addEvicted_tracks|].
  intros t1 s1 m1 Ht1 Hr1 Hk1. apply goes_flush; [done|by apply wrote_propagate|by apply tracks_propagate|].
  apply IH.
Qed.

Lemma qevict_fits t0 victims : fits t0 None (program (QEvict victims)) (promise (QEvict victims)).
Proof. apply fits_Lock. intros m0. apply evict_fits. Qed.

(** ** Reading, then writing *)

(** What the lookup of [Increment] and [Append] has found out about the map: the client holds
    the gate, so it is still true when the new value is stored. *)
Definition found_in (t now : Time) (key : bytes) m (found : option entry) : Prop :=
  match found with
  | Some e => m !! key = Some (binding e) /\ live now (expiresAt e) = true
  | None => forall v d, m !! key = Some (v, d) -> live t d = false
  end.

Context (Hdurable : durable = true).

Lemma liveEntry_fits t0 now key m k a :
  now <= t0 ->
  (forall t found, t0 <= t -> found_in t now key m found ->
     exists a1, instants t m a [] m a1 /\ fits t (hold m []) (k found) a1) ->
  fits t0 (hold m []) (liveEntryP now key k) a.
Proof.
  intros Hn H t s m1 Ht Hr Hk. unfold hold in *. rewrite Hdurable in *. simpl in Hk. subst m1.
  pose proof Hr as [_ Hks]%tracks_keys. specialize (Hks key). fold (entry_at s key).
  destruct (entry_at s key) as [e|] eqn:He; [destruct (expired e now) eqn:Hx|]; simpl in Hks.
  - apply goes_silent; [done..|]. intros t1 s1 m1 Ht1 Hr1 Hk1. simpl in Hk1. subst m1.
    assert (forall v d, m !! key = Some (v, d) -> live t1 d = false) as Hd.
    { intros v d Hm. rewrite Hks in Hm. injection Hm as <- <-. rewrite expired_live in Hx.
      destruct (live t1 (expiresAt e)) eqn:Hl; [|done]. apply (live_mono now) in Hl; [|lia].
      by rewrite Hl in Hx. }
    destruct (H t1 None ltac:(lia) Hd) as (a1 & Hi & Hf).
    apply (goes_instants _ _ _ _ _ _ a1); [done| |done|done|done].
    destruct (entry_at s1 key) as [e1|] eqn:He1.
    + pose proof Hr1 as [_ Hk1]%tracks_keys. specialize (Hk1 key). rewrite He1 in Hk1. simpl in Hk1.
      eapply (tracks_collect _ t1); [done|done| |lia]. rewrite expired_live.
      by rewrite (Hd _ _ Hk1).
    + eapply (tracks_swept t1 t1); [done|lia|apply deleteLIWLS_wf, Hr1|].
      intros k'. left. unfold deleteLocked. rewrite deleteLIWLS_entry by apply Hr1.
      case_decide; [by subst|done].
  - destruct (H t (Some e) Ht) as (a1 & Hi & Hf).
    { split; [done|]. rewrite expired_live in Hx. by apply negb_false_iff in Hx. }
    by apply (goes_instants _ _ _ _ _ _ a1).
  - destruct (H t None Ht Hks) as (a1 & Hi & Hf). by apply (goes_instants _ _ _ _ _ _ a1).
Qed.

(** The map as the operation sees it. *)
Definition seen (key : bytes) m (found : option entry) : kv :=
  match found with Some _ => m | None => delete key m end.

Lemma seen_hides t t1 now key m found : t <= t1 -> found_in t now key m found -> hides t1 m (seen key m found).
Proof.
  intros Ht Hf. destruct found as [e|]; [apply hides_refl|]. apply hides_delete. intros v d Hm.
  specialize (Hf v d Hm). destruct (live t1 d) eqn:Hl; [|done]. apply (live_mono t) in Hl; [congruence|done].
Qed.

Lemma seen_vis t now key m found :
  found_in t now key m found -> vis now (seen key m found) key = binding <$> found.
Proof.
  unfold vis. destruct found as [e|]; simpl; [|by rewrite lookup_delete_eq].
  intros [-> Hl]. unfold binding. by rewrite Hl.
Qed.

Lemma seen_insert key m found b : <[key := b]> (seen key m found) = <[key := b]> m.
Proof. destruct found; simpl; [done|apply insert_delete_eq]. Qed.

(** The new value is stored: the operation [o] takes effect. *)
Lemma store_fits t0 now key m0 v d found r o :
  found_in t0 now key m0 found ->
  spec o (seen key m0 found) = (<[key := (v, d)]> (seen key m0 found), r) ->
  changes o (seen key m0 found) = [ChSet key v d] ->
  fits t0 (hold m0 []) (setLockedP key v d (Unlock (Return r))) (atomically o).
Proof.
  intros Hf Hs Hc. apply fits_setLocked. intros t s m Ht Hr Hk.
  unfold hold in Hk. rewrite Hdurable in Hk. simpl in Hk. subst m.
  exists (seen key m0 found). unfold instant. rewrite Hs, Hc.
  split_and!; [by eapply seen_hides|done|apply seen_insert|]. intros t1 m1 _.
  apply fits_Unlock, fits_Return.
Qed.

Lemma append_fits t0 key suffix :
  fits t0 None (program (QAppend key suffix)) (promise (QAppend key suffix)).
Proof.
  apply fits_Clock. intros now _. apply fits_Lock. intros m. apply liveEntry_fits; [lia|].
  intros t found Ht Hf. eexists. split; [apply i_none|]. pose proof (seen_vis _ _ _ _ _ Hf) as Hv.
  set (v := match found with Some e => val e | None => [] end).
  set (d := match found with Some e => expiresAt e | None => zeroTime end).
  assert (spec (OpAppend now key suffix) (seen key m found) =
    (<[key := (v ++ suffix, d)]> (seen key m found), RInt (lenZ (v ++ suffix)))) as Hs.
  { cbn [spec]. rewrite Hv. by destruct found. }
  apply (store_fits _ now key m (v ++ suffix) d found); [done..|].
  unfold changes. rewrite Hs. cbn [fst]. unfold written. by rewrite lookup_insert_eq.
Qed.

Lemma spec_OpIncrement now key delta m :
  spec (OpIncrement now key delta) m =
    ((spec_incr now key delta m).1, RIncr (spec_incr now key delta m).2).
Proof. simpl. by destruct (spec_incr now key delta m). Qed.

(** What [Increment] computes from what it has found, against [spec_incr]. *)
Lemma spec_incr_found t now key delta m found :
  is_int64 delta -> found_in t now key m found ->
  let parsed := match found with
                | Some e => match ParseInt (val e) with inl n => Some n | inr _ => None end
                | None => Some 0
                end in
  let d := match found with Some e => expiresAt e | None => zeroTime end in
  spec_incr now key delta (seen key m found) =
    match parsed with
    | Some n => if bool_decide (is_int64 (n + delta))
                then (<[key := (FormatInt (n + delta), d)]> (seen key m found), inl (n + delta))
                else (seen key m found, inr ErrNotInteger)
    | None => (seen key m found, inr ErrNotInteger)
    end /\
  forall n, parsed = Some n -> is_int64 n.
Proof.
  intros Hd Hf. unfold spec_incr. rewrite (seen_vis _ _ _ _ _ Hf). destruct found as [e|]; simpl.
  - rewrite integer_of_ParseInt. split.
    + destruct (ParseInt (val e)); [|done]. by case_decide; [rewrite bool_decide_true|rewrite bool_decide_false].
    + intros n. destruct (ParseInt (val e)) eqn:Hp; [|done]. intros [= <-]. by apply ParseInt_spec in Hp as [_ ?].
  - split; [|by intros n [= <-]]. by case_decide; [rewrite bool_decide_true|rewrite bool_decide_false].
Qed.

Lemma increment_fits t0 key delta :
  is_int64 delta ->
  fits t0 None (program (QIncrement key delta)) (promise (QIncrement key delta)).
Proof.
  intros Hd. apply fits_Clock. intros now _. apply fits_Lock. intros m. apply liveEntry_fits; [lia|].
  intros t found Ht Hf. destruct (spec_incr_found t now key delta m found Hd Hf) as [Hs Hn].
  cbn zeta. cbn zeta in Hs. set (parsed := match found with Some _ => _ | None => Some 0 end) in *.
  set (d := match found with Some e => expiresAt e | None => zeroTime end) in *.
  assert ((spec_incr now key delta (seen key m found)).2 = inr ErrNotInteger -> seen key m found = m) as Hsame.
  { rewrite Hs. destruct found as [e|]; [done|]. cbn in parsed. subst parsed. cbn.
    rewrite bool_decide_true by done. done. }
  assert (spec_incr now key delta (seen key m found) = (seen key m found, inr ErrNotInteger) ->
    exists a1, instants t m (atomically (OpIncrement now key delta)) [] m a1 /\
      fits t (hold m []) (Unlock (Return (RIncr (inr ErrNotInteger)))) a1) as Herr.
  { intros He. rewrite He in Hsame. specialize (Hsame eq_refl). rewrite Hsame in He.
    exists (AReturn (RIncr (inr ErrNotInteger))). split; [|apply fits_Unlock, fits_Return].
    assert (changes (OpIncrement now key delta) m = []) as Hc by (unfold changes; by rewrite He).
    apply instants_atomically; [done| |by rewrite spec_OpIncrement, He].
    unfold instant. by rewrite Hc, spec_OpIncrement, He. }
  destruct parsed as [n|]; [|by apply Herr]. specialize (Hn n eq_refl).
  rewrite overflow_guard by done. case_bool_decide as Hi; cbn [negb]; [|by apply Herr].
  rewrite wrap64_small by done. eexists. split; [apply i_none|].
  apply (store_fits _ now key m _ _ found); [done|by rewrite spec_OpIncrement, Hs|].
  unfold changes. rewrite Hs. unfold written. by rewrite lookup_insert_eq.
Qed.
End Fits.

(** ** Every request *)

(** Increments are [int64]. *)
Definition req_ok (q : req) : Prop :=
  match q with QIncrement _ delta => is_int64 delta | _ => True end.

(** The operations that look a key up in one section and write it in another. *)
Definition reads_then_writes (q : req) : bool :=
  match q with QIncrement _ _ | QAppend _ _ => true | _ => false end.

(** What may be asked of a store without a journal. *)
Definition admitted (durable : bool) (q : req) : Prop :=
  req_ok q /\ (durable = true \/ reads_then_writes q = false).

Section Simulation.
Context {J : Type} `{!Journal J}.
(** The store at the beginning, and whether it has a journal. *)
Context (s0 : Store J).
Implicit Types (s : Store J) (p : prog J) (m : kv) (c : conf J) (a : aconf).

Definition durable : bool := if journal s0 is Some _ then true else false.

Lemma program_fits (d : bool) t0 q :
  zeroTime <= t0 -> admitted d q -> fits d t0 None (program q) (promise q).
Proof.
  intros Hz [Hq Hd]. destruct q; try (destruct Hd as [Hd|Hd]; [|done]).
  - apply get_fits.
  - apply ttl_fits.
  - apply fits_Clock. intros now _. apply exists_fits.
  - apply fits_Clock. intros now _. apply dbsize_fits, allShards_lt.
  - by apply setP_fits.
  - apply setWithTTL_fits.
  - apply setWithDeadline_fits.
  - apply mset_fits.
  - by apply increment_fits.
  - by apply append_fits.
  - by apply qexpire_fits.
  - by apply qexpireAt_fits.
  - apply del_fits.
  - apply qsample_fits.
  - apply qevict_fits.
Qed.

(** ** The simulation *)

(** What client [i] knows when [g] is the gate. *)
Definition holding (g : option nat) m (pend : list change) (i : nat) : held :=
  if decide (g = Some i) then hold durable m pend else None.

Definition client_fits (t : Time) (h : held) (x : client J) (y : aclient) : Prop :=
  todo x = atodo y /\ Forall (admitted durable) (todo x) /\
  match running x, arunning y with
  | None, None => h = None
  | Some p, Some b => exists t0, t0 <= t /\ fits durable t0 h p b
  | _, _ => False
  end.

Record sim c a (pend : list change) : Prop := {
  sim_clock : zeroTime <= time c;
  sim_time : atime a = time c;
  sim_trace : atrace a = trace c;
  sim_tracks : tracks (time c) (shared c) (amap a);
  sim_length : length (clients c) = length (aclients a);
  sim_clients : forall i x y, clients c !! i = Some x -> aclients a !! i = Some y ->
    client_fits (time c) (holding (gate c) (amap a) pend i) x y;
  sim_gate : gate c = None \/ durable = true /\ exists i, gate c = Some i /\ is_Some (clients c !! i);
  sim_journal : durable = (if journal (shared c) is Some _ then true else false);
  sim_pend : gate c = None -> pend = [];
  sim_log : exists flushed, (durable = true -> alog a = flushed ++ pend) /\
              (durable = true -> wrote (wire <$> flushed) s0 (shared c))
}.

Lemma client_fits_later t t' h x y : t <= t' -> client_fits t h x y -> client_fits t' h x y.
Proof.
  intros Ht (? & ? & Hr). split_and!; [done..|]. destruct (running x), (arunning y); try done.
  destruct Hr as (t0 & ? & ?). exists t0. split; [lia|done].
Qed.

(** The abstract client of a running one. *)
Lemma sim_running c a pend i l p :
  sim c a pend -> clients c !! i = Some (mkClient l (Some p)) ->
  exists b t0, aclients a !! i = Some (mkAClient l (Some b)) /\ t0 <= time c /\
    fits durable t0 (holding (gate c) (amap a) pend i) p b /\ Forall (admitted durable) l.
Proof.
  intros Hs Hi. destruct (lookup_lt_is_Some_2 (aclients a) i) as [[l' b] Hy].
  { rewrite <- (sim_length _ _ _ Hs). by eapply lookup_lt_Some. }
  destruct (sim_clients _ _ _ Hs i _ _ Hi Hy) as (Hl & Hok & Hr). simpl in *. subst l'.
  destruct b as [b|]; [|done]. destruct Hr as (t0 & ? & ?). by exists b, t0.
Qed.

(** Client [i] moves and the others stay. *)
Lemma sim_move c a pend pend' t s g m log hist i x y x0 y0 :
  sim c a pend -> clients c !! i = Some x0 -> aclients a !! i = Some y0 ->
  t = time c -> tracks t s m ->
  client_fits t (holding g m pend' i) x y ->
  (forall j, j <> i -> holding g m pend' j = holding (gate c) (amap a) pend j) ->
  (g = None \/ durable = true /\ exists j, g = Some j /\ is_Some (clients c !! j)) ->
  durable = (if journal s is Some _ then true else false) ->
  (g = None -> pend' = []) ->
  (exists flushed, (durable = true -> log = flushed ++ pend') /\
     (durable = true -> wrote (wire <$> flushed) s0 s)) ->
  sim (mkConf t s g (<[i := x]> (clients c)) hist) (mkAConf t m log (<[i := y]> (aclients a)) hist) pend'.
Proof.
  intros Hs Hx Hy -> Hr Hf Ho Hg Hj Hp Hl. pose proof (lookup_lt_Some _ _ _ Hx) as Hlt.
  pose proof (lookup_lt_Some _ _ _ Hy) as Hlt'.
  split; cbn [time shared gate clients trace atime amap alog aclients atrace]; try done.
  - apply Hs.
  - rewrite !length_insert. apply Hs.
  - intros j x1 y1. destruct (decide (j = i)) as [->|Hne].
    + rewrite !list_lookup_insert_eq by done. by intros [= <-] [= <-].
    + rewrite !list_lookup_insert_ne by done. rewrite Ho by done. apply Hs.
  - destruct Hg as [->|(? & j & -> & Hj')]; [by left|right]. split; [done|]. exists j. split; [done|].
    apply lookup_lt_is_Some. rewrite length_insert. by apply lookup_lt_is_Some in Hj'.
Qed.

Lemma gate_undurable c a pend : sim c a pend -> durable = false -> gate c = None /\ pend = [].
Proof.
  intros Hs Hd. destruct (sim_gate _ _ _ Hs) as [Hg|[? _]]; [|congruence].
  split; [done|by apply (sim_pend _ _ _ Hs)].
Qed.

Lemma holding_self i m pend : holding (Some i) m pend i = hold durable m pend.
Proof. unfold holding. by rewrite decide_True. Qed.

Lemma holding_other i j m pend : j <> i -> holding (Some i) m pend j = None.
Proof. intros Hne. unfold holding. by rewrite decide_False by congruence. Qed.

Lemma wrote_durable rs s s' :
  wrote rs s s' -> (if journal s is Some _ then true else false) = (if journal s' is Some _ then true else false).
Proof. unfold wrote. intros ->. by destruct (journal s). Qed.

Lemma wrote_flushed flushed out s s' :
  wrote (wire <$> flushed) s0 s -> wrote (wire <$> out) s s' -> wrote (wire <$> (flushed ++ out)) s0 s'.
Proof. intros H1 H2. rewrite fmap_app. by eapply wrote_trans. Qed.

(** A section of the client that holds the gate. *)
Lemma sim_section_holder c a pend i l f k :
  sim c a pend -> clients c !! i = Some (mkClient l (Some (Step f k))) -> gate c = Some i ->
  exists a' pend', rtc astep a a' /\
    sim (mkConf (time c) (f (time c) (shared c)) (gate c)
           (resume i l (Some (k (time c) (shared c))) c) (trace c)) a' pend'.
Proof.
  intros Hs Hi Hg. destruct (sim_running _ _ _ _ _ _ Hs Hi) as (b & t0 & Hy & Ht & Hf & Hl).
  destruct (sim_gate _ _ _ Hs) as [?|[Hd _]]; [congruence|].
  rewrite Hg, holding_self in Hf. unfold hold in Hf. rewrite Hd in Hf.
  destruct (Hf (time c) (shared c) (amap a) Ht (sim_tracks _ _ _ Hs) eq_refl)
    as (m1 & b1 & new & out & h1 & Hin & Hw & Hr & (pend' & Hp & ->) & Hrest).
  rewrite <- (sim_time _ _ _ Hs) in Hin. pose proof (instants_steps _ _ _ _ _ _ _ Hin Hy) as Hsteps.
  exists (mkAConf (atime a) m1 (alog a ++ new) (aresume i l (Some b1) a) (atrace a)), pend'. split; [exact Hsteps|].
  rewrite (sim_time _ _ _ Hs), (sim_trace _ _ _ Hs). unfold resume, aresume.
  eapply (sim_move c a pend pend'); [done..| | | | | |]; rewrite ?Hg.
  - split_and!; [done..|]. simpl. exists (time c). split; [lia|]. rewrite holding_self. unfold hold. by rewrite Hd.
  - intros j Hne. by rewrite !holding_other.
  - right. split; [done|]. exists i. by rewrite Hi.
  - rewrite (sim_journal _ _ _ Hs). by eapply wrote_durable.
  - done.
  - destruct (sim_log _ _ _ Hs) as (flushed & Hlog & Hwr). exists (flushed ++ out). split; intros Hd'.
    + rewrite (Hlog Hd'), <- !app_assoc. by rewrite Hp.
    + eapply wrote_flushed; [by apply Hwr|done].
Qed.

(** A section of another client. *)
Lemma sim_section_free c a pend i l f k :
  sim c a pend -> clients c !! i = Some (mkClient l (Some (Step f k))) -> gate c <> Some i ->
  exists a' pend', rtc astep a a' /\
    sim (mkConf (time c) (f (time c) (shared c)) (gate c)
           (resume i l (Some (k (time c) (shared c))) c) (trace c)) a' pend'.
Proof.
  intros Hs Hi Hg. destruct (sim_running _ _ _ _ _ _ Hs Hi) as (b & t0 & Hy & Ht & Hf & Hl).
  assert (forall m pd, holding (gate c) m pd i = None) as Hh by (intros; unfold holding; by rewrite decide_False).
  rewrite Hh in Hf. destruct (Hf (time c) (shared c) (amap a) Ht (sim_tracks _ _ _ Hs) I)
    as (m1 & b1 & new & out & h1 & Hin & Hw & Hr & (-> & Hm) & Hrest).
  rewrite <- (sim_time _ _ _ Hs) in Hin. pose proof (instants_steps _ _ _ _ _ _ _ Hin Hy) as Hsteps.
  exists (mkAConf (atime a) m1 (alog a ++ new) (aresume i l (Some b1) a) (atrace a)), pend. split; [exact Hsteps|].
  rewrite (sim_time _ _ _ Hs), (sim_trace _ _ _ Hs). unfold resume, aresume.
  eapply sim_move; [done..| | |apply Hs| |apply Hs|].
  - split_and!; [done..|]. simpl. exists (time c). split; [lia|]. by rewrite Hh.
  - intros j Hne. destruct durable eqn:Hd; [by destruct (Hm eq_refl) as (-> & _)|].
    destruct (gate_undurable _ _ _ Hs Hd) as [-> _]. done.
  - rewrite (sim_journal _ _ _ Hs). by eapply wrote_durable.
  - destruct (sim_log _ _ _ Hs) as (flushed & Hlog & Hwr). exists flushed.
    split; intros Hd; destruct (Hm Hd) as (_ & -> & ->); [by rewrite app_nil_r, Hlog|].
    rewrite <- (app_nil_r flushed). eapply wrote_flushed; [by apply Hwr|done].
Qed.

Lemma sim_invoke c a pend i q l :
  sim c a pend -> clients c !! i = Some (mkClient (q :: l) None) ->
  exists a' pend', rtc astep a a' /\
    sim (mkConf (time c) (shared c) (gate c) (resume i l (Some (program q)) c)
           (trace c ++ [Invoke i q])) a' pend'.
Proof.
  intros Hs Hi. destruct (lookup_lt_is_Some_2 (aclients a) i) as [[l' b] Hy].
  { rewrite <- (sim_length _ _ _ Hs). by eapply lookup_lt_Some. }
  destruct (sim_clients _ _ _ Hs i _ _ Hi Hy) as (Hl & Hok & Hr). simpl in *. subst l'.
  destruct b; [done|]. apply Forall_cons in Hok as [Hq Hok].
  exists (mkAConf (atime a) (amap a) (alog a) (aresume i l (Some (promise q)) a) (atrace a ++ [Invoke i q])), pend.
  split; [by apply rtc_once, a_invoke|].
  rewrite (sim_time _ _ _ Hs), (sim_trace _ _ _ Hs). unfold resume, aresume.
  eapply (sim_move c a pend pend); [done..|apply Hs| |done|apply Hs|apply Hs|apply Hs|apply Hs].
  split_and!; [done..|]. simpl. exists (time c). split; [lia|]. rewrite Hr.
  apply program_fits; [apply Hs|done].
Qed.

Lemma sim_choose c a pend i k x l :
  sim c a pend -> clients c !! i = Some (mkClient l (Some (Choose k))) ->
  exists a' pend', rtc astep a a' /\
    sim (mkConf (time c) (shared c) (gate c) (resume i l (Some (k x)) c) (trace c)) a' pend'.
Proof.
  intros Hs Hi. destruct (sim_running _ _ _ _ _ _ Hs Hi) as (b & t0 & Hy & Ht & Hf & Hl).
  exists (mkAConf (atime a) (amap a) (alog a) (aresume i l (Some b) a) (atrace a)), pend.
  split. { unfold aresume. rewrite list_insert_id by done. by destruct a. }
  rewrite (sim_time _ _ _ Hs), (sim_trace _ _ _ Hs). unfold resume, aresume.
  eapply (sim_move c a pend pend); [done..|apply Hs| |done|apply Hs|apply Hs|apply Hs|apply Hs].
  split_and!; [done..|]. simpl. exists t0. split; [done|]. apply Hf.
Qed.

Lemma sim_lock c a pend i p l :
  sim c a pend -> clients c !! i = Some (mkClient l (Some (Lock p))) -> canLock c ->
  exists a' pend', rtc astep a a' /\
    sim (mkConf (time c) (shared c) (lockGate i c) (resume i l (Some p) c) (trace c)) a' pend'.
Proof.
  intros Hs Hi Hc. destruct (sim_running _ _ _ _ _ _ Hs Hi) as (b & t0 & Hy & Ht & [Hh Hf] & Hl).
  assert (gate c = None) as Hg.
  { unfold canLock in Hc. pose proof (sim_journal _ _ _ Hs) as Hd.
    destruct (journal (shared c)); [done|]. by destruct (gate_undurable _ _ _ Hs Hd). }
  exists (mkAConf (atime a) (amap a) (alog a) (aresume i l (Some b) a) (atrace a)), pend.
  split. { unfold aresume. rewrite list_insert_id by done. by destruct a. }
  rewrite (sim_time _ _ _ Hs), (sim_trace _ _ _ Hs). unfold resume, aresume.
  pose proof (sim_pend _ _ _ Hs Hg) as ->. pose proof (sim_journal _ _ _ Hs) as Hd.
  eapply (sim_move c a [] []); [done..|apply Hs| | | |done|done|apply Hs]; unfold lockGate;
    rewrite ?Hg; destruct (journal (shared c)).
  - split_and!; [done..|]. simpl. exists t0. split; [done|]. rewrite holding_self. apply Hf.
  - split_and!; [done..|]. simpl. exists t0. split; [done|]. specialize (Hf (amap a)).
    assert (hold durable (amap a) [] = None) as Hn by (unfold hold; by rewrite Hd).
    by rewrite Hn in Hf.
  - intros j' Hne. by rewrite holding_other.
  - done.
  - right. split; [done|]. exists i. by rewrite Hi.
  - by left.
Qed.

Lemma sim_unlock c a pend i p l :
  sim c a pend -> clients c !! i = Some (mkClient l (Some (Unlock p))) ->
  exists a' pend', rtc astep a a' /\
    sim (mkConf (time c) (shared c) (unlockGate c) (resume i l (Some p) c) (trace c)) a' pend'.
Proof.
  intros Hs Hi. destruct (sim_running _ _ _ _ _ _ Hs Hi) as (b & t0 & Hy & Ht & [Hh Hf] & Hl).
  pose proof (sim_journal _ _ _ Hs) as Hd.
  assert (pend = [] /\ unlockGate c = None /\ forall j m, j <> i -> holding (gate c) m [] j = None) as (-> & Hg & Ho).
  { unfold unlockGate. destruct (journal (shared c)).
    - destruct (Hh Hd) as [m Hm]. unfold holding, hold in Hm. case_decide as Hgi; [|done].
      rewrite Hd in Hm. injection Hm as <- ->. rewrite Hgi. split_and!; [done..|].
      intros j1 m1 Hne. by apply holding_other.
    - destruct (gate_undurable _ _ _ Hs Hd) as [-> ->]. done. }
  exists (mkAConf (atime a) (amap a) (alog a) (aresume i l (Some b) a) (atrace a)), [].
  split. { unfold aresume. rewrite list_insert_id by done. by destruct a. }
  rewrite (sim_time _ _ _ Hs), (sim_trace _ _ _ Hs), Hg. unfold resume, aresume.
  eapply (sim_move c a [] []); [done..|apply Hs| | |by left|apply Hs|done|apply Hs].
  - split_and!; [done..|]. simpl. by exists t0.
  - intros j Hne. by rewrite Ho.
Qed.

Lemma sim_return c a pend i r l :
  sim c a pend -> clients c !! i = Some (mkClient l (Some (Return r))) ->
  exists a' pend', rtc astep a a' /\
    sim (mkConf (time c) (shared c) (gate c) (resume i l None c) (trace c ++ [Respond i r])) a' pend'.
Proof.
  intros Hs Hi. destruct (sim_running _ _ _ _ _ _ Hs Hi) as (b & t0 & Hy & Ht & [Hh ->] & Hl).
  exists (mkAConf (atime a) (amap a) (alog a) (aresume i l None a) (atrace a ++ [Respond i r])), pend.
  split; [by apply rtc_once, a_return|].
  rewrite (sim_time _ _ _ Hs), (sim_trace _ _ _ Hs). unfold resume, aresume.
  eapply (sim_move c a pend pend); [done..|apply Hs| |done|apply Hs|apply Hs|apply Hs|apply Hs].
  by split_and!.
Qed.

Lemma sim_time_passes c a pend t :
  sim c a pend -> time c <= t ->
  sim (mkConf t (shared c) (gate c) (clients c) (trace c))
    (mkAConf t (amap a) (alog a) (aclients a) (atrace a)) pend.
Proof.
  intros [] Ht. split; cbn [time shared gate clients trace atime amap alog aclients atrace]; try done.
  - lia.
  - by eapply tracks_later.
  - intros i x y Hx Hy. eapply client_fits_later; [done|]. by apply sim_clients0.
Qed.

Lemma sim_step c c' a pend :
  sim c a pend -> kstep c c' -> exists a' pend', rtc astep a a' /\ sim c' a' pend'.
Proof.
  intros Hs [i c1 Hc|t Ht].
  - destruct Hc as [q l Hi|f k l Hi|k x l Hi|p l Hi Hl|p l Hi|r l Hi].
    + by eapply sim_invoke.
    + destruct (decide (gate c = Some i)); [by eapply sim_section_holder|by eapply sim_section_free].
    + by eapply sim_choose.
    + by eapply sim_lock.
    + by eapply sim_unlock.
    + by eapply sim_return.
  - exists (mkAConf t (amap a) (alog a) (aclients a) (atrace a)), pend. split; [|by apply sim_time_passes].
    apply rtc_once, a_time. by rewrite (sim_time _ _ _ Hs).
Qed.

Lemma sim_steps c c' a pend :
  sim c a pend -> rtc kstep c c' -> exists a' pend', rtc astep a a' /\ sim c' a' pend'.
Proof.
  intros Hs Hr. revert a pend Hs. induction Hr as [c|c c1 c2 H1 _ IH]; intros a pend Hs.
  { exists a, pend. by split; [apply rtc_refl|]. }
  destruct (sim_step _ _ _ _ Hs H1) as (a1 & pend1 & Ha1 & Hs1).
  destruct (IH _ _ Hs1) as (a2 & pend2 & Ha2 & Hs2). exists a2, pend2. split; [by etrans|done].
Qed.

Lemma sim_begin t m reqs :
  zeroTime <= t -> tracks t s0 m -> Forall (Forall (admitted durable)) reqs ->
  sim (begin t s0 reqs) (abegin t m reqs) [].
Proof.
  intros Ht Hr Hok. split; cbn; try done.
  - by rewrite !length_fmap.
  - intros i x y. rewrite !list_lookup_fmap. destruct (reqs !! i) as [l|] eqn:Hl; [|done].
    intros [= <-] [= <-]. split_and!; [done| |done]. simpl. by eapply Forall_lookup_1.
  - by left.
  - exists []. split; intros _; [done|by apply wrote_nil].
Qed.

(** ** Progress *)

(** A client that holds the gate can go on. *)
Lemma holder_goes_on c a pend i :
  sim c a pend -> gate c = Some i -> exists c', cstep i c c'.
Proof.
  intros Hs Hg. destruct (sim_gate _ _ _ Hs) as [?|(Hd & j & Hj & [x Hx])]; [congruence|].
  rewrite Hg in Hj. injection Hj as <-.
  destruct (next i c) as [c'|] eqn:Hn; [exists c'; by apply next_step|]. exfalso.
  destruct (lookup_lt_is_Some_2 (aclients a) i) as [y Hy].
  { rewrite <- (sim_length _ _ _ Hs). by eapply lookup_lt_Some. }
  destruct (sim_clients _ _ _ Hs i _ _ Hx Hy) as (_ & _ & Hr).
  rewrite Hg, holding_self in Hr. unfold hold in Hr. rewrite Hd in Hr.
  destruct (next_None i c x Hx Hn) as [->|(l & p & -> & _)]; simpl in Hr; destruct (arunning y); try done.
  destruct Hr as (t0 & _ & [? _]). done.
Qed.

(** As long as a request is open or waiting, some client can go on. *)
Lemma somebody_goes_on c a pend : sim c a pend -> finished c \/ exists i c', cstep i c c'.
Proof.
  intros Hs. destruct (gate c) as [g|] eqn:Hg.
  { right. destruct (holder_goes_on _ _ _ _ Hs Hg) as [c' Hc]. by exists g, c'. }
  destruct (decide (List.Exists (fun i => is_Some (next i c)) (seq 0 (length (clients c))))) as [He|He].
  - right. apply Exists_exists in He as (i & _ & c' & Hc). exists i, c'. by apply next_step.
  - left. apply Forall_lookup. intros i x Hi. destruct (next i c) as [c'|] eqn:Hn.
    + destruct He. apply Exists_exists. exists i. rewrite Hn. split; [|done].
      apply elem_of_seq. apply lookup_lt_Some in Hi. lia.
    + destruct (next_None i c x Hi Hn) as [|(l & p & _ & Hc)]; [done|]. exfalso. apply Hc.
      unfold canLock. by destruct (journal (shared c)).
Qed.
End Simulation.

(** The steps of clients, whatever time passes before each. *)
Definition moves {J} `{!Journal J} (c c' : conf J) : Prop :=
  exists t i, time c <= t /\ cstep i (mkConf t (shared c) (gate c) (clients c) (trace c)) c'.

Lemma moves_end {J} `{!Journal J} (c : conf J) : sn moves c.
Proof.
  remember (clients c) as l eqn:Hl. revert c Hl.
  induction (one_smaller_wf smaller smaller_wf l) as [l _ IH]. intros c ->. constructor.
  intros c' (t & i & _ & Hc). apply (IH (clients c')); [|done].
  destruct (cstep_smaller _ _ _ Hc) as (x & x' & Hx & Hs & Hc'). exists i, x, x'. done.
Qed.

Section Theorems.
Context {J : Type} `{!Journal J}.
Implicit Types (s : Store J) (c : conf J).

(** C3. The concurrent store is linearizable: however the critical sections of any number of
    clients are interleaved, with time passing and the sampler and evictions among them,
    the invocations and replies are those of a run of the specification, where every
    request acts at single instants between its invocation and its reply; the store
    holds the map of that run, up to bindings whose deadline has passed; and the journal
    is the log of that run, except for what the client inside the commit gate has still
    to append.  Without a journal, INCR and APPEND are excluded. *)
Theorem store_linearizable (t : Time) s (reqs : list (list req)) c :
  zeroTime <= t -> store_wf s -> Forall (Forall (admitted (durable s))) reqs ->
  rtc kstep (begin t s reqs) c ->
  exists a flushed pend,
    rtc astep (abegin t (bindings s) reqs) a /\
    atrace a = trace c /\ atime a = time c /\
    tracks (time c) (shared c) (amap a) /\
    (durable s = true -> alog a = flushed ++ pend /\ wrote (wire <$> flushed) s (shared c)) /\
    (gate c = None -> pend = []).
Proof.
  intros Ht Hwf Hok Hr.
  destruct (sim_steps s _ c _ _ (sim_begin s t _ _ Ht (tracks_bindings t s Hwf) Hok) Hr)
    as (a & pend & Ha & Hs).
  destruct (sim_log _ _ _ _ Hs) as (flushed & Hl & Hw). exists a, flushed, pend.
  split_and!; [done|apply Hs|apply Hs|apply Hs|by auto|apply Hs].
Qed.

(** C16. Every request is answered: in every reachable configuration either all clients have
    had all their replies, or one of them can go on, and the client inside the commit gate
    always can; and however long the waits, the clients together can only take finitely
    many steps. *)
Theorem every_request_answered (t : Time) s (reqs : list (list req)) c :
  zeroTime <= t -> store_wf s -> Forall (Forall (admitted (durable s))) reqs ->
  rtc kstep (begin t s reqs) c ->
  (finished c \/ exists i c', cstep i c c') /\
  (forall i, gate c = Some i -> exists c', cstep i c c') /\
  sn moves c.
Proof.
  intros Ht Hwf Hok Hr.
  destruct (sim_steps s _ c _ _ (sim_begin s t _ _ Ht (tracks_bindings t s Hwf) Hok) Hr)
    as (a & pend & Ha & Hs).
  split_and!; [by eapply somebody_goes_on|intros i; by eapply holder_goes_on|apply moves_end].
Qed.
End Theorems.

(** ** A reader between the two halves of a write

    One client increments a counter and another reads it while the new value is in the
    store and not yet in the journal. *)

Definition race : list (list req) := [[QIncrement (bs "n") 1]; [QGet (bs "n"); QTTL (bs "n")]].

Definition race_start : conf (list (list bytes)) := begin 10 (SetJournal [] New) race.

(** Client 0 stops before it journals; client 1 reads; client 0 goes on. *)
Definition race_order : list (option nat) :=
  replicate 5 (Some 0%nat) ++ [None] ++ replicate 7 (Some 1%nat) ++ replicate 3 (Some 0%nat)
  ++ replicate 4 (Some 1%nat).

Definition race_trace : list action :=
  [Invoke 0 (QIncrement (bs "n") 1); Invoke 1 (QGet (bs "n")); Respond 1 (RBytes (Some (bs "1")));
   Respond 0 (RIncr (inl 1)); Invoke 1 (QTTL (bs "n")); Respond 1 (RTTL 0 KeyPersistent)].

Lemma race_run :
  (fun c => (trace c, gate c, journal (shared c))) <$> schedule race_order race_start =
    Some (race_trace, None, Some [[cmdSET; bs "n"; bs "1"]]).
Proof. vm_compute. reflexivity. Qed.

Lemma race_admitted : Forall (Forall (admitted true)) race.
Proof. repeat constructor; unfold is_int64, minInt64, maxInt64; simpl; lia. Qed.

Lemma store_linearizable_witness :
  exists c a,
    rtc kstep race_start c /\ trace c = race_trace /\
    rtc astep (abegin 10 ∅ race) a /\ atrace a = race_trace /\
    wire <$> alog a = [[cmdSET; bs "n"; bs "1"]].
Proof.
  pose proof race_run as Hrun. destruct (schedule race_order race_start) as [c|] eqn:Hc; [|discriminate].
  injection Hrun as Hh Hg Hj. pose proof (schedule_steps _ _ _ Hc) as Hr.
  destruct (store_linearizable (J := list (list bytes)) 10 (SetJournal [] New) race c) as
    (a & flushed & pend & Ha & Hah & _ & _ & Hlog & Hp).
  - unfold zeroTime, Second. lia.
  - apply SetJournal_wf, New_wf.
  - exact race_admitted.
  - exact Hr.
  - exists c, a. split; [exact Hr|]. split; [exact Hh|]. split; [|split; [by rewrite Hah|]].
    + replace (bindings (SetJournal [] New)) with (∅ : kv) in Ha; [exact Ha|]. vm_compute. reflexivity.
    + rewrite (Hp Hg) in Hlog. destruct (Hlog eq_refl) as [Hl Hw]. rewrite app_nil_r in Hl.
      rewrite Hl. unfold wrote in Hw. rewrite Hj in Hw.
      cbn [SetJournal journal fmap option_fmap option_map] in Hw. rewrite journalAll_list in Hw.
      by injection Hw as Hw.
Defined.

Lemma every_request_answered_witness :
  exists c c' : conf (list (list bytes)),
    rtc kstep race_start c /\ gate c = Some 0%nat /\ cstep 0 c c' /\ sn moves c.
Proof.
  assert (gate <$> schedule (replicate 5 (Some 0%nat)) race_start = Some (Some 0%nat)) as Hrun
    by (vm_compute; reflexivity).
  destruct (schedule (replicate 5 (Some 0%nat)) race_start) as [c|] eqn:Hc; [|discriminate].
  injection Hrun as Hg. pose proof (schedule_steps _ _ _ Hc) as Hr.
  destruct (every_request_answered (J := list (list bytes)) 10 (SetJournal [] New) race c) as (_ & Hgo & Hsn).
  - unfold zeroTime, Second. lia.
  - apply SetJournal_wf, New_wf.
  - exact race_admitted.
  - exact Hr.
  - destruct (Hgo 0%nat Hg) as [c' Hs]. exists c, c'. done.
Defined.
