(* ===== verification/Restart.v ===== *)
(** * Restarting the server from its log

    The records the store journals are commands of the server's own table, and
    [applyLogged] runs their handlers.  [applyLogged_wire] shows that running the
    handler of a record does to the store what [redo] does to the abstract keyspace;
    with the lemmas of Recovery.v this gives the restart theorem, about the
    concrete store before the crash, the log file, [Replay] and the concrete store
    after the restart. *)

From stdpp Require Import base gmap list strings sorting.
From Stdlib Require Import ZArith Lia.
From Stdlib Require Import Strings.Byte.
From S2P Require Import Prelude.
From S2P Require Import GoStrconv.
From S2P Require Import RespWriter.
From S2P Require Import Bufio.
From S2P Require Import RespReader.
From S2P Require Import GoTime.
From S2P Require Import Store.
From S2P Require Import StoreInv.
From S2P Require Import Evict.
From S2P Require Import StoreSpec.
From S2P Require Import Settings.
From S2P Require Import AofLog.
From S2P Require Import AofInv.
From S2P Require Import Replay.
From S2P Require Import Commands.
From S2P Require Import Journalling.
From S2P Require Import Recovery.

#[local] Open Scope Z_scope.

(** ** The history of a store *)

(** What happens to a store that is serving clients: operations, and keys evicted to
    stay within the memory limit. *)
Inductive event : Type :=
| Called (o : op)
| Evicted (k : bytes).

Section History.
Context {J : Type} `{!Journal J}.
Implicit Types s : Store J.

Definition happen (e : event) s : Store J :=
  match e with
  | Called o => (run o s).1
  | Evicted k => evict k s
  end.

Definition history (es : list event) s : Store J := foldl (fun s e => happen e s) s es.

Definition eventReadings (e : event) : list Time :=
  match e with Called o => readings o | Evicted _ => [] end.

Definition eventOk (e : event) : Prop :=
  match e with Called o => op_ok o | Evicted _ => True end.

Definition eventEnd (t : Time) (e : event) : Time := default t (last (eventReadings e)).

Fixpoint timed (t : Time) (es : list event) : Prop :=
  match es with
  | [] => True
  | e :: es' => StronglySorted Z.le (t :: eventReadings e) /\ eventOk e /\ timed (eventEnd t e) es'
  end.

Definition finish (t : Time) (es : list event) : Time := foldl eventEnd t es.

Lemma readShards_evict k s : readShards (evict k s) = readShards (deleteLockedInWriteLockedShard k s).
Proof. unfold evict. by rewrite readShards_propagate. Qed.

Lemma evict_effect t k s m :
  refines t s m ->
  wrote [wire (ChDel [k])] s (evict k s) /\ effect t m [ChDel [k]] (delete k m) /\
  refines t (evict k s) (delete k m).
Proof.
  intros Hr. split_and!.
  - by apply wrote_propagate.
  - apply effect_del. intros k'. rewrite vis_delete.
    destruct (decide (k' = k)) as [->|Hne]; [by rewrite bool_decide_true by set_solver|].
    by rewrite bool_decide_false by set_solver.
  - eapply refines_ext; [apply readShards_evict|by apply refines_delete].
Qed.

(** Every event has an effect, and journals it. *)
Lemma happen_effect t e s m :
  Millisecond <= t -> StronglySorted Z.le (t :: eventReadings e) -> eventOk e -> refines t s m ->
  exists cs m', wrote (wire <$> cs) s (happen e s) /\ effect (eventEnd t e) m cs m' /\
    refines (eventEnd t e) (happen e s) m' /\ t <= eventEnd t e.
Proof.
  intros Ht Hs Ho Hr. destruct e as [o|k]; cbn [happen eventReadings eventOk] in *.
  - assert (zeroTime <= t) by (unfold zeroTime, Millisecond, Second in *; lia).
    destruct (run_step t o s m ltac:(done) Hs Ho Hr) as [_ Hr1].
    destruct (run_effect t o s m Ht Hs Ho Hr) as (cs1 & Hw & Heff).
    apply lastReading_le in Hs. exists cs1, (spec o m).1. by split_and!.
  - destruct (evict_effect t k s m Hr) as (Hw & Heff & Hr1).
    exists [ChDel [k]], (delete k m). change (eventEnd t (Evicted k)) with t. split_and!; [done..|lia].
Qed.

(** Whatever happens, the journal keeps what is needed to rebuild the keyspace. *)
Lemma history_recovers t es s m cs :
  Millisecond <= t -> timed t es -> refines t s m -> recovers t m cs ->
  exists cs' m', wrote (wire <$> cs') s (history es s) /\
    refines (finish t es) (history es s) m' /\ recovers (finish t es) m' (cs ++ cs') /\
    t <= finish t es.
Proof.
  revert t s m cs. induction es as [|e es IH]; intros t s m cs Ht Hok Hr Hrec.
  { exists [], m. rewrite app_nil_r. split_and!; [by apply wrote_nil|done|done|simpl; lia]. }
  destruct Hok as (Hs & Ho & Hok).
  destruct (happen_effect t e s m Ht Hs Ho Hr) as (cs1 & m1 & Hw & Heff & Hr1 & Hle).
  destruct (IH (eventEnd t e) (happen e s) m1 (cs ++ cs1)) as (cs2 & m2 & Hw2 & Hr2 & Hrec2 & Hle2);
    [lia|done..| |].
  { eapply recovers_effect; [by eapply recovers_later|done]. }
  exists (cs1 ++ cs2), m2. cbn [history finish foldl]. split_and!.
  - rewrite fmap_app. by eapply wrote_trans.
  - done.
  - by rewrite app_assoc.
  - unfold finish in Hle2. lia.
Qed.
End History.

(** ** The handlers on journalled records *)

Lemma parseTTL_millis n :
  is_int64 (n * Millisecond) -> parseTTL (FormatInt n) Millisecond = Some (n * Millisecond).
Proof.
  intros Hn. unfold parseTTL.
  assert (is_int64 n) as Hi by (unfold is_int64, minInt64, maxInt64, Millisecond in *; lia).
  rewrite (ParseInt_FormatInt n Hi).
  change (Z.quot maxInt64 Millisecond) with 9223372036854.
  change (Z.quot minInt64 Millisecond) with (-9223372036854).
  rewrite (proj2 (Z.ltb_ge _ _)), (proj2 (Z.ltb_ge _ _)), wrap64_small; [done|done|..];
    unfold is_int64, minInt64, maxInt64, Millisecond in *; lia.
Qed.

Lemma epochPlus_millis n : epochPlus (n * Millisecond) = ofUnixMilli n.
Proof. unfold epochPlus, Time_Add, ofUnixMilli. lia. Qed.

(** A record replay can read: lists are not empty, deadlines are in range. *)
Definition recordable (c : change) : Prop :=
  match c with
  | ChSet _ _ d => IsZero d = true \/ (0 < UnixMilli d /\ is_int64 (trunc d))
  | ChMSet pairs => pairs <> []
  | ChDel ks => ks <> []
  | ChDeadline _ d => is_int64 (trunc d)
  end.

Section Wire.
Context (lib : Lib) (env : Env).

Lemma applyLogged_run name rest c s s' out :
  assoc (ToUpper lib name) (commands lib env) = Some c ->
  isWrite c = true -> arityOk c rest = true ->
  fn c rest (s, []) = ((s', out), Ret tt) -> head out <> Some Byte.x2d ->
  applyLogged lib env (name :: rest) s = (s', None).
Proof.
  intros Hc Hw Ha Hf Hout. unfold applyLogged. rewrite Hc, Hw, Ha, Hf. cbn [negb].
  destruct out as [|b msg]; [done|]. rewrite bool_decide_false; [done|].
  intros ->. by apply Hout.
Qed.

Lemma set_plain k v s :
  set lib env [k; v] (s, []) = ((setStore (Set_ k v (store s)) s, encode (VSimple (bs "OK"))), Ret tt).
Proof. reflexivity. Qed.

Lemma set_pxat k v n s :
  0 < n -> is_int64 (n * Millisecond) ->
  set lib env [k; v; cmdPXAT; FormatInt n] (s, []) =
    ((setStore (SetWithDeadline (Now env 0) (Now env 1) k v (ofUnixMilli n) (store s)) s,
      encode (VSimple (bs "OK"))), Ret tt).
Proof.
  intros Hpos Hn. unfold set, arg. cbn [lookup list_lookup].
  rewrite !GoM_bind_ret.
  change (lenZ [k; v; cmdPXAT; FormatInt n] =? 2) with false.
  change (lenZ [k; v; cmdPXAT; FormatInt n] =? 4) with true. cbn iota.
  rewrite !GoM_bind_ret.
  change (assoc (ToUpper lib cmdPXAT) expiryOptions) with (Some (mkOption Millisecond true)).
  cbn iota. rewrite !GoM_bind_ret. cbn [unit_ absolute].
  rewrite parseTTL_millis by done.
  rewrite (proj2 (Z.leb_gt _ _)) by (unfold Millisecond; lia).
  rewrite epochPlus_millis. reflexivity.
Qed.

Lemma mset_pairs pairs s :
  mset lib (concat ((fun p => [Key p; Value p]) <$> pairs)) (s, []) =
    ((setStore (MSet pairs (store s)) s, encode (VSimple (bs "OK"))), Ret tt).
Proof.
  unfold mset. set (args := concat _).
  assert (lenZ args = 2 * lenZ pairs) as Hl.
  { unfold args, lenZ. clear args. induction pairs as [|p pairs IH]; [done|].
    rewrite fmap_cons. cbn [concat app length]. lia. }
  assert (pairsOf args = pairs) as Hp.
  { clear Hl. unfold args. induction pairs as [|[k v] pairs IH]; [done|].
    rewrite fmap_cons. cbn [concat app pairsOf Key Value]. by rewrite IH. }
  rewrite Hl. replace (2 * lenZ pairs) with (lenZ pairs * 2) by lia. rewrite Z.mod_mul by lia.
  cbn [Z.eqb negb]. rewrite Hp. reflexivity.
Qed.

Lemma del_keys ks s :
  del env ks (s, []) =
    ((setStore (Del (Now env 0) ks (store s)).1 s,
      encode (VInteger (Del (Now env 0) ks (store s)).2)), Ret tt).
Proof.
  unfold del, stored, keys, mbind, GoM_bind. destruct (Del (Now env 0) ks (store s)). reflexivity.
Qed.

Lemma pexpireat_millis k n s :
  is_int64 (n * Millisecond) ->
  pexpireat env [k; FormatInt n] (s, []) =
    ((setStore (ExpireAt (Now env 0) k (ofUnixMilli n) (store s)).1 s,
      encode (VInteger (integerOf (ExpireAt (Now env 0) k (ofUnixMilli n) (store s)).2))), Ret tt).
Proof.
  intros Hn. unfold pexpireat, expireAtIn, arg. cbn [lookup list_lookup].
  rewrite GoM_bind_ret, parseTTL_millis by done. rewrite GoM_bind_ret, epochPlus_millis.
  unfold stored, mbind, GoM_bind. destruct (ExpireAt _ _ _ _). reflexivity.
Qed.

Lemma arityOk_variadic n w f rest :
  n <= lenZ rest -> arityOk (mkCommand (W := bytes) n (-1) w f) rest = true.
Proof. intros Hn. unfold arityOk. cbn [minArgs maxArgs]. by rewrite (proj2 (Z.ltb_ge _ _)). Qed.

Lemma sorted2 (t a b : Z) : t <= a -> a <= b -> StronglySorted Z.le [t; a; b].
Proof. intros. repeat constructor; lia. Qed.

(** A server with another keyspace, and the same settings. *)
Definition rebuilt (s s' : Server) : Prop :=
  s' = setStore (store s') s /\ configured (store s) (store s').

Lemma rebuilt_refl s : rebuilt s s.
Proof. by destruct s. Qed.

Lemma rebuilt_trans s1 s2 s3 : rebuilt s1 s2 -> rebuilt s2 s3 -> rebuilt s1 s3.
Proof.
  intros [H1 K1] [H2 K2]. split; [|by eapply configured_trans].
  rewrite H2 at 1. rewrite H1. done.
Qed.

Lemma rebuilt_run o s : rebuilt s (setStore (run o (store s)).1 s).
Proof. split; [done|]. apply configured_run. Qed.

(** The handler of a record does what [redo] says. *)
Lemma applyLogged_wire t c s m :
  zeroTime <= t -> t <= Now env 0%nat <= Now env 1%nat -> refines t (store s) m -> recordable c ->
  exists s', applyLogged lib env (wire c) s = (s', None) /\
    refines (Now env 1%nat) (store s') (redo (Now env 0%nat) c m) /\ rebuilt s s'.
Proof.
  intros Hz Ht Hr Hc.
  assert (refines (Now env 0%nat) (store s) m) as Hr0 by (eapply refines_later; [|done]; lia).
  destruct c as [k v d|pairs|ks|k d]; cbn [wire recordable redo] in *.
  - unfold setRecord. destruct (IsZero d) eqn:Hd.
    + eexists. split; [eapply applyLogged_run; [reflexivity|done|done|apply set_plain|done]|].
      cbn [store setStore]. split; [|apply (rebuilt_run (OpSet k v))].
      eapply refines_later; [|by apply refines_setLocked]. lia.
    + destruct Hc as [|[Hpos Hin]]; [done|]. unfold unixMillis, trunc in *.
      eexists. split; [eapply applyLogged_run; [reflexivity|done|done|by apply set_pxat|done]|].
      cbn [store setStore]. set (o := OpSetWithDeadline (Now env 0) (Now env 1) k v (ofUnixMilli (UnixMilli d))).
      split; [|apply (rebuilt_run o)].
      destruct (run_step t o (store s) m Hz) as [_ H]; [apply sorted2; lia|done|done|]. exact H.
  - destruct pairs as [|p pairs]; [done|].
    eexists. split; [eapply applyLogged_run; [reflexivity|done| |apply mset_pairs|done]|].
    + apply arityOk_variadic. unfold lenZ. rewrite fmap_cons. cbn [concat app length]. lia.
    + cbn [store setStore]. split; [|apply (rebuilt_run (OpMSet (p :: pairs)))].
      eapply refines_later; [|by apply (MSet_step (Now env 0%nat) (p :: pairs))]. lia.
  - destruct ks as [|k ks]; [done|].
    eexists. split; [eapply applyLogged_run; [reflexivity|done| |apply del_keys|done]|];
      [apply arityOk_variadic; unfold lenZ; cbn [length]; lia|].
    cbn [store setStore]. pose proof (rebuilt_run (OpDel (Now env 0) (k :: ks)) s) as Hb.
    cbn [run] in Hb. pose proof (Del_refines (Now env 0%nat) (k :: ks) (store s) m Hr0) as Hd.
    destruct (Del (Now env 0) (k :: ks) (store s)). split; [|exact Hb].
    eapply refines_later; [|apply Hd]. lia.
  - unfold unixMillis, trunc in *.
    eexists. split; [eapply applyLogged_run; [reflexivity|done|done|by apply pexpireat_millis|done]|].
    cbn [store setStore]. set (a := ofUnixMilli _).
    pose proof (rebuilt_run (OpExpireAt (Now env 0) k a) s) as Hb. cbn [run] in Hb.
    assert (zeroTime <= Now env 0%nat) as Hz0 by lia.
    pose proof (ExpireAt_refines (Now env 0%nat) k a (store s) m Hz0 Hr0) as Hd.
    destruct (ExpireAt (Now env 0) k a (store s)). split; [|exact Hb].
    eapply refines_later; [|apply Hd]. lia.
Qed.
End Wire.

(** ** Replaying a journal *)

(** The callback of [ReplayAOF]; the environment of the [n]-th record is [envs n]. *)
Definition replayer (lib : Lib) (envs : nat -> Env) (args : list bytes) (st : Server * nat) :
    (Server * nat) * option error :=
  let '(s, n) := st in
  let '(s', e) := applyLogged lib (envs n) args s in ((s', S n), e).

(** The clock during the restart: it starts no earlier than [t] and does not go
    backwards. *)
Definition restart_clock (t : Time) (envs : nat -> Env) : Prop :=
  t <= Now (envs 0%nat) 0 /\
  forall n, Now (envs n) 0 <= Now (envs n) 1 /\ Now (envs n) 1 <= Now (envs (S n)) 0.

Lemma restart_clock_from t envs n : restart_clock t envs -> t <= Now (envs n) 0.
Proof.
  intros [H0 Hs]. induction n as [|n IH]; [done|]. destruct (Hs n). lia.
Qed.

Lemma replayer_all lib envs t0 cs0 cs n s m :
  Forall recordable cs -> restart_clock t0 envs -> zeroTime <= t0 ->
  redone t0 (Now (envs n) 0) cs0 m -> refines (Now (envs n) 0) (store s) m ->
  exists s' m',
    applyAll (replayer lib envs) (wire <$> cs) (s, n) = Some (s', (n + length cs)%nat) /\
    redone t0 (Now (envs (n + length cs)%nat) 0) (cs0 ++ cs) m' /\
    refines (Now (envs (n + length cs)%nat) 0) (store s') m' /\ rebuilt s s'.
Proof.
  intros Hc Hclk Hz. revert cs0 n s m Hc.
  induction cs as [|c cs IH]; intros cs0 n s m Hc Hre Hr.
  { exists s, m. rewrite Nat.add_0_r, app_nil_r. split_and!; [done..|apply rebuilt_refl]. }
  apply Forall_cons in Hc as [Hc Hcs]. pose proof (restart_clock_from t0 envs n Hclk) as Hn.
  destruct (proj2 Hclk n) as [H1 H2].
  destruct (applyLogged_wire lib (envs n) (Now (envs n) 0) c s m) as (s1 & Ha & Hr1 & Hb1);
    [lia|lia|done|done|].
  rewrite fmap_cons. cbn [applyAll replayer]. rewrite Ha.
  destruct (IH (cs0 ++ [c]) (S n) s1 (redo (Now (envs n) 0) c m)) as (s' & m' & Hall & Hre' & Hr' & Hb');
    [done| |eapply refines_later; [|done]; lia|].
  { eapply redone_step; [done|lia|lia]. }
  exists s', m'. cbn [length]. rewrite Nat.add_succ_r. rewrite <- app_assoc in Hre'.
  split_and!; [done..|by eapply rebuilt_trans].
Qed.

(** What a server that starts from a log shows, compared with the store the log was
    written from: no binding the store would not show, and all of those whose key has
    been given no deadline that has passed, since it was last written or deleted. *)
Definition shows {J} (s' : Server) (s : Store J) (cs : list change) (from : Time) : Prop :=
  forall T k, from <= T ->
    (forall v d, see T (store s') k = Some (v, d) ->
       exists d', see T s k = Some (v, d') /\ d = settled d') /\
    (forall v d, see T s k = Some (v, d) ->
       (forall x, x ∈ deadlines k cs -> T < trunc x) ->
       see T (store s') k = Some (v, settled d)).

Lemma recordable_dated c : recordable c -> dated c.
Proof.
  destruct c as [k v d|pairs|ks|k d]; simpl; try done. intros [Hz|[Hpos _]]; [by left|right].
  unfold UnixMilli, Millisecond in *. zlia.
Qed.

(** The same of a map. *)
Definition showsMap (s' : Server) (m : kv) (cs : list change) (from : Time) : Prop :=
  forall T k, from <= T ->
    (forall v d, see T (store s') k = Some (v, d) ->
       exists d', vis T m k = Some (v, d') /\ d = settled d') /\
    (forall v d, vis T m k = Some (v, d) ->
       (forall x, x ∈ deadlines k cs -> T < trunc x) ->
       see T (store s') k = Some (v, settled d)).

(** Replaying a journal whose complete records recover a map, on a server with an empty
    keyspace: the log is accepted, cut back to its complete records, and the server shows
    that map, which the records recover again. *)
Lemma replay_map_cut (lib : Lib) t m cs cut n (srv : Server) :
  zeroTime <= t -> readShards (store srv) = readShards (store NewServer) ->
  (cut <= length (enc (wire <$> cs)))%nat -> n = complete (wire <$> cs) cut ->
  recovers t m (take n cs) -> Forall recordable (take n cs) -> Forall sendable (wire <$> cs) ->
  forall (envs : nat -> Env) (src : source) (o : OS),
    calm o -> valid (linked o) o -> (synced (disk o) <= length (content (disk o)))%nat ->
    content (disk o) = take cut (enc (wire <$> cs)) -> reads src o -> restart_clock t envs ->
    let T := Now (envs (length (take n cs))) 0 in
    exists o' s' res m',
      Replay (replayer lib envs) src o (srv, 0%nat) = (o', (s', length (take n cs)), res, None) /\
      clean o' (wire <$> take n cs) /\ calm o' /\ showsMap s' m (take n cs) T /\
      rebuilt srv s' /\ refines T (store s') m' /\ redone t T (take n cs) m'.
Proof.
  intros Hz Hnew Hcut Hn Hrec Hrc Hsd envs src o Hcalm Hv Hsy Hct Hrd Hclk T0.
  assert (refines (Now (envs 0%nat) 0) (store srv) ∅) as HrN.
  { eapply refines_ext; [exact Hnew|]. apply New_refines. }
  destruct (replayer_all lib envs t [] (take n cs) 0 srv ∅) as (s' & m' & Hall & Hre & Hr' & Hb);
    [done|done|done|constructor; apply Hclk|done|].
  destruct (Replay_cut (replayer lib envs) (wire <$> cs) cut src o
              (srv, 0%nat) (s', length (take n cs))) as (o' & Hrep & Hcl & Hcalm'); try done.
  { rewrite <- Hn, <- fmap_take. exact Hall. }
  rewrite <- Hn, <- fmap_take in Hcl.
  eexists o', s', _, m'. split; [exact Hrep|]. split_and!; [done..| |done|done|done].
  intros T k HT. cbn [app Nat.add] in *.
  apply (refines_later _ T) in Hr'; [|done]. pose proof (redone_later _ _ _ _ _ Hre HT) as HreT.
  setoid_rewrite (ref_see _ _ _ Hr'). split.
  - intros v d. by apply (rec_sound _ _ _ _ (Hrec k)).
  - intros v d. by apply (rec_complete _ _ _ _ (Hrec k)).
Qed.

(** The same for the keyspace of a store. *)
Lemma replay_recovers_cut {J} (lib : Lib) t (s : Store J) m cs cut n (srv : Server) :
  zeroTime <= t -> refines t s m -> readShards (store srv) = readShards (store NewServer) ->
  (cut <= length (enc (wire <$> cs)))%nat -> n = complete (wire <$> cs) cut ->
  recovers t m (take n cs) -> Forall recordable (take n cs) -> Forall sendable (wire <$> cs) ->
  forall (envs : nat -> Env) (src : source) (o : OS),
    calm o -> valid (linked o) o -> (synced (disk o) <= length (content (disk o)))%nat ->
    content (disk o) = take cut (enc (wire <$> cs)) -> reads src o -> restart_clock t envs ->
    let T := Now (envs (length (take n cs))) 0 in
    exists o' s' res m',
      Replay (replayer lib envs) src o (srv, 0%nat) = (o', (s', length (take n cs)), res, None) /\
      clean o' (wire <$> take n cs) /\ calm o' /\ shows s' s (take n cs) T /\
      rebuilt srv s' /\ refines T (store s') m' /\ redone t T (take n cs) m'.
Proof.
  intros Hz Hr Hnew Hcut Hn Hrec Hrc Hsd envs src o Hcalm Hv Hsy Hct Hrd Hclk T0.
  destruct (replay_map_cut lib t m cs cut n srv Hz Hnew Hcut Hn Hrec Hrc Hsd envs src o
    Hcalm Hv Hsy Hct Hrd Hclk) as (o' & s' & res & m' & ? & ? & ? & Hs & Hb & Hr' & Hre).
  eexists o', s', res, m'. split_and!; [done..| |done|done|done].
  intros T k HT. apply (refines_later _ T) in Hr; [setoid_rewrite (ref_see _ _ _ Hr); by apply Hs|].
  pose proof (redone_lower _ _ _ _ Hre). unfold T0 in HT. lia.
Qed.

(** The same for a log that was not cut; and of the keys that have been given a deadline
    that has passed when the replay begins, none is there. *)
Lemma replay_recovers {J} (lib : Lib) t (s : Store J) m cs :
  zeroTime <= t -> refines t s m -> recovers t m cs ->
  Forall recordable cs -> Forall sendable (wire <$> cs) ->
  forall (envs : nat -> Env) (src : source) (o : OS),
    calm o -> clean o (wire <$> cs) -> reads src o -> restart_clock t envs ->
    exists o' s' n res,
      Replay (replayer lib envs) src o (NewServer, 0%nat) = (o', (s', n), res, None) /\
      clean o' (wire <$> cs) /\ shows s' s cs (Now (envs n) 0) /\
      forall k x, x ∈ deadlines k cs -> trunc x <= Now (envs 0%nat) 0 ->
      forall T, Now (envs n) 0 <= T -> see T (store s') k = None.
Proof.
  intros Hz Hr Hrec Hrc Hsd envs src o Hcalm (Hv & Hct & Hsy) Hrd [Hc0 Hcn].
  set (t0 := Now (envs 0%nat) 0) in *.
  pose proof (replay_recovers_cut lib t0 s m cs (length (enc (wire <$> cs))) (length cs) NewServer) as H.
  rewrite complete_all, length_fmap, !firstn_all in H.
  destruct (H ltac:(lia) (refines_later t t0 _ _ Hc0 Hr) eq_refl ltac:(lia) eq_refl
    (recovers_later _ _ _ _ Hc0 Hrec) Hrc Hsd envs src o Hcalm Hv Hsy Hct Hrd (conj (Z.le_refl t0) Hcn))
    as (o' & s' & res & m' & Hrep & Hcl & _ & Hs & _ & Hr' & Hre).
  exists o', s', (length cs), res. split_and!; [done..|]. intros k x Hx Hp T HT.
  rewrite (ref_see _ _ _ (refines_later _ T _ _ HT Hr')).
  by rewrite (vis_later _ T _ k HT), (redone_passed k x _ _ _ _ Hre Hx Hp).
Qed.

(** C6. Restarting restores the keyspace: run any history of operations and evictions
    on a journalled store, save its journal, and replay it later.  If the records can be
    read again, that is if they fit the protocol's limits and their deadlines are in the
    range that [applyLogged] reads back, [Replay] accepts the whole log, and the
    restarted server shows at any later time only bindings the old store would show, with
    their deadlines cut to the millisecond, and all of those whose key has been given no
    deadline that has passed, since it was last written or deleted. *)
Theorem restart_restores (lib : Lib) (t : Time) (es : list event) :
  Millisecond <= t -> timed t es ->
  let s := history es (SetJournal [] New) in
  exists cs, journal s = Some (wire <$> cs) /\
    (forall (envs : nat -> Env) (src : source) (o : OS),
       Forall recordable cs -> Forall sendable (wire <$> cs) ->
       calm o -> clean o (wire <$> cs) -> reads src o -> restart_clock (finish t es) envs ->
       exists o' s' n res,
         Replay (replayer lib envs) src o (NewServer, 0%nat) = (o', (s', n), res, None) /\
         clean o' (wire <$> cs) /\ shows s' s cs (Now (envs n) 0)).
Proof.
  intros Ht Hok s.
  assert (refines t (SetJournal [] New : Store (list (list bytes))) ∅) as Hr0.
  { eapply refines_ext; [|apply New_refines]. done. }
  destruct (history_recovers t es _ ∅ [] Ht Hok Hr0 (recovers_empty t)) as (cs & m & Hw & Hr & Hrec & Hle).
  fold s in Hw, Hr. exists cs. split.
  { unfold wrote in Hw. rewrite Hw. cbn [SetJournal journal fmap option_fmap option_map].
    by rewrite journalAll_list. }
  intros envs src o Hrc Hsd Hcalm Hcl Hrd Hclk.
  assert (zeroTime <= finish t es) as Hz by (unfold zeroTime, Millisecond, Second in *; lia).
  destruct (replay_recovers lib _ _ m cs Hz Hr Hrec Hrc Hsd envs src o Hcalm Hcl Hrd Hclk)
    as (o' & s' & n & res & ? & ? & ? & _).
  by exists o', s', n, res.
Qed.

(** ** Restarts *)

(** A clock that stands still from [t] on. *)
Definition frozen (t : Time) : nat -> Env := fun _ => mkEnv (fun _ => t) (fun _ _ => []).

Lemma restart_restores_witness :
  exists o' s' n res,
    Replay (replayer ascii_lib (frozen (5 * Second))) (whole (enc [[cmdSET; bs "k"; bs "v"]]))
      (disk_with (enc [[cmdSET; bs "k"; bs "v"]])) (NewServer, 0%nat) = (o', (s', n), res, None) /\
    see (6 * Second) (store s') (bs "k") = Some (bs "v", zeroTime).
Proof.
  destruct (restart_restores ascii_lib Second [Called (OpSet (bs "k") (bs "v"))]) as (cs & Hj & H).
  - unfold Second, Millisecond. lia.
  - split; [|split; exact I]. simpl. repeat constructor.
  - assert (Some [[cmdSET; bs "k"; bs "v"]] = Some (wire <$> cs)) as Hw
      by (rewrite <- Hj; vm_compute; reflexivity).
    injection Hw as Hw. symmetry in Hw. change (map wire cs) with (wire <$> cs) in Hw.
    destruct (wire_plain_set _ _ _ Hw) as (d & -> & Hd).
    clear Hj. destruct (H (frozen (5 * Second)) (whole (enc [[cmdSET; bs "k"; bs "v"]]))
      (disk_with (enc [[cmdSET; bs "k"; bs "v"]]))) as (o' & s' & n & res & Hrep & _ & Hall).
    + constructor; [by left|constructor].
    + rewrite Hw. repeat constructor; done.
    + reflexivity.
    + rewrite Hw. split_and!; [apply Nat.lt_0_1|reflexivity|]. apply Nat.leb_le. vm_compute. reflexivity.
    + split; [repeat constructor; done|]. split; [done|reflexivity].
    + split; [unfold frozen, Second; cbn; lia|]. intros i. unfold frozen. cbn. lia.
    + exists o', s', n, res. split; [exact Hrep|].
      destruct (Hall (6 * Second) (bs "k")) as [_ Hc]; [unfold frozen, Second; cbn; lia|].
      apply (Hc (bs "v") zeroTime).
      * vm_compute. reflexivity.
      * intros x Hx. unfold deadlines in Hx. cbn [foldl deadlines_step] in Hx. rewrite Hd, decide_True in Hx by done.
        exfalso. apply elem_of_nil in Hx. exact Hx.
Defined.

(** ** Extended deadlines *)

(** Giving a live key a deadline in the future journals that deadline. *)
Lemma ExpireAt_extends {J} `{!Journal J} now key at_ (s : Store J) v d :
  see now s key = Some (v, d) -> now < at_ ->
  (ExpireAt now key at_ s).2 = true /\ wrote [wire (ChDeadline key at_)] s (ExpireAt now key at_ s).1.
Proof.
  unfold see, ExpireAt. fold (entry_at s key). destruct (entry_at s key) as [e|]; [|done].
  intros Hs Hlt. destruct (live now (expiresAt e)) eqn:Hl; [|done].
  assert (expired e now = false) as -> by by rewrite expired_live, Hl.
  unfold After. rewrite (proj2 (Z.ltb_lt _ _) Hlt). split; [done|by apply wrote_propagate].
Qed.

Section Extended.
Context (t t1 t2 t2' : Time) (es : list event) (k v : bytes) (ttl1 ttl2 : Duration).
Context (Ht : Millisecond <= t) (Hes : timed t es) (Hset : finish t es <= t1 <= t2) (Hexp : t2 <= t2').
Context (Hlive : t2' < t1 + ttl1) (Hext : t1 + ttl1 < t2 + ttl2).

Definition setWithTTL : Store (list (list bytes)) :=
  history (es ++ [Called (OpSetWithTTL t1 k v ttl1)]) (SetJournal [] New).

(** The store and its journal after the SET. *)
Lemma set_with_ttl :
  exists m cs, journal (history es (SetJournal [] New)) = Some (wire <$> cs) /\
    refines t1 setWithTTL (<[k := (v, t1 + ttl1)]> m) /\
    journal setWithTTL = Some (wire <$> (cs ++ [ChSet k v (t1 + ttl1)])) /\
    recovers t1 (<[k := (v, t1 + ttl1)]> m) (cs ++ [ChSet k v (t1 + ttl1)]) /\ Millisecond <= t1.
Proof.
  assert (refines t (SetJournal [] New : Store (list (list bytes))) ∅) as Hr0.
  { eapply refines_ext; [|apply New_refines]. done. }
  destruct (history_recovers t es _ ∅ [] Ht Hes Hr0 (recovers_empty t)) as (cs & m & Hw & Hr & Hrec & Hle).
  assert (zeroTime <= finish t es) as Hz by (unfold zeroTime, Millisecond, Second in *; lia).
  destruct (run_step (J := list (list bytes)) _ (OpSetWithTTL t1 k v ttl1) _ m Hz ltac:(repeat constructor; lia) I Hr)
    as [_ Hr1].
  change (lastReading _ _) with t1 in Hr1. cbn [spec fst run] in Hr1.
  assert (setWithTTL = SetWithTTL t1 k v ttl1 (history es (SetJournal [] New))) as ->.
  { unfold setWithTTL, history. by rewrite foldl_app. }
  unfold SetWithTTL, Time_Add in *. rewrite (proj2 (Z.leb_gt ttl1 0)) in * by lia.
  assert (effect t1 m [ChSet k v (t1 + ttl1)] (<[k := (v, t1 + ttl1)]> m)) as He by (apply effect_set; lia).
  assert (journal (history es (SetJournal [] New)) = Some (wire <$> cs)) as Hj.
  { unfold wrote in Hw. rewrite Hw. cbn [SetJournal journal fmap option_fmap option_map].
    by rewrite journalAll_list. }
  exists m, cs. split_and!; [done|done| | |lia].
  - pose proof (wrote_trans _ _ _ _ _ Hw (wrote_setLocked k v (t1 + ttl1) _ _ eq_refl)) as Hw'.
    unfold wrote in Hw'. cbn [SetJournal journal fmap option_fmap option_map] in Hw'.
    rewrite journalAll_list in Hw'. by rewrite fmap_app.
  - eapply recovers_effect; [|exact He]. eapply recovers_later; [|exact Hrec]. lia.
Qed.

(** And after the EXPIRE. *)
Lemma expire_extends :
  let '(s, answer) := Expire t2 t2' k ttl2 setWithTTL in
  answer = true /\
  exists m cs, journal (history es (SetJournal [] New)) = Some (wire <$> cs) /\
    refines t2' s (<[k := (v, t2 + ttl2)]> m) /\
    journal s = Some (wire <$> (cs ++ [ChSet k v (t1 + ttl1); ChDeadline k (t2 + ttl2)])) /\
    recovers t2' (<[k := (v, t2 + ttl2)]> m) (cs ++ [ChSet k v (t1 + ttl1); ChDeadline k (t2 + ttl2)]) /\
    Millisecond <= t2'.
Proof.
  destruct set_with_ttl as (m & cs & Hj0 & Hr & Hj & Hrec & Hms). set (d1 := t1 + ttl1) in *.
  set (m1 := <[k := (v, d1)]> m) in *. set (s1 := setWithTTL) in *.
  assert (vis t2' m1 k = Some (v, d1)) as Hv.
  { unfold m1. rewrite vis_insert, decide_True, live_later by (done || lia). done. }
  assert (see t2' s1 k = Some (v, d1)) as Hs.
  { rewrite (ref_see _ _ _ (refines_later t1 t2' _ _ ltac:(lia) Hr)). exact Hv. }
  assert (zeroTime <= t1) as Hz by (unfold zeroTime, Millisecond, Second in *; lia).
  assert (spec_expireAt t2' k (t2 + ttl2) m1 = (<[k := (v, t2 + ttl2)]> m1, true)) as Hspec.
  { unfold spec_expireAt. rewrite Hv. by rewrite (proj2 (Z.leb_gt (t2 + ttl2) t2')) by lia. }
  destruct (run_step (J := list (list bytes)) t1 (OpExpire t2 t2' k ttl2) s1 m1 Hz ltac:(apply sorted2; lia) I Hr) as [_ Hr'].
  cbn [spec fst run] in Hr'. rewrite Hspec in Hr'. change (lastReading _ _) with t2' in Hr'.
  unfold Expire, Time_Add in *. destruct (ExpireAt_extends t2' k (t2 + ttl2) s1 v d1 Hs ltac:(lia)) as [Ha Hw].
  destruct (ExpireAt t2' k (t2 + ttl2) s1) as [s answer]. cbn [fst snd] in *. split; [done|].
  exists m1, cs. change [ChSet k v d1; ChDeadline k (t2 + ttl2)] with ([ChSet k v d1] ++ [ChDeadline k (t2 + ttl2)]).
  rewrite app_assoc. split_and!; [done|done| | |lia].
  - unfold wrote in Hw. rewrite Hw, Hj. cbn [fmap option_fmap option_map].
    by rewrite journalAll_list, (fmap_app wire (cs ++ _) [_]).
  - eapply recovers_effect; [eapply recovers_later; [|exact Hrec]; lia|].
    eapply effect_deadline; [exact Hv|lia..].
Qed.
End Extended.

(** C37. An extended deadline does not survive a restart.  Take any history, in which a key
    is then set with a time to live and, while it is alive, given a later deadline by
    EXPIRE, which answers that it did.  The store shows the key until the later deadline;
    but a server that starts from the journal after the first deadline has passed accepts
    it, if its records can be read again, and never shows the key: replaying the
    first record deletes it, and the record of the second finds nothing. *)
Theorem extended_deadline_lost (lib : Lib) (t t1 t2 t2' : Time) (es : list event) (k v : bytes)
    (ttl1 ttl2 : Duration) :
  Millisecond <= t -> timed t es -> finish t es <= t1 -> t1 <= t2 -> t2 <= t2' ->
  t2' < t1 + ttl1 -> t1 + ttl1 < t2 + ttl2 ->
  let s1 : Store (list (list bytes)) :=
    history (es ++ [Called (OpSetWithTTL t1 k v ttl1)]) (SetJournal [] New) in
  let '(s, answer) := Expire t2 t2' k ttl2 s1 in
  answer = true /\ (forall T, t2' <= T < t2 + ttl2 -> see T s k = Some (v, t2 + ttl2)) /\
  exists cs0, journal (history es (SetJournal [] New)) = Some (wire <$> cs0) /\
    let cs := cs0 ++ [ChSet k v (t1 + ttl1); ChDeadline k (t2 + ttl2)] in
    journal s = Some (wire <$> cs) /\
    forall (envs : nat -> Env) (src : source) (o : OS),
      Forall recordable cs -> Forall sendable (wire <$> cs) ->
      calm o -> clean o (wire <$> cs) -> reads src o ->
      restart_clock t2' envs -> trunc (t1 + ttl1) <= Now (envs 0%nat) 0 ->
      exists o' s' n res,
        Replay (replayer lib envs) src o (NewServer, 0%nat) = (o', (s', n), res, None) /\
        forall T, Now (envs n) 0 <= T -> see T (store s') k = None.
Proof.
  intros Ht Hes H1 H12 H2 Hlive Hext s1.
  pose proof (expire_extends t t1 t2 t2' es k v ttl1 ttl2 Ht Hes (conj H1 H12) H2 Hlive Hext) as H.
  fold (setWithTTL t1 es k v ttl1) in s1. fold s1 in H.
  destruct (Expire t2 t2' k ttl2 s1) as [s answer]. destruct H as [Ha (m & cs & Hj0 & Hr & Hj & Hrec & Hms)].
  split; [done|]. split.
  { intros T HT. rewrite (ref_see _ _ _ (refines_later _ T _ _ (proj1 HT) Hr)).
    by rewrite vis_insert, decide_True, live_later by (done || lia). }
  exists cs. split; [exact Hj0|]. cbn zeta. split; [exact Hj|].
  intros envs src o Hrc Hsd Hcalm Hcl Hrd Hclk Hp.
  assert (zeroTime <= t2') as Hz by (unfold zeroTime, Millisecond, Second in *; lia).
  destruct (replay_recovers lib t2' s _ _ Hz Hr Hrec Hrc Hsd envs src o Hcalm Hcl Hrd Hclk)
    as (o' & s' & n & res & Hrep & _ & _ & Hgone).
  exists o', s', n, res. split; [exact Hrep|]. apply (Hgone k (t1 + ttl1)); [|exact Hp].
  unfold deadlines. rewrite foldl_app. cbn [foldl deadlines_step].
  rewrite !decide_True, positive_not_zero by (done || lia). set_solver.
Qed.

(** Five seconds to live, then an hour, and a restart at ten seconds. *)
Definition extended : Store (list (list bytes)) :=
  (Expire (2 * Second) (2 * Second) (bs "k") (3600 * Second)
     (setWithTTL (1 * Second) [] (bs "k") (bs "v") (5 * Second))).1.

Definition extendedLog : list record := default [] (journal extended).

Lemma extendedLog_wire :
  extendedLog = wire <$> [ChSet (bs "k") (bs "v") (6 * Second); ChDeadline (bs "k") (3602 * Second)].
Proof. vm_compute. reflexivity. Qed.

Lemma extendedLog_sendable : Forall sendable extendedLog.
Proof.
  rewrite extendedLog_wire. repeat constructor; try done; vm_compute; try done; repeat constructor; done.
Qed.

Lemma extended_deadline_lost_witness :
  see (10 * Second) extended (bs "k") = Some (bs "v", 3602 * Second) /\
  exists o' s' n res,
    Replay (replayer ascii_lib (frozen (10 * Second))) (whole (enc extendedLog)) (disk_with (enc extendedLog))
      (NewServer, 0%nat) = (o', (s', n), res, None) /\
    see (10 * Second) (store s') (bs "k") = None.
Proof.
  pose proof (extended_deadline_lost ascii_lib Second (1 * Second) (2 * Second) (2 * Second) []
    (bs "k") (bs "v") (5 * Second) (3600 * Second) ltac:(done) I ltac:(done) ltac:(done) ltac:(done)
    ltac:(done) ltac:(done)) as H. cbn zeta in H.
  change (history _ _) with (setWithTTL (1 * Second) [] (bs "k") (bs "v") (5 * Second)) in H at 1.
  destruct (Expire _ _ _ _ _) as [s answer] eqn:Hs. destruct H as (_ & Hsee & cs0 & Hcs0 & _ & H).
  assert (cs0 = []) as -> by (injection Hcs0 as Hcs0; by destruct cs0).
  assert (extended = s) as -> by (unfold extended; by rewrite Hs).
  rewrite <- Z.mul_add_distr_r in Hsee, H. rewrite <- Z.mul_add_distr_r in H. change (1 + 5) with 6 in H. change (2 + 3600) with 3602 in Hsee, H.
  split; [rewrite Hsee; [reflexivity|by split]|]. rewrite app_nil_l in H. rewrite <- extendedLog_wire in H.
  destruct (H (frozen (10 * Second)) (whole (enc extendedLog)) (disk_with (enc extendedLog)))
    as (o' & s' & n & res & Hrep & Hgone).
  - constructor; [right; split; [done|by vm_compute]|]. constructor; [by vm_compute|done].
  - apply extendedLog_sendable.
  - reflexivity.
  - split_and!; [apply Nat.lt_0_1|reflexivity|apply Nat.leb_le; vm_compute; reflexivity].
  - split; [repeat constructor; rewrite extendedLog_wire; done|]. by split; [|apply app_nil_r].
  - split; [unfold frozen, Second; cbn; lia|]. intros i. unfold frozen. cbn. lia.
  - vm_compute. discriminate.
  - exists o', s', n, res. split; [exact Hrep|]. apply Hgone. unfold frozen, Second. cbn. lia.
Defined.
