(* ===== verification/Journals.v ===== *)
(** * The store does not look at its journal

    Whatever it is that a store journals to, it does the same things and gives the same
    answers: its programs in Sections.v only ever append to the journal.  So two stores that
    [agree] on everything else and whose journals are related, in a way that appending
    preserves, still agree after the same steps of the same clients ([kstep_agree]).

    Net.v uses it with the log of AofLog.v on one side, where system calls fail and syncs
    happen in between, and the list of all records on the other, to which the theorems of
    Linearize.v and LinearRecovery.v apply. *)

From stdpp Require Import base gmap list strings relations.
From Stdlib Require Import ZArith Lia.
From Stdlib Require Import Strings.Byte.
From S2P Require Import Prelude.
From S2P Require Import GoStrconv.
From S2P Require Import GoTime.
From S2P Require Import Shard.
From S2P Require Import Store.
From S2P Require Import Expire.
From S2P Require Import Evict.
From S2P Require Import StoreSpec.
From S2P Require Import Sections.

#[local] Open Scope Z_scope.

(** A relation of journals that appending preserves. *)
Definition appends {J K} `{!Journal J} `{!Journal K} (R : J -> K -> Prop) : Prop :=
  forall args j k, R j k -> R (Journal_Append args j).1 (Journal_Append args k).1.

Create HintDb agree.

Section Agree.
Context {J K : Type} `{!Journal J} `{!Journal K} (R : J -> K -> Prop) (HR : appends R).

Record agree (s : Store J) (s' : Store K) : Prop := {
  ag_shards : readShards s' = readShards s;
  ag_memory : maxMemory s' = maxMemory s;
  ag_policy : policy s' = policy s;
  ag_clock : clock s' = clock s;
  ag_stats : stats s' = stats s;
  ag_journal : option_Forall2 R (journal s) (journal s')
}.

(** Stores that differ in their journals only, and what is read from them. *)
Ltac agreed H := let H1 := fresh in let H2 := fresh in let H3 := fresh in let H4 := fresh in let H5 := fresh in
  destruct H as [H1 H2 H3 H4 H5 ?]; split;
  cbn [readShards maxMemory policy clock stats journal setShard setStats SetJournal]; rewrite ?H1, ?H2, ?H3, ?H4, ?H5; try done.

Lemma agree_shardOf s s' k : agree s s' -> shardOf s' k = shardOf s k.
Proof. intros [H _ _ _ _ _]. unfold shardOf. by rewrite H. Qed.

Lemma agree_setShard k sh s s' : agree s s' -> agree (setShard k sh s) (setShard k sh s').
Proof. intros H. unfold setShard. agreed H. Qed.

Lemma agree_setStats st s s' : agree s s' -> agree (setStats st s) (setStats st s').
Proof. intros H. unfold setStats. agreed H. Qed.

Lemma agree_propagate args s s' : agree s s' -> agree (propagate args s) (propagate args s').
Proof.
  intros H. pose proof (ag_journal _ _ H) as Hj. unfold propagate.
  destruct Hj as [j k Hjk|]; [|done]. unfold SetJournal. agreed H. constructor. by apply HR.
Qed.

#[local] Hint Resolve agree_setShard agree_setStats agree_propagate : agree.

Lemma agree_set k v d s s' :
  agree s s' -> agree (setLockedInWriteLockedShard k v d s) (setLockedInWriteLockedShard k v d s').
Proof.
  intros H. unfold setLockedInWriteLockedShard. rewrite (agree_shardOf _ _ k H), (ag_clock _ _ H). auto with agree.
Qed.

Lemma agree_delete k s s' :
  agree s s' -> agree (deleteLockedInWriteLockedShard k s) (deleteLockedInWriteLockedShard k s').
Proof. intros H. unfold deleteLockedInWriteLockedShard. rewrite (agree_shardOf _ _ k H). auto with agree. Qed.

Lemma agree_propagateSet k v d s s' : agree s s' -> agree (propagateSetLocked k v d s) (propagateSetLocked k v d s').
Proof. intros H. unfold propagateSetLocked. case_match; auto with agree. Qed.

Lemma agree_addHit s s' : agree s s' -> agree (addHit s) (addHit s').
Proof. intros H. unfold addHit. rewrite (ag_stats _ _ H). auto with agree. Qed.

Lemma agree_addMiss s s' : agree s s' -> agree (addMiss s) (addMiss s').
Proof. intros H. unfold addMiss. rewrite (ag_stats _ _ H). auto with agree. Qed.

Lemma agree_addEvicted s s' : agree s s' -> agree (addEvicted s) (addEvicted s').
Proof. intros H. unfold addEvicted. rewrite (ag_stats _ _ H). auto with agree. Qed.

Lemma agree_tick s s' : agree s s' -> agree (tick s) (tick s').
Proof. intros H. unfold tick. agreed H. Qed.

Lemma agree_touchKey k s s' : agree s s' -> agree (touchKey k s) (touchKey k s').
Proof.
  intros H. unfold touchKey. rewrite (agree_shardOf _ _ k H). case_match; [|done].
  unfold touch. rewrite (agree_shardOf _ _ k H), (ag_clock _ _ H). auto with agree.
Qed.

#[local] Hint Resolve agree_set agree_delete agree_propagateSet agree_addHit agree_addMiss agree_addEvicted
  agree_tick agree_touchKey : agree.

Lemma agree_recheck k t s s' : agree s s' -> agree (recheck k t s) (recheck k t s').
Proof. intros H. unfold recheck. rewrite (agree_shardOf _ _ k H). repeat case_match; auto with agree. Qed.

Lemma agree_Del_loop now ks removed n s s' :
  agree s s' ->
  let '(s1, rm, m) := Del_loop now ks removed n s in
  let '(s1', rm', m') := Del_loop now ks removed n s' in agree s1 s1' /\ rm' = rm /\ m' = m.
Proof.
  revert removed n s s'. induction ks as [|k ks IH]; intros removed n s s' H; [done|]. cbn [Del_loop].
  rewrite (agree_shardOf _ _ k H). destruct (data (shardOf s k) !! k); apply IH; auto with agree.
Qed.

Lemma agree_Del now ks s s' :
  agree s s' -> agree (Del now ks s).1 (Del now ks s').1 /\ (Del now ks s').2 = (Del now ks s).2.
Proof.
  intros H. unfold Del. pose proof (agree_Del_loop now ks [] 0 s s' H) as Hd.
  destruct (Del_loop now ks [] 0 s) as [[s1 rm] n]. destruct (Del_loop now ks [] 0 s') as [[s1' rm'] n'].
  destruct Hd as (Hd & -> & ->). cbn [fst snd]. case_match; auto with agree.
Qed.

Lemma agree_MSet pairs s s' : agree s s' -> agree (MSet pairs s) (MSet pairs s').
Proof.
  intros H. unfold MSet. apply agree_propagate. revert s s' H.
  induction pairs as [|p pairs IH]; intros s s' H; [done|]. cbn [foldl]. auto with agree.
Qed.

Lemma agree_ExpireAt now k d s s' :
  agree s s' ->
  agree (ExpireAt now k d s).1 (ExpireAt now k d s').1 /\ (ExpireAt now k d s').2 = (ExpireAt now k d s).2.
Proof.
  intros H. unfold ExpireAt, setDeadline. rewrite (agree_shardOf _ _ k H).
  repeat case_match; simpl; auto with agree.
Qed.

Lemma agree_sweep n now keys i scanned s s' :
  agree s s' ->
  agree (sweepShard n now keys i scanned s).1 (sweepShard n now keys i scanned s').1 /\
  (sweepShard n now keys i scanned s').2 = (sweepShard n now keys i scanned s).2.
Proof.
  intros H. unfold sweepShard. rewrite (ag_shards _ _ H).
  destruct (expireShard _ _ _ _ _ _) as [[sh sc] g]. cbn [fst snd]. split; [|done]. agreed H.
Qed.

End Agree.

#[local] Hint Resolve agree_propagateSet agree_propagate agree_addHit agree_addMiss agree_addEvicted agree_touchKey
  agree_set : agree.

(** ** Programs *)

Section Programs.
Context {J K : Type} `{!Journal J} `{!Journal K}.

(** Two programs that do the same to stores that agree, whatever the relation of their
    journals. *)
Inductive same : prog J -> prog K -> Prop :=
| same_return r : same (Return r) (Return r)
| same_step f k f' k' :
    (forall R, appends R -> forall t s s', agree R s s' -> agree R (f t s) (f' t s')) ->
    (forall R, appends R -> forall t s s', agree R s s' -> same (k t s) (k' t s')) ->
    same (Step f k) (Step f' k')
| same_choose k k' : (forall b, same (k b) (k' b)) -> same (Choose k) (Choose k')
| same_lock p p' : same p p' -> same (Lock p) (Lock p')
| same_unlock p p' : same p p' -> same (Unlock p) (Unlock p').

Lemma same_Clock k k' : (forall t, same (k t) (k' t)) -> same (Clock k) (Clock k').
Proof. intros H. by apply same_step; auto. Qed.

Lemma same_Look k k' :
  (forall R, appends R -> forall s s', agree R s s' -> same (k s) (k' s')) -> same (Look k) (Look k').
Proof. intros H. apply same_step; eauto. Qed.

Lemma same_Act f f' p p' :
  (forall R, appends R -> forall s s', agree R s s' -> agree R (f s) (f' s')) -> same p p' ->
  same (Act f p) (Act f' p').
Proof. intros H Hp. apply same_step; auto. Qed.

#[local] Hint Resolve same_return same_choose same_lock same_unlock same_Clock same_Look same_Act : agree.

Lemma same_get key : same (getP key) (getP key).
Proof.
  apply same_Clock. intros now. apply same_Look. intros R HR s s' H. rewrite (agree_shardOf _ _ _ key H).
  destruct (data (shardOf s key) !! key) as [e|]; [|auto with agree].
  destruct (negb (expired e now)).
  - apply same_choose. intros b. destruct b; auto with agree.
  - apply same_step; intros R1 HR1 t s1 s1' H1; [by apply agree_recheck|auto with agree].
Qed.

Lemma same_ttl key : same (ttlP key) (ttlP key).
Proof.
  apply same_Clock. intros now. apply same_Look. intros R HR s s' H. unfold TTL. rewrite (agree_shardOf _ _ _ key H).
  repeat case_match; simplify_eq; auto with agree.
Qed.

Lemma same_exists now keys n : same (existsP now keys n) (existsP now keys n).
Proof.
  revert n. induction keys as [|k keys IH]; intros n; [apply same_return|]. apply same_Look. intros R HR s s' H.
  unfold existsKey. rewrite (agree_shardOf _ _ _ k H). auto.
Qed.

Lemma same_dbsize now shards n : same (dbsizeP now shards n) (dbsizeP now shards n).
Proof.
  revert n. induction shards as [|i shards IH]; intros n; [apply same_return|]. apply same_Look. intros R HR s s' H.
  rewrite (ag_shards _ _ _ H). auto.
Qed.

Lemma same_setLocked k v d p p' : same p p' -> same (setLockedP k v d p) (setLockedP k v d p').
Proof. intros Hp. unfold setLockedP. auto with agree. Qed.

Lemma same_set k v d : same (setP k v d) (setP k v d).
Proof. unfold setP. auto using same_setLocked with agree. Qed.

Lemma same_del keys k k' : (forall n, same (k n) (k' n)) -> same (delP keys k) (delP keys k').
Proof.
  intros Hk. apply same_Clock. intros now. apply same_lock, same_step; intros R HR t s s' H; destruct (agree_Del R HR now keys s s' H) as [H1 H2];
    [done|]. rewrite H2. by apply same_unlock.
Qed.

Lemma same_liveEntry now key k k' : (forall e, same (k e) (k' e)) -> same (liveEntryP now key k) (liveEntryP now key k').
Proof.
  intros Hk. apply same_Look. intros R HR s s' H. rewrite (agree_shardOf _ _ _ key H).
  repeat case_match; auto. apply same_Act; [|done]. intros. by apply agree_delete.
Qed.

Lemma same_expireAt key d : same (expireAtP key d) (expireAtP key d).
Proof.
  apply same_Clock. intros now. apply same_lock, same_step; intros R HR t s s' H; destruct (agree_ExpireAt R HR now key d s s' H) as [H1 H2];
    [done|]. rewrite H2. auto with agree.
Qed.

Lemma same_sample n now range shards scanned :
  same (sampleP n now range shards scanned) (sampleP n now range shards scanned).
Proof.
  revert scanned. induction shards as [|i shards IH]; intros scanned; [apply same_return|]. cbn [sampleP].
  destruct (scanned =? n); [apply same_return|]. apply same_step; intros R HR t s s' H;
    destruct (agree_sweep R n now (range i) i scanned s s' H) as [H1 H2]; [done|]. by rewrite H2.
Qed.

Lemma same_evict victims p p' : same p p' -> same (evictP victims p) (evictP victims p').
Proof.
  intros Hp. induction victims as [|k victims IH]; [done|]. cbn [evictP].
  apply same_Act; [intros; by apply agree_delete|]. auto with agree.
Qed.

Lemma same_program q : same (program q) (program q).
Proof.
  destruct q; cbn [program].
  - apply same_get.
  - apply same_ttl.
  - apply same_Clock. intros. apply same_exists.
  - apply same_Clock. intros. apply same_dbsize.
  - apply same_set.
  - case_match; [apply same_del; intros; apply same_return|]. apply same_Clock. intros. apply same_set.
  - apply same_Clock. intros. case_match; [apply same_del; intros; apply same_return|apply same_set].
  - apply same_lock, same_Act; [intros; by apply agree_MSet|auto with agree].
  - apply same_Clock. intros. apply same_lock, same_liveEntry. intros e. cbv zeta.
    repeat case_match; try (by apply same_unlock, same_return); apply same_setLocked, same_unlock, same_return.
  - apply same_Clock. intros. apply same_lock, same_liveEntry. intros e. cbv zeta.
    apply same_setLocked, same_unlock, same_return.
  - apply same_Clock. intros. apply same_expireAt.
  - apply same_expireAt.
  - apply same_del. intros. apply same_return.
  - apply same_Clock. intros. apply same_Act; [intros; by apply agree_tick|apply same_sample].
  - apply same_lock, same_evict. auto with agree.
Qed.

(** ** Configurations *)

Definition sameClient (x : client J) (y : client K) : Prop :=
  todo y = todo x /\ option_Forall2 same (running x) (running y).

Record twin (R : J -> K -> Prop) (c : conf J) (d : conf K) : Prop := {
  tw_time : time d = time c;
  tw_store : agree R (shared c) (shared d);
  tw_gate : gate d = gate c;
  tw_clients : Forall2 sameClient (clients c) (clients d);
  tw_trace : trace d = trace c
}.

Lemma twin_resume R c d i l p p' :
  twin R c d -> option_Forall2 same p p' -> Forall2 sameClient (resume i l p c) (resume i l p' d).
Proof. intros H Hp. apply Forall2_insert; [apply H|by split]. Qed.

Lemma twin_client R c d i l p :
  twin R c d -> clients c !! i = Some (mkClient l p) ->
  exists p', clients d !! i = Some (mkClient l p') /\ option_Forall2 same p p'.
Proof.
  intros H Hi. destruct (Forall2_lookup_l _ _ _ _ _ (tw_clients _ _ _ H) Hi) as ([l' p'] & Hd & Hl & Hp).
  cbn in Hl, Hp. subst l'. by exists p'.
Qed.

(** Whatever one configuration does the other can do. *)
Lemma kstep_agree R c c' d : appends R -> twin R c d -> kstep c c' -> exists d', kstep d d' /\ twin R c' d'.
Proof.
  intros HR H [i c1 Hs|t Ht].
  2: { exists (mkConf t (shared d) (gate d) (clients d) (trace d)). split.
       - apply k_clock. by rewrite (tw_time _ _ _ H).
       - destruct H. by split. }
  pose proof H as [H1 H2 H3 H4 H5]. pose proof (ag_journal _ _ _ H2) as Hj.
  destruct Hs as [q l Hi|f k l Hi|k b l Hi|p l Hi Hg|p l Hi|r l Hi];
    destruct (twin_client _ _ _ _ _ _ H Hi) as (p' & Hd & Hp); inversion Hp as [x y Hxy|]; subst; clear Hp;
    try (inversion Hxy; subst; clear Hxy).
  - eexists. split; [eapply k_client, k_invoke, Hd|]. split; cbn; try done; try congruence.
    eapply twin_resume; [done|]. constructor. apply same_program.
  - eexists. split; [eapply k_client, k_step, Hd|]. rewrite H1. split; cbn; try done; try congruence; [auto|].
    eapply twin_resume; [done|]. constructor. eauto.
  - eexists. split; [eapply k_client, (k_choose _ _ _ b), Hd|]. split; cbn; try done; try congruence.
    eapply twin_resume; [done|]. by constructor.
  - eexists. split.
    { eapply k_client, k_lock; [exact Hd|]. unfold canLock in *. destruct Hj; by rewrite ?H3. }
    split; cbn; try done; try congruence.
    + unfold lockGate. destruct Hj; congruence.
    + eapply twin_resume; [done|]. by constructor.
  - eexists. split; [eapply k_client, k_unlock, Hd|]. split; cbn; try done; try congruence.
    + unfold unlockGate. destruct Hj; congruence.
    + eapply twin_resume; [done|]. by constructor.
  - eexists. split; [eapply k_client, k_return, Hd|]. split; cbn; try done; try congruence.
    eapply twin_resume; [done|]. constructor.
Qed.

Lemma twin_begin R t s s' reqs : agree R s s' -> twin R (begin t s reqs) (begin t s' reqs).
Proof.
  intros H. split; try done. cbn. induction reqs as [|l reqs IH]; constructor; [split; constructor|done].
Qed.
End Programs.
