(* ===== verification/LinearRecovery.v ===== *)
(** * The journal of a concurrent store recovers a moment of its run

    Recovery.v is about one client whose clock readings come in order.  Clients beside one
    another journal out of the order of their readings: an EXPIRE may have read the clock
    before the deadline of its key and take effect after it.  [kept] is what the journal
    guarantees all the same, and every instant of the specification of Linearize.v keeps
    it.

    So the store's journal at any moment of any interleaving, and every first part of it,
    recovers the map of one moment of the run of the specification that explains the
    clients' replies ([journal_moments]).  Net.v has the log in its place, and crashes. *)

From stdpp Require Import base gmap list strings sorting relations.
From Stdlib Require Import ZArith Lia.
From Stdlib Require Import Strings.Byte.
From S2P Require Import Prelude.
From S2P Require Import GoTime.
From S2P Require Import Store.
From S2P Require Import StoreInv.
From S2P Require Import StoreSpec.
From S2P Require Import Journalling.
From S2P Require Import Recovery.
From S2P Require Import Sections.
From S2P Require Import Linearize.

#[local] Open Scope Z_scope.

(** ** A deadline that comes too late *)

Section Stale.
Context (k : bytes) (t : Time) (m : kv) (cs : list change).

(** EXPIRE with an old reading: the key's deadline had passed already, or the new one has. *)
Lemma recovers_deadline_stale v0 d0 d1 m' :
  recovers_at k t m cs -> m !! k = Some (v0, d0) ->
  IsZero d0 = true \/ d0 ∈ deadlines k cs -> live t d0 = false \/ live t d1 = false ->
  Millisecond <= d1 -> m' !! k = Some (v0, d1) ->
  recovers_at k t m' (cs ++ [ChDeadline k d1]).
Proof.
  intros Hrec Hm Hd0 Hstale Hms Hm'.
  assert (forall T, vis T m' k = if live T d1 then Some (v0, d1) else None) as Hv'.
  { intros T. unfold vis. by rewrite Hm'. }
  assert (forall T d, t <= T -> live t d = false -> live T d = false) as Hdead.
  { intros T d HT Hl. destruct (live T d) eqn:HlT; [|done]. apply (live_mono t) in HlT; [congruence|done]. }
  apply recovers_change; cbn [redo deadlines_step]; rewrite ?decide_True by done; setoid_rewrite Hv'.
  - intros T1 r Hr T v d HT Hv Hdl. pose proof (redone_lower _ _ _ _ Hr). exfalso.
    destruct Hstale as [Hs|Hs]; [|by rewrite (Hdead T) in Hv by (lia || done)].
    destruct Hd0 as [Hz|Hin]; [unfold live in Hs; by rewrite Hz in Hs|].
    assert (T < trunc d0) as HT0 by (apply Hdl; set_solver). pose proof (trunc_le d0).
    rewrite live_later in Hs by lia. done.
  - intros v d Hv. destruct (live t d1); [|done]. injection Hv as <- <-. right. set_solver.
  - intros T1 T r v d HT Hr. pose proof (redone_lower _ _ _ _ Hr). unfold spec_expireAt.
    destruct (vis T1 r k) as [[v1 d2]|] eqn:Hv1; simpl.
    + destruct (rec_sound _ _ _ _ Hrec _ _ _ _ Hr Hv1) as (d3 & Hm3 & ->).
      unfold vis in Hm3. rewrite Hm in Hm3. destruct (live T1 d0) eqn:Hl; [|done].
      destruct Hstale as [Hs|Hs]; [by rewrite (Hdead T1) in Hl by (lia || done)|].
      assert (trunc d1 <= T1) as Hp.
      { pose proof (trunc_le d1). unfold live in Hs. rewrite (positive_not_zero d1 Hms) in Hs.
        simpl in Hs. lia. }
      rewrite (proj2 (Z.leb_le _ _) Hp). simpl. by rewrite vis_delete, decide_True.
    + intros Hv. apply (vis_earlier T1) in Hv; [congruence|done].
Qed.
End Stale.

(** ** What the journal guarantees *)

(** The records recover the map, and they have the deadline of every binding, whether it has
    passed or not. *)
Record kept (t : Time) (m : kv) (cs : list change) : Prop := {
  kept_recovers : recovers t m cs;
  kept_dates : forall k v d, m !! k = Some (v, d) ->
    IsZero d = true \/ Millisecond <= d /\ d ∈ deadlines k cs
}.

Lemma kept_empty t : kept t ∅ [].
Proof. split; [apply recovers_empty|]. intros k v d Hk. by rewrite lookup_empty in Hk. Qed.

Lemma kept_later t t' m cs : t <= t' -> kept t m cs -> kept t' m cs.
Proof. intros Ht [H1 H2]. split; [by eapply recovers_later|done]. Qed.

Lemma kept_hides t m m' cs : hides t m m' -> kept t m cs -> kept t m' cs.
Proof.
  intros Hh [H1 H2]. split.
  - rewrite <- (app_nil_r cs). eapply recovers_effect; [done|]. apply effect_silent.
    intros k. apply (hides_vis t t); [done|]. auto.
  - intros k v d Hk. destruct (Hh k) as [Hm|[Hm _]]; rewrite Hm in Hk; [by eapply H2|done].
Qed.

(** One change that is an effect. *)
Lemma kept_change t m cs c m' :
  kept t m cs -> effect t m [c] m' ->
  (forall k, ~ touches k c -> m' !! k = m !! k) ->
  (forall k v d, touches k c -> m' !! k = Some (v, d) ->
     IsZero d = true \/ Millisecond <= d /\ d ∈ deadlines_step k (deadlines k cs) c) ->
  kept t m' (cs ++ [c]).
Proof.
  intros [H1 H2] He Hne Hk. split; [by eapply recovers_effect|]. intros k v d Hm'.
  rewrite deadlines_snoc. destruct (decide (touches k c)) as [Ht|Ht]; [by eapply Hk|].
  rewrite deadlines_untouched by done. rewrite Hne in Hm' by done. by eapply H2.
Qed.

Lemma kept_set t m cs k v d :
  IsZero d = true \/ Millisecond <= d -> kept t m cs ->
  kept t (<[k := (v, d)]> m) (cs ++ [ChSet k v d]).
Proof.
  intros Hd H. apply (kept_change _ m); [done|by apply effect_set| |]; simpl.
  - intros k' Hne. by rewrite lookup_insert_ne.
  - intros k' v' d' <-. rewrite lookup_insert_eq. intros [= <- <-]. rewrite decide_True by done.
    destruct Hd as [Hz|Hms]; [by left|right]. rewrite (positive_not_zero d Hms).
    split; [done|]. by apply list_elem_of_singleton.
Qed.

Lemma kept_mset t m cs pairs : kept t m cs -> kept t (setPairs pairs m) (cs ++ [ChMSet pairs]).
Proof.
  intros H. apply (kept_change _ m); [done|apply effect_mset| |]; simpl; intros k.
  - intros Hk. by destruct (setPairs_lookup pairs k) as [[]|[_ Hn]].
  - intros v d Hk. destruct (setPairs_lookup pairs k) as [[_ [x Hx]]|[]]; [|done].
    rewrite Hx. intros [= <- <-]. by left.
Qed.

Lemma kept_del t m cs ks m' :
  (forall k, m' !! k = if bool_decide (k ∈ ks) then None else m !! k) -> kept t m cs ->
  kept t m' (cs ++ [ChDel ks]).
Proof.
  intros Hm' H. apply (kept_change _ m); [done|apply effect_del| |]; simpl.
  - intros k. unfold vis. rewrite Hm'. by case_bool_decide.
  - intros k Hk. by rewrite Hm', bool_decide_false.
  - intros k v d Hk. by rewrite Hm', bool_decide_true.
Qed.

Lemma kept_deadline t m cs k v d0 d1 :
  m !! k = Some (v, d0) -> Millisecond <= d1 -> kept t m cs ->
  kept t (<[k := (v, d1)]> m) (cs ++ [ChDeadline k d1]).
Proof.
  intros Hm Hms [H1 H2]. pose proof (H2 k v d0 Hm) as Hd0. split.
  - intros k'. destruct (decide (k' = k)) as [->|Hne].
    + destruct (live t d0) eqn:Hl0; [destruct (live t d1) eqn:Hl1|].
      * eapply recovers_deadline_key; [apply H1| |by rewrite lookup_insert_eq|done].
        unfold vis. by rewrite Hm, Hl0.
      * eapply recovers_deadline_stale; [apply H1|done| |by right|done|by rewrite lookup_insert_eq]. tauto.
      * eapply recovers_deadline_stale; [apply H1|done| |by left|done|by rewrite lookup_insert_eq]. tauto.
    + eapply recovers_other; [apply H1| | |].
      * by rewrite vis_insert, decide_False.
      * intros T r. apply redo_untouched. simpl. congruence.
      * intros ds. apply deadlines_untouched. simpl. congruence.
  - intros k' v' d'. rewrite deadlines_snoc. simpl. destruct (decide (k' = k)) as [->|Hne].
    + rewrite lookup_insert_eq, decide_True by done. intros [= <- <-]. right. set_solver.
    + rewrite lookup_insert_ne, decide_False by done. by apply H2.
Qed.

(** ** Every instant keeps it *)

Lemma present_in ks m k : k ∈ present ks m <-> k ∈ ks /\ is_Some (m !! k).
Proof.
  revert m. induction ks as [|k' ks IH]; intros m; simpl; [set_solver|].
  destruct (m !! k') as [b|] eqn:Hk'.
  - rewrite elem_of_cons, IH, elem_of_cons. destruct (decide (k = k')) as [->|Hne].
    + rewrite Hk'. split; [intros _; split; [by left|by eexists]|by left].
    + rewrite lookup_delete_ne by done. naive_solver.
  - rewrite IH, elem_of_cons. split; [naive_solver|]. intros [[->|?] [x Hx]]; [congruence|].
    split; [done|by eexists].
Qed.

Lemma delete_one (k : bytes) (m : kv) (k' : bytes) : delete k m !! k' = if bool_decide (k' ∈ [k]) then None else m !! k'.
Proof. exact (spec_del_lookup [k] m k'). Qed.

Lemma kept_deletions t m cs ks :
  kept t m cs -> kept t (spec_del ks m) (cs ++ deletions ks m).
Proof.
  intros H. unfold deletions. destruct (present ks m) as [|k gone] eqn:Hp.
  - assert (spec_del ks m = m) as ->; [|by rewrite app_nil_r]. apply map_eq. intros k.
    rewrite spec_del_lookup. case_bool_decide as Hk; [|done].
    destruct (m !! k) eqn:Hm; [|done]. assert (k ∈ present ks m) as Hin by (apply present_in; by rewrite Hm).
    rewrite Hp in Hin. by apply elem_of_nil in Hin.
  - rewrite <- Hp. apply (kept_del _ m); [|done]. intros k'. rewrite spec_del_lookup.
    destruct (m !! k') as [b|] eqn:Hm; [|by do 2 case_bool_decide].
    assert (k' ∈ present ks m <-> k' ∈ ks) as Hin
      by (rewrite present_in, Hm; split; [by intros [? _]|split; [done|by eexists]]).
    by rewrite (bool_decide_ext _ _ Hin).
Qed.

(** The readings of an operation lie before the instant at which it acts. *)
Definition timely (t : Time) (o : op) : Prop := Forall (fun x => Millisecond <= x <= t) (readings o).

Lemma dropped_written k m' m : dropped (written k m') m = m.
Proof. unfold written. by destruct (m' !! k) as [[v d]|]. Qed.

(** The deadline of a binding that is written back. *)
Lemma kept_vis_date t now m cs k v d :
  kept t m cs -> vis now m k = Some (v, d) -> IsZero d = true \/ Millisecond <= d.
Proof.
  intros [_ H]. unfold vis. destruct (m !! k) as [[v' d']|] eqn:Hm; [|done]. case_match; [|done].
  intros [= -> ->]. destruct (H k v d Hm) as [|[? _]]; tauto.
Qed.

Lemma kept_incr t now m cs key delta :
  kept t m cs ->
  kept t (instant (OpIncrement now key delta) m).1 (cs ++ (instant (OpIncrement now key delta) m).2).
Proof.
  intros H. pose proof (kept_vis_date t now m cs key) as Hdate.
  unfold instant. rewrite spec_OpIncrement. unfold changes, spec_incr.
  destruct (vis now m key) as [[v d]|]; [destruct (integer_of v) as [n|]|];
    cbn [fst snd dropped foldl]; rewrite ?app_nil_r; [| |case_decide]; try done.
  - case_decide; cbn [fst snd dropped foldl]; rewrite ?dropped_written, ?app_nil_r; [|done].
    unfold written. rewrite lookup_insert_eq. apply kept_set; [by apply (Hdate v)|done].
  - cbn [fst snd]. rewrite dropped_written. unfold written. rewrite lookup_insert_eq.
    apply kept_set; [by left|done].
  - cbn [fst snd dropped foldl]. by rewrite app_nil_r.
Qed.

Lemma kept_append t now m cs key suffix :
  kept t m cs ->
  kept t (instant (OpAppend now key suffix) m).1 (cs ++ (instant (OpAppend now key suffix) m).2).
Proof.
  intros H. pose proof (kept_vis_date t now m cs key) as Hdate. unfold instant, changes. cbn [fst snd].
  rewrite dropped_written. cbn [spec].
  destruct (vis now m key) as [[v d]|]; cbn [default from_option id fst]; unfold written;
    rewrite lookup_insert_eq; (apply kept_set; [|done]); [by apply (Hdate v)|by left].
Qed.

Lemma kept_expireAt t now m cs key at_ :
  Millisecond <= now -> kept t m cs ->
  kept t (dropped (expireAtChanges now key at_ m) (spec_expireAt now key at_ m).1)
    (cs ++ expireAtChanges now key at_ m).
Proof.
  intros Hms H. unfold expireAtChanges, spec_expireAt, vis.
  destruct (m !! key) as [[v d]|] eqn:Hm; [|cbn; by rewrite app_nil_r].
  destruct (live now d); cbn [andb].
  - rewrite Z.leb_antisym. destruct (Z.ltb_spec now at_); cbn [negb fst dropped foldl].
    + eapply kept_deadline; [done|lia|done].
    + unfold spec_del. cbn [foldl]. rewrite delete_delete_eq. apply (kept_del _ m); [apply delete_one|done].
  - cbn [fst dropped foldl]. apply (kept_del _ m); [apply delete_one|done].
Qed.

Lemma instant_kept t m cs o :
  timely t o -> kept t m cs -> kept t (instant o m).1 (cs ++ (instant o m).2).
Proof.
  intros Ht H. destruct o; unfold timely, readings in Ht;
    repeat match goal with X : Forall _ (_ :: _) |- _ => inversion_clear X end;
    try (unfold instant; cbn [fst snd spec changes dropped foldl]; by rewrite app_nil_r).
  - apply kept_set; [by left|done].
  - unfold instant. cbn [fst snd spec changes]. destruct (Z.leb_spec ttl 0).
    + change (delete key m) with (spec_del [key] m). rewrite dropped_deletions. by apply kept_deletions.
    + apply kept_set; [right; lia|done].
  - unfold instant. cbn [fst snd spec changes]. destruct (Z.leb_spec at_ now).
    + change (delete key m) with (spec_del [key] m). rewrite dropped_deletions. by apply kept_deletions.
    + apply kept_set; [right; lia|done].
  - by apply kept_mset.
  - by apply kept_incr.
  - by apply kept_append.
  - unfold instant. rewrite spec_OpExpire. apply kept_expireAt; [lia|done].
  - unfold instant. rewrite spec_OpExpireAt. apply kept_expireAt; [lia|done].
  - unfold instant. cbn [fst snd spec changes]. rewrite dropped_deletions. by apply kept_deletions.
Qed.

(** An operation journals at most one record. *)
Lemma changes_short o m : (length (changes o m) <= 1)%nat.
Proof.
  assert (forall ks, (length (deletions ks m) <= 1)%nat) as Hd
    by (intros ks; unfold deletions; case_match; simpl; lia).
  assert (forall k m', (length (written k m') <= 1)%nat) as Hw
    by (intros k m'; unfold written; repeat case_match; simpl; lia).
  assert (forall now k at_, (length (expireAtChanges now k at_ m) <= 1)%nat) as He
    by (intros now k at_; unfold expireAtChanges; repeat case_match; simpl; lia).
  destruct o; simpl; try lia; repeat case_match; simpl; auto; lia.
Qed.

(** ** Runs of the specification *)

(** What a request still has to do keeps the guarantee, from [t0] on. *)
Fixpoint sound_from (t0 : Time) (p : aprog) : Prop :=
  match p with
  | AReturn _ => True
  | AClock k => forall t, t0 <= t -> sound_from t (k t)
  | ARead k => forall m, sound_from t0 (k m)
  | AWrite f k =>
      (forall t m cs, t0 <= t -> kept t m cs -> kept t (f m).1 (cs ++ (f m).2)) /\
      (forall m, length (f m).2 <= 1)%nat /\ (forall m, sound_from t0 (k m))
  end.

Lemma atomically_sound t0 o : timely t0 o -> sound_from t0 (atomically o).
Proof.
  intros Ho. split_and!; [|intros m; apply changes_short|done]. intros t m cs Ht. apply instant_kept.
  unfold timely in *. eapply Forall_impl; [exact Ho|]. simpl. intros x Hx. lia.
Qed.

Lemma aexists_sound t0 now keys n : sound_from t0 (aexists now keys n).
Proof. revert n. induction keys as [|k keys IH]; intros n; simpl; [done|]. intros m. apply IH. Qed.

Lemma adbsize_sound t0 now ids n : sound_from t0 (adbsize now ids n).
Proof. revert n. induction ids as [|i ids IH]; intros n; simpl; [done|]. intros m. apply IH. Qed.

Lemma aevict_sound t0 victims : sound_from t0 (aevict victims).
Proof.
  induction victims as [|k victims IH]; simpl; [done|]. split_and!; [|simpl; lia|done].
  intros t m cs _. apply kept_del, delete_one.
Qed.

Lemma promise_sound t0 q : Millisecond <= t0 -> sound_from t0 (promise q).
Proof.
  intros Hms. destruct q; unfold promise; try (intros t Ht); try (intros t' Ht');
    try (apply atomically_sound; repeat constructor; lia); try done.
  all: first [apply aexists_sound|apply adbsize_sound|apply aevict_sound].
Qed.

(** Every prefix of the log is the log of some moment of the run. *)
Definition moments (start a : aconf) : Prop :=
  forall pre, pre `prefix_of` alog a ->
    exists a0, rtc astep start a0 /\ rtc astep a0 a /\ alog a0 = pre /\
      kept (atime a) (amap a0) pre /\ (pre = alog a -> a0 = a).

Definition client_sound (t : Time) (y : aclient) : Prop :=
  match arunning y with Some p => exists t0, t0 <= t /\ sound_from t0 p | None => True end.

Record sound_run (start a : aconf) : Prop := {
  sr_reached : rtc astep start a;
  sr_time : Millisecond <= atime a;
  sr_clients : Forall (client_sound (atime a)) (aclients a);
  sr_moments : moments start a
}.

Lemma moments_kept start a : moments start a -> kept (atime a) (amap a) (alog a).
Proof. intros H. destruct (H _ (reflexivity _)) as (a0 & _ & _ & _ & Hk & He). by rewrite He in Hk. Qed.

Lemma moments_step start a a' new :
  rtc astep start a -> astep a a' -> moments start a ->
  alog a' = alog a ++ new -> (length new <= 1)%nat -> atime a <= atime a' ->
  kept (atime a') (amap a') (alog a') -> moments start a'.
Proof.
  intros Hr Ha Hm Hl Hn Ht Hk pre Hp. destruct (decide (pre = alog a')) as [->|Hne].
  { exists a'. split_and!; [by eapply rtc_r|done..]. }
  assert (pre `prefix_of` alog a) as Hp'.
  { rewrite Hl in Hp, Hne. destruct new as [|c [|c2 new]]; [by rewrite app_nil_r in Hp| |simpl in Hn; lia].
    destruct Hp as [w Hw]. destruct w as [|x w _] using rev_ind; [by rewrite app_nil_r in Hw|].
    rewrite app_assoc in Hw. apply app_inj_tail in Hw as [Hw _]. by exists w. }
  destruct (Hm pre Hp') as (a0 & H1 & H2 & H3 & H4 & _). exists a0.
  split_and!; [done|by eapply rtc_r|done|by eapply kept_later|done].
Qed.

Lemma sound_later t t' l : t <= t' -> Forall (client_sound t) l -> Forall (client_sound t') l.
Proof.
  intros Ht Hl. eapply Forall_impl; [exact Hl|]. intros y. unfold client_sound. destruct (arunning y); [|done].
  intros (t0 & ? & ?). exists t0. split; [lia|done].
Qed.

Lemma sound_client a i l p :
  Forall (client_sound (atime a)) (aclients a) -> aclients a !! i = Some (mkAClient l (Some p)) ->
  exists t0, t0 <= atime a /\ sound_from t0 p.
Proof. intros H Hi. by apply (Forall_lookup_1 _ _ _ _ H) in Hi. Qed.

Lemma sound_resume a i l o :
  Forall (client_sound (atime a)) (aclients a) ->
  (forall p, o = Some p -> exists t0, t0 <= atime a /\ sound_from t0 p) ->
  Forall (client_sound (atime a)) (aresume i l o a).
Proof.
  intros H Ho. apply Forall_insert; [done|]. unfold client_sound. simpl. destruct o; [by apply Ho|done].
Qed.

Lemma sound_step start a a' : sound_run start a -> astep a a' -> sound_run start a'.
Proof.
  intros [Hr Hms Hc Hm] Ha. pose proof (moments_kept _ _ Hm) as Hk.
  assert (forall a' new, astep a a' -> alog a' = alog a ++ new -> (length new <= 1)%nat ->
    atime a <= atime a' -> kept (atime a') (amap a') (alog a') ->
    Forall (client_sound (atime a')) (aclients a') -> sound_run start a') as Hgo.
  { intros a1 new Ha1 Hl Hn Ht Hk' Hc'. split; [by eapply rtc_r|lia|done|by eapply moments_step]. }
  pose proof Ha as Ha'. destruct Ha as [t Ht|i q l Hi|i k l Hi|i k l m' Hi Hh|i f k l m' Hi Hh|i r l Hi].
  - apply (Hgo _ []); cbn; [done|by rewrite app_nil_r|lia|done|by eapply kept_later|by eapply sound_later].
  - apply (Hgo _ []); cbn; [done|by rewrite app_nil_r|lia|lia|done|]. apply sound_resume; [done|].
    intros p [= <-]. exists (atime a). split; [lia|by apply promise_sound].
  - apply (Hgo _ []); cbn; [done|by rewrite app_nil_r|lia|lia|done|]. apply sound_resume; [done|].
    intros p [= <-]. destruct (sound_client _ _ _ _ Hc Hi) as (t0 & ? & Hs). exists (atime a).
    split; [lia|by apply Hs].
  - apply (Hgo _ []); cbn; [done|by rewrite app_nil_r|lia|lia|done|]. apply sound_resume; [done|].
    intros p [= <-]. destruct (sound_client _ _ _ _ Hc Hi) as (t0 & ? & Hs). exists t0.
    split; [done|apply Hs].
  - destruct (sound_client _ _ _ _ Hc Hi) as (t0 & Ht0 & Hf & Hn & Hs).
    apply (Hgo _ (f m').2); cbn; [done|done|apply Hn|lia| |].
    + apply Hf; [done|]. by eapply kept_hides.
    + apply sound_resume; [done|]. intros p [= <-]. by exists t0.
  - apply (Hgo _ []); cbn; [done|by rewrite app_nil_r|lia|lia|done|]. by apply sound_resume.
Qed.

Lemma sound_start t reqs : Millisecond <= t -> sound_run (abegin t ∅ reqs) (abegin t ∅ reqs).
Proof.
  intros Hms. split; [apply rtc_refl|done| |].
  - apply Forall_fmap, Forall_forall. by intros l _.
  - intros pre [w Hw]. symmetry in Hw. apply app_nil in Hw as [-> ->]. eexists.
    split_and!; [apply rtc_refl|apply rtc_refl|done|apply kept_empty|done].
Qed.

Lemma sound_steps start a a' : sound_run start a -> rtc astep a a' -> sound_run start a'.
Proof. intros H Hr. induction Hr as [|a a1 a2 Ha _ IH]; [done|]. by apply IH, (sound_step _ a). Qed.

(** ** Crashes *)

Section Crash.
Implicit Types c : conf (list (list bytes)).

(** The configuration, the run that explains it, and the moments of its journal's prefixes. *)
Lemma journal_moments (t : Time) (reqs : list (list req)) c :
  Millisecond <= t -> Forall (Forall req_ok) reqs ->
  rtc kstep (begin t (SetJournal [] New) reqs) c ->
  exists cs a,
    journal (shared c) = Some (wire <$> cs) /\ rtc astep (abegin t ∅ reqs) a /\
    atrace a = trace c /\ tracks (time c) (shared c) (amap a) /\ Millisecond <= time c /\
    forall n, exists a0,
      rtc astep (abegin t ∅ reqs) a0 /\ rtc astep a0 a /\ alog a0 = take n cs /\
      kept (time c) (amap a0) (take n cs) /\
      (gate c = None -> (length cs <= n)%nat -> a0 = a).
Proof.
  intros Hms Hok Hr.
  set (s0 := SetJournal [] New : Store (list (list bytes))) in *.
  assert (Forall (Forall (admitted (durable s0))) reqs) as Hok'.
  { eapply Forall_impl; [exact Hok|]. intros l Hl. eapply Forall_impl; [exact Hl|].
    intros q Hq. split; [done|by left]. }
  assert (tracks t s0 ∅) as Htr.
  { replace (∅ : kv) with (bindings s0) by (vm_compute; reflexivity).
    apply tracks_bindings, SetJournal_wf, New_wf. }
  destruct (sim_steps _ _ c _ _ (sim_begin s0 t ∅ reqs
    ltac:(unfold zeroTime, Millisecond, Second in *; lia) Htr Hok') Hr) as (a & pend & Ha & Hs).
  pose proof (sound_steps _ _ _ (sound_start t reqs Hms) Ha) as Hsr.
  destruct (sim_log _ _ _ _ Hs) as (cs & Hl & Hw). specialize (Hl eq_refl). specialize (Hw eq_refl).
  unfold wrote in Hw. cbn [s0 SetJournal journal fmap option_fmap option_map] in Hw.
  rewrite journalAll_list in Hw.
  exists cs, a. split_and!; [exact Hw|done|apply Hs|apply Hs| |].
  - rewrite <- (sim_time _ _ _ _ Hs). apply Hsr.
  - intros n. assert (take n cs `prefix_of` alog a) as Hp.
    { rewrite Hl. exists (drop n cs ++ pend). by rewrite app_assoc, take_drop. }
    destruct (sr_moments _ _ Hsr _ Hp) as (a0 & H1 & H2 & H3 & H4 & H5). exists a0.
    rewrite (sim_time _ _ _ _ Hs) in H4. split_and!; [done..|]. intros Hg Hn. apply H5.
    rewrite Hl, (sim_pend _ _ _ _ Hs Hg), app_nil_r. by apply take_ge.
Qed.

End Crash.
