(* ===== verification/Concurrency.v ===== *)
(** * What concurrent clients can see

    Three schedules of the clients of Sections.v, run by [schedule], that mark the limits of
    the theorem of Linearize.v: a command of several keys that is not one instant, a pair
    of increments without a journal, and a reader that is ahead of the journal. *)

From stdpp Require Import base gmap list strings relations.
From Stdlib Require Import ZArith Lia.
From Stdlib Require Import Strings.Byte.
From S2P Require Import Prelude.
From S2P Require Import GoStrconv.
From S2P Require Import GoTime.
From S2P Require Import Shard.
From S2P Require Import Store.
From S2P Require Import StoreInv.
From S2P Require Import StoreSpec.
From S2P Require Import Journalling.
From S2P Require Import Sections.
From S2P Require Import Linearize.

#[local] Open Scope Z_scope.

(** ** EXISTS is not atomic *)

Definition both : list Pair := [mkPair (bs "a") (bs "x"); mkPair (bs "b") (bs "y")].

Definition torn_start : conf (list (list bytes)) :=
  begin 10 (SetJournal [] New) [[QMSet both]; [QExists [bs "a"; bs "b"]]].

(** The reader has looked at one key when the writer comes. *)
Definition torn_order : list (option nat) :=
  replicate 3 (Some 1%nat) ++ replicate 5 (Some 0%nat) ++ replicate 2 (Some 1%nat).

(** C39. EXISTS of several keys can see half of an MSET: it takes one lock for each key, and the
    reply 1 is that of no instant at which the whole command could have run, since the two
    keys are never there one without the other. *)
Theorem exists_sees_half :
  exists c : conf (list (list bytes)),
    rtc kstep torn_start c /\ finished c /\
    trace c = [Invoke 1 (QExists [bs "a"; bs "b"]); Invoke 0 (QMSet both); Respond 0 RUnit;
               Respond 1 (RInt 1)] /\
    forall now m, m = ∅ \/ m = setPairs both ∅ ->
      (spec (OpExists now [bs "a"; bs "b"]) m).2 <> RInt 1.
Proof.
  assert ((fun c => (trace c, clients c)) <$> schedule torn_order torn_start =
    Some ([Invoke 1 (QExists [bs "a"; bs "b"]); Invoke 0 (QMSet both); Respond 0 RUnit;
           Respond 1 (RInt 1)], [mkClient [] None; mkClient [] None])) as Hrun by (vm_compute; reflexivity).
  destruct (schedule torn_order torn_start) as [c|] eqn:Hc; [|discriminate].
  injection Hrun as Ht Hcl. exists c. split_and!; [by eapply schedule_steps| |done|].
  - unfold finished. rewrite Hcl. by repeat constructor.
  - intros now m [-> | ->]; vm_compute; discriminate.
Qed.

(** ** Without a journal *)

(** A counter at 5, with and without a journal. *)
Definition counter (j : option (list (list bytes))) : Store (list (list bytes)) :=
  let s := Set_ (bs "n") (bs "5") New in
  mkStore (readShards s) j (maxMemory s) (policy s) (clock s) (stats s).

Definition two_incrs : list (list req) := [[QIncrement (bs "n") 1]; [QIncrement (bs "n") 1]].

(** Both look the counter up before either stores it. *)
Definition lost_order : list (option nat) :=
  replicate 4 (Some 0%nat) ++ replicate 4 (Some 1%nat) ++ replicate 4 (Some 0%nat)
  ++ replicate 4 (Some 1%nat).

(** C40. Without a journal an update is lost: two clients that increment a counter at 5
    can both look it up before either stores its result; both are told 6, and the
    counter is left at 6; one after the other they are told 6 and 7.  With a journal this
    schedule is impossible: the second has to wait at the gate. *)
Theorem unjournalled_increment_lost :
  (exists c, rtc kstep (begin 10 (counter None) two_incrs) c /\ finished c /\
     omap (fun x => match x with Respond i r => Some (i, r) | _ => None end) (trace c)
       = [(0%nat, RIncr (inl 6)); (1%nat, RIncr (inl 6))] /\
     val <$> entry_at (shared c) (bs "n") = Some (bs "6")) /\
  (runs [OpIncrement 10 (bs "n") 1; OpIncrement 10 (bs "n") 1] (counter None)).2
    = [RIncr (inl 6); RIncr (inl 7)] /\
  schedule lost_order (begin 10 (counter (Some [])) two_incrs) = None.
Proof.
  split; [|split; vm_compute; reflexivity].
  assert ((fun c => (clients c, omap (fun x => match x with Respond i r => Some (i, r) | _ => None end) (trace c),
                     val <$> entry_at (shared c) (bs "n"))) <$>
            schedule lost_order (begin 10 (counter None) two_incrs) =
          Some ([mkClient [] None; mkClient [] None],
                [(0%nat, RIncr (inl 6)); (1%nat, RIncr (inl 6))], Some (bs "6"))) as Hrun
    by (vm_compute; reflexivity).
  destruct (schedule _ _) as [c|] eqn:Hc; [|discriminate]. injection Hrun as Hcl Ht Hv.
  exists c. split_and!; [by eapply schedule_steps| |done..]. unfold finished. rewrite Hcl. by repeat constructor.
Qed.

(** ** Ahead of the journal *)

(** A value can be read before its record is in the journal: the client that writes it has
    left the shard's lock and is still inside the gate. *)
Lemma reader_ahead_of_journal :
  exists c, rtc kstep race_start c /\ journal (shared c) = Some [] /\
    Respond 1 (RBytes (Some (bs "1"))) ∈ trace c.
Proof.
  assert ((fun c => (trace c, journal (shared c))) <$>
            schedule (replicate 5 (Some 0%nat) ++ [None] ++ replicate 7 (Some 1%nat)) race_start =
          Some (take 3 race_trace, Some [])) as Hrun by (vm_compute; reflexivity).
  destruct (schedule _ _) as [c|] eqn:Hc; [|discriminate]. injection Hrun as Ht Hj.
  exists c. split_and!; [by eapply schedule_steps|done|]. rewrite Ht. apply list_elem_of_lookup. by exists 2%nat.
Qed.
