(* ===== verification/CommandsSpec.v ===== *)
(** * The command handlers: replies, refusals and durability

    On a reply buffer every command of a client writes exactly one RESP value and
    never panics, whatever its name and arguments; the server's store stays well
    formed.  The parsing and rounding of durations is exact except where the
    findings say.  Refused writes leave the keyspace alone, and under the always
    policy a write command that leaves the log healthy is on stable storage when
    its reply is written. *)

From stdpp Require Import base gmap list strings sorting relations.
From Stdlib Require Import ZArith Lia.
From Stdlib Require Import Strings.Byte.
From S2P Require Import Prelude.
From S2P Require Import GoStrconv.
From S2P Require Import GoPath.
From S2P Require Import RespWriter.
From S2P Require Import Bufio.
From S2P Require Import RespReader.
From S2P Require Import GoTime.
From S2P Require Import Store.
From S2P Require Import StoreInv.
From S2P Require Import Evict.
From S2P Require Import StoreSpec.
From S2P Require Import AofLog.
From S2P Require Import AofInv.
From S2P Require Import Commands.
From S2P Require Import Journalling.

#[local] Open Scope Z_scope.

(** ** Durations *)

(** Parsing is an exact overflow check. *)
Lemma parseTTL_spec (arg : bytes) (unit d : Duration) :
  unit = Second \/ unit = Millisecond ->
  parseTTL arg unit = Some d <->
  exists n, integer_of arg = Some n /\ d = n * unit /\ is_int64 d.
Proof.
  intros Hu. unfold parseTTL. rewrite integer_of_ParseInt.
  destruct (ParseInt arg) as [n|e] eqn:Hp; [|by split; [|intros (? & ? & _)]].
  assert (forall b, (Z.quot maxInt64 unit <? n) || (n <? Z.quot minInt64 unit) = b ->
          (b = false <-> is_int64 (n * unit))) as Hb.
  { intros b <-. rewrite orb_false_iff, !Z.ltb_ge. unfold is_int64, maxInt64, minInt64.
    destruct Hu as [-> | ->].
    - change (Z.quot (2 ^ 63 - 1) Second) with 9223372036.
      change (Z.quot (- 2 ^ 63) Second) with (-9223372036). unfold Second. lia.
    - change (Z.quot (2 ^ 63 - 1) Millisecond) with 9223372036854.
      change (Z.quot (- 2 ^ 63) Millisecond) with (-9223372036854). unfold Millisecond. lia. }
  destruct (_ || _); specialize (Hb _ eq_refl).
  - split; [done|]. intros (n' & [= <-] & -> & Hi). apply Hb in Hi. done.
  - assert (is_int64 (n * unit)) as Hi by (by apply Hb). rewrite wrap64_small by done.
    split; [intros [= <-]; eauto|]. by intros (n' & [= <-] & -> & _).
Qed.

(** C35. [parseTTL] is an exact overflow check: it accepts an argument if and only if it
    is the numeral of an [int64] whose product with the unit is an [int64] too, and
    the duration is that product, for the two units the commands use. *)
Theorem parseTTL_exact (arg : bytes) (unit d : Duration) :
  unit = Second \/ unit = Millisecond ->
  parseTTL arg unit = Some d <->
  exists n, integer_of arg = Some n /\ d = n * unit /\ is_int64 d.
Proof. apply parseTTL_spec. Qed.

Lemma parseTTL_exact_witness :
  parseTTL (bs "9223372036") Second = Some 9223372036000000000 <->
  exists n, integer_of (bs "9223372036") = Some n /\ 9223372036000000000 = n * Second /\
            is_int64 9223372036000000000.
Proof. apply parseTTL_exact. left. reflexivity. Defined.

(** TTL rounds to the nearest unit, at least 1, as long as the duration is not within
    half a unit of the largest [int64]; within it the sum overflows and the reply is
    1, for a key with 292 years left. *)
Theorem roundTTL_rounds (d unit : Duration) :
  unit = Second \/ unit = Millisecond -> 0 < d <= maxInt64 ->
  (d + unit / 2 <= maxInt64 ->
     let n := roundTTL d unit in
     1 <= n /\ (n = 1 \/ 2 * Z.abs (n * unit - d) <= unit)) /\
  (maxInt64 < d + unit / 2 -> roundTTL d unit = 1).
Proof.
  intros Hu Hd. assert (Z.quot unit 2 = unit / 2 /\ 0 < unit /\ 2 * (unit / 2) = unit
    /\ unit <= 1000000000) as (Hq & Hpos & Hhalf & Hmax).
  { destruct Hu as [-> | ->]; split_and!; reflexivity || (unfold Second, Millisecond; lia). }
  unfold roundTTL. rewrite Hq. split.
  - intros Hsmall. rewrite wrap64_small by (unfold is_int64, minInt64, maxInt64 in *; lia).
    rewrite Z.quot_div_nonneg by lia. cbv zeta.
    pose proof (Z.div_mod (d + unit / 2) unit ltac:(lia)).
    pose proof (Z.mod_pos_bound (d + unit / 2) unit Hpos).
    destruct (Z.ltb_spec ((d + unit / 2) / unit) 1); [lia|].
    split; [lia|]. right. nia.
  - intros Hbig. unfold wrap64.
    assert ((d + unit / 2 + 2 ^ 63) mod 2 ^ 64 = d + unit / 2 + 2 ^ 63 - 2 ^ 64) as ->.
    { symmetry. apply (Z.mod_unique_pos _ _ 1); unfold maxInt64 in *; lia. }
    unfold maxInt64 in *.
    assert (Z.quot (d + unit / 2 + 2 ^ 63 - 2 ^ 64 - 2 ^ 63) unit <= 0) as Hn.
    { rewrite <- (Z.opp_involutive (_ - 2 ^ 63)), Z.quot_opp_l by lia.
      pose proof (Z.quot_pos (- (d + unit / 2 + 2 ^ 63 - 2 ^ 64 - 2 ^ 63)) unit). lia. }
    destruct (Z.ltb_spec (Z.quot (d + unit / 2 + 2 ^ 63 - 2 ^ 64 - 2 ^ 63) unit) 1); lia.
Qed.

Lemma roundTTL_rounds_witness :
  roundTTL (9 * Second + 600 * Millisecond) Second = 10 /\ roundTTL 9223372036854000000 Second = 1.
Proof.
  split.
  - destruct (proj1 (roundTTL_rounds (9 * Second + 600 * Millisecond) Second (or_introl eq_refl)
               ltac:(unfold Second, Millisecond, maxInt64; lia))
               ltac:(vm_compute; discriminate)) as [_ _].
    vm_compute. reflexivity.
  - apply (proj2 (roundTTL_rounds 9223372036854000000 Second (or_introl eq_refl)
               ltac:(unfold maxInt64; lia))). vm_compute. reflexivity.
Defined.

(** ** Replies *)

(** A value whose line-framed text holds no CR or LF. *)
Definition framed (v : resp_value) : Prop :=
  match v with VSimple s | VError s => has_crlf s = false | _ => True end.

(** The order of map ranges is a legal one and the clock does not go backwards. *)
Record env_ok (env : Env) : Prop := {
  env_range : forall st, store_wf st -> valid_pools (poolRange env st) st;
  env_clock : forall i, Now env i <= Now env (S i);
  env_start : zeroTime <= Now env 0
}.

(** The text of an error fits an error reply. *)
Definition lib_ok (lib : Lib) : Prop := forall e, has_crlf (errorText lib e) = false.

Definition server_ok (s : Server) : Prop := store_wf (store s).

(** The handler writes one value and keeps the store well formed. *)
Definition replies (h : GoM (Server * bytes) unit) : Prop :=
  forall s w, server_ok s ->
    exists s' v, h (s, w) = ((s', w ++ encode v), Ret tt) /\ framed v /\ server_ok s'.

Lemma has_crlf_app s t : has_crlf (s ++ t) = has_crlf s || has_crlf t.
Proof. unfold has_crlf. apply existsb_app. Qed.

Lemma has_crlf_map (f : byte -> byte) s :
  (forall c, f c <> CR /\ f c <> LF) -> has_crlf (f <$> s) = false.
Proof.
  intros Hf. induction s as [|c s IH]; [done|]. rewrite fmap_cons. apply has_crlf_cons.
  split; [apply Hf|done].
Qed.

Lemma safeByte_printable c : safeByte c <> CR /\ safeByte c <> LF /\ (byteZ (safeByte c) <? 128) = true.
Proof. destruct c; repeat split; discriminate. Qed.

Lemma safeName_line name : has_crlf (safeName name) = false.
Proof.
  assert (forall l, has_crlf (safeByte <$> l) = false) as H.
  { intros l. apply has_crlf_map. intros c. destruct (safeByte_printable c) as (? & ? & _). done. }
  unfold safeName. case_decide; [rewrite has_crlf_app, H; reflexivity|apply H].
Qed.

Lemma safeName_ascii name : is_ascii (safeName name) = true.
Proof.
  assert (forall l, is_ascii (safeByte <$> l) = true) as H.
  { intros l. unfold is_ascii. apply forallb_forall. intros c Hc.
    apply list_elem_of_In, list_elem_of_fmap in Hc as (x & -> & _). apply safeByte_printable. }
  unfold safeName. case_decide; [rewrite is_ascii_app, H; reflexivity|apply H].
Qed.

Lemma lower_line s : has_crlf s = false -> has_crlf (lower_byte <$> s) = false.
Proof.
  induction s as [|c s IH]; [done|]. rewrite fmap_cons, !has_crlf_cons. intros [Hc Hs].
  split; [|by apply IH]. clear -Hc. destruct c; try (split; discriminate); by destruct Hc.
Qed.

Section Replies.
Context (lib : Lib) (Hlib : lib_ok lib) (env : Env) (Henv : env_ok env).
Implicit Types st : Store logState.

Lemma replies_reply m v : writes m (encode v) -> framed v -> replies (reply m).
Proof.
  intros Hm Hv s w Hs. exists s, v. unfold reply. rewrite (Hm w). done.
Qed.

Lemma replies_stored {A} (f : Store logState -> Store logState * A) k :
  (forall st, store_wf st -> store_wf (f st).1) -> (forall a, replies (k a)) ->
  replies (stored f ≫= k).
Proof.
  intros Hf Hk s w Hs. unfold stored, mbind, GoM_bind. specialize (Hf (store s) Hs).
  destruct (f (store s)) as [st a]. by apply Hk.
Qed.

Lemma replies_observe {A} (f : Server -> A) k :
  (forall a, replies (k a)) -> replies (observe f ≫= k).
Proof. intros Hk s w Hs. by apply Hk. Qed.

Lemma replies_arg i args k :
  (i < length args)%nat -> (forall a, replies (k a)) -> replies (arg i args ≫= k).
Proof.
  intros Hi Hk s w Hs. unfold arg.
  destruct (lookup_lt_is_Some_2 args i Hi) as [a ->]. by apply Hk.
Qed.

Lemma replies_error msg : has_crlf msg = false -> replies (reply (WriteError msg)).
Proof. intros Hm. by apply (replies_reply _ (VError msg)); [apply writes_error|]. Qed.

Lemma replies_simple msg : has_crlf msg = false -> replies (reply (WriteSimpleString msg)).
Proof. intros Hm. by apply (replies_reply _ (VSimple msg)); [apply writes_simple|]. Qed.

Lemma replies_integer n : replies (reply (WriteInteger n)).
Proof. by apply (replies_reply _ (VInteger n)); [apply writes_integer|]. Qed.

Lemma replies_bulk p : replies (reply (WriteBulkString p)).
Proof. by apply (replies_reply _ (VBulk p)); [apply writes_bulk|]. Qed.

Lemma replies_null : replies (reply WriteNullBulkString).
Proof. by apply (replies_reply _ VNullBulk); [apply writes_null_bulk|]. Qed.

Lemma replies_arity name : replies (wrongArity lib name).
Proof.
  apply replies_error. rewrite !has_crlf_app. unfold ToLower. rewrite safeName_ascii.
  by rewrite lower_line by apply safeName_line.
Qed.

Create HintDb replies.
#[local] Hint Resolve replies_stored replies_observe replies_arg replies_error replies_simple
  replies_integer replies_bulk replies_null replies_arity : replies.
#[local] Hint Extern 1 (has_crlf _ = false) => reflexivity : replies.

(** Store operations keep the store well formed, at the clock readings of [env]. *)
Lemma op_wf o st :
  StronglySorted Z.le (zeroTime :: readings o) -> op_ok o -> store_wf st -> store_wf (run o st).1.
Proof. apply run_wf. Qed.

Lemma clock_at i : zeroTime <= Now env i.
Proof.
  induction i as [|i IH]; [apply (env_start _ Henv)|]. pose proof (env_clock _ Henv i). lia.
Qed.

Lemma sorted_one (a : Z) : zeroTime <= a -> StronglySorted Z.le [zeroTime; a].
Proof. intros. repeat constructor; lia. Qed.

Lemma sorted_two i : StronglySorted Z.le [zeroTime; Now env i; Now env (S i)].
Proof. pose proof (clock_at i). pose proof (env_clock _ Henv i). repeat constructor; lia. Qed.

Lemma Get_wf i k st : store_wf st -> store_wf (Get (Now env i) (Now env (S i)) k st).1.
Proof.
  intros Hw. pose proof (op_wf (OpGet (Now env i) (Now env (S i)) k) st (sorted_two i) I Hw) as H.
  simpl in H. by destruct (Get _ _ _ _).
Qed.

Lemma Increment_wf k d st : is_int64 d -> store_wf st -> store_wf (Increment (Now env 0) k d st).1.
Proof.
  intros Hd Hw. pose proof (op_wf (OpIncrement (Now env 0) k d) st
    (sorted_one _ (clock_at 0)) Hd Hw) as H. simpl in H. by destruct (Increment _ _ _ _).
Qed.

Lemma Append_wf k v st : store_wf st -> store_wf (Store.Append (Now env 0) k v st).1.
Proof.
  intros Hw. pose proof (op_wf (OpAppend (Now env 0) k v) st
    (sorted_one _ (clock_at 0)) I Hw) as H. simpl in H. by destruct (Store.Append _ _ _ _).
Qed.

Lemma Del_wf ks st : store_wf st -> store_wf (Del (Now env 0) ks st).1.
Proof.
  intros Hw. pose proof (op_wf (OpDel (Now env 0) ks) st
    (sorted_one _ (clock_at 0)) I Hw) as H. simpl in H. by destruct (Del _ _ _).
Qed.

Lemma ExpireAt_wf k a st : store_wf st -> store_wf (ExpireAt (Now env 0) k a st).1.
Proof.
  intros Hw. pose proof (op_wf (OpExpireAt (Now env 0) k a) st
    (sorted_one _ (clock_at 0)) I Hw) as H. simpl in H. by destruct (ExpireAt _ _ _ _).
Qed.

Lemma Expire_wf k d st : store_wf st -> store_wf (Expire (Now env 0) (Now env 1) k d st).1.
Proof.
  intros Hw. pose proof (op_wf (OpExpire (Now env 0) (Now env 1) k d) st (sorted_two 0) I Hw) as H.
  simpl in H. by destruct (Expire _ _ _ _ _).
Qed.

Lemma BeginRewrite_wf (log : logState) st :
  store_wf st -> store_wf (let '(log', e) := BeginRewrite log in (SetJournal log' st, e)).1.
Proof. intros Hw. destruct (BeginRewrite log). by apply SetJournal_wf. Qed.

#[local] Hint Resolve Get_wf Increment_wf Append_wf Del_wf ExpireAt_wf Expire_wf BeginRewrite_wf
  Set_wf : replies.

(** ** Every handler, given the number of arguments the table promises *)

Lemma replies_ping args : replies (ping args).
Proof.
  unfold ping. destruct (lenZ args =? 1) eqn:Hl; [|by apply replies_simple].
  apply replies_arg; [unfold lenZ in Hl; lia|auto with replies].
Qed.

Lemma replies_echo args : (1 <= length args)%nat -> replies (echo args).
Proof. intros Hl. apply replies_arg; [lia|auto with replies]. Qed.

Lemma replies_set args : (2 <= length args)%nat -> replies (set lib env args).
Proof.
  intros Hl. unfold set. apply replies_arg; [lia|]. intros key. apply replies_arg; [lia|]. intros v.
  destruct (lenZ args =? 2).
  { apply replies_stored; [|auto with replies]. intros st. apply Set_wf. }
  destruct (lenZ args =? 4) eqn:H4; [|by apply replies_error]. unfold lenZ in H4.
  apply replies_arg; [lia|]. intros o.
  destruct (assoc _ _) as [opt|]; [|by apply replies_error].
  apply replies_arg; [lia|]. intros a. destruct (parseTTL a (unit_ opt)); [|by apply replies_error].
  destruct (_ <=? 0); [by apply replies_error|].
  apply replies_stored; [|auto with replies]. intros st Hw.
  destruct (absolute opt); simpl.
  - apply (op_wf (OpSetWithDeadline (Now env 0) (Now env 1) key v _) st (sorted_two 0) I Hw).
  - apply (op_wf (OpSetWithTTL (Now env 0) key v _) st (sorted_one _ (clock_at 0)) I Hw).
Qed.

Lemma replies_get args : (1 <= length args)%nat -> replies (get env args).
Proof.
  intros Hl. apply replies_arg; [lia|]. intros key. apply replies_stored; [auto with replies|].
  intros [v|]; auto with replies.
Qed.

(** The items of MGET follow the header. *)
Lemma mgetKeys_items i args s w :
  server_ok s ->
  exists s' os, mgetKeys env i args (s, w) = ((s', w ++ concat (encode_item <$> os)), Ret tt) /\
    length os = length args /\ server_ok s'.
Proof.
  revert i s w. induction args as [|key args IH]; intros i s w Hs.
  { exists s, []. by rewrite app_nil_r. }
  cbn [mgetKeys]. unfold stored at 1. unfold mbind at 1. unfold GoM_bind.
  pose proof (Get_wf i key (store s) Hs) as Hw.
  destruct (Get (Now env i) (Now env (S i)) key (store s)) as [st r].
  set (s1 := setStore st s).
  assert (exists o, (match r with
    | Some v => reply (WriteBulkString v) | None => reply WriteNullBulkString end) (s1, w)
    = ((s1, w ++ encode_item o), Ret tt)) as [o Ho].
  { destruct r as [v|]; unfold reply.
    - exists (Some v). by rewrite (writes_bulk v w).
    - exists None. by rewrite (writes_null_bulk w). }
  unfold mbind at 1. unfold GoM_bind. rewrite Ho.
  destruct (IH (S (S i)) s1 (w ++ encode_item o) Hw) as (s' & os & Hm & Hlen & Hs').
  exists s', (o :: os). rewrite Hm, fmap_cons. cbn [concat]. rewrite (assoc_L (++)).
  split_and!; [done|simpl; lia|done].
Qed.

Lemma replies_mget args : replies (mget env args).
Proof.
  intros s w Hs. unfold mget, mbind, GoM_bind, reply. rewrite (writes_header (lenZ args) w).
  destruct (mgetKeys_items 0 args s (w ++ countLine Byte.x2a (lenZ args)) Hs)
    as (s' & os & -> & Hlen & Hs').
  exists s', (VBulks os). cbn [encode]. unfold lenZ. rewrite <- Hlen, (assoc_L (++)). done.
Qed.

Lemma replies_mset args : replies (mset lib args).
Proof.
  unfold mset. destruct (negb _); [auto with replies|]. apply replies_stored; [|auto with replies].
  intros st Hw. apply (op_wf (OpMSet (pairsOf args)) st); [repeat constructor|done|done].
Qed.

Lemma replies_increment key d : is_int64 d -> replies (increment env key d).
Proof.
  intros Hd. apply replies_stored; [auto with replies|]. intros [n|e]; auto with replies.
Qed.

Lemma replies_append args : (2 <= length args)%nat -> replies (append env args).
Proof.
  intros Hl. apply replies_arg; [lia|]. intros key. apply replies_arg; [lia|]. intros v.
  apply replies_stored; auto with replies.
Qed.

Lemma replies_strlen args : (1 <= length args)%nat -> replies (strlen env args).
Proof.
  intros Hl. apply replies_arg; [lia|]. intros key. apply replies_stored; [auto with replies|].
  intros [v|]; auto with replies.
Qed.

Lemma replies_del args : replies (del env args).
Proof. apply replies_stored; auto with replies. Qed.

Lemma replies_info args : replies (info lib env args).
Proof.
  unfold info. destruct (lenZ args =? 1) eqn:Hl.
  - intros s w Hs. unfold mbind at 1, GoM_bind. unfold lenZ in Hl.
    destruct (lookup_lt_is_Some_2 args 0) as [a Ha]; [lia|].
    unfold mbind at 1, GoM_bind, arg. rewrite Ha. cbn.
    exact (replies_observe _ _ (fun out => replies_bulk out) s w Hs).
  - intros s w Hs. exact (replies_observe _ _ (fun out => replies_bulk out) s w Hs).
Qed.

Lemma writeSettings_items l s w :
  writeSettings l (s, w) =
    ((s, w ++ concat (encode_item <$> concat ((fun p => [Some p.1; Some p.2]) <$> l))), Ret tt).
Proof.
  revert w. induction l as [|p l IH]; intros w; [by rewrite app_nil_r|].
  cbn [writeSettings]. unfold mbind, GoM_bind, reply.
  rewrite (writes_bulk p.1 w), (writes_bulk p.2), IH. rewrite fmap_cons. cbn [concat app].
  rewrite !fmap_cons. cbn [concat]. unfold encode, encode_item. by rewrite <- !(assoc_L (++)).
Qed.

Lemma replies_configGet args : (1 <= length args)%nat -> replies (configGet lib args).
Proof.
  intros Hl. apply replies_arg; [lia|]. intros sub. destruct (negb (EqualFold _ _ _)); [by apply replies_error|].
  destruct (lenZ args =? 2) eqn:H2; cbn [negb]; [|auto with replies]. unfold lenZ in H2.
  apply replies_arg; [lia|]. intros pattern. apply replies_observe. intros l.
  destruct (matchSettings pattern l) as [matched|]; [|by apply replies_error].
  intros s w Hs. unfold mbind, GoM_bind, reply. rewrite (writes_header _ w), writeSettings_items.
  exists s, (VBulks (concat ((fun p => [Some p.1; Some p.2]) <$> matched))). split_and!; try done.
  cbn [encode]. rewrite (assoc_L (++)). do 4 f_equal. unfold lenZ. f_equal.
  clear. induction matched as [|p l IH]; [done|]. rewrite fmap_cons. cbn [concat app length]. lia.
Qed.

Lemma replies_bgrewriteaof args : replies (bgrewriteaof lib args).
Proof.
  apply replies_observe. intros [log|]; [|by apply replies_error].
  apply replies_stored; [auto with replies|]. intros [e|]; [|auto with replies].
  apply replies_error. by rewrite has_crlf_app, Hlib.
Qed.

Lemma replies_expireAtIn args unit : (2 <= length args)%nat -> replies (expireAtIn env args unit).
Proof.
  intros Hl. apply replies_arg; [lia|]. intros a. destruct (parseTTL a unit); [|by apply replies_error].
  apply replies_arg; [lia|]. intros key. apply replies_stored; auto with replies.
Qed.

Lemma replies_expireIn args unit : (2 <= length args)%nat -> replies (expireIn env args unit).
Proof.
  intros Hl. apply replies_arg; [lia|]. intros a. destruct (parseTTL a unit); [|by apply replies_error].
  apply replies_arg; [lia|]. intros key. apply replies_stored; auto with replies.
Qed.

Lemma replies_ttlIn args unit : (1 <= length args)%nat -> replies (ttlIn env args unit).
Proof.
  intros Hl. apply replies_arg; [lia|]. intros key. apply replies_observe. intros r.
  destruct r.2; auto with replies.
Qed.

Lemma arity_bounds (c : command (W := bytes)) rest :
  arityOk c rest = true -> minArgs c <= lenZ rest /\ (0 <= maxArgs c -> lenZ rest <= maxArgs c).
Proof. unfold arityOk. rewrite negb_true_iff, orb_false_iff, andb_false_iff. lia. Qed.

(** The arity check of the table makes every handler's indexing safe. *)
Lemma replies_fn name (c : command (W := bytes)) rest :
  assoc name (commands lib env) = Some c -> arityOk c rest = true -> replies (fn c rest).
Proof.
  intros Hc Ha. apply arity_bounds in Ha as [Ha _]. unfold lenZ in Ha.
  unfold assoc, commands in Hc. cbn [List.find fst] in Hc.
  repeat match type of Hc with
    | context [bool_decide ?P] => destruct (bool_decide P); [injection Hc as <-|]
    end; cbn [minArgs fn] in *; [..|discriminate].
  - apply replies_ping.
  - apply replies_echo. lia.
  - apply replies_set. lia.
  - apply replies_mset.
  - apply replies_get. lia.
  - apply replies_mget.
  - apply replies_arg; [lia|]. intros key. by apply replies_increment.
  - apply replies_arg; [lia|]. intros key. by apply replies_increment.
  - apply replies_append. lia.
  - apply replies_strlen. lia.
  - apply replies_del.
  - apply replies_observe. auto with replies.
  - apply replies_expireIn. lia.
  - apply replies_expireIn. lia.
  - apply replies_expireAtIn. lia.
  - apply replies_expireAtIn. lia.
  - apply replies_ttlIn. lia.
  - apply replies_ttlIn. lia.
  - apply replies_observe. auto with replies.
  - apply replies_info.
  - apply replies_configGet. lia.
  - apply replies_bgrewriteaof.
Qed.

(** ** Dispatch *)

Lemma syncAof_ok s : server_ok s -> server_ok (syncAof s).
Proof. unfold syncAof, server_ok. intros Hs. destruct (aof s); [|done]. by apply SetJournal_wf. Qed.

Lemma replies_synced (h : GoM (Server * bytes) unit) : replies h -> replies (h;; syncAlways).
Proof.
  intros Hh s w Hs. destruct (Hh s w Hs) as (s' & v & He & Hv & Hs').
  unfold mbind, GoM_bind. rewrite He. exists (syncAof s'), v. split_and!; [done|done|].
  by apply syncAof_ok.
Qed.

Lemma replies_runWrite (c : command (W := bytes)) rest :
  replies (fn c rest) -> replies (runWrite env c rest).
Proof.
  intros Hf. apply replies_observe. intros [e|]; [by apply replies_error|].
  intros s w Hs. unfold mbind at 1, GoM_bind, enforce.
  destruct (EnforceMemoryLimit_total (poolRange env) (store s) Hs (env_range _ Henv))
    as (st & n & ok & -> & Hw).
  destruct ok; cbn [negb].
  - by apply (replies_synced (fn c rest) Hf).
  - by apply replies_error.
Qed.

Lemma replies_dispatch args : args <> [] -> replies (dispatch lib env args).
Proof.
  intros Hne s w Hs. unfold dispatch, countCommand. unfold mbind at 1, GoM_bind. cbn iota beta.
  set (s1 := mkServer _ _ _ _).
  assert (forall h, replies h -> exists s' v, h (s1, w) = ((s', w ++ encode v), Ret tt)
                                       /\ framed v /\ server_ok s') as H.
  { intros h Hh. by apply Hh. }
  apply H. apply replies_arg; [destruct args; simpl; [done|lia]|]. intros a0.
  destruct (assoc (ToUpper lib a0) (commands lib env)) as [c|] eqn:Hc.
  - destruct (arityOk c (drop 1 args)) eqn:Ha; cbn [negb]; [|apply replies_arity].
    pose proof (replies_fn _ _ _ Hc Ha) as Hf.
    destruct (isWrite c); [by apply replies_runWrite|done].
  - apply replies_error. by rewrite !has_crlf_app, safeName_line.
Qed.

(** Every command gets exactly one reply: whatever its name and arguments, [dispatch]
    on a connection writes the wire form of one RESP value, whose line-framed text
    holds no CR or LF a client could have smuggled in, never panics (the arity table
    covers every index a handler uses) and keeps the store's invariant. *)
Theorem dispatch_replies (args : list bytes) (s : Server) (w : bytes) :
  args <> [] -> store_wf (store s) ->
  exists s' v, dispatch lib env args (s, w) = ((s', w ++ encode v), Ret tt) /\
    framed v /\ store_wf (store s').
Proof. intros Hne Hs. by apply replies_dispatch. Qed.
End Replies.

(** ** Runs *)

Lemma steady_ok t : zeroTime <= t -> env_ok (steady t).
Proof. intros Ht. split; [intros st _; apply pool_range_valid|intros i; simpl; lia|done]. Qed.

Lemma dispatch_replies_witness :
  exists s' v, dispatch ascii_lib (steady Second) [bs "incr"; bs "n"] (NewServer, bs "x") =
      ((s', bs "x" ++ encode v), Ret tt) /\ framed v.
Proof.
  destruct (dispatch_replies ascii_lib ltac:(intros e; reflexivity) (steady Second)
    (steady_ok Second ltac:(unfold zeroTime, Second; lia)) [bs "incr"; bs "n"] NewServer (bs "x"))
    as (s' & v & H & Hf & _); [discriminate|apply New_wf|].
  exists s', v. split; [exact H|exact Hf].
Defined.

(** ** Refused writes *)

Section Refused.
Context (lib : Lib) (env : Env).

(** What [dispatch] does with a write command of the right arity. *)
Lemma dispatch_write a0 rest c s (w : bytes) :
  assoc (ToUpper lib a0) (commands lib env) = Some c -> arityOk c rest = true -> isWrite c = true ->
  dispatch lib env (a0 :: rest) (s, w) =
  runWrite env c rest (mkServer (store s) (config s) (connections s) (wrapU64 (commandCalls s + 1)), w).
Proof.
  intros Hc Ha Hw. unfold dispatch, countCommand, arg, mbind, GoM_bind. cbn [lookup list_lookup].
  unfold mret, GoM_ret. rewrite Hc. change (drop 1 (a0 :: rest)) with rest. cbv zeta.
  by rewrite Ha, Hw.
Qed.

(** C31. A refused write is not applied: when the log has failed, every write command is
    answered with MISCONF, and when the store is over its memory limit under the
    noeviction policy with OOM; in both cases keyspace, journal and statistics are
    exactly what they were. *)
Theorem refused_writes (a0 : bytes) (rest : list bytes) (c : command (W := bytes)) (s : Server) (w : bytes) :
  assoc (ToUpper lib a0) (commands lib env) = Some c -> arityOk c rest = true -> isWrite c = true ->
  (forall e, aofErr s = Some e ->
     exists s', dispatch lib env (a0 :: rest) (s, w) =
       ((s', w ++ encode (VError (bs "MISCONF Errors writing to the AOF file"))), Ret tt) /\
       store s' = store s) /\
  (aofErr s = None -> 0 < maxMemory (store s) < Used (store s) ->
   Evict.Policy (store s) = PolicyNoEviction ->
     exists s', dispatch lib env (a0 :: rest) (s, w) =
       ((s', w ++ encode (VError (bs "OOM command not allowed when used memory > 'maxmemory'."))), Ret tt) /\
       store s' = store s).
Proof.
  intros Hc Ha Hw. rewrite (dispatch_write _ _ _ _ _ Hc Ha Hw). set (s1 := mkServer _ _ _ _).
  assert (aofErr s1 = aofErr s) as He1 by done. unfold runWrite, observe, mbind, GoM_bind.
  rewrite He1. split.
  - intros e ->. exists s1. unfold reply.
    by rewrite (writes_error (bs "MISCONF Errors writing to the AOF file") eq_refl w).
  - intros -> Hm Hp. unfold enforce, EnforceMemoryLimit. cbn [store s1].
    rewrite (proj2 (Z.leb_gt _ _)), (proj2 (Z.leb_gt _ _)) by lia.
    rewrite bool_decide_true by done. cbn [negb]. exists (setStore (store s) s1). unfold reply.
    by rewrite (writes_error (bs "OOM command not allowed when used memory > 'maxmemory'.") eq_refl w).
Qed.
End Refused.

(** A server over its limit. *)
Definition tight : Server :=
  setStore (SetMemoryLimit 10 PolicyNoEviction (Set_ (bs "k") (bs "v") New)) NewServer.

Lemma refused_writes_witness :
  exists s', dispatch ascii_lib (steady Second) [bs "set"; bs "a"; bs "b"] (tight, []) =
      ((s', encode (VError (bs "OOM command not allowed when used memory > 'maxmemory'."))), Ret tt) /\
      store s' = store tight.
Proof.
  apply (proj2 (refused_writes ascii_lib (steady Second) (bs "set") [bs "a"; bs "b"]
    (mkCommand 2 4 true (set ascii_lib (steady Second))) tight [] eq_refl eq_refl eq_refl)).
  - reflexivity.
  - vm_compute. split; reflexivity.
  - vm_compute. reflexivity.
Defined.

(** ** Findings *)

(** A large time to live makes the log unreadable: SET with PX 9223372036854 is
    accepted and acknowledged, its deadline is journalled as a millisecond timestamp
    whose nanoseconds do not fit an [int64], and [applyLogged] rejects the record, so
    the server refuses to start from its own log. *)
Theorem px_near_max_unreadable :
  let now := 1700000000 * Second in
  let '((s', out), _) := dispatch ascii_lib (steady now)
    [bs "SET"; bs "k"; bs "v"; bs "PX"; bs "9223372036854"]
    (AttachAOF healthy NewServer, []) in
  out = encode (VSimple (bs "OK")) /\
  snd <$> (SyncIfAlways <$> aof s') = Some None /\
  (content ∘ disk ∘ fst) <$> aof s' =
    Some (enc [[cmdSET; bs "k"; bs "v"; cmdPXAT; bs "10923372036854"]]) /\
  (applyLogged ascii_lib (steady now) [cmdSET; bs "k"; bs "v"; cmdPXAT; bs "10923372036854"] NewServer).2
    = Some (ErrorString (bs "SET: " ++ errNotInteger)).
Proof. vm_compute. split_and!; reflexivity. Qed.

(** Under the always policy a write is acknowledged although its [fsync] failed: the
    error of [SyncIfAlways] is only logged, the client reads +OK, and nothing of the
    record is on stable storage. *)
Theorem always_acks_failed_sync :
  let log := (mkOS [mkFile [] 0] 0 [None; Some (0%nat, OSError 5)], fresh_log PolicyAlways) in
  let '((s', out), _) := dispatch ascii_lib (steady Second) [bs "SET"; bs "k"; bs "v"]
    (AttachAOF log NewServer, []) in
  out = encode (VSimple (bs "OK")) /\
  aofErr s' = Some (OSError 5) /\ (synced ∘ disk ∘ fst) <$> aof s' = Some 0%nat.
Proof. vm_compute. split_and!; reflexivity. Qed.
