(* ===== verification/Writers.v ===== *)
(** * Replies do not depend on what carries them

    The handlers of commands.go write to a [resp.Writer], never reading from it.  Over two
    writers that agree on every [Write] they therefore do the same to the server and
    return the same; only the writers' states differ, and stay related ([same_dispatch]).

    The first of the two may also fail where the second goes on ([lossy_dispatch]): then the
    handler over it has failed, and what the two have been given is related by [broken]
    from then on. *)

From stdpp Require Import base gmap list strings.
From Stdlib Require Import ZArith.
From Stdlib Require Import Strings.Byte.
From S2P Require Import Prelude.
From S2P Require Import RespWriter.
From S2P Require Import GoTime.
From S2P Require Import Store.
From S2P Require Import AofLog.
From S2P Require Import Commands.

#[local] Open Scope Z_scope.

Section Writers.
Context {W1 W2 : Type} `{!IOWriter W1} `{!IOWriter W2} (rl broken : W1 -> W2 -> Prop).

(** ** Writers that agree *)

(** What two runs of an output come to: the same, or a failure of the first. *)
Definition outcomes {A} (o1 o2 : outcome A) (w1 : W1) (w2 : W2) : Prop :=
  (o1 = o2 /\ rl w1 w2) \/ ((exists e, o1 = Fail e) /\ broken w1 w2).

Definition alike (m1 : GoM W1 unit) (m2 : GoM W2 unit) : Prop :=
  (forall w1 w2, rl w1 w2 -> outcomes (m1 w1).2 (m2 w2).2 (m1 w1).1 (m2 w2).1) /\
  (forall w1 w2, broken w1 w2 -> broken w1 (m2 w2).1).

Context (write_alike : forall p, alike (io_write p) (io_write p)).

Lemma outcomes_same {A} (o : outcome A) w1 w2 : rl w1 w2 -> outcomes o o w1 w2.
Proof. by left. Qed.

Lemma alike_ret : alike (mret tt) (mret tt).
Proof. split; [|done]. intros w1 w2 H. by apply outcomes_same. Qed.

Lemma alike_panic w : alike (panic w) (panic w).
Proof. split; [|done]. intros w1 w2 H. by apply outcomes_same. Qed.

Lemma alike_seq m1 m2 n1 n2 : alike m1 m2 -> alike n1 n2 -> alike (m1;; n1) (m2;; n2).
Proof.
  intros [Hm Hm'] [Hn Hn']. split; intros w1 w2 Hr; unfold mbind, GoM_bind.
  - destruct (Hm w1 w2 Hr) as [[Ho Hr']|[[e Ho] Hb]];
      destruct (m1 w1) as [w1' o], (m2 w2) as [w2' o']; simpl in *; subst o.
    + destruct o' as [[]|e|p]; [by apply Hn|by apply outcomes_same..].
    + right. split; [by eexists|]. destruct o' as [[]|e'|p]; [by apply Hn'|done..].
  - specialize (Hm' w1 w2 Hr). destruct (m2 w2) as [w2' [[]|e|p]]; [by apply Hn'|done..].
Qed.

Create HintDb alike.
#[local] Hint Resolve alike_ret alike_panic alike_seq : alike.
#[local] Hint Extern 0 (alike (io_write _) (io_write _)) => apply write_alike : alike.

Lemma alike_WriteSimpleString s : alike (WriteSimpleString s) (WriteSimpleString s).
Proof. unfold WriteSimpleString. destruct (has_crlf s); auto with alike. Qed.

Lemma alike_WriteError s : alike (WriteError s) (WriteError s).
Proof. unfold WriteError. destruct (has_crlf s); auto with alike. Qed.

Lemma alike_WriteInteger n : alike (WriteInteger n) (WriteInteger n).
Proof. unfold WriteInteger, writeCountLine. auto with alike. Qed.

Lemma alike_WriteBulkString p : alike (WriteBulkString p) (WriteBulkString p).
Proof. unfold WriteBulkString, writeCountLine. auto with alike. Qed.

Lemma alike_WriteNullBulkString : alike WriteNullBulkString WriteNullBulkString.
Proof. unfold WriteNullBulkString. auto with alike. Qed.

Lemma alike_WriteArrayHeader n : alike (WriteArrayHeader n) (WriteArrayHeader n).
Proof. unfold WriteArrayHeader, writeCountLine. auto with alike. Qed.

(** ** Handlers *)

(** The same effect on the server, the same outcome, and writers that still agree; or a
    failure of the first writer. *)
Definition lossy {A} (h1 : GoM (Server * W1) A) (h2 : GoM (Server * W2) A) : Prop :=
  forall s w1 w2,
  (rl w1 w2 ->
   let '((s1, w1'), o1) := h1 (s, w1) in
   let '((s2, w2'), o2) := h2 (s, w2) in
   (s1 = s2 /\ o1 = o2 /\ rl w1' w2') \/ ((exists e, o1 = Fail e) /\ broken w1' w2')) /\
  (broken w1 w2 -> broken w1 (h2 (s, w2)).1.2).

Lemma lossy_ret {A} (a : A) : lossy (mret a) (mret a).
Proof. intros s w1 w2. by split; [left|]. Qed.

Lemma lossy_panic {A} w : lossy (panic (A := A) w) (panic w).
Proof. intros s w1 w2. by split; [left|]. Qed.

Lemma lossy_bind {A B} (h1 : GoM (Server * W1) A) (h2 : GoM (Server * W2) A)
    (f1 : A -> GoM (Server * W1) B) f2 :
  lossy h1 h2 -> (forall a, lossy (f1 a) (f2 a)) -> lossy (h1 ≫= f1) (h2 ≫= f2).
Proof.
  intros Hh Hf s w1 w2. destruct (Hh s w1 w2) as [H1 H2]. unfold mbind, GoM_bind. split; intros Hr.
  - specialize (H1 Hr). destruct (h1 (s, w1)) as [[s1 w1'] o1], (h2 (s, w2)) as [[s2 w2'] o2].
    destruct H1 as [(-> & -> & Hr')|[[e ->] Hb]].
    + destruct o2 as [a|e|p]; [by apply Hf|by left..].
    + destruct o2 as [a|e'|p]; [|by right; split; [eexists|]..].
      pose proof (proj2 (Hf a s2 w1' w2') Hb) as Hb'. destruct (f2 a (s2, w2')) as [[s3 w3] o3].
      right. by split; [eexists|].
  - specialize (H2 Hr). destruct (h2 (s, w2)) as [[s2 w2'] [a|e|p]]; [|done..]. by apply (Hf a).
Qed.

Lemma lossy_reply m1 m2 : alike m1 m2 -> lossy (reply m1) (reply m2).
Proof.
  intros [Hm Hm'] s w1 w2. unfold reply. split; intros Hr.
  - destruct (Hm w1 w2 Hr) as [[Ho Hr']|[He Hb]]; destruct (m1 w1), (m2 w2); [by left|by right].
  - specialize (Hm' w1 w2 Hr). by destruct (m2 w2).
Qed.

Lemma lossy_stored {A} (f : Store logState -> Store logState * A) : lossy (stored f) (stored f).
Proof. intros s w1 w2. unfold stored. destruct (f (store s)). by split; [left|]. Qed.

Lemma lossy_observe {A} (f : Server -> A) : lossy (observe f) (observe f).
Proof. intros s w1 w2. by split; [left|]. Qed.

Lemma lossy_arg i args : lossy (arg i args) (arg i args).
Proof. unfold arg. destruct (args !! i); [apply lossy_ret|apply lossy_panic]. Qed.

Lemma lossy_enforce env : lossy (enforce env) (enforce env).
Proof.
  intros s w1 w2. unfold enforce.
  destruct (Evict.EnforceMemoryLimit _ _) as [[[st n] ok]|]; by split; [left|].
Qed.

Lemma lossy_countCommand : lossy countCommand countCommand.
Proof. intros s w1 w2. by split; [left|]. Qed.

Lemma lossy_syncAlways : lossy syncAlways syncAlways.
Proof. intros s w1 w2. by split; [left|]. Qed.

#[local] Hint Resolve alike_WriteSimpleString alike_WriteError alike_WriteInteger alike_WriteBulkString
  alike_WriteNullBulkString alike_WriteArrayHeader : alike.
#[local] Hint Resolve lossy_ret lossy_panic lossy_bind lossy_reply lossy_stored lossy_observe lossy_arg
  lossy_enforce lossy_countCommand lossy_syncAlways : alike.

(** Binds first; then the branches of the code, which are the same on both sides. *)
Ltac follow :=
  repeat first
    [ progress intros
    | solve [auto 3 with alike]
    | apply lossy_bind
    | match goal with |- lossy (match ?x with _ => _ end) _ => destruct x end ].

Context (lib : Lib) (env : Env).

Lemma lossy_wrongArity name : lossy (wrongArity lib name) (wrongArity lib name).
Proof. unfold wrongArity. follow. Qed.
#[local] Hint Resolve lossy_wrongArity : alike.

Lemma lossy_mgetKeys i args : lossy (mgetKeys env i args) (mgetKeys env i args).
Proof. revert i. induction args as [|k args IH]; intros i; cbn [mgetKeys]; follow. Qed.

Lemma lossy_writeSettings l : lossy (writeSettings l) (writeSettings l).
Proof. induction l as [|p l IH]; cbn [writeSettings]; follow. Qed.
#[local] Hint Resolve lossy_mgetKeys lossy_writeSettings : alike.

Lemma lossy_set args : lossy (set lib env args) (set lib env args).
Proof. unfold set. follow. Qed.

Lemma lossy_get args : lossy (get env args) (get env args).
Proof. unfold get. follow. Qed.

Lemma lossy_strlen args : lossy (strlen env args) (strlen env args).
Proof. unfold strlen. follow. Qed.

Lemma lossy_increment key d : lossy (increment env key d) (increment env key d).
Proof. unfold increment. follow. Qed.

Lemma lossy_expireIn args unit : lossy (expireIn env args unit) (expireIn env args unit).
Proof. unfold expireIn. follow. Qed.

Lemma lossy_expireAtIn args unit : lossy (expireAtIn env args unit) (expireAtIn env args unit).
Proof. unfold expireAtIn. follow. Qed.

Lemma lossy_ttlIn args unit : lossy (ttlIn env args unit) (ttlIn env args unit).
Proof. unfold ttlIn. follow. Qed.

Lemma lossy_info args : lossy (info lib env args) (info lib env args).
Proof. unfold info. follow. Qed.

Lemma lossy_configGet args : lossy (configGet lib args) (configGet lib args).
Proof. unfold configGet. follow. Qed.

Lemma lossy_bgrewriteaof args : lossy (bgrewriteaof lib args) (bgrewriteaof lib args).
Proof. unfold bgrewriteaof. follow. Qed.
#[local] Hint Resolve lossy_set lossy_get lossy_strlen lossy_increment lossy_expireIn lossy_expireAtIn
  lossy_ttlIn lossy_info lossy_configGet lossy_bgrewriteaof : alike.

(** Two entries of the command tables. *)
Definition alike_entry (p1 : bytes * command (W := W1)) (p2 : bytes * command (W := W2)) : Prop :=
  p1.1 = p2.1 /\ minArgs p1.2 = minArgs p2.2 /\ maxArgs p1.2 = maxArgs p2.2 /\
  isWrite p1.2 = isWrite p2.2 /\ forall args, lossy (fn p1.2 args) (fn p2.2 args).

Lemma alike_commands : Forall2 alike_entry (commands lib env) (commands lib env).
Proof.
  unfold commands.
  repeat (constructor; [split_and!; try done; cbn [snd fn]; intros args;
    unfold ping, echo, mget, mset, incr, decr, append, del, exists_, expire, pexpire, expireat,
      pexpireat, ttl, pttl, dbsize; follow|]).
  constructor.
Qed.

Lemma alike_assoc name (l1 : list (bytes * command (W := W1))) l2 :
  Forall2 alike_entry l1 l2 ->
  match assoc name l1, assoc name l2 with
  | Some c1, Some c2 => alike_entry (name, c1) (name, c2)
  | None, None => True
  | _, _ => False
  end.
Proof.
  unfold assoc. induction 1 as [|[n1 c1] [n2 c2] l1 l2 Hp _ IH]; [done|]. cbn [List.find].
  destruct Hp as (Hn & Hc). cbn [fst snd] in Hn, Hc. subst n2. cbn [fst].
  destruct (bool_decide (n1 = name)); [|done]. by split.
Qed.

Lemma lossy_runWrite c1 c2 rest :
  lossy (fn c1 rest) (fn c2 rest) -> lossy (runWrite env c1 rest) (runWrite env c2 rest).
Proof. intros Hf. unfold runWrite. follow. Qed.

Lemma lossy_dispatch args : lossy (dispatch lib env args) (dispatch lib env args).
Proof.
  unfold dispatch. apply lossy_bind; [auto with alike|]. intros _.
  apply lossy_bind; [auto with alike|]. intros a0. cbv zeta.
  pose proof (alike_assoc (ToUpper lib a0) _ _ alike_commands) as H.
  destruct (assoc _ (commands lib env)) as [c1|], (assoc _ (commands lib env)) as [c2|];
    [|done|done|auto with alike].
  destruct H as (_ & Hmin & Hmax & Hw & Hf). cbn [snd] in Hmin, Hmax, Hw, Hf.
  unfold arityOk. rewrite Hmin, Hmax, Hw.
  destruct (negb _); [auto with alike|]. destruct (isWrite c2); [by apply lossy_runWrite|apply Hf].
Qed.

Lemma lossy_reportReadError e : lossy (reportReadError e) (reportReadError e).
Proof. unfold reportReadError. follow. Qed.
End Writers.

(** ** Writers that never disagree *)

Section Agreeing.
Context {W1 W2 : Type} `{!IOWriter W1} `{!IOWriter W2} (rl : W1 -> W2 -> Prop).

Definition agree (m1 : GoM W1 unit) (m2 : GoM W2 unit) : Prop :=
  forall w1 w2, rl w1 w2 -> (m1 w1).2 = (m2 w2).2 /\ rl (m1 w1).1 (m2 w2).1.

Context (write_agree : forall p, agree (io_write p) (io_write p)).

Lemma agree_alike p : alike rl (fun _ _ => False) (io_write p) (io_write p).
Proof. split; [|done]. intros w1 w2 Hr. left. by apply write_agree. Qed.

Definition same {A} (h1 : GoM (Server * W1) A) (h2 : GoM (Server * W2) A) : Prop :=
  forall s w1 w2, rl w1 w2 ->
  let '((s1, w1'), o1) := h1 (s, w1) in
  let '((s2, w2'), o2) := h2 (s, w2) in
  s1 = s2 /\ o1 = o2 /\ rl w1' w2'.

Lemma lossy_same {A} (h1 : GoM (Server * W1) A) (h2 : GoM (Server * W2) A) :
  lossy rl (fun _ _ => False) h1 h2 -> same h1 h2.
Proof.
  intros Hl s w1 w2 Hr. destruct (Hl s w1 w2) as [H _]. specialize (H Hr).
  destruct (h1 (s, w1)) as [[? ?] ?], (h2 (s, w2)) as [[? ?] ?]. by destruct H as [|[_ []]].
Qed.

Lemma same_dispatch lib env args : same (dispatch lib env args) (dispatch lib env args).
Proof. apply lossy_same, lossy_dispatch, agree_alike. Qed.

Lemma same_reportReadError e : same (reportReadError e) (reportReadError e).
Proof. apply lossy_same, lossy_reportReadError, agree_alike. Qed.
End Agreeing.
