(* ===== verification/Connection.v ===== *)
(** * internal/server/server.go, [HandleConn]: a whole connection

    Whatever bytes a client sends, the output of the loop of [HandleConn] is a sequence of complete
    RESP values: one per command, and one error when the stream stops being RESP. *)

From stdpp Require Import base gmap list strings sorting.
From Stdlib Require Import ZArith Lia.
From Stdlib Require Import Strings.Byte.
From S2P Require Import Prelude.
From S2P Require Import GoStrconv.
From S2P Require Import RespWriter.
From S2P Require Import Bufio.
From S2P Require Import RespReader.
From S2P Require Import GoTime.
From S2P Require Import Store.
From S2P Require Import StoreInv.
From S2P Require Import Evict.
From S2P Require Import StoreSpec.
From S2P Require Import AofLog.
From S2P Require Import AofInv.
From S2P Require Import Replay.
From S2P Require Import Commands.
From S2P Require Import CommandsSpec.

#[local] Open Scope Z_scope.

(** ** The messages of protocol errors *)

(** An error whose message, if it is a protocol error, fits an error reply. *)
Definition line_error (e : error) : Prop :=
  match e with ProtocolError msg => has_crlf msg = false | _ => True end.

Definition fails_well {A} (m : GoM flat A) : Prop :=
  forall r, line_error (ferr r) ->
    ferr (m r).1 = ferr r /\ match (m r).2 with Fail e => line_error e | _ => True end.

Lemma fails_bind {A B} (m : GoM flat A) (f : A -> GoM flat B) :
  fails_well m -> (forall a, fails_well (f a)) -> fails_well (m ≫= f).
Proof.
  intros Hm Hf r Hr. destruct (Hm r Hr) as [H1 H2]. unfold mbind, GoM_bind.
  destruct (m r) as [r' [a|e|w]]; simpl in *; [|done|done].
  destruct (Hf a r') as [H3 H4]; [by rewrite H1|]. by rewrite H3.
Qed.

Lemma fails_ret {A} (a : A) : fails_well (mret a).
Proof. by intros r Hr. Qed.

Lemma fails_panic {A} w : fails_well (panic (A := A) w).
Proof. by intros r Hr. Qed.

Lemma fails_throw {A} e : line_error e -> fails_well (throw (A := A) e).
Proof. by intros He r Hr. Qed.

Lemma fails_promoting {A} (m : GoM flat A) : fails_well m -> fails_well (promoting m).
Proof.
  intros Hm r Hr. destruct (Hm r Hr) as [H1 H2]. unfold promoting.
  destruct (m r) as [r' [a|e|w]]; simpl in *; [done| |done]. split; [done|].
  unfold unexpectedEOF. by case_decide.
Qed.

Lemma printableByte_line c : has_crlf (printableByte c) = false.
Proof. by destruct c. Qed.

Lemma got_message_line want c : has_crlf want = false -> has_crlf (got_message want c) = false.
Proof.
  intros Hw. unfold got_message. by rewrite !has_crlf_app, Hw, printableByte_line.
Qed.

Lemma fails_readLine : fails_well readLine.
Proof.
  intros r Hr. unfold readLine, ReadSlice, flat_BufReader, flat_ReadSlice.
  repeat (case_match; simplify_eq; simpl); split; try done; by case_match.
Qed.

Lemma fails_readFull n : fails_well (readFull n).
Proof.
  intros r Hr. unfold readFull, ReadFull, flat_BufReader, flat_ReadFull.
  case_decide; simpl; [done|]. split; [done|]. unfold short_read. by repeat case_decide.
Qed.

Create HintDb fails.
#[local] Hint Resolve fails_bind fails_ret fails_panic fails_promoting fails_readLine fails_readFull
  got_message_line : fails.
#[local] Hint Extern 0 (fails_well (throw _)) =>
  apply fails_throw; unfold protoErr, line_error; first [reflexivity|by apply got_message_line] : fails.

Lemma fails_readBulkString : fails_well readBulkString.
Proof.
  apply fails_bind; [auto with fails|]. intros line. repeat (case_match; auto with fails).
  apply fails_bind; [auto with fails|]. intros buf. repeat (case_match; auto with fails).
Qed.

Lemma fails_readArgs k : fails_well (readArgs k).
Proof.
  induction k as [|k IH]; cbn [readArgs]; [auto with fails|].
  apply fails_bind; [apply fails_readBulkString|]. auto with fails.
Qed.

Lemma fails_ReadCommand : fails_well ReadCommand.
Proof.
  apply fails_bind; [auto with fails|]. intros line.
  repeat (case_match; auto using fails_readArgs with fails).
Qed.

(** ** The loop *)

Lemma handleLoop_flat {W} `{!IOWriter W} lib fuel envs b f (st : Server * W) :
  rel readerBufSize b f -> handleLoop lib fuel envs b st = handleLoop lib fuel envs f st.
Proof.
  revert b f st. induction fuel as [|fu IH]; intros b f st Hr; [done|].
  simpl. destruct (bufio_sim_ReadCommand b f Hr) as [Ho Hr'].
  destruct (ReadCommand b) as [b' o1], (ReadCommand f) as [f' o2]. simpl in Ho, Hr'. subst o1.
  destruct o2 as [args|e|w]; [|done|done].
  destruct (lenZ args =? 0); [by apply IH|].
  destruct (dispatch lib (envs fu) args st) as [st' []]; [by apply IH|done|done].
Qed.

Lemma reportReadError_reply e s (w : bytes) :
  line_error e ->
  exists vs, (reportReadError e (s, w)).1 = (s, w ++ concat (encode <$> vs)) /\ Forall framed vs.
Proof.
  intros He. destruct e; try (exists []; by rewrite app_nil_r).
  simpl in He. exists [VError (bs "ERR " ++ ProtocolError_Error msg)].
  assert (has_crlf (bs "ERR " ++ ProtocolError_Error msg) = false) as Hl.
  { unfold ProtocolError_Error. by rewrite !has_crlf_app, He. }
  unfold reportReadError, reply. rewrite (writes_error _ Hl w). cbn [fst fmap list_fmap concat].
  rewrite app_nil_r. split; [done|]. by repeat constructor.
Qed.

Lemma handleLoop_replies lib fuel envs f s w :
  lib_ok lib -> (forall i, env_ok (envs i)) -> line_error (ferr f) -> store_wf (store s) ->
  (length (fbytes f) < fuel)%nat ->
  exists s' vs, handleLoop lib fuel envs f (s, w) = (s', w ++ concat (encode <$> vs), true) /\
    Forall framed vs /\ store_wf (store s').
Proof.
  intros Hlib Henv. revert f s w. induction fuel as [|fu IH]; intros f s w Hf Hs Hl; [lia|].
  cbn [handleLoop]. destruct (fails_ReadCommand f Hf) as [Hf' He].
  pose proof (post_ReadCommand f) as Hp. pose proof (ReadCommand_shrinks f) as Hsh.
  destruct (ReadCommand f) as [f' [args|e|m]]; cbn [fst snd] in *; [| |done].
  - specialize (Hsh args eq_refl).
    destruct (lenZ args =? 0) eqn:Hz; [apply IH; [by rewrite Hf'|done|lia]|].
    assert (args <> []) as Hne by (intros ->; done).
    destruct (replies_dispatch lib Hlib (envs fu) (Henv fu) args Hne s w Hs) as (s1 & v & -> & Hv & Hs1).
    destruct (IH f' s1 (w ++ encode v)) as (s' & vs & -> & Hvs & Hs'); [by rewrite Hf'|done|lia|].
    exists s', (v :: vs). rewrite fmap_cons. cbn [concat]. rewrite (assoc_L (++)).
    split_and!; [done|by constructor|done].
  - destruct (reportReadError_reply e s w He) as (vs & -> & Hvs). by exists s, vs.
Qed.

(** C22. A connection ends, and only ever writes complete RESP values: for every sequence
    of bytes a client sends before its stream ends, in whatever fragments, the loop
    comes to its end within one round per byte, its output is a concatenation of
    values whose line-framed text holds no CR or LF, and the store's invariant holds
    afterwards.  In particular a command name or a byte quoted in a protocol error
    cannot forge a second reply. *)
Theorem connection_replies (lib : Lib) (envs : nat -> Env) (src : source) (s : Server) :
  lib_ok lib -> (forall i, env_ok (envs i)) ->
  Forall (fun c => c <> []) (chunks src) -> line_error (send src) -> store_wf (store s) ->
  let fuel := S (length (concat (chunks src))) in
  exists s' vs, handleLoop lib fuel envs (newBufio src) (s, []) = (s', concat (encode <$> vs), true) /\
    Forall framed vs /\ store_wf (store s').
Proof.
  intros Hlib Henv Hc He Hs fuel.
  rewrite (handleLoop_flat _ _ _ _ _ _ (rel_new readerBufSize src Hc)).
  apply (handleLoop_replies lib fuel envs (mkFlat (concat (chunks src)) (send src)) s []); try done.
  unfold fuel. simpl. lia.
Qed.

(** ** A connection *)

(** A client that sends a command in two fragments, one with a name that tries to
    smuggle in a reply, and then bytes that are not RESP. *)
Definition rude_client : source :=
  mkSource [bs "*1" ++ crlf ++ bs "$4" ++ crlf ++ bs "PI"; bs "NG" ++ crlf;
            bs "*1" ++ crlf ++ bs "$4" ++ crlf ++ [LF; CR] ++ bs "OK" ++ crlf; bs "hello" ++ crlf] EOF.

Lemma connection_replies_witness :
  exists s', handleLoop ascii_lib (S (length (concat (chunks rude_client)))) (fun _ => steady Second)
               (newBufio rude_client) (NewServer, []) =
    (s', concat (encode <$> [VSimple (bs "PONG"); VError (bs "ERR unknown command '..OK'");
                             VError (bs "ERR Protocol error: expected '*', got 'h'")]), true).
Proof.
  destruct (connection_replies ascii_lib (fun _ => steady Second) rude_client NewServer)
    as (s' & vs & H & _ & _).
  - intros e. reflexivity.
  - intros _. apply steady_ok. unfold zeroTime, Second. lia.
  - repeat constructor; done.
  - exact I.
  - apply New_wf.
  - exists s'. rewrite H. do 2 f_equal.
    change (concat (encode <$> vs)) with (s', concat (encode <$> vs), true).1.2. rewrite <- H.
    vm_compute. reflexivity.
Defined.
