(* ===== verification/Socket.v ===== *)
(** * internal/server/server.go: a client's socket, [HandleConn] and its flush hook

    [handleLoop] of Commands reads from one place and writes to another.  In the program
    both are the client's socket, and two buffers stand in between: the [bufio.Reader] of
    the parser and a [bufio.Writer] of 16 KiB for the replies.  [flushBeforeRead] flushes
    the second before every read of the first.

    Here the socket has a transcript, in which the theorem finds that the hook does what it
    is for: whenever the connection waits for its client, the client has all the replies
    it is owed. *)

From stdpp Require Import base gmap list strings.
From Stdlib Require Import ZArith Lia.
From Stdlib Require Import Strings.Byte.
From S2P Require Import Prelude.
From S2P Require Import RespWriter.
From S2P Require Import Bufio.
From S2P Require Import BufWriter.
From S2P Require Import RespReader.
From S2P Require Import GoTime.
From S2P Require Import Store.
From S2P Require Import AofLog.
From S2P Require Import Commands.
From S2P Require Import CommandsSpec.
From S2P Require Import Writers.
From S2P Require Import Connection.

(** ** The socket *)

(** What has happened on it: a [Read] and what it returned, bytes sent, [Close]. *)
Inductive io : Type :=
| Recv (p : bytes) (e : option error)
| Sent (p : bytes)
| Closed.

(** [incoming] is what the client will send, [writeFaults] the outcomes of the writes to
    come. *)
Record socket : Type := mkSocket {
  incoming : source;
  writeFaults : list fault;
  transcript : list io
}.

Definition happened (ev : io) (s : socket) : socket :=
  mkSocket (incoming s) (writeFaults s) (transcript s ++ [ev]).

(** [conn.Read(p)] with [len(p) = cap]. *)
Definition socket_Read (cap : nat) (s : socket) : socket * (bytes * option error) :=
  let '(src, (p, e)) := src_Read cap (incoming s) in
  (mkSocket src (writeFaults s) (transcript s ++ [Recv p e]), (p, e)).

(** [conn.Write(p)]. *)
Definition socket_Write (p : bytes) (s : socket) : socket * (nat * option error) :=
  match writeFaults s with
  | [] => (happened (Sent p) s, (length p, None))
  | None :: fs => (mkSocket (incoming s) fs (transcript s ++ [Sent p]), (length p, None))
  | Some (n, e) :: fs =>
      (mkSocket (incoming s) fs (transcript s ++ [Sent (take n p)]), (Nat.min n (length p), Some e))
  end.

#[export] Instance socket_sink : Sink socket := fun _ => socket_Write.

(** ** The buffers *)

Definition writeBufSize : nat := Z.to_nat (16 * 1024).

#[global] Arguments writeBufSize : simpl never.

(** The socket and the [bufio.Writer] over it. *)
Abbreviation conn := (socket * bufioWriter)%type.

#[export] Instance conn_writer : IOWriter conn := bufw_Write writeBufSize.

(** [flushBeforeRead.Read] *)
Definition flushBeforeRead (cap : nat) (c : conn) : conn * (bytes * option error) :=
  let '((s, bw), e) := bufw_Flush c in
  match e with
  | Some e => ((s, bw), ([], Some e))
  | None => let '(s', r) := socket_Read cap s in ((s', bw), r)
  end.

#[export] Instance conn_reader : IOReader conn := flushBeforeRead.

(** ** [HandleConn] *)

(** The parser's reader with another socket below it. *)
Definition setSrc (c : conn) (b : bufioReader conn) : bufioReader conn := mkBufio (rbuf b) (rerr b) c.

Section Handle.
Context (lib : Lib) (envs : nat -> Env).

(** The loop, and whether it has come to its end. *)
Fixpoint serveLoop (fuel : nat) (b : bufioReader conn) (srv : Server) : Server * conn * bool :=
  match fuel with
  | O => (srv, rsrc b, false)
  | S fu =>
      match ReadCommand b with
      | (b', Fail e) => ((reportReadError e (srv, rsrc b')).1, true)
      | (b', Panics _) => (srv, rsrc b', true)
      | (b', Ret args) =>
          if (lenZ args =? 0)%Z then serveLoop fu b' srv
          else match dispatch lib (envs fu) args (srv, rsrc b') with
               | ((srv', c'), Ret _) => serveLoop fu (setSrc c' b') srv'
               | ((srv', c'), _) => (srv', c', true)
               end
      end
  end.

(** The loop between the buffers that [HandleConn] makes and its deferred calls: the last
    flush, the [recover] that ends a panic, and [Close]. *)
Definition HandleConn (fuel : nat) (s : socket) (srv : Server) : Server * socket * bool :=
  let '(srv', c, ended) := serveLoop fuel (newBufio (s, NewWriterSize 0)) srv in
  (srv', happened Closed (bufw_Flush c).1.1, ended).
End Handle.

(** ** Transcripts *)

Definition recvd (tr : list io) : bytes :=
  concat ((fun ev => match ev with Recv p _ => p | _ => [] end) <$> tr).

Definition sentBytes (tr : list io) : bytes :=
  concat ((fun ev => match ev with Sent p => p | _ => [] end) <$> tr).

Lemma recvd_app t u : recvd (t ++ u) = recvd t ++ recvd u.
Proof. unfold recvd. by rewrite fmap_app, concat_app. Qed.

Lemma sentBytes_app t u : sentBytes (t ++ u) = sentBytes t ++ sentBytes u.
Proof. unfold sentBytes. by rewrite fmap_app, concat_app. Qed.

Lemma recvd_sends ps : recvd (Sent <$> ps) = [].
Proof. by induction ps. Qed.

(** ** The socket as a sink *)

(** Nothing but sends has happened. *)
Definition onlySends (s s' : socket) : Prop :=
  incoming s' = incoming s /\ exists ps, transcript s' = transcript s ++ (Sent <$> ps).

Lemma onlySends_refl s : onlySends s s.
Proof. split; [done|]. exists []. by rewrite app_nil_r. Qed.

Lemma onlySends_trans s1 s2 s3 : onlySends s1 s2 -> onlySends s2 s3 -> onlySends s1 s3.
Proof.
  intros [H1 [p1 K1]] [H2 [p2 K2]]. split; [congruence|]. exists (p1 ++ p2).
  by rewrite K2, K1, fmap_app, (assoc_L (++)).
Qed.

Lemma socket_Write_spec p s :
  let '(s', (n, err)) := socket_Write p s in
  onlySends s s' /\ sentBytes (transcript s') = sentBytes (transcript s) ++ take n p /\
  (err = None -> n = length p) /\ n <= length p.
Proof.
  unfold socket_Write. destruct (writeFaults s) as [|[[n e]|] fs]; (split; [split; [done|]|]);
    try (eexists [_]; reflexivity); simpl; rewrite sentBytes_app; cbn; rewrite app_nil_r.
  - by rewrite firstn_all.
  - split_and!; [|done|lia]. f_equal. by rewrite <- (firstn_all p) at 1; rewrite take_take.
  - by rewrite firstn_all.
Qed.

Lemma socket_Write_rest p s :
  (socket_Write p s).2.2 <> None \/ drop (socket_Write p s).2.1 p = [].
Proof.
  unfold socket_Write. destruct (writeFaults s) as [|[[n e]|] fs]; [right|by left|right]; apply drop_all.
Qed.

#[export] Instance socket_laws : SinkLaws socket := {|
  written _ s := sentBytes (transcript s);
  isOpen _ _ := True;
  onlyOn _ := onlySends;
  onlyOn_refl _ := onlySends_refl;
  onlyOn_trans _ := onlySends_trans;
  onlyOn_open _ _ _ _ _ := I;
  sink_Write_spec _ p s _ := socket_Write_spec p s;
  sink_Write_rest _ := socket_Write_rest
|}.

Ltac on_socket := cbn [written isOpen onlyOn socket_laws] in *.

(** ** A client that takes its replies *)

Definition healthy (c : conn) : Prop := writeFaults c.1 = [] /\ werr c.2 = None.

Lemma flush_healthy c :
  healthy c -> exists c', bufw_Flush c = (c', None) /\ healthy c' /\ onlySends c.1 c'.1 /\
    sentBytes (transcript c'.1) = stream c /\ stream c' = stream c.
Proof.
  destruct c as [s b]. intros [Hf He]. cbn [fst snd] in Hf, He.
  pose proof (Flush_spec (s, b) I He) as H. unfold bufw_Flush in *. rewrite He in *.
  destruct (decide (wbuf b = [])) as [Hb|Hb].
  - eexists. split; [done|]. on_socket. destruct H as (_ & Ho & _ & _ & Hs & _). cbn [fst snd] in *.
    by split_and!.
  - unfold sink_Write, socket_sink, socket_Write in *. rewrite Hf in *.
    rewrite decide_False in * by lia. eexists. split; [done|]. on_socket.
    destruct H as (_ & Ho & _ & _ & Hs & _). cbn [fst snd] in *. split_and!; [done..|].
    unfold stream at 1. on_socket. cbn [fst snd wfd wbuf]. by rewrite Hs, app_nil_r.
Qed.

Lemma loop_healthy fuel p c : healthy c -> healthy (bufw_loop writeBufSize fuel p c).1.
Proof.
  revert p c. induction fuel as [|fu IH]; intros p [s b] Hh; [done|]. cbn [bufw_loop].
  destruct (decide _); [|done]. destruct (decide (wbuf b = [])).
  - destruct Hh as [Hf He]. cbn [fst snd] in Hf, He. unfold sink_Write, socket_sink, socket_Write.
    rewrite Hf. by apply IH.
  - apply IH. destruct (flush_healthy (s, mkBufW (wbuf b ++ take (Available writeBufSize b) p) (werr b) (wfd b)))
      as (c' & -> & Hh' & _); done.
Qed.

Lemma write_healthy p c :
  healthy c -> exists c', io_write p c = (c', Ret tt) /\ healthy c' /\ onlySends c.1 c'.1 /\
    stream c' = stream c ++ p.
Proof.
  intros Hh. pose proof (sends_io writeBufSize p c I (proj2 Hh)) as H.
  pose proof (loop_healthy 3 p c Hh) as [Hf He].
  unfold io_write, conn_writer, bufw_Write in *.
  destruct (bufw_loop _ 3 p c) as [[s b] rest]. cbn [fst snd] in *. rewrite He in *.
  destruct H as (_ & Ho & _ & _ & Hs). eexists. split; [done|]. by split_and!.
Qed.

(** A connection that has sent, or buffered, [w] since the transcript was [base]. *)
Record carries (base : list io) (src : source) (c : conn) (w : bytes) : Prop := {
  carries_healthy : healthy c;
  carries_incoming : incoming c.1 = src;
  carries_base : exists ps, transcript c.1 = base ++ (Sent <$> ps);
  carries_stream : stream c = w
}.

Lemma carries_refl c : healthy c -> carries (transcript c.1) (incoming c.1) c (stream c).
Proof. intros Hh. split; [done|done| |done]. exists []. by rewrite app_nil_r. Qed.

Lemma carries_write base src p : agree (carries base src) (io_write p) (io_write p).
Proof.
  intros c w [Hh Hi [ps Hp] Hs]. destruct (write_healthy p c Hh) as (c' & -> & Hh' & [Hi' [qs Hq]] & Hs').
  split; [done|]. cbn [fst]. split; [done|congruence| |].
  - exists (ps ++ qs). by rewrite Hq, Hp, fmap_app, (assoc_L (++)).
  - by rewrite Hs', Hs.
Qed.

(** ** What the parser asks for *)

(** The parser's reader on the socket, without its writer. *)
Definition view (b : bufioReader conn) : bufioReader source :=
  mkBufio (rbuf b) (rerr b) (incoming (rsrc b).1).

Definition trace (b : bufioReader conn) : list io := transcript (rsrc b).1.

Definition behind (b : bufioReader conn) : bytes := concat (chunks (incoming (rsrc b).1)).

(** The reader stands for the stream [f], and its client takes replies. *)
Definition serves (b : bufioReader conn) (f : flat) : Prop :=
  rel readerBufSize (view b) f /\ healthy (rsrc b).

(** From [b] to [b'] the connection has read, having flushed the replies before, and has
    read only while the bytes that it had were [short]. *)
Record asked (short : bytes -> Prop) (b b' : bufioReader conn) (tr : list io) : Prop := {
  asked_trace : trace b' = trace b ++ tr;
  asked_stream : stream (rsrc b') = stream (rsrc b);
  asked_bytes : recvd tr ++ behind b' = behind b;
  asked_when t1 p e t2 : tr = t1 ++ Recv p e :: t2 ->
    sentBytes (trace b ++ t1) = stream (rsrc b) /\ short (rbuf b ++ recvd t1)
}.

Lemma asked_nothing short b b' : rsrc b' = rsrc b -> asked short b b' [].
Proof.
  intros Hb. split; unfold trace, behind; rewrite ?Hb, ?app_nil_r; try done.
  intros [] p e t2 H; discriminate.
Qed.

Lemma asked_weaken (P Q : bytes -> Prop) b b' tr : (forall q, P q -> Q q) -> asked P b b' tr -> asked Q b b' tr.
Proof. intros HPQ [H1 H2 H3 H4]. split; try done. intros t1 p e t2 Ht. destruct (H4 t1 p e t2 Ht). auto. Qed.

(** Two stretches, the second with the bytes [used] gone. *)
Lemma asked_trans (P Q : bytes -> Prop) b b1 b2 tr1 tr2 used :
  asked P b b1 tr1 -> asked Q b1 b2 tr2 ->
  rbuf b ++ recvd tr1 = used ++ rbuf b1 ->
  (forall q, Q q -> P (used ++ q)) -> asked P b b2 (tr1 ++ tr2).
Proof.
  intros [H1 H2 H3 H4] [K1 K2 K3 K4] Hu HQ. split.
  - by rewrite K1, H1, (assoc_L (++)).
  - congruence.
  - by rewrite recvd_app, <- (assoc_L (++)), K3.
  - intros t1 p e t2 Ht. apply app_eq_app in Ht as (l & [[-> Hl]|[-> Hl]]).
    + destruct l as [|ev l]; simpl in Hl.
      * rewrite app_nil_r in *. destruct (K4 [] p e t2 (eq_sym Hl)) as [S1 S2].
        rewrite H1, app_nil_r in S1. cbn in S2. rewrite app_nil_r in S2.
        split; [congruence|]. rewrite Hu. by apply HQ.
      * injection Hl as <- Hl. by eapply (H4 t1 p e l).
    + destruct (K4 l p e t2 Hl) as [S1 S2]. rewrite H1, <- (assoc_L (++)) in S1.
      split; [congruence|]. rewrite recvd_app, (assoc_L (++)), Hu, <- (assoc_L (++)). by apply HQ.
Qed.

(** ** One read *)

Lemma read_step cap c :
  healthy c -> exists c' ps,
    let '(src', (p, e)) := src_Read cap (incoming c.1) in
    io_read cap c = (c', (p, e)) /\ healthy c' /\ incoming c'.1 = src' /\ stream c' = stream c /\
    transcript c'.1 = transcript c.1 ++ (Sent <$> ps) ++ [Recv p e] /\
    sentBytes (transcript c.1 ++ (Sent <$> ps)) = stream c.
Proof.
  intros Hh. destruct (flush_healthy c Hh) as ([s b] & Hfl & Hh' & [Hi [ps Hp]] & Hs & Hst).
  cbn [fst snd] in *. exists (let '(src', (p, e)) := src_Read cap (incoming c.1) in
    (mkSocket src' (writeFaults s) (transcript s ++ [Recv p e]), b)), ps.
  unfold io_read, conn_reader, flushBeforeRead, socket_Read. rewrite Hfl, Hi.
  destruct (src_Read cap (incoming c.1)) as [src' [p e]]. split_and!; try done.
  - unfold stream in *. on_socket. cbn [fst snd transcript wfd] in *.
    rewrite sentBytes_app. cbn. by rewrite app_nil_r.
  - cbn [fst transcript]. by rewrite Hp, <- (assoc_L (++)).
  - by rewrite <- Hp.
Qed.

Lemma src_Read_bytes cap src :
  (src_Read cap src).2.1 ++ concat (chunks (src_Read cap src).1) = concat (chunks src).
Proof.
  unfold src_Read. destruct (chunks src) as [|c cs] eqn:Hc; [simpl; by rewrite Hc|].
  case_decide; [done|]. simpl. by rewrite (assoc_L (++)), take_drop.
Qed.

Lemma split_single {A} (f : A -> io) ps ev t1 p e t2 :
  (forall a q r, f a <> Recv q r) -> (f <$> ps) ++ [ev] = t1 ++ Recv p e :: t2 ->
  t1 = f <$> ps /\ ev = Recv p e.
Proof.
  intros Hf. revert t1. induction ps as [|a ps IH]; intros t1; simpl.
  - destruct t1 as [|x t1]; simpl; [intros [= ->]; by split|].
    intros [= _ H]. by destruct t1.
  - destruct t1 as [|x t1]; simpl; [intros [= H _]; by destruct (Hf a p e)|].
    intros [= <- H]. by destruct (IH t1 H) as [-> ->].
Qed.

(** A read from [b] that leaves [b'], whose buffer may differ. *)
Lemma asked_read (short : bytes -> Prop) b b' cap c' r :
  healthy (rsrc b) -> short (rbuf b) ->
  io_read cap (rsrc b) = (c', r) -> rsrc b' = c' ->
  exists tr, asked short b b' tr /\ recvd tr = r.1 /\ healthy (rsrc b') /\
    r = (src_Read cap (incoming (rsrc b).1)).2 /\
    incoming (rsrc b').1 = (src_Read cap (incoming (rsrc b).1)).1.
Proof.
  intros Hh Hq Hio Hb'. destruct (read_step cap (rsrc b) Hh) as (c & ps & H).
  pose proof (src_Read_bytes cap (incoming (rsrc b).1)) as Hby.
  destruct (src_Read cap (incoming (rsrc b).1)) as [src' [p e]].
  destruct H as (Hio' & Hc & Hi & Hs & Ht & Hst). rewrite Hio in Hio'. injection Hio' as -> ->.
  subst c. exists ((Sent <$> ps) ++ [Recv p e]). split.
  - split; [done|done| |].
    + rewrite recvd_app, recvd_sends. unfold behind. rewrite Hi. cbn. by rewrite app_nil_r.
    + intros t1 p' e' t2 [-> _]%split_single; [|done]. rewrite recvd_sends, app_nil_r. done.
  - rewrite recvd_app, recvd_sends. cbn. rewrite app_nil_r. by split_and!.
Qed.

(** ** The operations of the reader *)

(** [b'] is what the reader [v'] without its writer has become. *)
Definition mirrors (b' : bufioReader conn) (v' : bufioReader source) : Prop :=
  view b' = v' /\ healthy (rsrc b').

Lemma fill_asked short b :
  healthy (rsrc b) -> Forall (fun c => c <> []) (chunks (incoming (rsrc b).1)) ->
  length (rbuf b) < readerBufSize -> short (rbuf b) ->
  exists tr, asked short b (fill readerBufSize b) tr /\
    mirrors (fill readerBufSize b) (fill readerBufSize (view b)) /\
    rbuf (fill readerBufSize b) = rbuf b ++ recvd tr.
Proof.
  intros Hh Hc Hl Hq. unfold fill. change 100 with (S 99). generalize 99 as t. intros t.
  cbn [fill_loop]. cbn [view rbuf rerr rsrc].
  set (cap := readerBufSize - length (rbuf b)).
  destruct (io_read cap (rsrc b)) as [c' [p e]] eqn:Hio.
  change (io_read cap (incoming (rsrc b).1)) with (src_Read cap (incoming (rsrc b).1)).
  destruct (src_Read_spec cap (incoming (rsrc b).1)) as [[_ Hr]|(p' & s' & Hr & Hlen & _)];
    [unfold cap; lia|done| |].
  - destruct (asked_read short b (mkBufio (rbuf b ++ p) e c') cap c' _ Hh Hq Hio eq_refl)
      as (tr & Ha & Hrv & Hh' & Hp & Hi).
    rewrite Hr in *. cbn [fst snd rsrc] in *. injection Hp as -> ->. exists tr. rewrite Hrv.
    split_and!; try done. split; [|done]. unfold view. cbn [rbuf rerr rsrc]. by rewrite Hi.
  - destruct (asked_read short b (mkBufio (rbuf b ++ p) (rerr b) c') cap c' _ Hh Hq Hio eq_refl)
      as (tr & Ha & Hrv & Hh' & Hp & Hi).
    rewrite Hr in *. cbn [fst snd rsrc] in *. injection Hp as -> ->.
    rewrite !(decide_False (P := p' = [])) by (intros ->; simpl in Hlen; lia).
    exists tr. rewrite Hrv.
    split_and!; try done. split; [|done]. unfold view. cbn [rbuf rerr rsrc]. by rewrite Hi.
Qed.

Definition undelimited (d : byte) (q : bytes) : Prop := index_byte d q = None /\ length q < readerBufSize.

Lemma slice_asked d fuel b f :
  serves b f -> exists tr,
    let r := ReadSlice_loop readerBufSize fuel d b in
    let v := ReadSlice_loop readerBufSize fuel d (view b) in
    asked (undelimited d) b r.1 tr /\ mirrors r.1 v.1 /\ r.2 = v.2.
Proof.
  revert b. induction fuel as [|fu IH]; intros b [Hr Hh].
  { exists []. split_and!; try done. by apply asked_nothing. }
  cbn [ReadSlice_loop]. cbn [view rbuf rerr rsrc].
  destruct (index_byte d (rbuf b)) as [i|] eqn:Hi.
  { exists []. split_and!; try done. by apply asked_nothing. }
  destruct (rerr b) as [e|] eqn:He.
  { exists []. split_and!; try done. by apply asked_nothing. }
  destruct (decide (readerBufSize <= length (rbuf b))) as [Hs|Hs].
  { exists []. split_and!; try done. by apply asked_nothing. }
  pose proof (rel_chunks _ _ _ Hr) as Hc. cbn [view rsrc] in Hc.
  destruct (fill_asked (undelimited d) b Hh Hc) as (tr1 & Ha1 & [Hv1 Hh1] & Hb1); [lia|split; [done|lia]|].
  assert (serves (fill readerBufSize b) f) as Hs1.
  { split; [|done]. rewrite Hv1. apply fill_rel; [done|done|cbn [view rbuf]; lia]. }
  destruct (IH _ Hs1) as (tr2 & Ha2 & Hm2 & Ho2). rewrite Hv1 in Hm2, Ho2.
  exists (tr1 ++ tr2). split; [|done].
  apply (asked_trans _ _ _ _ _ _ _ [] Ha1 Ha2); [done|done].
Qed.

Lemma read_asked n b f :
  0 < n -> serves b f -> exists tr,
    let r := bufio_Read readerBufSize n b in
    let v := bufio_Read readerBufSize n (view b) in
    asked (fun q => length q < n) b r.1 tr /\ mirrors r.1 v.1 /\ r.2 = v.2 /\
    rbuf b ++ recvd tr = r.2.1 ++ rbuf r.1.
Proof.
  intros Hn [Hr Hh]. unfold bufio_Read. cbn [view rbuf rerr rsrc].
  destruct (rbuf b) as [|x buf] eqn:Hb.
  2: { exists []. split_and!; [by apply asked_nothing|done|done|]. cbn [fst snd rbuf recvd].
       by rewrite app_nil_r, take_drop. }
  destruct (rerr b) as [e|] eqn:He.
  { exists []. split_and!; try done. by apply asked_nothing. }
  assert (length (rbuf b) < n) as Hq by (rewrite Hb; simpl; lia).
  destruct (decide (readerBufSize <= n)) as [Hs|Hs].
  - destruct (io_read n (rsrc b)) as [c' [p e]] eqn:Hio.
    destruct (asked_read (fun q => length q < n) b (mkBufio [] None c') n c' _ Hh Hq Hio eq_refl)
      as (tr & Ha & Hrv & Hh' & Hp & Hi).
    change (io_read n (incoming (rsrc b).1)) with (src_Read n (incoming (rsrc b).1)).
    destruct (src_Read n _) as [src' [p' e']]. cbn [fst snd rsrc] in *. injection Hp as -> ->.
    exists tr. rewrite Hrv, app_nil_r. split_and!; try done. split; [|done].
    unfold view. cbn [rbuf rerr rsrc]. by rewrite Hi.
  - destruct (io_read readerBufSize (rsrc b)) as [c' [p e]] eqn:Hio.
    destruct (asked_read (fun q => length q < n) b
      (if decide (p = []) then mkBufio [] None c' else mkBufio (drop n p) e c') readerBufSize c' _ Hh Hq Hio)
      as (tr & Ha & Hrv & Hh' & Hp & Hi); [by destruct (decide (p = []))|].
    change (io_read readerBufSize (incoming (rsrc b).1))
      with (src_Read readerBufSize (incoming (rsrc b).1)).
    destruct (src_Read readerBufSize _) as [src' [p' e']]. cbn [fst snd] in *. injection Hp as -> ->.
    exists tr. rewrite Hrv.
    destruct (decide (p' = [])) as [->|Hne]; cbn [fst snd rsrc rbuf] in *.
    + split_and!; try done. split; [|done]. unfold view. cbn [rbuf rerr rsrc]. by rewrite Hi.
    + split_and!; try done; [|by rewrite take_drop]. split; [|done].
      unfold view. cbn [rbuf rerr rsrc]. by rewrite Hi.
Qed.

Lemma full_asked fuel need got b f :
  serves b f -> exists tr,
    let r := ReadFull_loop readerBufSize fuel need got b in
    let v := ReadFull_loop readerBufSize fuel need got (view b) in
    asked (fun q => length q < need) b r.1 tr /\ mirrors r.1 v.1 /\ r.2 = v.2.
Proof.
  revert need got b f. induction fuel as [|fu IH]; intros [|need] got b f Hs;
    try (destruct Hs; exists []; split_and!; try done; by apply asked_nothing).
  cbn [ReadFull_loop].
  destruct (read_asked (S need) b f) as (tr1 & Ha1 & Hm1 & Ho1 & Hu1); [lia|done|].
  destruct (bufio_Read_spec readerBufSize (S need) (view b) f) as
    [(p & v & rest & Hv & Hl & Hfb & Hrel)|(v & Hfb & Hv & Hrel)];
    [apply readerBufSize_pos|lia|apply Hs| |];
    rewrite Hv in *; destruct (bufio_Read readerBufSize (S need) b) as [b1 [p1 e1]];
    cbn [fst snd] in *; injection Ho1 as -> ->.
  - destruct (decide (S need - length p = 0)) as [Hz|Hz]; [by exists tr1|].
    assert (serves b1 (mkFlat rest (ferr f))) as Hs1.
    { destruct Hm1 as [<- Hh1]. by split. }
    destruct (IH (S need - length p) (got ++ p) b1 _ Hs1) as (tr2 & Ha2 & Hm2 & Ho2).
    rewrite (proj1 Hm1) in Hm2, Ho2. exists (tr1 ++ tr2). split; [|done].
    apply (asked_trans _ _ _ _ _ _ _ p Ha1 Ha2 Hu1). intros q Hq. rewrite length_app. lia.
  - rewrite (decide_False (P := S need - length (@nil byte) = 0)) by (simpl; lia). by exists tr1.
Qed.

(** ** The parser asks only when it must *)

Definition silent {A} (o : outcome A) : Prop :=
  match o with Fail e => e = EOF \/ e = ErrUnexpectedEOF | _ => False end.

(** A parser that has returned has used up a part of the stream, and would have returned
    the same whatever came after it. *)
Definition consumes {A} (m : GoM flat A) : Prop :=
  forall f f' a, m f = (f', Ret a) -> exists c, fbytes f = c ++ fbytes f' /\
    forall q e, m (mkFlat (c ++ q) e) = (mkFlat q e, Ret a).

(** The parser on the socket does what it does on the flat stream, and reads only when what
    it has makes up no whole value. *)
Definition prompt {A} (m : GoM (bufioReader conn) A) (mf : GoM flat A) : Prop :=
  forall b f, serves b f -> exists tr,
    asked (fun q => silent (mf (mkFlat q EOF)).2) b (m b).1 tr /\
    serves (m b).1 (mf f).1 /\ (m b).2 = (mf f).2.

Lemma consumes_ret {A} (a : A) : consumes (mret a).
Proof. intros f f' x [= <- <-]. by exists []. Qed.

Lemma consumes_throw {A} e : consumes (throw (A := A) e).
Proof. by intros f f' x [=]. Qed.

Lemma consumes_panic {A} w : consumes (panic (A := A) w).
Proof. by intros f f' x [=]. Qed.

Lemma consumes_bind {A B} (m : GoM flat A) (g : A -> GoM flat B) :
  consumes m -> (forall a, consumes (g a)) -> consumes (m ≫= g).
Proof.
  intros Hm Hg f f' b. unfold mbind, GoM_bind. destruct (m f) as [f1 [a|e|w]] eqn:E; [|done|done].
  intros H. destruct (Hm _ _ _ E) as (c1 & H1 & K1). destruct (Hg a _ _ _ H) as (c2 & H2 & K2).
  exists (c1 ++ c2). split; [by rewrite H1, H2, (assoc_L (++))|].
  intros q e. rewrite <- (assoc_L (++)), K1. apply K2.
Qed.

Lemma consumes_promoting {A} (m : GoM flat A) : consumes m -> consumes (promoting m).
Proof.
  intros Hm f f' a. unfold promoting. destruct (m f) as [f1 [x|e|w]] eqn:E; [|done|done].
  intros [= -> ->]. destruct (Hm _ _ _ E) as (c & H & K). exists c. split; [done|].
  intros q e. by rewrite K.
Qed.

Lemma consumes_readFull n : consumes (readFull n).
Proof.
  intros f f' a. unfold readFull, ReadFull, flat_BufReader, flat_ReadFull.
  case_decide as Hd; [|done]. intros [= <- <-]. exists (take (Z.to_nat n) (fbytes f)).
  cbn [fbytes]. split; [by rewrite take_drop|]. intros q e. cbn [fbytes ferr].
  assert (length (take (Z.to_nat n) (fbytes f)) = Z.to_nat n) as Hl by (rewrite length_take; lia).
  rewrite decide_True by (rewrite length_app; lia).
  by rewrite take_app_length', drop_app_length' by done.
Qed.

Lemma ReadSlice_line d f i :
  index_byte d (take readerBufSize (fbytes f)) = Some i ->
  let c := take (S i) (fbytes f) in
  fbytes f = c ++ drop (S i) (fbytes f) /\
  forall q e, flat_ReadSlice readerBufSize d (mkFlat (c ++ q) e) = (mkFlat q e, (c, None)).
Proof.
  intros Hi c. split; [symmetry; apply take_drop|]. intros q e. unfold flat_ReadSlice. cbn [fbytes ferr].
  pose proof (index_byte_lt _ _ _ Hi) as Hlt. rewrite length_take in Hlt.
  assert (length c = S i) as Hl by (unfold c; rewrite length_take; lia).
  assert (index_byte d (take readerBufSize (c ++ q)) = Some i) as ->.
  { rewrite take_app_ge by lia. apply index_byte_app_Some.
    assert (take (S i) (take readerBufSize (fbytes f)) = c) as <-.
    { rewrite take_take. f_equal. lia. }
    by apply index_byte_take. }
  by rewrite take_app_length', drop_app_length' by done.
Qed.

Lemma consumes_readLine : consumes readLine.
Proof.
  intros f f' a. unfold readLine, ReadSlice, flat_BufReader. unfold flat_ReadSlice at 1.
  destruct (index_byte LF (take readerBufSize (fbytes f))) as [i|] eqn:Hi.
  - destruct (ReadSlice_line LF f i Hi) as [Hf Hq]. cbv zeta in Hf, Hq.
    set (c := take (S i) (fbytes f)) in *. cbn [fst snd].
    destruct (_ || _) eqn:Hb; [done|]. cbv zeta.
    destruct (lenZ _ =? 0)%Z eqn:Hz; [done|]. intros [= <- <-]. exists c. split; [done|].
    intros q e. by rewrite Hq, Hb, Hz.
  - case_decide; cbn [fst snd]; repeat case_decide; done.
Qed.

Lemma prompt_still {A} (o : outcome A) : prompt (fun b => (b, o)) (fun f => (f, o)).
Proof. intros b f Hs. exists []. split; [by apply asked_nothing|by split]. Qed.

(** What a parser that has returned leaves in the buffer. *)
Lemma prompt_used {A} (mf : GoM flat A) b b' f f' tr (P : bytes -> Prop) a :
  consumes mf -> serves b f -> serves b' f' -> mf f = (f', Ret a) -> asked P b b' tr ->
  exists c, rbuf b ++ recvd tr = c ++ rbuf b' /\
    forall q e, mf (mkFlat (c ++ q) e) = (mkFlat q e, Ret a).
Proof.
  intros Hc [Hr _] [Hr' _] Hm Ha. destruct (Hc _ _ _ Hm) as (c & Hf & Hq). exists c. split; [|done].
  rewrite (rel_bytes _ _ _ Hr), (rel_bytes _ _ _ Hr') in Hf. unfold pending, view in Hf.
  cbn [rbuf rsrc] in Hf. pose proof (asked_bytes _ _ _ _ Ha) as Hb. unfold behind in Hb.
  rewrite <- Hb, !(assoc_L (++)) in Hf. by apply app_inv_tail in Hf.
Qed.

Lemma prompt_bind {A B} (m : GoM (bufioReader conn) A) (mf : GoM flat A)
    (g : A -> GoM (bufioReader conn) B) (gf : A -> GoM flat B) :
  consumes mf -> prompt m mf -> (forall a, prompt (g a) (gf a)) -> prompt (m ≫= g) (mf ≫= gf).
Proof.
  intros Hc Hm Hg b f Hs. destruct (Hm b f Hs) as (tr1 & Ha1 & Hs1 & Ho1).
  assert (forall q, silent (mf (mkFlat q EOF)).2 -> silent ((mf ≫= gf) (mkFlat q EOF)).2) as Hsil.
  { intros q. unfold mbind, GoM_bind. by destruct (mf (mkFlat q EOF)) as [fq [a|e|w]]. }
  pose proof (asked_weaken _ _ _ _ _ Hsil Ha1) as Hw.
  change ((m ≫= g) b) with (match m b with
    | (b', Ret a) => g a b' | (b', Fail e) => (b', Fail e) | (b', Panics w) => (b', Panics w) end).
  change ((mf ≫= gf) f) with (match mf f with
    | (f', Ret a) => gf a f' | (f', Fail e) => (f', Fail e) | (f', Panics w) => (f', Panics w) end).
  destruct (m b) as [b1 o1], (mf f) as [f1 o2] eqn:Ef. cbn [fst snd] in Hw, Ha1, Hs1, Ho1. subst o1.
  destruct o2 as [a|e|w]; [|by exists tr1..].
  destruct (prompt_used mf b b1 f f1 tr1 _ a Hc Hs Hs1 Ef Ha1) as (c & Hu & Hq).
  destruct (Hg a b1 f1 Hs1) as (tr2 & Ha2 & Hs2 & Ho2).
  exists (tr1 ++ tr2). split; [|done].
  apply (asked_trans _ _ _ _ _ _ _ c Hw Ha2 Hu). intros q Hsq.
  unfold mbind, GoM_bind. by rewrite Hq.
Qed.

Lemma prompt_promoting {A} (m : GoM (bufioReader conn) A) (mf : GoM flat A) :
  prompt m mf -> prompt (promoting m) (promoting mf).
Proof.
  intros Hm b f Hs. destruct (Hm b f Hs) as (tr & Ha & Hs1 & Ho). exists tr. split.
  - eapply asked_weaken with (P := fun q => silent (mf (mkFlat q EOF)).2).
    + intros q. unfold promoting. destruct (mf (mkFlat q EOF)) as [fq [a|e|w]]; [done| |done].
      intros [-> | ->]; right; unfold unexpectedEOF; by case_decide.
    + unfold promoting. by destruct (m b) as [b1 [a|e|w]].
  - unfold promoting. destruct (m b) as [b1 o1], (mf f) as [f1 o2]. cbn [fst snd] in *. subst o2.
    by destruct o1.
Qed.

Lemma slice_serves d b f :
  serves b f -> exists tr,
    asked (undelimited d) b (bufio_ReadSlice readerBufSize d b).1 tr /\
    serves (bufio_ReadSlice readerBufSize d b).1 (flat_ReadSlice readerBufSize d f).1 /\
    (bufio_ReadSlice readerBufSize d b).2 = (flat_ReadSlice readerBufSize d f).2.
Proof.
  intros Hs. destruct (slice_asked d (readerBufSize + 2) b f Hs) as (tr & Ha & [Hv Hh] & Ho).
  destruct (ReadSlice_sim readerBufSize d (view b) f readerBufSize_pos (proj1 Hs)) as [Hsim Hrel].
  rewrite bufio_ReadSlice_loop in Hsim, Hrel |- *. exists tr. split; [exact Ha|]. rewrite <- Hv in Hrel.
  split; [split; [exact Hrel|exact Hh]|congruence].
Qed.

Lemma full_serves n b f :
  serves b f -> exists tr,
    asked (fun q => length q < n) b (bufio_ReadFull readerBufSize n b).1 tr /\
    serves (bufio_ReadFull readerBufSize n b).1 (flat_ReadFull n f).1 /\
    (bufio_ReadFull readerBufSize n b).2 = (flat_ReadFull n f).2.
Proof.
  intros Hs. destruct (full_asked n n [] b f Hs) as (tr & Ha & [Hv Hh] & Ho).
  destruct (ReadFull_sim readerBufSize n (view b) f readerBufSize_pos (proj1 Hs)) as [Hsim Hrel].
  rewrite bufio_ReadFull_loop in Hsim, Hrel |- *. exists tr. split; [exact Ha|]. rewrite <- Hv in Hrel.
  split; [split; [exact Hrel|exact Hh]|congruence].
Qed.

Lemma readLine_undelimited q : undelimited LF q -> silent (readLine (mkFlat q EOF)).2.
Proof.
  intros [Hi Hl]. unfold readLine, ReadSlice, flat_BufReader, flat_ReadSlice. cbn [fbytes ferr].
  rewrite take_ge, Hi, decide_False by lia. cbn [snd].
  rewrite (decide_False (P := EOF = ErrBufferFull)), (decide_True (P := EOF = EOF)) by done.
  destruct (0 <? lenZ q)%Z; cbn; auto.
Qed.

Lemma readFull_short n q : length q < Z.to_nat n -> silent (readFull n (mkFlat q EOF)).2.
Proof.
  intros Hl. unfold readFull, ReadFull, flat_BufReader, flat_ReadFull. cbn [fbytes ferr].
  rewrite decide_False by lia. unfold short_read. cbn. repeat case_decide; auto.
Qed.

Lemma prompt_readLine : prompt readLine readLine.
Proof.
  intros b f Hs. destruct (slice_serves LF b f Hs) as (tr & Ha & Hs1 & Ho). exists tr.
  apply (asked_weaken _ _ _ _ _ readLine_undelimited) in Ha. unfold readLine at 2 3 4 5 6.
  unfold ReadSlice, bufio_BufReader, flat_BufReader.
  destruct (bufio_ReadSlice readerBufSize LF b) as [b1 [l1 e1]].
  destruct (flat_ReadSlice readerBufSize LF f) as [f1 [l2 e2]].
  cbn [fst snd] in *. injection Ho as -> ->. by repeat case_match.
Qed.

Lemma prompt_readFull n : prompt (readFull n) (readFull n).
Proof.
  intros b f Hs. destruct (full_serves (Z.to_nat n) b f Hs) as (tr & Ha & Hs1 & Ho). exists tr.
  apply (asked_weaken _ _ _ _ _ (readFull_short n)) in Ha. unfold readFull at 2 3 4 5 6.
  unfold ReadFull, bufio_BufReader, flat_BufReader.
  destruct (bufio_ReadFull readerBufSize (Z.to_nat n) b) as [b1 o1].
  destruct (flat_ReadFull (Z.to_nat n) f) as [f1 o2]. cbn [fst snd] in *. subst o1. by destruct o2.
Qed.

Create HintDb prompt.
#[local] Hint Resolve consumes_ret consumes_throw consumes_panic consumes_bind consumes_promoting
  consumes_readFull consumes_readLine prompt_bind prompt_promoting prompt_readLine prompt_readFull : prompt.
#[local] Hint Extern 0 (prompt (mret _) _) => apply prompt_still : prompt.
#[local] Hint Extern 0 (prompt (throw _) _) => apply prompt_still : prompt.
#[local] Hint Extern 0 (prompt (panic _) _) => apply prompt_still : prompt.

Lemma consumes_readBulkString : consumes readBulkString.
Proof.
  apply consumes_bind; [auto with prompt|]. intros line. repeat (case_match; auto with prompt).
  apply consumes_bind; [auto with prompt|]. intros buf. repeat (case_match; auto with prompt).
Qed.

Lemma consumes_readArgs k : consumes (readArgs k).
Proof.
  induction k as [|k IH]; cbn [readArgs]; [auto with prompt|].
  apply consumes_bind; [apply consumes_readBulkString|]. auto with prompt.
Qed.

Lemma consumes_ReadCommand : consumes ReadCommand.
Proof.
  apply consumes_bind; [auto with prompt|]. intros line.
  repeat (case_match; auto using consumes_readArgs with prompt).
Qed.

Lemma prompt_readBulkString : prompt readBulkString readBulkString.
Proof.
  apply prompt_bind; [auto with prompt..|]. intros line. repeat (case_match; auto with prompt).
  apply prompt_bind; [auto with prompt..|]. intros buf. repeat (case_match; auto with prompt).
Qed.

Lemma prompt_readArgs k : prompt (readArgs k) (readArgs k).
Proof.
  induction k as [|k IH]; cbn [readArgs]; [auto with prompt|].
  apply prompt_bind; [apply consumes_readBulkString|apply prompt_readBulkString|]. intros a.
  apply prompt_bind; [apply consumes_readArgs|apply IH|]. auto with prompt.
Qed.

Lemma prompt_ReadCommand : prompt ReadCommand ReadCommand.
Proof.
  apply prompt_bind; [auto with prompt..|]. intros line.
  repeat (case_match; auto using prompt_readArgs with prompt).
Qed.

(** ** The loop *)

Section Loop.
Context (lib : Lib) (envs : nat -> Env).

Abbreviation handle := (handleLoop (R := flat) (W := bytes) lib).

(** At every read of [tr] the client has what the loop would have written had its stream
    ended there. *)
Definition pays (fuel : nat) (b : bufioReader conn) (srv : Server) (tr : list io) : Prop :=
  forall t1 p e t2, tr = t1 ++ Recv p e :: t2 ->
  sentBytes (trace b ++ t1) =
    (handle fuel envs (mkFlat (rbuf b ++ recvd t1) EOF) (srv, stream (rsrc b))).1.2.

Lemma handle_silent fu f (st : Server * bytes) :
  silent (ReadCommand f).2 -> (handle (S fu) envs f st).1 = st.
Proof.
  cbn [handleLoop]. destruct (ReadCommand f) as [f' [args|e|w]]; [done| |done].
  destruct st as [s w]. by intros [-> | ->].
Qed.

Lemma pays_first fu b b1 srv tr :
  asked (fun q => silent (ReadCommand (mkFlat q EOF)).2) b b1 tr -> pays (S fu) b srv tr.
Proof.
  intros [_ _ _ Hw] t1 p e t2 Ht. destruct (Hw t1 p e t2 Ht) as [-> Hs]. by rewrite handle_silent.
Qed.

Lemma pays_sends fu b srv tr ps : pays fu b srv tr -> pays fu b srv (tr ++ (Sent <$> ps)).
Proof.
  intros Hp t1 p e t2 Ht. apply app_eq_app in Ht as (l & [[-> Hl]|[-> Hl]]).
  - destruct l as [|ev l]; [|by injection Hl as <- _; eapply Hp].
    exfalso. destruct ps; discriminate.
  - exfalso. assert (Recv p e ∈ Sent <$> ps) as (x & Hx & _)%list_elem_of_fmap; [|discriminate].
    rewrite Hl. set_solver.
Qed.

Lemma pays_next fu b b2 srv srv2 tr1 tr2 :
  pays (S fu) b srv tr1 -> trace b2 = trace b ++ tr1 -> pays fu b2 srv2 tr2 ->
  (forall q, (handle (S fu) envs (mkFlat (rbuf b ++ recvd tr1 ++ q) EOF) (srv, stream (rsrc b))).1 =
             (handle fu envs (mkFlat (rbuf b2 ++ q) EOF) (srv2, stream (rsrc b2))).1) ->
  pays (S fu) b srv (tr1 ++ tr2).
Proof.
  intros H1 Ht H2 Hq t1 p e t2 Htr. apply app_eq_app in Htr as (l & [[-> Hl]|[-> Hl]]).
  - destruct l as [|ev l]; [|by injection Hl as <- _; eapply H1].
    rewrite app_nil_r in *. specialize (H2 [] p e t2 (eq_sym Hl)). specialize (Hq []).
    rewrite Ht, app_nil_r in H2. change (recvd []) with (@nil byte) in H2. rewrite !app_nil_r in Hq. rewrite app_nil_r in H2.
    by rewrite H2, <- Hq.
  - specialize (H2 l p e t2 Hl). rewrite Ht, <- (assoc_L (++)) in H2.
    by rewrite H2, recvd_app, Hq.
Qed.

(** Replies sent or buffered after a read. *)
Lemma carries_pays fu b b1 srv tr c w :
  trace b1 = trace b ++ tr -> pays fu b srv tr ->
  carries (transcript (rsrc b1).1) (incoming (rsrc b1).1) c w ->
  exists tr', transcript c.1 = trace b ++ tr' /\ pays fu b srv tr' /\ recvd tr' = recvd tr.
Proof.
  intros Ht Hp [_ _ [ps Hps] _]. exists (tr ++ (Sent <$> ps)). split_and!.
  - rewrite Hps, (assoc_L (++)). f_equal. exact Ht.
  - by apply pays_sends.
  - by rewrite recvd_app, recvd_sends, app_nil_r.
Qed.

Lemma carries_serves b1 c w f :
  serves b1 f -> carries (transcript (rsrc b1).1) (incoming (rsrc b1).1) c w -> serves (setSrc c b1) f.
Proof.
  intros [Hr _] [Hh Hi _ _]. split; [|done]. unfold view, setSrc in *. cbn [rbuf rerr rsrc]. by rewrite Hi.
Qed.

(** A command that the loop has carried out, with the reply [w2] of [dispatch] to come. *)
Lemma handle_next fu q e args srv w :
  ReadCommand (mkFlat q EOF) = (mkFlat e EOF, Ret args) ->
  handle (S fu) envs (mkFlat q EOF) (srv, w) =
    if (lenZ args =? 0)%Z then handle fu envs (mkFlat e EOF) (srv, w)
    else match dispatch lib (envs fu) args (srv, w) with
         | (st', Ret _) => handle fu envs (mkFlat e EOF) st'
         | (st', _) => (st', true)
         end.
Proof. intros H. cbn [handleLoop]. by rewrite H. Qed.

(** What the loop on the socket owes to the loop on the flat stream. *)
Definition keepsUp (fuel : nat) (b : bufioReader conn) (srv : Server)
    (real : Server * conn * bool) (flat_ : Server * bytes * bool) : Prop :=
  let '(srv', c', ended) := real in
  flat_ = (srv', stream c', ended) /\ healthy c' /\
  exists tr, transcript c'.1 = trace b ++ tr /\ pays fuel b srv tr.

Lemma keepsUp_next fu b b2 srv srv2 tr1 real flat_ :
  pays (S fu) b srv tr1 -> trace b2 = trace b ++ tr1 ->
  (forall q, (handle (S fu) envs (mkFlat (rbuf b ++ recvd tr1 ++ q) EOF) (srv, stream (rsrc b))).1 =
             (handle fu envs (mkFlat (rbuf b2 ++ q) EOF) (srv2, stream (rsrc b2))).1) ->
  keepsUp fu b2 srv2 real flat_ -> keepsUp (S fu) b srv real flat_.
Proof.
  intros Hp Ht Hq. destruct real as [[srv' c'] ended]. intros (Hf & Hc & tr2 & Ht2 & Hp2).
  split; [done|]. split; [done|]. exists (tr1 ++ tr2).
  split; [by rewrite Ht2, Ht, (assoc_L (++))|]. by eapply pays_next.
Qed.

Lemma keepsUp_end fu b b1 srv srv' tr c' w' ended :
  trace b1 = trace b ++ tr -> pays fu b srv tr ->
  carries (transcript (rsrc b1).1) (incoming (rsrc b1).1) c' w' ->
  keepsUp fu b srv (srv', c', ended) (srv', w', ended).
Proof.
  intros Ht Hp Hc. destruct (carries_pays _ _ _ _ _ _ _ Ht Hp Hc) as (tr' & Ht' & Hp' & _).
  split; [by rewrite (carries_stream _ _ _ _ Hc)|]. split; [apply (carries_healthy _ _ _ _ Hc)|].
  by exists tr'.
Qed.

(** The command [args] has been read, and has left [b1]. *)
Lemma keepsUp_answer fu b b1 f1 srv tr args :
  (forall b f srv, serves b f ->
     keepsUp fu b srv (serveLoop lib envs fu b srv) (handle fu envs f (srv, stream (rsrc b)))) ->
  serves b1 f1 -> trace b1 = trace b ++ tr -> pays (S fu) b srv tr ->
  carries (transcript (rsrc b1).1) (incoming (rsrc b1).1) (rsrc b1) (stream (rsrc b)) ->
  (forall q, ReadCommand (mkFlat (rbuf b ++ recvd tr ++ q) EOF) = (mkFlat (rbuf b1 ++ q) EOF, Ret args)) ->
  (lenZ args =? 0)%Z = false ->
  keepsUp (S fu) b srv
    match dispatch lib (envs fu) args (srv, rsrc b1) with
    | ((srv', c'), Ret _) => serveLoop lib envs fu (setSrc c' b1) srv'
    | ((srv', c'), _) => (srv', c', true)
    end
    match dispatch lib (envs fu) args (srv, stream (rsrc b)) with
    | (st', Ret _) => handle fu envs f1 st'
    | (st', _) => (st', true)
    end.
Proof.
  intros IH Hs1 Ht Hp Hcar Hrc Hz.
  pose proof (same_dispatch _ (carries_write _ _) lib (envs fu) args srv _ _ Hcar) as Hd.
  destruct (dispatch lib (envs fu) args (srv, rsrc b1)) as [[s1 c1] o1].
  destruct (dispatch lib (envs fu) args (srv, stream (rsrc b))) as [[s2 w2] o2] eqn:Ed.
  destruct Hd as (-> & -> & Hc1). destruct o2 as [[]|e|w]; [|by eapply keepsUp_end..].
  destruct (carries_pays _ _ _ _ _ _ _ Ht Hp Hc1) as (tr2 & Ht2 & Hp2 & Hrv2).
  pose proof (IH _ f1 s2 (carries_serves _ _ _ _ Hs1 Hc1)) as H. cbn [setSrc rsrc] in H.
  rewrite (carries_stream _ _ _ _ Hc1) in H.
  apply (keepsUp_next fu b (setSrc c1 b1) srv s2 tr2); [exact Hp2|exact Ht2| |exact H]. intros q.
  rewrite Hrv2, (handle_next fu _ _ _ srv _ (Hrc q)), Hz, Ed. cbn [setSrc rsrc rbuf].
  by rewrite (carries_stream _ _ _ _ Hc1).
Qed.

Lemma loop_prompt fuel b f srv :
  serves b f ->
  keepsUp fuel b srv (serveLoop lib envs fuel b srv) (handle fuel envs f (srv, stream (rsrc b))).
Proof.
  revert b f srv. induction fuel as [|fu IH]; intros b f srv Hs.
  { split; [done|]. split; [apply Hs|]. exists []. rewrite app_nil_r. split; [done|].
    by intros [] p e t2 [=]. }
  destruct (prompt_ReadCommand b f Hs) as (tr & Ha & Hs1 & Ho).
  pose proof (pays_first fu b _ srv tr Ha) as Hp. cbn [serveLoop handleLoop].
  destruct (ReadCommand b) as [b1 o1] eqn:Eb, (ReadCommand f) as [f1 o2] eqn:Ef. cbn [fst snd] in *. subst o1.
  pose proof (asked_trace _ _ _ _ Ha) as Ht. pose proof (asked_stream _ _ _ _ Ha) as Hst.
  pose proof (carries_refl (rsrc b1) (proj2 Hs1)) as Hcar. rewrite Hst in Hcar.
  destruct o2 as [args|e|w].
  - destruct (prompt_used _ _ _ _ _ _ _ _ consumes_ReadCommand Hs Hs1 Ef Ha) as (c & Hu & Hq).
    assert (forall q, ReadCommand (mkFlat (rbuf b ++ recvd tr ++ q) EOF) = (mkFlat (rbuf b1 ++ q) EOF, Ret args))
      as Hrc by (intros q; by rewrite (assoc_L (++)), Hu, <- (assoc_L (++))).
    destruct (lenZ args =? 0)%Z eqn:Hz; [|by apply (keepsUp_answer fu b b1 f1 srv tr)].
    eapply keepsUp_next; [exact Hp|exact Ht| |rewrite <- Hst; by apply IH]. intros q.
    by rewrite (handle_next fu _ _ _ srv _ (Hrc q)), Hz, Hst.
  - pose proof (same_reportReadError _ (carries_write _ _) e srv _ _ Hcar) as Hd.
    destruct (reportReadError e (srv, rsrc b1)) as [[s1 c1] o1].
    destruct (reportReadError e (srv, stream (rsrc b))) as [[s2 w2] o2].
    destruct Hd as (-> & -> & Hc1). by eapply keepsUp_end.
  - by eapply keepsUp_end.
Qed.
End Loop.

(** ** The connection *)

Lemma serves_new src : Forall (fun c => c <> []) (chunks src) ->
  serves (newBufio (mkSocket src [] [], NewWriterSize 0)) (mkFlat (concat (chunks src)) (send src)).
Proof. intros Hc. split; [|done]. by apply (rel_new readerBufSize src). Qed.

Lemma HandleConn_loop lib envs fuel src srv :
  Forall (fun c => c <> []) (chunks src) ->
  let '(srv', s, ended) := HandleConn lib envs fuel (mkSocket src [] []) srv in
  handleLoop lib fuel envs (newBufio src) (srv, []) = (srv', sentBytes (transcript s), ended) /\
  exists tr, transcript s = tr ++ [Closed] /\
    pays lib envs fuel (newBufio (mkSocket src [] [], NewWriterSize 0)) srv tr.
Proof.
  intros Hc. pose proof (serves_new src Hc) as Hs. unfold HandleConn.
  pose proof (loop_prompt lib envs fuel _ _ srv Hs) as H.
  destruct (serveLoop lib envs fuel _ srv) as [[srv' c] ended]. destruct H as (Hh & Hhc & tr & Ht & Hp).
  destruct (flush_healthy c Hhc) as (c' & -> & _ & [_ [ps Hps]] & Hsent & _). cbn [fst].
  unfold happened. cbn [transcript]. split.
  - rewrite (handleLoop_flat _ _ _ _ _ _ (rel_new readerBufSize src Hc)), sentBytes_app, Hsent.
    cbn. rewrite app_nil_r. exact Hh.
  - exists (tr ++ (Sent <$> ps)). split; [by rewrite Hps, Ht|by apply pays_sends].
Qed.

(** C4. The client is never left waiting for a reply: whatever fragments it sends, if its
    socket takes what is written, then at every read of the socket it has been sent
    exactly the replies to the commands that are complete in the bytes received so far:
    what the loop writes on a stream that ends there.  In the end it has been sent the
    output of the loop, no more and no less, and the server is in the loop's state. *)
Theorem HandleConn_prompt (lib : Lib) (envs : nat -> Env) (fuel : nat) (src : source) (srv : Server) :
  Forall (fun c => c <> []) (chunks src) ->
  let '(srv', s, ended) := HandleConn lib envs fuel (mkSocket src [] []) srv in
  handleLoop lib fuel envs (newBufio src) (srv, []) = (srv', sentBytes (transcript s), ended) /\
  forall t1 p e t2, transcript s = t1 ++ Recv p e :: t2 ->
  sentBytes t1 = (handleLoop lib fuel envs (mkFlat (recvd t1) EOF) (srv, [])).1.2.
Proof.
  intros Hc. pose proof (HandleConn_loop lib envs fuel src srv Hc) as H.
  destruct (HandleConn lib envs fuel _ srv) as [[srv' s] ended]. destruct H as (Hh & tr & Ht & Hp).
  split; [exact Hh|]. intros t1 p e t2 Hsplit. rewrite Ht in Hsplit.
  destruct (exists_last (l := Recv p e :: t2)) as (l & x & Hl); [done|].
  rewrite Hl, (assoc_L (++)) in Hsplit. apply app_inj_tail in Hsplit as [-> <-].
  destruct l as [|y l]; [discriminate|]. injection Hl as <- _.
  apply (Hp t1 p e l eq_refl).
Qed.

(** Two commands in one fragment, then half a command: one write for both replies, before
    the read that has to wait. *)
Definition pipelining_client : source :=
  mkSource [bs "*1" ++ crlf ++ bs "$4" ++ crlf ++ bs "PING" ++ crlf ++
            bs "*2" ++ crlf ++ bs "$4" ++ crlf ++ bs "ECHO" ++ crlf ++ bs "$2" ++ crlf ++ bs "hi" ++ crlf ++ bs "*1";
            crlf ++ bs "$4" ++ crlf ++ bs "PING" ++ crlf] EOF.

Definition served_pipelining : Server * socket * bool :=
  HandleConn ascii_lib (fun _ => steady Second) 5 (mkSocket pipelining_client [] []) NewServer.

Example replies_coalesce :
  (fun ev => match ev with Recv _ _ => Recv [] None | ev => ev end) <$> transcript served_pipelining.1.2 =
  [Recv [] None; Sent (bs "+PONG" ++ crlf ++ bs "$2" ++ crlf ++ bs "hi" ++ crlf);
   Recv [] None; Sent (bs "+PONG" ++ crlf); Recv [] None; Closed].
Proof. vm_compute. reflexivity. Qed.

Lemma HandleConn_prompt_witness :
  exists srv' s, served_pipelining = (srv', s, true) /\
    sentBytes (transcript s) = bs "+PONG" ++ crlf ++ bs "$2" ++ crlf ++ bs "hi" ++ crlf ++ bs "+PONG" ++ crlf.
Proof.
  pose proof (HandleConn_prompt ascii_lib (fun _ => steady Second) 5 pipelining_client NewServer
    ltac:(repeat constructor; done)) as H.
  assert (served_pipelining.2 = true) as He by (vm_compute; reflexivity).
  assert ((handleLoop ascii_lib 5 (fun _ => steady Second) (newBufio pipelining_client) (NewServer, [])).1.2 =
    bs "+PONG" ++ crlf ++ bs "$2" ++ crlf ++ bs "hi" ++ crlf ++ bs "+PONG" ++ crlf) as Ho
    by (vm_compute; reflexivity).
  fold served_pipelining in H. destruct served_pipelining as [[srv' s] ended]. simpl in He. subst ended.
  exists srv', s. split; [reflexivity|]. destruct H as [H _]. rewrite H in Ho. exact Ho.
Defined.
