(* ===== verification/Disconnect.v ===== *)
(** * Connections whose socket fails

    A client can go away at any moment, so every write to its socket may fail, and after a part of
    its bytes.  [HandleConn] on such a socket is compared with the loop that writes to
    memory: they do the same until a write fails; then the connection is over, and what
    the client was sent is a prefix of what it was owed ([HandleConn_faulty]). *)

From stdpp Require Import base gmap list strings.
From Stdlib Require Import ZArith Lia.
From Stdlib Require Import Strings.Byte.
From S2P Require Import Prelude.
From S2P Require Import RespWriter.
From S2P Require Import Bufio.
From S2P Require Import BufWriter.
From S2P Require Import RespReader.
From S2P Require Import GoTime.
From S2P Require Import Store.
From S2P Require Import StoreInv.
From S2P Require Import AofLog.
From S2P Require Import Commands.
From S2P Require Import CommandsSpec.
From S2P Require Import Writers.
From S2P Require Import Connection.
From S2P Require Import Socket.

(** ** Reading

    [w] is what the client is owed so far. *)

Section Reading.
Context (w : bytes).

(** All of it has been sent or is in the buffer. *)
Definition owing (c : conn) : Prop := werr c.2 = None /\ stream c = w.

(** A write has failed after a part of it. *)
Definition broke (c : conn) : Prop := werr c.2 <> None /\ sentBytes (transcript c.1) `prefix_of` w.

Lemma flush_owing c :
  owing c ->
  ((bufw_Flush c).2 = None /\ owing (bufw_Flush c).1 /\ incoming (bufw_Flush c).1.1 = incoming c.1 /\
   sentBytes (transcript (bufw_Flush c).1.1) = w) \/
  (is_Some (bufw_Flush c).2 /\ broke (bufw_Flush c).1).
Proof.
  intros [He Hs]. pose proof (Flush_spec c I He) as H. destruct (bufw_Flush c) as [c' e]. cbn [fst snd].
  destruct H as (Hw & [Hi _] & _ & Herr & Hm). cbn [written socket_laws] in Hm.
  destruct e as [e|]; [right|left].
  - split; [by eexists|]. split; [by rewrite Herr|by rewrite <- Hs].
  - destruct Hm as [Hm Hb]. rewrite Hs in Hm. split_and!; try done. split; [done|].
    unfold stream. cbn [written socket_laws]. by rewrite Hm, Hb, app_nil_r.
Qed.

Lemma read_owing cap c :
  owing c ->
  ((io_read cap c).2 = (src_Read cap (incoming c.1)).2 /\ owing (io_read cap c).1 /\
   incoming (io_read cap c).1.1 = (src_Read cap (incoming c.1)).1) \/
  (exists e, (io_read cap c).2 = ([], Some e) /\ broke (io_read cap c).1).
Proof.
  intros Ho. unfold io_read, conn_reader, flushBeforeRead.
  destruct (flush_owing c Ho) as [(He & [He' Hs'] & Hi & Hs)|[[e He] Hb]];
    destruct (bufw_Flush c) as [[s bw] e0]; cbn [fst snd] in *; subst e0.
  - left. unfold socket_Read. rewrite Hi. destruct (src_Read cap (incoming c.1)) as [src [p e]].
    split_and!; [done| |done]. split; [done|]. revert Hs'. unfold stream. cbn [fst snd written socket_laws transcript].
    rewrite sentBytes_app. cbn. by rewrite app_nil_r.
  - right. by exists e.
Qed.

(** The reader on the socket does what the reader without it does, or has met a failed
    write, which it returns as its error. *)
Lemma fill_loop_owing tries b :
  owing (rsrc b) ->
  (view (fill_loop readerBufSize tries b) = fill_loop readerBufSize tries (view b) /\
   owing (rsrc (fill_loop readerBufSize tries b))) \/
  (rbuf (fill_loop readerBufSize tries b) = rbuf b /\
   is_Some (rerr (fill_loop readerBufSize tries b)) /\ broke (rsrc (fill_loop readerBufSize tries b))).
Proof.
  revert b. induction tries as [|t IH]; intros b Ho; [by left|]. cbn [fill_loop]. cbn [view rbuf rerr rsrc].
  change (io_read (readerBufSize - length (rbuf b)) (incoming (rsrc b).1))
    with (src_Read (readerBufSize - length (rbuf b)) (incoming (rsrc b).1)).
  destruct (read_owing (readerBufSize - length (rbuf b)) (rsrc b) Ho) as [(Hr & Ho' & Hi)|(e & Hr & Hb)];
    destruct (io_read _ (rsrc b)) as [c' [p e']]; cbn [fst snd] in *.
  - destruct (src_Read _ _) as [src' [p2 e2]]. cbn [fst snd] in *. injection Hr as -> ->.
    destruct e2 as [e|]; [left; unfold view; cbn; by rewrite Hi|].
    destruct (decide (p2 = [])) as [->|Hp]; [|left; unfold view; cbn; by rewrite Hi].
    specialize (IH (mkBufio (rbuf b ++ []) (rerr b) c') Ho'). unfold view in IH at 2. cbn [rbuf rerr rsrc] in IH.
    rewrite Hi, app_nil_r in IH. rewrite app_nil_r. exact IH.
  - injection Hr as -> ->. right. cbn. rewrite app_nil_r. split_and!; [done|by eexists|done].
Qed.

Lemma fill_owing b :
  owing (rsrc b) ->
  (view (fill readerBufSize b) = fill readerBufSize (view b) /\ owing (rsrc (fill readerBufSize b))) \/
  (rbuf (fill readerBufSize b) = rbuf b /\ is_Some (rerr (fill readerBufSize b)) /\
   broke (rsrc (fill readerBufSize b))).
Proof. unfold fill. apply fill_loop_owing. Qed.

Lemma slice_owing d fuel b :
  owing (rsrc b) ->
  let r := ReadSlice_loop readerBufSize fuel d b in
  let v := ReadSlice_loop readerBufSize fuel d (view b) in
  (r.2 = v.2 /\ view r.1 = v.1 /\ owing (rsrc r.1)) \/ (is_Some r.2.2 /\ broke (rsrc r.1)).
Proof.
  revert b. induction fuel as [|fu IH]; intros b Ho; [by left|].
  cbn [ReadSlice_loop]. change (rbuf (view b)) with (rbuf b). change (rerr (view b)) with (rerr b).
  destruct (index_byte d (rbuf b)) as [i|] eqn:Hd; [by left|]. destruct (rerr b) as [e|]; [by left|].
  case_decide; [by left|]. generalize (fill_owing b Ho).
  generalize (fill readerBufSize b) (fill readerBufSize (view b)). intros b1 v1 [[<- Ho1]|(Hb & [e He] & Hbr)].
  - by apply IH.
  - right. destruct fu as [|fu]; cbn [ReadSlice_loop]; [by split; [eexists|]|].
    rewrite Hb, Hd, He. by split; [eexists|].
Qed.

Lemma bread_owing n b :
  owing (rsrc b) ->
  let r := bufio_Read readerBufSize n b in
  let v := bufio_Read readerBufSize n (view b) in
  (r.2 = v.2 /\ view r.1 = v.1 /\ owing (rsrc r.1)) \/ (exists e, r.2 = ([], Some e) /\ broke (rsrc r.1)).
Proof.
  intros Ho. unfold bufio_Read. change (rbuf (view b)) with (rbuf b). change (rerr (view b)) with (rerr b).
  change (rsrc (view b)) with (incoming (rsrc b).1).
  destruct (rbuf b) as [|x buf]; [|by left]. destruct (rerr b) as [e|]; [by left|].
  change (io_read n (incoming (rsrc b).1)) with (src_Read n (incoming (rsrc b).1)).
  change (io_read readerBufSize (incoming (rsrc b).1)) with (src_Read readerBufSize (incoming (rsrc b).1)).
  case_decide;
    match goal with |- context [io_read ?cap (rsrc b)] =>
      destruct (read_owing cap (rsrc b) Ho) as [(Hr & Ho' & Hi)|(e & Hr & Hb)];
      destruct (io_read cap (rsrc b)) as [c' [p e']] end; cbn [fst snd] in *.
  - left. destruct (src_Read _ _) as [src' [p2 e2]]. cbn [fst snd] in *. injection Hr as -> ->.
    split_and!; [done| |done]. unfold view. cbn. by rewrite Hi.
  - injection Hr as -> ->. right. by exists e.
  - left. destruct (src_Read _ _) as [src' [p2 e2]]. cbn [fst snd] in *. injection Hr as -> ->.
    destruct (decide (p2 = [])); (split_and!; [done| |done]); unfold view; cbn; by rewrite Hi.
  - injection Hr as -> ->. right. by exists e.
Qed.

Lemma full_owing fuel need got b :
  owing (rsrc b) ->
  let r := ReadFull_loop readerBufSize fuel need got b in
  let v := ReadFull_loop readerBufSize fuel need got (view b) in
  (r.2 = v.2 /\ view r.1 = v.1 /\ owing (rsrc r.1)) \/ ((exists e, r.2 = inr e) /\ broke (rsrc r.1)).
Proof.
  revert need got b. induction fuel as [|fu IH]; intros [|need] got b Ho; try by left.
  cbn [ReadFull_loop]. destruct (bread_owing (S need) b Ho) as [(Hr & Hv & Ho')|(e & Hr & Hb)];
    destruct (bufio_Read readerBufSize (S need) b) as [b' [p e']]; cbn [fst snd] in *.
  - destruct (bufio_Read readerBufSize (S need) (view b)) as [v' [p2 e2]]. cbn [fst snd] in *.
    injection Hr as -> ->. subst v'. case_decide; [by left|]. destruct e2; [by left|]. by apply IH.
  - injection Hr as -> ->. rewrite decide_False by (cbn [length]; lia). right. by split; [eexists|].
Qed.

(** The parser's reader on the socket, and on the client's stream. *)
Definition pursues (b : bufioReader conn) (v : bufioReader source) : Prop := view b = v /\ owing (rsrc b).

Lemma ReadCommand_owing : sim pursues (fun b => broke (rsrc b)) ReadCommand ReadCommand.
Proof.
  apply sim_ReadCommand.
  - intros d b v [<- Ho]. unfold ReadSlice, bufio_BufReader. rewrite !bufio_ReadSlice_loop.
    destruct (slice_owing d (readerBufSize + 2) b Ho) as [(H1 & H2 & H3)|[H1 H2]]; [left|right]; by split.
  - intros n b v [<- Ho]. unfold ReadFull, bufio_BufReader. rewrite !bufio_ReadFull_loop.
    destruct (full_owing n n [] b Ho) as [(H1 & H2 & H3)|[H1 H2]]; [left|right]; by split.
Qed.
End Reading.

(** ** Writing *)

Lemma broke_more w x c : broke w c -> broke (w ++ x) c.
Proof. intros [He Hp]. split; [done|]. by apply prefix_app_r. Qed.

Lemma broke_prefix w w' c : w `prefix_of` w' -> broke w c -> broke w' c.
Proof. intros [x ->]. apply broke_more. Qed.

(** Writing to a broken socket. *)
Lemma write_broke w p c : broke w c -> (exists e, (io_write p c).2 = Fail e) /\ broke w (io_write p c).1.
Proof.
  intros Hb. unfold io_write, conn_writer, bufw_Write. rewrite loop_broken by apply Hb.
  destruct c as [s bw]. destruct Hb as [He Hp]. cbn [fst snd] in *.
  destruct (werr bw) as [e|] eqn:Hw; [|done]. split; [by eexists|]. split; [by cbn; rewrite Hw|done].
Qed.

Lemma report_broke w e srv c : broke w c -> broke w (reportReadError e (srv, c)).1.2.
Proof.
  intros Hb. pose proof (lossy_reportReadError (W2 := bytes) (fun c _ => broke w c) (fun c _ => broke w c)) as H.
  destruct (H ltac:(split; [intros; right; by apply write_broke|done]) e srv c []) as [H1 _].
  specialize (H1 Hb). destruct (reportReadError e (srv, c)) as [[? c'] ?], (reportReadError e (srv, [])) as [[? ?] ?].
  by destruct H1 as [(_ & _ & ?)|[_ ?]].
Qed.

Section Writing.
Context (src : source).

(** The socket's writer beside one in memory that has been given [w]. *)
Definition owed (c : conn) (w : bytes) : Prop := owing w c /\ incoming c.1 = src.

Definition lost (c : conn) (w : bytes) : Prop := broke w c.

Lemma write_owed p : alike owed lost (io_write p) (io_write p).
Proof.
  split; [|intros c w; apply broke_more]. intros c w [[He Hs] Hi].
  pose proof (sends_io writeBufSize p c I He) as H. unfold outcomes.
  change (io_write p c) with (bufw_Write writeBufSize p c).
  destruct (bufw_Write writeBufSize p c) as [c' [[]|e|x]]; cbn [fst snd];
    destruct H as (_ & [Hi' _] & _ & H); cbn [fst snd] in H, Hi'; [..|done].
  - destruct H as [He' Hs']. left. split; [done|]. split; [|congruence]. split; [done|]. by rewrite Hs', Hs.
  - destruct H as [He' Hp]. right. split; [by eexists|]. cbn [written socket_laws] in Hp.
    split; [by rewrite He'|]. by rewrite Hs in Hp.
Qed.
End Writing.

(** The writer in memory is only ever given more. *)
Lemma memory_grows : forall p, alike (W1 := bytes) (fun _ _ => False) (fun w0 w => w0 `prefix_of` w)
  (io_write p) (io_write p).
Proof. intros p. split; [done|intros w0 w Hp; by apply prefix_app_r]. Qed.

Lemma dispatch_grows lib env args s (w : bytes) : w `prefix_of` (dispatch lib env args (s, w)).1.2.
Proof. by apply (lossy_dispatch _ _ memory_grows lib env args s w w). Qed.

Lemma report_grows e s (w : bytes) : w `prefix_of` (reportReadError e (s, w)).1.2.
Proof. by apply (lossy_reportReadError _ _ memory_grows e s w w). Qed.

(** ** The loop *)

Section Loop.
Context (lib : Lib) (envs : nat -> Env).

Abbreviation handle := (handleLoop (R := flat) (W := bytes) lib).

(** One round. *)
Lemma handle_S fu f (st : Server * bytes) :
  handle (S fu) envs f st =
  match ReadCommand f with
  | (_, Fail e) => ((reportReadError e st).1, true)
  | (_, Panics _) => (st, true)
  | (f', Ret args) =>
      if (lenZ args =? 0)%Z then handle fu envs f' st
      else match dispatch lib (envs fu) args st with
           | (st', Ret _) => handle fu envs f' st'
           | (st', _) => (st', true)
           end
  end.
Proof. reflexivity. Qed.

Lemma handle_grows fuel f srv (w : bytes) : w `prefix_of` (handle fuel envs f (srv, w)).1.2.
Proof.
  revert f srv w. induction fuel as [|fu IH]; intros f srv w; [done|]. cbn [handleLoop].
  destruct (ReadCommand f) as [f' [args|e|p]]; [|apply report_grows|done].
  destruct (lenZ args =? 0)%Z; [apply IH|].
  pose proof (dispatch_grows lib (envs fu) args srv w) as Hd.
  destruct (dispatch lib (envs fu) args (srv, w)) as [[srv' w'] [a|e|p]]; [|done..].
  etrans; [exact Hd|apply IH].
Qed.

(** The loop on the socket has done what the loop in memory does, or it has ended at a failed
    write. *)
Definition until_failure (real : Server * conn * bool) (mem : Server * bytes * bool) : Prop :=
  (real.1.1 = mem.1.1 /\ real.2 = mem.2 /\ owing mem.1.2 real.1.2) \/
  (real.2 = true /\ broke mem.1.2 real.1.2).

Lemma answer_faulty fu b f srv w args :
  (forall b f srv w, rel readerBufSize (view b) f -> owing w (rsrc b) ->
     until_failure (serveLoop lib envs fu b srv) (handle fu envs f (srv, w))) ->
  rel readerBufSize (view b) f -> owing w (rsrc b) ->
  until_failure
    match dispatch lib (envs fu) args (srv, rsrc b) with
    | ((srv', c'), Ret _) => serveLoop lib envs fu (setSrc c' b) srv'
    | ((srv', c'), _) => (srv', c', true)
    end
    match dispatch lib (envs fu) args (srv, w) with
    | (st', Ret _) => handle fu envs f st'
    | (st', _) => (st', true)
    end.
Proof.
  intros IH Hr Ho. pose proof (conj Ho eq_refl : owed (incoming (rsrc b).1) (rsrc b) w) as Hod.
  pose proof (proj1 (lossy_dispatch _ _ (write_owed (incoming (rsrc b).1)) lib (envs fu) args srv _ _) Hod) as Hd.
  destruct (dispatch lib (envs fu) args (srv, rsrc b)) as [[s1 c1] o1].
  destruct (dispatch lib (envs fu) args (srv, w)) as [[s2 w2] o2].
  destruct Hd as [(-> & -> & Ho1 & Hi)|[[e ->] Hb]].
  - destruct o2 as [[]|e|p]; [|by left..]. apply IH; [|done]. unfold view, setSrc in *. cbn [rbuf rerr rsrc].
    by rewrite Hi.
  - right. split; [done|]. destruct o2 as [[]|e'|p]; [|done..]. eapply broke_prefix; [|exact Hb].
    apply handle_grows.
Qed.

Lemma loop_faulty fuel b f srv w :
  rel readerBufSize (view b) f -> owing w (rsrc b) ->
  until_failure (serveLoop lib envs fuel b srv) (handle fuel envs f (srv, w)).
Proof.
  revert b f srv w. induction fuel as [|fu IH]; intros b f srv w Hr Ho; [by left|].
  pose proof (handle_grows (S fu) f srv w) as Hg. rewrite handle_S in Hg |- *. cbn [serveLoop].
  destruct (bufio_sim_ReadCommand _ _ Hr) as [Hof Hrf].
  destruct (ReadCommand_owing w b (view b) (conj eq_refl Ho)) as [[Hob [Hv Hob']]|[[e He] Hb]].
  - clear Hg. rewrite Hof in Hob. rewrite <- Hv in Hrf. clear Hof Hv.
    destruct (ReadCommand b) as [b1 o1], (ReadCommand f) as [f1 o2]. cbn [fst snd] in *. subst o1.
    destruct o2 as [args|e|p]; [|..].
    + destruct (lenZ args =? 0)%Z; [by apply IH|by apply answer_faulty].
    + pose proof (conj Hob' eq_refl : owed (incoming (rsrc b1).1) (rsrc b1) w) as Hod.
      pose proof (proj1 (lossy_reportReadError _ _ (write_owed (incoming (rsrc b1).1)) e srv _ _) Hod) as Hd.
      destruct (reportReadError e (srv, rsrc b1)) as [[s1 c1] r1], (reportReadError e (srv, w)) as [[s2 w2] r2].
      destruct Hd as [(-> & _ & Ho1 & _)|[_ Hb]]; [by left|by right].
    + by left.
  - destruct (ReadCommand b) as [b1 o1]. cbn [fst snd] in *. subst o1. right. split; [done|].
    pose proof (report_broke w e srv _ Hb) as Hb'. destruct (reportReadError e (srv, rsrc b1)) as [[s1 c1] r1].
    eapply broke_prefix; [exact Hg|exact Hb'].
Qed.
End Loop.

(** ** The connection *)

Lemma flush_broke w c : broke w c -> (bufw_Flush c).1 = c.
Proof. destruct c as [s bw]. intros [He _]. unfold bufw_Flush. cbn [snd] in He. by destruct (werr bw). Qed.

(** C14. A client that goes away: whichever writes to its socket fail, and after however many of
    their bytes, the connection ends within one round per byte of what the client sent and
    the socket is closed; what went out is a prefix of the whole values that a client
    that stays would have been sent, so nothing is garbled, reordered or invented. *)
Theorem HandleConn_faulty (lib : Lib) (envs : nat -> Env) (src : source) (writes : list fault) (srv : Server) :
  lib_ok lib -> (forall i, env_ok (envs i)) ->
  Forall (fun c => c <> []) (chunks src) -> line_error (send src) -> store_wf (store srv) ->
  let fuel := S (length (concat (chunks src))) in
  exists srv' s tr srv1 vs,
    HandleConn lib envs fuel (mkSocket src writes []) srv = (srv', s, true) /\
    transcript s = tr ++ [Closed] /\
    handleLoop lib fuel envs (newBufio src) (srv, []) = (srv1, concat (encode <$> vs), true) /\
    Forall framed vs /\
    sentBytes (transcript s) `prefix_of` concat (encode <$> vs).
Proof.
  intros Hlib Henv Hc He Hwf fuel.
  pose proof (rel_new readerBufSize src Hc) as Hrel. rewrite (handleLoop_flat _ _ _ _ _ _ Hrel).
  destruct (handleLoop_replies lib fuel envs (mkFlat (concat (chunks src)) (send src)) srv [])
    as (srv1 & vs & Hrun & Hvs & _); try done. { unfold fuel. simpl. lia. }
  set (c0 := (mkSocket src writes [], NewWriterSize 0) : conn).
  pose proof (loop_faulty lib envs fuel (newBufio c0) _ srv [] Hrel (conj eq_refl eq_refl)) as H.
  rewrite Hrun in H. unfold HandleConn. fold c0.
  destruct (serveLoop lib envs fuel (newBufio c0) srv) as [[srv' c] ended]. unfold until_failure in H. cbn [fst snd app] in *.
  assert (ended = true /\ sentBytes (transcript (bufw_Flush c).1.1) `prefix_of` concat (encode <$> vs)) as [-> Hs].
  { destruct H as [(_ & -> & Ho)|[-> Hb]]; (split; [done|]).
    - by destruct (flush_owing _ c Ho) as [(_ & _ & _ & ->)|[_ [_ ?]]].
    - rewrite (flush_broke _ c Hb). apply Hb. }
  exists srv', (happened Closed (bufw_Flush c).1.1), (transcript (bufw_Flush c).1.1), srv1, vs.
  split_and!; [done..|]. cbn [happened transcript]. rewrite sentBytes_app. cbn. by rewrite app_nil_r.
Qed.

(** The client of Socket that goes away after three bytes. *)
Definition left_early : Server * socket * bool :=
  HandleConn ascii_lib (fun _ => steady Second) (S (length (concat (chunks pipelining_client))))
    (mkSocket pipelining_client [Some (3%nat, EOF)] []) NewServer.

Lemma left_early_sent : sentBytes (transcript left_early.1.2) = bs "+PO".
Proof. vm_compute. reflexivity. Qed.

Lemma HandleConn_faulty_witness :
  exists srv' s tr vs, left_early = (srv', s, true) /\ transcript s = tr ++ [Closed] /\
    sentBytes (transcript s) = bs "+PO" /\ bs "+PO" `prefix_of` concat (encode <$> vs) /\ Forall framed vs.
Proof.
  destruct (HandleConn_faulty ascii_lib (fun _ => steady Second) pipelining_client [Some (3%nat, EOF)] NewServer)
    as (srv' & s & tr & srv1 & vs & Hrun & Htr & _ & Hvs & Hp).
  - intros e. reflexivity.
  - intros _. apply steady_ok. unfold zeroTime, Second. lia.
  - repeat constructor; discriminate.
  - exact I.
  - apply New_wf.
  - pose proof left_early_sent as Hs. unfold left_early in *. rewrite Hrun in Hs |- *. cbn [fst snd] in Hs.
    exists srv', s, tr, vs. split; [reflexivity|]. split; [exact Htr|]. split; [exact Hs|].
    rewrite Hs in Hp. split; [exact Hp|exact Hvs].
Defined.
