(* ===== verification/Serve.v ===== *)
(** * internal/server: [Serve] and [Drain]

    The life of the connections' goroutines.  [Serve] accepts connections, counts each
    in [connections], stores it in [conns], adds it to [connWG] and starts a handler;
    a handler's deferred calls undo the three in the opposite order.  [Drain] waits
    for the handlers, and after a timeout closes the connections that are left.

    [serving] is the shared state with the positions of the goroutines, [servestep] one
    step of one of them.  What a handler does with its connection is the subject of
    Connection.v; here it may return at any time, and it does when its connection is
    closed. *)

From stdpp Require Import base gmap list relations.
From Stdlib Require Import ZArith Lia.
From S2P Require Import Prelude.

#[local] Open Scope Z_scope.

(** ** What [Accept] can return *)

(** [net.ErrClosed], or an error with the number of a system error. *)
Inductive acceptError : Type :=
| ErrClosed
| Errno (n : Z).

#[export] Instance acceptError_eq_dec : EqDecision acceptError.
Proof. solve_decision. Defined.

Definition EAGAIN : Z := 11.
Definition EMFILE : Z := 24.
Definition ETIMEDOUT : Z := 110.

(** [Timeout] of a [net.Error] that holds a [syscall.Errno]. *)
Definition Timeout (e : acceptError) : bool :=
  match e with
  | Errno n => (n =? EAGAIN) || (n =? ETIMEDOUT)
  | ErrClosed => false
  end.

(** The loop of [Serve] after a failed [Accept]: it goes on, or returns an error or
    nil. *)
Definition afterAccept (e : acceptError) : option (option acceptError) :=
  match e with
  | ErrClosed => Some None
  | _ => if Timeout e then None else Some (Some e)
  end.

(** ** State *)

(** The handler of a connection: in [HandleConn], then before each deferred call. *)
Inductive hphase : Type := Handling | Returned | Deleted | Uncounted.

(** The main goroutine: in [Serve] at [Accept] and after each line of the loop's body, in
    [main] after [Serve], in [Drain]. *)
Inductive mphase : Type :=
| Accepting
| Accepted (c : nat)
| Counted (c : nat)
| Stored (c : nat)
| Added (c : nat)
| ServeReturned (e : option acceptError)
| Draining
| Closing (todo : list nat)
| AwaitHandlers
| Drained.

#[export] Instance mphase_eq_dec : EqDecision mphase.
Proof. solve_decision. Defined.

Record serving : Type := mkServing {
  mainAt : mphase;
  counter : Z;                      (* s.connections *)
  conns : gset nat;                 (* s.conns *)
  connWG : Z;                       (* s.connWG *)
  handlers : list (nat * hphase);
  closed : gset nat;                (* connections that [Drain] has closed *)
  used : gset nat                   (* connections accepted so far *)
}.

Definition startServing : serving := mkServing Accepting 0 ∅ 0 [] ∅ ∅.

Definition setMain (p : mphase) (x : serving) : serving :=
  mkServing p (counter x) (conns x) (connWG x) (handlers x) (closed x) (used x).

(** ** Steps *)

Inductive mainstep (x : serving) : serving -> Prop :=
| M_accept c : mainAt x = Accepting -> c ∉ used x ->
    mainstep x (mkServing (Accepted c) (counter x) (conns x) (connWG x) (handlers x) (closed x) ({[c]} ∪ used x))
| M_error e : mainAt x = Accepting ->
    mainstep x (setMain (match afterAccept e with None => Accepting | Some r => ServeReturned r end) x)
| M_count c : mainAt x = Accepted c ->
    mainstep x (mkServing (Counted c) (counter x + 1) (conns x) (connWG x) (handlers x) (closed x) (used x))
| M_store c : mainAt x = Counted c ->
    mainstep x (mkServing (Stored c) (counter x) ({[c]} ∪ conns x) (connWG x) (handlers x) (closed x) (used x))
| M_add c : mainAt x = Stored c ->
    mainstep x (mkServing (Added c) (counter x) (conns x) (connWG x + 1) (handlers x) (closed x) (used x))
| M_go c : mainAt x = Added c ->
    mainstep x (mkServing Accepting (counter x) (conns x) (connWG x) (handlers x ++ [(c, Handling)]) (closed x) (used x))
| M_drain : mainAt x = ServeReturned None -> mainstep x (setMain Draining x)
| M_idle : mainAt x = Draining -> connWG x = 0 -> mainstep x (setMain Drained x)
| M_timeout : mainAt x = Draining -> mainstep x (setMain (Closing (elements (conns x))) x)
| M_close c todo : mainAt x = Closing (c :: todo) ->
    mainstep x (mkServing (Closing todo) (counter x) (conns x) (connWG x) (handlers x) ({[c]} ∪ closed x) (used x))
| M_closed : mainAt x = Closing [] -> mainstep x (setMain AwaitHandlers x)
| M_awaited : mainAt x = AwaitHandlers -> connWG x = 0 -> mainstep x (setMain Drained x).

(** The next step of the [i]-th handler. *)
Definition handlerNext (i : nat) (x : serving) : serving :=
  match handlers x !! i with
  | Some (c, Handling) =>
      mkServing (mainAt x) (counter x) (conns x) (connWG x) (<[i := (c, Returned)]> (handlers x)) (closed x) (used x)
  | Some (c, Returned) =>
      mkServing (mainAt x) (counter x) (conns x ∖ {[c]}) (connWG x) (<[i := (c, Deleted)]> (handlers x)) (closed x) (used x)
  | Some (c, Deleted) =>
      mkServing (mainAt x) (counter x - 1) (conns x) (connWG x) (<[i := (c, Uncounted)]> (handlers x)) (closed x) (used x)
  | Some (c, Uncounted) =>
      mkServing (mainAt x) (counter x) (conns x) (connWG x - 1) (delete i (handlers x)) (closed x) (used x)
  | None => x
  end.

Inductive servestep (x : serving) : serving -> Prop :=
| S_main y : mainstep x y -> servestep x y
| S_handler i h : handlers x !! i = Some h -> servestep x (handlerNext i x).

(** The steps that do not wait for a client. *)
Inductive forced (x : serving) : serving -> Prop :=
| F_main y : mainstep x y -> forced x y
| F_handler i c p : handlers x !! i = Some (c, p) -> (p = Handling -> c ∈ closed x) ->
    forced x (handlerNext i x).

(** ** Accounting *)

(** How many handlers satisfy [f]. *)
Definition tally (f : hphase -> Z) (hs : list (nat * hphase)) : Z := sumZ (fun h => f h.2) hs.

Definition counted (p : hphase) : Z := match p with Uncounted => 0 | _ => 1 end.
Definition awaited (p : hphase) : Z := 1.

(** The connection the main goroutine is setting up, after [n] of the three calls. *)
Definition settingUp (n : nat) (p : mphase) : option nat :=
  match p with
  | Counted c => if (n <=? 1)%nat then Some c else None
  | Stored c => if (n <=? 2)%nat then Some c else None
  | Added c => if (n <=? 3)%nat then Some c else None
  | _ => None
  end.

Definition count1 (o : option nat) : Z := match o with Some _ => 1 | None => 0 end.

Definition listed (p : hphase) : Prop := p = Handling \/ p = Returned.

(** The connection of the main goroutine, if it has not handed it over. *)
Definition inHand (p : mphase) : list nat :=
  match p with Accepted c | Counted c | Stored c | Added c => [c] | _ => [] end.

Record accounted (x : serving) : Prop := {
  ac_counter : counter x = tally counted (handlers x) + count1 (settingUp 1 (mainAt x));
  ac_wg : connWG x = tally awaited (handlers x) + count1 (settingUp 3 (mainAt x));
  ac_ids : NoDup (inHand (mainAt x) ++ (handlers x).*1);
  ac_used : forall c, c ∈ inHand (mainAt x) ++ (handlers x).*1 -> c ∈ used x;
  ac_conns : forall c, c ∈ conns x <->
    settingUp 2 (mainAt x) = Some c \/ exists p, (c, p) ∈ handlers x /\ listed p;
  ac_closing : forall c, (c, Handling) ∈ handlers x ->
    match mainAt x with
    | Closing todo => c ∈ closed x \/ c ∈ todo
    | AwaitHandlers => c ∈ closed x
    | _ => True
    end;
  ac_drained : mainAt x = Drained -> handlers x = []
}.

Lemma tally_app f hs ks : tally f (hs ++ ks) = tally f hs + tally f ks.
Proof. apply sumZ_app. Qed.

Lemma tally_insert f hs i c p p' :
  hs !! i = Some (c, p) -> tally f (<[i := (c, p')]> hs) = tally f hs - f p + f p'.
Proof. intros H. unfold tally. by rewrite (sumZ_insert _ _ _ _ _ H). Qed.

Lemma tally_delete f hs i c p :
  hs !! i = Some (c, p) -> tally f (delete i hs) = tally f hs - f p.
Proof. intros H. unfold tally. by rewrite (sumZ_delete _ _ _ _ H). Qed.

Lemma ids_insert (hs : list (nat * hphase)) i c p p' :
  hs !! i = Some (c, p) -> (<[i := (c, p')]> hs).*1 = hs.*1.
Proof.
  intros H. rewrite list_fmap_insert. apply list_insert_id. by rewrite list_lookup_fmap, H.
Qed.

Lemma tally_awaited hs : tally awaited hs = lenZ hs.
Proof. unfold tally, lenZ. induction hs as [|h hs IH]; [done|]. simpl in *. rewrite IH. unfold awaited. lia. Qed.

(** When the wait group is done nobody is left. *)
Lemma nobody_left x :
  connWG x = tally awaited (handlers x) + 0 -> connWG x = 0 -> handlers x = [].
Proof. rewrite tally_awaited. unfold lenZ. destruct (handlers x); [done|]. simpl. lia. Qed.

(** The projections of states, and the conditions on literals. *)
Ltac state :=
  cbn [mainAt counter conns connWG handlers closed used inHand settingUp count1 setMain
       Nat.leb app] in *.

Lemma start_accounted : accounted startServing.
Proof.
  split; cbn; try done; [constructor|..].
  - intros c H. by apply elem_of_nil in H.
  - intros c. split; [set_solver|]. intros [|(p & H & _)]; [done|by apply elem_of_nil in H].
Qed.

(** The last line of the loop's body hands the connection over. *)
Lemma accounted_go x c :
  accounted x -> mainAt x = Added c ->
  accounted (mkServing Accepting (counter x) (conns x) (connWG x) (handlers x ++ [(c, Handling)]) (closed x) (used x)).
Proof.
  intros [A B D E F G _] Hm. rewrite Hm in *. state.
  assert ((handlers x ++ [(c, Handling)]).*1 ≡ₚ c :: (handlers x).*1) as Hperm.
  { rewrite fmap_app. simpl. by rewrite Permutation_app_comm. }
  split; state.
  - rewrite tally_app, A. unfold tally. simpl. lia.
  - rewrite tally_app, B. unfold tally, awaited. simpl. lia.
  - by rewrite Hperm.
  - intros c'. rewrite Hperm. apply E.
  - intros c'. rewrite F. setoid_rewrite elem_of_app. setoid_rewrite list_elem_of_singleton. split.
    + intros [[= ->]|(p & Hp & Hl)]; right; [exists Handling; split; [by right|by left]|].
      exists p. split; [by left|done].
    + intros [|(p & [Hp|[= -> ->]] & Hl)]; [done|right; by exists p|by left].
  - done.
  - done.
Qed.

Lemma accounted_main x y : accounted x -> mainstep x y -> accounted y.
Proof.
  intros Hx Hs. destruct Hs as [c Hm Hf|e Hm|c Hm|c Hm|c Hm|c Hm|Hm|Hm Hw|Hm|c todo Hm|Hm|Hm Hw];
    try (by apply accounted_go);
    destruct Hx as [A B D E F G _]; rewrite Hm in *; state.
  - split; state; try done.
    + constructor; [|done]. intros Hin. by apply Hf, E.
    + intros c' Hc'. apply elem_of_cons in Hc' as [->|Hc']; [set_solver|]. apply E in Hc'. set_solver.
  - assert (forall n, settingUp n (match afterAccept e with None => Accepting | Some r => ServeReturned r end) = None)
      as Hset by (intros n; by destruct (afterAccept e)).
    assert (inHand (match afterAccept e with None => Accepting | Some r => ServeReturned r end) = [])
      as Hin by (by destruct (afterAccept e)).
    split; cbn [setMain mainAt counter conns connWG handlers closed used]; rewrite ?Hset, ?Hin; try done.
    + intros c _. by destruct (afterAccept e).
    + by destruct (afterAccept e).
  - split; state; try done; lia.
  - split; state; try done. intros c'. rewrite elem_of_union, F, elem_of_singleton.
    split; [intros [->|[|H]]; [by left|done|by right]|intros [[= ->]|H]; [by left|right; by right]].
  - split; state; try done; lia.
  - by split; state.
  - split; state; try done. intros _. by apply nobody_left.
  - split; state; try done. intros c Hc. right. apply elem_of_elements, F. right.
    exists Handling. split; [done|by left].
  - split; state; try done. intros c' Hc'. apply G in Hc' as [H|H]; [left; set_solver|].
    apply elem_of_cons in H as [->|H]; [left; set_solver|by right].
  - split; state; try done. intros c Hc. apply G in Hc as [H|H]; [done|by apply elem_of_nil in H].
  - split; state; try done. intros _. by apply nobody_left.
Qed.

(** Where a connection is listed after its handler's step. *)
Lemma handler_unique x i c p p' :
  NoDup (inHand (mainAt x) ++ (handlers x).*1) ->
  handlers x !! i = Some (c, p) -> (c, p') ∈ handlers x -> p' = p.
Proof.
  intros (_ & _ & Hnd)%NoDup_app Hi (j & Hj)%list_elem_of_lookup.
  assert (i = j) as <-; [|by simplify_eq].
  eapply NoDup_lookup; [done|by rewrite list_lookup_fmap, Hi|by rewrite list_lookup_fmap, Hj].
Qed.

Lemma elem_of_keep (hs : list (nat * hphase)) i c p p' c' q :
  hs !! i = Some (c, p) -> (c', q) ∈ hs -> c' <> c -> (c', q) ∈ <[i := (c, p')]> hs.
Proof.
  intros Hi (j & Hj)%list_elem_of_lookup Hne. eapply (list_elem_of_lookup_2 _ j).
  rewrite list_lookup_insert_ne; [done|]. intros <-. congruence.
Qed.

(** A step that only moves the [i]-th handler on to [p']. *)
Lemma accounted_move x i c p p' dc ds :
  accounted x -> handlers x !! i = Some (c, p) -> p' <> Handling ->
  dc = counted p - counted p' ->
  (forall c', c' ∈ ds <-> c' ∈ conns x /\ (c' = c -> listed p')) -> (listed p' -> listed p) ->
  accounted (mkServing (mainAt x) (counter x - dc) ds (connWG x) (<[i := (c, p')]> (handlers x)) (closed x) (used x)).
Proof.
  intros [A B D E F G K] Hi Hp' -> Hds Hlp.
  assert (forall q, (c, q) ∈ <[i := (c, p')]> (handlers x) -> q = p') as Huniq.
  { intros q (j & Hj)%list_elem_of_lookup. destruct (decide (i = j)) as [<-|Hne].
    - rewrite list_lookup_insert_eq in Hj by (by eapply lookup_lt_Some). congruence.
    - rewrite list_lookup_insert_ne in Hj by done. exfalso. apply Hne.
      apply NoDup_app in D as (_ & _ & D).
      eapply NoDup_lookup; [done|by rewrite list_lookup_fmap, Hi|by rewrite list_lookup_fmap, Hj]. }
  assert (settingUp 2 (mainAt x) <> Some c) as Hmain.
  { intros Hset. apply NoDup_app in D as (_ & D & _).
    assert (c ∈ inHand (mainAt x)) as Hin by (destruct (mainAt x); simplify_eq/=; by left).
    apply (D c Hin), list_elem_of_fmap. exists (c, p). split; [done|by eapply list_elem_of_lookup_2]. }
  assert (forall p0, listed p0 -> (c, p0) ∈ handlers x -> p0 = p) as Hold.
  { intros p0 _ H. by eapply handler_unique. }
  split; cbn [mainAt counter conns connWG handlers closed used]; rewrite ?(ids_insert _ _ _ _ _ Hi); try done.
  - rewrite (tally_insert _ _ _ _ _ _ Hi), A. lia.
  - rewrite (tally_insert _ _ _ _ _ _ Hi), B. unfold awaited. lia.
  - intros c'. rewrite Hds, F. destruct (decide (c' = c)) as [->|Hne].
    + split.
      * intros [_ Hl]. right. exists p'. specialize (Hl eq_refl). split; [|done].
        eapply list_elem_of_lookup_2, list_lookup_insert_eq. by eapply lookup_lt_Some.
      * intros [|(q & Hq & Hl)]; [done|]. apply Huniq in Hq as ->. split; [|done].
        right. exists p. split; [by eapply list_elem_of_lookup_2|by apply Hlp].
    + split.
      * intros [[|(q & Hq & Hl)] _]; [by left|right]. exists q. split; [|done]. by eapply elem_of_keep.
      * intros H. split; [|done]. destruct H as [|(q & Hq & Hl)]; [by left|right].
        exists q. split; [|done]. apply elem_of_updated in Hq as [[= -> _]|]; done.
  - intros c' Hc'. apply G. apply elem_of_updated in Hc' as [[= _ <-]|]; done.
  - intros Hd. by rewrite (K Hd) in Hi.
Qed.

Lemma accounted_handler x i h : accounted x -> handlers x !! i = Some h -> accounted (handlerNext i x).
Proof.
  intros Hx Hi. unfold handlerNext. rewrite Hi. destruct h as [c []].
  - replace (counter x) with (counter x - 0) by lia.
    eapply accounted_move; try done; [|by left]. intros c'. split; [|tauto]. intros H. split; [done|].
    intros _. by right.
  - replace (counter x) with (counter x - 0) by lia.
    eapply accounted_move; try done; [|by right]. intros c'. rewrite elem_of_difference, elem_of_singleton.
    split; intros [H1 H2]; (split; [done|]); [by intros ->|]. intros ->. by destruct (H2 eq_refl).
  - eapply accounted_move; try done; [|by intros []]. intros c'. split; [|tauto]. intros H. split; [done|].
    intros ->. apply (ac_conns _ Hx) in H as [Hset|(q & Hq & Hl)].
    + exfalso. pose proof (ac_ids _ Hx) as (_ & D & _)%NoDup_app.
      assert (c ∈ inHand (mainAt x)) as Hin by (destruct (mainAt x); simplify_eq/=; by left).
      apply (D c Hin), list_elem_of_fmap. exists (c, Deleted). split; [done|by eapply list_elem_of_lookup_2].
    + exfalso. apply (handler_unique x i c Deleted q (ac_ids _ Hx) Hi) in Hq as ->. by destruct Hl.
  - destruct Hx as [A B D E F G K].
    assert (forall h, h ∈ delete i (handlers x) -> h ∈ handlers x) as Hsub
      by (intros h; apply list_elem_of_delete_inv).
    assert ((delete i (handlers x)).*1 `sublist_of` (handlers x).*1) as Hids.
    { rewrite list_fmap_delete. apply sublist_delete. }
    split; cbn [mainAt counter conns connWG handlers closed used].
    + rewrite (tally_delete _ _ _ _ _ Hi), A. simpl. lia.
    + rewrite (tally_delete _ _ _ _ _ Hi), B. unfold awaited. lia.
    + eapply sublist_NoDup; [done|]. by apply sublist_app.
    + intros c'. rewrite elem_of_app. intros [Hc|Hc]; apply E; apply elem_of_app; [by left|right].
      apply list_elem_of_fmap in Hc as (h & -> & Hh). apply list_elem_of_fmap. exists h. auto.
    + intros c'. rewrite F. split; (intros [|(q & Hq & Hl)]; [by left|right]); exists q; (split; [|done]).
      * apply list_elem_of_lookup in Hq as [j Hj]. destruct (decide (i = j)) as [<-|Hne].
        { rewrite Hi in Hj. simplify_eq. by destruct Hl. }
        apply list_elem_of_lookup. destruct (decide (j < i)%nat).
        -- exists j. by rewrite list_lookup_delete_lt.
        -- exists (j - 1)%nat. rewrite list_lookup_delete_ge by lia. by replace (S (j - 1)) with j by lia.
      * by apply Hsub.
    + intros c' Hc'. by apply G, Hsub.
    + intros Hd. by rewrite (K Hd) in Hi.
Qed.

Lemma servestep_accounted x y : accounted x -> servestep x y -> accounted y.
Proof.
  intros Hx [y' Hm|i h Hi]; [by eapply accounted_main|by eapply accounted_handler].
Qed.

Lemma servesteps_accounted x y : rtc servestep x y -> accounted x -> accounted y.
Proof. induction 1 as [|x y z H _ IH]; [done|]. intros Hx. by eapply IH, servestep_accounted. Qed.

(** ** Draining ends *)

Definition drains (p : mphase) : bool :=
  match p with
  | ServeReturned None | Draining | Closing _ | AwaitHandlers | Drained => true
  | _ => false
  end.

(** An upper bound on the steps that are left. *)
Definition rank (p : hphase) : Z :=
  match p with Handling => 4 | Returned => 3 | Deleted => 2 | Uncounted => 1 end.

Definition mainRank (x : serving) : Z :=
  match mainAt x with
  | ServeReturned None => 4 + Z.of_nat (size (conns x))
  | Draining => 3 + Z.of_nat (size (conns x))
  | Closing todo => 2 + lenZ todo
  | AwaitHandlers => 1
  | _ => 0
  end.

Definition stepsLeft (x : serving) : Z := mainRank x + tally rank (handlers x).

Lemma stepsLeft_nonneg x : 0 <= stepsLeft x.
Proof.
  assert (0 <= tally rank (handlers x)) by (apply sumZ_nonneg; by intros [? []]).
  assert (0 <= mainRank x); [|unfold stepsLeft; lia].
  unfold mainRank, lenZ. repeat case_match; lia.
Qed.

Lemma drains_main x y :
  drains (mainAt x) = true -> mainstep x y -> drains (mainAt y) = true /\ stepsLeft y < stepsLeft x.
Proof.
  intros Hd Hs. unfold stepsLeft, mainRank.
  destruct Hs as [c Hm Hf|e Hm|c Hm|c Hm|c Hm|c Hm|Hm|Hm Hw|Hm|c todo Hm|Hm|Hm Hw]; rewrite Hm in *;
    try discriminate; state; (split; [done|]); unfold lenZ; cbn [length] in *; unfold size, set_size; simpl; lia.
Qed.

Lemma drains_handler x i h :
  drains (mainAt x) = true -> handlers x !! i = Some h ->
  drains (mainAt (handlerNext i x)) = true /\ stepsLeft (handlerNext i x) < stepsLeft x.
Proof.
  intros Hd Hi. unfold handlerNext. rewrite Hi. unfold stepsLeft, mainRank.
  destruct h as [c []]; state; (split; [done|]);
    rewrite ?(tally_insert _ _ _ _ _ _ Hi), ?(tally_delete _ _ _ _ _ Hi); cbn [rank].
  - destruct (mainAt x) as [| | | | |[]| | | |]; lia.
  - assert (size (conns x ∖ {[c]}) <= size (conns x))%nat by (apply subseteq_size; set_solver).
    destruct (mainAt x) as [| | | | |[]| | | |]; lia.
  - destruct (mainAt x) as [| | | | |[]| | | |]; lia.
  - destruct (mainAt x) as [| | | | |[]| | | |]; lia.
Qed.

Lemma drains_step x y :
  drains (mainAt x) = true -> servestep x y -> drains (mainAt y) = true /\ stepsLeft y < stepsLeft x.
Proof. intros Hd [y' Hm|i h Hi]; [by apply drains_main|by eapply drains_handler]. Qed.

Lemma forced_servestep x y : forced x y -> servestep x y.
Proof. intros [y' Hm|i c p Hi _]; [by left|by eapply S_handler]. Qed.

(** Until it is over, there is a step that waits for no client. *)
Lemma drains_progress x :
  accounted x -> drains (mainAt x) = true -> mainAt x = Drained \/ exists y, forced x y.
Proof.
  intros Hx Hd. destruct (mainAt x) as [| | | | |[]| |[|c todo]| |] eqn:Hm; try discriminate; try by left.
  - right. eexists. by apply F_main, M_drain.
  - right. eexists. by apply F_main, M_timeout.
  - right. eexists. by apply F_main, M_closed.
  - right. eexists. by eapply F_main, M_close.
  - right. destruct (handlers x) as [|[c p] hs] eqn:Hh.
    + eexists. apply F_main, M_awaited; [done|]. rewrite (ac_wg _ Hx), Hh, Hm. done.
    + eexists. apply (F_handler x 0 c p); [by rewrite Hh|]. intros ->.
      pose proof (ac_closing _ Hx c) as H. rewrite Hm, Hh in H. apply H. by left.
Qed.

(** A run without the clients that ends with [Drain] returned. *)
Lemma drain_run x :
  accounted x -> drains (mainAt x) = true -> exists y, rtc forced x y /\ mainAt y = Drained.
Proof.
  pose proof (stepsLeft_nonneg x) as Hn. remember (stepsLeft x) as n eqn:Heq.
  revert x Heq. induction n as [n IH] using (well_founded_induction (Z.lt_wf 0)).
  intros x -> Hx Hd. destruct (drains_progress x Hx Hd) as [Hm|[y Hf]]; [by exists x|].
  apply forced_servestep in Hf as Hs. destruct (drains_step _ _ Hd Hs) as [Hd' Hlt].
  destruct (IH (stepsLeft y)) with y as (z & Hz & Hend); try done.
  - split; [apply stepsLeft_nonneg|done].
  - apply stepsLeft_nonneg.
  - by eapply servestep_accounted.
  - exists z. split; [by eapply rtc_l|done].
Qed.

(** ** Theorems *)

(** C18. The connections are accounted for: in every interleaving of the accept loop, the
    handlers and [Drain], the connection counter is the number of handlers that have not
    taken themselves off it plus the connection being set up, and is never negative; the
    wait group never goes below zero, which would panic; every connection that is being
    handled can be found by [Drain]; and when [Drain] returns no handler is left and all
    three are back to nothing. *)
Theorem connections_accounted (x : serving) :
  rtc servestep startServing x ->
  0 <= counter x /\ 0 <= connWG x /\
  counter x = tally counted (handlers x) + count1 (settingUp 1 (mainAt x)) /\
  (forall c, (c, Handling) ∈ handlers x -> c ∈ conns x) /\
  (mainAt x = Drained -> handlers x = [] /\ conns x = ∅ /\ counter x = 0 /\ connWG x = 0).
Proof.
  intros Hx. pose proof (servesteps_accounted _ _ Hx start_accounted) as [A B _ _ F _ K].
  assert (forall n p, 0 <= count1 (settingUp n p)) as Hc.
  { intros n p. by destruct (settingUp n p). }
  assert (forall f hs, (forall p, 0 <= f p) -> 0 <= tally f hs) as Ht.
  { intros f hs Hf. apply sumZ_nonneg. intros h. apply Hf. }
  split_and!.
  - rewrite A. specialize (Hc 1%nat (mainAt x)).
    assert (0 <= tally counted (handlers x)) by (apply Ht; by intros []). lia.
  - rewrite B. specialize (Hc 3%nat (mainAt x)).
    assert (0 <= tally awaited (handlers x)) by (by apply Ht). lia.
  - done.
  - intros c Hin. apply F. right. exists Handling. split; [done|by left].
  - intros Hd. specialize (K Hd). rewrite Hd, K in *. split_and!; [done| |done|done].
    apply set_eq. intros c. rewrite F. split; [|set_solver].
    intros [|(p & Hp & _)]; [done|by apply elem_of_nil in Hp].
Qed.

(** C19. [Drain] always returns: once [Serve] has returned nil, any run takes at most
    [stepsLeft] more steps, and whatever the clients do there is a run without them, in
    which idle connections are closed, that ends with [Drain] returned and every handler
    gone. *)
Theorem drain_terminates (x : serving) :
  rtc servestep startServing x -> drains (mainAt x) = true ->
  (forall n y, nsteps servestep n x y -> Z.of_nat n <= stepsLeft x) /\
  exists y, rtc forced x y /\ mainAt y = Drained /\ handlers y = [].
Proof.
  intros Hx Hd. apply servesteps_accounted in Hx; [|apply start_accounted]. split.
  - intros n y Hn. clear Hx. revert Hd. induction Hn as [x|n x y z Hs _ IH]; intros Hd.
    { apply stepsLeft_nonneg. }
    destruct (drains_step _ _ Hd Hs) as [Hd' Hlt]. specialize (IH Hd'). lia.
  - destruct (drain_run x Hx Hd) as (y & Hy & Hm). exists y. split_and!; [done..|].
    apply (ac_drained y); [|done]. apply (servesteps_accounted x); [|done].
    clear -Hy. induction Hy as [|x y z Hs _ IH]; [done|]. eapply rtc_l; [by apply forced_servestep|done].
Qed.

(** Running out of file descriptors ends [Serve]: [EMFILE] is not a timeout, so the
    loop, which means to survive such failures, returns the error while a client is still
    being served. *)
Theorem fd_limit_ends_serve :
  exists x, rtc servestep startServing x /\
    mainAt x = ServeReturned (Some (Errno EMFILE)) /\ handlers x = [(0%nat, Handling)].
Proof.
  eexists. split.
  - eapply rtc_l; [apply S_main, (M_accept _ 0%nat); [done|set_solver]|].
    do 4 (eapply rtc_l; [apply S_main; constructor; reflexivity|]).
    apply rtc_once, S_main, (M_error _ (Errno EMFILE)). reflexivity.
  - split; reflexivity.
Qed.

(** ** Witnesses *)

(** One client, and a listener that is closed. *)
Definition one_client (p : mphase) : serving := mkServing p 1 {[0%nat]} 1 [(0%nat, Handling)] ∅ {[0%nat]}.

Lemma one_client_reached : rtc servestep startServing (one_client (ServeReturned None)).
Proof.
  eapply rtc_l; [apply S_main, (M_accept _ 0%nat); [done|set_solver]|].
  do 4 (eapply rtc_l; [apply S_main; constructor; reflexivity|]).
  apply rtc_once, S_main.
  assert (one_client (ServeReturned None) =
    setMain (ServeReturned None) (mkServing Accepting 1 ({[0%nat]} ∪ ∅) 1 ([] ++ [(0%nat, Handling)]) ∅ ({[0%nat]} ∪ ∅)))
    as -> by (unfold one_client, setMain; simpl; f_equal; set_solver).
  by apply (M_error _ ErrClosed).
Qed.

Lemma connections_accounted_witness : counter (one_client (ServeReturned None)) = 1 /\ 0 <= 1.
Proof.
  split; [reflexivity|].
  exact (proj1 (connections_accounted (one_client (ServeReturned None)) one_client_reached)).
Defined.

Lemma drain_terminates_witness :
  exists y, rtc forced (one_client (ServeReturned None)) y /\ mainAt y = Drained /\ handlers y = [].
Proof.
  exact (proj2 (drain_terminates (one_client (ServeReturned None)) one_client_reached eq_refl)).
Defined.
