(* ===== verification/Durability.v ===== *)
(** * Acknowledged writes under the always policy

    The chain from a client's write command to stable storage: the command's handler
    performs a history of the events of Restart.v, the records of that history reach
    the log, and [SyncIfAlways] forces them out before [dispatch] returns. *)

From stdpp Require Import base gmap list strings sorting relations.
From Stdlib Require Import ZArith Lia.
From Stdlib Require Import Strings.Byte.
From S2P Require Import Prelude.
From S2P Require Import GoStrconv.
From S2P Require Import RespWriter.
From S2P Require Import GoTime.
From S2P Require Import Store.
From S2P Require Import StoreInv.
From S2P Require Import Evict.
From S2P Require Import StoreSpec.
From S2P Require Import AofLog.
From S2P Require Import AofInv.
From S2P Require Import Commands.
From S2P Require Import CommandsSpec.
From S2P Require Import Journalling.
From S2P Require Import Recovery.
From S2P Require Import Restart.

#[local] Open Scope Z_scope.

Section Acts.
Context (lib : Lib) (env : Env) (t : Time).
Context (Hclock : forall i, Now env i <= Now env (S i)) (Hstart : t <= Now env 0).

(** The handler performs some history on the store, and leaves the rest of the server
    alone. *)
Definition acts (h : GoM (Server * bytes) unit) : Prop :=
  forall s w, exists es s' w' r,
    h (s, w) = ((s', w'), r) /\ timed t es /\ store s' = history es (store s).

(** It does not touch the server. *)
Definition quiet (h : GoM (Server * bytes) unit) : Prop :=
  forall s w, exists w' r, h (s, w) = ((s, w'), r).

Lemma quiet_acts h : quiet h -> acts h.
Proof. intros Hq s w. destruct (Hq s w) as (w' & r & ->). by exists [], s, w', r. Qed.

Lemma quiet_reply m : quiet (reply m).
Proof. intros s w. unfold reply. destruct (m w) as [w' r]. by exists w', r. Qed.

Lemma acts_arg i args k : (forall a, acts (k a)) -> acts (arg i args ≫= k).
Proof.
  intros Hk s w. unfold arg, mbind, GoM_bind. destruct (args !! i) as [a|]; [apply Hk|].
  by exists [], s, w, (Panics (bs "index out of range")).
Qed.

(** One store operation, then a reply. *)
Lemma acts_stored {A} (f : Store logState -> Store logState * A) o k :
  (forall st, (f st).1 = (run o st).1) -> op_ok o ->
  StronglySorted Z.le (t :: readings o) -> (forall a, quiet (k a)) -> acts (stored f ≫= k).
Proof.
  intros Hf Ho Hs Hk s w. unfold stored, mbind, GoM_bind. specialize (Hf (store s)).
  destruct (f (store s)) as [st a]. destruct (Hk a (setStore st s) w) as (w' & r & ->).
  exists [Called o], (setStore st s), w', r. split_and!; [done|by split_and!|done].
Qed.

Lemma one_reading (a : Z) : t <= a -> StronglySorted Z.le [t; a].
Proof. intros. repeat constructor; lia. Qed.

Lemma two_readings : StronglySorted Z.le [t; Now env 0; Now env 1].
Proof. pose proof (Hclock 0%nat). apply sorted2; lia. Qed.

Create HintDb acts.
#[local] Hint Resolve quiet_reply quiet_acts one_reading two_readings : acts.
#[local] Hint Extern 2 (forall _, quiet _) => intros; repeat case_match; apply quiet_reply : acts.

Lemma acts_arity name : acts (wrongArity lib name).
Proof. apply quiet_acts, quiet_reply. Qed.

Lemma acts_set args : acts (set lib env args).
Proof.
  apply acts_arg. intros key. apply acts_arg. intros v.
  destruct (lenZ args =? 2).
  { apply (acts_stored _ (OpSet key v)); [done|done|repeat constructor|auto with acts]. }
  destruct (lenZ args =? 4); [|auto with acts]. apply acts_arg. intros o.
  destruct (assoc _ _) as [opt|]; [|auto with acts]. apply acts_arg. intros a.
  destruct (parseTTL a (unit_ opt)) as [n|]; [|auto with acts].
  destruct (n <=? 0); [auto with acts|].
  destruct (absolute opt).
  - apply (acts_stored _ (OpSetWithDeadline (Now env 0) (Now env 1) key v (epochPlus n)));
      [done|done|apply two_readings|auto with acts].
  - apply (acts_stored _ (OpSetWithTTL (Now env 0) key v n));
      [done|done|by apply one_reading|auto with acts].
Qed.

Lemma acts_mset args : acts (mset lib args).
Proof.
  unfold mset. destruct (negb _); [apply acts_arity|].
  apply (acts_stored _ (OpMSet (pairsOf args))); [done|done|repeat constructor|auto with acts].
Qed.

Lemma acts_increment key d : is_int64 d -> acts (increment env key d).
Proof.
  intros Hd. apply (acts_stored _ (OpIncrement (Now env 0) key d));
    [intros st; simpl; by destruct (Increment _ _ _ _)|done|by apply one_reading|auto with acts].
Qed.

Lemma acts_append args : acts (append env args).
Proof.
  apply acts_arg. intros key. apply acts_arg. intros v.
  apply (acts_stored _ (OpAppend (Now env 0) key v));
    [intros st; simpl; by destruct (Store.Append _ _ _ _)|done|by apply one_reading|auto with acts].
Qed.

Lemma acts_del args : acts (del env args).
Proof.
  apply (acts_stored _ (OpDel (Now env 0) (keys args)));
    [intros st; simpl; by destruct (Del _ _ _)|done|by apply one_reading|auto with acts].
Qed.

Lemma acts_expireAtIn args unit : acts (expireAtIn env args unit).
Proof.
  apply acts_arg. intros a. destruct (parseTTL a unit) as [n|]; [|auto with acts].
  apply acts_arg. intros key. apply (acts_stored _ (OpExpireAt (Now env 0) key (epochPlus n)));
    [intros st; simpl; by destruct (ExpireAt _ _ _ _)|done|by apply one_reading|auto with acts].
Qed.

Lemma acts_expireIn args unit : acts (expireIn env args unit).
Proof.
  apply acts_arg. intros a. destruct (parseTTL a unit) as [n|]; [|auto with acts].
  apply acts_arg. intros key. apply (acts_stored _ (OpExpire (Now env 0) (Now env 1) key n));
    [intros st; simpl; by destruct (Expire _ _ _ _ _)|done|apply two_readings|auto with acts].
Qed.

(** Every write command of the table. *)
Lemma acts_fn name (c : command (W := bytes)) rest :
  assoc name (commands lib env) = Some c -> isWrite c = true -> acts (fn c rest).
Proof.
  intros Hc Hw. unfold assoc, commands in Hc. cbn [List.find fst] in Hc.
  repeat match type of Hc with
    | context [bool_decide ?P] => destruct (bool_decide P); [injection Hc as <-|]
    end; cbn [isWrite fn] in *; try discriminate.
  - apply acts_set.
  - apply acts_mset.
  - apply acts_arg. intros key. by apply acts_increment.
  - apply acts_arg. intros key. by apply acts_increment.
  - apply acts_append.
  - apply acts_del.
  - apply acts_expireIn.
  - apply acts_expireIn.
  - apply acts_expireAtIn.
  - apply acts_expireAtIn.
Qed.
End Acts.

(** Enforcing the memory limit is a history of evictions. *)
Lemma evictLoop_history {J} `{!Journal J} fuel range n (s s' : Store J) m ok :
  evictLoop fuel range n s = Some (s', m, ok) -> exists ks, s' = history (Evicted <$> ks) s.
Proof.
  revert n s. induction fuel as [|fuel IH]; intros n s; simpl; [done|].
  destruct (maxMemory s <? Used s); [|intros [= <- _ _]; by exists []].
  destruct (pickVictim (range s) s) as [k|]; [|intros [= <- _ _]; by exists []].
  intros H. destruct (IH _ _ H) as [ks ->]. by exists (k :: ks).
Qed.

Lemma enforce_history {J} `{!Journal J} range (s s' : Store J) n ok :
  EnforceMemoryLimit range s = Some (s', n, ok) -> exists ks, s' = history (Evicted <$> ks) s.
Proof.
  unfold EnforceMemoryLimit. repeat case_match; intros; simplify_eq; try by exists [].
  by eapply evictLoop_history.
Qed.

Lemma timed_evictions t ks es : timed t es -> timed t ((Evicted <$> ks) ++ es).
Proof.
  intros H. induction ks as [|k ks IH]; [done|]. rewrite fmap_cons. simpl.
  split_and!; [repeat constructor|done|done].
Qed.

Lemma arrivals_policy during st : logPolicy (arrivals during st).2 = logPolicy st.2.
Proof.
  revert st. induction during as [|a during IH]; intros st; [done|].
  cbn [arrivals foldl]. fold (arrivals during (AofLog.Append a st).1).
  by rewrite IH, Append_policy.
Qed.

(** ** The invariant of a journalled server *)

(** The server implements the map [m] at time [t], its log is healthy and holds the
    changes [cs], and those are enough to rebuild the map. *)
Record journalled (t : Time) (s : Server) (m : kv) (cs : list change) (l : logState) (g : ghost) :
    Prop := {
  jo_store : refines t (store s) m;
  jo_log : aof s = Some l;
  jo_ok : log_ok l g;
  jo_recs : recs g = wire <$> cs;
  jo_recovers : recovers t m cs
}.

(** A history on the store: its records reach the log, and unless the log fails the server
    is journalled again. *)
Lemma history_journalled t s es m cs l g s1 :
  Millisecond <= t -> timed t es -> journalled t s m cs l g -> store s1 = history es (store s) ->
  exists cs' m', let l1 := arrivals (wire <$> cs') l in
    aof s1 = Some l1 /\
    (logErr l1.2 = None ->
     journalled (finish t es) s1 m' (cs ++ cs') l1
       (mkGhost (wire <$> (cs ++ cs')) (since g ++ (wire <$> cs')) (pending_tmp g))).
Proof.
  intros Ht Hes [Hr Hj Hok Hrecs Hrec] Hs1.
  destruct (history_recovers t es (store s) m cs Ht Hes Hr Hrec) as (cs' & m' & Hw & Hr' & Hrec' & _).
  rewrite <- Hs1 in Hw, Hr'. unfold wrote in Hw. unfold aof in Hj. rewrite Hj in Hw.
  exists cs', m'. split; [exact Hw|]. intros He.
  destruct (arrivals_ok (wire <$> cs') l g Hok) as (took & _ & Hok1 & Hall & _).
  rewrite (Hall He), Hrecs, <- fmap_app in Hok1. by split.
Qed.

Lemma journalled_journal t s m cs l g l' g' :
  journalled t s m cs l g -> log_ok l' g' -> recs g' = recs g ->
  journalled t (setStore (SetJournal l' (store s)) s) m cs l' g'.
Proof.
  intros [Hr Hj Hok Hrecs Hrec] Hok' Hg. split; try done; [|by rewrite Hg].
  by eapply refines_ext; [|exact Hr].
Qed.

(** A history on the store, then a successful sync. *)
Lemma history_synced t s es m cs l g l' :
  Millisecond <= t -> timed t es -> journalled t s m cs l g -> logPolicy l.2 = PolicyAlways ->
  forall s1, store s1 = history es (store s) ->
  aof (syncAof s1) = Some l' -> Err l' = None ->
  exists t' m' cs' g', journalled t' (syncAof s1) m' (cs ++ cs') l' g' /\
    disk l'.1 = mkFile (enc (wire <$> (cs ++ cs'))) (length (enc (wire <$> (cs ++ cs')))).
Proof.
  intros Ht Hes Hjo Hpol s1 Hs1 Hl' He'.
  destruct (history_journalled t s es m cs l g s1 Ht Hes Hjo Hs1) as (cs' & m' & Hj1 & Hjo1).
  pose proof (arrivals_policy (wire <$> cs') l) as Hp1. set (l1 := arrivals _ _) in *.
  assert (syncAof s1 = setStore (SetJournal (Sync l1).1 (store s1)) s1) as Hsync.
  { unfold syncAof. rewrite Hj1. unfold SyncIfAlways. by rewrite bool_decide_true by congruence. }
  rewrite Hsync in Hl' |- *. cbn in Hl'. injection Hl' as <-.
  pose proof (syncLocked_latched true l1) as Hlat.
  assert (Sync l1 = syncLocked true l1) as Hsl.
  { unfold Sync. rewrite bool_decide_false by (rewrite Hp1, Hpol; done). done. }
  unfold Err in He'. rewrite <- Hsl in Hlat.
  assert ((Sync l1).2 = None) as Hnone by (destruct (Sync l1); destruct Hlat; simpl in *; congruence).
  assert (logErr l1.2 = None) as Herr1.
  { destruct (logErr l1.2) as [e|] eqn:He; [|done]. rewrite Hsl in Hnone. unfold syncLocked in Hnone.
    destruct l1 as [o1 ll1]. cbn [snd] in He. by rewrite He in Hnone. }
  specialize (Hjo1 Herr1). set (g1 := mkGhost _ _ _) in *.
  destruct (Sync_forces l1 (Sync l1).1 g1 (jo_ok _ _ _ _ _ _ Hjo1)) as [Hd Hok2].
  { by rewrite Hp1, Hpol. }
  { rewrite <- Hnone. apply surjective_pairing. }
  exists (finish t es), m', cs', g1. split; [by eapply journalled_journal|exact Hd].
Qed.

(** A write command that is not refused performs a history, and then syncs if the policy
    says so. *)
Lemma dispatch_history lib env t a0 rest (c : command (W := bytes)) s s' (w w' : bytes) :
  (forall i, Now env i <= Now env (S i)) -> t <= Now env 0 ->
  assoc (ToUpper lib a0) (commands lib env) = Some c -> arityOk c rest = true -> isWrite c = true ->
  aofErr s = None -> (exists st n, EnforceMemoryLimit (poolRange env) (store s) = Some (st, n, true)) ->
  dispatch lib env (a0 :: rest) (s, w) = ((s', w'), Ret tt) ->
  exists es s1, timed t es /\ store s1 = history es (store s) /\ s' = syncAof s1.
Proof.
  intros Hclk Ht Hc Ha Hw Herr (st & n & Hen) Hd.
  rewrite (dispatch_write _ _ _ _ _ _ _ Hc Ha Hw) in Hd. set (s0 := mkServer _ _ _ _) in Hd.
  unfold runWrite, observe, enforce, mbind, GoM_bind in Hd.
  change (aofErr s0) with (aofErr s) in Hd. rewrite Herr in Hd.
  cbn [store s0] in Hd. rewrite Hen in Hd. cbn [negb] in Hd.
  destruct (enforce_history _ _ _ _ _ Hen) as [ks ->]. set (s1 := setStore _ s0) in Hd.
  destruct (acts_fn lib env t Hclk Ht _ c rest Hc Hw s1 w) as (es & s2 & w2 & r & Hf & Hes & Hs2).
  rewrite Hf in Hd. destruct r as [[]|e|p]; [|done|done]. unfold syncAlways in Hd. injection Hd as <- _.
  exists ((Evicted <$> ks) ++ es), s2. split_and!; [by apply timed_evictions| |done].
  rewrite Hs2. cbn [store s1 setStore]. unfold history. by rewrite foldl_app.
Qed.


(** A server with an empty log on a healthy disk. *)
Definition attached : Server := AttachAOF healthy NewServer.

Lemma attached_ok : journalled Second attached ∅ [] healthy (mkGhost [] [] None).
Proof.
  split; [|done|apply opened_ok|done|apply recovers_empty].
  eapply refines_ext; [|apply New_refines]. done.
Qed.

Definition set_k : list bytes := [bs "SET"; bs "k"; bs "v"].

