(* ===== verification/Timers.v ===== *)
(** * The background timers

    The two goroutines of [StartBackgroundTasks]: [RunSyncLoop] (aof.go) flushes the log once
    a second, and forces it to the disk under [everysec]; [RunActiveExpiration] (expire.go)
    runs a cycle of active expiration every 100 ms.  What the other goroutines do between
    two ticks is an argument. *)

From stdpp Require Import base gmap list strings sorting.
From Stdlib Require Import ZArith Lia.
From Stdlib Require Import Strings.Byte.
From S2P Require Import Prelude.
From S2P Require Import RespWriter.
From S2P Require Import GoTime.
From S2P Require Import Store.
From S2P Require Import StoreInv.
From S2P Require Import Expire.
From S2P Require Import Evict.
From S2P Require Import StoreSpec.
From S2P Require Import AofLog.
From S2P Require Import AofInv.
From S2P Require Import Journalling.
From S2P Require Import Restart.
From S2P Require Import Durability.

#[local] Open Scope Z_scope.

Definition SyncInterval : Duration := Second.
Definition DefaultActiveExpireInterval : Duration := 100 * Millisecond.

(** The interval of a ticker: [time.NewTicker] panics on one that is not positive. *)
Definition tickerInterval (interval default : Duration) : Duration :=
  if interval <=? 0 then default else interval.

(** ** [RunSyncLoop] *)

(** The ticks before the context is done, and the last [Sync]; [between] is what happens
    to the log before each of them. *)
Fixpoint RunSyncLoop (between : list (logState -> logState)) (last : logState -> logState)
    (st : logState) : logState :=
  match between with
  | [] => (Sync (last st)).1
  | w :: ws => RunSyncLoop ws last (syncTick (w st))
  end.

(** The log after the ticks so far. *)
Definition ticked (between : list (logState -> logState)) (st : logState) : logState :=
  foldl (fun st w => syncTick (w st)) st between.

Lemma RunSyncLoop_ticked between last st :
  RunSyncLoop between last st = (Sync (last (ticked between st))).1.
Proof. revert st. induction between as [|w ws IH]; intros st; [done|]. apply IH. Qed.

(** A tick that succeeds. *)
Lemma syncTick_ok st g :
  log_ok st g -> logErr (syncTick st).2 = None ->
  syncLocked (bool_decide (logPolicy st.2 = PolicyEverysec)) st = (syncTick st, None) /\
  log_ok (syncTick st) g /\ content (disk (syncTick st).1) = enc (recs g) /\
  (logPolicy st.2 = PolicyEverysec -> synced (disk (syncTick st).1) = length (enc (recs g))).
Proof.
  intros Hok He. unfold syncTick in *. set (f := bool_decide _) in *.
  pose proof (syncLocked_ok f st g Hok) as Hok'. pose proof (syncLocked_latched f st) as Hlat.
  destruct (syncLocked f st) as [st' r] eqn:Hs. cbn [fst] in *. destruct Hlat as [Hr _].
  rewrite He in Hr. subst r. split_and!; [done|done| |].
  - exact (syncLocked_flushes _ _ _ _ Hok Hs).
  - intros Hp. unfold f in Hs. rewrite bool_decide_true in Hs by done.
    by rewrite (syncLocked_forces _ _ _ Hok Hs).
Qed.

Lemma syncTick_policy st : logPolicy (syncTick st).2 = logPolicy st.2.
Proof.
  unfold syncTick. pose proof (syncLocked_latched (bool_decide (logPolicy st.2 = PolicyEverysec)) st) as H.
  by destruct (syncLocked _ st), H.
Qed.

(** A log that has failed takes nothing any more. *)
Lemma Append_failed args st e : logErr st.2 = Some e -> Append args st = (st, Some e).
Proof. destruct st as [o l]. cbn [snd]. intros He. unfold Append. by rewrite He. Qed.

(** The records that a tick has made safe, as what the log promises from then on. *)
Lemma syncTick_promised st g :
  log_ok st g -> logErr (syncTick st).2 = None ->
  promised (bool_decide (logPolicy st.2 = PolicyEverysec)) (syncTick st) g (recs g).
Proof.
  intros Hok He. destruct (syncTick_ok st g Hok He) as (_ & _ & Hc & Hs). split; [done|].
  case_bool_decide as Hp; cbn [reach]; [by rewrite (Hs Hp)|by rewrite Hc].
Qed.

(** What has been written of the records contains what is out of reach. *)
Lemma promised_written machine st g p :
  log_ok st g -> promised machine st g p -> enc p `prefix_of` content (disk st.1).
Proof.
  intros Hok [[w Hw] Hp]. destruct (ok_prefix _ _ Hok) as [rest Hc]. pose proof (ok_synced _ _ Hok) as Hs.
  rewrite Hw, enc_app in Hc. assert (length (enc p) <= length (content (disk st.1)))%nat as Hle.
  { destruct machine; cbn [reach] in Hp; lia. }
  exists (drop (length (enc p)) (content (disk st.1))).
  rewrite <- (take_drop (length (enc p)) (content (disk st.1))) at 1. f_equal.
  rewrite <- (take_app_le (content (disk st.1)) rest) by done. rewrite <- Hc. by rewrite take_app_length.
Qed.

Lemma dsteps_lsteps machine x y : rtc (dstep machine) x y -> rtc lstep x.1 y.1.
Proof. induction 1; [done|]. eapply rtc_l; [by eapply dstep_lstep|done]. Qed.

(** C20. What a crash can take under each policy.  Let the loop run beside anything that
    happens to the log between its ticks, appends, the syncs of [always] and rewrites, with
    any system call failing.  If the last tick fails, or the log had failed before, the log
    refuses every further record with that error.  Otherwise, at any moment from then on,
    whatever was in the log when the tick came is in the file, which survives the process,
    and under [everysec] on stable storage, which survives the machine, so that at most what
    came after it is lost; if a rewrite has been installed since, the same holds of all the
    records of the new file.  When the context is done and the last [Sync] succeeds,
    everything is in the file, and except under [no] on stable storage. *)
Theorem sync_loop_bounds_loss (pol : Policy) (o0 o : OS) (l : Log) (base : list (list bytes))
    (ws : list (logState -> logState)) (w later : logState -> logState) (g : ghost) :
  clean o0 base -> Open pol o0 = (o, inl l) ->
  let st := w (ticked ws (o, l)) in
  rtc lstep ((o, l), mkGhost base [] None) (st, g) ->
  let st1 := syncTick st in
  match logErr st1.2 with
  | Some e => forall args, Append args st1 = (st1, Some e)
  | None => forall st2 g2 p,
      rtc (dstep (bool_decide (pol = PolicyEverysec))) (st1, g, recs g) (st2, g2, p) ->
      (linked st2.1 = linked st1.1 -> recs g `prefix_of` p) /\
      enc p `prefix_of` content (disk st2.1) /\
      (pol = PolicyEverysec -> (length (enc p) <= synced (disk st2.1))%nat) /\
      (later st1 = st2 -> let st3 := RunSyncLoop (ws ++ [w]) later (o, l) in
       logErr st3.2 = None ->
       content (disk st3.1) = enc (recs g2) /\
       (pol <> PolicyNo -> synced (disk st3.1) = length (enc (recs g2))))
  end.
Proof.
  intros Hcl Ho st Hr st1. destruct (logErr st1.2) as [e|] eqn:He; [intros args; by apply Append_failed|].
  pose proof (Open_ok _ _ _ _ _ Hcl Ho) as Hok0. pose proof (lsteps_ok _ _ Hr Hok0) as Hok. cbn [fst snd] in Hok.
  pose proof (lsteps_policy _ _ Hr) as Hpol. cbn [fst snd] in Hpol. rewrite (Open_policy _ _ _ _ Ho) in Hpol.
  pose proof (syncTick_promised st g Hok He) as Hp1. rewrite Hpol in Hp1.
  destruct (syncTick_ok st g Hok He) as (_ & Hok1 & _). intros st2 g2 p Hd.
  destruct (dsteps_promised _ _ _ Hd Hok1 Hp1) as [Hok2 Hp2]. cbn [fst snd] in *.
  split; [|split; [|split]].
  - apply (dsteps_more _ _ _ Hd Hok1 Hp1).
  - by eapply promised_written.
  - intros ->. apply Hp2.
  - intros Hlast He3. rewrite RunSyncLoop_ticked in *. unfold ticked in *.
    rewrite foldl_app in *. cbn [foldl] in *. fold (ticked ws (o, l)) in He3 |- *.
    change (syncTick (w (ticked ws (o, l)))) with st1 in He3 |- *. rewrite Hlast in He3 |- *.
    pose proof (lsteps_policy _ _ (dsteps_lsteps _ _ _ Hd)) as Hpol2. cbn [fst snd] in Hpol2.
    unfold st1 in Hpol2. rewrite syncTick_policy, Hpol in Hpol2. unfold Sync in He3 |- *. rewrite Hpol2 in He3 |- *.
    pose proof (syncLocked_latched (negb (bool_decide (pol = PolicyNo))) st2) as Hlat.
    destruct (syncLocked _ st2) as [st4 r] eqn:Hs. cbn [fst] in *. destruct Hlat as [Hr4 _].
    rewrite He3 in Hr4. subst r. split; [exact (syncLocked_flushes _ _ _ _ Hok2 Hs)|].
    intros Hn. rewrite bool_decide_false in Hs by done. by rewrite (syncLocked_forces _ _ _ Hok2 Hs).
Qed.

(** ** [RunActiveExpiration] *)

Section Expiration.
Context {J : Type} `{!Journal J}.
Implicit Types s : Store J.

(** A tick: what the clients do before it, and the clock readings and map orders of the
    rounds of its cycle. *)
Record tick_ : Type := mkTick {
  others : list event;
  rounds : nat -> Time;
  orders : nat -> Store J -> nat -> list bytes
}.

Fixpoint RunActiveExpiration (ticks : list tick_) s : Store J :=
  match ticks with
  | [] => s
  | tk :: ticks' =>
      RunActiveExpiration ticks' (activeExpireCycle (rounds tk) (orders tk) (history (others tk) s)).1.1
  end.

(** The clock during the loop; the rounds count down. *)
Fixpoint ticking (t : Time) (ticks : list tick_) : Prop :=
  match ticks with
  | [] => True
  | tk :: ticks' =>
      timed t (others tk) /\ finish t (others tk) <= rounds tk (activeExpireMaxRounds - 1) /\
      (forall r, rounds tk (S r) <= rounds tk r) /\ ticking (rounds tk 0%nat) ticks'
  end.

Fixpoint tickingEnd (t : Time) (ticks : list tick_) : Time :=
  match ticks with [] => t | tk :: ticks' => tickingEnd (rounds tk 0%nat) ticks' end.

(** What the clients and evictions do to the abstract keyspace. *)
Definition spec_event (m : kv) (e : event) : kv :=
  match e with Called o => (spec o m).1 | Evicted k => delete k m end.

Lemma happen_refines t e s m :
  Millisecond <= t -> StronglySorted Z.le (t :: eventReadings e) -> eventOk e -> refines t s m ->
  refines (eventEnd t e) (happen e s) (spec_event m e) /\ t <= eventEnd t e.
Proof.
  intros Ht Hs Ho Hr. destruct e as [o|k]; cbn [happen eventReadings eventOk spec_event] in *.
  - assert (zeroTime <= t) by (unfold zeroTime, Millisecond, Second in *; lia).
    destruct (run_step t o s m ltac:(done) Hs Ho Hr) as [_ Hr1].
    split; [done|]. by apply lastReading_le.
  - destruct (evict_effect t k s m Hr) as (_ & _ & Hr1).
    change (eventEnd t (Evicted k)) with t. split; [done|lia].
Qed.

Lemma history_refines t es s m :
  Millisecond <= t -> timed t es -> refines t s m ->
  refines (finish t es) (history es s) (foldl spec_event m es) /\ t <= finish t es.
Proof.
  revert t s m. induction es as [|e es IH]; intros t s m Ht Hok Hr; [split; [done|simpl; lia]|].
  destruct Hok as (Hs & Ho & Hok). destruct (happen_refines t e s m Ht Hs Ho Hr) as [Hr1 Hle].
  destruct (IH (eventEnd t e) (happen e s) (spec_event m e)) as [Hr2 Hle2]; [lia|done|done|].
  cbn [history finish foldl]. split; [exact Hr2|]. unfold finish in Hle2. lia.
Qed.

Lemma expireRounds_refines n now range t s m sc go :
  (forall r, now (S r) <= now r) -> (n <> 0%nat -> t <= now (n - 1)%nat) ->
  (n = 0%nat -> t <= now 0%nat) -> zeroTime <= t -> refines t s m ->
  refines (now 0%nat) (expireRounds n now range s sc go).1.1 m.
Proof.
  intros Hnow. revert t s sc go. induction n as [|n IH]; intros t s sc go Ht Ht0 Hz Hr.
  { eapply refines_later; [|done]. auto. }
  cbn [expireRounds]. rewrite Nat.sub_succ, Nat.sub_0_r in Ht. specialize (Ht ltac:(done)).
  assert (forall r, now r <= now 0%nat) as Hlast.
  { induction r as [|r IHr]; [lia|]. specialize (Hnow r). lia. }
  pose proof (run_step t (OpExpireSample activeExpireSampleSize (now n) (range n s)) s m Hz) as Hs.
  cbn [run spec readings op_ok] in Hs.
  destruct (expireSample activeExpireSampleSize (now n) (range n s) s) as [[s' k] g].
  destruct Hs as [_ Hr']; [repeat constructor; done|unfold activeExpireSampleSize; lia|done|].
  change (lastReading t (OpExpireSample activeExpireSampleSize (now n) (range n s))) with (now n) in Hr'.
  cbn [fst] in Hr'. destruct ((k =? 0) || (4 * g <? k)).
  - eapply refines_later; [|done]. apply Hlast.
  - apply (IH (now n)); [|intros ->; lia|by apply (Z.le_trans _ t)|done].
    intros Hne. destruct n as [|n]; [done|]. rewrite Nat.sub_succ, Nat.sub_0_r. apply Hnow.
Qed.

(** C21. Active expiration is invisible: whatever the ticks of the loop sample and delete,
    in whatever order the maps are ranged over, the store implements the keyspace
    that the clients' operations and the evictions alone would give. *)
Theorem active_expiration_invisible (ticks : list tick_) (t : Time) (s : Store J) (m : kv) :
  Millisecond <= t -> ticking t ticks -> refines t s m ->
  refines (tickingEnd t ticks) (RunActiveExpiration ticks s)
    (foldl spec_event m (concat (others <$> ticks))).
Proof.
  revert t s m. induction ticks as [|tk ticks IH]; intros t s m Ht Hok Hr; [done|].
  destruct Hok as (Htm & Hle & Hrd & Hok).
  destruct (history_refines t (others tk) s m Ht Htm Hr) as [Hr1 Hle1].
  rewrite fmap_cons. cbn [concat]. rewrite foldl_app.
  assert (forall r, rounds tk r <= rounds tk 0%nat) as Hlast.
  { induction r as [|r IHr]; [lia|]. specialize (Hrd r). lia. }
  specialize (Hlast (activeExpireMaxRounds - 1)%nat) as Hl.
  apply IH; [lia|done|].
  apply (expireRounds_refines _ _ _ (finish t (others tk))); [done|by intros _|done| |done].
  unfold zeroTime, Millisecond, Second in *. lia.
Qed.
End Expiration.

(** ** Witnesses *)

Definition everysec_os : OS := mkOS [mkFile [] 0] 0 [].
Definition everysec_log : logState := (everysec_os, fresh_log PolicyEverysec).

(** A record before the last tick and one after it. *)
Definition tick_a : logState := syncTick (arrivals [rec_a] everysec_log).

Lemma everysec_clean : clean everysec_os [].
Proof. split_and!; [unfold valid; simpl; lia|reflexivity|simpl; lia]. Qed.

Lemma arrives rec st g :
  logErr st.2 = None ->
  lstep (st, g) (arrivals [rec] st, mkGhost (recs g ++ [rec]) (since g ++ [rec]) (pending_tmp g)).
Proof.
  intros He. pose proof (L_append rec st g (Append rec st).1 (Append rec st).2 (surjective_pairing _)) as H.
  unfold appended in H. by rewrite He in H.
Qed.

Lemma tick_a_healthy : logErr tick_a.2 = None.
Proof. vm_compute. reflexivity. Qed.

Lemma tick_a_kept :
  rtc (dstep true) (tick_a, mkGhost [rec_a] [rec_a] None, [rec_a])
    (arrivals [rec_b] tick_a, mkGhost [rec_a; rec_b] [rec_a; rec_b] None, [rec_a]).
Proof.
  apply rtc_once, D_step; [apply (arrives rec_b tick_a (mkGhost [rec_a] [rec_a] None)), tick_a_healthy|].
  vm_compute. reflexivity.
Qed.

Lemma sync_loop_bounds_loss_witness :
  let st2 := arrivals [rec_b] tick_a in
  content (disk st2.1) = enc [rec_a] /\ (length (enc [rec_a]) <= synced (disk st2.1))%nat.
Proof.
  pose proof (sync_loop_bounds_loss PolicyEverysec everysec_os everysec_os (fresh_log PolicyEverysec) []
    [] (arrivals [rec_a]) (arrivals [rec_b]) (mkGhost [rec_a] [rec_a] None) everysec_clean eq_refl
    (rtc_once _ _ (arrives rec_a everysec_log (mkGhost [] [] None) eq_refl))) as H.
  cbn zeta in H. change (syncTick _) with tick_a in H. rewrite tick_a_healthy in H.
  destruct (H _ _ _ tick_a_kept) as (_ & _ & Hs & _). split; [vm_compute; reflexivity|by apply Hs].
Defined.

(** A tick that collects a key whose deadline has passed. *)
Definition one_tick : tick_ (J := list (list bytes)) :=
  mkTick [Called (OpSetWithTTL Second (bs "k") (bs "v") Second)] (fun _ => 3 * Second)
    (fun _ s i => keysOf (data (readShards s !!! i))).

Lemma active_expiration_invisible_witness :
  Len (RunActiveExpiration [one_tick] New) = 0 /\
  refines (3 * Second) (RunActiveExpiration [one_tick] (New (J := list (list bytes))))
    (foldl spec_event ∅ (others one_tick ++ [])).
Proof.
  split; [vm_compute; reflexivity|].
  apply (active_expiration_invisible [one_tick] Second New ∅).
  - unfold Second, Millisecond. lia.
  - split; [|split; [cbv; discriminate|split; [done|exact I]]].
    split; [repeat constructor; unfold Second; lia|split; exact I].
  - apply New_refines.
Defined.
