(* ===== verification/Rewrite.v ===== *)
(** * Background rewrites of the log

    BGREWRITEAOF runs beside the clients: a goroutine reads the keyspace one shard at a
    time, writes what it saw to a new file, appends the records journalled since the
    rewrite began and installs the file at the log's path (commands.go,
    [bgrewriteaof]; store.go, [AOFSnapshot]; aof.go, [FinishRewrite]).  The snapshot is of
    no single moment, and a record of the tail may be older than what the snapshot
    holds for its key.

    [sys] is the server's store with its log and the rewrite goroutines, [sstep] the
    interleavings of clients, evictions, the sync timer and the phases of the rewrites,
    with any system call failing.  The theorem is that a crash loses nothing that was
    synced, and never mixes moments: the restarted server shows the keyspace of one
    moment of the run, no earlier than the last successful sync. *)

From stdpp Require Import base gmap list strings sorting relations.
From Stdlib Require Import ZArith Lia.
From Stdlib Require Import Strings.Byte.
From S2P Require Import Prelude.
From S2P Require Import GoStrconv.
From S2P Require Import RespWriter.
From S2P Require Import RespReader.
From S2P Require Import Bufio.
From S2P Require Import GoTime.
From S2P Require Import Shard.
From S2P Require Import Store.
From S2P Require Import StoreInv.
From S2P Require Import Evict.
From S2P Require Import StoreSpec.
From S2P Require Import BufWriter.
From S2P Require Import AofLog.
From S2P Require Import AofInv.
From S2P Require Import Replay.
From S2P Require Import Commands.
From S2P Require Import Journalling.
From S2P Require Import Recovery.
From S2P Require Import Restart.
From S2P Require Import Durability.

#[local] Open Scope Z_scope.

(** ** Replaying, one key at a time *)

(** What a change does to a key depends on that key only. *)
Lemma redo_at k T c r r' : r !! k = r' !! k -> redo T c r !! k = redo T c r' !! k.
Proof.
  intros Hr. destruct c as [k' v d|pairs|ks|k' d]; simpl.
  - repeat case_match; destruct (decide (k = k')) as [->|];
      by rewrite ?lookup_insert_eq, ?lookup_delete_eq, ?lookup_insert_ne, ?lookup_delete_ne.
  - destruct (setPairs_lookup pairs k) as [[_ [x Hx]]|[_ Hx]]; by rewrite !Hx.
  - by rewrite !spec_del_lookup, Hr.
  - unfold spec_expireAt. destruct (decide (k = k')) as [->|].
    + rewrite (vis_lookup_ext _ _ _ _ Hr). repeat case_match; simpl;
        by rewrite ?lookup_insert_eq, ?lookup_delete_eq.
    + repeat case_match; simpl; by rewrite ?lookup_insert_ne, ?lookup_delete_ne.
Qed.

Lemma redone_filter k t T cs r :
  redone t T cs r -> exists r', redone t T (filter (touches k) cs) r' /\ r' !! k = r !! k.
Proof.
  induction 1 as [T HT|T0 T1 T cs c r _ (r' & Hre & Hr') H01 H1].
  { exists ∅. split; [by constructor|done]. }
  rewrite filter_app, filter_cons, filter_nil. case_decide.
  - exists (redo T1 c r'). split; [by econstructor|]. by apply redo_at.
  - exists r'. rewrite app_nil_r, redo_untouched by done. split; [|done].
    eapply redone_later; [done|lia].
Qed.

Lemma redone_unfilter k t T cs r' :
  redone t T (filter (touches k) cs) r' -> exists r, redone t T cs r /\ r !! k = r' !! k.
Proof.
  revert T r'. induction cs as [|c cs IH] using rev_ind; intros T r' Hre; [by exists r'|].
  rewrite filter_app, filter_cons, filter_nil in Hre. case_decide.
  - apply redone_snoc in Hre as (T1 & r1 & Hr1 & HT & ->). destruct (IH _ _ Hr1) as (r & Hr & Hk).
    exists (redo T1 c r). split; [|by apply redo_at]. eapply redone_step; [done|lia|lia].
  - rewrite app_nil_r in Hre. destruct (IH _ _ Hre) as (r & Hr & Hk).
    exists (redo T c r). split; [|by rewrite redo_untouched]. eapply redone_step; [done|lia|lia].
Qed.

Lemma deadlines_filter k cs : deadlines k (filter (touches k) cs) = deadlines k cs.
Proof.
  induction cs as [|c cs IH] using rev_ind; [done|].
  rewrite filter_app, filter_cons, filter_nil, deadlines_snoc, <- IH. case_decide.
  - by rewrite deadlines_snoc.
  - by rewrite app_nil_r, deadlines_untouched.
Qed.

Lemma recovers_at_filter k t m cs :
  recovers_at k t m (filter (touches k) cs) <-> recovers_at k t m cs.
Proof.
  split; intros [A B C]; rewrite deadlines_filter in B, C || rewrite <- deadlines_filter in B, C;
    (split; [| |done || by rewrite deadlines_filter]).
  - intros T r v d (r' & Hre & Hr')%(redone_filter k). rewrite <- (vis_lookup_ext _ _ _ _ Hr').
    by apply A.
  - intros T r v d (r' & Hre & Hr')%(redone_filter k). rewrite <- (vis_lookup_ext _ _ _ _ Hr').
    by apply B.
  - intros T r v d (r' & Hre & Hr')%(redone_unfilter k). rewrite <- (vis_lookup_ext _ _ _ _ Hr').
    by apply A.
  - intros T r v d (r' & Hre & Hr')%(redone_unfilter k). rewrite <- (vis_lookup_ext _ _ _ _ Hr').
    by apply B.
Qed.

(** ** A binding, then deadlines *)

Section Deadlines.
Context (k : bytes) (t : Time).

Lemma deadlines_absent T cs ds r :
  (forall T0 r0, redone t T0 cs r0 -> r0 !! k = None) ->
  redone t T (cs ++ (ChDeadline k <$> ds)) r -> r !! k = None.
Proof.
  intros Hcs. revert T r. induction ds as [|d ds IH] using rev_ind; intros T r.
  { rewrite app_nil_r. apply Hcs. }
  rewrite fmap_app, app_assoc. intros (T1 & r1 & Hr1 & _ & ->)%redone_snoc.
  apply IH in Hr1. simpl. unfold spec_expireAt, vis. by rewrite Hr1.
Qed.

Lemma set_once T v d r :
  redone t T [ChSet k v d] r ->
  exists T1, t <= T1 <= T /\ r !! k = if IsZero d then Some (v, zeroTime)
                             else if trunc d <=? T1 then None else Some (v, trunc d).
Proof.
  intros (T1 & r1 & _ & HT & ->)%(redone_snoc _ _ []). exists T1. split; [done|]. simpl.
  repeat case_match; by rewrite ?lookup_insert_eq, ?lookup_delete_eq.
Qed.

(** Either some deadline passed while the log was replayed, or the last one holds. *)
Lemma deadlines_present T v d ds r :
  IsZero d = true \/ Millisecond <= d -> Forall (fun x => Millisecond <= x) ds ->
  redone t T ([ChSet k v d] ++ (ChDeadline k <$> ds)) r ->
  (vis T r k = None /\ exists x, x ∈ (if IsZero d then [] else [d]) ++ ds /\ trunc x <= T) \/
  r !! k = Some (v, settled (default d (last ds))).
Proof.
  intros Hd Hds. revert T r. induction ds as [|x ds IH] using rev_ind; intros T r.
  { rewrite app_nil_r. intros (T1 & HT & Hr)%set_once. rewrite Hr. unfold settled. simpl.
    destruct (IsZero d) eqn:Hz; [right; by destruct (settled_zero d Hz) as [_ ->]|].
    destruct (Z.leb_spec (trunc d) T1); [|by right]. left. unfold vis. rewrite Hr.
    split; [done|]. exists d. split; [set_solver|lia]. }
  apply Forall_app in Hds as [Hds Hx]. inversion_clear Hx as [|? ? Hms _].
  rewrite fmap_app, app_assoc. intros (T1 & r1 & Hr1 & HT & ->)%redone_snoc.
  cbn [redo]. unfold spec_expireAt. rewrite last_snoc. cbn [default from_option].
  assert (forall r', vis T1 r' k = None -> vis T r' k = None) as Hlater.
  { intros r' Hv. rewrite (vis_later T1 T), Hv by lia. done. }
  destruct (vis T1 r1 k) as [[v1 d1]|] eqn:Hv; simpl.
  - specialize (IH Hds _ _ Hr1) as [[H _]|H]; [congruence|].
    assert (v1 = v) as ->.
    { unfold vis in Hv. rewrite H in Hv. case_match; by simplify_eq. }
    destruct (Z.leb_spec (trunc x) T1); simpl.
    + left. rewrite vis_delete, decide_True by done. split; [done|]. exists x. split; [set_solver|lia].
    + right. by rewrite lookup_insert_eq, settled_trunc.
  - left. split; [by apply Hlater|]. specialize (IH Hds _ _ Hr1) as [(_ & y & Hy & Hle)|H].
    + exists y. split; [set_solver|lia].
    + unfold vis in Hv. rewrite H in Hv. set (y := default d (last ds)) in *.
      assert (live T1 (settled y) = false) as Hl by (by destruct (live _ _)).
      unfold settled in Hl. destruct (IsZero y) eqn:Hz.
      { unfold live in Hl. by rewrite Hz in Hl. }
      exists y. split.
      * unfold y in *. destruct (last ds) as [z|] eqn:Hlast; simpl in *.
        -- apply last_Some_elem_of in Hlast. set_solver.
        -- rewrite Hz. set_solver.
      * unfold live in Hl. apply orb_false_iff in Hl as [_ Hl]. lia.
Qed.

Lemma deadlines_of_binding v d ds :
  deadlines k ([ChSet k v d] ++ (ChDeadline k <$> ds)) = (if IsZero d then [] else [d]) ++ ds.
Proof.
  induction ds as [|x ds IH] using rev_ind.
  { rewrite !app_nil_r. unfold deadlines. simpl. by rewrite decide_True. }
  rewrite fmap_app, app_assoc. change (ChDeadline k <$> [x]) with [ChDeadline k x].
  rewrite deadlines_snoc, IH. simpl. by rewrite decide_True, app_assoc.
Qed.
End Deadlines.

(** ** A key while a rewrite runs *)

(** A key whose shard has not been read yet: the tail will recover it by itself, or all
    the tail says about it is the deadlines it was given. *)
Definition ready (k : bytes) (t : Time) (m : kv) (tail : list change) : Prop :=
  (forall X, recovers_at k t m (X ++ tail)) \/
  exists ds, filter (touches k) tail = ChDeadline k <$> ds /\
    Forall (fun x => Millisecond <= x) ds /\
    forall v d x, vis t m k = Some (v, d) -> last ds = Some x -> x = d.

Lemma ready_nil k t m : ready k t m [].
Proof. right. by exists []. Qed.

Lemma ready_later k t t' m tail : t <= t' -> ready k t m tail -> ready k t' m tail.
Proof.
  intros Ht [Hl|(ds & Hf & Hms & Hlast)]; [left|right].
  - intros X. by eapply recovers_at_later.
  - exists ds. split_and!; [done..|]. intros v d x Hv. apply (Hlast v). by eapply vis_earlier.
Qed.

Lemma ready_effect k t m tail cs m' :
  effect t m cs m' -> ready k t m tail -> ready k t m' (tail ++ cs).
Proof.
  intros He [Hl|(ds & Hf & Hms & Hlast)].
  { left. intros X. rewrite app_assoc. by eapply recovers_effect_at. }
  destruct cs as [|c [|c2 cs]]; [|..|by inversion He].
  - right. exists ds. rewrite app_nil_r. split_and!; [done..|]. inversion_clear He as [? Hv| | | |].
    by rewrite Hv.
  - unfold ready. rewrite filter_app, filter_cons, filter_nil. case_decide as Hk.
    + destruct c as [| | |k' d']; try by (left; intros X; rewrite app_assoc; eapply recovers_reset).
      right. simpl in Hk. subst k'. inversion_clear He. exists (ds ++ [d']).
      rewrite Hf, fmap_app, last_snoc. split_and!; [done| |].
      * apply Forall_app. by repeat constructor.
      * intros v' d x Hv [= ->]. rewrite vis_insert, decide_True in Hv by done. case_match; by simplify_eq.
    + right. exists ds. rewrite app_nil_r. split_and!; [done..|].
      by rewrite (effect_untouched _ _ _ _ _ He).
Qed.

(** Reading the shard of a key that is absent, or whose entry is [(v, d)] whether or not
    it has expired meanwhile, makes the key recoverable. *)
Lemma ready_absent k t m tail X :
  ready k t m tail -> filter (touches k) X = [] -> vis t m k = None ->
  recovers_at k t m (X ++ tail).
Proof.
  intros [Hl|(ds & Hf & Hms & _)] HX Hv; [by apply Hl|].
  apply recovers_at_filter. rewrite filter_app, HX, Hf. cbn [app].
  assert (forall T, t <= T -> vis T m k = None) as HvT.
  { intros T HT. by rewrite (vis_later t T), Hv. }
  assert (forall T r, redone t T (ChDeadline k <$> ds) r -> vis T r k = None) as Hr.
  { intros T r Hre. unfold vis. erewrite (deadlines_absent k t T [] ds r); [done| |exact Hre].
    intros T0 r0 ->%redone_nil. apply lookup_empty. }
  split.
  - intros T r v d Hre. by rewrite (Hr _ _ Hre).
  - intros T r v d Hre. by rewrite HvT by (by eapply redone_lower).
  - intros v d. by rewrite Hv.
Qed.

Lemma ready_binding k t m tail X v d :
  ready k t m tail -> filter (touches k) X = [ChSet k v d] ->
  IsZero d = true \/ Millisecond <= d ->
  vis t m k = (if live t d then Some (v, d) else None) ->
  recovers_at k t m (X ++ tail).
Proof.
  intros [Hl|(ds & Hf & Hms & Hlast)] HX Hd Hv; [by apply Hl|].
  apply recovers_at_filter. rewrite filter_app, HX, Hf.
  destruct (live t d) eqn:Hlive.
  - assert (default d (last ds) = d) as Hdef.
    { destruct (last ds) as [x|] eqn:Hx; [|done]. by apply (Hlast v d x). }
    assert (forall T r, redone t T ([ChSet k v d] ++ (ChDeadline k <$> ds)) r ->
      (vis T r k = None /\ exists x, x ∈ (if IsZero d then [] else [d]) ++ ds /\ trunc x <= T) \/
      r !! k = Some (v, settled d)) as Hr.
    { intros T r Hre. apply deadlines_present in Hre; [|done..]. by rewrite Hdef in Hre. }
    split.
    + intros T r v' d' Hre Hvr. pose proof (redone_lower _ _ _ _ Hre) as HT.
      destruct (Hr _ _ Hre) as [[]|Hk]; [congruence|]. unfold vis in Hvr. rewrite Hk in Hvr.
      destruct (live T (settled d)) eqn:Hls; simplify_eq. exists d. split; [|done].
      apply (vis_until t T); [done|done|]. destruct Hd as [|Hd]; [by left|right].
      rewrite settled_trunc in Hls by done. apply live_trunc in Hls; [|done].
      pose proof (trunc_le d). lia.
    + intros T r v' d' Hre Hvr Hdl. rewrite deadlines_of_binding in Hdl.
      apply (vis_earlier t) in Hvr as Hvt; [|by eapply redone_lower].
      rewrite Hv in Hvt. simplify_eq. destruct (Hr _ _ Hre) as [(_ & x & Hx & Hle)|Hk].
      { specialize (Hdl x Hx). lia. }
      unfold vis. rewrite Hk. destruct Hd as [Hz|Hd].
      * by destruct (settled_zero _ Hz) as [-> ->].
      * rewrite settled_trunc by done. rewrite live_later; [done|]. apply Hdl.
        rewrite (positive_not_zero _ Hd). destruct (last ds) as [x|] eqn:Hx; simpl in *; [|set_solver].
        set_solver.
    + intros v' d' Hv'. rewrite deadlines_of_binding. rewrite Hv in Hv'. simplify_eq.
      destruct (IsZero d'); [by left|]. right. set_solver.
  - assert (forall T, t <= T -> vis T m k = None) as HvT.
    { intros T HT. by rewrite (vis_later t T), Hv. }
    assert (forall T r, redone t T ([ChSet k v d] ++ (ChDeadline k <$> ds)) r -> vis T r k = None) as Hr.
    { intros T r Hre. unfold vis. erewrite (deadlines_absent k t T [ChSet k v d] ds r); [done| |exact Hre].
      intros T0 r0 (T1 & HT1 & ->)%set_once. unfold live in Hlive. apply orb_false_iff in Hlive as [-> Hlt].
      pose proof (trunc_le d). by rewrite (proj2 (Z.leb_le (trunc d) T1)) by lia. }
    split.
    + intros T r v' d' Hre. by rewrite (Hr _ _ Hre).
    + intros T r v' d' Hre. by rewrite HvT by (by eapply redone_lower).
    + intros v' d'. by rewrite Hv.
Qed.

(** ** What the snapshot of a shard says *)

Definition snapChanges (now : Time) (keys : list bytes) (sh : readShard) : list change :=
  concat ((fun key =>
     match data sh !! key with
     | Some e => if expired e now then [] else [ChSet key (val e) (expiresAt e)]
     | None => []
     end) <$> keys).

Lemma snapshotShard_wire now keys sh : snapshotShard now keys sh = wire <$> snapChanges now keys sh.
Proof.
  unfold snapshotShard, snapChanges. induction keys as [|a keys IH]; [done|].
  rewrite !fmap_cons. cbn [concat]. rewrite fmap_app, IH. f_equal.
  destruct (data sh !! a) as [e|]; [|done]. destruct (expired e now); [done|].
  unfold snapshotRecord, wire, setRecord. simpl. by destruct (IsZero (expiresAt e)).
Qed.

Lemma snapChanges_filter k now keys sh :
  keys ≡ₚ keysOf (data sh) ->
  filter (touches k) (snapChanges now keys sh) =
    match data sh !! k with
    | Some e => if expired e now then [] else [ChSet k (val e) (expiresAt e)]
    | None => []
    end.
Proof.
  intros Hp. assert (NoDup keys) as Hnd by (rewrite Hp; apply NoDup_fst_map_to_list).
  assert (k ∈ keys <-> is_Some (data sh !! k)) as Hin.
  { rewrite Hp. unfold keysOf. rewrite list_elem_of_fmap. split.
    - intros ([k' e] & -> & Hm%elem_of_map_to_list). by exists e.
    - intros [e He]. exists (k, e). split; [done|]. by apply elem_of_map_to_list. }
  clear Hp. set (own := match data sh !! k with Some _ => _ | None => _ end).
  assert (filter (touches k) (snapChanges now keys sh) = if decide (k ∈ keys) then own else []) as ->.
  { clear Hin. induction keys as [|a keys IH]; [done|]. apply NoDup_cons in Hnd as [Ha Hnd].
    unfold snapChanges in *. rewrite fmap_cons. cbn [concat]. rewrite filter_app, IH by done.
    destruct (decide (k = a)) as [->|Hne].
    - rewrite (decide_False (P := a ∈ keys)), (decide_True (P := a ∈ a :: keys)) by (done || set_solver).
      rewrite app_nil_r. unfold own. repeat case_match; try done.
      by rewrite filter_cons, filter_nil, decide_True.
    - rewrite (decide_ext (k ∈ a :: keys) (k ∈ keys)) by set_solver.
      match goal with |- ?x ++ _ = _ => assert (x = []) as ->; [|done] end.
      destruct (data sh !! a) as [e|]; [|done]. destruct (expired e now); [done|].
      rewrite filter_cons, filter_nil, decide_False; [done|]. simpl. congruence. }
  case_decide as Hk; [done|]. unfold own. destruct (data sh !! k) as [e|] eqn:He; [|done].
  exfalso. apply Hk, Hin. by exists e.
Qed.

(** Reading a shard recovers its keys, and says nothing about the others. *)
Section Scan.
Context {J : Type} (t now : Time) (s : Store J) (m : kv) (i : nat) (keys : list bytes) (sh : readShard).
Context (Hr : refines t s m) (Hsh : readShards s !! i = Some sh) (Hkeys : keys ≡ₚ keysOf (data sh)).

Lemma scan_other k : shardNo k <> i -> filter (touches k) (snapChanges now keys sh) = [].
Proof.
  intros Hk. rewrite snapChanges_filter by done. destruct (data sh !! k) as [e|] eqn:He; [|done].
  exfalso. apply Hk. eapply wf_routed; [by eapply wf_shards; [apply (ref_wf _ _ _ Hr)|]|done].
Qed.

Lemma scan_own k tail X :
  Millisecond <= now <= t -> shardNo k = i ->
  ready k t m tail -> filter (touches k) X = [] ->
  recovers_at k t m ((X ++ snapChanges now keys sh) ++ tail).
Proof.
  intros Hnow Hk Hready HX. pose proof (vis_of_entry t s m k Hr) as Hv.
  assert (entry_at s k = data sh !! k) as He.
  { unfold entry_at, shardOf. rewrite Hk. by rewrite (list_lookup_total_correct _ _ _ Hsh). }
  pose proof (snapChanges_filter k now keys sh Hkeys) as Hf.
  assert (forall l, filter (touches k) (snapChanges now keys sh) = l ->
    filter (touches k) (X ++ snapChanges now keys sh) = l) as HXf.
  { intros l Hl. by rewrite filter_app, HX, Hl. }
  rewrite He in Hv. destruct (data sh !! k) as [e|].
  2:{ eapply ready_absent; [done|by apply HXf|done]. }
  rewrite !expired_live in *. destruct (live now (expiresAt e)) eqn:Hl; cbn [negb] in *.
  - apply (ready_binding _ _ _ _ _ (val e) (expiresAt e)); [done|by apply HXf| |].
    + unfold live in Hl. destruct (IsZero (expiresAt e)); [by left|]. simpl in Hl. right. lia.
    + rewrite Hv. by destruct (live t (expiresAt e)).
  - eapply ready_absent; [done|by apply HXf|].
    rewrite Hv. destruct (live t (expiresAt e)) eqn:Hlt; [|done].
    rewrite (live_mono now t) in Hl; [done|lia|done].
Qed.
End Scan.

(** ** The server with its rewrites *)

(** A rewrite goroutine: it has been started; it has read the clock and the shards below
    [i]; its snapshot is in the temporary file; writing the snapshot has failed. *)
Inductive task : Type :=
| Begun
| Scanning (now : Time) (i : nat) (out : list record)
| Written (fd : nat) (snap : list record)
| Failed.

Record sys : Type := mkSys { clockOf : Time; sstore : Store logState; tasks : list task }.

Definition logOf (x : sys) : option logState := journal (sstore x).

(** One step of a rewrite goroutine; every system call may fail. *)
Inductive taskstep : sys -> sys -> Prop :=
| S_moment t s us j now :
    us !! j = Some Begun -> t <= now ->
    taskstep (mkSys t s us) (mkSys now s (<[j := Scanning now 0 []]> us))
| S_shard t s us j now i out sh keys :
    us !! j = Some (Scanning now i out) -> readShards s !! i = Some sh -> keys ≡ₚ keysOf (data sh) ->
    taskstep (mkSys t s us) (mkSys t s (<[j := Scanning now (S i) (out ++ snapshotShard now keys sh)]> us))
| S_write t s us j now out o l o' r :
    us !! j = Some (Scanning now (length (readShards s)) out) -> journal s = Some (o, l) ->
    writeSnapshot out o = (o', r) ->
    taskstep (mkSys t s us)
      (mkSys t (SetJournal (o', l) s)
         (<[j := match r with inl fd => Written fd out | inr _ => Failed end]> us))
| S_install t s us j fd snap l :
    us !! j = Some (Written fd snap) -> journal s = Some l ->
    taskstep (mkSys t s us) (mkSys t (SetJournal (installRewrite fd l).1 s) (delete j us))
| S_abort t s us j o l :
    us !! j = Some Failed -> journal s = Some (o, l) ->
    taskstep (mkSys t s us) (mkSys t (SetJournal (o, abortRewrite l) s) (delete j us)).

(** One step of some goroutine.  Between the steps of a rewrite clients and the timer
    do what they like. *)
Inductive sstep : sys -> sys -> Prop :=
| S_event t s us e :
    StronglySorted Z.le (t :: eventReadings e) -> eventOk e ->
    sstep (mkSys t s us) (mkSys (eventEnd t e) (happen e s) us)
| S_sync t s us l fsync :
    journal s = Some l ->
    sstep (mkSys t s us) (mkSys t (SetJournal (syncLocked fsync l).1 s) us)
| S_begin t s us l l' :
    journal s = Some l -> BeginRewrite l = (l', None) ->
    sstep (mkSys t s us) (mkSys t (SetJournal l' s) (us ++ [Begun]))
| S_task x y : taskstep x y -> sstep x y.

(** A scan that nothing interrupts is [AOFSnapshot]. *)
Lemma scan_all t s now range n :
  (n <= length (readShards s))%nat ->
  (forall i sh, readShards s !! i = Some sh -> range i ≡ₚ keysOf (data sh)) ->
  rtc sstep (mkSys t s [Scanning now 0 []])
    (mkSys t s [Scanning now n
       (concat (imap (fun i sh => snapshotShard now (range i) sh) (take n (readShards s))))]).
Proof.
  intros Hn Hrange. induction n as [|n IH]; [done|].
  eapply rtc_r; [apply IH; lia|].
  destruct (lookup_lt_is_Some_2 (readShards s) n) as [sh Hsh]; [lia|].
  rewrite (take_S_r _ _ _ Hsh), imap_app, concat_app, length_take, Nat.min_l by lia.
  cbn [imap concat]. rewrite app_nil_r, Nat.add_0_r.
  exact (S_task _ _ (S_shard t s [_] 0 now n _ sh (range n) eq_refl Hsh (Hrange _ _ Hsh))).
Qed.

Lemma scan_AOFSnapshot t s now range :
  (forall i sh, readShards s !! i = Some sh -> range i ≡ₚ keysOf (data sh)) ->
  rtc sstep (mkSys t s [Scanning now 0 []])
    (mkSys t s [Scanning now (length (readShards s)) (AOFSnapshot now range s)]).
Proof.
  intros Hrange. pose proof (scan_all t s now range _ (le_n _) Hrange) as H.
  rewrite firstn_all in H. exact H.
Qed.

(** ** The invariant *)

(** What a rewrite has done so far is enough, together with the tail. *)
Definition task_ok (t : Time) (m : kv) (tail : list change) (u : task) : Prop :=
  match u with
  | Begun => forall k, ready k t m tail
  | Scanning now i out =>
      Millisecond <= now <= t /\ exists X, out = wire <$> X /\
        forall k, if decide (shardNo k < i)%nat then recovers_at k t m (X ++ tail)
                  else ready k t m tail /\ filter (touches k) X = []
  | Written fd snap => exists X, snap = wire <$> X /\ recovers t m (X ++ tail)
  | Failed => True
  end.

Record inv (x : sys) (l : logState) (g : ghost) (m : kv) (cs : list change) : Prop := {
  in_log : logOf x = Some l;
  in_ok : log_ok l g;
  in_time : Millisecond <= clockOf x;
  in_store : refines (clockOf x) (sstore x) m;
  in_recs : recs g = wire <$> cs;
  in_one : length (tasks x) = if rewriting l.2 then 1%nat else 0%nat;
  in_written : forall fd snap, Written fd snap ∈ tasks x -> pending_tmp g = Some (fd, snap);
  in_healthy : logErr l.2 = None ->
    recovers (clockOf x) m cs /\
    forall u, u ∈ tasks x -> exists tail, since g = wire <$> tail /\ task_ok (clockOf x) m tail u
}.

(** The records that a crash may leave were left by the step, or before it. *)
Definition advances (l : logState) (g : ghost) (cs : list change)
    (y : sys) (l' : logState) (g' : ghost) (m' : kv) (cs' : list change) : Prop :=
  forall n, (complete (recs g') (synced (disk l'.1)) <= n <= length cs')%nat ->
    (n = length cs' /\ recovers (clockOf y) m' cs') \/
    ((complete (recs g) (synced (disk l.1)) <= n <= length cs)%nat /\ take n cs' = take n cs).

Lemma task_ok_later t t' m tail u : t <= t' -> task_ok t m tail u -> task_ok t' m tail u.
Proof.
  intros Ht. destruct u as [|now i out|fd snap|]; simpl; [..|done].
  - intros H k. by eapply ready_later.
  - intros (Hnow & X & -> & H). split; [lia|]. exists X. split; [done|]. intros k.
    specialize (H k). case_decide; [by eapply recovers_at_later|].
    split; [|apply H]. eapply ready_later; [done|apply H].
  - intros (X & -> & H). exists X. split; [done|]. by eapply recovers_later.
Qed.

Lemma task_ok_effect t m cs m' tail u :
  effect t m cs m' -> task_ok t m tail u -> task_ok t m' (tail ++ cs) u.
Proof.
  intros He. destruct u as [|now i out|fd snap|]; simpl; [..|done].
  - intros H k. by eapply ready_effect.
  - intros (Hnow & X & -> & H). split; [done|]. exists X. split; [done|]. intros k.
    specialize (H k). case_decide; [rewrite app_assoc; by eapply recovers_effect_at|].
    split; [|apply H]. by eapply ready_effect; [|apply H].
  - intros (X & -> & H). exists X. split; [done|]. rewrite app_assoc. by eapply recovers_effect.
Qed.

Lemma advances_same l g cs y l' g' m' :
  recs g' = recs g -> (synced (disk l.1) <= synced (disk l'.1))%nat -> advances l g cs y l' g' m' cs.
Proof.
  intros Hg Hs n Hn. right. split; [|done]. rewrite Hg in Hn.
  pose proof (complete_le (recs g) _ _ Hs). lia.
Qed.

Lemma one_task (us : list task) j u (b : bool) :
  length us = (if b then 1%nat else 0%nat) -> us !! j = Some u -> us = [u] /\ j = 0%nat /\ b = true.
Proof.
  intros Hl Hj. apply lookup_lt_Some in Hj as Hlt.
  destruct us as [|u' [|]]; simpl in *; try lia; [|by destruct b].
  destruct j as [|j]; [|lia]. simpl in Hj. simplify_eq. by destruct b.
Qed.

Lemma effect_short t m cs m' : effect t m cs m' -> cs = [] \/ exists c, cs = [c].
Proof. destruct 1; eauto. Qed.

(** ** Every step keeps it *)

(** What a step has to show. *)
Definition keeps (l : logState) (g : ghost) (cs : list change) (y : sys) : Prop :=
  exists l' g' m' cs', inv y l' g' m' cs' /\ advances l g cs y l' g' m' cs'.

Section Steps.
Context (t : Time) (s : Store logState) (us : list task) (l : logState) (g : ghost) (m : kv) (cs : list change).
Context (Hinv : inv (mkSys t s us) l g m cs).

Lemma keeps_event e :
  StronglySorted Z.le (t :: eventReadings e) -> eventOk e ->
  keeps l g cs (mkSys (eventEnd t e) (happen e s) us).
Proof.
  intros Hs Ho. destruct Hinv as [Hl Hok Ht Hr Hrecs Hone Hwr Hh]. cbn [clockOf sstore tasks] in *.
  destruct (happen_effect t e s m Ht Hs Ho Hr) as (cs1 & m1 & Hw & Heff & Hr1 & Hle).
  unfold wrote in Hw. unfold logOf in Hl. cbn [sstore] in Hl. rewrite Hl in Hw.
  cbn [fmap option_fmap option_map] in Hw.
  destruct (logErr l.2) as [err|] eqn:He.
  { change (journalAll (wire <$> cs1) l) with (arrivals (wire <$> cs1) l) in Hw.
    rewrite arrivals_failed in Hw by congruence. exists l, g, m1, cs.
    split; [|by apply advances_same]. split; try done; [simpl; lia|congruence]. }
  destruct (Hh eq_refl) as [Hrec Hus]. apply (recovers_later _ _ _ _ Hle) in Hrec.
  assert (forall u, u ∈ us -> exists tail, since g = wire <$> tail /\
    task_ok (eventEnd t e) m1 (tail ++ cs1) u) as Hus1.
  { intros u Hu. destruct (Hus u Hu) as (tail & Htl & Hok1). exists tail. split; [done|].
    eapply task_ok_effect; [done|by eapply task_ok_later]. }
  pose proof (recovers_effect _ _ _ _ _ Hrec Heff) as Hrec1.
  destruct (effect_short _ _ _ _ Heff) as [->|[c ->]].
  - rewrite app_nil_r in Hrec1. exists l, g, m1, cs. split; [|by apply advances_same].
    split; try done; [simpl; lia|]. intros _. split; [done|]. intros u Hu.
    destruct (Hus1 u Hu) as (tail & Htl & Htk). rewrite app_nil_r in Htk. by exists tail.
  - pose proof (Append_ok (wire c) l g Hok) as Hok1. unfold appended in Hok1. rewrite He in Hok1.
    eexists _, _, m1, (cs ++ [c]). split.
    + split; try exact Hok1; [done|simpl; lia|done| | |done|].
      * simpl. by rewrite Hrecs, fmap_app.
      * rewrite Append_rewriting. exact Hone.
      * intros _. split; [done|]. intros u Hu. destruct (Hus1 u Hu) as (tail & Htl & Htk).
        exists (tail ++ [c]). simpl. rewrite Htl, fmap_app. done.
    + intros n Hn. rewrite length_app in Hn. cbn [length recs] in Hn.
      rewrite (Append_synced _ _ g Hok) in Hn.
      destruct (decide (n = (length cs + 1)%nat)) as [->|Hne].
      * left. rewrite length_app. done.
      * right. pose proof (complete_app_le (recs g) [wire c] (synced (disk l.1))).
        split; [lia|]. by rewrite take_app_le by lia.
Qed.

Lemma inv_sync fsync :
  inv (mkSys t (SetJournal (syncLocked fsync l).1 s) us) (syncLocked fsync l).1 g m cs.
Proof.
  destruct Hinv as [Hl Hok Ht Hr Hrecs Hone Hwr Hh].
  split; try done; [by apply syncLocked_ok|by eapply refines_ext; [|exact Hr]| |].
  - rewrite syncLocked_rewriting. done.
  - intros He. apply Hh. destruct (logErr l.2) as [err|] eqn:Hel; [|done].
    exfalso. revert He. destruct l as [o l0]. unfold syncLocked. cbn [snd] in Hel. rewrite Hel.
    cbn [fst snd]. congruence.
Qed.

Lemma keeps_sync fsync : keeps l g cs (mkSys t (SetJournal (syncLocked fsync l).1 s) us).
Proof.
  exists (syncLocked fsync l).1, g, m, cs. split; [apply inv_sync|].
  apply advances_same; [done|]. eapply syncLocked_grows, (in_ok _ _ _ _ _ Hinv).
Qed.

Lemma keeps_begin l' : BeginRewrite l = (l', None) -> keeps l g cs (mkSys t (SetJournal l' s) (us ++ [Begun])).
Proof.
  intros Hb. destruct Hinv as [Hl Hok Ht Hr Hrecs Hone Hwr Hh].
  pose proof (BeginRewrite_ok _ _ _ Hok Hb) as Hok'. destruct l as [o l0].
  unfold BeginRewrite in Hb. destruct (logErr l0) eqn:Hel; [done|].
  destruct (rewriting l0) eqn:Hrw; [done|]. injection Hb as <-.
  cbn [snd tasks] in *. rewrite Hrw in Hone. destruct us; [|done].
  exists (o, setRewrite true [] l0), (mkGhost (recs g) [] None), m, cs.
  split; [|by apply advances_same].
  split; try done.
  - by eapply refines_ext; [|exact Hr].
  - intros fd snap Hin. simpl in Hin. apply list_elem_of_singleton in Hin. done.
  - intros _. split; [by apply Hh|]. intros u ->%list_elem_of_singleton. exists []. split; [done|].
    intros k. apply ready_nil.
Qed.

Lemma keeps_moment j now :
  us !! j = Some Begun -> t <= now -> keeps l g cs (mkSys now s (<[j := Scanning now 0 []]> us)).
Proof.
  intros Hj Hnow. destruct Hinv as [Hl Hok Ht Hr Hrecs Hone Hwr Hh]. cbn [clockOf sstore tasks] in *.
  destruct (one_task _ _ _ _ Hone Hj) as (-> & -> & Hrw). exists l, g, m, cs.
  split; [|by apply advances_same]. split; try done.
  - simpl. lia.
  - by eapply refines_later.
  - intros fd snap Hin. simpl in Hin. apply list_elem_of_singleton in Hin. done.
  - intros He. destruct (Hh He) as [Hrec Hus]. split; [by eapply recovers_later|].
    intros u ->%list_elem_of_singleton. destruct (Hus Begun) as (tail & Htl & Hu); [by left|].
    exists tail. split; [done|]. split; [simpl; lia|]. exists []. split; [done|].
    intros k. rewrite decide_False by lia. split; [by eapply ready_later|done].
Qed.

Lemma keeps_shard j now i out sh keys :
  us !! j = Some (Scanning now i out) -> readShards s !! i = Some sh -> keys ≡ₚ keysOf (data sh) ->
  keeps l g cs (mkSys t s (<[j := Scanning now (S i) (out ++ snapshotShard now keys sh)]> us)).
Proof.
  intros Hj Hsh Hkeys. destruct Hinv as [Hl Hok Ht Hr Hrecs Hone Hwr Hh]. cbn [clockOf sstore tasks] in *.
  destruct (one_task _ _ _ _ Hone Hj) as (-> & -> & Hrw). exists l, g, m, cs.
  split; [|by apply advances_same]. split; try done.
  { intros fd snap Hin. simpl in Hin. apply list_elem_of_singleton in Hin. done. }
  intros He. destruct (Hh He) as [Hrec Hus]. split; [done|].
  intros u ->%list_elem_of_singleton.
  destruct (Hus (Scanning now i out)) as (tail & Htl & Hnow & X & -> & HX); [by left|].
  exists tail. split; [done|]. split; [done|].
  exists (X ++ snapChanges now keys sh). rewrite snapshotShard_wire, fmap_app. split; [done|].
  intros k. specialize (HX k). cbn [clockOf].
  destruct (decide (shardNo k = i)) as [Hk|Hk].
  - rewrite decide_False in HX by lia. rewrite decide_True by lia. destruct HX as [H1 H2].
    by eapply scan_own.
  - pose proof (scan_other t now s m i keys sh Hr Hsh Hkeys k Hk) as Hno.
    destruct (decide (shardNo k < i)%nat).
    + rewrite decide_True by lia. apply recovers_at_filter. apply recovers_at_filter in HX.
      rewrite !filter_app in *. by rewrite Hno, app_nil_r.
    + rewrite decide_False by lia. destruct HX as [H1 H2]. split; [done|].
      by rewrite filter_app, H2, Hno.
Qed.

Lemma keeps_write j now out o l0 o' r :
  us !! j = Some (Scanning now (length (readShards s)) out) -> l = (o, l0) ->
  writeSnapshot out o = (o', r) ->
  keeps l g cs (mkSys t (SetJournal (o', l0) s)
                  (<[j := match r with inl fd => Written fd out | inr _ => Failed end]> us)).
Proof.
  intros Hj -> Hws. destruct Hinv as [Hl Hok Ht Hr Hrecs Hone Hwr Hh]. cbn [clockOf sstore tasks] in *.
  destruct (one_task _ _ _ _ Hone Hj) as (-> & -> & Hrw).
  pose proof (writeSnapshot_spec out o) as K. rewrite Hws in K. destruct K as ((K1 & K2 & K3) & _).
  assert (disk o' = disk o) as Hd.
  { unfold disk. rewrite K1. apply K3. apply (ok_link _ _ Hok). }
  destruct r as [fd|err].
  - exists (o', l0), (mkGhost (recs g) (since g) (Some (fd, out))), m, cs.
    split; [|apply advances_same; [done|simpl; by rewrite Hd]].
    split; try done.
    + exact (lstep_ok _ _ _ _ Hok (L_snapshot out o l0 g o' fd Hws)).
    + by eapply refines_ext; [|exact Hr].
    + intros fd' snap' Hin. simpl in Hin. apply list_elem_of_singleton in Hin as [= -> ->]. done.
    + intros He. destruct (Hh He) as [Hrec Hus]. split; [done|].
      intros u ->%list_elem_of_singleton.
      destruct (Hus (Scanning now (length (readShards s)) out)) as (tail & Htl & Hnow & X & -> & HX); [by left|].
      exists tail. split; [done|]. exists X. split; [done|]. intros k. specialize (HX k).
      rewrite decide_True in HX; [done|]. rewrite (wf_length _ (ref_wf _ _ _ Hr)). apply shardNo_lt.
  - exists (o', l0), g, m, cs. split; [|apply advances_same; [done|simpl; by rewrite Hd]].
    split; try done.
    + by eapply log_ok_grow.
    + by eapply refines_ext; [|exact Hr].
    + intros fd' snap' Hin. simpl in Hin. apply list_elem_of_singleton in Hin. done.
    + intros He. destruct (Hh He) as [Hrec Hus]. split; [done|].
      intros u ->%list_elem_of_singleton. destruct (Hus _ (list_elem_of_here _ _)) as (tail & Htl & _).
      by exists tail.
Qed.
Lemma keeps_install j fd snap :
  us !! j = Some (Written fd snap) ->
  keeps l g cs (mkSys t (SetJournal (installRewrite fd l).1 s) (delete j us)).
Proof.
  intros Hj. destruct Hinv as [Hl Hok Ht Hr Hrecs Hone Hwr Hh]. cbn [clockOf sstore tasks] in *.
  destruct (one_task _ _ _ _ Hone Hj) as (-> & -> & Hrw).
  pose proof (installRewrite_spec fd snap l g Hok (Hwr fd snap (list_elem_of_here _ _))) as Hin.
  pose proof (installRewrite_ends fd l) as [Hend Hkeep].
  destruct (installRewrite fd l) as [l' r]. cbn [fst] in *. destruct Hin as [Hok' Hdisk].
  assert (forall cs', recs (installed l l' snap g) = wire <$> cs' ->
    (logErr l'.2 = None -> recovers t m cs') ->
    inv (mkSys t (SetJournal l' s) []) l' (installed l l' snap g) m cs') as Hmk.
  { intros cs' Hcs' Hrec'. split; try done.
    - by eapply refines_ext; [|exact Hr].
    - by rewrite Hend.
    - intros fd' snap' Hin. by apply elem_of_nil in Hin.
    - intros He. split; [by apply Hrec'|]. intros u Hin. by apply elem_of_nil in Hin. }
  destruct Hdisk as [(Hlk & Hd & _)|(Hlk & Hd & He & _)].
  - assert (recs (installed l l' snap g) = recs g) as Hsame.
    { unfold installed. cbn [recs]. by rewrite decide_True. }
    exists l', (installed l l' snap g), m, cs. split.
    + apply Hmk; [by rewrite Hsame|]. intros He'. apply Hh.
      destruct (logErr l.2) as [e|]; [|done]. by rewrite (Hkeep e eq_refl) in He'.
    + apply advances_same; [done|by rewrite Hd].
  - destruct (Hh He) as [_ Hus]. destruct (Hus _ (list_elem_of_here _ _)) as (tail & Htl & X & -> & HX).
    destruct (ok_pending _ _ Hok fd _ (Hwr fd _ (list_elem_of_here _ _))) as (_ & Hne & _).
    assert (recs (installed l l' (wire <$> X) g) = wire <$> (X ++ tail)) as Hnew.
    { unfold installed. cbn [recs]. rewrite decide_False by lia. by rewrite Htl, fmap_app. }
    exists l', (installed l l' (wire <$> X) g), m, (X ++ tail). split; [by apply Hmk|].
    intros n Hn. left. rewrite Hnew, Hd in Hn. cbn [synced] in Hn.
    rewrite Htl, <- fmap_app, complete_all, length_fmap in Hn. split; [lia|done].
Qed.

Lemma keeps_abort j o l0 :
  us !! j = Some Failed -> l = (o, l0) ->
  keeps l g cs (mkSys t (SetJournal (o, abortRewrite l0) s) (delete j us)).
Proof.
  intros Hj ->. destruct Hinv as [Hl Hok Ht Hr Hrecs Hone Hwr Hh]. cbn [clockOf sstore tasks] in *.
  destruct (one_task _ _ _ _ Hone Hj) as (-> & -> & Hrw).
  exists (o, abortRewrite l0), g, m, cs. split; [|by apply advances_same].
  split; try done.
  - by apply log_ok_abort.
  - by eapply refines_ext; [|exact Hr].
  - intros fd snap Hin. by apply elem_of_nil in Hin.
  - intros He. split; [by apply Hh|]. intros u Hin. by apply elem_of_nil in Hin.
Qed.
End Steps.

Lemma sstep_keeps x y l g m cs : inv x l g m cs -> sstep x y -> keeps l g cs y.
Proof.
  intros Hinv Hstep. pose proof (in_log _ _ _ _ _ Hinv) as Hl. unfold logOf in Hl.
  destruct Hstep as [| | |? ? []]; cbn [sstore] in Hl; simplify_eq.
  - by eapply keeps_event.
  - by eapply keeps_sync.
  - by eapply keeps_begin.
  - by eapply keeps_moment.
  - by eapply keeps_shard.
  - by eapply keeps_write.
  - by eapply keeps_install.
  - by eapply keeps_abort.
Qed.

Lemma sstep_clock x y : sstep x y -> clockOf x <= clockOf y.
Proof.
  destruct 1 as [t s us e Hs| | |? ? []]; simpl; try lia.
  inversion_clear Hs as [|? ? _ Hall]. unfold eventEnd. destruct (last (eventReadings e)) as [z|] eqn:Hz;
    [|simpl; lia]. simpl. apply last_Some_elem_of in Hz. by eapply Forall_forall in Hall.
Qed.

Lemma ssteps_clock x y : rtc sstep x y -> clockOf x <= clockOf y.
Proof. induction 1 as [|x y z H _ IH]; [lia|]. apply sstep_clock in H. lia. Qed.

(** Whatever a crash leaves, beyond what was on stable storage in [x0], recovers the
    keyspace of some moment since. *)
Definition moments (x0 x : sys) (l : logState) (g : ghost) (cs : list change) : Prop :=
  forall n, (complete (recs g) (synced (disk l.1)) <= n <= length cs)%nat ->
    exists x' m', rtc sstep x0 x' /\ rtc sstep x' x /\
      refines (clockOf x') (sstore x') m' /\ recovers (clockOf x') m' (take n cs).

Lemma ssteps_moments x0 x l0 g0 m0 cs0 :
  inv x0 l0 g0 m0 cs0 -> moments x0 x0 l0 g0 cs0 -> rtc sstep x0 x ->
  exists l g m cs, inv x l g m cs /\ moments x0 x l g cs.
Proof.
  intros Hinv Hmom. revert x. apply rtc_ind_r; [by exists l0, g0, m0, cs0|].
  intros x y Hx Hstep (l & g & m & cs & Hi & Hm).
  destruct (sstep_keeps _ _ _ _ _ _ Hi Hstep) as (l' & g' & m' & cs' & Hi' & Hadv).
  exists l', g', m', cs'. split; [done|]. intros n Hn. destruct (Hadv n Hn) as [[-> Hrec]|[Hn' Hcs]].
  - exists y, m'. split_and!; [by eapply rtc_r|done|by eapply in_store|by rewrite firstn_all].
  - destruct (Hm n Hn') as (x' & m1 & H1 & H2 & H3 & H4). exists x', m1.
    split_and!; [done|by eapply rtc_r|done|by rewrite Hcs].
Qed.

Lemma ssteps_inv x0 x l0 g0 m0 cs0 :
  inv x0 l0 g0 m0 cs0 -> rtc sstep x0 x -> exists l g m cs, inv x l g m cs.
Proof.
  intros Hinv. revert x. apply rtc_ind_r; [by exists l0, g0, m0, cs0|].
  intros x y Hx Hstep (l & g & m & cs & Hi).
  destruct (sstep_keeps _ _ _ _ _ _ Hi Hstep) as (l' & g' & m' & cs' & Hi' & _).
  by exists l', g', m', cs'.
Qed.

(** After a successful fsync only the present is left. *)
Lemma synced_moments x l g m cs l' :
  inv x l g m cs -> syncLocked true l = (l', None) ->
  let y := mkSys (clockOf x) (SetJournal l' (sstore x)) (tasks x) in
  inv y l' g m cs /\ moments y y l' g cs.
Proof.
  intros Hinv Hs. destruct x as [t s us]. cbv zeta. cbn [clockOf sstore tasks].
  pose proof (syncLocked_forces _ _ _ (in_ok _ _ _ _ _ Hinv) Hs) as Hd.
  pose proof (inv_sync _ _ _ _ _ _ _ Hinv true) as Hi. pose proof (syncLocked_latched true l) as Hlat.
  rewrite Hs in Hi, Hlat. cbn [fst snd] in Hi, Hlat.
  split; [done|]. intros n Hn. rewrite Hd in Hn. cbn [synced] in Hn.
  rewrite (in_recs _ _ _ _ _ Hi), complete_all, length_fmap in Hn.
  assert (n = length cs) as -> by lia. eexists _, m. split_and!; [done|done|by eapply in_store|].
  rewrite firstn_all. exact (proj1 (in_healthy _ _ _ _ _ Hi (proj1 Hlat))).
Qed.

(** ** Crashes *)

(** A server that has been brought up on its log. *)
Definition started (x : sys) : Prop :=
  exists s m cs l g, x = mkSys (clockOf x) (store s) [] /\ Millisecond <= clockOf x /\
    journalled (clockOf x) s m cs l g /\ rewriting l.2 = false.

Lemma started_inv x : started x -> exists l g m cs, inv x l g m cs.
Proof.
  intros (s & m & cs & l & g & Hx & Ht & [Hr Hl Hok Hrecs Hrec] & Hrw). rewrite Hx.
  exists l, g, m, cs. split; try done.
  - by rewrite Hrw.
  - intros fd snap Hin. by apply elem_of_nil in Hin.
  - intros _. split; [done|]. intros u Hin. by apply elem_of_nil in Hin.
Qed.

Lemma complete_length recs k : (complete recs k <= length recs)%nat.
Proof.
  revert k. induction recs as [|r recs IH]; intros k; cbn [complete length]; [lia|].
  case_decide; [|lia]. specialize (IH (k - length (encodeCommand r))%nat). lia.
Qed.

Lemma restart_clock_le t t' envs : t <= t' -> restart_clock t' envs -> restart_clock t envs.
Proof. intros Ht [H0 Hn]. split; [lia|done]. Qed.

(** What a crash of a running server leaves, when an fsync has succeeded in [x1]: the
    log of [cs], cut, whose complete records recover the keyspace of a moment [x']. *)
Lemma crash_leaves (x0 x1 x : sys) (l1 l2 l : logState) (cut : nat) :
  started x0 -> rtc sstep x0 x1 ->
  logOf x1 = Some l1 -> syncLocked true l1 = (l2, None) ->
  let x2 := mkSys (clockOf x1) (SetJournal l2 (sstore x1)) (tasks x1) in
  rtc sstep x2 x -> logOf x = Some l -> (synced (disk l.1) <= cut)%nat ->
  exists cs k x' m',
    rtc sstep x2 x' /\ rtc sstep x' x /\
    content (disk l.1) `prefix_of` enc (wire <$> cs) /\
    (Err l = None -> content (disk l.1) ++ wbuf (bw l.2) = enc (wire <$> cs)) /\
    (k <= length (enc (wire <$> cs)))%nat /\
    content (disk (crashed cut l.1)) = take k (enc (wire <$> cs)) /\
    Millisecond <= clockOf x' <= clockOf x /\
    refines (clockOf x') (sstore x') m' /\
    recovers (clockOf x') m' (take (complete (wire <$> cs) k) cs).
Proof.
  intros Hst H01 Hl1 Hs x2 H2 Hl Hcut.
  destruct (started_inv x0 Hst) as (l0 & g0 & m0 & cs0 & Hi0).
  destruct (ssteps_inv _ _ _ _ _ _ Hi0 H01) as (l1' & g1 & m1 & cs1 & Hi1).
  rewrite (in_log _ _ _ _ _ Hi1) in Hl1. injection Hl1 as ->.
  destruct (synced_moments _ _ _ _ _ _ Hi1 Hs) as [Hi2 Hm2]. fold x2 in Hi2, Hm2.
  destruct (ssteps_moments _ _ _ _ _ _ Hi2 Hm2 H2) as (l' & g & m & cs & Hi & Hm).
  rewrite (in_log _ _ _ _ _ Hi) in Hl. injection Hl as ->. pose proof (in_ok _ _ _ _ _ Hi) as Hok.
  pose proof (in_recs _ _ _ _ _ Hi) as Hrecs.
  destruct (crashed_prefix l g cut Hok Hcut) as (k & Hk & Hc).
  unfold moments in Hm. rewrite Hrecs in Hm, Hk, Hc.
  destruct (Hm (complete (wire <$> cs) k)) as (x' & m' & H2x & Hxx & Hr & Hrec).
  { pose proof (complete_le (wire <$> cs) _ _ (proj1 Hk)).
    pose proof (complete_length (wire <$> cs) k) as Hle. rewrite length_fmap in Hle. lia. }
  pose proof (ssteps_clock _ _ Hxx). pose proof (ssteps_clock _ _ H2x) as Hle.
  cbn [x2 clockOf] in Hle. pose proof (in_time _ _ _ _ _ Hi1).
  exists cs, k, x', m'. split_and!; try done; try lia.
  - rewrite <- Hrecs. apply (ok_prefix _ _ Hok).
  - intros He. rewrite <- Hrecs. by apply (ok_good _ _ Hok).
Qed.

(** A crash never mixes moments, and takes back nothing that was synced, rewrites
    included.  Take any run of a journalled server, clients, evictions, the sync timer
    and background rewrites interleaved at will and system calls failing; let an fsync of
    the log succeed in it, let the run go on, and crash, keeping any part of what was
    not synced.  The log then holds complete records of the changes [cs], perhaps with
    a torn tail, and there is one moment [x'] of the run, not before the fsync, whose
    keyspace they recover: if they can be read again ([recordable], [sendable]), [Replay]
    succeeds, cuts the log back to them, and the restarted server shows what [x'] showed, as
    far as [shows] says. *)
Theorem crash_restores_a_moment (lib : Lib) (x0 x1 x : sys) (l1 l2 l : logState) (cut : nat) :
  started x0 -> rtc sstep x0 x1 ->
  logOf x1 = Some l1 -> syncLocked true l1 = (l2, None) ->
  let x2 := mkSys (clockOf x1) (SetJournal l2 (sstore x1)) (tasks x1) in
  rtc sstep x2 x -> logOf x = Some l -> (synced (disk l.1) <= cut)%nat ->
  exists cs n x', rtc sstep x2 x' /\ rtc sstep x' x /\
    content (disk l.1) `prefix_of` enc (wire <$> cs) /\
    (Err l = None -> content (disk l.1) ++ wbuf (bw l.2) = enc (wire <$> cs)) /\
    (Forall recordable (take n cs) -> Forall sendable (wire <$> cs) ->
     forall envs src, reads src (crashed cut l.1) -> restart_clock (clockOf x) envs ->
     exists o' s' res,
       Replay (replayer lib envs) src (crashed cut l.1) (NewServer, 0%nat) =
         (o', (s', length (take n cs)), res, None) /\
       clean o' (wire <$> take n cs) /\
       shows s' (sstore x') (take n cs) (Now (envs (length (take n cs))) 0)).
Proof.
  intros Hst H01 Hl1 Hs x2 H2 Hl Hcut.
  destruct (crash_leaves x0 x1 x l1 l2 l cut Hst H01 Hl1 Hs H2 Hl Hcut)
    as (cs & k & x' & m' & H2x & Hxx & Hp & He & Hk & Hc & Ht & Hr & Hrec).
  exists cs, (complete (wire <$> cs) k), x'. split_and!; [done..|].
  intros Hrc Hsd envs src Hrd Hclk.
  destruct (replay_recovers_cut lib (clockOf x') (sstore x') m' cs k _ NewServer
    ltac:(unfold zeroTime, Second, Millisecond in *; lia) Hr eq_refl Hk eq_refl Hrec Hrc Hsd
    envs src (crashed cut l.1) eq_refl (Nat.lt_0_1) (le_n _) Hc Hrd)
    as (o' & s' & res & m1 & Hrep & Hcl & _ & Hs' & _).
  { eapply restart_clock_le; [|done]. lia. }
  by exists o', s', res.
Qed.

(** ** A run with a rewrite *)

(** [k] is set and synced; a rewrite reads the keyspace; [j] is set; the rewrite installs
    its file. *)
Definition set_1 : event := Called (OpSet (bs "k") (bs "v")).
Definition set_2 : event := Called (OpSet (bs "j") (bs "w")).

Definition logIn (s : Store logState) : logState := default healthy (journal s).

Definition stage1 : Store logState := happen set_1 (store attached).
Definition stage2 : Store logState := SetJournal (syncLocked true (logIn stage1)).1 stage1.
Definition stage3 : Store logState := SetJournal (BeginRewrite (logIn stage2)).1 stage2.
Definition allKeys (s : Store logState) (i : nat) : list bytes := keysOf (data (readShards s !!! i)).
Definition snap3 : list record := AOFSnapshot Second (allKeys stage3) stage3.
Definition stage4 : Store logState := happen set_2 stage3.
Definition written4 : OS * (nat + error) := writeSnapshot snap3 (logIn stage4).1.
Definition stage5 : Store logState := SetJournal (written4.1, (logIn stage4).2) stage4.
Definition stage6 : Store logState := SetJournal (installRewrite 1 (logIn stage5)).1 stage5.

Lemma run_to_stage6 : rtc sstep (mkSys Second stage2 []) (mkSys Second stage6 []).
Proof.
  eapply rtc_l; [apply (S_begin Second stage2 [] (logIn stage2) (BeginRewrite (logIn stage2)).1);
    vm_compute; reflexivity|].
  fold stage3. eapply rtc_l; [apply S_task, (S_moment Second stage3 [Begun] 0 Second); [done|lia]|].
  cbn [list_insert insert]. etransitivity; [apply (scan_AOFSnapshot Second stage3 Second (allKeys stage3))|].
  { intros i sh Hsh. unfold allKeys. by rewrite (list_lookup_total_correct _ _ _ Hsh). }
  fold snap3. eapply rtc_l; [apply (S_event Second stage3 _ set_2); [repeat constructor|done]|].
  change (eventEnd Second set_2) with Second. fold stage4.
  eapply rtc_l; [apply S_task, (S_write Second stage4 [Scanning Second (length (readShards stage4)) snap3] 0 Second
    snap3 (logIn stage4).1 (logIn stage4).2 written4.1 (inl 1%nat))|].
  - done.
  - vm_compute. reflexivity.
  - vm_compute. reflexivity.
  - fold stage5. eapply rtc_l; [apply S_task, (S_install Second stage5 [Written 1 snap3] 0 1 snap3 (logIn stage5))|].
    + done.
    + vm_compute. reflexivity.
    + apply rtc_refl.
Qed.

Lemma crash_restores_a_moment_witness :
  let f := disk (logIn stage6).1 in
  content f = enc [setRecord (bs "k") (bs "v") zeroTime; setRecord (bs "j") (bs "w") zeroTime] /\
  exists cs x', rtc sstep (mkSys Second stage2 []) x' /\ rtc sstep x' (mkSys Second stage6 []) /\
    content f ++ wbuf (bw (logIn stage6).2) = enc (wire <$> cs).
Proof.
  split; [vm_compute; reflexivity|].
  destruct (crash_restores_a_moment ascii_lib (mkSys Second (store attached) []) (mkSys Second stage1 [])
    (mkSys Second stage6 []) (logIn stage1) (syncLocked true (logIn stage1)).1 (logIn stage6)
    (length (content (disk (logIn stage6).1)))) as (cs & n & x' & H1 & H2 & _ & H3 & _).
  - exists attached, ∅, [], healthy, (mkGhost [] [] None).
    split_and!; [done|simpl; unfold Second, Millisecond; lia|apply attached_ok|done].
  - apply rtc_once. apply (S_event Second (store attached) [] set_1); [repeat constructor|done].
  - vm_compute. reflexivity.
  - vm_compute. reflexivity.
  - exact run_to_stage6.
  - vm_compute. reflexivity.
  - apply Nat.leb_le. vm_compute. reflexivity.
  - exists cs, x'. split_and!; [exact H1|exact H2|]. apply H3. vm_compute. reflexivity.
Defined.

(** Replaying the rewritten log gives both keys. *)
Example rewritten_log_replays :
  let f := content (disk (logIn stage6).1) in
  let '(_, (s', n), _, e) :=
    Replay (replayer ascii_lib (frozen (5 * Second))) (whole f) (disk_with f) (NewServer, 0%nat) in
  n = 2%nat /\ e = None /\ see (5 * Second) (store s') (bs "k") = Some (bs "v", zeroTime) /\
  see (5 * Second) (store s') (bs "j") = Some (bs "w", zeroTime).
Proof. vm_compute. split_and!; reflexivity. Qed.
