(* ===== verification/Process.v ===== *)
(** * cmd/redisclone: the life of the process

    [boot] is [main] up to the call of [Serve]: the settings are read, the log is replayed
    and opened, and only then attached; [exit] is what [main] does to the log once [Serve]
    has returned and nobody is left.  The flags are given parsed, the listener is there or not; the log's
    path is the one name of the file system of AofLog.v.

    The theorems follow the data through a run, a crash and the boot of the next process,
    which is again a server the other theorems apply to; Shutdown.v is about processes that
    end. *)

From stdpp Require Import base gmap list strings sorting relations.
From Stdlib Require Import ZArith Lia.
From Stdlib Require Import Strings.Byte.
From S2P Require Import Prelude.
From S2P Require Import GoStrconv.
From S2P Require Import RespWriter.
From S2P Require Import RespReader.
From S2P Require Import Bufio.
From S2P Require Import GoTime.
From S2P Require Import Store.
From S2P Require Import StoreInv.
From S2P Require Import Evict.
From S2P Require Import StoreSpec.
From S2P Require Import Settings.
From S2P Require Import BufWriter.
From S2P Require Import AofLog.
From S2P Require Import AofInv.
From S2P Require Import Replay.
From S2P Require Import Commands.
From S2P Require Import Journalling.
From S2P Require Import Recovery.
From S2P Require Import Restart.
From S2P Require Import Durability.
From S2P Require Import Rewrite.
From S2P Require Import Serve.

#[local] Open Scope Z_scope.

(** ** Starting *)

Record Flags : Type := mkFlags {
  appendOnly : bool;
  appendFsync : bytes;
  appendFilename : bytes;
  dir : bytes;
  maxMemoryFlag : bytes;
  maxMemoryPolicyFlag : bytes
}.

(** The reasons [main] gives to [Fatalf]. *)
Inductive fatal : Type :=
| FatalListen (e : error)
| FatalMaxMemory (e : MemoryError)
| FatalMaxMemoryPolicy
| FatalAppendFsync (e : error)
| FatalReplay (e : error)
| FatalOpen (e : error).

Section Boot.
Context (lib : Lib) (envs : nat -> Env).

(** [ReplayAOF] on the server [srv]. *)
Definition ReplayAOF (src : source) (o : OS) (srv : Server) : OS * Server * Result * option error :=
  let '(o1, (srv1, _), res, e) := Replay (replayer lib envs) src o (srv, 0%nat) in (o1, srv1, res, e).

(** The part of [main] between the settings and the background tasks. *)
Definition openLog (fl : Flags) (src : source) (o : OS) (srv : Server) : OS * (Server + fatal) :=
  match ParsePolicy (appendFsync fl) with
  | inr e => (o, inr (FatalAppendFsync e))
  | inl p =>
      let '(o1, srv1, res, e) := ReplayAOF src o srv in
      match e with
      | Some e => (o1, inr (FatalReplay e))
      | None =>
          let '(o2, l) := Open p o1 in
          match l with
          | inr e => (o2, inr (FatalOpen e))
          | inl l => (o2, inl (AttachAOF (o2, l) srv1))
          end
      end
  end.

(** [listen] is the error of [net.Listen], if any. *)
Definition boot (fl : Flags) (listen : option error) (src : source) (o : OS) : OS * (Server + fatal) :=
  match listen with
  | Some e => (o, inr (FatalListen e))
  | None =>
      let srv := Configure (mkConfig (appendOnly fl) (appendFsync fl) (appendFilename fl) (dir fl)) NewServer in
      match ParseMemory (unicodeToLower lib) (unicodeTrimSpace lib) (maxMemoryFlag fl) with
      | inr e => (o, inr (FatalMaxMemory e))
      | inl max =>
          match ParseEvictionPolicy (unicodeToLower lib) (maxMemoryPolicyFlag fl) with
          | None => (o, inr FatalMaxMemoryPolicy)
          | Some p =>
              let srv := setStore (SetMemoryLimit max p (store srv)) srv in
              if appendOnly fl then openLog fl src o srv else (o, inl srv)
          end
      end
  end.
End Boot.

(** ** Ending *)

(** After [Serve]: an error ends the process at once; otherwise [main] drains, waits for
    a rewrite, and its deferred calls close the log. *)
Definition exit (served : option acceptError) (log : option logState) : option logState * option error :=
  match served, log with
  | None, Some l => let '(l', e) := Close l in (Some l', e)
  | _, _ => (log, None)
  end.

(** ** Booting on a log *)

Section Lifecycle.
Context (lib : Lib).

(** The flags are valid and ask for a log. *)
Definition accepts (fl : Flags) (max : Z) (p : bytes) (fsync : Policy) : Prop :=
  appendOnly fl = true /\
  ParseMemory (unicodeToLower lib) (unicodeTrimSpace lib) (maxMemoryFlag fl) = inl max /\
  ParseEvictionPolicy (unicodeToLower lib) (maxMemoryPolicyFlag fl) = Some p /\
  ParsePolicy (appendFsync fl) = inl fsync.

(** A process that came up on a log of [cs]: it has its settings, its log is attached
    and holds [cs], and at [T] it is a server like the ones that runs start from. *)
Definition up (fl : Flags) (max : Z) (p : bytes) (fsync : Policy) (T : Time) (cs : list change)
    (o : OS) (s : Server) : Prop :=
  started (mkSys T (store s) []) /\
  maxMemory (store s) = max /\ policy (store s) = p /\ AppendFsync (config s) = appendFsync fl /\
  exists l, aof s = Some (o, l) /\ logPolicy l = fsync /\ content (disk o) = enc (wire <$> cs).

Lemma boot_accepts envs fl max p fsync src o :
  accepts fl max p fsync ->
  boot lib envs fl None src o =
    openLog lib envs fl src o
      (setStore (SetMemoryLimit max p New)
         (Configure (mkConfig true (appendFsync fl) (appendFilename fl) (dir fl)) NewServer)).
Proof. intros (Ha & Hm & Hp & _). unfold boot. by rewrite Ha, Hm, Hp. Qed.

Lemma settle_wire cs : Forall recordable cs -> wire <$> (settle <$> cs) = wire <$> cs.
Proof.
  induction 1 as [|c cs Hc _ IH]; [done|]. rewrite !fmap_cons, IH. f_equal.
  by apply wire_settle, recordable_dated.
Qed.

(** Booting on a log whose complete records recover the keyspace of a store. *)
Lemma boot_recovers {J} t (s : Store J) m cs cut n fl max p fsync :
  Millisecond <= t -> refines t s m -> accepts fl max p fsync ->
  (cut <= length (enc (wire <$> cs)))%nat -> n = complete (wire <$> cs) cut ->
  recovers t m (take n cs) -> Forall recordable (take n cs) -> Forall sendable (wire <$> cs) ->
  forall (envs : nat -> Env) (src : source) (o : OS),
    calm o -> valid (linked o) o -> (synced (disk o) <= length (content (disk o)))%nat ->
    content (disk o) = take cut (enc (wire <$> cs)) -> reads src o -> restart_clock t envs ->
    let T := Now (envs (length (take n cs))) 0 in
    exists o' s', boot lib envs fl None src o = (o', inl s') /\
      up fl max p fsync T (take n cs) o' s' /\ shows s' s (take n cs) T.
Proof.
  intros Ht Hr Hacc Hcut Hn Hrec Hrc Hsd envs src o Hcalm Hv Hsy Hct Hrd Hclk T.
  rewrite (boot_accepts _ _ _ _ _ _ _ Hacc). set (srv := setStore _ _).
  destruct (replay_recovers_cut lib t s m cs cut n srv
    ltac:(unfold zeroTime, Second, Millisecond in *; lia) Hr eq_refl Hcut Hn Hrec Hrc Hsd
    envs src o Hcalm Hv Hsy Hct Hrd Hclk)
    as (o1 & s1 & res & m1 & Hrep & Hcl & Hcalm1 & Hsh & [Hb1 (Hb2 & Hb3 & Hb4)] & Hr1 & Hre).
  fold T in Hsh, Hr1, Hre. unfold openLog, ReplayAOF.
  destruct Hacc as (_ & _ & _ & Hfs). rewrite Hfs, Hrep.
  unfold Open. rewrite sys_call_calm by done.
  set (l := mkLog _ _ _ _ _ _). exists o1, (AttachAOF (o1, l) s1).
  assert (log_ok (o1, l) (mkGhost (wire <$> take n cs) [] None)) as Hok.
  { apply (Open_ok fsync o1); [done|]. unfold Open. by rewrite sys_call_calm. }
  assert (t <= T) as HtT by (by eapply restart_clock_from).
  split; [done|]. split; [split; [|split_and!]|done].
  - exists (AttachAOF (o1, l) s1), m1, (settle <$> take n cs), (o1, l), (mkGhost (wire <$> take n cs) [] None).
    split; [done|]. cbn [clockOf]. split; [lia|]. split; [|done]. split; try done.
    + by eapply refines_ext; [|exact Hr1].
    + by rewrite settle_wire.
    + apply (redone_recovers t); [done| |done]. eapply Forall_impl; [exact Hrc|]. apply recordable_dated.
  - done.
  - done.
  - simpl. by rewrite Hb1.
  - exists l. split_and!; [done|done|]. apply Hcl.
Qed.
End Lifecycle.

(** C5. A server's life goes on after a crash, through any number of them: take any run of a
    server, background rewrites included, an fsync that succeeded in it, and a crash
    later, which keeps any part of what was not synced.  The complete records the crash
    left are those of one moment of the run, not before the fsync.  If the records can be
    read again, which asks that they fit the protocol's limits and that their deadlines
    are in the range [applyLogged] reads back, the next process, started with
    valid flags, comes up with its settings; its log holds those records, and it is a
    server this theorem applies to again.  It shows the keyspace of that moment, its
    deadlines cut to the millisecond, except for the keys that have been given, since they
    were last written or deleted, a deadline that has passed: those it may have lost, even
    where a later deadline had replaced the one that has passed. *)
Theorem boot_after_crash (lib : Lib) (x0 x1 x : sys) (l1 l2 l : logState) (cut : nat)
    (fl : Flags) (max : Z) (p : bytes) (fsync : Policy) :
  started x0 -> rtc sstep x0 x1 ->
  logOf x1 = Some l1 -> syncLocked true l1 = (l2, None) ->
  let x2 := mkSys (clockOf x1) (SetJournal l2 (sstore x1)) (tasks x1) in
  rtc sstep x2 x -> logOf x = Some l -> (synced (disk l.1) <= cut)%nat ->
  accepts lib fl max p fsync ->
  exists cs n x', rtc sstep x2 x' /\ rtc sstep x' x /\
    content (disk l.1) `prefix_of` enc (wire <$> cs) /\
    (Err l = None -> content (disk l.1) ++ wbuf (bw l.2) = enc (wire <$> cs)) /\
    content (disk (crashed cut l.1)) `prefix_of` enc (wire <$> cs) /\
    n = complete (wire <$> cs) (length (content (disk (crashed cut l.1)))) /\
    (Forall recordable (take n cs) -> Forall sendable (wire <$> cs) ->
     forall envs src, reads src (crashed cut l.1) -> restart_clock (clockOf x) envs ->
     let T := Now (envs (length (take n cs))) 0 in
     exists o' s', boot lib envs fl None src (crashed cut l.1) = (o', inl s') /\
       up fl max p fsync T (take n cs) o' s' /\ shows s' (sstore x') (take n cs) T).
Proof.
  intros Hst H01 Hl1 Hs x2 H2 Hl Hcut Hacc.
  destruct (crash_leaves x0 x1 x l1 l2 l cut Hst H01 Hl1 Hs H2 Hl Hcut)
    as (cs & k & x' & m' & H2x & Hxx & Hp & He & Hk & Hc & Ht & Hr & Hrec).
  assert (length (content (disk (crashed cut l.1))) = k) as Hlen by (rewrite Hc, length_take; lia).
  exists cs, (complete (wire <$> cs) k), x'. rewrite Hlen. split_and!; [done..| |done|].
  { rewrite Hc. apply prefix_take. }
  intros Hrc Hsd envs src Hrd Hclk.
  apply (boot_recovers lib (clockOf x') (sstore x') m' cs k); try done; [lia|apply Nat.lt_0_1|].
  eapply restart_clock_le; [|done]. lia.
Qed.

(** ** Processes that do not come up *)

Lemma disk_sys o : disk (sys_call o).1 = disk o.
Proof. destruct (sys_call_files o) as [Hi Hl]. unfold disk, fileAt. by rewrite Hi, Hl. Qed.

Lemma valid_sys o : valid (linked o) o -> valid (linked (sys_call o).1) (sys_call o).1.
Proof. destruct (sys_call_files o) as [Hi Hl]. unfold valid. by rewrite Hi, Hl. Qed.

Lemma truncate_disk n o :
  valid (linked o) o ->
  let '(o', e) := truncate n o in
  content (disk o') `prefix_of` content (disk o) /\ (e <> None -> disk o' = disk o).
Proof.
  intros Hv. unfold truncate. destruct (nextFault_files o) as [Hi Hl].
  destruct (nextFault o) as [o1 [[k e]|]]; cbn [fst] in *.
  - unfold disk, fileAt. rewrite Hi, Hl. done.
  - split; [|done]. assert (disk o1 = disk o) as Hd by (unfold disk, fileAt; by rewrite Hi, Hl).
    assert (valid (linked o1) o1) as Hv1 by (unfold valid in *; by rewrite Hi, Hl).
    unfold disk at 1. cbn [linked setFile]. rewrite fileAt_setFile, decide_True by done.
    cbn [content]. rewrite Hd. apply prefix_take.
Qed.

(** [Replay] only ever cuts the log, and leaves it alone when it reports an error. *)
Lemma Replay_disk {S} (apply : list bytes -> S -> S * option error) src o s :
  valid (linked o) o ->
  let '(o', _, _, e) := Replay apply src o s in
  content (disk o') `prefix_of` content (disk o) /\ (e <> None -> disk o' = disk o).
Proof.
  intros Hv. unfold Replay. pose proof (disk_sys o) as Hd1. apply valid_sys in Hv.
  destruct (sys_call o) as [o1 e1]. cbn [fst] in *. rewrite <- Hd1.
  destruct e1 as [e|]; [by case_decide|].
  destruct (replayLoop _ _ _ _ _) as [[s' res] []]; try (by rewrite disk_sys); [|done|done].
  pose proof (disk_sys o1) as Hd2. apply valid_sys in Hv. destruct (sys_call o1) as [o2 e2]. cbn [fst] in *.
  rewrite <- Hd2. destruct e2 as [e|]; [by rewrite disk_sys|].
  pose proof (disk_sys o2) as Hd3. apply valid_sys in Hv. destruct (sys_call o2) as [o3 e3]. cbn [fst] in *.
  rewrite <- Hd3. destruct e3 as [e|]; [by rewrite disk_sys|].
  pose proof (truncate_disk (Bytes (mkResult (Commands res) (Bytes res) (lenZ (content (disk o2)) - Bytes res))) o3 Hv) as Ht.
  destruct (truncate _ o3) as [o4 e4]. rewrite disk_sys. destruct Ht as [Hp He].
  split; [done|]. intros Hne. apply He. by destruct e4.
Qed.

(** C33. A process that comes up with a log has rebuilt its keyspace from it, and one that
    refuses to start has not touched it.  Whatever the flags, the file holds and the
    system calls do, [boot] leaves a prefix of the log at the path, and the log itself if it
    stops before opening it.  A process that comes up has its settings; with [appendOnly],
    [Replay] has accepted the log without an error, the keyspace is the one that
    its callback left, and the log has been opened after that, with the policy
    of the flags, and attached to it; without, nothing was read or written. *)
Theorem boot_keeps_log (lib : Lib) (envs : nat -> Env) (fl : Flags) (listen : option error)
    (src : source) (o : OS) :
  valid (linked o) o ->
  let '(o', r) := boot lib envs fl listen src o in
  content (disk o') `prefix_of` content (disk o) /\
  match r with
  | inr (FatalOpen _) => True
  | inr _ => disk o' = disk o
  | inl s =>
      exists max p,
        ParseMemory (unicodeToLower lib) (unicodeTrimSpace lib) (maxMemoryFlag fl) = inl max /\
        ParseEvictionPolicy (unicodeToLower lib) (maxMemoryPolicyFlag fl) = Some p /\
        let srv := setStore (SetMemoryLimit max p New)
          (Configure (mkConfig (appendOnly fl) (appendFsync fl) (appendFilename fl) (dir fl)) NewServer) in
        if appendOnly fl then
          exists pol o1 st n res l,
            ParsePolicy (appendFsync fl) = inl pol /\
            Replay (replayer lib envs) src o (srv, 0%nat) = (o1, (st, n), res, None) /\
            Open pol o1 = (o', inl l) /\ s = AttachAOF (o', l) st
        else s = srv /\ o' = o
  end.
Proof.
  intros Hv. unfold boot. destruct listen as [e|]; [done|].
  destruct (ParseMemory _ _ _) as [max|e]; [|done].
  destruct (ParseEvictionPolicy _ _) as [p|]; [|done].
  destruct (appendOnly fl) eqn:Ha; [|split; [done|by exists max, p]]. unfold openLog.
  destruct (ParsePolicy _) as [pol|e]; [|done]. unfold ReplayAOF.
  set (srv := setStore _ _).
  pose proof (Replay_disk (replayer lib envs) src o (srv, 0%nat) Hv) as H.
  destruct (Replay _ src o _) as [[[o1 [s1 k]] res] [e|]] eqn:Hrep; destruct H as [Hp He].
  - split; [done|]. by apply He.
  - pose proof (disk_sys o1) as Hd. destruct (Open pol o1) as [o2 [l|e]] eqn:Ho;
      assert (disk o2 = disk o1) as -> by
        (revert Ho; unfold Open; destruct (sys_call o1) as [o3 [e'|]]; by intros [= <- _]);
      (split; [done|]); [|done].
    exists max, p. split; [done|]. split; [done|]. by exists pol, o1, s1, k, res, l.
Qed.

(** ** An accept failure *)

(** An orderly end that reports no error has written everything. *)
Lemma exit_writes l g lc :
  log_ok l g -> exit None (Some l) = (Some lc, None) -> content (disk lc.1) = enc (recs g).
Proof.
  intros Hok. unfold exit, Close. destruct (syncLocked true l) as [[o1 l1] e] eqn:Hs.
  pose proof (disk_sys o1) as Hd. destruct (sys_call o1) as [o2 ce]. cbn [fst] in Hd. intros [= <- He].
  destruct e as [e|]; [done|]. cbn [fst]. rewrite Hd. exact (syncLocked_flushes true l (o1, l1) g Hok Hs).
Qed.

(** C38. An error of [Serve] loses acknowledged writes.  Take a server with a healthy log whose
    policy is not [always], and any write command that is not refused, whose records fit
    in what the log's buffer has left.  The command is applied, answered and
    journalled; but its records are in the buffer only, and when [Serve] returns an error, as
    it does on any failure of [Accept] that is neither a timeout nor the closed listener,
    [Fatalf] ends the process without the deferred [Close]: the file is what it was before
    the command, so that nothing of it can be replayed, although no machine crashed.  An
    orderly end would have written it. *)
Theorem serve_error_loses_write (lib : Lib) (env : Env) (t : Time) (a0 : bytes) (rest : list bytes)
    (c : command (W := bytes)) (s s' : Server) (w w' : bytes) (m : kv) (cs : list change)
    (l : logState) (g : ghost) :
  (forall i, Now env i <= Now env (S i)) -> Millisecond <= t <= Now env 0 ->
  assoc (ToUpper lib a0) (commands lib env) = Some c -> arityOk c rest = true -> isWrite c = true ->
  journalled t s m cs l g -> Err l = None -> logPolicy l.2 <> PolicyAlways ->
  (exists st n, EnforceMemoryLimit (poolRange env) (store s) = Some (st, n, true)) ->
  dispatch lib env (a0 :: rest) (s, w) = ((s', w'), Ret tt) ->
  exists t' m' cs' g' l', aof s' = Some l' /\
    (Err l' = None -> journalled t' s' m' (cs ++ cs') l' g') /\
    ((length (wbuf (bw l.2)) + length (enc (wire <$> cs')) <= writerBufSize)%nat ->
     Err l' = None /\
     (forall e err, afterAccept e = Some (Some err) ->
        exit (Some err) (aof s') = (Some l', None) /\ disk l'.1 = disk l.1 /\
        content (disk l'.1) `prefix_of` enc (wire <$> cs)) /\
     (forall lc, exit None (aof s') = (Some lc, None) ->
        content (disk lc.1) = enc (wire <$> (cs ++ cs')))).
Proof.
  intros Hclk Ht Hc Ha Hw Hjo He Hpol Hen Hd. pose proof (jo_log _ _ _ _ _ _ Hjo) as Hl.
  pose proof (jo_ok _ _ _ _ _ _ Hjo) as Hok.
  assert (aofErr s = None) as Herr by (unfold aofErr; by rewrite Hl).
  destruct (dispatch_history lib env t a0 rest c s s' w w' Hclk (proj2 Ht) Hc Ha Hw Herr Hen Hd)
    as (es & s1 & Hes & Hs1 & ->).
  destruct (history_journalled t s es m cs l g s1 (proj1 Ht) Hes Hjo Hs1) as (cs' & m' & Hj1 & Hjo1).
  set (l1 := arrivals (wire <$> cs') l) in *. set (g1 := mkGhost _ _ _) in *.
  assert (syncAof s1 = setStore (SetJournal l1 (store s1)) s1) as ->.
  { unfold syncAof. rewrite Hj1. unfold SyncIfAlways. rewrite bool_decide_false; [done|].
    unfold l1. by rewrite arrivals_policy. }
  exists (finish t es), m', cs', g1, l1. split; [done|]. split.
  { intros He1. eapply journalled_journal; [by apply Hjo1|by eapply jo_ok, Hjo1|done]. }
  intros Hfit. destruct (arrivals_buffered (wire <$> cs') l g Hok He Hfit) as [Ho He1]. fold l1 in Ho, He1.
  split; [exact He1|]. split.
  - intros e err _. split_and!; [done|by rewrite Ho|]. rewrite Ho, <- (jo_recs _ _ _ _ _ _ Hjo).
    apply (ok_prefix _ _ Hok).
  - intros lc Hx. exact (exit_writes l1 g1 lc (jo_ok _ _ _ _ _ _ (Hjo1 He1)) Hx).
Qed.

(** ** Witnesses *)

Definition flags : Flags :=
  mkFlags true (bs "always") (bs "appendonly.aof") (bs ".") (bs "64mb") (bs "allkeys-lru").

Lemma flags_accepted : accepts ascii_lib flags 67108864 PolicyAllKeysLRU PolicyAlways.
Proof. split_and!; vm_compute; reflexivity. Qed.

Lemma attached_started : started (mkSys Second (store attached) []).
Proof.
  exists attached, ∅, [], healthy, (mkGhost [] [] None).
  split_and!; [done|simpl; unfold Second, Millisecond; lia|apply attached_ok|done].
Qed.

Lemma set_1_happens : rtc sstep (mkSys Second (store attached) []) (mkSys Second stage1 []).
Proof. apply rtc_once. apply (S_event Second (store attached) [] set_1); [repeat constructor|done]. Qed.

Lemma boot_after_crash_witness :
  exists cs x', rtc sstep (mkSys Second stage2 []) x' /\ rtc sstep x' (mkSys Second stage6 []) /\
    content (disk (logIn stage6).1) `prefix_of` enc (wire <$> cs).
Proof.
  destruct (boot_after_crash ascii_lib (mkSys Second (store attached) []) (mkSys Second stage1 [])
    (mkSys Second stage6 []) (logIn stage1) (syncLocked true (logIn stage1)).1 (logIn stage6)
    (length (content (disk (logIn stage6).1))) flags 67108864 PolicyAllKeysLRU PolicyAlways)
    as (cs & n & x' & H1 & H2 & H3 & _).
  - apply attached_started.
  - apply set_1_happens.
  - vm_compute. reflexivity.
  - vm_compute. reflexivity.
  - exact run_to_stage6.
  - vm_compute. reflexivity.
  - apply Nat.leb_le. vm_compute. reflexivity.
  - apply flags_accepted.
  - exists cs, x'. split; [exact H1|]. split; [exact H2|exact H3].
Defined.

Definition damaged : bytes := bs "garbage" ++ crlf.

Lemma boot_keeps_log_witness :
  let '(o', r) := boot ascii_lib (frozen Second) flags None (whole damaged) (disk_with damaged) in
  disk o' = mkFile damaged 9 /\ exists e, r = inr (FatalReplay e).
Proof.
  pose proof (boot_keeps_log ascii_lib (frozen Second) flags None (whole damaged)
    (disk_with damaged) Nat.lt_0_1) as H.
  destruct (boot ascii_lib (frozen Second) flags None (whole damaged) (disk_with damaged))
    as [o' r] eqn:Hb.
  assert (exists e, r = inr (FatalReplay e)) as [e ->].
  { change r with (snd (o', r)). rewrite <- Hb. vm_compute. eexists. reflexivity. }
  destruct H as [_ H]. split; [rewrite H; vm_compute; reflexivity|by exists e].
Defined.

(** SET on a server under [everysec], and an accept that fails for lack of descriptors. *)
Definition everysec_opened : logState := (mkOS [mkFile [] 0] 0 [], fresh_log PolicyEverysec).

Definition everysec : Server := AttachAOF everysec_opened NewServer.

Lemma everysec_opened_ok : log_ok everysec_opened (mkGhost [] [] None).
Proof. split; cbn; try done; unfold valid; simpl; lia. Qed.

Lemma everysec_journalled : journalled Second everysec ∅ [] everysec_opened (mkGhost [] [] None).
Proof.
  split; [|done|apply everysec_opened_ok|done|apply recovers_empty].
  eapply refines_ext; [|apply New_refines]. done.
Qed.

Definition after_set : (Server * bytes) * outcome unit :=
  dispatch ascii_lib (steady Second) set_k (everysec, []).

Definition everysec_left : logState := default everysec_opened (aof after_set.1.1).

Lemma after_set_replies :
  after_set = ((after_set.1.1, encode (VSimple (bs "OK"))), Ret tt) /\
  aof after_set.1.1 = Some everysec_left /\ Err everysec_left = None /\
  length (content (disk everysec_left.1) ++ wbuf (bw everysec_left.2)) = 27%nat.
Proof. vm_compute. split_and!; reflexivity. Qed.

Lemma serve_error_loses_write_witness :
  exit (Some (Errno EMFILE)) (aof after_set.1.1) = (Some everysec_left, None) /\
  content (disk everysec_left.1) = [] /\
  forall lc, exit None (aof after_set.1.1) = (Some lc, None) -> length (content (disk lc.1)) = 27%nat.
Proof.
  destruct after_set_replies as (Hd & Hj & He & Hlen).
  destruct (serve_error_loses_write ascii_lib (steady Second) Second (bs "SET") [bs "k"; bs "v"]
    (mkCommand 2 4 true (set ascii_lib (steady Second))) everysec after_set.1.1 []
    (encode (VSimple (bs "OK"))) ∅ [] everysec_opened (mkGhost [] [] None))
    as (t' & m' & cs' & g' & l' & Hl' & Hjo & H).
  - intros i. simpl. lia.
  - simpl. unfold Second, Millisecond. lia.
  - reflexivity.
  - reflexivity.
  - reflexivity.
  - apply everysec_journalled.
  - reflexivity.
  - discriminate.
  - eexists _, _. vm_compute. reflexivity.
  - exact Hd.
  - rewrite Hj in Hl'. injection Hl' as <-. specialize (Hjo He).
    destruct (ok_good _ _ (jo_ok _ _ _ _ _ _ Hjo) He) as (_ & _ & _ & Hall).
    rewrite Hall, (jo_recs _ _ _ _ _ _ Hjo), app_nil_l in Hlen. rewrite Hlen in H.
    destruct H as (_ & Hx & Hy); [apply Nat.leb_le; vm_compute; reflexivity|].
    destruct (Hx (Errno EMFILE) (Errno EMFILE) eq_refl) as (H1 & H2 & _).
    split; [exact H1|]. split; [by rewrite H2|]. intros lc Hc. by rewrite (Hy lc Hc).
Defined.
