(* ===== verification/Shutdown.v ===== *)
(** * cmd/redisclone: the running process, from [StartBackgroundTasks] to its end

    [proc] puts the goroutines of the process together: the main goroutine in [Serve],
    [Drain], [WaitBackground] and its deferred calls; the goroutine that waits for a
    signal; the two background loops; the handlers of the connections (Serve.v) and the
    rewrites of the log (Rewrite.v), over one store with its log.  [pstep] is one step of
    one of them; what a handler does to the store is any operation or eviction, and it
    does it only while it is in [HandleConn].

    The theorems: a process that a signal has reached can always end without waiting for
    a client, and once it has ended orderly everything its clients wrote is on stable
    storage, because nobody who could write is left when the log is closed. *)

From stdpp Require Import base gmap list strings sorting relations.
From Stdlib Require Import ZArith Lia.
From Stdlib Require Import Strings.Byte.
From S2P Require Import Prelude.
From S2P Require Import RespWriter.
From S2P Require Import RespReader.
From S2P Require Import Bufio.
From S2P Require Import GoTime.
From S2P Require Import Shard.
From S2P Require Import Store.
From S2P Require Import StoreInv.
From S2P Require Import Expire.
From S2P Require Import Evict.
From S2P Require Import StoreSpec.
From S2P Require Import BufWriter.
From S2P Require Import AofLog.
From S2P Require Import AofInv.
From S2P Require Import Replay.
From S2P Require Import Commands.
From S2P Require Import Journalling.
From S2P Require Import Recovery.
From S2P Require Import Restart.
From S2P Require Import Durability.
From S2P Require Import Timers.
From S2P Require Import Rewrite.
From S2P Require Import Serve.
From S2P Require Import Process.

#[local] Open Scope Z_scope.

(** ** The goroutines *)

(** The goroutine of [signal.Notify]: at [<-stop], before [cancel], before [l.Close], and
    at its end. *)
Inductive sigphase : Type := AwaitSignal | GotSignal | SigCancelled | ListenerClosed.

(** [RunActiveExpiration]: in its [select], in a cycle with [rounds] rounds left, returned. *)
Inductive expphase : Type := ExpSelect | ExpCycle (rounds : nat) | ExpReturned.

(** [RunSyncLoop]: in its [select], before the last [Sync], returned. *)
Inductive syncphase : Type := SyncSelect | SyncLast | SyncReturned.

(** What is left of [main]: it is in [Serve], [Drain] or [WaitBackground]; the deferred
    calls are next; the log is closed; the process is over, by [Fatalf] or because [main]
    has returned.  The error is the one of [Close], which nobody looks at. *)
Inductive endphase : Type :=
| Running
| Deferred
| LogClosed (e : option error)
| Over (how : acceptError + option error).

Record proc : Type := mkProc {
  ctxDone : bool;
  signal : sigphase;
  expirer : expphase;
  syncer : option syncphase;
  serverAt : serving;
  ending : endphase;
  system : sys
}.

(** The two [go] statements of [StartBackgroundTasks]. *)
Definition StartBackgroundTasks (log : option logState) : expphase * option syncphase :=
  (ExpSelect, match log with Some _ => Some SyncSelect | None => None end).

(** [main] at its call of [Serve]. *)
Definition startProc (t : Time) (s : Store logState) : proc :=
  let '(e, y) := StartBackgroundTasks (journal s) in
  mkProc false AwaitSignal e y startServing Running (mkSys t s []).

Definition setServer (y : serving) (x : proc) : proc :=
  mkProc (ctxDone x) (signal x) (expirer x) (syncer x) y (ending x) (system x).

Definition setSystem (y : sys) (x : proc) : proc :=
  mkProc (ctxDone x) (signal x) (expirer x) (syncer x) (serverAt x) (ending x) y.

Definition setEnding (p : endphase) (x : proc) : proc :=
  mkProc (ctxDone x) (signal x) (expirer x) (syncer x) (serverAt x) p (system x).

(** [cancel()], which may be called twice. *)
Definition cancel (x : proc) : proc :=
  mkProc true (signal x) (expirer x) (syncer x) (serverAt x) (ending x) (system x).

Definition setSignal (p : sigphase) (x : proc) : proc :=
  mkProc (ctxDone x) p (expirer x) (syncer x) (serverAt x) (ending x) (system x).

Definition setExpirer (p : expphase) (x : proc) : proc :=
  mkProc (ctxDone x) (signal x) p (syncer x) (serverAt x) (ending x) (system x).

Definition setSyncer (p : syncphase) (x : proc) : proc :=
  mkProc (ctxDone x) (signal x) (expirer x) (Some p) (serverAt x) (ending x) (system x).

(** The store with another log. *)
Definition relog (l : logState) (x : sys) : sys :=
  mkSys (clockOf x) (SetJournal l (sstore x)) (tasks x).

(** ** A closed log *)

(** [os.ErrClosed], which every call on a closed file returns. *)
Definition fileClosed : error := ErrorString (bs "file already closed").

(** [syncLocked] after [Close]: its one [Write] and its one [Sync] fail. *)
Definition syncClosed (fsync : bool) (st : logState) : logState :=
  let '(o, l) := st in
  let '((o1, l1), _) :=
    syncLocked fsync (mkOS (inodes o) (linked o) [Some (0%nat, fileClosed); Some (0%nat, fileClosed)], l) in
  (mkOS (inodes o1) (linked o1) (faults o), l1).

(** What the sync loop calls, as far as [main] is. *)
Definition syncIn (p : endphase) (fsync : bool) (st : logState) : logState :=
  match p with
  | LogClosed _ | Over _ => syncClosed fsync st
  | _ => (syncLocked fsync st).1
  end.

(** ** Steps *)

(** [WaitBackground] returns: no rewrite is left. *)
Definition WaitBackground (x : proc) : Prop := tasks (system x) = [].

(** The steps of [main], of the signal's goroutine once the signal is there and of the
    rewrites: none of them waits for a client or a ticker. *)
Inductive ownstep (x : proc) : proc -> Prop :=
| O_cancel : signal x = GotSignal -> ownstep x (setSignal SigCancelled (cancel x))
| O_close : signal x = SigCancelled -> ownstep x (setSignal ListenerClosed x)
| O_refused : signal x = ListenerClosed -> mainAt (serverAt x) = Accepting ->
    ownstep x (setServer (setMain (ServeReturned None) (serverAt x)) x)
| O_main y : mainAt (serverAt x) <> Accepting -> mainAt (serverAt x) <> ServeReturned None ->
    mainstep (serverAt x) y -> ownstep x (setServer y x)
| O_drain y : mainAt (serverAt x) = ServeReturned None -> mainstep (serverAt x) y ->
    ownstep x (setServer y (cancel x))
| O_fatal e : mainAt (serverAt x) = ServeReturned (Some e) -> ownstep x (setEnding (Over (inl e)) x)
| O_task y : taskstep (system x) y -> ownstep x (setSystem y x)
| O_waited : ending x = Running -> mainAt (serverAt x) = Drained -> WaitBackground x ->
    ownstep x (setEnding Deferred x)
| O_closeLog l l' e : ending x = Deferred -> journal (sstore (system x)) = Some l -> Close l = (l', e) ->
    ownstep x (setEnding (LogClosed e) (setSystem (relog l' (system x)) x))
| O_noLog : ending x = Deferred -> journal (sstore (system x)) = None ->
    ownstep x (setEnding (LogClosed None) x)
| O_return e : ending x = LogClosed e -> ownstep x (setEnding (Over (inr e)) x).

(** A connection is in [HandleConn]. *)
Definition handling (x : proc) : Prop := exists c, (c, Handling) ∈ handlers (serverAt x).

(** What handlers do to the store and its log: operations, evictions, the start of a
    rewrite, and [SyncIfAlways]. *)
Inductive clientstep (x : proc) : proc -> Prop :=
| C_event t s us e : handling x -> system x = mkSys t s us ->
    StronglySorted Z.le (t :: eventReadings e) -> eventOk e ->
    clientstep x (setSystem (mkSys (eventEnd t e) (happen e s) us) x)
| C_begin t s us l l' : handling x -> system x = mkSys t s us ->
    journal s = Some l -> BeginRewrite l = (l', None) ->
    clientstep x (setSystem (mkSys t (SetJournal l' s) (us ++ [Begun])) x)
| C_always l : handling x -> journal (sstore (system x)) = Some l ->
    clientstep x (setSystem (relog (SyncIfAlways l).1 (system x)) x).

(** The background loops.  A [select] that finds both the context done and a tick takes
    either. *)
Inductive loopstep (x : proc) : proc -> Prop :=
| E_tick : expirer x = ExpSelect -> loopstep x (setExpirer (ExpCycle activeExpireMaxRounds) x)
| E_round r now range s' n g : expirer x = ExpCycle (S r) -> clockOf (system x) <= now ->
    expireSample activeExpireSampleSize now range (sstore (system x)) = (s', n, g) ->
    loopstep x (setExpirer (if (n =? 0) || (4 * g <? n) then ExpSelect else ExpCycle r)
                 (setSystem (mkSys now s' (tasks (system x))) x))
| E_capped : expirer x = ExpCycle 0 -> loopstep x (setExpirer ExpSelect x)
| E_done : expirer x = ExpSelect -> ctxDone x = true -> loopstep x (setExpirer ExpReturned x)
| Y_tick l : syncer x = Some SyncSelect -> journal (sstore (system x)) = Some l ->
    loopstep x (setSystem (relog (syncIn (ending x) (bool_decide (logPolicy l.2 = PolicyEverysec)) l) (system x)) x)
| Y_done : syncer x = Some SyncSelect -> ctxDone x = true -> loopstep x (setSyncer SyncLast x)
| Y_last l : syncer x = Some SyncLast -> journal (sstore (system x)) = Some l ->
    loopstep x (setSyncer SyncReturned
      (setSystem (relog (syncIn (ending x) (negb (bool_decide (logPolicy l.2 = PolicyNo))) l) (system x)) x)).

Definition alive (x : proc) : Prop := forall how, ending x <> Over how.

(** Nothing happens in a process that is over.  An open listener never returns
    [ErrClosed]. *)
Inductive pstep (x : proc) : proc -> Prop :=
| P_own y : alive x -> ownstep x y -> pstep x y
| P_signal : alive x -> signal x = AwaitSignal -> pstep x (setSignal GotSignal x)
| P_accept y : alive x -> signal x <> ListenerClosed ->
    mainAt (serverAt x) = Accepting -> mainstep (serverAt x) y -> mainAt y <> ServeReturned None ->
    pstep x (setServer y x)
| P_handler i h : alive x -> handlers (serverAt x) !! i = Some h ->
    pstep x (setServer (handlerNext i (serverAt x)) x)
| P_client y : alive x -> clientstep x y -> pstep x y
| P_loop y : alive x -> loopstep x y -> pstep x y.

(** The steps that wait for nobody. *)
Inductive pforced (x : proc) : proc -> Prop :=
| PF_own y : alive x -> ownstep x y -> pforced x y
| PF_handler i c p : alive x -> handlers (serverAt x) !! i = Some (c, p) ->
    (p = Handling -> c ∈ closed (serverAt x)) ->
    pforced x (setServer (handlerNext i (serverAt x)) x).

Lemma pforced_pstep x y : pforced x y -> pstep x y.
Proof. intros [y' Ha Ho|i c p Ha Hi _]; [by apply P_own|by eapply P_handler]. Qed.

(** The state of [main] when it has seen [Serve] off, and the data. *)
Ltac simpl_proc :=
  cbn [ctxDone signal expirer syncer serverAt ending system setServer setSystem setEnding cancel
       setSignal setExpirer setSyncer relog clockOf sstore tasks] in *.

(** ** The log after [Close] *)

Lemma setFile_same fd o : setFile fd (fileAt fd o) o = o.
Proof.
  unfold setFile, fileAt. destruct o as [ino ln fs]. simpl. f_equal.
  destruct (ino !! fd) as [f|] eqn:Hf.
  - apply list_insert_id. by rewrite (list_lookup_total_correct _ _ _ Hf).
  - apply list_insert_ge. by apply lookup_ge_None.
Qed.

Lemma file_Write_refused fd p ino ln e fs :
  file_Write fd p (mkOS ino ln (Some (0%nat, e) :: fs)) = (mkOS ino ln fs, (0%nat, Some e)).
Proof.
  unfold file_Write. cbn [nextFault faults inodes linked]. f_equal.
  pose proof (setFile_same fd (mkOS ino ln fs)) as H. rewrite take_0, app_nil_r.
  by destruct (fileAt fd (mkOS ino ln fs)).
Qed.

(** Nothing reaches the disk any more. *)
Lemma syncClosed_disk f st : disk (syncClosed f st).1 = disk st.1.
Proof.
  destruct st as [o l]. unfold syncClosed, syncLocked.
  destruct (logErr l) as [e|]; [by destruct o|]. unfold bufw_Flush.
  destruct (werr (bw l)) as [e|].
  { destruct (fail _ _). by destruct o. }
  case_decide.
  - destruct f; [|by destruct o]. unfold file_Sync. cbn [nextFault faults inodes linked].
    destruct (fail _ _). by destruct o.
  - cbn [sink_Write OS_sink]. rewrite file_Write_refused. cbv zeta. destruct (fail _ _). by destruct o.
Qed.

Lemma expireSample_silent {J} n now range (s : Store J) : journal (expireSample n now range s).1.1 = journal s.
Proof. unfold expireSample. by destruct (expireShards _ _ _ _ _ _ _) as [[? ?] ?]. Qed.

(** The store and its log when the log is on stable storage as a whole. *)
Definition kept (x : sys) (cs : list change) : Prop :=
  exists l m, logOf x = Some l /\
    disk l.1 = mkFile (enc (wire <$> cs)) (length (enc (wire <$> cs))) /\
    Millisecond <= clockOf x /\ refines (clockOf x) (sstore x) m /\ recovers (clockOf x) m cs.

Lemma kept_sync f l x cs : logOf x = Some l -> kept x cs -> kept (relog (syncClosed f l) x) cs.
Proof.
  intros Hl (l' & m & Hl' & Hd & Ht & Hr & Hrec). rewrite Hl in Hl'. injection Hl' as <-.
  exists (syncClosed f l), m. split_and!; try done; [by rewrite syncClosed_disk|].
  by eapply refines_ext; [|exact Hr].
Qed.

Lemma kept_sample n now range x s' k g cs :
  clockOf x <= now -> 0 <= n -> expireSample n now range (sstore x) = (s', k, g) -> kept x cs ->
  kept (mkSys now s' (tasks x)) cs.
Proof.
  intros Hnow Hn He (l & m & Hl & Hd & Ht & Hr & Hrec).
  pose proof (expireSample_silent n now range (sstore x)) as Hj. rewrite He in Hj. cbn [fst] in Hj.
  destruct (run_step (clockOf x) (OpExpireSample n now range) (sstore x) m) as [_ Hr']; try done.
  { unfold zeroTime, Millisecond, Second in *. lia. }
  { by repeat constructor. }
  cbn [run spec] in Hr'. rewrite He in Hr'. change (lastReading _ _) with now in Hr'.
  exists l, m. split_and!; [by unfold logOf in *; simpl; rewrite Hj|done|simpl; lia|done|].
  by eapply recovers_later.
Qed.

(** A [Close] without an error leaves everything there. *)
Lemma Close_kept x l l' g m cs :
  inv x l g m cs -> Close l = (l', None) -> kept (relog l' x) cs.
Proof.
  intros Hi Hc. unfold Close in Hc. destruct (syncLocked true l) as [[o2 l2] e2] eqn:Hs.
  pose proof (sys_call_files o2) as [Hfi Hfl]. destruct (sys_call o2) as [o3 e3]. cbn [fst] in Hfi, Hfl.
  destruct e2 as [e|]; [done|]. injection Hc as <- ->.
  pose proof (syncLocked_forces _ _ _ (in_ok _ _ _ _ _ Hi) Hs) as Hd.
  assert (logErr l.2 = None) as Hel.
  { destruct l as [o0 ll]. unfold syncLocked in Hs. simpl. by destruct (logErr ll). }
  rewrite (in_recs _ _ _ _ _ Hi) in Hd.
  exists (o3, l2), m. split_and!.
  - done.
  - rewrite <- Hd. unfold disk, fileAt. cbn [fst]. by rewrite Hfi, Hfl.
  - apply (in_time _ _ _ _ _ Hi).
  - eapply refines_ext; [|exact (in_store _ _ _ _ _ Hi)]. done.
  - apply (in_healthy _ _ _ _ _ Hi Hel).
Qed.

(** ** The invariant *)

Record pinv (x0 : sys) (x : proc) : Prop := {
  pi_serving : accounted (serverAt x);
  pi_draining : drains (mainAt (serverAt x)) = true -> signal x = ListenerClosed /\
    (mainAt (serverAt x) <> ServeReturned None -> ctxDone x = true);
  pi_ending : match ending x with
              | Running | Over (inl _) => True
              | _ => mainAt (serverAt x) = Drained /\ tasks (system x) = []
              end;
  pi_system : match ending x with
              | LogClosed (Some _) | Over (inr (Some _)) => True
              | LogClosed None | Over (inr None) => exists cs, kept (system x) cs
              | _ => rtc sstep x0 (system x)
              end
}.

Lemma start_pinv t s : pinv (mkSys t s []) (startProc t s).
Proof. split; simpl; [apply start_accounted|done|done|done]. Qed.

(** Nobody is left when [main] is past [Drain]. *)
Lemma drained_alone x0 x :
  pinv x0 x -> mainAt (serverAt x) = Drained -> handlers (serverAt x) = [] /\ ~ handling x.
Proof.
  intros Hi Hm. assert (handlers (serverAt x) = []) as Hh by (by apply (ac_drained _ (pi_serving _ _ Hi))).
  split; [done|]. intros [c Hc]. rewrite Hh in Hc. by apply elem_of_nil in Hc.
Qed.

(** A step of the data in a process whose log is open. *)
Lemma pinv_system x0 x y :
  pinv x0 x -> rtc sstep (system x) y -> (ending x = Running \/ ending x = Deferred) ->
  (ending x = Deferred -> tasks y = []) -> pinv x0 (setSystem y x).
Proof.
  intros [A B C D] Hy He Ht. split; simpl_proc; try done.
  - destruct He as [He|He]; rewrite He in *; [done|]. by destruct C as [C _]; auto.
  - destruct He as [He|He]; rewrite He in *; by etrans.
Qed.

(** A step of [Serve] and its handlers. *)
Lemma pinv_server x0 x y :
  pinv x0 x -> accounted y ->
  (drains (mainAt y) = true -> signal x = ListenerClosed /\ (mainAt y <> ServeReturned None -> ctxDone x = true)) ->
  (mainAt (serverAt x) = Drained -> mainAt y = Drained) -> pinv x0 (setServer y x).
Proof.
  intros [A B C D] Hy Hd Hm. split; simpl_proc; try done. repeat case_match; try done; by destruct C as [C ?]; auto.
Qed.

Lemma drained_stuck x y : mainAt x = Drained -> ~ mainstep x y.
Proof. intros Hm Hs. by destruct Hs; congruence. Qed.

Lemma handlerNext_main i x : mainAt (handlerNext i x) = mainAt x.
Proof. unfold handlerNext. by destruct (handlers x !! i) as [[c []]|]. Qed.

Lemma taskstep_tasks x y : taskstep x y -> tasks x <> [].
Proof. destruct 1; intros Hnil; simpl in Hnil; simplify_eq. Qed.

(** The phases after [Serve] has returned nil follow one another. *)
Lemma mainstep_drains x y :
  mainstep x y -> mainAt x <> Accepting -> drains (mainAt y) = true ->
  drains (mainAt x) = true /\ mainAt y <> ServeReturned None.
Proof.
  intros Hs Hne Hd. destruct Hs as [c Hm|e Hm|c Hm|c Hm|c Hm|c Hm|Hm|Hm Hw|Hm|c todo Hm|Hm|Hm Hw];
    rewrite ?Hm in *; try done.
Qed.

Lemma started_run x0 x : started x0 -> rtc sstep x0 x -> exists l g m cs, inv x l g m cs.
Proof.
  intros Hst H. destruct (started_inv x0 Hst) as (l0 & g0 & m0 & cs0 & Hi0). by eapply ssteps_inv.
Qed.

Lemma ownstep_pinv x0 x y :
  started x0 -> pinv x0 x -> alive x -> ownstep x y -> pinv x0 y.
Proof.
  intros Hst Hi Ha Ho. pose proof Hi as [A B C D].
  destruct Ho as [Hs|Hs|Hs Hm|y Hm1 Hm2 Hy|y Hm Hy|e Hm|y Hy|He Hm Ht|l l' e He Hl Hc|He Hl|e He].
  - split; simpl_proc; try done. intros Hd. by destruct (B Hd) as [B1 _]; rewrite Hs in B1.
  - split; simpl_proc; try done. intros Hd. by destruct (B Hd).
  - apply pinv_server; [done| |done|congruence].
    eapply accounted_main; [done|]. by apply (M_error _ ErrClosed).
  - apply pinv_server; [done|by eapply accounted_main| |].
    + intros Hd. destruct (mainstep_drains _ _ Hy Hm1 Hd) as [Hd' Hne]. destruct (B Hd') as [B1 B2]. auto.
    + intros Hd. by destruct (drained_stuck _ _ Hd Hy).
  - assert (pinv x0 (cancel x)) as Hic.
    { split; simpl_proc; try done. intros Hd. destruct (B Hd). by split. }
    apply (pinv_server _ (cancel x)); simpl_proc; [done|by eapply accounted_main| |congruence].
    intros _. split; [|done]. apply B. by rewrite Hm.
  - split; simpl_proc; try done. destruct (ending x) as [| | |how] eqn:He; try done; [|by destruct (Ha how)].
    destruct C as [C _]. congruence.
  - destruct (ending x) as [| |e|how] eqn:He; [|destruct C as [_ C]; by destruct (taskstep_tasks _ _ Hy)..|].
    + apply pinv_system; try done; [by apply rtc_once, S_task|by left|congruence].
    + by destruct (Ha how).
  - split; simpl_proc; try done. by rewrite He in D.
  - rewrite He in C, D. destruct (started_run x0 (system x) Hst D) as (l1 & g & m & cs & Hi1).
    pose proof (in_log _ _ _ _ _ Hi1) as Hl1. unfold logOf in Hl1. rewrite Hl in Hl1. injection Hl1 as <-.
    split; simpl_proc; try done. destruct e as [e|]; [done|]. exists cs. by eapply Close_kept.
  - rewrite He in D. destruct (started_run x0 (system x) Hst D) as (l1 & g & m & cs & Hi1).
    pose proof (in_log _ _ _ _ _ Hi1) as Hl1. unfold logOf in Hl1. congruence.
  - rewrite He in C, D. by split.
Qed.

Lemma clientstep_pinv x0 x y : pinv x0 x -> alive x -> clientstep x y -> pinv x0 y.
Proof.
  intros Hi Ha Hc.
  assert (handling x -> ending x = Running) as Hrun.
  { intros Hh. destruct (ending x) as [| |e|how] eqn:He; [done| | |by destruct (Ha how)].
    all: pose proof (pi_ending _ _ Hi) as C; rewrite He in C; destruct C as [C _].
    all: by destruct (drained_alone _ _ Hi C) as [_ []]. }
  destruct Hc as [t s us e Hh Hx Hs Ho|t s us l l' Hh Hx Hl Hb|l Hh Hl]; specialize (Hrun Hh);
    (apply pinv_system; [done| |by left|congruence]).
  - rewrite Hx. apply rtc_once. by apply S_event.
  - rewrite Hx. apply rtc_once. by eapply S_begin.
  - destruct (system x) as [t s us]. unfold relog. cbn [clockOf sstore tasks] in *.
    unfold SyncIfAlways, Sync. case_bool_decide.
    + apply rtc_once. by apply S_sync.
    + replace (SetJournal (l, None).1 s) with s; [done|]. destruct s; simpl in *. by rewrite Hl.
Qed.

(** The background loops touch nothing but the data and their own positions. *)
Lemma pinv_loops x0 x p y : pinv x0 x -> pinv x0 (setExpirer p x) /\ pinv x0 (setSyncer y x).
Proof. intros [A B C D]. by split. Qed.

Lemma pinv_sync x0 x f l :
  pinv x0 x -> alive x -> journal (sstore (system x)) = Some l ->
  pinv x0 (setSystem (relog (syncIn (ending x) f l) (system x)) x).
Proof.
  intros Hi Ha Hl. pose proof Hi as [A B C D].
  assert (ending x = Running \/ ending x = Deferred -> pinv x0 (setSystem (relog (syncLocked f l).1 (system x)) x)) as Hopen.
  { intros He. apply pinv_system; try done.
    - destruct (system x) as [t s us]. apply rtc_once. by apply S_sync.
    - intros Hd. rewrite Hd in C. apply C. }
  destruct (ending x) as [| |[e|]|how] eqn:He; cbn [syncIn].
  - apply Hopen. by left.
  - apply Hopen. by right.
  - split; simpl_proc; by rewrite ?He.
  - split; simpl_proc; rewrite ?He; try done. destruct D as [cs D]. exists cs. by apply kept_sync.
  - by destruct (Ha how).
Qed.

Lemma pinv_sample x0 x now range s' k g :
  pinv x0 x -> alive x -> clockOf (system x) <= now ->
  expireSample activeExpireSampleSize now range (sstore (system x)) = (s', k, g) ->
  pinv x0 (setSystem (mkSys now s' (tasks (system x))) x).
Proof.
  intros Hi Ha Hnow He. pose proof Hi as [A B C D].
  assert (0 <= activeExpireSampleSize) as Hn by (unfold activeExpireSampleSize; lia).
  assert (ending x = Running \/ ending x = Deferred -> pinv x0 (setSystem (mkSys now s' (tasks (system x))) x)) as Hopen.
  { intros Hen. apply pinv_system; try done.
    - destruct (system x) as [t s us]. simpl_proc. apply rtc_once.
      pose proof (S_event t s us (Called (OpExpireSample activeExpireSampleSize now range))) as H.
      cbn [happen run eventOk] in H. rewrite He in H. apply H; [by repeat constructor|done].
    - intros Hd. rewrite Hd in C. apply C. }
  destruct (ending x) as [| |[e|]|how] eqn:Hen.
  - apply Hopen. by left.
  - apply Hopen. by right.
  - split; simpl_proc; by rewrite ?Hen.
  - split; simpl_proc; rewrite ?Hen; try done. destruct D as [cs D]. exists cs. by eapply kept_sample.
  - by destruct (Ha how).
Qed.

Lemma loopstep_pinv x0 x y : pinv x0 x -> alive x -> loopstep x y -> pinv x0 y.
Proof.
  intros Hi Ha Hl. destruct Hl as [He|r now range s' n g He Hnow Hs|He|He Hc|l Hy Hl|Hy Hc|l Hy Hl];
    try (by apply (pinv_loops x0 x _ SyncSelect Hi)); try (by apply (pinv_loops x0 x ExpSelect _ Hi)).
  - apply (pinv_loops x0 _ _ SyncSelect). by eapply pinv_sample.
  - by apply pinv_sync.
  - apply (pinv_loops x0 _ ExpSelect). by apply pinv_sync.
Qed.

Lemma pstep_pinv x0 x y : started x0 -> pinv x0 x -> pstep x y -> pinv x0 y.
Proof.
  intros Hst Hi [y' Ha Ho|Ha Hs|y' Ha Hs Hm Hy Hne|i h Ha Hh|y' Ha Hc|y' Ha Hl].
  - by eapply ownstep_pinv.
  - pose proof Hi as [A B C D]. split; simpl_proc; try done.
    intros Hd. by destruct (B Hd) as [B1 _]; rewrite Hs in B1.
  - apply pinv_server; [done|by eapply accounted_main, Hy; apply Hi| |congruence].
    intros Hd. exfalso. destruct Hy as [c Hm'|e Hm'|c Hm'|c Hm'|c Hm'|c Hm'|Hm'|Hm' ?|Hm'|c todo Hm'|Hm'|Hm' ?];
      try congruence; simpl in *; [done|].
    destruct e as [|e]; [done|]. unfold afterAccept in *. by destruct (Timeout _).
  - pose proof Hi as [A B C D].
    apply pinv_server; rewrite ?handlerNext_main; try done. by eapply accounted_handler.
  - by eapply clientstep_pinv.
  - by eapply loopstep_pinv.
Qed.

Lemma psteps_pinv x0 x y : started x0 -> pinv x0 x -> rtc pstep x y -> pinv x0 y.
Proof. intros Hst Hi H. induction H as [|x z y Hs _ IH]; [done|]. by eapply IH, pstep_pinv. Qed.

(** ** A rewrite ends *)

Lemma scan_bound x0 x now i out :
  started x0 -> rtc sstep x0 x -> Scanning now i out ∈ tasks x -> (i <= length (readShards (sstore x)))%nat.
Proof.
  intros Hst H. revert x H now i out.
  assert (forall x, rtc sstep x0 x -> length (readShards (sstore x)) = Z.to_nat shardCount) as Hlen.
  { intros x H. destruct (started_run x0 x Hst H) as (l & g & m & cs & Hi).
    apply (wf_length _ (ref_wf _ _ _ (in_store _ _ _ _ _ Hi))). }
  apply (rtc_ind_r (fun x => forall now i out, Scanning now i out ∈ tasks x -> (i <= length (readShards (sstore x)))%nat)).
  - intros now i out Hin. destruct Hst as (s & m & cs & l & g & Hx & _). rewrite Hx in Hin. by apply elem_of_nil in Hin.
  - intros x y Hx Hstep IH now i out Hin. rewrite (Hlen y) by (by eapply rtc_r). rewrite (Hlen x Hx) in IH.
    destruct Hstep as [t s us e ? ?|t s us l f ?|t s us l l' ? ?|? ? Hstep]; cbn [tasks] in *.
    + by eapply IH.
    + by eapply IH.
    + apply elem_of_app in Hin as [Hin|Hin]; [by eapply IH|]. by apply list_elem_of_singleton in Hin.
    + pose proof (Hlen _ Hx) as Hl.
      destruct Hstep as [t s us j now' Hj ?|t s us j now' i' out' sh keys Hj Hsh ?|t s us j now' out' o l o' r Hj ? ?
        |t s us j fd snap l Hj ?|t s us j o l Hj ?]; cbn [tasks sstore] in *;
        try (apply list_elem_of_delete_inv in Hin; by eapply IH);
        (apply elem_of_updated in Hin as [Heq|Hin]; [|by eapply IH]); simplify_eq; try lia.
      * apply lookup_lt_Some in Hsh. lia.
      * by destruct r.
Qed.

Definition ends (x : sys) : Prop := exists y, rtc taskstep x y /\ tasks y = [].

Lemma ends_step x y : taskstep x y -> ends y -> ends x.
Proof. intros Hs (z & Hz & Ht). exists z. split; [by eapply rtc_l|done]. Qed.

Lemma ends_now t s : ends (mkSys t s []).
Proof. by exists (mkSys t s []). Qed.

Lemma ends_failed t s o l : journal s = Some (o, l) -> ends (mkSys t s [Failed]).
Proof. intros Hl. eapply ends_step; [by apply (S_abort t s [Failed] 0 o l)|apply ends_now]. Qed.

Lemma ends_written t s l fd snap : journal s = Some l -> ends (mkSys t s [Written fd snap]).
Proof. intros Hl. eapply ends_step; [by apply (S_install t s [_] 0 fd snap l)|apply ends_now]. Qed.

Lemma ends_scanned t s l now out :
  journal s = Some l -> ends (mkSys t s [Scanning now (length (readShards s)) out]).
Proof.
  intros Hl. destruct l as [o l]. destruct (writeSnapshot out o) as [o' r] eqn:Hw.
  eapply ends_step; [by apply (S_write t s [_] 0 now out o l o' r)|]. cbn [insert list_insert].
  destruct r; [by eapply ends_written|by eapply ends_failed].
Qed.

Lemma ends_scanning t s l now n i out :
  journal s = Some l -> (n + i)%nat = length (readShards s) -> ends (mkSys t s [Scanning now i out]).
Proof.
  intros Hl. revert i out. induction n as [|n IH]; intros i out Hn.
  { simpl in Hn. subst i. by eapply ends_scanned. }
  destruct (lookup_lt_is_Some_2 (readShards s) i) as [sh Hsh]; [lia|].
  eapply ends_step; [by apply (S_shard t s [_] 0 now i out sh (keysOf (data sh)))|].
  apply IH. lia.
Qed.

(** Whatever a rewrite is doing, it can go on to its end by itself. *)
Lemma rewrite_ends x0 x : started x0 -> rtc sstep x0 x -> ends x.
Proof.
  intros Hst Hx. destruct (started_run x0 x Hst Hx) as (l & g & m & cs & Hi).
  pose proof (in_log _ _ _ _ _ Hi) as Hl. pose proof (in_one _ _ _ _ _ Hi) as Hone.
  pose proof (fun now i out => scan_bound x0 x now i out Hst Hx) as Hb.
  destruct x as [t s us]. unfold logOf in Hl. cbn [sstore tasks] in *.
  destruct us as [|u [|u2 us]]; [apply ends_now| |by destruct (rewriting _)].
  destruct l as [o l]. destruct u as [|now i out|fd snap|].
  - eapply ends_step; [apply (S_moment t s [Begun] 0 t); [done|lia]|].
    apply (ends_scanning t s (o, l) t (length (readShards s)) 0); [done|lia].
  - specialize (Hb now i out (list_elem_of_here _ _)).
    apply (ends_scanning t s (o, l) now (length (readShards s) - i) i); [done|lia].
  - by eapply ends_written.
  - by eapply ends_failed.
Qed.

(** ** The process ends *)

(** [x] can be over without anybody's help. *)
Definition canEnd (x : proc) : Prop := exists y how, rtc pforced x y /\ ending y = Over how.

Lemma canEnd_step x y : pforced x y -> canEnd y -> canEnd x.
Proof. intros Hs (z & how & Hz & Hh). exists z, how. split; [by eapply rtc_l|done]. Qed.

Lemma canEnd_own x y : alive x -> ownstep x y -> canEnd y -> canEnd x.
Proof. intros Ha Ho. apply canEnd_step. by apply PF_own. Qed.

Lemma canEnd_tasks x y : rtc taskstep (system x) y -> alive x -> canEnd (setSystem y x) -> canEnd x.
Proof.
  intros H. remember (system x) as z eqn:Hz. revert x Hz.
  induction H as [z|z w y Hs _ IH]; intros x -> Ha Hc.
  - by destruct x.
  - apply (canEnd_own x (setSystem w x)); [done|by apply O_task|]. by apply (IH (setSystem w x)).
Qed.

Lemma alive_phase x p : ending x = p -> (forall how, p <> Over how) -> alive x.
Proof. intros He H. unfold alive. by rewrite He. Qed.

Lemma canEnd_closed x e : ending x = LogClosed e -> canEnd x.
Proof.
  intros He. apply (canEnd_own x (setEnding (Over (inr e)) x)); [by eapply alive_phase|by apply O_return|].
  by exists (setEnding (Over (inr e)) x), (inr e).
Qed.

Lemma canEnd_deferred x : ending x = Deferred -> canEnd x.
Proof.
  intros He. assert (alive x) as Ha by (by eapply alive_phase).
  destruct (journal (sstore (system x))) as [l|] eqn:Hl.
  - destruct (Close l) as [l' e] eqn:Hc. eapply canEnd_own; [done|by eapply O_closeLog|]. by eapply canEnd_closed.
  - eapply canEnd_own; [done|by apply O_noLog|]. by eapply canEnd_closed.
Qed.

Section Ends.
Context (x0 : sys) (Hst : started x0).

Lemma canEnd_drained x :
  pinv x0 x -> ending x = Running -> mainAt (serverAt x) = Drained -> canEnd x.
Proof.
  intros Hi He Hm. pose proof (pi_system _ _ Hi) as D. rewrite He in D.
  destruct (rewrite_ends x0 _ Hst D) as (y & Hy & Ht).
  apply (canEnd_tasks x y); [done|by eapply alive_phase|].
  apply (canEnd_own (setSystem y x) (setEnding Deferred (setSystem y x))); [by eapply alive_phase|by apply O_waited|].
  by apply canEnd_deferred.
Qed.

(** The run of [Drain], step by step. *)
Lemma canEnd_draining x :
  pinv x0 x -> ending x = Running -> drains (mainAt (serverAt x)) = true -> canEnd x.
Proof.
  intros Hi He Hd. destruct (drain_run _ (pi_serving _ _ Hi) Hd) as (y & Hy & Hm).
  remember (serverAt x) as z eqn:Hz. revert x Hi He Hz Hd.
  induction Hy as [z|z w y Hs _ IH]; intros x Hi He -> Hd; [by apply canEnd_drained|].
  assert (alive x) as Ha by (by eapply alive_phase).
  destruct (drains_step _ _ Hd (forced_servestep _ _ Hs)) as [Hd' _].
  assert (exists x', pforced x x' /\ ending x' = Running /\ serverAt x' = w) as (x' & Hx & He' & Hw).
  { destruct Hs as [w Hs|i c p Hh Hc].
    - destruct (decide (mainAt (serverAt x) = ServeReturned None)) as [Hr|Hr].
      + exists (setServer w (cancel x)). split; [by apply PF_own, O_drain|done].
      + exists (setServer w x). split; [|done]. apply PF_own, O_main; [done| |done|done].
        by intros Heq; rewrite Heq in Hd.
    - exists (setServer (handlerNext i (serverAt x)) x). split; [by eapply PF_handler|done]. }
  eapply canEnd_step; [done|]. apply IH; try done.
  eapply pstep_pinv; [done..|by apply pforced_pstep].
Qed.

(** With the listener closed, [Serve] returns. *)
Definition returns (p : mphase) : Prop := forall x,
  pinv x0 x -> ending x = Running -> signal x = ListenerClosed -> mainAt (serverAt x) = p -> canEnd x.

Lemma returns_accepting : returns Accepting.
Proof.
  intros x Hi He Hs Hm. assert (alive x) as Ha by (by eapply alive_phase).
  assert (ownstep x (setServer (setMain (ServeReturned None) (serverAt x)) x)) as Ho by (by apply O_refused).
  apply (canEnd_own _ _ Ha Ho). apply canEnd_draining; [|done|done]. by eapply ownstep_pinv.
Qed.

Lemma returns_step p q :
  (forall s, mainAt s = p -> exists y, mainstep s y /\ mainAt y = q) ->
  p <> Accepting -> p <> ServeReturned None -> returns q -> returns p.
Proof.
  intros Hstep H1 H2 Hq x Hi He Hs Hm. assert (alive x) as Ha by (by eapply alive_phase).
  destruct (Hstep _ Hm) as (y & Hy & Hmy).
  assert (ownstep x (setServer y x)) as Ho by (apply O_main; congruence || done).
  apply (canEnd_own _ _ Ha Ho). apply Hq; [by eapply ownstep_pinv|done..].
Qed.

Lemma returns_setup c : returns (Accepted c) /\ returns (Counted c) /\ returns (Stored c) /\ returns (Added c).
Proof.
  assert (returns (Added c)) as H1.
  { eapply returns_step; [|done..|apply returns_accepting]. intros s Hs. eexists. split; [by eapply M_go|done]. }
  assert (returns (Stored c)) as H2.
  { eapply returns_step; [|done..|exact H1]. intros s Hs. eexists. split; [by eapply M_add|done]. }
  assert (returns (Counted c)) as H3.
  { eapply returns_step; [|done..|exact H2]. intros s Hs. eexists. split; [by eapply M_store|done]. }
  split_and!; try done.
  eapply returns_step; [|done..|exact H3]. intros s Hs. eexists. split; [by eapply M_count|done].
Qed.

Lemma canEnd_closing x : pinv x0 x -> ending x = Running -> signal x = ListenerClosed -> canEnd x.
Proof.
  intros Hi He Hs. destruct (mainAt (serverAt x)) as [|c|c|c|c|[e|]| | | |] eqn:Hm;
    try (apply canEnd_draining; [done|done|by rewrite Hm]);
    try (destruct (returns_setup c) as (H1 & H2 & H3 & H4); by auto).
  - by apply returns_accepting.
  - apply (canEnd_own x (setEnding (Over (inl e)) x)); [by eapply alive_phase|by apply O_fatal|].
    by exists (setEnding (Over (inl e)) x), (inl e).
Qed.

Lemma canEnd_signalled x : pinv x0 x -> signal x <> AwaitSignal -> canEnd x.
Proof.
  intros Hi Hs. destruct (ending x) as [| |e|how] eqn:He.
  - assert (alive x) as Ha by (by eapply alive_phase).
    assert (forall y, pinv x0 y -> ending y = Running -> signal y = SigCancelled -> canEnd y) as Hc.
    { intros y Hy Hey Hsy. assert (alive y) as Hay by (by eapply alive_phase).
      assert (ownstep y (setSignal ListenerClosed y)) as Ho by (by apply O_close).
      apply (canEnd_own _ _ Hay Ho). apply canEnd_closing; [by eapply ownstep_pinv|done..]. }
    destruct (signal x) eqn:Hsx; [done| |by apply Hc|by apply canEnd_closing].
    assert (ownstep x (setSignal SigCancelled (cancel x))) as Ho by (by apply O_cancel).
    apply (canEnd_own _ _ Ha Ho). apply Hc; [by eapply ownstep_pinv|done..].
  - by apply canEnd_deferred.
  - by eapply canEnd_closed.
  - by exists x, how.
Qed.
End Ends.

(** ** Theorems *)

(** C12. An orderly shutdown leaves the whole log on stable storage.  Take any run of the
    process, clients, rewrites, background loops and the signal interleaved in any way and
    any system call failing, that ends with [main] returning and [Close] without an error.
    The signal has arrived, no handler and no rewrite was left when the log was closed, and
    the file is the complete log, all of it synced, so that a crash takes nothing from it.
    If the records can be read again (they fit the protocol's limits, and their deadlines
    the range [applyLogged] reads; otherwise the next process may refuse to start), the next
    process, started with valid flags, comes up and shows the keyspace as this one left it,
    deadlines cut to the millisecond, except for the keys that have been given, since they
    were last written or deleted, a deadline that has passed, which it may have lost even
    where a later deadline had replaced that one. *)
Theorem shutdown_keeps_everything (lib : Lib) (t : Time) (s : Store logState) (x : proc) (cut : nat)
    (fl : Flags) (max : Z) (p : bytes) (fsync : Policy) :
  started (mkSys t s []) -> rtc pstep (startProc t s) x -> ending x = Over (inr None) ->
  signal x = ListenerClosed /\ handlers (serverAt x) = [] /\ tasks (system x) = [] /\
  exists l cs, logOf (system x) = Some l /\
    disk l.1 = mkFile (enc (wire <$> cs)) (length (enc (wire <$> cs))) /\
    ((synced (disk l.1) <= cut)%nat -> accepts lib fl max p fsync ->
     Forall recordable cs -> Forall sendable (wire <$> cs) ->
     forall envs src, reads src (crashed cut l.1) -> restart_clock (clockOf (system x)) envs ->
     let T := Now (envs (length cs)) 0 in
     exists o' s', boot lib envs fl None src (crashed cut l.1) = (o', inl s') /\
       up fl max p fsync T cs o' s' /\ shows s' (sstore (system x)) cs T).
Proof.
  intros Hst Hx He. pose proof (psteps_pinv _ _ _ Hst (start_pinv t s) Hx) as Hi.
  pose proof (pi_ending _ _ Hi) as C. pose proof (pi_system _ _ Hi) as D. rewrite He in C, D.
  destruct C as [Hm Ht]. destruct (pi_draining _ _ Hi) as [Hs _]; [by rewrite Hm|].
  destruct (drained_alone _ _ Hi Hm) as [Hh _]. split_and!; [done..|].
  destruct D as (cs & l & m & Hl & Hd & Hms & Hr & Hrec). exists l, cs. split_and!; [done..|].
  intros Hcut Hacc Hrc Hsd envs src Hrd Hclk. rewrite Hd in Hcut. cbn [synced] in Hcut.
  pose proof (boot_recovers lib (clockOf (system x)) (sstore (system x)) m cs (length (enc (wire <$> cs)))
    (length cs) fl max p fsync Hms Hr Hacc (le_n _)) as H.
  rewrite complete_all, length_fmap, !firstn_all in H.
  refine (H eq_refl Hrec Hrc Hsd envs src (crashed cut l.1) eq_refl Nat.lt_0_1 _ _ Hrd Hclk).
  - simpl. lia.
  - change (take cut (content (disk l.1)) = enc (wire <$> cs)). rewrite Hd. by apply take_ge.
Qed.

(** C13. A signal ends the process: from any state that it can reach after the signal has
    arrived, in [Serve] or later, with any clients connected and a rewrite in any state,
    there is a run in which nobody waits for a client or a timer of the background loops,
    and after which the process is over and nothing happens any more. *)
Theorem signal_ends_process (t : Time) (s : Store logState) (x : proc) :
  started (mkSys t s []) -> rtc pstep (startProc t s) x -> signal x <> AwaitSignal ->
  exists y how, rtc pforced x y /\ ending y = Over how /\ forall z, ~ pstep y z.
Proof.
  intros Hst Hx Hs. pose proof (psteps_pinv _ _ _ Hst (start_pinv t s) Hx) as Hi.
  destruct (canEnd_signalled _ Hst x Hi Hs) as (y & how & Hy & He). exists y, how. split_and!; [done..|].
  intros z Hz. assert (alive y) as Ha by (by destruct Hz). by destruct (Ha how).
Qed.

(** ** Witnesses *)

(** The log of [set_1], closed. *)
Definition closed1 : logState := (Close (logIn stage1)).1.

(** A signal arrives while [Serve] waits for a client, and [Drain] begins. *)
Lemma signal_drains x :
  ending x = Running -> signal x = AwaitSignal -> mainAt (serverAt x) = Accepting ->
  exists y, rtc pstep x y /\ mainAt (serverAt y) = Draining /\ handlers (serverAt y) = handlers (serverAt x) /\
    connWG (serverAt y) = connWG (serverAt x) /\ ending y = Running /\ system y = system x.
Proof.
  intros He Hs Hm. eexists. split.
  - eapply rtc_l; [apply P_signal; [by eapply alive_phase|done]|].
    eapply rtc_l; [apply P_own; [by eapply alive_phase|by apply O_cancel]|].
    eapply rtc_l; [apply P_own; [by eapply alive_phase|by apply O_close]|].
    eapply rtc_l; [apply P_own; [by eapply alive_phase|by apply O_refused]|].
    apply rtc_once, P_own; [by eapply alive_phase|]. apply O_drain; [done|by apply M_drain].
  - done.
Qed.

(** The store after [set_1], for a process that started with [s]. *)
Definition after_set (s : Store logState) : Store logState := happen set_1 s.

(** A client sets a key. *)
Lemma run_to_set (s : Store logState) :
  exists x, rtc pstep (startProc Second s) x /\ mainAt (serverAt x) = Accepting /\
    handlers (serverAt x) = [(0%nat, Handling)] /\ connWG (serverAt x) = 1 /\ ending x = Running /\
    signal x = AwaitSignal /\ system x = mkSys Second (after_set s) [].
Proof.
  eexists. split.
  - eapply rtc_l; [apply P_accept; [done|done|done|apply (M_accept _ 0%nat); [done|set_solver]|done]|].
    do 4 (eapply rtc_l; [apply P_own; [done|]; apply O_main; [done|done|constructor; reflexivity]|]).
    apply rtc_once. apply P_client; [done|].
    apply (C_event _ Second s [] set_1); [by exists 0%nat; left|done|repeat constructor|done].
  - by split_and!.
Qed.

(** One step of the only handler. *)
Lemma handler_moves x q :
  alive x -> handlers (serverAt x) = [(0%nat, q)] ->
  exists y, pstep x y /\ mainAt (serverAt y) = mainAt (serverAt x) /\ ending y = ending x /\ system y = system x /\
    match q with
    | Handling => handlers (serverAt y) = [(0%nat, Returned)] /\ connWG (serverAt y) = connWG (serverAt x)
    | Returned => handlers (serverAt y) = [(0%nat, Deleted)] /\ connWG (serverAt y) = connWG (serverAt x)
    | Deleted => handlers (serverAt y) = [(0%nat, Uncounted)] /\ connWG (serverAt y) = connWG (serverAt x)
    | Uncounted => handlers (serverAt y) = [] /\ connWG (serverAt y) = connWG (serverAt x) - 1
    end.
Proof.
  intros Ha Hh. exists (setServer (handlerNext 0 (serverAt x)) x). split; [eapply P_handler; [done|by rewrite Hh]|].
  unfold handlerNext. rewrite Hh. by destruct q.
Qed.

Lemma alive_same x y : ending y = ending x -> alive x -> alive y.
Proof. unfold alive. by intros ->. Qed.

(** The client hangs up. *)
Lemma handler_leaves x :
  alive x -> handlers (serverAt x) = [(0%nat, Handling)] ->
  exists y, rtc pstep x y /\ mainAt (serverAt y) = mainAt (serverAt x) /\ ending y = ending x /\ system y = system x /\
    connWG (serverAt y) = connWG (serverAt x) - 1.
Proof.
  intros H0 Hh0. destruct (handler_moves x _ H0 Hh0) as (x1 & S1 & M1 & E1 & Y1 & Hh1 & W1).
  apply (alive_same _ _ E1) in H0 as H1. destruct (handler_moves x1 _ H1 Hh1) as (x2 & S2 & M2 & E2 & Y2 & Hh2 & W2).
  apply (alive_same _ _ E2) in H1 as H2. destruct (handler_moves x2 _ H2 Hh2) as (x3 & S3 & M3 & E3 & Y3 & Hh3 & W3).
  apply (alive_same _ _ E3) in H2 as H3. destruct (handler_moves x3 _ H3 Hh3) as (x4 & S4 & M4 & E4 & Y4 & _ & W4).
  exists x4. split; [|split_and!; congruence]. do 4 (eapply rtc_l; [done|]). apply rtc_refl.
Qed.

(** It hangs up after a signal, and the process ends as [Close] does. *)
Lemma orderly_run (s : Store logState) (l l' : logState) e :
  journal (after_set s) = Some l -> Close l = (l', e) ->
  exists x, rtc pstep (startProc Second s) x /\ ending x = Over (inr e) /\
    system x = relog l' (mkSys Second (after_set s) []).
Proof.
  intros Hl Hc. destruct (run_to_set s) as (x0 & Hx0 & Hm0 & Hh0 & Hw0 & He0 & Hsig & Hs0).
  destruct (signal_drains x0) as (x & Hx & Hm & Hh & Hw & He & Hs); [done..|].
  rewrite Hh0 in Hh. rewrite Hw0 in Hw. rewrite Hs0 in Hs.
  destruct (handler_leaves x) as (y & Hy & My & Ey & Sy & Wy); [by eapply alive_phase|done|].
  rewrite Hm in My. rewrite Hw in Wy. rewrite He in Ey. rewrite Hs in Sy.
  eexists. split.
  - etrans; [exact Hx0|]. etrans; [exact Hx|]. etrans; [exact Hy|].
    eapply rtc_l; [apply P_own; [by eapply alive_phase|]; apply O_main; [by rewrite My..|by apply M_idle]|].
    eapply rtc_l; [apply P_own; [by eapply alive_phase|]; apply O_waited; unfold WaitBackground; simpl_proc; rewrite ?Sy; done|].
    eapply rtc_l; [apply P_own; [done|]; apply (O_closeLog _ l l' e); simpl_proc; rewrite ?Sy; done|].
    apply rtc_once, P_own; [done|]. by eapply O_return.
  - simpl_proc. by rewrite Sy.
Qed.

Lemma shutdown_keeps_everything_witness :
  content (disk closed1.1) = enc [setRecord (bs "k") (bs "v") zeroTime] /\
  exists cs, disk closed1.1 = mkFile (enc (wire <$> cs)) (length (enc (wire <$> cs))).
Proof.
  split; [vm_compute; reflexivity|]. destruct (orderly_run (store attached) (logIn stage1) closed1 None) as (x & Hx & He & Hsys);
    [reflexivity|vm_compute; reflexivity|].
  destruct (shutdown_keeps_everything ascii_lib Second (store attached) x 0%nat flags 67108864
    PolicyAllKeysLRU PolicyAlways attached_started Hx He) as (_ & _ & _ & l & cs & Hl & Hd & _).
  rewrite Hsys in Hl. apply (f_equal (default closed1)) in Hl. cbn [default from_option id] in Hl.
  change (closed1 = l) in Hl. subst l. by exists cs.
Defined.

(** The signal at once. *)
Definition signalled : proc := setSignal GotSignal (startProc Second (store attached)).

Lemma signal_ends_process_witness : exists y how, rtc pforced signalled y /\ ending y = Over how.
Proof.
  destruct (signal_ends_process Second (store attached) signalled attached_started) as (y & how & Hy & He & _).
  - apply rtc_once. by apply P_signal.
  - done.
  - by exists y, how.
Defined.

(** A whole life: set, shut down, boot, read. *)
Example boot_restores :
  let f := content (disk closed1.1) in
  match (boot ascii_lib (frozen (5 * Second)) flags None (whole f) (disk_with f)).2 with
  | inl s => see (5 * Second) (store s) (bs "k") = Some (bs "v", zeroTime) /\
             maxMemory (store s) = 67108864
  | inr _ => False
  end.
Proof. vm_compute. split; reflexivity. Qed.

(** The error of the last [Close] is dropped: under [everysec], when the disk is full, an
    orderly shutdown returns from [main] and the key that was set is in no file. *)
Lemma close_error_dropped :
  let s := SetJournal (mkOS [mkFile [] 0] 0 [Some (0%nat, OSError 28)], fresh_log PolicyEverysec) New in
  exists x l, rtc pstep (startProc Second s) x /\ ending x = Over (inr (Some (OSError 28))) /\
    logOf (system x) = Some l /\ content (disk l.1) = [] /\
    see Second (sstore (system x)) (bs "k") = Some (bs "v", zeroTime).
Proof.
  intros s. destruct (journal (after_set s)) as [l|] eqn:Hl; [|discriminate]. destruct (Close l) as [l' e] eqn:Hc.
  destruct (orderly_run s l l' e Hl Hc) as (x & Hx & He & Hs).
  assert ((fun l => ((Close l).2, content (disk (Close l).1.1))) <$> journal (after_set s) =
    Some (Some (OSError 28), [])) as Hrun by (vm_compute; reflexivity).
  rewrite Hl in Hrun. cbn in Hrun. rewrite Hc in Hrun. injection Hrun as -> Hd.
  exists x, l'. rewrite Hs. split_and!; [done|done|done|done|]. vm_compute. reflexivity.
Qed.
