(* ===== verification/ServerSpec.v ===== *)
(** * What a client can rely on: the commands as operations on an expiring map

    [catalogue] says for each command how many arguments it takes, whether it writes,
    what kind of value it answers, and which operations of the expiring map of
    StoreSpec.v it performs ([plan]).  [dispatch_answers] shows that [dispatch] does
    exactly that; [session_served] does it for a whole connection, from the bytes the
    client sends to the bytes it reads. *)

From stdpp Require Import base gmap list strings sorting relations.
From Stdlib Require Import ZArith Lia.
From Stdlib Require Import Strings.Byte.
From S2P Require Import Prelude.
From S2P Require Import GoStrconv.
From S2P Require Import RespWriter.
From S2P Require Import Bufio.
From S2P Require Import RespReader.
From S2P Require Import GoTime.
From S2P Require Import Store.
From S2P Require Import StoreInv.
From S2P Require Import Evict.
From S2P Require Import StoreSpec.
From S2P Require Import Settings.
From S2P Require Import AofLog.
From S2P Require Import Commands.
From S2P Require Import Journalling.
From S2P Require Import CommandsSpec.
From S2P Require Import Connection.
From S2P Require Import Socket.
From S2P Require Import Restart.
From S2P Require Import Durability.

#[local] Open Scope Z_scope.

(** ** The specification *)

(** What a command does to the keyspace, and what it answers when the operations have
    replied. *)
Record plan : Type := mkPlan { ops : list op; said : list StoreSpec.reply -> resp_value }.

Definition says (v : resp_value) : plan := mkPlan [] (fun _ => v).

Definition does (o : op) (f : StoreSpec.reply -> resp_value) : plan :=
  mkPlan [o] (fun rs => match rs with r :: _ => f r | [] => VNullBulk end).

Definition okReply (r : StoreSpec.reply) : resp_value := VSimple (bs "OK").

Definition bulkReply (r : StoreSpec.reply) : resp_value :=
  match r with RBytes (Some v) => VBulk v | _ => VNullBulk end.

Definition intReply (r : StoreSpec.reply) : resp_value :=
  match r with
  | RInt n => VInteger n
  | RBool b => VInteger (if b then 1 else 0)
  | RIncr (inl n) => VInteger n
  | RIncr (inr _) => VError (bs "ERR value is not an integer or out of range")
  | RBytes (Some v) => VInteger (lenZ v)
  | _ => VInteger 0
  end.

Definition ttlReply (unit : Duration) (r : StoreSpec.reply) : resp_value :=
  VInteger match r with
           | RTTL d KeyVolatile => roundTTL d unit
           | RTTL _ KeyPersistent => -1
           | _ => -2
           end.

(** A number of units, as a duration that fits an [int64]. *)
Definition duration (arg : bytes) (unit : Duration) : option Duration :=
  n ← integer_of arg;
  if decide (is_int64 (n * unit)) then Some (n * unit) else None.

(** The unit of an expiry option and whether its argument is a point in time. *)
Definition expiryUnit (o : bytes) : option (Duration * bool) :=
  if decide (o = bs "EX") then Some (Second, false)
  else if decide (o = bs "PX") then Some (Millisecond, false)
  else if decide (o = bs "EXAT") then Some (Second, true)
  else if decide (o = bs "PXAT") then Some (Millisecond, true)
  else None.

Section Plans.
Context (lib : Lib) (env : Env).

Let notInteger : plan := says (VError (bs "ERR value is not an integer or out of range")).

Definition arityError (name : bytes) : resp_value :=
  VError (bs "ERR wrong number of arguments for '"
          ++ ToLower (unicodeToLower lib) (safeName name) ++ bs "' command").

Definition setPlan (args : list bytes) : plan :=
  match args with
  | [k; v] => does (OpSet k v) okReply
  | [k; v; o; n] =>
      match expiryUnit (ToUpper lib o) with
      | None => says (VError (bs "ERR syntax error"))
      | Some (unit, absolute) =>
          match duration n unit with
          | None => notInteger
          | Some d =>
              if d <=? 0 then says (VError (bs "ERR invalid expire time in 'set' command"))
              else if absolute then does (OpSetWithDeadline (Now env 0) (Now env 1) k v d) okReply
              else does (OpSetWithTTL (Now env 0) k v d) okReply
          end
      end
  | _ => says (VError (bs "ERR syntax error"))
  end.

(** The reads of MGET, two clock readings each. *)
Fixpoint getOps (i : nat) (ks : list bytes) : list op :=
  match ks with
  | [] => []
  | k :: ks' => OpGet (Now env i) (Now env (S i)) k :: getOps (S (S i)) ks'
  end.

Definition itemOf (r : StoreSpec.reply) : option bytes := match r with RBytes o => o | _ => None end.

Definition msetPlan (args : list bytes) : plan :=
  if Nat.even (length args) then does (OpMSet (pairsOf args)) okReply
  else says (arityError (bs "MSET")).

Definition expirePlan (unit : Duration) (absolute : bool) (args : list bytes) : plan :=
  match args with
  | [k; n] =>
      match duration n unit with
      | None => notInteger
      | Some d => if absolute then does (OpExpireAt (Now env 0) k d) intReply
                  else does (OpExpire (Now env 0) (Now env 1) k d) intReply
      end
  | _ => says VNullBulk
  end.

(** A command of one key. *)
Definition onKey (f : bytes -> plan) (args : list bytes) : plan :=
  match args with k :: _ => f k | [] => says VNullBulk end.

Definition getOp (k : bytes) : op := OpGet (Now env 0) (Now env 1) k.

(** The kind of value a command answers when it does not answer an error. *)
Inductive kind : Type := KSimple | KInteger | KBulk | KArray (n : option nat).

Record entry_ : Type := mkEntry_ {
  least : nat;
  most : option nat;
  writing : bool;
  answers : list bytes -> kind;
  does_ : list bytes -> option plan
}.

Let keyCmd l m w k p : entry_ := mkEntry_ l m w k (fun args => Some (p args)).

(** The commands; the three that are not about the keyspace have no plan. *)
Definition catalogue : list (bytes * entry_) :=
  [(bs "PING", keyCmd 0 (Some 1%nat) false
      (fun args => match args with [] => KSimple | _ => KBulk end)
      (fun args => match args with [a] => says (VBulk a) | _ => says (VSimple (bs "PONG")) end));
   (bs "ECHO", keyCmd 1 (Some 1%nat) false (fun _ => KBulk) (onKey (fun a => says (VBulk a))));
   (bs "SET", keyCmd 2 (Some 4%nat) true (fun _ => KSimple) setPlan);
   (bs "MSET", keyCmd 2 None true (fun _ => KSimple) msetPlan);
   (bs "GET", keyCmd 1 (Some 1%nat) false (fun _ => KBulk) (onKey (fun k => does (getOp k) bulkReply)));
   (bs "MGET", keyCmd 1 None false (fun args => KArray (Some (length args)))
      (fun args => mkPlan (getOps 0 args) (fun rs => VBulks (itemOf <$> rs))));
   (bs "INCR", keyCmd 1 (Some 1%nat) true (fun _ => KInteger)
      (onKey (fun k => does (OpIncrement (Now env 0) k 1) intReply)));
   (bs "DECR", keyCmd 1 (Some 1%nat) true (fun _ => KInteger)
      (onKey (fun k => does (OpIncrement (Now env 0) k (-1)) intReply)));
   (bs "APPEND", keyCmd 2 (Some 2%nat) true (fun _ => KInteger)
      (fun args => match args with
                   | k :: v :: _ => does (OpAppend (Now env 0) k v) intReply
                   | _ => says VNullBulk end));
   (bs "STRLEN", keyCmd 1 (Some 1%nat) false (fun _ => KInteger)
      (onKey (fun k => does (getOp k) intReply)));
   (bs "DEL", keyCmd 1 None true (fun _ => KInteger) (fun ks => does (OpDel (Now env 0) ks) intReply));
   (bs "EXISTS", keyCmd 1 None false (fun _ => KInteger)
      (fun ks => does (OpExists (Now env 0) ks) intReply));
   (bs "EXPIRE", keyCmd 2 (Some 2%nat) true (fun _ => KInteger) (expirePlan Second false));
   (bs "PEXPIRE", keyCmd 2 (Some 2%nat) true (fun _ => KInteger) (expirePlan Millisecond false));
   (bs "EXPIREAT", keyCmd 2 (Some 2%nat) true (fun _ => KInteger) (expirePlan Second true));
   (bs "PEXPIREAT", keyCmd 2 (Some 2%nat) true (fun _ => KInteger) (expirePlan Millisecond true));
   (bs "TTL", keyCmd 1 (Some 1%nat) false (fun _ => KInteger)
      (onKey (fun k => does (OpTTL (Now env 0) k) (ttlReply Second))));
   (bs "PTTL", keyCmd 1 (Some 1%nat) false (fun _ => KInteger)
      (onKey (fun k => does (OpTTL (Now env 0) k) (ttlReply Millisecond))));
   (bs "DBSIZE", keyCmd 0 (Some 0%nat) false (fun _ => KInteger)
      (fun _ => does (OpDBSize (Now env 0)) intReply));
   (bs "INFO", mkEntry_ 0 (Some 1%nat) false (fun _ => KBulk) (fun _ => None));
   (bs "CONFIG", mkEntry_ 2 None false (fun _ => KArray None) (fun _ => None));
   (bs "BGREWRITEAOF", mkEntry_ 0 (Some 0%nat) false (fun _ => KSimple) (fun _ => None))].

Definition fits (c : entry_) (rest : list bytes) : bool :=
  (least c <=? length rest)%nat
  && match most c with None => true | Some n => (length rest <=? n)%nat end.
End Plans.

(** ** Every handler carries out its plan *)

Section Performs.
Context (lib : Lib) (env : Env).

(** A value of a kind, or an error. *)
Definition is_kind (k : kind) (v : resp_value) : Prop :=
  match k, v with
  | _, VError _ | KSimple, VSimple _ | KInteger, VInteger _ | KBulk, VBulk _ | KBulk, VNullBulk => True
  | KArray n, VBulks os => match n with Some n => length os = n | None => True end
  | _, _ => False
  end.

(** The handler runs the plan's operations on the store and writes what it says, a
    framed value of kind [k]. *)
Definition performs (h : GoM (Server * bytes) unit) (k : kind) (p : plan) : Prop :=
  forall s w, let '(st, rs) := runs (ops p) (store s) in
    h (s, w) = ((setStore st s, w ++ encode (said p rs)), Ret tt) /\
    framed (said p rs) /\ is_kind k (said p rs).

Lemma setStore_id s : setStore (store s) s = s.
Proof. by destruct s. Qed.

Lemma performs_says m k v :
  writes m (encode v) -> framed v -> is_kind k v -> performs (reply m) k (says v).
Proof. intros Hm Hf Hk s w. cbn. unfold reply. by rewrite (Hm w), setStore_id. Qed.

Lemma performs_error k msg :
  has_crlf msg = false -> performs (reply (WriteError msg)) k (says (VError msg)).
Proof. intros. apply performs_says; [by apply writes_error|done|by destruct k]. Qed.

(** An answer that is always framed and of one kind. *)
Definition answer_ok (k : kind) (g : StoreSpec.reply -> resp_value) : Prop :=
  forall r, framed (g r) /\ is_kind k (g r).

Lemma okReply_ok : answer_ok KSimple okReply.
Proof. by intros []. Qed.

Lemma bulkReply_ok : answer_ok KBulk bulkReply.
Proof. by intros [| [] | | | |]. Qed.

Lemma intReply_ok : answer_ok KInteger intReply.
Proof. by intros [| [] | | | | []]. Qed.

Lemma ttlReply_ok unit : answer_ok KInteger (ttlReply unit).
Proof. by intros []. Qed.

(** One store operation whose result is answered. *)
Lemma performs_does {A} (f : Store logState -> Store logState * A)
    (c : A -> GoM (Server * bytes) unit) k o g :
  answer_ok k g ->
  (forall st, let '(st', a) := f st in let '(st1, r) := run o st in
     st' = st1 /\ exists m, c a = reply m /\ writes m (encode (g r))) ->
  performs (stored f ≫= c) k (does o g).
Proof.
  intros Hg Hf s w. cbn. unfold stored, mbind, GoM_bind. specialize (Hf (store s)).
  destruct (f (store s)) as [st a], (run o (store s)) as [st1 r].
  destruct Hf as (-> & m & -> & Hm). unfold reply. rewrite (Hm w). split; [done|apply Hg].
Qed.

(** An operation that only reads. *)
Lemma performs_observe {A} (f : Server -> A) (c : A -> GoM (Server * bytes) unit) k o g :
  answer_ok k g ->
  (forall s, let '(st1, r) := run o (store s) in
     st1 = store s /\ exists m, c (f s) = reply m /\ writes m (encode (g r))) ->
  performs (observe f ≫= c) k (does o g).
Proof.
  intros Hg Hf s w. cbn. unfold observe, mbind, GoM_bind. specialize (Hf s).
  destruct (run o (store s)) as [st1 r]. destruct Hf as (-> & m & -> & Hm).
  unfold reply. rewrite (Hm w), setStore_id. split; [done|apply Hg].
Qed.

Lemma performs_arg i args c a k p :
  args !! i = Some a -> performs (c a) k p -> performs (arg i args ≫= c) k p.
Proof. intros Ha Hk s w. unfold arg. rewrite Ha. apply Hk. Qed.

Lemma writes_ok : writes (WriteSimpleString (bs "OK")) (encode (VSimple (bs "OK"))).
Proof. by apply writes_simple. Qed.

(** The answers of the store's operations, written. *)
Lemma writes_okReply r : exists m, reply (W := bytes) (WriteSimpleString (bs "OK")) = reply m
  /\ writes m (encode (okReply r)).
Proof. eexists. split; [done|apply writes_ok]. Qed.

Lemma writes_bulkReply (o : option bytes) :
  exists m, match o with None => reply (W := bytes) WriteNullBulkString | Some v => reply (WriteBulkString v) end
            = reply m /\ writes m (encode (bulkReply (RBytes o))).
Proof. destruct o; eexists; (split; [done|]); [apply writes_bulk|apply writes_null_bulk]. Qed.

Lemma writes_intReply n : exists m, reply (W := bytes) (WriteInteger n) = reply m
  /\ writes m (encode (VInteger n)).
Proof. eexists. split; [done|apply writes_integer]. Qed.

(** Closes the side condition of [performs_does]. *)
Ltac does_op :=
  apply performs_does;
  [first [apply okReply_ok|apply bulkReply_ok|apply intReply_ok]|];
  intros st; cbn [run getOp];
  repeat match goal with |- context [let '(_, _) := ?x in _] => destruct x; cbn beta iota end;
  split; [done|solve [apply writes_okReply|apply writes_bulkReply|apply writes_intReply]].

Lemma arityError_performs k name : performs (wrongArity lib name) k (says (arityError lib name)).
Proof.
  apply performs_error. rewrite !has_crlf_app. unfold ToLower. rewrite safeName_ascii.
  by rewrite lower_line by apply safeName_line.
Qed.

Lemma parseTTL_duration arg unit : unit = Second \/ unit = Millisecond -> parseTTL arg unit = duration arg unit.
Proof.
  intros Hu. unfold duration. destruct (parseTTL arg unit) as [d|] eqn:Hp.
  - apply (parseTTL_spec _ _ _ Hu) in Hp as (n & -> & -> & Hi). simpl. by rewrite decide_True.
  - destruct (integer_of arg) as [n|] eqn:Hn; [|done]. simpl. case_decide as Hi; [|done].
    assert (parseTTL arg unit = Some (n * unit)) as H by (apply (parseTTL_spec _ _ _ Hu); eauto).
    congruence.
Qed.

Lemma expiryOptions_unit o :
  assoc o expiryOptions = (fun u => mkOption u.1 u.2) <$> expiryUnit o.
Proof.
  unfold assoc, expiryOptions, expiryUnit. cbn [List.find fst].
  repeat (rewrite bool_decide_decide; case_decide; [by subst|]; rewrite decide_False by congruence).
  done.
Qed.

Lemma expiryUnit_units o u : expiryUnit o = Some u -> u.1 = Second \/ u.1 = Millisecond.
Proof. unfold expiryUnit. repeat case_decide; intros; simplify_eq; auto. Qed.

Lemma epochPlus_id d : epochPlus d = d.
Proof. unfold epochPlus, Time_Add, ofUnixMilli. lia. Qed.

Lemma performs_set args : (2 <= length args)%nat -> performs (set lib env args) KSimple (setPlan lib env args).
Proof.
  intros Hl. destruct args as [|k [|v args]]; [simpl in Hl; lia..|]. unfold set.
  eapply performs_arg; [done|]. eapply performs_arg; [done|].
  destruct args as [|o [|n [|x args]]]; cbn [setPlan].
  - does_op.
  - by apply performs_error.
  - cbn [lenZ length Z.of_nat Z.eqb Pos.of_succ_nat Pos.eqb Pos.succ]. unfold lenZ. cbn [length]. 
    change (Z.of_nat 4 =? 2) with false. change (Z.of_nat 4 =? 4) with true. cbn iota.
    eapply performs_arg; [done|]. rewrite expiryOptions_unit.
    destruct (expiryUnit (ToUpper lib o)) as [[unit absolute_]|] eqn:Hu; [|by apply performs_error].
    cbn [fmap option_fmap option_map fst snd]. eapply performs_arg; [done|]. cbn [unit_ absolute].
    rewrite parseTTL_duration by (by apply expiryUnit_units in Hu).
    destruct (duration n unit) as [d|]; [|by apply performs_error].
    destruct (d <=? 0); [by apply performs_error|].
    rewrite epochPlus_id. destruct absolute_; does_op.
  - unfold lenZ. cbn [length]. rewrite (proj2 (Z.eqb_neq _ 2)), (proj2 (Z.eqb_neq _ 4)) by lia.
    by apply performs_error.
Qed.

Lemma performs_mset args : performs (mset lib args) KSimple (msetPlan lib args).
Proof.
  unfold mset, msetPlan. replace (lenZ args mod 2 =? 0) with (Nat.even (length args)).
  - destruct (Nat.even (length args)); simpl; [|apply arityError_performs].
    does_op.
  - unfold lenZ. rewrite <- (Nat2Z.inj_mod _ 2).
    destruct (Nat.even (length args)) eqn:He; symmetry.
    + apply Nat.even_spec in He as [k ->]. rewrite Nat.mul_comm, Nat.Div0.mod_mul. done.
    + rewrite <- Nat.negb_odd, negb_false_iff, Nat.odd_spec in He. destruct He as [k ->].
      rewrite Nat.add_comm, Nat.mul_comm, Nat.Div0.mod_add. done.
Qed.

Lemma performs_get k : performs (r ← stored (Get (Now env 0) (Now env 1) k);
    match r with None => reply WriteNullBulkString | Some v => reply (WriteBulkString v) end)
  KBulk (does (getOp env k) bulkReply).
Proof.
  does_op.
Qed.

Lemma performs_strlen k : performs (r ← stored (Get (Now env 0) (Now env 1) k);
    match r with None => reply (WriteInteger 0) | Some v => reply (WriteInteger (lenZ v)) end)
  KInteger (does (getOp env k) intReply).
Proof.
  apply performs_does; [apply intReply_ok|]. intros st. simpl. destruct (Get _ _ _ _) as [st' [v|]]; (split; [done|apply writes_intReply]).
Qed.

Lemma mgetKeys_runs i ks s w :
  let '(st, rs) := runs (getOps env i ks) (store s) in
  mgetKeys env i ks (s, w) = ((setStore st s, w ++ concat (encode_item <$> (itemOf <$> rs))), Ret tt)
  /\ length rs = length ks.
Proof.
  revert i s w. induction ks as [|k ks IH]; intros i s w.
  { simpl. by rewrite setStore_id, app_nil_r. }
  cbn [getOps runs run mgetKeys]. unfold stored at 1. unfold mbind at 1 2, GoM_bind.
  destruct (Get (Now env i) (Now env (S i)) k (store s)) as [st1 r].
  specialize (IH (S (S i)) (setStore st1 s)). cbn [store setStore] in IH.
  assert (exists m, (match r with None => reply WriteNullBulkString | Some v => reply (WriteBulkString v) end)
    = reply (W := bytes) m /\ writes m (encode_item r)) as (m & -> & Hm).
  { destruct r; eexists; (split; [done|]); [apply writes_bulk|apply writes_null_bulk]. }
  unfold reply. rewrite (Hm w). specialize (IH (w ++ encode_item r)).
  destruct (runs (getOps env (S (S i)) ks) st1) as [st2 rs]. destruct IH as [-> Hl].
  split; [|simpl; congruence]. rewrite !fmap_cons. cbn [concat itemOf]. by rewrite (assoc_L (++)).
Qed.

Lemma performs_mget args :
  performs (mget env args) (KArray (Some (length args))) (mkPlan (getOps env 0 args) (fun rs => VBulks (itemOf <$> rs))).
Proof.
  intros s w. cbn [ops said]. unfold mget, mbind, GoM_bind, reply. rewrite (writes_header (lenZ args) w).
  pose proof (mgetKeys_runs 0 args s (w ++ countLine Byte.x2a (lenZ args))) as H.
  destruct (runs _ _) as [st rs]. destruct H as [-> Hl]. cbn [encode].
  unfold lenZ. rewrite length_fmap, Hl, (assoc_L (++)). split_and!; [done|done|].
  simpl. by rewrite length_fmap.
Qed.

Lemma performs_increment k d : performs (increment env k d) KInteger (does (OpIncrement (Now env 0) k d) intReply).
Proof.
  apply performs_does; [apply intReply_ok|]. intros st. simpl. destruct (Increment _ _ _ _) as [st' [n|[]]].
  - split; [done|apply writes_intReply].
  - split; [done|]. eexists. split; [done|]. by apply writes_error.
Qed.

Lemma performs_expire unit args : unit = Second \/ unit = Millisecond -> length args = 2%nat ->
  performs (expireIn env args unit) KInteger (expirePlan env unit false args) /\
  performs (expireAtIn env args unit) KInteger (expirePlan env unit true args).
Proof.
  intros Hu Hl. destruct args as [|k [|n [|]]]; try done. unfold expireIn, expireAtIn, expirePlan.
  split; (eapply performs_arg; [done|]); rewrite parseTTL_duration by done;
    (destruct (duration n unit) as [d|]; [|by apply performs_error]);
    (eapply performs_arg; [done|]); (apply performs_does; [apply intReply_ok|]); intros st; simpl.
  - destruct (Expire _ _ _ _ _) as [st' b]. split; [done|apply writes_intReply].
  - rewrite epochPlus_id. destruct (ExpireAt _ _ _ _) as [st' b]. split; [done|apply writes_intReply].
Qed.

Lemma performs_ttl k args unit :
  args !! 0%nat = Some k -> performs (ttlIn env args unit) KInteger (does (OpTTL (Now env 0) k) (ttlReply unit)).
Proof.
  intros Hk. eapply performs_arg; [done|]. apply performs_observe; [apply ttlReply_ok|]. intros s. simpl.
  destruct (TTL (Now env 0) k (store s)) as [d []]; split; try done; apply writes_intReply.
Qed.

(** ** The commands that are not about the keyspace *)

Definition administers (h : GoM (Server * bytes) unit) (k : kind) : Prop :=
  forall s w, exists s' v, h (s, w) = ((s', w ++ encode v), Ret tt) /\
    framed v /\ is_kind k v /\ readShards (store s') = readShards (store s) /\
    configured (store s) (store s').

Lemma administers_says m k v :
  writes m (encode v) -> framed v -> is_kind k v -> administers (reply m) k.
Proof. intros Hm Hf Hk s w. exists s, v. unfold reply. by rewrite (Hm w). Qed.

Lemma administers_error k msg : has_crlf msg = false -> administers (reply (WriteError msg)) k.
Proof.
  intros. apply (administers_says _ _ (VError msg)); [by apply writes_error|done|by destruct k].
Qed.

Lemma administers_arg i args c k :
  (i < length args)%nat -> (forall a, administers (c a) k) -> administers (arg i args ≫= c) k.
Proof.
  intros Hi Hk s w. unfold arg. destruct (lookup_lt_is_Some_2 args i Hi) as [a ->]. apply Hk.
Qed.

Lemma administers_observe {A} (f : Server -> A) c k :
  (forall a, administers (c a) k) -> administers (observe f ≫= c) k.
Proof. intros Hk s w. apply Hk. Qed.

Lemma administers_bulk v : administers (reply (WriteBulkString v)) KBulk.
Proof. by apply (administers_says _ _ (VBulk v)); [apply writes_bulk| |]. Qed.

Lemma administers_info args : administers (info lib env args) KBulk.
Proof.
  assert (forall (f : Server -> bytes),
    administers (out ← observe f; reply (WriteBulkString out)) KBulk) as H
    by (intros f; apply administers_observe, administers_bulk).
  unfold info. destruct (lenZ args =? 1) eqn:Hl; [|intros s w; apply (H _ s w)].
  unfold lenZ in Hl. destruct args as [|a args]; [done|]. intros s w. apply (H _ s w).
Qed.

Lemma administers_arity name k : administers (wrongArity lib name) k.
Proof.
  apply administers_error. rewrite !has_crlf_app. unfold ToLower. rewrite safeName_ascii.
  by rewrite lower_line by apply safeName_line.
Qed.

Lemma administers_configGet args : (1 <= length args)%nat -> administers (configGet lib args) (KArray None).
Proof.
  intros Hl. apply administers_arg; [lia|]. intros sub.
  destruct (negb (EqualFold lib sub (bs "GET"))); [by apply administers_error|].
  destruct (lenZ args =? 2) eqn:H2; cbn [negb]; [|apply administers_arity]. unfold lenZ in H2.
  apply administers_arg; [lia|]. intros pattern. apply administers_observe. intros l.
  destruct (matchSettings pattern l) as [matched|]; [|by apply administers_error].
  intros s w. unfold mbind, GoM_bind, reply. rewrite (writes_header _ w), writeSettings_items.
  exists s, (VBulks (concat ((fun p => [Some p.1; Some p.2]) <$> matched))). split_and!; try done.
  cbn [encode]. rewrite (assoc_L (++)). do 4 f_equal. unfold lenZ. f_equal.
  clear. induction matched as [|p l IH]; [done|]. rewrite fmap_cons. cbn [concat app length]. lia.
Qed.

Lemma administers_bgrewriteaof args : lib_ok lib -> administers (bgrewriteaof lib args) KSimple.
Proof.
  intros Hlib s w. unfold bgrewriteaof, observe. unfold mbind at 1, GoM_bind.
  destruct (aof s) as [log|] eqn:Hlog; [|by apply administers_error].
  unfold stored, mbind, GoM_bind. destruct (BeginRewrite log) as [log' r].
  set (s1 := setStore _ s). assert (readShards (store s1) = readShards (store s)) as Hsh by done.
  assert (configured (store s) (store s1)) as Hc1.
  { split_and!; [done|done|]. intros Hn. unfold aof in Hlog. congruence. }
  destruct r as [e|].
  - destruct (administers_error KSimple (bs "ERR " ++ errorText lib e)) with s1 w
      as (s' & v & ? & ? & ? & Hs' & Hc); [by rewrite has_crlf_app, Hlib|]. exists s', v.
    rewrite Hs'. split_and!; try done. by eapply configured_trans.
  - destruct (administers_says (WriteSimpleString (bs "Background append only file rewriting started"))
      KSimple (VSimple (bs "Background append only file rewriting started"))) with s1 w
      as (s' & v & ? & ? & ? & Hs' & Hc); [by apply writes_simple|done|done|]. exists s', v.
    rewrite Hs'. split_and!; try done. by eapply configured_trans.
Qed.

(** ** The table *)

(** The plan's operations respect the clock. *)
Definition timely (p : plan) : Prop :=
  forall t, t <= Now env 0 ->
    clocked t (ops p) /\ forall o x, o ∈ ops p -> x ∈ readings o -> exists i, x = Now env i.

Lemma timely_says v : timely (says v).
Proof. intros t _. split; [done|]. intros o x H. by apply elem_of_nil in H. Qed.

Context (Hclock : forall i, Now env i <= Now env (S i)).

Lemma timely_none o g : op_ok o -> readings o = [] -> timely (does o g).
Proof.
  intros Ho Hr t _. split; [by cbn; rewrite Hr; repeat constructor|].
  intros o' x ->%list_elem_of_singleton. rewrite Hr. by intros ?%elem_of_nil.
Qed.

Lemma timely_one o g : op_ok o -> readings o = [Now env 0] -> timely (does o g).
Proof.
  intros Ho Hr t Ht. split; [cbn; rewrite Hr; split_and!; [by repeat constructor|done..]|].
  intros o' x ->%list_elem_of_singleton. rewrite Hr. intros ->%list_elem_of_singleton. by exists 0%nat.
Qed.

Lemma timely_two o g : op_ok o -> readings o = [Now env 0; Now env 1] -> timely (does o g).
Proof.
  intros Ho Hr t Ht. pose proof (Hclock 0%nat).
  split; [cbn; rewrite Hr; split_and!; [repeat constructor; lia|done..]|].
  intros o' x ->%list_elem_of_singleton. rewrite Hr.
  intros [->|[->|?%elem_of_nil]%elem_of_cons]%elem_of_cons; [by exists 0%nat|by exists 1%nat|done].
Qed.

Lemma timely_gets g ks : timely (mkPlan (getOps env 0 ks) g).
Proof.
  assert (forall i t, t <= Now env i -> clocked t (getOps env i ks) /\
    forall o x, o ∈ getOps env i ks -> x ∈ readings o -> exists j, x = Now env j) as H; [|intros t Ht; by apply H].
  induction ks as [|k ks IH]; intros i t Ht; cbn [getOps].
  - split; [done|]. intros o x H. by apply elem_of_nil in H.
  - pose proof (Hclock i). pose proof (Hclock (S i)).
    destruct (IH (S (S i)) (Now env (S i))) as [Hc Hx]; [done|]. split.
    + split_and!; [repeat constructor; lia|done|done].
    + intros o x [->|Ho]%elem_of_cons Hr; [|by eapply Hx]. cbn in Hr.
      apply elem_of_cons in Hr as [->|[->|?%elem_of_nil]%elem_of_cons]; eauto. done.
Qed.

(** What the catalogue says of a command is what the table's handler does. *)
Definition carries_out (c : command (W := bytes)) (e : entry_) : Prop :=
  isWrite c = writing e /\
  forall rest, arityOk c rest = fits e rest /\
    (fits e rest = true ->
     match does_ e rest with
     | Some p => performs (fn c rest) (answers e rest) p /\ timely p
     | None => writing e = false /\ administers (fn c rest) (answers e rest)
     end).

Lemma fits_least (e : entry_) rest : fits e rest = true -> (least e <= length rest)%nat.
Proof. unfold fits. by intros [H%Nat.leb_le _]%andb_prop. Qed.

Lemma fits_most (e : entry_) n rest : most e = Some n -> fits e rest = true -> (length rest <= n)%nat.
Proof. unfold fits. by intros -> [_ H%Nat.leb_le]%andb_prop. Qed.

Lemma performs_onKey f args h k :
  (1 <= length args)%nat ->
  (forall a, args !! 0%nat = Some a -> performs h k (f a) /\ timely (f a)) ->
  performs h k (onKey f args) /\ timely (onKey f args).
Proof. destruct args as [|a args]; [simpl; lia|]. intros _ Hf. by apply Hf. Qed.

Ltac arity :=
  apply eq_true_iff_eq; unfold arityOk, fits, lenZ; cbn [snd minArgs maxArgs least most];
  rewrite negb_true_iff, orb_false_iff, andb_false_iff, andb_true_iff,
    !Z.ltb_ge, Z.leb_gt, ?Nat.leb_le; intuition lia.

Lemma set_timely args : timely (setPlan lib env args).
Proof.
  unfold setPlan. repeat case_match; try apply timely_says.
  - by apply timely_none.
  - by apply timely_two.
  - by apply timely_one.
Qed.

Lemma expire_timely unit absolute_ args : timely (expirePlan env unit absolute_ args).
Proof.
  unfold expirePlan. repeat case_match; try apply timely_says; [by apply timely_one|by apply timely_two].
Qed.

Lemma performs_ping args : (length args <= 1)%nat ->
  performs (ping args) match args with [] => KSimple | _ => KBulk end
    match args with [a] => says (VBulk a) | _ => says (VSimple (bs "PONG")) end.
Proof.
  destruct args as [|a [|]]; simpl; [..|lia]; intros _.
  - by apply performs_says; [apply writes_simple| |].
  - eapply performs_arg; [done|]. by apply performs_says; [apply writes_bulk| |].
Qed.

Lemma performs_append args : (2 <= length args)%nat ->
  performs (append env args) KInteger
    match args with k :: v :: _ => does (OpAppend (Now env 0) k v) intReply | _ => says VNullBulk end.
Proof.
  destruct args as [|k [|v args]]; [simpl; lia..|]. intros _.
  eapply performs_arg; [done|]. eapply performs_arg; [done|]. does_op.
Qed.

Lemma performs_read o n k : (forall st, run o st = (st, RInt (n st))) ->
  answer_ok k intReply ->
  performs (x ← observe (fun s => n (store s)); reply (WriteInteger x)) k (does o intReply).
Proof.
  intros Ho Hk. apply performs_observe; [done|]. intros s. rewrite Ho. split; [done|apply writes_intReply].
Qed.

Lemma table_ok : lib_ok lib ->
  Forall2 (fun a b => a.1 = b.1 /\ carries_out a.2 b.2) (commands lib env) (catalogue lib env).
Proof.
  intros Hlib. unfold commands, catalogue.
  repeat (apply Forall2_cons; split; [split; [done|]; split; [done|]; intros rest; split; [arity|];
    cbn [snd answers does_ fn]; intros Hfit; pose proof (fits_least _ _ Hfit) as Hl;
    cbn [least] in Hl|]); [..|apply Forall2_nil_2]; cbn [snd] in *.
  - split; [|by repeat case_match; apply timely_says]. apply performs_ping.
    by apply (fits_most _ 1%nat) in Hfit.
  - apply performs_onKey; [done|]. intros a Ha. split; [|apply timely_says].
    eapply performs_arg; [done|]. by apply performs_says; [apply writes_bulk| |].
  - split; [by apply performs_set|apply set_timely].
  - split; [apply performs_mset|]. unfold msetPlan. case_match; [by apply timely_none|apply timely_says].
  - apply performs_onKey; [done|]. intros a Ha. split; [|by apply timely_two].
    eapply performs_arg; [done|]. apply performs_get.
  - split; [apply performs_mget|apply timely_gets].
  - apply performs_onKey; [done|]. intros a Ha. split; [|by apply timely_one].
    eapply performs_arg; [done|]. apply performs_increment.
  - apply performs_onKey; [done|]. intros a Ha. split; [|by apply timely_one].
    eapply performs_arg; [done|]. apply performs_increment.
  - split; [by apply performs_append|]. repeat case_match; try apply timely_says. by apply timely_one.
  - apply performs_onKey; [done|]. intros a Ha. split; [|by apply timely_two].
    eapply performs_arg; [done|]. apply performs_strlen.
  - split; [|by apply timely_one]. unfold del, keys. does_op.
  - split; [|by apply timely_one]. apply (performs_read _ (Exists (Now env 0) rest)); [done|apply intReply_ok].
  - split; [|apply expire_timely]. apply performs_expire; [by left|].
    apply (fits_most _ 2%nat) in Hfit; [lia|done].
  - split; [|apply expire_timely]. apply performs_expire; [by right|].
    apply (fits_most _ 2%nat) in Hfit; [lia|done].
  - split; [|apply expire_timely]. apply performs_expire; [by left|].
    apply (fits_most _ 2%nat) in Hfit; [lia|done].
  - split; [|apply expire_timely]. apply performs_expire; [by right|].
    apply (fits_most _ 2%nat) in Hfit; [lia|done].
  - apply performs_onKey; [done|]. intros a Ha. split; [by apply performs_ttl|by apply timely_one].
  - apply performs_onKey; [done|]. intros a Ha. split; [by apply performs_ttl|by apply timely_one].
  - split; [|by apply timely_one]. apply (performs_read _ (DBSize (Now env 0))); [done|apply intReply_ok].
  - split; [done|apply administers_info].
  - split; [done|apply administers_configGet; lia].
  - split; [done|by apply administers_bgrewriteaof].
Qed.

Lemma table_find name : lib_ok lib ->
  match assoc name (commands lib env), assoc name (catalogue lib env) with
  | Some c, Some e => carries_out c e
  | None, None => True
  | _, _ => False
  end.
Proof.
  intros Hlib. induction (table_ok Hlib) as [|[n1 c] [n2 e] l1 l2 [Hn Hc] _ IH]; [done|].
  simpl in Hn, Hc. subst n2. unfold assoc in *. cbn [List.find fst].
  destruct (bool_decide (n1 = name)); [done|exact IH].
Qed.
End Performs.

(** ** Dispatch *)

Section Dispatch.
Context (lib : Lib) (env : Env).

(** How a server over the map [m] may answer a command: the answer, and the map it
    leaves.  A write command may have to wait for the log or for memory: it is refused
    when the log has failed, and keys may be evicted before it. *)
Inductive answered (s : Server) (m : kv) : list bytes -> kv -> resp_value -> Prop :=
| an_unknown a0 rest :
    assoc (ToUpper lib a0) (catalogue lib env) = None ->
    answered s m (a0 :: rest) m (VError (bs "ERR unknown command '" ++ safeName (ToUpper lib a0) ++ bs "'"))
| an_arity a0 rest e :
    assoc (ToUpper lib a0) (catalogue lib env) = Some e -> fits e rest = false ->
    answered s m (a0 :: rest) m (arityError lib (ToUpper lib a0))
| an_log_failed a0 rest e err :
    assoc (ToUpper lib a0) (catalogue lib env) = Some e -> fits e rest = true -> writing e = true ->
    aofErr s = Some err ->
    answered s m (a0 :: rest) m (VError (bs "MISCONF Errors writing to the AOF file"))
| an_full a0 rest e evicted :
    assoc (ToUpper lib a0) (catalogue lib env) = Some e -> fits e rest = true -> writing e = true ->
    aofErr s = None -> 0 < maxMemory (store s) ->
    answered s m (a0 :: rest) (spec_del evicted m)
      (VError (bs "OOM command not allowed when used memory > 'maxmemory'."))
| an_done a0 rest e evicted p :
    assoc (ToUpper lib a0) (catalogue lib env) = Some e -> fits e rest = true ->
    (writing e = true -> aofErr s = None) ->
    (evicted <> [] -> writing e = true /\ 0 < maxMemory (store s)) ->
    does_ e rest = Some p ->
    is_kind (answers e rest) (said p (specs (ops p) (spec_del evicted m)).2) ->
    answered s m (a0 :: rest) (specs (ops p) (spec_del evicted m)).1
      (said p (specs (ops p) (spec_del evicted m)).2)
| an_admin a0 rest e v :
    assoc (ToUpper lib a0) (catalogue lib env) = Some e -> fits e rest = true -> does_ e rest = None ->
    is_kind (answers e rest) v ->
    answered s m (a0 :: rest) m v.

Context (Hlib : lib_ok lib) (Henv : env_ok env).

(** The store implements [m] from [t] on, as seen by any later clock. *)
Definition implements (t : Time) (st : Store logState) (m : kv) : Prop :=
  forall t', t <= t' -> (forall i, Now env i <= t') -> refines t' st m.

Lemma endReading_le t t' os :
  t <= t' -> (forall o x, o ∈ os -> x ∈ readings o -> x <= t') -> endReading t os <= t'.
Proof.
  revert t. induction os as [|o os IH]; intros t Ht Hx; [done|]. cbn [endReading foldl].
  apply IH; [|intros o' x Ho; apply Hx; set_solver]. unfold lastReading.
  destruct (last (readings o)) as [x|] eqn:Hl; [|done]. apply (Hx o x); [set_solver|].
  by apply last_Some_elem_of.
Qed.

Lemma plan_refines t p st m :
  zeroTime <= t <= Now env 0 -> timely env p -> refines t st m ->
  (runs (ops p) st).2 = (specs (ops p) m).2 /\
  implements t (runs (ops p) st).1 (specs (ops p) m).1.
Proof.
  intros Ht Hp Hr. destruct (Hp t) as [Hc Hx]; [lia|].
  destruct (runs_refine t (ops p) st m) as [H1 H2]; [lia|done|done|]. split; [done|].
  intros t' Htt Hall. eapply refines_later; [|exact H2]. apply endReading_le; [done|].
  intros o x Ho Hxo. destruct (Hx o x Ho Hxo) as [i ->]. apply Hall.
Qed.

Lemma evictions_refine {J} `{!Journal J} t (ks : list bytes) (st : Store J) m :
  refines t st m -> refines t (history (Evicted <$> ks) st) (spec_del ks m).
Proof.
  revert st m. induction ks as [|k ks IH]; intros st m Hr; [done|]. rewrite fmap_cons.
  cbn [history foldl happen spec_del]. apply IH. by apply evict_effect.
Qed.

Lemma enforce_spec t st m :
  refines t st m ->
  exists st' n ok ks, EnforceMemoryLimit (poolRange env) st = Some (st', n, ok) /\
    refines t st' (spec_del ks m) /\ (ks <> [] \/ ok = false -> 0 < maxMemory st).
Proof.
  intros Hr. destruct (EnforceMemoryLimit_total (poolRange env) st (ref_wf _ _ _ Hr) (env_range _ Henv))
    as (st' & n & ok & He & _).
  destruct (Z.ltb_spec 0 (maxMemory st)) as [Hm|Hm].
  - destruct (enforce_history _ _ _ _ _ He) as [ks ->]. exists (history (Evicted <$> ks) st), n, ok, ks.
    split_and!; [done|by apply evictions_refine|done].
  - exists st, 0, true, []. split_and!; [|done|intros [?|?]; done].
    unfold EnforceMemoryLimit. by rewrite (proj2 (Z.leb_le _ _) Hm).
Qed.

Lemma implements_refines t st m : refines t st m -> implements t st m.
Proof. intros Hr t' Ht _. by eapply refines_later. Qed.

Lemma reply_error msg s (w : bytes) :
  has_crlf msg = false -> reply (WriteError msg) (s, w) = ((s, w ++ encode (VError msg)), Ret tt).
Proof. intros Hm. unfold reply. by rewrite (writes_error msg Hm w). Qed.

Lemma arityError_line name : has_crlf (bs "ERR wrong number of arguments for '"
  ++ ToLower (unicodeToLower lib) (safeName name) ++ bs "' command") = false.
Proof.
  rewrite !has_crlf_app. unfold ToLower. rewrite safeName_ascii. by rewrite lower_line by apply safeName_line.
Qed.

(** Running a plan, with or without the evictions before it. *)
Lemma performs_answered t s s1 w m a0 rest e evicted p h :
  zeroTime <= t <= Now env 0 ->
  assoc (ToUpper lib a0) (catalogue lib env) = Some e -> fits e rest = true -> does_ e rest = Some p ->
  (writing e = true -> aofErr s = None) ->
  (evicted <> [] -> writing e = true /\ 0 < maxMemory (store s)) ->
  refines t (store s1) (spec_del evicted m) ->
  performs h (answers e rest) p -> timely env p ->
  exists s' m' v, h (s1, w) = ((s', w ++ encode v), Ret tt) /\ framed v /\
    answered s m (a0 :: rest) m' v /\ implements t (store s') m' /\ configured (store s1) (store s').
Proof.
  intros Ht Hc Hfit Hp Ha Hev Hr Hperf Htime.
  destruct (plan_refines t p (store s1) _ Ht Htime Hr) as [Hrep Hr'].
  pose proof (configured_runs (ops p) (store s1)) as Hcf.
  specialize (Hperf s1 w). destruct (runs (ops p) (store s1)) as [st rs]. cbn [fst snd] in Hrep, Hr', Hcf. subst rs.
  destruct Hperf as (-> & Hf & Hk).
  eexists _, _, _. split; [done|]. split; [done|]. split; [by eapply an_done|]. done.
Qed.

(** A write command that passed the arity check. *)
Lemma runWrite_answered t s s1 w m a0 rest c e :
  zeroTime <= t <= Now env 0 -> store s1 = store s -> refines t (store s) m ->
  assoc (ToUpper lib a0) (catalogue lib env) = Some e -> fits e rest = true -> writing e = true ->
  (forall p, does_ e rest = Some p -> performs (fn c rest) (answers e rest) p /\ timely env p) ->
  is_Some (does_ e rest) ->
  exists s' m' v, runWrite env c rest (s1, w) = ((s', w ++ encode v), Ret tt) /\ framed v /\
    answered s m (a0 :: rest) m' v /\ implements t (store s') m' /\ configured (store s1) (store s').
Proof.
  intros Ht Hs1 Hr Hc Hfit Hw Hfn [p Hp]. destruct (Hfn p Hp) as [Hperf Htime].
  assert (aofErr s1 = aofErr s) as He1 by (unfold aofErr, aof; by rewrite Hs1).
  unfold runWrite, observe. unfold mbind at 1, GoM_bind. rewrite He1.
  destruct (aofErr s) as [err|] eqn:He.
  { eexists s1, m, _. split; [by apply reply_error|]. split; [done|]. split; [by eapply an_log_failed|].
    rewrite Hs1. split; [by apply implements_refines|apply configured_refl]. }
  destruct (enforce_spec t (store s) m Hr) as (st & n & ok & ks & Hen & Hrk & Hpos).
  pose proof (configured_EnforceMemoryLimit _ _ _ _ _ Hen) as Hcf.
  unfold mbind at 1, GoM_bind, enforce. rewrite Hs1, Hen. destruct ok; cbn [negb].
  - destruct (performs_answered t s (setStore st s1) w m a0 rest e ks p (fn c rest))
      as (s' & m' & v & Hrun & Hf & Hans & Him & Hcf'); try done; [by auto|].
    unfold mbind, GoM_bind. rewrite Hrun. unfold syncAlways.
    exists (syncAof s'), m', v. split; [done|]. split; [done|]. split; [done|]. split.
    + intros t' Htt Hall. eapply refines_ext; [|by apply Him]. unfold syncAof. by destruct (aof s').
    + eapply configured_trans; [exact Hcf|]. eapply configured_trans; [exact Hcf'|].
      unfold syncAof, aof. destruct (journal (store s')) as [l|] eqn:Hj; [|done].
      split_and!; [done|done|congruence].
  - eexists _, _, _. split; [by apply reply_error|]. split; [done|]. split; [eapply an_full; eauto|].
    split; [by apply implements_refines|done].
Qed.

Lemma dispatch_answered t args s w m :
  args <> [] -> zeroTime <= t <= Now env 0 -> refines t (store s) m ->
  exists s' m' v, dispatch lib env args (s, w) = ((s', w ++ encode v), Ret tt) /\ framed v /\
    answered s m args m' v /\ implements t (store s') m' /\ configured (store s) (store s').
Proof.
  intros Hne Ht Hr. destruct args as [|a0 rest]; [done|].
  unfold dispatch, countCommand. unfold mbind at 1, GoM_bind. cbn beta iota.
  set (s1 := mkServer _ _ _ _). assert (store s1 = store s) as Hs1 by done.
  unfold arg. unfold mbind at 1, GoM_bind. cbn [lookup list_lookup mret GoM_ret].
  change (drop 1 (a0 :: rest)) with rest.
  pose proof (table_find lib env (env_clock _ Henv) (ToUpper lib a0) Hlib) as Htab.
  destruct (assoc (ToUpper lib a0) (commands lib env)) as [c|],
    (assoc (ToUpper lib a0) (catalogue lib env)) as [e|] eqn:Hc; try done.
  2: { assert (has_crlf (bs "ERR unknown command '" ++ safeName (ToUpper lib a0) ++ bs "'") = false) as Hl
         by (by rewrite !has_crlf_app, safeName_line).
       eexists s1, m, _. split; [by apply reply_error|]. split; [done|].
       split; [by apply an_unknown|]. split; [by apply implements_refines|apply configured_refl]. }
  destruct Htab as [Hwr Hfit]. destruct (Hfit rest) as [Har Hdo]. rewrite Har.
  destruct (fits e rest) eqn:Hf; cbn [negb].
  2: { eexists s1, m, _. split; [apply reply_error, arityError_line|].
       split; [apply arityError_line|]. split; [by eapply an_arity|].
       split; [by apply implements_refines|apply configured_refl]. }
  specialize (Hdo eq_refl). rewrite Hwr.
  destruct (does_ e rest) as [p|] eqn:Hp.
  - destruct (writing e) eqn:Hw.
    + apply (runWrite_answered t s s1 w m a0 rest c e); try done.
      intros p' Hp'. rewrite Hp in Hp'. by injection Hp' as <-.
    + destruct Hdo. by apply (performs_answered t s s1 w m a0 rest e [] p); try (rewrite Hw).
  - destruct Hdo as [-> Had]. destruct (Had s1 w) as (s' & v & Hrun & Hf' & Hk & Hsh & Hcf).
    exists s', m, v. split; [done|]. split; [done|]. split; [by eapply an_admin|]. split; [|done].
    apply implements_refines. by eapply refines_ext; [|exact Hr].
Qed.
End Dispatch.

(** ** A whole connection *)

(** The commands that are about the keyspace. *)
Definition about_keys (lib : Lib) (args : list bytes) : bool :=
  match args with
  | [] => false
  | a0 :: _ => negb (bool_decide (ToUpper lib a0 ∈ [bs "INFO"; bs "CONFIG"; bs "BGREWRITEAOF"]))
  end.

(** What a server without log and memory limit answers: a function of the map. *)
Definition answer (lib : Lib) (env : Env) (args : list bytes) (m : kv) : kv * resp_value :=
  match args with
  | [] => (m, VNullBulk)
  | a0 :: rest =>
      match assoc (ToUpper lib a0) (catalogue lib env) with
      | None => (m, VError (bs "ERR unknown command '" ++ safeName (ToUpper lib a0) ++ bs "'"))
      | Some e =>
          if fits e rest then
            match does_ e rest with
            | Some p => let '(m', rs) := specs (ops p) m in (m', said p rs)
            | None => (m, VNullBulk)
            end
          else (m, arityError lib (ToUpper lib a0))
      end
  end.

(** The clock of a command is that of the round of the connection's loop that runs it. *)
Fixpoint session (lib : Lib) (envs : nat -> Env) (cmds : list (list bytes)) (m : kv) :
    kv * list resp_value :=
  match cmds with
  | [] => (m, [])
  | args :: rest =>
      let '(m1, v) := answer lib (envs (length cmds)) args m in
      let '(m2, vs) := session lib envs rest m1 in
      (m2, v :: vs)
  end.

Section Session.
Context (lib : Lib) (Hlib : lib_ok lib).

Lemma catalogue_plans env name e rest :
  assoc name (catalogue lib env) = Some e -> does_ e rest = None ->
  name ∈ [bs "INFO"; bs "CONFIG"; bs "BGREWRITEAOF"].
Proof.
  unfold assoc, catalogue. cbn [List.find fst].
  repeat (case_bool_decide; [cbn [fmap option_fmap option_map snd];
    intros [= <-]; cbn [does_]; first [discriminate|intros _; subst name; set_solver]|]). done.
Qed.

Lemma answered_answer env s m args m' v :
  about_keys lib args = true -> aof s = None -> maxMemory (store s) <= 0 ->
  answered lib env s m args m' v -> answer lib env args m = (m', v).
Proof.
  intros Hk Ha Hm Hans. assert (aofErr s = None) as Hn by (unfold aofErr; by rewrite Ha).
  destruct Hans as [a0 rest Hc|a0 rest e Hc Hf|a0 rest e err Hc Hf Hw He|a0 rest e ks Hc Hf Hw He Hp
    |a0 rest e ks p Hc Hf Hw Hks Hp Hkind|a0 rest e v Hc Hf Hp Hkind]; cbn [answer]; rewrite Hc.
  - done.
  - by rewrite Hf.
  - congruence.
  - lia.
  - rewrite Hf, Hp. destruct ks as [|k ks]; [|by destruct (Hks ltac:(done)); lia].
    cbn [spec_del foldl]. by destruct (specs (ops p) m).
  - cbn [about_keys] in Hk. rewrite negb_true_iff, bool_decide_eq_false in Hk.
    by destruct Hk; eapply catalogue_plans.
Qed.

(** One round of the loop, and the last one. *)
Lemma handleLoop_round fu envs f f' args st st' :
  ReadCommand f = (f', Ret args) -> args <> [] -> dispatch lib (envs fu) args st = (st', Ret tt) ->
  handleLoop lib (S fu) envs f st = handleLoop lib fu envs (f' : flat) (st' : Server * bytes).
Proof.
  intros Hr Hne Hd. cbn [handleLoop]. rewrite Hr, Hd. destruct args as [|a args]; [done|].
  unfold lenZ. by rewrite (proj2 (Z.eqb_neq _ 0)) by (simpl; lia).
Qed.

Lemma handleLoop_end fu envs (st : Server * bytes) :
  handleLoop lib (S fu) envs (mkFlat [] EOF) st = (st, true).
Proof. by destruct st. Qed.

Lemma session_loop envs cmds t s w m :
  (forall k, env_ok (envs k)) -> (forall k i, Now (envs (S k)) i <= Now (envs k) 0) ->
  Forall sendable cmds -> Forall (fun c => about_keys lib c = true) cmds ->
  aof s = None -> maxMemory (store s) <= 0 ->
  zeroTime <= t <= Now (envs (length cmds)) 0 -> refines t (store s) m ->
  exists s', handleLoop lib (S (length cmds)) envs
      (mkFlat (concat (encodeCommand <$> cmds)) EOF) (s, w) =
      (s', w ++ concat (encode <$> (session lib envs cmds m).2), true) /\
    refines (Now (envs 0%nat) 0) (store s') (session lib envs cmds m).1.
Proof.
  intros Henv Hclk Hs Hk. revert t s w m.
  induction Hs as [|args cmds Hsend _ IH]; intros t s w m Ha Hm Ht Hr.
  { exists s. rewrite fmap_nil. cbn [concat length session fst snd].
    rewrite handleLoop_end, fmap_nil. cbn [concat]. rewrite app_nil_r.
    split; [done|]. eapply refines_later; [|exact Hr]. apply Ht. }
  inversion_clear Hk as [|? ? Hka Hkc].
  destruct (dispatch_answered lib (envs (length (args :: cmds))) Hlib (Henv _) t args s w m (proj1 Hsend) Ht Hr)
    as (s1 & m1 & v & Hd & _ & Hans & Him & Hc1 & Hc2 & Hc3).
  apply answered_answer in Hans; [|done..].
  pose proof (Hclk (length cmds) 0%nat) as Hnext. pose proof (env_start _ (Henv (length cmds))) as Hst.
  destruct (IH Hkc (Now (envs (length cmds)) 0) s1 (w ++ encode v) m1) as (s' & Hrun & Hr').
  - by apply Hc3.
  - by rewrite Hc1.
  - done.
  - apply Him; [cbn [length] in Ht; lia|intros i; apply Hclk].
  - exists s'. rewrite fmap_cons. cbn [concat].
    rewrite (handleLoop_round _ _ _ _ _ _ _ (ReadCommand_encode args _ EOF Hsend) (proj1 Hsend) Hd).
    cbn [session]. rewrite Hans. destruct (session lib envs cmds m1) as [m2 vs].
    cbn [fst snd] in Hrun, Hr' |- *. rewrite fmap_cons. cbn [concat]. rewrite app_assoc.
    split; [exact Hrun|exact Hr'].
Qed.

(** C11. The server is its specification: whatever command a client sends, [dispatch]
    writes one framed value and leaves a store that implements the map the
    specification names.  Reads and writes answer what the operations of the catalogue
    answer on the expiring map; a write may be refused because the log has failed,
    after which the map is unchanged, or for lack of memory, and keys may be evicted
    before it, only if there is a limit. *)
Theorem dispatch_refines_map (env : Env) (t : Time) (args : list bytes) (s : Server) (w : bytes) (m : kv) :
  env_ok env -> args <> [] -> zeroTime <= t <= Now env 0 -> refines t (store s) m ->
  exists s' m' v, dispatch lib env args (s, w) = ((s', w ++ encode v), Ret tt) /\ framed v /\
    answered lib env s m args m' v /\
    forall t', t <= t' -> (forall i, Now env i <= t') -> refines t' (store s') m'.
Proof.
  intros Henv Hne Ht Hr. destruct (dispatch_answered lib env Hlib Henv t args s w m Hne Ht Hr)
    as (s' & m' & v & Hd & Hf & Ha & Hi & _). by exists s', m', v.
Qed.

(** C32. Replies are well typed: a command of the catalogue that gets as many arguments as
    it takes answers a value of its kind, MGET an array with one item for each key, or
    an error; nothing else can come out of its handler. *)
Theorem reply_kinds (env : Env) (a0 : bytes) (rest : list bytes) (e : entry_) (s : Server) (w : bytes) :
  env_ok env -> store_wf (store s) ->
  assoc (ToUpper lib a0) (catalogue lib env) = Some e -> fits e rest = true ->
  exists s' v, dispatch lib env (a0 :: rest) (s, w) = ((s', w ++ encode v), Ret tt) /\
    is_kind (answers e rest) v.
Proof.
  intros Henv Hwf Hc Hf.
  destruct (dispatch_answered lib env Hlib Henv zeroTime (a0 :: rest) s w _ ltac:(done)
    (conj (Z.le_refl _) (env_start _ Henv)) (wf_refines zeroTime (store s) Hwf))
    as (s' & m' & v & Hd & _ & Ha & _).
  exists s', v. split; [done|].
  inversion Ha; simplify_eq; try (by destruct (answers e rest)); done.
Qed.

(** C1. From socket to socket: a client of a server without log and memory limit sends any
    pipeline of keyspace commands, in whatever fragments the network delivers it, and
    closes.  What it is sent back is exactly the wire form, command by command, of what
    the expiring map answers; the connection has ended and the store implements the
    map that is left. *)
Theorem session_served (envs : nat -> Env) (cmds : list (list bytes)) (src : source) (t : Time) (s : Server) (m : kv) :
  (forall k, env_ok (envs k)) -> (forall k i, Now (envs (S k)) i <= Now (envs k) 0) ->
  Forall sendable cmds -> Forall (fun c => about_keys lib c = true) cmds ->
  aof s = None -> maxMemory (store s) <= 0 ->
  zeroTime <= t <= Now (envs (length cmds)) 0 -> refines t (store s) m ->
  Forall (fun c => c <> []) (chunks src) -> send src = EOF ->
  concat (chunks src) = (writeCommands cmds []).1 ->
  exists s' sock, HandleConn lib envs (S (length cmds)) (mkSocket src [] []) s = (s', sock, true) /\
    sentBytes (transcript sock) = concat (encode <$> (session lib envs cmds m).2) /\
    refines (Now (envs 0%nat) 0) (store s') (session lib envs cmds m).1.
Proof.
  intros Henv Hclk Hs Hk Ha Hm Ht Hr Hne Heof Heq.
  pose proof (HandleConn_loop lib envs (S (length cmds)) src s Hne) as H.
  rewrite (handleLoop_flat _ _ _ _ _ _ (rel_new readerBufSize src Hne)) in H.
  rewrite Heq, Heof, (writes_commands cmds []) in H. cbn [fst app] in H.
  destruct (session_loop envs cmds t s [] m) as (s' & Hrun & Hr'); [done..|]. rewrite Hrun in H.
  destruct (HandleConn _ _ _ _ _) as [[s1 sock] ended]. destruct H as [[= <- Hout <-] _].
  by exists s', sock.
Qed.
End Session.

(** ** Runs *)

Lemma dispatch_refines_map_witness :
  exists s' m' v, dispatch ascii_lib (steady Second) [bs "get"; bs "k"] (NewServer, bs "x") =
      ((s', bs "x" ++ encode v), Ret tt) /\
    answered ascii_lib (steady Second) NewServer ∅ [bs "get"; bs "k"] m' v.
Proof.
  destruct (dispatch_refines_map ascii_lib ltac:(intros e; reflexivity) (steady Second) Second
    [bs "get"; bs "k"] NewServer (bs "x") ∅) as (s' & m' & v & Hd & _ & Ha & _).
  - apply steady_ok. unfold zeroTime, Second. lia.
  - discriminate.
  - simpl. unfold zeroTime, Second. lia.
  - apply New_refines.
  - exists s', m', v. split; [exact Hd|exact Ha].
Defined.

Lemma reply_kinds_witness :
  exists s' v, dispatch ascii_lib (steady Second) [bs "MGET"; bs "a"; bs "b"] (NewServer, []) =
      ((s', [] ++ encode v), Ret tt) /\ is_kind (KArray (Some 2%nat)) v.
Proof.
  destruct (reply_kinds ascii_lib ltac:(intros e; reflexivity) (steady Second) (bs "MGET")
    [bs "a"; bs "b"] (mkEntry_ 1 None false (fun args => KArray (Some (length args)))
      (fun args => Some (mkPlan (getOps (steady Second) 0 args) (fun rs => VBulks (itemOf <$> rs)))))
    NewServer []) as (s' & v & Hd & Hk).
  - apply steady_ok. unfold zeroTime, Second. lia.
  - apply New_wf.
  - reflexivity.
  - reflexivity.
  - exists s', v. split; [exact Hd|exact Hk].
Defined.

(** Three commands in one fragment and a half. *)
Definition three_commands : list (list bytes) :=
  [[bs "SET"; bs "k"; bs "5"]; [bs "INCR"; bs "k"]; [bs "GET"; bs "k"]].

Definition three_source : source :=
  let out := concat (encodeCommand <$> three_commands) in
  mkSource [take 40 out; drop 40 out] EOF.

Lemma session_served_witness :
  exists s' sock, HandleConn ascii_lib (fun _ => steady Second) 4 (mkSocket three_source [] []) NewServer =
      (s', sock, true) /\
    sentBytes (transcript sock) = encode (VSimple (bs "OK")) ++ encode (VInteger 6) ++ encode (VBulk (bs "6")).
Proof.
  destruct (session_served ascii_lib ltac:(intros e; reflexivity) (fun _ => steady Second) three_commands
    three_source Second NewServer ∅) as (s' & sock & Hrun & Hsent & _).
  - intros _. apply steady_ok. unfold zeroTime, Second. lia.
  - intros _ i. simpl. lia.
  - repeat constructor; done.
  - repeat constructor.
  - reflexivity.
  - simpl. lia.
  - simpl. unfold zeroTime, Second. lia.
  - apply New_refines.
  - repeat constructor; discriminate.
  - reflexivity.
  - vm_compute. reflexivity.
  - assert (concat (encode <$> (session ascii_lib (fun _ => steady Second) three_commands ∅).2)
      = encode (VSimple (bs "OK")) ++ encode (VInteger 6) ++ encode (VBulk (bs "6"))) as Hout
      by (vm_compute; reflexivity).
    exists s', sock. split; [exact Hrun|]. rewrite <- Hout. exact Hsent.
Defined.
