(* ===== verification/Clients.v ===== *)
(** * Commands as requests

    What a command asks of the store are the operations of its plan in ServerSpec.v; without
    their clock readings they are requests of Sections.v ([requestsOf]), and what the
    command answers is a function of their replies ([wording]).

    A command may also be refused, or have keys evicted before it: [fate] is what can happen
    to it, [permitted] when.  [command_sections]: [dispatch] alone carries out exactly the
    requests of one of these fates, section by section, and writes its answer.  Net.v
    interleaves them. *)

From stdpp Require Import base gmap list strings sorting relations.
From Stdlib Require Import ZArith Lia.
From Stdlib Require Import Strings.Byte.
From S2P Require Import Prelude.
From S2P Require Import GoStrconv.
From S2P Require Import RespWriter.
From S2P Require Import GoTime.
From S2P Require Import Store.
From S2P Require Import StoreInv.
From S2P Require Import Evict.
From S2P Require Import StoreSpec.
From S2P Require Import Settings.
From S2P Require Import AofLog.
From S2P Require Import Commands.
From S2P Require Import Journalling.
From S2P Require Import CommandsSpec.
From S2P Require Import Connection.
From S2P Require Import ServerSpec.
From S2P Require Import Sections.
From S2P Require Import Linearize.

#[local] Open Scope Z_scope.

(** ** Commands as requests *)

(** An operation without its clock readings. *)
Definition erase (o : op) : req :=
  match o with
  | OpGet _ _ key => QGet key
  | OpTTL _ key => QTTL key
  | OpExists _ keys => QExists keys
  | OpDBSize _ => QDBSize
  | OpSet key v => QSet key v
  | OpSetWithTTL _ key v ttl => QSetWithTTL key v ttl
  | OpSetWithDeadline _ _ key v at_ => QSetWithDeadline key v at_
  | OpMSet pairs => QMSet pairs
  | OpIncrement _ key delta => QIncrement key delta
  | OpAppend _ key suffix => QAppend key suffix
  | OpExpire _ _ key ttl => QExpire key ttl
  | OpExpireAt _ key at_ => QExpireAt key at_
  | OpDel _ keys => QDel keys
  | OpExpireSample n _ range => QSample n range
  end.

(** The plan of a command, errors of [dispatch] included. *)
Definition planOf (lib : Lib) (env : Env) (args : list bytes) : plan :=
  match args with
  | [] => says VNullBulk
  | a0 :: rest =>
      match assoc (ToUpper lib a0) (catalogue lib env) with
      | None => says (VError (bs "ERR unknown command '" ++ safeName (ToUpper lib a0) ++ bs "'"))
      | Some e =>
          if ServerSpec.fits e rest then default (says VNullBulk) (does_ e rest)
          else says (arityError lib (ToUpper lib a0))
      end
  end.

(** An environment for what does not depend on it. *)
Definition noEnv : Env := mkEnv (fun _ => 0) (fun _ _ => []).

Definition requestsOf (lib : Lib) (args : list bytes) : list req :=
  erase <$> ops (planOf lib noEnv args).

Definition wording (lib : Lib) (args : list bytes) : list StoreSpec.reply -> resp_value :=
  said (planOf lib noEnv args).

(** The requests and the wording do not depend on the clock. *)
Definition samePlan (p q : plan) : Prop := erase <$> ops p = erase <$> ops q /\ said p = said q.

Lemma getOps_erase env i ks : erase <$> getOps env i ks = QGet <$> ks.
Proof. revert i. induction ks as [|k ks IH]; intros i; simpl; [done|]. by rewrite IH. Qed.

Lemma catalogue_env lib env1 env2 :
  Forall2 (fun a b : bytes * entry_ => a.1 = b.1 /\
      (forall rest, ServerSpec.fits a.2 rest = ServerSpec.fits b.2 rest) /\
      forall rest, option_Forall2 samePlan (does_ a.2 rest) (does_ b.2 rest))
    (catalogue lib env1) (catalogue lib env2).
Proof.
  unfold catalogue.
  repeat (apply Forall2_cons; split; [split; [done|]; split; [done|]; intros rest; cbn [snd does_]|]);
    [..|apply Forall2_nil_2]; try constructor;
    try (unfold setPlan, msetPlan, expirePlan, onKey; by repeat case_match).
  split; [|done]. cbn [ops]. by rewrite !getOps_erase.
Qed.

Lemma assoc_env lib env1 env2 name :
  option_Forall2 (fun a b : entry_ => (forall rest, ServerSpec.fits a rest = ServerSpec.fits b rest) /\
      forall rest, option_Forall2 samePlan (does_ a rest) (does_ b rest))
    (assoc name (catalogue lib env1)) (assoc name (catalogue lib env2)).
Proof.
  unfold assoc. induction (catalogue_env lib env1 env2) as [|[n1 e1] [n2 e2] l1 l2 [Hn He] _ IH]; [constructor|].
  simpl in Hn. subst n2. cbn [List.find fst]. destruct (bool_decide (n1 = name)); [by constructor|exact IH].
Qed.

Lemma planOf_env lib env1 env2 args : samePlan (planOf lib env1 args) (planOf lib env2 args).
Proof.
  destruct args as [|a0 rest]; [done|]. unfold planOf.
  destruct (assoc_env lib env1 env2 (ToUpper lib a0)) as [e1 e2 [Hf Hd]|]; [|done].
  rewrite (Hf rest). destruct (ServerSpec.fits e2 rest); [|done].
  by destruct (Hd rest).
Qed.

(** ** A command alone *)

Section Alone.
Context {J : Type} `{!Journal J}.
Implicit Types s : Store J.

(** Requests one after the other, the clock standing still. *)
Fixpoint execs (t : Time) (qs : list req) s : Store J * list StoreSpec.reply :=
  match qs with
  | [] => (s, [])
  | q :: qs' =>
      let '(s1, r) := exec t (program q) s in
      let '(s2, rs) := execs t qs' s1 in (s2, r :: rs)
  end.

(** Every clock reading is [t]. *)
Definition stamped (t : Time) (o : op) : Prop := forall x, x ∈ readings o -> x = t.

Lemma sequential_erase t o s : stamped t o -> sequential t (erase o) s = run o s.
Proof.
  intros Ht. unfold stamped, readings in Ht.
  destruct o; cbn [erase sequential]; try done;
    repeat match goal with x : Time |- _ =>
      tryif constr_eq x t then fail else (assert (x = t) as -> by (apply Ht; repeat constructor)) end; done.
Qed.

(** The operations that commands are made of. *)
Definition from_client (o : op) : Prop :=
  match o with
  | OpExpireSample _ _ _ => False
  | OpIncrement _ _ delta => delta = 1 \/ delta = -1
  | _ => True
  end.

Lemma sorted_weaken (a b : Time) l : a <= b -> StronglySorted Z.le (b :: l) -> StronglySorted Z.le (a :: l).
Proof.
  intros Hab [Hl Hb]%StronglySorted_inv. constructor; [done|].
  eapply Forall_impl; [exact Hb|]. simpl. lia.
Qed.

Lemma execs_runs t t0 os s :
  zeroTime <= t0 -> clocked t0 os -> Forall (stamped t) os -> Forall from_client os -> store_wf s ->
  execs t (erase <$> os) s = runs os s.
Proof.
  intros Hz Hc Hst Hcl. revert t0 s Hz Hc Hcl.
  induction Hst as [|o os Ht _ IH]; intros t0 s Hz Hc Hcl Hwf; [done|].
  destruct Hc as (Hs & Hok & Hc). apply Forall_cons in Hcl as [Ho Hcl].
  rewrite fmap_cons. cbn [execs runs].
  rewrite exec_client, sequential_erase by (try done; by destruct o).
  assert (store_wf (run o s).1) as Hwf'.
  { apply run_wf; [|done|done]. by eapply sorted_weaken. }
  assert (zeroTime <= lastReading t0 o) as Hl by (by eapply Z.le_trans, lastReading_le).
  destruct (run o s) as [s1 r]. by rewrite (IH _ s1 Hl Hc Hcl Hwf').
Qed.
End Alone.

(** ** Dispatch is its sections *)

Lemma plans_client lib env :
  Forall (fun a : bytes * entry_ => forall rest p, does_ a.2 rest = Some p -> Forall from_client (ops p))
    (catalogue lib env).
Proof.
  unfold catalogue.
  repeat (apply Forall_cons; split; [intros rest p; cbn [snd does_]; intros Hp; first [discriminate Hp|injection Hp as <-]|]);
    [..|apply Forall_nil_2]; unfold setPlan, msetPlan, expirePlan, onKey;
    try (by repeat case_match; repeat constructor); try (repeat case_match; repeat constructor; by (left + right)).
  cbn [ops]. generalize 0%nat. induction rest as [|k ks IH]; intros i; by constructor.
Qed.

Lemma planOf_client lib env args : Forall from_client (ops (planOf lib env args)).
Proof.
  destruct args as [|a0 rest]; [by constructor|]. unfold planOf.
  destruct (assoc (ToUpper lib a0) (catalogue lib env)) as [e|] eqn:He; [|by constructor].
  destruct (ServerSpec.fits e rest); [|by constructor].
  destruct (does_ e rest) as [p|] eqn:Hp; [|by constructor].
  pose proof (plans_client lib env) as H. unfold assoc in He.
  destruct (List.find _ _) as [[n e']|] eqn:Hf; [|done]. injection He as ->.
  apply List.find_some in Hf as [Hin _]. rewrite List.Forall_forall in H. by apply (H _ Hin rest).
Qed.

(** ** What can happen to a command *)

(** The two refusals of [dispatch]. *)
Definition misconf : resp_value := VError (bs "MISCONF Errors writing to the AOF file").
Definition oom : resp_value := VError (bs "OOM command not allowed when used memory > 'maxmemory'.").

(** A command that [dispatch] runs as a write, its arity being right. *)
Definition writes (lib : Lib) (env : Env) (args : list bytes) : bool :=
  match args with
  | [] => false
  | a0 :: rest =>
      match assoc (ToUpper lib a0) (catalogue lib env) with
      | Some e => writing e && ServerSpec.fits e rest
      | None => false
      end
  end.

Lemma writes_env lib env1 env2 args : writes lib env1 args = writes lib env2 args.
Proof.
  destruct args as [|a0 rest]; [done|]. unfold writes, assoc. unfold catalogue.
  repeat (cbn [List.find fst fmap option_fmap option_map snd]; case_bool_decide; [done|]). done.
Qed.

(** It is refused because the log has failed; keys are evicted and it is refused because
    that was not enough; or it is served, after evictions if memory is limited. *)
Inductive fate : Type :=
| Misconf
| Oom (victims : list bytes)
| Served (victims : option (list bytes)).

(** The error of the log of a store, if it has one and it has failed. *)
Definition logFailed (s : Store logState) : Prop := exists e, (journal s ≫= Err) = Some e.

(** When a command that [dispatch] begins may meet a fate: the conditions of its guards, in
    their order.  With a memory limit, which keys are evicted and whether that is enough is
    left open, since it depends on the random sample and on what others do meanwhile. *)
Definition permitted (lib : Lib) (s : Store logState) (args : list bytes) (f : fate) : Prop :=
  match f with
  | Misconf => writes lib noEnv args = true /\ logFailed s
  | Oom _ | Served (Some _) =>
      writes lib noEnv args = true /\ (journal s ≫= Err) = None /\ 0 < maxMemory s
  | Served None => writes lib noEnv args = true -> (journal s ≫= Err) = None /\ maxMemory s <= 0
  end.

(** What is asked of the store. *)
Definition issued (lib : Lib) (args : list bytes) (f : fate) : list req :=
  match f with
  | Misconf => []
  | Oom victims => [QEvict victims]
  | Served None => requestsOf lib args
  | Served (Some victims) => QEvict victims :: requestsOf lib args
  end.

(** What the client is told. *)
Definition tells (lib : Lib) (args : list bytes) (f : fate) (rs : list StoreSpec.reply) : resp_value :=
  match f with
  | Misconf => misconf
  | Oom _ => oom
  | Served None => wording lib args rs
  | Served (Some _) => wording lib args (drop 1 rs)
  end.

(** [SyncIfAlways] is called. *)
Definition syncsLog (lib : Lib) (args : list bytes) (f : fate) : bool :=
  match f with Served _ => writes lib noEnv args | _ => false end.

(** The server once the command is counted. *)
Definition counted1 (s : Server) : Server :=
  mkServer (store s) (config s) (connections s) (wrapU64 (commandCalls s + 1)).

Section Dispatch.
Context (lib : Lib) (Hlib : lib_ok lib) (env : Env) (Henv : env_ok env).

(** With the clock standing still, the operations of a plan are the requests of its command. *)
Lemma execs_plan t p (s : Store logState) :
  (forall i, Now env i = t) -> timely env p -> Forall from_client (ops p) -> store_wf s ->
  execs t (erase <$> ops p) s = runs (ops p) s.
Proof.
  intros Hnow Hp Hcl Hwf. pose proof (env_start _ Henv) as Hz. destruct (Hp (Now env 0)) as [Hc Hx]; [done|].
  apply (execs_runs t (Now env 0)); [done..| |done|done].
  apply Forall_forall. intros o Ho x Hxo. destruct (Hx o x Ho Hxo) as [i ->]. apply Hnow.
Qed.

Lemma planOf_timely args : about_keys lib args = true -> timely env (planOf lib env args).
Proof.
  destruct args as [|a0 rest]; [done|]. intros Hk. unfold planOf.
  pose proof (table_find lib env (env_clock _ Henv) (ToUpper lib a0) Hlib) as Htab.
  destruct (assoc (ToUpper lib a0) (commands lib env)) as [c|],
    (assoc (ToUpper lib a0) (catalogue lib env)) as [e|]; try done; try apply timely_says.
  destruct Htab as [_ Hfit]. destruct (Hfit rest) as [_ Hdo].
  destruct (ServerSpec.fits e rest); [|apply timely_says]. specialize (Hdo eq_refl).
  destruct (does_ e rest); [apply Hdo|apply timely_says].
Qed.

(** A command that [dispatch] asks neither the log nor the memory limit about. *)
Lemma dispatch_direct args s w :
  args <> [] -> about_keys lib args = true -> writes lib env args = false ->
  dispatch lib env args (s, w) =
    let '(st, rs) := runs (ops (planOf lib env args)) (store s) in
    ((setStore st (counted1 s), w ++ encode (said (planOf lib env args) rs)), Ret tt).
Proof.
  intros Hne Hk Hw. destruct args as [|a0 rest]; [done|]. unfold planOf, writes in *.
  unfold dispatch. unfold mbind at 1, GoM_bind. cbn [countCommand]. cbn beta iota. fold (counted1 s).
  unfold arg. unfold mbind at 1, GoM_bind. cbn [lookup list_lookup mret GoM_ret].
  change (drop 1 (a0 :: rest)) with rest.
  pose proof (table_find lib env (env_clock _ Henv) (ToUpper lib a0) Hlib) as Htab.
  pose proof (catalogue_plans lib Hlib env (ToUpper lib a0)) as Hcat.
  destruct (assoc (ToUpper lib a0) (commands lib env)) as [c|],
    (assoc (ToUpper lib a0) (catalogue lib env)) as [e|]; try done.
  2: { change (store s) with (store (counted1 s)). cbn [ops says runs]. rewrite setStore_id.
       apply reply_error. by rewrite !has_crlf_app, safeName_line. }
  destruct Htab as [Hwr Hfit]. destruct (Hfit rest) as [Har Hdo]. rewrite Har.
  destruct (ServerSpec.fits e rest); cbn [negb].
  2: { change (store s) with (store (counted1 s)). cbn [ops says runs]. rewrite setStore_id.
       apply reply_error, arityError_line. }
  specialize (Hdo eq_refl). rewrite andb_true_r in Hw. rewrite Hwr, Hw.
  destruct (does_ e rest) as [p|] eqn:Hp.
  2: { cbn [about_keys] in Hk. rewrite negb_true_iff, bool_decide_eq_false in Hk. destruct Hk. by eapply Hcat. }
  destruct Hdo as [Hperf _]. specialize (Hperf (counted1 s) w). change (default (says VNullBulk) (Some p)) with p.
  change (store (counted1 s)) with (store s) in Hperf.
  destruct (runs (ops p) (store s)) as [st rs]. by destruct Hperf as [-> _].
Qed.

(** A write command: the log, the memory limit, the operations, and the log again. *)
Lemma dispatch_guarded args s w :
  about_keys lib args = true -> writes lib env args = true ->
  dispatch lib env args (s, w) =
    match aofErr s with
    | Some _ => ((counted1 s, w ++ encode misconf), Ret tt)
    | None =>
        match EnforceMemoryLimit (poolRange env) (store s) with
        | Some (st1, _, false) => ((setStore st1 (counted1 s), w ++ encode oom), Ret tt)
        | Some (st1, _, true) =>
            let '(st, rs) := runs (ops (planOf lib env args)) st1 in
            ((syncAof (setStore st (counted1 s)), w ++ encode (said (planOf lib env args) rs)), Ret tt)
        | None => ((counted1 s, w), Panics (bs "out of fuel"))
        end
    end.
Proof.
  intros Hk Hw. destruct args as [|a0 rest]; [done|]. unfold planOf, writes in *.
  unfold dispatch. unfold mbind at 1, GoM_bind. cbn [countCommand]. cbn beta iota. fold (counted1 s).
  unfold arg. unfold mbind at 1, GoM_bind. cbn [lookup list_lookup mret GoM_ret].
  change (drop 1 (a0 :: rest)) with rest.
  pose proof (table_find lib env (env_clock _ Henv) (ToUpper lib a0) Hlib) as Htab.
  pose proof (catalogue_plans lib Hlib env (ToUpper lib a0)) as Hcat.
  destruct (assoc (ToUpper lib a0) (commands lib env)) as [c|],
    (assoc (ToUpper lib a0) (catalogue lib env)) as [e|]; try done.
  destruct Htab as [Hwr Hfit]. destruct (Hfit rest) as [Har Hdo]. rewrite Har.
  apply andb_true_iff in Hw as [Hw Hf]. rewrite Hf in *. cbn [negb]. specialize (Hdo eq_refl). rewrite Hwr, Hw.
  unfold runWrite, Commands.observe. unfold mbind at 1, GoM_bind.
  change (aofErr (counted1 s)) with (aofErr s). destruct (aofErr s) as [err|].
  { by apply reply_error. }
  unfold mbind at 1, GoM_bind. unfold enforce. change (store (counted1 s)) with (store s).
  destruct (EnforceMemoryLimit (poolRange env) (store s)) as [[[st1 n] ok]|]; [|done].
  destruct ok; cbn [negb]; [|by apply reply_error].
  destruct (does_ e rest) as [p|] eqn:Hp.
  2: { cbn [about_keys] in Hk. rewrite negb_true_iff, bool_decide_eq_false in Hk. destruct Hk. by eapply Hcat. }
  destruct Hdo as [Hperf _]. specialize (Hperf (setStore st1 (counted1 s)) w). change (default (says VNullBulk) (Some p)) with p.
  change (store (setStore st1 (counted1 s))) with st1 in Hperf. unfold mbind, GoM_bind.
  destruct (runs (ops p) st1) as [st rs]. destruct Hperf as [-> _]. done.
Qed.

(** The requests of a plan run alone, from a store that evictions may have left. *)
Lemma execs_plan_now t args (s : Store logState) :
  (forall i, Now env i = t) -> about_keys lib args = true -> store_wf s ->
  execs t (requestsOf lib args) s = runs (ops (planOf lib env args)) s.
Proof.
  intros Hnow Hk Hwf. destruct (planOf_env lib noEnv env args) as [Hops _]. unfold requestsOf. rewrite Hops.
  apply execs_plan; auto using planOf_timely, planOf_client.
Qed.

Lemma execs_evict t ks qs (s : Store logState) :
  execs t (QEvict ks :: qs) s =
    let '(s', rs) := execs t qs (evictAll ks s) in (s', RUnit :: rs).
Proof. cbn [execs program exec]. by rewrite exec_evict. Qed.

(** [EnforceMemoryLimit] evicts. *)
Lemma enforce_evicts (s : Store logState) :
  store_wf s -> exists ks ok, EnforceMemoryLimit (poolRange env) s = Some (evictAll ks s, lenZ ks, ok) /\
    store_wf (evictAll ks s) /\ (maxMemory s <= 0 -> ks = [] /\ ok = true).
Proof.
  intros Hwf. unfold EnforceMemoryLimit. destruct (Z.leb_spec (maxMemory s) 0); [by exists [], true|].
  destruct (Used s <=? maxMemory s); [exists [], true; split_and!; [done..|lia]|].
  case_bool_decide; [exists [], false; split_and!; [done..|lia]|].
  destruct (evictLoop_spec (S (Z.to_nat (Len s))) (poolRange env) 0 s Hwf (env_range _ Henv))
    as (ks & ok & He & Hw & _); [pose proof (Len_nonneg s); lia|].
  exists ks, ok. split_and!; [done..|lia].
Qed.
End Dispatch.

(** C15. A command, any but INFO, CONFIG and BGREWRITEAOF, which are not about the keyspace, is
    its sections: [dispatch], run alone at a time [t], meets one of the fates that the log and the memory limit permit it, leaves the store that the sections of the
    requests of that fate leave, one request after the other, counts the command, and
    writes what the fate says of their replies; and a write command that is served ends
    with a sync of the log if its policy says so.  So the server adds nothing of its own to
    what its clients do to the store, whether it serves or refuses them. *)
Theorem command_sections (lib : Lib) (env : Env) (t : Time) (args : list bytes) (s : Server) (w : bytes) :
  lib_ok lib -> env_ok env -> (forall i, Now env i = t) ->
  args <> [] -> about_keys lib args = true -> store_wf (store s) ->
  exists f, permitted lib (store s) args f /\
    let '(st, rs) := execs t (issued lib args f) (store s) in
    let s1 := mkServer st (config s) (connections s) (wrapU64 (commandCalls s + 1)) in
    dispatch lib env args (s, w) =
      ((if syncsLog lib args f then syncAof s1 else s1, w ++ encode (tells lib args f rs)), Ret tt).
Proof.
  intros Hlib Henv Hnow Hne Hk Hwf. destruct (planOf_env lib noEnv env args) as [_ Hsaid].
  pose proof (fun st Hst => execs_plan_now lib Hlib env Henv t args st Hnow Hk Hst) as Hex.
  pose proof (writes_env lib noEnv env args) as Hwe.
  destruct (writes lib env args) eqn:Hw.
  2: { exists (Served None). unfold permitted, syncsLog. rewrite Hwe. split; [done|]. cbn [issued].
       pose proof (dispatch_direct lib Hlib env Henv args s w Hne Hk Hw) as Hd.
       rewrite Hex by done. destruct (runs _ (store s)) as [st rs]. unfold tells, wording. rewrite Hsaid. exact Hd. }
  pose proof (dispatch_guarded lib Hlib env Henv args s w Hk Hw) as Hd.
  destruct (aofErr s) as [err|] eqn:He.
  { exists Misconf. unfold permitted. rewrite Hwe. split; [split; [done|by eexists]|]. exact Hd. }
  destruct (enforce_evicts env Henv (store s) Hwf) as (ks & ok & Hen & Hwf' & Hz). rewrite Hen in Hd.
  assert (forall rs, tells lib args (Served None) rs = said (planOf lib env args) rs) as Htell
    by (intros rs; unfold tells, wording; by rewrite Hsaid).
  destruct (Z.leb_spec (maxMemory (store s)) 0) as [Hm|Hm].
  - destruct (Hz Hm) as [-> ->]. exists (Served None). unfold permitted, syncsLog. rewrite Hwe.
    split; [exact (fun _ => conj He Hm)|]. cbn [issued]. rewrite Hex by done. change (evictAll [] (store s)) with (store s) in Hd.
    destruct (runs _ (store s)) as [st rs]. rewrite Htell. exact Hd.
  - destruct ok.
    + exists (Served (Some ks)). unfold permitted, syncsLog. rewrite Hwe.
      split; [exact (conj eq_refl (conj He Hm))|]. cbn [issued].
      rewrite execs_evict, Hex by done. destruct (runs _ (evictAll ks (store s))) as [st rs].
      change (tells lib args (Served (Some ks)) (RUnit :: rs)) with (tells lib args (Served None) rs).
      rewrite Htell. exact Hd.
    + exists (Oom ks). unfold permitted. rewrite Hwe. split; [exact (conj eq_refl (conj He Hm))|]. cbn [issued]. rewrite execs_evict. exact Hd.
Qed.

(** ** Runs *)

(** A server whose limit has been used up by one key. *)
Definition full : Server :=
  setStore (SetMemoryLimit 200 PolicyAllKeysLRU (Set_ (bs "old") (replicate 80 x61) New)) NewServer.

Lemma command_sections_witness :
  exists f s', permitted ascii_lib (store full) [bs "incr"; bs "n"] f /\
    dispatch ascii_lib (steady Second) [bs "incr"; bs "n"] (full, []) =
      ((s', [] ++ encode (tells ascii_lib [bs "incr"; bs "n"] f
                            (execs Second (issued ascii_lib [bs "incr"; bs "n"] f) (store full)).2)), Ret tt).
Proof.
  destruct (command_sections ascii_lib (steady Second) Second [bs "incr"; bs "n"] full []) as (f & Hf & Hd).
  - intros e. reflexivity.
  - apply steady_ok. unfold zeroTime, Second. lia.
  - reflexivity.
  - discriminate.
  - reflexivity.
  - apply SetMemoryLimit_wf. apply (run_wf (OpSet (bs "old") (replicate 80 x61)) New); [check_clock|done|apply New_wf].
  - exists f. destruct (execs Second (issued ascii_lib [bs "incr"; bs "n"] f) (store full)) as [st rs].
    eexists. split; [exact Hf|exact Hd].
Defined.

(** Its key is evicted, and the command served. *)
Example full_evicts :
  let f := Served (Some [bs "old"]) in
  permitted ascii_lib (store full) [bs "incr"; bs "n"] f /\
  tells ascii_lib [bs "incr"; bs "n"] f
    (execs Second (issued ascii_lib [bs "incr"; bs "n"] f) (store full)).2 = VInteger 1 /\
  (dispatch ascii_lib (steady Second) [bs "incr"; bs "n"] (full, [])).1.2 = encode (VInteger 1).
Proof. vm_compute. split_and!; reflexivity. Qed.
