(* ===== verification/Net.v ===== *)
(** * Connections beside one another

    [net] is a server whose connections run their commands at the same time: the
    configuration of Sections.v over a store with the log of AofLog.v, and for each
    connection the commands it has not begun, the one it is at, and its answers.  When a
    connection begins a command, the log and the memory limit decide what may happen to it
    ([permitted], Clients.v); it then sends the requests of its fate ([issued]), whose
    critical sections interleave with everybody else's; when all are replied to, it syncs
    the log as [SyncIfAlways] says, and the client is answered.  The sampler and other
    clients may run beside the connections, the timer may sync the log at any time, and any
    system call may fail.

    [network_linearizable]: what the clients are told is told by a run of the specification
    of Linearize.v in which refused commands never happened.  [network_crash_recovers]: after
    a crash at any moment the next process shows one moment of that run, with everything
    that was journalled before the last successful sync. *)

From stdpp Require Import base gmap list strings sorting relations.
From Stdlib Require Import ZArith Lia.
From Stdlib Require Import Strings.Byte.
From S2P Require Import Prelude.
From S2P Require Import GoStrconv.
From S2P Require Import RespWriter.
From S2P Require Import RespReader.
From S2P Require Import Bufio.
From S2P Require Import GoTime.
From S2P Require Import Store.
From S2P Require Import StoreInv.
From S2P Require Import Evict.
From S2P Require Import Keyspace.
From S2P Require Import StoreSpec.
From S2P Require Import BufWriter.
From S2P Require Import AofLog.
From S2P Require Import AofInv.
From S2P Require Import Replay.
From S2P Require Import Commands.
From S2P Require Import Journalling.
From S2P Require Import Recovery.
From S2P Require Import Restart.
From S2P Require Import ServerSpec.
From S2P Require Import Sections.
From S2P Require Import Linearize.
From S2P Require Import Journals.
From S2P Require Import LinearRecovery.
From S2P Require Import Clients.

#[local] Open Scope Z_scope.

(** ** The system *)

(** The command a connection is at comes with its fate and the number of replies its
    client had had before. *)
Record conn : Type := mkConn {
  queue : list (list bytes);
  current : option (list bytes * fate * nat);
  told : list resp_value
}.

Record net : Type := mkNet { body : conf logState; conns : list conn }.

Definition withLog (l : logState) (c : conf logState) : conf logState :=
  mkConf (time c) (SetJournal l (shared c)) (gate c) (clients c) (trace c).

Definition withClient {J} (i : nat) (y : client J) (c : conf J) : conf J :=
  mkConf (time c) (shared c) (gate c) (<[i := y]> (clients c)) (trace c).

(** What client [i] has been replied. *)
Definition replies (i : nat) (tr : list action) : list StoreSpec.reply :=
  omap (fun x => match x with Respond j r => if decide (j = i) then Some r else None | _ => None end) tr.

(** The end of [dispatch]. *)
Definition syncAfter (lib : Lib) (args : list bytes) (f : fate) (l : logState) : logState :=
  if syncsLog lib args f then (SyncIfAlways l).1 else l.

(** One step: a critical section of somebody, or time passing; a sync of the log by its
    timer; a connection that begins its next command, having looked at the log; and one
    that has had all replies and answers, as [dispatch] ends and [HandleConn] goes on to
    the next command. *)
Inductive nstep (lib : Lib) (x : net) : net -> Prop :=
| N_section c' : kstep (body x) c' -> nstep lib x (mkNet c' (conns x))
| N_sync fsync l : journal (shared (body x)) = Some l ->
    nstep lib x (mkNet (withLog (syncLocked fsync l).1 (body x)) (conns x))
| N_begin i args q vs f :
    conns x !! i = Some (mkConn (args :: q) None vs) -> clients (body x) !! i = Some (mkClient [] None) ->
    args <> [] -> about_keys lib args = true -> permitted lib (shared (body x)) args f ->
    nstep lib x
      (mkNet (withClient i (mkClient (issued lib args f) None) (body x))
         (<[i := mkConn q (Some (args, f, length (replies i (trace (body x))))) vs]> (conns x)))
| N_answer i q args f n vs l :
    conns x !! i = Some (mkConn q (Some (args, f, n)) vs) -> clients (body x) !! i = Some (mkClient [] None) ->
    journal (shared (body x)) = Some l ->
    nstep lib x
      (mkNet (withLog (syncAfter lib args f l) (body x))
         (<[i := mkConn q None (vs ++ [tells lib args f (drop n (replies i (trace (body x))))])]> (conns x))).

(** The connections with their commands, and the other clients with their requests. *)
Definition nbegin (t : Time) (s : Store logState) (cmds : list (list (list bytes))) (others : list (list req)) : net :=
  mkNet (begin t s (((fun _ => []) <$> cmds) ++ others)) ((fun l => mkConn l None []) <$> cmds).

(** ** Counting replies *)

Section Counting.
Context {J : Type} `{!Journal J}.
Implicit Types c : conf J.

(** The requests that client [x] has not been told the reply of. *)
Definition open (x : client J) : nat := length (todo x) + (if running x is Some _ then 1 else 0).

(** Every request is replied to once. *)
Definition counted (reqs : list (list req)) c : Prop :=
  length (clients c) = length reqs /\
  forall i l x, reqs !! i = Some l -> clients c !! i = Some x ->
    (length (replies i (trace c)) + open x = length l)%nat.

Lemma replies_app i tr1 tr2 : replies i (tr1 ++ tr2) = replies i tr1 ++ replies i tr2.
Proof. apply omap_app. Qed.

Lemma counted_step reqs c c' : counted reqs c -> kstep c c' -> counted reqs c'.
Proof.
  intros [Hlen Hc] [i c1 Hs|t Ht]; [|done].
  split. { destruct (cstep_smaller _ _ _ Hs) as (x & x' & _ & _ & ->). by rewrite length_insert. }
  intros j l x Hl Hx. destruct Hs as [q l0 Hi|f k l0 Hi|k b l0 Hi|p l0 Hi Hg|p l0 Hi|r l0 Hi];
    unfold resume in Hx; cbn [clients trace] in *; rewrite ?replies_app, ?length_app;
    (destruct (decide (j = i)) as [->|Hne];
     [rewrite list_lookup_insert_eq in Hx by (by eapply lookup_lt_Some); injection Hx as <-;
      specialize (Hc _ _ _ Hl Hi)
     |rewrite list_lookup_insert_ne in Hx by done; specialize (Hc _ _ _ Hl Hx)]);
    unfold open in *; cbn in *; rewrite ?decide_True, ?decide_False by done; cbn; lia.
Qed.

Lemma counted_begin t s reqs : counted reqs (begin t s reqs).
Proof.
  split; [by apply length_fmap|]. intros i l x Hl. cbn. rewrite list_lookup_fmap, Hl. intros [= <-]. unfold open. cbn. lia.
Qed.

(** Nobody but client [i] moves it, and what it is told grows. *)
Lemma kstep_replies i c c' : kstep c c' -> replies i (trace c) `prefix_of` replies i (trace c').
Proof.
  intros [j c1 Hs|t Ht]; [|done].
  destruct Hs; cbn [trace]; try done; rewrite replies_app; by eexists.
Qed.

Lemma kstep_idle i c c' :
  kstep c c' -> clients c !! i = Some (mkClient [] None) ->
  clients c' !! i = Some (mkClient [] None) /\ replies i (trace c') = replies i (trace c).
Proof.
  intros [j c1 Hs|t Ht] Hi; [|done]. destruct (decide (j = i)) as [->|Hne].
  { by destruct Hs; simplify_eq. }
  destruct Hs; unfold resume; cbn [clients trace]; rewrite list_lookup_insert_ne by done;
    (split; [done|]); try done; rewrite replies_app; cbn; rewrite ?decide_False by done; by rewrite app_nil_r.
Qed.

(** ** More requests

    A client that gets more to do later could have had it from the beginning. *)
Definition extend (i : nat) (qs : list req) c : conf J :=
  mkConf (time c) (shared c) (gate c)
    (alter (fun x => mkClient (todo x ++ qs) (running x)) i (clients c)) (trace c).

Lemma alter_updated {A} (f : A -> A) (l : list A) i j x :
  alter f i (<[j := x]> l) = <[j := if decide (i = j) then f x else x]> (alter f i l).
Proof.
  apply list_eq. intros k. case_decide as Hij.
  - subst j. destruct (decide (k = i)) as [->|Hk].
    + destruct (decide (i < length l)%nat) as [Hl|Hl].
      * by rewrite list_lookup_alter_eq, !list_lookup_insert_eq by (by rewrite ?length_alter).
      * rewrite !lookup_ge_None_2; [done|..]; rewrite ?length_alter, ?length_insert, ?length_alter; lia.
    + by rewrite list_lookup_alter_ne, !list_lookup_insert_ne, list_lookup_alter_ne by done.
  - destruct (decide (k = i)) as [->|Hk].
    + by rewrite list_lookup_alter_eq, !list_lookup_insert_ne, list_lookup_alter_eq by done.
    + rewrite list_lookup_alter_ne by done. destruct (decide (k = j)) as [->|Hkj].
      * destruct (decide (j < length l)%nat) as [Hl|Hl].
        -- by rewrite !list_lookup_insert_eq by (by rewrite ?length_alter).
        -- rewrite !lookup_ge_None_2; [done|..]; rewrite ?length_insert, ?length_alter; lia.
      * by rewrite !list_lookup_insert_ne, list_lookup_alter_ne by done.
Qed.

Lemma alter_at {A} (f : A -> A) (l : list A) i x : l !! i = Some x -> alter f i l = <[i := f x]> l.
Proof.
  intros Hi. rewrite <- (list_insert_id l i x Hi) at 1. rewrite alter_updated, decide_True by done.
  apply list_eq. intros k. destruct (decide (k = i)) as [->|Hk].
  - by rewrite !list_lookup_insert_eq by (rewrite ?length_alter; by eapply lookup_lt_Some).
  - by rewrite !list_lookup_insert_ne, list_lookup_alter_ne by done.
Qed.

Lemma extend_lookup i qs c j l p :
  clients c !! j = Some (mkClient l p) ->
  clients (extend i qs c) !! j = Some (mkClient (l ++ if decide (i = j) then qs else []) p).
Proof.
  intros Hj. cbn. case_decide as Hij.
  - subst j. by rewrite list_lookup_alter_eq, Hj.
  - rewrite list_lookup_alter_ne by done. by rewrite app_nil_r.
Qed.

Lemma extend_resume i qs j l p c :
  alter (fun x => mkClient (todo x ++ qs) (running x)) i (resume j l p c) =
    resume j (l ++ if decide (i = j) then qs else []) p (extend i qs c).
Proof.
  unfold resume. rewrite alter_updated. cbn. f_equal. case_decide; [done|]. by rewrite app_nil_r.
Qed.

Lemma kstep_extend i qs c c' : kstep c c' -> kstep (extend i qs c) (extend i qs c').
Proof.
  intros [j c1 Hs|t Ht]; [|by apply (k_clock (extend i qs c))]. apply (k_client _ j).
  destruct Hs as [q l Hi|f k l Hi|k b l Hi|p l Hi Hg|p l Hi|r l Hi];
    apply (extend_lookup i qs) in Hi; unfold extend at 2; cbn [time shared gate clients trace];
    rewrite extend_resume.
  - by apply (k_invoke j (extend i qs c)).
  - by apply (k_step j (extend i qs c)).
  - by apply (k_choose j (extend i qs c)).
  - by apply (k_lock j (extend i qs c)).
  - by apply (k_unlock j (extend i qs c)).
  - by apply (k_return j (extend i qs c)).
Qed.

Lemma ksteps_extend i qs c c' : rtc kstep c c' -> rtc kstep (extend i qs c) (extend i qs c').
Proof. induction 1 as [|c c1 c' H _ IH]; [done|]. eapply rtc_l; [by apply kstep_extend|done]. Qed.

Lemma extend_begin i qs t s reqs :
  extend i qs (begin t s reqs) = begin t s (alter (fun l => l ++ qs) i reqs).
Proof.
  unfold extend, begin. cbn [time shared gate clients trace]. f_equal. apply list_eq. intros k.
  rewrite list_lookup_fmap. destruct (decide (k = i)) as [->|Hk].
  - rewrite !list_lookup_alter_eq, list_lookup_fmap. by destruct (reqs !! i).
  - by rewrite !list_lookup_alter_ne, list_lookup_fmap by done.
Qed.

Lemma counted_extend i qs reqs c :
  counted reqs c -> counted (alter (fun l => l ++ qs) i reqs) (extend i qs c).
Proof.
  intros [Hlen Hc]. split; [cbn; by rewrite !length_alter|]. intros j l x. cbn [extend clients trace].
  destruct (decide (j = i)) as [->|Hj].
  - rewrite !list_lookup_alter_eq. intros (l0 & Hl & ->)%fmap_Some (x0 & Hx & ->)%fmap_Some.
    specialize (Hc i l0 x0 Hl Hx). unfold open in *. cbn. rewrite !length_app. lia.
  - rewrite !list_lookup_alter_ne by done. apply Hc.
Qed.
End Counting.

(** ** The log and all the records *)

(** [rs] is everything that was journalled; the log has it as long as it has not failed,
    and the first records of it when it has; [base] is on stable storage. *)
Definition holds (base : list record) (l : logState) (rs : list record) : Prop :=
  exists g, log_ok l g /\ recs g `prefix_of` rs /\ (logErr l.2 = None -> recs g = rs) /\
    base `prefix_of` rs /\ (length (enc base) <= synced (disk l.1))%nat.

Lemma holds_append base : appends (holds base).
Proof.
  intros args l rs (g & Hok & Hp & He & Hb & Hs). pose proof (Append_ok args l g Hok) as Hok'.
  change (Journal_Append args l) with (AofLog.Append args l). change (Journal_Append args rs).1 with (rs ++ [args]).
  exists (appended args l.2 g). unfold appended in *.
  assert (base `prefix_of` rs ++ [args]) as Hb' by (etrans; [exact Hb|by eexists]).
  rewrite (Append_synced args l g Hok). destruct (logErr l.2) as [e|] eqn:Hl.
  - split_and!; try done.
    + etrans; [exact Hp|by eexists].
    + intros Hn. destruct l as [o l]. cbn [snd] in Hl. unfold AofLog.Append in Hn. rewrite Hl in Hn.
      cbn in Hn. congruence.
  - specialize (He eq_refl). subst rs. by split_and!.
Qed.

Lemma syncLocked_healthy f l : logErr (syncLocked f l).1.2 = None -> logErr l.2 = None.
Proof.
  destruct l as [o l]. unfold syncLocked. destruct (logErr l) as [e|] eqn:He; [|done]. cbn. congruence.
Qed.

Lemma holds_sync base f l rs : holds base l rs -> holds base (syncLocked f l).1 rs.
Proof.
  intros (g & Hok & Hp & He & Hb & Hs). exists g. split_and!; [by apply syncLocked_ok|done| |done|].
  - intros Hn. by apply He, (syncLocked_healthy f).
  - etrans; [exact Hs|]. by eapply syncLocked_grows.
Qed.

Lemma holds_after base lib args f l rs : holds base l rs -> holds base (syncAfter lib args f l) rs.
Proof.
  intros H. unfold syncAfter, SyncIfAlways, Sync. case_match; [|done]. case_bool_decide; [|done].
  by apply holds_sync.
Qed.

(** Everything that was journalled is on stable storage. *)
Definition safe (l : logState) : Prop :=
  logErr l.2 = None /\ wbuf (bw l.2) = [] /\ synced (disk l.1) = length (content (disk l.1)).

Lemma holds_safe base l rs : holds base l rs -> safe l -> holds rs l rs /\ content (disk l.1) = enc rs.
Proof.
  intros (g & Hok & Hp & He & Hb & Hs) (Hl & Hw & Hsy). specialize (He Hl).
  destruct (ok_good _ _ Hok Hl) as (_ & _ & _ & Hc). rewrite Hw, app_nil_r, He in Hc. split; [|done].
  exists g. rewrite Hsy, Hc. by split_and!.
Qed.

(** A sync that succeeds leaves it so. *)
Lemma sync_safe base l l' rs : holds base l rs -> syncLocked true l = (l', None) -> safe l'.
Proof.
  intros (g & Hok & _) Hs. pose proof (syncLocked_forces _ _ _ Hok Hs) as Hd.
  pose proof (syncLocked_ok true l g Hok) as Hok'. pose proof (syncLocked_latched true l) as He.
  rewrite Hs in Hok', He. destruct He as [He _]. destruct (ok_good _ _ Hok' He) as (_ & _ & _ & Hc).
  cbn [fst] in *. rewrite Hd in Hc. cbn [content] in Hc. split_and!; [done| |by rewrite Hd].
  by apply (app_inv_head (enc (recs g))); rewrite app_nil_r.
Qed.

(** So does the answer to a write under [always], unless the log has failed. *)
Lemma answer_safe base lib args f l rs :
  holds base l rs -> logPolicy l.2 = PolicyAlways -> syncsLog lib args f = true ->
  logErr (syncAfter lib args f l).2 = None -> safe (syncAfter lib args f l).
Proof.
  intros Hh Hp Hs. unfold syncAfter, SyncIfAlways, Sync. rewrite Hs, bool_decide_eq_true_2 by done.
  rewrite Hp. rewrite (bool_decide_eq_false_2 (PolicyAlways = PolicyNo)) by done. cbn [negb].
  intros He. pose proof (syncLocked_latched true l) as Hl.
  destruct (syncLocked true l) as [l' e] eqn:Hsy. destruct Hl as [Hl _].
  eapply sync_safe; [done|]. rewrite Hsy in *. cbn [fst snd] in *. congruence.
Qed.

(** What a crash leaves of it: an initial part of what was journalled, with all of the base. *)
Lemma holds_crashed base l rs cut :
  holds base l rs -> (synced (disk l.1) <= cut)%nat ->
  let left := content (disk (crashed cut l.1)) in
  left = take (length left) (enc rs) /\ (length left <= length (enc rs))%nat /\
  base `prefix_of` take (complete rs (length left)) rs /\
  (logErr l.2 = None -> content (disk l.1) ++ wbuf (bw l.2) = enc rs).
Proof.
  intros (g & Hg & [w Hw] & He & Hb & Hsy) Hcut left. destruct (crashed_prefix l g cut Hg Hcut) as (k & Hk & Hc).
  assert (enc rs = enc (recs g) ++ enc w) as Henc by (by rewrite Hw, enc_app).
  assert (k <= length (enc rs))%nat as Hkl by (rewrite Henc, length_app; lia).
  assert (left = take k (enc rs)) as Hleft by (unfold left; by rewrite Hc, Henc, take_app_le by lia).
  assert (length left = k) as Hlen by (rewrite Hleft, length_take; lia).
  rewrite Hlen. split_and!; [done|done| |].
  - assert (length base <= complete rs k)%nat as Hn.
    { destruct Hb as [w' Hw']. apply complete_max; rewrite Hw'; [rewrite take_app_length|rewrite length_app]; lia. }
    destruct Hb as [w' Hw']. rewrite Hw' at 2. rewrite take_app_ge by done. by eexists.
  - intros Hl. rewrite <- (He Hl). destruct (ok_good _ _ Hg Hl) as (_ & _ & _ & Hx). exact Hx.
Qed.

Lemma agree_relog base l' rs (s : Store logState) (u : Store (list record)) :
  agree (holds base) s u -> journal u = Some rs -> holds base l' rs -> agree (holds base) (SetJournal l' s) u.
Proof. intros [H1 H2 H3 H4 H5 _] Hu Hl. split; try done. rewrite Hu. by constructor. Qed.

(** ** What has happened to the commands *)

Definition issuedAll (lib : Lib) (d : list (list bytes * fate)) : list req :=
  concat ((fun p => issued lib p.1 p.2) <$> d).

(** Connection [i] has begun the commands of [d]; all but the one it is at have been
    answered, each from its own replies, which came one after the other. *)
Definition progress (lib : Lib) (cmds : list (list bytes)) (d : list (list bytes * fate)) (tr : list action)
    (i : nat) (x : conn) : Prop :=
  exists dn rss now,
    d = dn ++ (match current x with Some (args, f, _) => [(args, f)] | None => [] end) /\
    cmds = d.*1 ++ queue x /\
    Forall2 (fun p rs => length rs = length (issued lib p.1 p.2)) dn rss /\
    told x = zip_with (fun p rs => tells lib p.1 p.2 rs) dn rss /\
    replies i tr = concat rss ++ now /\
    match current x with Some (_, _, n) => n = length (concat rss) | None => now = [] end.

Lemma progress_more lib cmds d tr tr' i x :
  progress lib cmds d tr i x -> replies i tr `prefix_of` replies i tr' ->
  (current x = None -> replies i tr' = replies i tr) -> progress lib cmds d tr' i x.
Proof.
  intros (dn & rss & now & H1 & H2 & H3 & H4 & H5 & H6) [w Hw] Hid.
  exists dn, rss, (if current x is Some _ then now ++ w else now). split_and!; try done.
  - destruct (current x); [by rewrite Hw, H5, (assoc_L (++))|]. rewrite Hid by done. exact H5.
  - by destruct (current x) as [[[]]|].
Qed.

Lemma progress_begin lib args q vs f d tr i cmds :
  progress lib cmds d tr i (mkConn (args :: q) None vs) ->
  progress lib cmds (d ++ [(args, f)]) tr i (mkConn q (Some (args, f, length (replies i tr))) vs).
Proof.
  intros (dn & rss & now & H1 & H2 & H3 & H4 & H5 & H6). cbn [current queue told] in *. subst now.
  rewrite !app_nil_r in *. subst dn. exists d, rss, []. rewrite app_nil_r. split_and!; try done.
  - rewrite H2, fmap_app. cbn. by rewrite <- app_assoc.
  - cbn. by rewrite H5.
Qed.

Lemma concat_lengths lib (dn : list (list bytes * fate)) (rss : list (list StoreSpec.reply)) :
  Forall2 (fun p rs => length rs = length (issued lib p.1 p.2)) dn rss ->
  length (concat rss) = length (issuedAll lib dn).
Proof.
  induction 1 as [|p rs dn rss H _ IH]; [done|]. unfold issuedAll in *. rewrite fmap_cons. cbn [concat].
  by rewrite !length_app, IH, H.
Qed.

Lemma progress_answer lib args q vs f n d tr i cmds :
  progress lib cmds d tr i (mkConn q (Some (args, f, n)) vs) ->
  length (replies i tr) = length (issuedAll lib d) ->
  progress lib cmds d tr i (mkConn q None (vs ++ [tells lib args f (drop n (replies i tr))])).
Proof.
  intros (dn & rss & now & H1 & H2 & H3 & H4 & H5 & H6) Hlen. cbn [current queue told] in *. subst n.
  pose proof (concat_lengths _ _ _ H3) as Hl. rewrite H1, H5 in Hlen. unfold issuedAll in *.
  rewrite fmap_app, concat_app, !length_app, Hl in Hlen. cbn in Hlen. rewrite app_nil_r in Hlen.
  exists (dn ++ [(args, f)]), (rss ++ [now]), []. rewrite !app_nil_r. cbn [current queue told]. split_and!; try done.
  - apply Forall2_app; [done|]. constructor; [cbn; lia|constructor].
  - rewrite zip_with_app by (by eapply Forall2_length). rewrite H4, H5, drop_app_length. done.
  - rewrite concat_app, H5. cbn. by rewrite app_nil_r.
Qed.

(** ** The run of the specification behind a run of the server *)

Section Explained.
Context (lib : Lib) (t : Time) (s : Store logState) (u : Store (list record)) (cmds : list (list (list bytes)))
  (others : list (list req)).

(** All the requests that have been sent, connection by connection. *)
Definition sentTo (ds : list (list (list bytes * fate))) : list (list req) := (issuedAll lib <$> ds) ++ others.

(** [ds] are the commands that the connections have begun, with their fates; [c] is a
    configuration like the server's, with the list of all records for a log, that was
    asked these requests from the beginning. *)
Record explained (base : list record) (x : net) (ds : list (list (list bytes * fate)))
    (c : conf (list record)) : Prop := {
  ex_run : rtc kstep (begin t u (sentTo ds)) c;
  ex_twin : twin (holds base) (body x) c;
  ex_counted : counted (sentTo ds) c;
  ex_conns : length (conns x) = length cmds;
  ex_length : length ds = length cmds;
  ex_progress : forall i cn cs d, conns x !! i = Some cn -> cmds !! i = Some cs -> ds !! i = Some d ->
    progress lib cs d (trace (body x)) i cn;
  ex_idle : forall i cn, conns x !! i = Some cn -> current cn = None ->
    clients (body x) !! i = Some (mkClient [] None);
  ex_fates : forall d p, d ∈ ds -> p ∈ d -> exists x0,
    rtc (nstep lib) (nbegin t s cmds others) x0 /\ rtc (nstep lib) x0 x /\
    permitted lib (shared (body x0)) p.1 p.2
}.

Lemma sentTo_alter i p ds d :
  ds !! i = Some d ->
  alter (fun l => l ++ issued lib p.1 p.2) i (sentTo ds) = sentTo (alter (fun d => d ++ [p]) i ds).
Proof.
  intros Hd. unfold sentTo. rewrite alter_app_l by (rewrite length_fmap; by eapply lookup_lt_Some). f_equal.
  apply list_eq. intros k. destruct (decide (k = i)) as [->|Hk].
  - rewrite list_lookup_alter_eq, !list_lookup_fmap, list_lookup_alter_eq, Hd. cbn. f_equal.
    unfold issuedAll. rewrite fmap_app, concat_app. cbn. by rewrite app_nil_r.
  - by rewrite list_lookup_alter_ne, !list_lookup_fmap, list_lookup_alter_ne by done.
Qed.

(** What a step leaves of the fates. *)
Lemma fates_step base x y ds c :
  explained base x ds c -> nstep lib x y -> forall d p, d ∈ ds -> p ∈ d -> exists x0,
    rtc (nstep lib) (nbegin t s cmds others) x0 /\ rtc (nstep lib) x0 y /\ permitted lib (shared (body x0)) p.1 p.2.
Proof.
  intros H Hs d p Hd Hp. destruct (ex_fates _ _ _ _ H d p Hd Hp) as (x0 & H1 & H2 & H3).
  exists x0. split_and!; [done|by eapply rtc_r|done].
Qed.

Lemma explained_section base x ds c c' :
  explained base x ds c -> kstep (body x) c' ->
  exists d, explained base (mkNet c' (conns x)) ds d.
Proof.
  intros H Hs. destruct (kstep_agree _ _ _ _ (holds_append base) (ex_twin _ _ _ _ H) Hs)
    as (d & Hd & Ht).
  exists d. pose proof (fates_step _ _ _ _ _ H (N_section lib x _ Hs)) as Hf.
  destruct H as [A B C D E F G _]. split; cbn [body conns]; try done.
  - by eapply rtc_r.
  - by eapply counted_step.
  - intros i cn cs dd Hi Hc Hdd. eapply progress_more; [by eapply F|by apply kstep_replies|].
    intros Hcur. by eapply kstep_idle, G.
  - intros i cn Hi Hcur. by eapply kstep_idle, G.
Qed.

(** Another log that has the same. *)
Lemma explained_log base x ds c l l' :
  explained base x ds c -> journal (shared (body x)) = Some l ->
  (forall rs, holds base l rs -> holds base l' rs) -> twin (holds base) (withLog l' (body x)) c.
Proof.
  intros H Hl Hh. destruct (ex_twin _ _ _ _ H) as [A B C D E]. split; cbn; try done.
  pose proof (ag_journal _ _ _ B) as Hj. rewrite Hl in Hj. inversion Hj as [? rs Hr Hx Hy|]; subst.
  eapply agree_relog; [done|by symmetry|auto].
Qed.

Lemma explained_sync base x ds c f l :
  explained base x ds c -> journal (shared (body x)) = Some l ->
  explained base (mkNet (withLog (syncLocked f l).1 (body x)) (conns x)) ds c.
Proof.
  intros H Hl. pose proof (fates_step _ _ _ _ _ H (N_sync lib x f l Hl)) as Hf.
  assert (twin (holds base) (withLog (syncLocked f l).1 (body x)) c) as Ht.
  { eapply explained_log; [done..|]. intros rs. apply holds_sync. }
  by destruct H as [A B C D E F G _]; split.
Qed.

Lemma explained_begin base x ds c i args q vs f :
  rtc (nstep lib) (nbegin t s cmds others) x -> explained base x ds c ->
  conns x !! i = Some (mkConn (args :: q) None vs) -> clients (body x) !! i = Some (mkClient [] None) ->
  args <> [] -> about_keys lib args = true -> permitted lib (shared (body x)) args f ->
  explained base
    (mkNet (withClient i (mkClient (issued lib args f) None) (body x))
         (<[i := mkConn q (Some (args, f, length (replies i (trace (body x))))) vs]> (conns x)))
    (alter (fun d => d ++ [(args, f)]) i ds) (extend i (issued lib args f) c).
Proof.
  intros Hreach H Hi Hcl Hne Hab Hper. pose proof (fates_step _ _ _ _ _ H (N_begin lib x i args q vs f Hi Hcl Hne Hab Hper)) as Hf.
  assert (exists d, ds !! i = Some d) as [d Hd].
  { apply lookup_lt_is_Some_2. rewrite (ex_length _ _ _ _ H), <- (ex_conns _ _ _ _ H). by eapply lookup_lt_Some. }
  pose proof (sentTo_alter i (args, f) ds d Hd) as Hsent. cbn [fst snd] in Hsent.
  destruct (twin_client _ _ _ i _ _ (ex_twin _ _ _ _ H) Hcl) as (p' & Hc & Hp). inversion Hp; subst; clear Hp.
  pose proof H as [A B C D E F G Hfa]. split; cbn [body conns].
  - rewrite <- Hsent, <- extend_begin. by apply ksteps_extend.
  - destruct B as [B1 B2 B3 B4 B5]. split; try done. cbn [extend withClient clients].
    rewrite (alter_at _ _ _ _ Hc). apply Forall2_insert; [done|]. split; [done|constructor].
  - rewrite <- Hsent. by apply counted_extend.
  - by rewrite length_insert.
  - by rewrite length_alter.
  - intros k cn cs dd. destruct (decide (k = i)) as [->|Hk].
    + rewrite list_lookup_insert_eq by (by eapply lookup_lt_Some). intros [= <-] Hcs.
      rewrite list_lookup_alter_eq, Hd. intros [= <-]. by eapply progress_begin, F.
    + rewrite list_lookup_insert_ne, list_lookup_alter_ne by done. apply F.
  - intros k cn. destruct (decide (k = i)) as [->|Hk].
    + rewrite list_lookup_insert_eq by (by eapply lookup_lt_Some). by intros [= <-].
    + cbn [withClient clients]. rewrite !list_lookup_insert_ne by done. apply G.
  - intros dd p. rewrite (alter_at _ _ _ _ Hd). intros [->|Hin]%elem_of_updated; [|by apply Hf].
    rewrite elem_of_app. intros [Hp|Hp]; [eapply Hf; [by eapply list_elem_of_lookup_2|done]|].
    apply list_elem_of_singleton in Hp as ->. exists x. split_and!; [exact Hreach| |done].
    by apply rtc_once, (N_begin lib x i args q vs f).
Qed.

Lemma explained_answer base x ds c i q args f n vs l :
  explained base x ds c ->
  conns x !! i = Some (mkConn q (Some (args, f, n)) vs) -> clients (body x) !! i = Some (mkClient [] None) ->
  journal (shared (body x)) = Some l ->
  explained base
    (mkNet (withLog (syncAfter lib args f l) (body x))
         (<[i := mkConn q None (vs ++ [tells lib args f (drop n (replies i (trace (body x))))])]> (conns x))) ds c.
Proof.
  intros H Hi Hcl Hl. pose proof (fates_step _ _ _ _ _ H (N_answer lib x i q args f n vs l Hi Hcl Hl)) as Hf.
  assert (twin (holds base) (withLog (syncAfter lib args f l) (body x)) c) as Ht.
  { eapply explained_log; [done..|]. intros rs. apply holds_after. }
  destruct (twin_client _ _ _ i _ _ (ex_twin _ _ _ _ H) Hcl) as (p' & Hc & Hp). inversion Hp; subst; clear Hp.
  pose proof H as [A B C D E F G Hfa]. split; cbn [body conns]; try done.
  - by rewrite length_insert.
  - intros k cn cs d. cbn [withLog trace]. destruct (decide (k = i)) as [->|Hk].
    + rewrite list_lookup_insert_eq by (by eapply lookup_lt_Some). intros [= <-] Hcs Hd.
      eapply progress_answer; [by eapply F|]. destruct C as [_ C].
      assert (sentTo ds !! i = Some (issuedAll lib d)) as Hs.
      { unfold sentTo. rewrite lookup_app_l by (rewrite length_fmap; by eapply lookup_lt_Some).
        by rewrite list_lookup_fmap, Hd. }
      specialize (C i _ _ Hs Hc). rewrite (tw_trace _ _ _ B) in C. unfold open in C. cbn in C. lia.
    + rewrite list_lookup_insert_ne by done. apply F.
  - intros k cn. cbn [withLog clients]. destruct (decide (k = i)) as [->|Hk]; [by intros _ _|].
    rewrite list_lookup_insert_ne by done. apply G.
Qed.

Lemma explained_step base x y ds c :
  rtc (nstep lib) (nbegin t s cmds others) x -> explained base x ds c -> nstep lib x y ->
  exists ds' c', explained base y ds' c'.
Proof.
  intros Hreach H [c' Hs|f l Hl|i args q vs f Hi Hcl Hne Hk Hper|i q args f n vs l Hi Hcl Hl].
  - destruct (explained_section _ _ _ _ _ H Hs) as [d Hd]. by exists ds, d.
  - exists ds, c. by apply explained_sync.
  - eexists _, _. by eapply explained_begin.
  - exists ds, c. by eapply explained_answer.
Qed.

Lemma explained_steps base x y ds c :
  rtc (nstep lib) (nbegin t s cmds others) x -> explained base x ds c -> rtc (nstep lib) x y ->
  exists ds' c', explained base y ds' c'.
Proof.
  intros Hreach H Hs. revert ds c Hreach H. induction Hs as [x|x z y Hxz _ IH]; intros ds c Hreach H; [by exists ds, c|].
  destruct (explained_step _ _ _ _ _ Hreach H Hxz) as (ds' & c' & H'). eapply IH; [by eapply rtc_r|done].
Qed.

(** When everything is safe the base moves. *)
Lemma explained_rebase base x ds c l rs :
  explained base x ds c -> journal (shared (body x)) = Some l -> journal (shared c) = Some rs -> safe l ->
  explained rs x ds c /\ content (disk l.1) = enc rs.
Proof.
  intros H Hl Hrs Hs. destruct (ex_twin _ _ _ _ H) as [T1 T2 T3 T4 T5]. pose proof (ag_journal _ _ _ T2) as Hj.
  rewrite Hl, Hrs in Hj. inversion Hj as [? ? Hh|]; subst.
  destruct (holds_safe _ _ _ Hh Hs) as [Hh' Hd]. split; [|done].
  assert (twin (holds rs) (body x) c) as Ht.
  { split; try done. destruct T2 as [A1 A2 A3 A4 A5 _]. split; try done. rewrite Hl, Hrs. by constructor. }
  by destruct H as [A B C D E F G Hf]; split.
Qed.

Lemma explained_start :
  agree (holds []) s u -> exists c, explained [] (nbegin t s cmds others) ((fun _ => []) <$> cmds) c.
Proof.
  intros Ha. exists (begin t u (sentTo ((fun _ => []) <$> cmds))).
  assert (sentTo ((fun _ => []) <$> cmds) = ((fun _ => []) <$> cmds) ++ others) as Hs.
  { unfold sentTo. f_equal. by rewrite <- list_fmap_compose. }
  split.
  - done.
  - rewrite Hs. by apply twin_begin.
  - apply counted_begin.
  - cbn. by rewrite length_fmap.
  - by rewrite length_fmap.
  - intros i cn cs d Hi Hc Hd. cbn in Hi. rewrite list_lookup_fmap, Hc in Hi. injection Hi as <-.
    rewrite list_lookup_fmap, Hc in Hd. injection Hd as <-. by exists [], [], [].
  - intros i cn Hi _. cbn in *. apply list_lookup_fmap_Some in Hi as (l & -> & Hl).
    rewrite list_lookup_fmap, lookup_app_l by (rewrite length_fmap; by eapply lookup_lt_Some).
    by rewrite list_lookup_fmap, Hl.
  - intros d p Hd Hp. apply list_elem_of_fmap in Hd as (l & -> & _). by apply elem_of_nil in Hp.
Qed.
End Explained.

#[global] Arguments ex_run {lib t s u cmds others base x ds c}.
#[global] Arguments ex_twin {lib t s u cmds others base x ds c}.
#[global] Arguments ex_counted {lib t s u cmds others base x ds c}.
#[global] Arguments ex_conns {lib t s u cmds others base x ds c}.
#[global] Arguments ex_length {lib t s u cmds others base x ds c}.
#[global] Arguments ex_progress {lib t s u cmds others base x ds c}.
#[global] Arguments ex_idle {lib t s u cmds others base x ds c}.
#[global] Arguments ex_fates {lib t s u cmds others base x ds c}.

(** ** Theorems *)

Lemma tracks_any {J K} `{!Journal J} `{!Journal K} t (s : Store J) (u : Store K) m :
  readShards u = readShards s -> tracks t u m -> tracks t s m.
Proof.
  intros H [[W1 W2] Hh]. split; [split; by rewrite <- H|]. unfold bindings, keyspace in *. by rewrite <- H.
Qed.

Lemma issuedAll_ok lib d : Forall req_ok (issuedAll lib d).
Proof.
  assert (forall args, Forall req_ok (requestsOf lib args)) as Hr.
  { intros args. apply Forall_fmap. eapply Forall_impl; [apply planOf_client|]. intros o Ho.
    destruct o; cbn in *; try done. destruct Ho as [-> | ->]; unfold is_int64, minInt64, maxInt64; lia. }
  apply Forall_concat, Forall_fmap, Forall_forall. intros [args f] _. cbn. destruct f as [|vs|[vs|]]; cbn; repeat constructor; auto.
Qed.

Lemma sentTo_ok lib others ds : Forall (Forall req_ok) others -> Forall (Forall req_ok) (sentTo lib others ds).
Proof.
  intros Ho. apply Forall_app. split; [|done]. apply Forall_fmap, Forall_forall. intros d _. apply issuedAll_ok.
Qed.

Lemma progress_done lib cs d tr i cn :
  progress lib cs d tr i cn -> queue cn = [] -> current cn = None -> length (told cn) = length cs.
Proof.
  intros (dn & rss & now & H1 & H2 & H3 & H4 & _) Hq Hc. rewrite Hc, app_nil_r in H1. subst dn.
  rewrite H2, Hq, app_nil_r, length_fmap, H4, length_zip_with. apply Forall2_length in H3. lia.
Qed.

(** The same store with a list for a journal. *)
Definition relist (rs : list record) (s : Store logState) : Store (list record) :=
  mkStore (readShards s) (Some rs) (maxMemory s) (policy s) (clock s) (stats s).

(** C7. Connections beside one another are linearizable, refusals included: any number of
    connections run their commands at the same time, among other clients, evictions, the
    sampler and the timer of the log, with any system call failing.  Whatever they have
    done, there is a run of the specification, where every request acts on one expiring map
    at single instants between its invocation and its reply, with these replies, and the
    store holds its map.  The requests in it are those of the commands' fates: of a command
    refused because the log had failed there is nothing, of one refused for lack of memory
    only evictions; and each fate was permitted when the command was begun.  Every answered
    command has exactly one answer, in the order of its connection's commands, made of its
    own replies. *)
Theorem network_linearizable (lib : Lib) (t : Time) (s : Store logState) (l : logState) (g : ghost)
    (cmds : list (list (list bytes))) (others : list (list req)) (x : net) :
  zeroTime <= t -> store_wf s -> journal s = Some l -> log_ok l g -> Forall (Forall req_ok) others ->
  rtc (nstep lib) (nbegin t s cmds others) x ->
  exists ds a,
    rtc astep (abegin t (bindings s) (sentTo lib others ds)) a /\ atrace a = trace (body x) /\
    tracks (time (body x)) (shared (body x)) (amap a) /\
    (forall d args f, d ∈ ds -> (args, f) ∈ d -> exists x0,
       rtc (nstep lib) (nbegin t s cmds others) x0 /\ rtc (nstep lib) x0 x /\
       permitted lib (shared (body x0)) args f) /\
    forall i cn cs, conns x !! i = Some cn -> cmds !! i = Some cs ->
      exists d, ds !! i = Some d /\ progress lib cs d (atrace a) i cn /\
        (queue cn = [] -> current cn = None -> length (told cn) = length cs).
Proof.
  intros Ht Hwf Hl Hg Hot Hx. set (u := relist (recs g) s).
  assert (agree (holds []) s u) as Ha.
  { split; try done. rewrite Hl. constructor. exists g. split_and!; try done; [apply prefix_nil|apply Nat.le_0_l]. }
  destruct (explained_start lib t s u cmds others Ha) as [c0 H0].
  destruct (explained_steps lib t s u cmds others _ _ _ _ _ (rtc_refl _ _) H0 Hx) as (ds & c & H).
  assert (Forall (Forall (admitted (durable u))) (sentTo lib others ds)) as Hok.
  { eapply Forall_impl; [by apply sentTo_ok|]. intros qs Hq. eapply Forall_impl; [exact Hq|].
    intros q Hq'. split; [done|by left]. }
  assert (tracks t u (bindings s)) as Htr.
  { apply (tracks_any t u s); [done|]. by apply tracks_bindings. }
  destruct (sim_steps u _ c _ _ (sim_begin u t _ _ Ht Htr Hok) (ex_run H)) as (a & pend & Har & Hs).
  pose proof (ex_twin H) as Htw.
  assert (atrace a = trace (body x)) as Htrace.
  { rewrite <- (tw_trace _ _ _ Htw). apply Hs. }
  exists ds, a. split_and!; [done|done| | |].
  - apply (tracks_any _ _ (shared c)); [apply (ag_shards _ _ _ (tw_store _ _ _ Htw))|].
    rewrite <- (tw_time _ _ _ Htw). apply Hs.
  - intros d args f Hd Hp. exact (ex_fates H d (args, f) Hd Hp).
  - intros i cn cs Hi Hc. destruct (lookup_lt_is_Some_2 ds i) as [d Hd].
    { rewrite (ex_length H). by eapply lookup_lt_Some. }
    pose proof (ex_progress H i cn cs d Hi Hc Hd) as Hp.
    exists d. rewrite Htrace. split_and!; [done..|]. intros Hq Hcur. by eapply progress_done.
Qed.

(** C8. A crash of a server with concurrent connections loses only a tail and never mixes
    moments.  From an empty log, let connections, other clients and the timer do anything,
    any system call failing; take a moment when the log is safe, as a successful sync leaves
    it; go on, and crash, keeping any part of what was not synced.  Then there is a run of
    the specification with the replies the clients have had and the map of the store, and a
    moment of it whose log is the complete records the crash left, among them all that was
    journalled before that sync; the last moment, if they are all there and the commit gate
    is free.  If the records can be read again (they fit the protocol's limits, and their
    deadlines the range [applyLogged] reads, which a client's PX can exceed), [Replay] accepts
    what is left, and the restarted server shows the map of that moment, its deadlines cut to
    the millisecond, without the keys that have been given, since they were last
    written or deleted, a deadline that has passed. *)
Theorem network_crash_recovers (lib : Lib) (t : Time) (l l1 l2 : logState)
    (cmds : list (list (list bytes))) (others : list (list req)) (x1 x : net) (cut : nat) :
  Millisecond <= t -> log_ok l (mkGhost [] [] None) -> Forall (Forall req_ok) others ->
  let start := nbegin t (SetJournal l New) cmds others in
  rtc (nstep lib) start x1 -> journal (shared (body x1)) = Some l1 -> safe l1 ->
  rtc (nstep lib) x1 x -> journal (shared (body x)) = Some l2 -> (synced (disk l2.1) <= cut)%nat ->
  exists ds cs1 cs a a0 n,
    rtc astep (abegin t ∅ (sentTo lib others ds)) a0 /\ rtc astep a0 a /\ atrace a = trace (body x) /\
    tracks (time (body x)) (shared (body x)) (amap a) /\
    (forall i cn c d, conns x !! i = Some cn -> cmds !! i = Some c -> ds !! i = Some d ->
       progress lib c d (atrace a) i cn) /\
    content (disk l1.1) = enc (wire <$> cs1) /\
    (logErr l2.2 = None -> content (disk l2.1) ++ wbuf (bw l2.2) = enc (wire <$> cs)) /\
    n = complete (wire <$> cs) (length (content (disk (crashed cut l2.1)))) /\
    alog a0 = take n cs /\ wire <$> cs1 `prefix_of` wire <$> take n cs /\
    (gate (body x) = None -> n = length cs -> a0 = a) /\
    forall (envs : nat -> Env) (src : source),
      Forall recordable (take n cs) -> Forall sendable (wire <$> cs) ->
      reads src (crashed cut l2.1) -> restart_clock (time (body x)) envs ->
      exists o' s' res,
        Replay (replayer lib envs) src (crashed cut l2.1) (NewServer, 0%nat)
          = (o', (s', length (take n cs)), res, None) /\
        clean o' (wire <$> take n cs) /\
        showsMap s' (amap a0) (take n cs) (Now (envs (length (take n cs))) 0).
Proof.
  intros Hms Hok Hot start Hx1 Hl1 Hs Hx Hl2 Hcut. set (s := SetJournal l New) in *. set (u := SetJournal [] New : Store (list record)).
  assert (agree (holds []) s u) as Ha.
  { split; try done. constructor. exists (mkGhost [] [] None). split_and!; done || apply Nat.le_0_l. }
  destruct (explained_start lib t s u cmds others Ha) as [c0 H0].
  destruct (explained_steps lib t s u cmds others _ _ _ _ _ (rtc_refl _ _) H0 Hx1) as (ds1 & c1 & H1).
  destruct (journal_moments t (sentTo lib others ds1) c1 Hms) as (cs1 & _ & Hj1 & _);
    [by apply sentTo_ok|apply (ex_run H1)|].
  destruct (explained_rebase lib t s u cmds others _ _ _ _ _ _ H1 Hl1 Hj1 Hs) as [H2 Hd2].
  destruct (explained_steps lib t s u cmds others _ _ _ _ _ Hx1 H2 Hx) as (ds & c & H).
  destruct (journal_moments t (sentTo lib others ds) c Hms) as (cs & a & Hj & Har & Hat & Htr & Htc & Hall);
    [by apply sentTo_ok|apply (ex_run H)|].
  pose proof (ex_twin H) as Htw. pose proof (ag_journal _ _ _ (tw_store _ _ _ Htw)) as Hjj.
  rewrite Hl2, Hj in Hjj. inversion Hjj as [? ? Hh|]; subst.
  destruct (holds_crashed _ _ _ cut Hh Hcut) as (Hleft & Hlen & Hbase & Hwhole).
  set (k := length (content (disk (crashed cut l2.1)))) in *.
  set (n := complete (wire <$> cs) k). destruct (Hall n) as (a0 & A1 & A2 & A3 & A4 & A5).
  rewrite (tw_time _ _ _ Htw) in A4, Htc. rewrite (tw_trace _ _ _ Htw) in Hat.
  exists ds, cs1, cs, a, a0, n. split_and!; [done..| | |done|done|done|done|by rewrite fmap_take| |].
  - apply (tracks_any _ _ (shared c)); [apply (ag_shards _ _ _ (tw_store _ _ _ Htw))|].
    by rewrite <- (tw_time _ _ _ Htw).
  - intros i cn cc d Hi Hcc Hd. rewrite Hat. exact (ex_progress H i cn cc d Hi Hcc Hd).
  - intros Hg Hn. apply A5; [by rewrite (tw_gate _ _ _ Htw)|lia].
  - intros envs src Hrc Hsd Hrd Hclk.
    destruct (replay_map_cut lib (time (body x)) (amap a0) cs k n NewServer) with (envs := envs) (src := src) (o := crashed cut l2.1)
      as (o' & s' & res & m' & Hrep & Hcl & _ & Hsh & _); try done.
    + unfold zeroTime, Millisecond, Second in *. lia.
    + apply A4.
    + apply Nat.lt_0_1.
    + by exists o', s', res.
Qed.

(** ** A run

    One connection sends INCR twice to a server whose disk is full. *)

Lemma nsections lib x c : rtc kstep (body x) c -> rtc (nstep lib) x (mkNet c (conns x)).
Proof.
  destruct x as [b cn]. cbn [body conns]. induction 1 as [b|b b1 c Hb _ IH]; [done|].
  eapply rtc_l; [by apply (N_section lib (mkNet b cn) b1)|done].
Qed.

Definition incr_n : list bytes := [bs "incr"; bs "n"].

Definition incr_start (l : logState) : net := nbegin Second (SetJournal l New) [[incr_n; incr_n]] [].

(** The first command begins, and runs. *)
Definition incr_begun (l : logState) : net :=
  mkNet (withClient 0 (mkClient (issued ascii_lib incr_n (Served None)) None) (body (incr_start l)))
    [mkConn [incr_n] (Some (incr_n, Served None, 0%nat)) []].

Definition alone (k : nat) : list (option nat) := replicate k (Some 0%nat).

Lemma incr_first (l : logState) :
  logErr l.2 = None -> rtc (nstep ascii_lib) (incr_start l) (incr_begun l).
Proof.
  intros Hl. eapply rtc_once.
  refine (N_begin ascii_lib (incr_start l) 0 incr_n [incr_n] [] (Served None) _ _ _ _ _); done.
Qed.

(** It is answered, from its reply. *)
Definition incr_answered (l : logState) : option net :=
  c ← schedule (alone 8) (body (incr_begun l));
  l' ← journal (shared c);
  Some (mkNet (withLog (syncAfter ascii_lib incr_n (Served None) l') c)
          [mkConn [incr_n] None [tells ascii_lib incr_n (Served None) (replies 0 (trace c))]]).

Lemma incr_served l x :
  logErr l.2 = None -> incr_answered l = Some x -> clients (body x) = [mkClient [] None] ->
  rtc (nstep ascii_lib) (incr_start l) x.
Proof.
  intros Hl Hx Hcl. etrans; [by apply incr_first|].
  unfold incr_answered in Hx. destruct (schedule (alone 8) (body (incr_begun l))) as [c|] eqn:Hc; [|done].
  cbn [mbind option_bind] in Hx. destruct (journal (shared c)) as [l'|] eqn:Hl'; [|done].
  cbn in Hx. injection Hx as <-. cbn in Hcl.
  etrans; [apply (nsections _ (incr_begun l) c), (schedule_steps _ _ _ Hc)|]. apply rtc_once.
  refine (N_answer ascii_lib (mkNet c (conns (incr_begun l))) 0 [incr_n] incr_n (Served None) 0 [] l' _ _ _);
    [done|cbn; by rewrite Hcl|done].
Qed.

(** The second one is refused, if the log has failed by then. *)
Definition incr_refused (x : net) : net :=
  mkNet (body x) ((fun cn => mkConn [] None (told cn ++ [misconf])) <$> conns x).

Lemma incr_misconf x l e v :
  journal (shared (body x)) = Some l -> logErr l.2 = Some e -> clients (body x) = [mkClient [] None] ->
  conns x = [mkConn [incr_n] None [v]] -> rtc (nstep ascii_lib) x (incr_refused x).
Proof.
  destruct x as [[t s g cl tr] cn]. cbn. intros Hl He -> ->.
  eapply rtc_l.
  - refine (N_begin ascii_lib _ 0 incr_n [] [v] Misconf _ _ _ _ _); try done.
    split; [done|]. exists e. cbn. by rewrite Hl.
  - apply rtc_once. destruct s. cbn in Hl. subst.
    refine (N_answer ascii_lib _ 0 [] incr_n Misconf _ [v] l _ _ _); done.
Qed.

(** The first is told 1 though the log has lost its record; then the log is known to have
    failed. *)
Lemma incr_full :
  (fun x => (clients (body x), trace (body x), conns x, (journal (shared (body x)) ≫= Err))) <$>
    incr_answered opened =
  Some ([mkClient [] None], [Invoke 0 (QIncrement (bs "n") 1); Respond 0 (RIncr (inl 1))],
        [mkConn [incr_n] None [VInteger 1]], Some (OSError 28)).
Proof. vm_compute. reflexivity. Qed.

Lemma network_linearizable_witness :
  exists x ds a, rtc (nstep ascii_lib) (incr_start opened) x /\ conns x = [mkConn [] None [VInteger 1; misconf]] /\
    rtc astep (abegin Second ∅ (sentTo ascii_lib [] ds)) a /\
    atrace a = [Invoke 0 (QIncrement (bs "n") 1); Respond 0 (RIncr (inl 1))] /\
    tracks (time (body x)) (shared (body x)) (amap a).
Proof.
  pose proof incr_full as Hrun. destruct (incr_answered opened) as [x|] eqn:Hx; [|discriminate].
  injection Hrun as Hcl Htr Hcn Herr. destruct (journal (shared (body x))) as [l|] eqn:Hl; [|discriminate].
  assert (rtc (nstep ascii_lib) (incr_start opened) (incr_refused x)) as Hr.
  { etrans; [by apply incr_served|]. by eapply incr_misconf. }
  destruct (network_linearizable ascii_lib Second (SetJournal opened New) opened (mkGhost [] [] None)
    [[incr_n; incr_n]] [] (incr_refused x)) as (ds & a & Ha & Hat & Htk & _).
  - unfold zeroTime, Second. lia.
  - apply SetJournal_wf, New_wf.
  - reflexivity.
  - apply opened_ok.
  - constructor.
  - exact Hr.
  - replace (bindings (SetJournal opened New)) with (∅ : kv) in Ha by (vm_compute; reflexivity).
    exists (incr_refused x), ds, a. split_and!; [exact Hr| |exact Ha| |exact Htk].
    + cbn. by rewrite Hcn.
    + rewrite Hat. exact Htr.
Defined.

(** With room on the disk the record is safe when the command is answered. *)
Definition n_is_1 : list record := [[cmdSET; bs "n"; bs "1"]].

Lemma incr_safe :
  (fun x => (clients (body x), gate (body x), time (body x), entry_at (shared (body x)) (bs "n"),
             (fun l : logState => (logErr l.2, wbuf (bw l.2), disk l.1)) <$> journal (shared (body x)))) <$>
    incr_answered healthy =
  Some ([mkClient [] None], None, Second, Some (mkEntry (bs "1") 0 zeroTime),
        Some (None, [], mkFile (enc n_is_1) (length (enc n_is_1)))).
Proof. vm_compute. reflexivity. Qed.

Lemma n_is_1_only (cs : list change) :
  enc n_is_1 = enc (wire <$> cs) -> exists d, cs = [ChSet (bs "n") (bs "1") d] /\ IsZero d = true.
Proof.
  intros He. apply wire_plain_set. symmetry. apply enc_inj; [| |done].
  - apply small_sendable; [by repeat constructor|]. vm_compute. discriminate.
  - apply small_sendable; [apply wire_nonempty|]. rewrite <- He. vm_compute. discriminate.
Qed.

Lemma shows_n s' m d from T :
  IsZero d = true -> m !! bs "n" = Some (bs "1", zeroTime) ->
  showsMap s' m [ChSet (bs "n") (bs "1") d] from -> from <= T ->
  see T (store s') (bs "n") = Some (bs "1", zeroTime).
Proof.
  intros Hd Hm Hall HT. destruct (Hall T (bs "n") HT) as [_ Hcomp]. apply (Hcomp (bs "1") zeroTime).
  - unfold vis. by rewrite Hm.
  - intros y Hy. unfold deadlines in Hy. cbn [foldl deadlines_step] in Hy.
    rewrite Hd, decide_True in Hy by done. by apply elem_of_nil in Hy.
Qed.

Lemma network_crash_recovers_witness :
  exists x l o' s' n res,
    rtc (nstep ascii_lib) (incr_start healthy) x /\ journal (shared (body x)) = Some l /\
    Replay (replayer ascii_lib (frozen (5 * Second))) (whole (enc n_is_1)) (crashed 31 l.1) (NewServer, 0%nat)
      = (o', (s', n), res, None) /\
    see (6 * Second) (store s') (bs "n") = Some (bs "1", zeroTime).
Proof.
  pose proof incr_safe as Hrun. destruct (incr_answered healthy) as [x|] eqn:Hx; [|discriminate].
  injection Hrun as Hcl Hg Ht He Hj. destruct (journal (shared (body x))) as [l|] eqn:Hl; [|discriminate].
  injection Hj as Hle Hwb Hdk.
  assert (rtc (nstep ascii_lib) (incr_start healthy) x) as Hr by (by apply incr_served).
  assert (safe l) as Hs by (split_and!; [exact Hle|exact Hwb|by rewrite Hdk]).
  destruct (network_crash_recovers ascii_lib Second healthy l l [[incr_n; incr_n]] [] x x 31)
    as (ds & cs1 & cs & a & a0 & n & _ & _ & _ & Htr & _ & _ & Hw & Hn & _ & _ & Ha0 & Hrep).
  - unfold Second, Millisecond. lia.
  - apply opened_ok.
  - constructor.
  - exact Hr.
  - exact Hl.
  - exact Hs.
  - apply rtc_refl.
  - exact Hl.
  - rewrite Hdk. apply Nat.leb_le. vm_compute. reflexivity.
  - specialize (Hw Hle). rewrite Hwb, Hdk, app_nil_r in Hw. destruct (n_is_1_only cs Hw) as (d & -> & Hd).
    assert (wire <$> [ChSet (bs "n") (bs "1") d] = n_is_1) as Hw1 by (cbn; unfold setRecord; by rewrite Hd).
    assert (content (disk (crashed 31 l.1)) = enc n_is_1) as Hc
      by (unfold crashed; rewrite Hdk; vm_compute; reflexivity).
    rewrite Hc, Hw1, complete_all in Hn. subst n. specialize (Ha0 Hg eq_refl). subst a0.
    destruct (Hrep (frozen (5 * Second)) (whole (enc n_is_1))) as (o' & s' & res & Hrep' & _ & Hall).
    + constructor; [by left|constructor].
    + rewrite Hw1. repeat constructor; done.
    + split; [repeat constructor; done|]. split; [done|]. rewrite Hc. reflexivity.
    + rewrite Ht. split; [unfold frozen, Second; cbn; lia|]. intros i. unfold frozen. cbn. lia.
    + exists x, l, o', s', 1%nat, res. split_and!; [exact Hr|exact Hl|exact Hrep'|].
      apply (shows_n s' (amap a) d (Now (frozen (5 * Second) 1%nat) 0)); [exact Hd| |exact Hall|].
      * apply tracks_keys in Htr as [_ Hk]. specialize (Hk (bs "n")). rewrite He in Hk. exact Hk.
      * unfold frozen, Second. cbn. lia.
Defined.
